(* ===== verification/_CoqProject ===== *)
-Q . S2P
Prelude.v
Fs.v
Http.v
Wal.v
WalFacts.v
WalProps.v
Log.v
FileLog.v
FileLogFacts.v
MemoryLog.v
Config.v
Stores.v
FileStable.v
FileSnapshot.v
Store.v
Server.v
Codecs.v
FileProps.v
RaftState.v
RaftElection.v
RaftReplication.v
RaftApply.v
RaftSnapshot.v
RaftRecovery.v
RaftLoop.v
Transport.v
NodeProc.v
RaftInvariant.v
ElectionFacts.v
ReplicationFacts.v
ApplyFacts.v
SnapshotFacts.v
RecoveryFacts.v
InstallFacts.v
RaftNode.v
Untouched.v
PendingFacts.v
LoopFacts.v
ResultFacts.v
ProcessFacts.v
ReplicationLive.v
RaftExchange.v
Protocol.v
FullLog.v
Member.v
MemberLog.v
MemberSnapshot.v
Cluster.v
ClusterFacts.v
Doubles.v
Samples.v
ClusterSamples.v
LoopProps.v
ProcessProps.v
TransportProps.v
ElectionProps.v
ReplicationProps.v
SnapshotProps.v
ClusterProps.v
Findings.v
