(* ===== verification/Prelude.v ===== *)
(** * A verification development for the distributed key-value store

    The program is a three-node replicated key-value store in Go: HTTP in
    front, Raft behind, three files per node.  This library models it from the
    file system up to the answer an HTTP client gets, and proves what makes
    each part, and their composition, correct.

    ** The parts, and the files that model them

    - [internal/wal/wal.go]: [Fs] (the calls of package [os], each of which may
      succeed, fail or be the moment of a crash, and what a crash leaves),
      [Wal] (every operation of the write-ahead log), [WalFacts], [WalProps].
    - [internal/raft/log.go]: [Log] (entries, the interface [LogStore] with its
      laws, index arithmetic), [FileLog] and [FileLogFacts] (the durable store
      and the proof that it is a [LogStore]).
    - [internal/raft/memory_log.go]: [MemoryLog].
    - [internal/raft/stable_state.go]: [Stores] (the interface, with the
      interfaces of the snapshot store and the state machine), [FileStable].
    - [internal/snapshot/snapshot.go]: [Stores], [FileSnapshot].
    - [internal/store/memory.go]: [Store].  [internal/config/config.go]:
      [Config].
    - [internal/raft/raft.go]: [RaftState] (the struct, the messages, log
      addressing), [RaftElection], [RaftReplication], [RaftApply],
      [RaftSnapshot], [RaftRecovery], [RaftLoop] (the two goroutines and their
      timers), [RaftExchange] ([replicateToPeer] with its peer at the other
      end).
    - [internal/transport]: [Transport] (the conversions, the connection cache,
      the calls, the RPC server).
    - [internal/server/server.go]: [Http] (what it uses of [net/http] and
      [net/url]) and [Server].  [internal/node/node.go]: [NodeProc].

    A Go function is one definition of the same name where Rocq allows it (a
    method of a type that shares its name with another gets the type in
    front: [file_Append], [Raft_IsLeader], [Process_Stop]).  Structs are
    records, integers [Z] with the wrap-around of their width written out
    ([u64], [i32], ...), errors the type [error] below, a pair of a value and an
    error [Fallible].  A function that changes its receiver returns it.  Where
    [raft.go] releases its mutex a function is split there, one definition per
    critical section ([applyCommitted_fetch], [_execute], [_complete];
    [startElection_begin], [countVote]; ...), and a definition of the
    function's own name composes them with nothing in between.

    The parts meet in classes: the Raft definitions take a [StableStore], a
    [LogStore], a [StateMachine] and a [SnapshotStore]; their laws are
    separate classes ([LogStoreLaws], ...: a call that succeeds has its effect,
    one that fails has none, or for a save may have had it), and a third layer
    says when calls do succeed ([LogStoreLive], ...).  The file stores and the
    in-memory ones are instances.  The HTTP handlers take a [ReadStore], a
    [ClusterStatus] and a [WriteCoordinator]; the node process is one.

    ** What is proved

    - One node ([RaftInvariant], the [*Facts] files, [RaftNode]).  [node_ok]
      ties memory to the durable stores; [advances] orders the states a node
      may go through.  Every critical section preserves the one and respects
      the other, whatever the stores report, so do restarts, hence every
      history ([history_invariant]).  [InstallFacts] has the InstallSnapshots
      that fail, before and after they have cut the durable log, and the start
      of a process from what they leave.
    - Elections ([ElectionProps]): one vote per term across restarts, votes
      durable before they are granted, the exact voting rule, leaders need a
      majority and a majority is enough.
    - Replication ([ReplicationProps]): AppendEntries computes the reference
      merge and answers exactly when it may; the commit rule; the leader's
      requests; an exchange with a compatible follower converges; the apply
      loop applies in order and exactly once with the other sections between
      its own ([Untouched]: which sections touch the machine, the apply index
      or the snapshot boundary), and ends when it is undisturbed.
    - Snapshots and recovery ([SnapshotProps]): compaction loses nothing,
      survives a restart at any point, InstallSnapshot replaces exactly the
      covered prefix, start-up rebuilds the node.
    - The goroutines ([LoopFacts], [LoopProps]): no wake-up of the apply loop
      is lost in any interleaving, a turn of the loop is one of the
      interleavings and ends, the election timer stays in its bounds.
    - The clients ([PendingFacts], [ResultFacts], [LoopProps]): channels are
      written and closed once, an answer is about the proposal's own index and
      a success means applied, a failed state machine answers everybody.
    - Durability ([WalProps], [FileProps]): with calls failing and the process
      crashing anywhere, appends, replacements and saves are all or nothing
      (an append: a prefix), and durable once they return; the durable log
      equals the in-memory one on a working disk; corrupt files are refused.
    - The wire ([TransportProps]): a remote call is a local one for entries the
      log accepts and identifiers of 32 bits, and for no wider ones; the cache of
      connections under races.
    - The process ([ProcessFacts], [ProcessProps]): a write acknowledged over
      HTTP is applied by the leader that took it, other nodes redirect it; a
      process that crashed inside an append starts again as a consistent node.
    - The cluster.  [Protocol] is Raft on whole logs: members with a term, a
      vote and a log, and the history the argument needs (who campaigned, voted,
      led, and which prefix of a leader's log each member has taken over); its
      invariant gives one leader per term, log matching and leader
      completeness.  [FullLog] says how a node's retained suffix sits in a whole
      log ([holds]).  [Member], [MemberLog] and [MemberSnapshot] tie a node to a
      member ([linked]) and match each operation of [raft.go] by steps of the
      protocol.  [Cluster] is the system: hosts (a node, where its apply
      goroutine is, the election it waits for), a network that delivers,
      repeats, reorders and loses, restarts from the durable stores; each step
      is one critical section of one host ([buildInstallSnapshot] is three),
      and requests reach their handlers through the conversions and the RPC
      server of [Transport].  [ClusterFacts] has the simulation
      ([cluster_ok]: every host linked, every message true to what its sender
      knew) and that a host's steps are steps of its node's histories, with
      what those assume of messages ([promised]); [ClusterProps] state machine
      safety, election safety, log matching, leader completeness and the
      refinement, of the code itself, for any number of members.
    - [Findings]: concrete runs where the code does not do what it means to.

    [Codecs], [Doubles], [Samples] and [ClusterSamples] hold instances, concrete
    nodes and a cluster of three run by a list of actions; the witnesses run on
    them.

    ** Bounds and fuel

    Indexes are assumed below 2^63 and terms below 2^64 where an operation
    increments them ([room]); the code has no such check.  Loops with a fuel:
    [replay_from] (the file's length: a record takes five bytes at least),
    [replayCommitted] (the distance to the commit index), [advanceCommit_from]
    (the entries past the commit index), [applyCommitted] and [exchange] (a parameter;
    [applyCommitted_returns] and [replication_converges] give one that is
    enough).

    ** Assumptions

    [encoding/json] and SHA-256 are classes with round-trip laws
    ([EntryCodec], [StateCodec], [SnapshotCodec], [MapCodec], [ServerCodec]),
    met by the instances of [Codecs].  A crash keeps of a file anything between
    its synced and its written contents, and of a name the synced or the
    current file.  A call of the log store that fails is assumed to have had no
    effect ([LogStoreLaws]): the in-memory store meets that, and the file store
    on a disk whose calls do not fail; on another it may keep part of a batch
    ([partial_batch_kept]).  What the file store does under failures and
    crashes is in [FileProps], of the store by itself.

    The histories of one node ([section_step]) take from the
    sender what a node cannot check ([request_ok], [install_agrees]); in the
    cluster nothing of the kind is assumed, it is proved of every message sent.
    What the cluster does assume: members have distinct identifiers, of 32 bits
    (the wire cuts others: [wire_identifiers]), and the same configuration, they
    start with empty stores, terms and indexes keep their width ([room]), a
    process that dies starts again with its own stores and configuration.

    An InstallSnapshot may fail at any of its calls.  If the durable log and the
    durable commit index are then as before, the process goes on
    ([hs_install_failed]; in a history the log alone decides:
    [step_install_snapshot]).  If not, memory and stores disagree; the code
    lets the process run on and nothing is claimed of that
    ([refused_snapshot_installed] shows it).  What is covered there is a process
    that ends at that point and starts again from whatever the install left
    ([hs_install_restart], [step_install_restart]).  A process that dies inside
    another section is one whose next store call fails and that ends then.

    ** Not modelled

    - Across hosts: that machines are equal where the apply indexes are
      ([stale_entry_applied] shows that they need not be while a snapshot
      is installed), liveness of the cluster, and changes of the membership, which
      the program does not have.
    - [cmd/distributed_kv_store/main.go], sockets, signals, [context]
      cancellation other than as a call that fails or a wait that ends.
    - The generated protobuf code (its messages are the records of the module
      [pb] of [Transport]), gRPC, the YAML parser, and the three path functions
      of [config.go] (each file is a disk of its own).
    - Operands of error messages, which no code reads back. *)

From stdpp Require Export prelude gmap strings list.
From Stdlib Require Export ZArith Lia.
From Stdlib Require Strings.Byte.

#[export] Set Default Goal Selector "!".

#[global] Open Scope Z_scope.

(** ** Machine integers

    Go's [uint64], [int] (64 bits here) and [int32] are integers [Z] whose
    arithmetic is reduced to the width after each operation. *)

Definition u64 (z : Z) : Z := z `mod` 2 ^ 64.
Definition i64 (z : Z) : Z := (z + 2 ^ 63) `mod` 2 ^ 64 - 2 ^ 63.
Definition i32 (z : Z) : Z := (z + 2 ^ 31) `mod` 2 ^ 32 - 2 ^ 31.
Definition u32 (z : Z) : Z := z `mod` 2 ^ 32.

#[global] Arguments u64 : simpl never.
#[global] Arguments i64 : simpl never.
#[global] Arguments i32 : simpl never.
#[global] Arguments u32 : simpl never.

Definition is_u64 (z : Z) : Prop := 0 ≤ z < 2 ^ 64.

Lemma u64_small z : 0 ≤ z < 2 ^ 64 → u64 z = z.
Proof. intros H. unfold u64. by apply Z.mod_small. Qed.

Lemma u64_range z : is_u64 (u64 z).
Proof. unfold is_u64, u64. apply Z.mod_pos_bound. lia. Qed.

Lemma i64_small z : - 2 ^ 63 ≤ z < 2 ^ 63 → i64 z = z.
Proof. intros H. unfold i64. rewrite Z.mod_small; lia. Qed.

Lemma i32_small z : - 2 ^ 31 ≤ z < 2 ^ 31 → i32 z = z.
Proof. intros H. unfold i32. rewrite Z.mod_small; lia. Qed.

Lemma u32_small z : 0 ≤ z < 2 ^ 32 → u32 z = z.
Proof. intros H. unfold u32. by apply Z.mod_small. Qed.

(** [[]byte]. *)
Abbreviation bytes := (list Byte.byte) (only parsing).

#[export] Instance byte_eq_dec : EqDecision Byte.byte.
Proof. solve_decision. Defined.

(** ** Go errors

    An error is a sentinel compared by identity, a formatted message, or a
    message that wraps ([%w]) another error.  The operands a format string
    prints are dropped: no code of the program reads them back. *)

Inductive error :=
| Sentinel (name : string)
| Errorf (format : string)
| Wrapf (format : string) (cause : error).

#[export] Instance error_eq_dec : EqDecision error.
Proof. solve_decision. Defined.

(** [errors.Is]: the target occurs in the chain of wrapped errors. *)
Fixpoint errors_Is (err target : error) : bool :=
  bool_decide (err = target) ||
  match err with
  | Wrapf _ cause => errors_Is cause target
  | _ => false
  end.

(** A [(value, error)] pair of which the caller reads one component. *)
Inductive Fallible (A : Type) :=
| Ok (a : A)
| Err (e : error).
Arguments Ok {A} a.
Arguments Err {A} e.

(** ** Field updates

    [r <| field := v |>] is the record [r] with one field replaced.  A record
    declares one [Setter] instance per field. *)

Class Setter {R T : Type} (field : R → T) := set_field : T → R → R.
Arguments set_field {R T} field {_} v r.

Declare Scope update_scope.
Delimit Scope update_scope with update.
Notation "r <| field := v |>" := (set_field field v r)
  (at level 12, field at level 9, v at level 99, left associativity,
   format "r  <| field  :=  v |>") : update_scope.
#[global] Open Scope update_scope.

(** ** Tactics *)

(** Split every conjunction of the goal, and every one of the hypotheses. *)
Ltac splits := repeat match goal with |- _ ∧ _ => split end.

(** Case analysis on the conditions the goal branches on, keeping what each
    branch learns and closing the branches that contradict the context. *)
Ltac cases :=
  repeat (case_decide || case_match); simplify_eq/=; try done.

(** The same for a hypothesis [H : (if … then … else …) = …]. *)
Ltac cases_in H :=
  repeat match type of H with
         | context [decide ?P] => destruct (decide P)
         | context [match ?x with _ => _ end] => destruct x eqn:?
         end; simplify_eq/=; try done.

(** ** Lists and lengths *)

Definition lenZ {A} (l : list A) : Z := Z.of_nat (length l).

#[global] Arguments lenZ : simpl never.

Lemma lenZ_nonneg {A} (l : list A) : 0 ≤ lenZ l.
Proof. unfold lenZ. lia. Qed.

Lemma lenZ_nil {A} : lenZ (@nil A) = 0.
Proof. done. Qed.

Lemma lenZ_cons {A} (x : A) l : lenZ (x :: l) = 1 + lenZ l.
Proof. unfold lenZ. simpl. lia. Qed.

Lemma lenZ_app {A} (l k : list A) : lenZ (l ++ k) = lenZ l + lenZ k.
Proof. unfold lenZ. rewrite length_app. lia. Qed.

Create Rewrite HintDb lenZ.
#[export] Hint Rewrite @lenZ_nil @lenZ_cons @lenZ_app : lenZ.
