(* ===== verification/Fs.v ===== *)
(** * The file system under the durable stores

    The calls of package [os] that [wal.go], [stable_state.go] and
    [snapshot.go] make, on the one file each store owns.  Every call may
    succeed, fail (a failing write leaves a prefix of its bytes), or be the
    moment the process crashes; which, is the disk's schedule [faults].  A
    crash loses what was not synced: [image] gives the contents a restart may
    find under the store's path. *)

From S2P Require Import Prelude.

(** ** Disk and handles *)

(** What the next call meets: success, an error, or a crash; a write has then
    transferred its first [n] bytes. *)
Inductive outcome :=
| Done
| Failed (n : nat) (e : error)
| Crashed (n : nat).

(** A file's contents, and the contents of its last sync. *)
Record inode := mkInode {
  content : bytes;
  durable : bytes;
}.

(** The files that exist, the one the store's path names, the one it names in
    the last synced directory, and the outcomes to come ([Done] forever when
    the list ends).  An open file is the position of its inode. *)
Record Disk := mkDisk {
  inodes : list inode;
  link : option nat;
  durableLink : option nat;
  faults : list outcome;
}.

#[export] Instance set_inodes : Setter inodes :=
  λ v d, mkDisk v (link d) (durableLink d) (faults d).
#[export] Instance set_link : Setter link :=
  λ v d, mkDisk (inodes d) v (durableLink d) (faults d).
#[export] Instance set_durableLink : Setter durableLink :=
  λ v d, mkDisk (inodes d) (link d) v (faults d).
#[export] Instance set_faults : Setter faults :=
  λ v d, mkDisk (inodes d) (link d) (durableLink d) v.

(** ** Computations on a disk

    [None] when the process crashes on the way. *)
Definition IO (A : Type) : Type := Disk → Disk * option A.

#[export] Instance IO_ret : MRet IO := λ A a d, (d, Some a).
#[export] Instance IO_bind : MBind IO := λ A B f m d,
  match m d with
  | (d, Some a) => f a d
  | (d, None) => (d, None)
  end.

(** [if err := m; err != nil { return fail err }; k] *)
Definition check {A} (m : IO (option error)) (fail : error → IO A) (k : IO A) : IO A :=
  err ← m; match err with Some e => fail e | None => k end.

(** The same for a call that also returns a value. *)
Definition checkV {A B} (m : IO (Fallible A)) (fail : error → IO B) (k : A → IO B) : IO B :=
  r ← m; match r with Err e => fail e | Ok a => k a end.

(** ** System calls *)

(** A call with effect [done] when it succeeds and [part n] when it stops. *)
Definition syscall {A} (done : Disk → Disk * A) (part : nat → Disk → Disk)
    (failed : error → A) : IO A := λ d,
  match faults d with
  | [] => let '(d, a) := done d in (d, Some a)
  | o :: rest =>
      let d := d <| faults := rest |> in
      match o with
      | Done => let '(d, a) := done d in (d, Some a)
      | Failed n e => (part n d, Some (failed e))
      | Crashed n => (part n d, None)
      end
  end.

(** A call that returns an error or nothing, and has no effect when it fails. *)
Definition simpleCall (effect : Disk → Disk) : IO (option error) :=
  syscall (λ d, (effect d, None)) (λ _ d, d) Some.

Definition onInode (f : inode → inode) (i : nat) (d : Disk) : Disk :=
  d <| inodes := alter f i (inodes d) |>.

Definition appendBytes (bs : bytes) (nd : inode) : inode :=
  mkInode (content nd ++ bs) (durable nd).

(** [os.MkdirAll], [os.Open] of a directory, [Close], [Seek]: nothing the
    stores observe changes. *)
Definition mkdirAll : IO (option error) := simpleCall id.
Definition openDir : IO (option error) := simpleCall id.
Definition close : IO (option error) := simpleCall id.
Definition seek : IO (option error) := simpleCall id.

(** [os.CreateTemp]: a new empty file under a name of its own. *)
Definition createTemp : IO (Fallible nat) :=
  syscall (λ d, (d <| inodes := inodes d ++ [mkInode [] []] |>, Ok (length (inodes d))))
    (λ _ d, d) Err.

(** [os.OpenFile] with [O_CREATE] on the store's path. *)
Definition openCreate : IO (Fallible nat) :=
  syscall
    (λ d, match link d with
          | Some i => (d, Ok i)
          | None => (d <| inodes := inodes d ++ [mkInode [] []] |>
                       <| link := Some (length (inodes d)) |>, Ok (length (inodes d)))
          end) (λ _ d, d) Err.

(** [os.Open] on the store's path: [Ok None] when it does not exist. *)
Definition openRead : IO (Fallible (option nat)) :=
  syscall (λ d, (d, Ok (link d))) (λ _ d, d) Err.

(** [file.Write]: at the end, for the files the stores write. *)
Definition write (i : nat) (bs : bytes) : IO (option error) :=
  syscall (λ d, (onInode (appendBytes bs) i d, None))
    (λ n d, onInode (appendBytes (take n bs)) i d) Some.

(** [file.Sync] *)
Definition fsync (i : nat) : IO (option error) :=
  simpleCall (onInode (λ nd, mkInode (content nd) (content nd)) i).

(** [file.Truncate], which can also extend a file with zeros. *)
Definition truncate (i : nat) (size : nat) : IO (option error) :=
  simpleCall (onInode (λ nd, mkInode (resize size Byte.x00 (content nd)) (durable nd)) i).

(** [os.Rename] of a temporary file onto the store's path. *)
Definition rename (i : nat) : IO (option error) :=
  simpleCall (λ d, d <| link := Some i |>).

(** [directory.Sync] *)
Definition fsyncDir : IO (option error) :=
  simpleCall (λ d, d <| durableLink := link d |>).

(** [io.ReadFull] of [n] bytes at the file's offset. *)
Inductive Read :=
| ReadOk (bs : bytes)
| EOF
| UnexpectedEOF
| ReadErr (e : error).

Definition contentOf (d : Disk) (i : nat) : bytes :=
  default [] (content <$> inodes d !! i).

Definition readAt (bs : bytes) (offset n : nat) : Read :=
  let rest := drop offset bs in
  if decide (n ≤ length rest)%nat then ReadOk (take n rest)
  else if decide (rest = []) then EOF else UnexpectedEOF.

Definition readFull (i offset n : nat) : IO Read :=
  syscall (λ d, (d, readAt (contentOf d i) offset n)) (λ _ d, d) ReadErr.

(** [io.ReadAll] of an open file, the reads a decoder makes. *)
Definition readAll (i : nat) : IO (Fallible bytes) :=
  syscall (λ d, (d, Ok (contentOf d i))) (λ _ d, d) Err.

(** ** What a crash leaves *)

(** A file's contents after a crash: between the synced and the written ones,
    which the stores only extend or cut. *)
Definition survives (nd : inode) (bs : bytes) : Prop :=
  durable nd `prefix_of` bs ∧ bs `prefix_of` content nd ∨
  content nd `prefix_of` bs ∧ bs `prefix_of` durable nd.

(** What the path may hold; [None]: no file. *)
Definition image (d : Disk) (c : option bytes) : Prop :=
  ∃ l, (l = link d ∨ l = durableLink d) ∧
  match l with
  | None => c = None
  | Some i => ∃ nd bs, inodes d !! i = Some nd ∧ survives nd bs ∧ c = Some bs
  end.

(** The disk of the restarted process. *)
Definition rebooted (c : option bytes) (fs : list outcome) : Disk :=
  match c with
  | None => mkDisk [] None None fs
  | Some bs => mkDisk [mkInode bs bs] (Some 0%nat) (Some 0%nat) fs
  end.

(** ** Reasoning with crashes

    [spec P m Q C]: from a disk in [P], whatever the outcomes of its calls,
    [m] returns a value and a disk in [Q], or crashes with a disk in [C]. *)
Definition spec {A} (P : Disk → Prop) (m : IO A) (Q : A → Disk → Prop)
    (C : Disk → Prop) : Prop :=
  ∀ d, P d → match m d with
             | (d', Some a) => Q a d'
             | (d', None) => C d'
             end.

Section Rules.
Implicit Types P C : Disk → Prop.

Lemma spec_ret {A} P (a : A) (Q : A → Disk → Prop) C :
  (∀ d, P d → Q a d) → spec P (mret a) Q C.
Proof. intros H d Hd. by apply H. Qed.

Lemma spec_bind {A B} P (m : IO A) (f : A → IO B) R Q C :
  spec P m R C → (∀ a, spec (R a) (f a) Q C) → spec P (m ≫= f) Q C.
Proof.
  intros Hm Hf d Hd. specialize (Hm d Hd). unfold mbind, IO_bind.
  destruct (m d) as [d' [a|]]; [by apply Hf|done].
Qed.

Lemma spec_weaken {A} P P' (m : IO A) (Q Q' : A → Disk → Prop) C C' :
  spec P' m Q' C' → (∀ d, P d → P' d) → (∀ a d, Q' a d → Q a d) →
  (∀ d, C' d → C d) → spec P m Q C.
Proof.
  intros Hm HP HQ HC d Hd. specialize (Hm d (HP d Hd)).
  destruct (m d) as [d' [a|]]; auto.
Qed.

Lemma spec_check {A} P (m : IO (option error)) (fail : error → IO A) k R Rf Q C :
  spec P m (λ r d, match r with None => R d | Some _ => Rf d end) C →
  (∀ e, spec Rf (fail e) Q C) → spec R k Q C → spec P (check m fail k) Q C.
Proof. intros Hm Hf Hk. unfold check. eapply spec_bind; [exact Hm|]. by intros [e|]. Qed.

Lemma spec_checkV {A B} P (m : IO (Fallible A)) (fail : error → IO B) k R Rf Q C :
  spec P m (λ r d, match r with Ok a => R a d | Err _ => Rf d end) C →
  (∀ e, spec Rf (fail e) Q C) → (∀ a, spec (R a) (k a) Q C) →
  spec P (checkV m fail k) Q C.
Proof.
  intros Hm Hf Hk. unfold checkV. eapply spec_bind; [exact Hm|]. by intros [a|e].
Qed.

End Rules.

(** *** Following a disk through its calls

    [at_ calm d0 d]: [d] is [d0] with some schedule, without faults if [calm].
    One proof then covers both what a faulty disk can lead to and that a calm
    one gives success. *)
Definition at_ (calm : Prop) (d0 d : Disk) : Prop :=
  ∃ fs, (calm → fs = []) ∧ d = d0 <| faults := fs |>.

Lemma at_image calm d0 d c : at_ calm d0 d → image d c → image d0 c.
Proof. by intros (fs & _ & ->). Qed.

Lemma at_same calm d : (calm → faults d = []) → at_ calm d d.
Proof. intros H. exists (faults d). by destruct d. Qed.

Section Calls.
Context {A : Type} (calm : Prop).
Implicit Types (Q : A → Disk → Prop) (C : Disk → Prop).

Lemma spec_syscall {B} d0 (done : Disk → Disk * B) part failed (Q : B → Disk → Prop) C :
  (∀ fs, (calm → fs = []) → let '(d, a) := done (d0 <| faults := fs |>) in Q a d) →
  (∀ fs n e, ¬ calm → Q (failed e) (part n (d0 <| faults := fs |>))) →
  (∀ fs n, ¬ calm → C (part n (d0 <| faults := fs |>))) →
  spec (at_ calm d0) (syscall done part failed) Q C.
Proof.
  intros Hd Hf Hc d (fs & Hfs & ->). unfold syscall. cbn.
  destruct fs as [|[|n e|n] fs]; cbn.
  - specialize (Hd [] Hfs). by destruct (done _).
  - assert (¬ calm) as Hn by (intros Hn; by apply Hfs in Hn).
    specialize (Hd fs (λ H, match Hn H with end)). by destruct (done _).
  - apply Hf. intros Hn. by apply Hfs in Hn.
  - apply Hc. intros Hn. by apply Hfs in Hn.
Qed.

(** One [check] of a call without partial effects. *)
Lemma spec_simple d0 effect (fail : error → IO A) k Q C :
  (∀ fs, effect (d0 <| faults := fs |>) = effect d0 <| faults := fs |>) →
  (∀ d, ¬ calm → at_ calm d0 d → C d) →
  (∀ e, ¬ calm → spec (at_ calm d0) (fail e) Q C) →
  spec (at_ calm (effect d0)) k Q C →
  spec (at_ calm d0) (check (simpleCall effect) fail k) Q C.
Proof.
  intros He HC Hf Hk.
  apply spec_check with (R := at_ calm (effect d0)) (Rf := λ d, ¬ calm ∧ at_ calm d0 d).
  - apply spec_syscall.
    + intros fs Hfs. cbn. exists fs. by rewrite He.
    + intros fs _ _ Hn. split; [done|]. by exists fs.
    + intros fs _ Hn. apply HC; [done|]. by exists fs.
  - intros e d [Hn Hd]. by apply (Hf e Hn).
  - done.
Qed.

Lemma spec_write d0 i bs (fail : error → IO A) k Q C :
  (∀ n d, ¬ calm → at_ calm (onInode (appendBytes (take n bs)) i d0) d → C d) →
  (∀ n e, ¬ calm →
     spec (at_ calm (onInode (appendBytes (take n bs)) i d0)) (fail e) Q C) →
  spec (at_ calm (onInode (appendBytes bs) i d0)) k Q C →
  spec (at_ calm d0) (check (write i bs) fail k) Q C.
Proof.
  intros HC Hf Hk.
  apply spec_check with (R := at_ calm (onInode (appendBytes bs) i d0))
    (Rf := λ d, ¬ calm ∧ ∃ n, at_ calm (onInode (appendBytes (take n bs)) i d0) d).
  - apply spec_syscall.
    + intros fs Hfs. by exists fs.
    + intros fs n e Hn. split; [done|]. by exists n, fs.
    + intros fs n Hn. apply (HC n); [done|]. by exists fs.
  - intros e d (Hn & n & Hd). by apply (Hf n e Hn).
  - done.
Qed.

Lemma spec_read d0 i offset n (k : Read → IO A) Q C :
  (∀ d, ¬ calm → at_ calm d0 d → C d) →
  (∀ e, ¬ calm → spec (at_ calm d0) (k (ReadErr e)) Q C) →
  spec (at_ calm d0) (k (readAt (contentOf d0 i) offset n)) Q C →
  spec (at_ calm d0) (readFull i offset n ≫= k) Q C.
Proof.
  intros HC Hf Hk.
  apply spec_bind with (λ a d, at_ calm d0 d ∧
    (a = readAt (contentOf d0 i) offset n ∨ ¬ calm ∧ ∃ e, a = ReadErr e)).
  - apply spec_syscall.
    + intros fs Hfs. split; [by exists fs|by left].
    + intros fs _ e Hn. split; [by exists fs|]. right. split; [done|by exists e].
    + intros fs _ Hn. apply HC; [done|]. by exists fs.
  - intros a d [Hd [->|(Hn & e & ->)]]; [by apply Hk|by apply (Hf e Hn)].
Qed.

Lemma spec_createTemp d0 (fail : error → IO A) k Q C :
  (∀ d, ¬ calm → at_ calm d0 d → C d) →
  (∀ e, ¬ calm → spec (at_ calm d0) (fail e) Q C) →
  spec (at_ calm (d0 <| inodes := inodes d0 ++ [mkInode [] []] |>)) (k (length (inodes d0))) Q C →
  spec (at_ calm d0) (checkV createTemp fail k) Q C.
Proof.
  intros HC Hf Hk.
  apply spec_checkV with (Rf := λ d, ¬ calm ∧ at_ calm d0 d)
    (R := λ a d, a = length (inodes d0) ∧
                 at_ calm (d0 <| inodes := inodes d0 ++ [mkInode [] []] |>) d).
  - apply spec_syscall.
    + intros fs Hfs. split; [done|]. by exists fs.
    + intros fs _ e Hn. split; [done|]. by exists fs.
    + intros fs _ Hn. apply HC; [done|]. by exists fs.
  - intros e d [Hn Hd]. by apply (Hf e Hn).
  - intros a d [-> Hd]. by apply Hk.
Qed.
End Calls.

(** A call without partial effects whose error is ignored. *)
Lemma spec_ignore {A} calm d0 (m : IO A) Q (C : Disk → Prop) :
  (∀ d, ¬ calm → at_ calm d0 d → C d) →
  spec (at_ calm d0) m Q C →
  spec (at_ calm d0) (_ ← close; m) Q C.
Proof.
  intros HC Hm. apply spec_bind with (λ _, at_ calm d0); [|by intros _].
  apply spec_syscall.
  - intros fs Hfs. by exists fs.
  - intros fs _ _ Hn. by exists fs.
  - intros fs _ Hn. apply HC; [done|]. by exists fs.
Qed.

(** Opening the path when it names a file. *)
Lemma spec_openCreate {A} calm d0 i (fail : error → IO A) k Q (C : Disk → Prop) :
  link d0 = Some i →
  (∀ d, ¬ calm → at_ calm d0 d → C d) →
  (∀ e, ¬ calm → spec (at_ calm d0) (fail e) Q C) →
  spec (at_ calm d0) (k i) Q C →
  spec (at_ calm d0) (checkV openCreate fail k) Q C.
Proof.
  intros Hl HC Hf Hk.
  apply spec_checkV with (Rf := λ d, ¬ calm ∧ at_ calm d0 d)
    (R := λ a d, a = i ∧ at_ calm d0 d).
  - apply spec_syscall.
    + intros fs Hfs. cbn. rewrite Hl. split; [done|]. by exists fs.
    + intros fs _ e Hn. split; [done|]. by exists fs.
    + intros fs _ Hn. apply HC; [done|]. by exists fs.
  - intros e d [Hn Hd]. by apply (Hf e Hn).
  - intros a d [-> Hd]. by apply Hk.
Qed.

(** ** Replacing the store's file

    The state of a disk that was [d0] when a replacement began: a temporary
    file staged next to the old one, renamed onto the path, and made durable
    there by the sync of the directory. *)
Definition staged (d0 : Disk) (written synced : bytes) : Disk :=
  d0 <| inodes := inodes d0 ++ [mkInode written synced] |>.
Definition renamed (d0 : Disk) (bs : bytes) : Disk :=
  staged d0 bs bs <| link := Some (length (inodes d0)) |>.
Definition replaced (d0 : Disk) (bs : bytes) : Disk :=
  renamed d0 bs <| durableLink := Some (length (inodes d0)) |>.

(** Both links lead to files. *)
Definition disk_wf (d : Disk) : Prop :=
  (∀ i, link d = Some i → (i < length (inodes d))%nat) ∧
  (∀ i, durableLink d = Some i → (i < length (inodes d))%nat).

(** The path durably names a file with these contents, all synced. *)
Definition settled (d : Disk) (c : option bytes) : Prop :=
  link d = durableLink d ∧
  match c with
  | None => link d = None
  | Some bs => ∃ i, link d = Some i ∧ inodes d !! i = Some (mkInode bs bs)
  end.

Lemma survives_synced bs bs' : survives (mkInode bs bs) bs' ↔ bs' = bs.
Proof.
  split.
  - intros [[H1 H2]|[H1 H2]]; by apply (anti_symm prefix).
  - intros ->. left. done.
Qed.

Lemma settled_image d c c' : settled d c → image d c' ↔ c' = c.
Proof.
  intros [Hl Hc]. unfold image. rewrite <- Hl. destruct c as [bs|].
  - destruct Hc as (i & Hi & Hn). rewrite Hi. split.
    + intros ([j|] & [Hj|Hj] & Hx); simplify_eq; destruct Hx as (nd & b & Hnd & Hs & ->); simplify_eq;
        by apply survives_synced in Hs as ->.
    + intros ->. exists (Some i). split; [by left|]. exists (mkInode bs bs), bs.
      split_and!; try done. by apply survives_synced.
  - rewrite Hc. split; [by intros ([j|] & [Hj|Hj] & Hx); simplify_eq|].
    intros ->. exists None. split; [by left|done].
Qed.

Lemma rebooted_settled c fs : settled (rebooted c fs) c.
Proof. destruct c; [split; [done|]; by exists 0%nat|done]. Qed.

Lemma settled_wf d c : settled d c → disk_wf d.
Proof.
  intros [Hl Hc]. unfold disk_wf. rewrite <- Hl. destruct c; [|by rewrite Hc].
  destruct Hc as (i & Hi & Hn%lookup_lt_Some). rewrite Hi. by split; intros ? [= <-].
Qed.

Lemma staged_image d0 w s c : disk_wf d0 → image (staged d0 w s) c → image d0 c.
Proof.
  intros [Hw Hd] (l & Hl & Hc). exists l. split; [done|]. cbn in Hl.
  destruct l as [i|]; [|done]. destruct Hc as (nd & bs & Hnd & Hc). exists nd, bs.
  split; [|done]. cbn in Hnd. rewrite lookup_app_l in Hnd; [done|].
  destruct Hl as [Hl|Hl]; [apply Hw|apply Hd]; by symmetry.
Qed.

Lemma renamed_image d0 bs c :
  disk_wf d0 → image (renamed d0 bs) c → image d0 c ∨ c = Some bs.
Proof.
  intros Hwf ([i|] & Hl & Hc); cbn in Hl; cycle 1.
  { left. exists None. destruct Hl; [done|]. split; [by right|done]. }
  destruct Hc as (nd & b & Hnd & Hs & ->). cbn in Hnd.
  destruct Hl as [[= ->]|Hl].
  - right. rewrite lookup_app_r, Nat.sub_diag in Hnd by done. simplify_eq/=.
    by apply survives_synced in Hs as ->.
  - left. exists (Some i). split; [by right|]. exists nd, b. split; [|done].
    rewrite lookup_app_l in Hnd; [done|]. by apply Hwf.
Qed.

Lemma replaced_settled d0 bs : settled (replaced d0 bs) (Some bs).
Proof.
  split; [done|]. exists (length (inodes d0)). split; [done|]. cbn.
  rewrite lookup_app_r, Nat.sub_diag by done. done.
Qed.

Lemma onInode_staged f d0 w s :
  onInode f (length (inodes d0)) (staged d0 w s) =
  d0 <| inodes := inodes d0 ++ [f (mkInode w s)] |>.
Proof.
  unfold onInode, staged. cbn. rewrite alter_app_r_alt by done.
  by rewrite Nat.sub_diag.
Qed.

Lemma write_staged d0 a s bs :
  onInode (appendBytes bs) (length (inodes d0)) (staged d0 a s) = staged d0 (a ++ bs) s.
Proof. by rewrite onInode_staged. Qed.

Lemma fsync_staged d0 a s :
  onInode (λ nd, mkInode (content nd) (content nd)) (length (inodes d0)) (staged d0 a s) =
  staged d0 a a.
Proof. by rewrite onInode_staged. Qed.

(** A replacement that did not complete: before the rename, which leaves the
    old file in place, or after it. *)
Definition interrupted (calm : Prop) (d0 : Disk) (bs : bytes) (d : Disk) : Prop :=
  at_ calm d0 d ∨ (∃ written synced, at_ calm (staged d0 written synced) d) ∨
  at_ calm (renamed d0 bs) d ∨ at_ calm (replaced d0 bs) d.

(** Either way a restart finds the old file or the new one, whole. *)
Lemma interrupted_image calm d0 bs d c :
  disk_wf d0 → interrupted calm d0 bs d → image d c → image d0 c ∨ c = Some bs.
Proof.
  intros Hwf [Hd|[(a & s & Hd)|[Hd|Hd]]] Hc; eapply at_image in Hc; try exact Hd.
  - by left.
  - left. by eapply staged_image.
  - by apply renamed_image.
  - right. by apply (settled_image _ (Some bs)) in Hc; [|apply replaced_settled].
Qed.

Lemma settled_interrupted calm d c bs d' c' :
  settled d c → interrupted calm d bs d' → image d' c' → c' = c ∨ c' = Some bs.
Proof.
  intros Hs Hi Him. destruct (interrupted_image _ _ _ _ _ (settled_wf _ _ Hs) Hi Him); [|by right].
  left. by apply (settled_image _ _ _ Hs).
Qed.

Lemma settled_at calm d c d' c' : settled d c → at_ calm d d' → image d' c' → c' = c.
Proof. intros Hs Ha Him. apply (settled_image _ _ _ Hs). by eapply at_image. Qed.

(** What the path holds, for a process that reads it. *)
Definition visible (d : Disk) : option bytes :=
  match link d with None => None | Some i => content <$> inodes d !! i end.

Lemma staged_wf d0 w s : disk_wf d0 → disk_wf (staged d0 w s).
Proof.
  intros [Hl Hd]. split; intros i Hi; cbn; rewrite length_app; cbn;
    [specialize (Hl i Hi)|specialize (Hd i Hi)]; lia.
Qed.

Lemma renamed_wf d0 bs : disk_wf d0 → disk_wf (renamed d0 bs).
Proof.
  intros [_ Hd]. split; intros i; cbn; rewrite length_app; cbn; [intros [= <-]; lia|].
  intros Hi. specialize (Hd i Hi). lia.
Qed.

Lemma replaced_wf d0 bs : disk_wf (replaced d0 bs).
Proof. split; intros i [= <-]; cbn; rewrite length_app; cbn; lia. Qed.

Lemma renamed_visible d0 bs : visible (renamed d0 bs) = Some bs.
Proof. unfold visible. cbn. by rewrite lookup_app_r, Nat.sub_diag. Qed.

Lemma replaced_visible d0 bs : visible (replaced d0 bs) = Some bs.
Proof. apply (renamed_visible d0 bs). Qed.

(** In the same process a reader sees the old file or the new one. *)
Lemma interrupted_visible calm d0 bs d :
  disk_wf d0 → interrupted calm d0 bs d →
  disk_wf d ∧ (link d = link d0 ∧ visible d = visible d0 ∨ visible d = Some bs).
Proof.
  intros Hwf [(fs & _ & ->)|[(w & s & fs & _ & ->)|[(fs & _ & ->)|(fs & _ & ->)]]].
  - split; [done|by left].
  - split; [by apply (staged_wf d0 w s)|]. left. split; [done|]. unfold visible. cbn.
    destruct (link d0) as [i|] eqn:Hl; [|done]. rewrite lookup_app_l; [done|]. destruct Hwf as [Hw _]. by apply Hw.
  - split; [by apply (renamed_wf d0 bs)|]. right. apply (renamed_visible d0 bs).
  - split; [apply (replaced_wf d0 bs)|]. right. apply (renamed_visible d0 bs).
Qed.

(** One call of a replacement: [where_] proves that a crash or an error there
    leaves the replacement interrupted. *)
Ltac replace_step where_ :=
  apply spec_simple;
  [ done
  | intros ? ? ?; split; [done|where_]
  | intros ? ?; try (apply spec_ignore; [intros ? ? ?; split; [done|where_]|]);
    apply spec_ret; intros ? ?; split_and!; [done..|where_]
  | ].

(** ** Saving a document atomically

    The sequence that [FileStableStore.Save] and [snapshot.FileStore.Save]
    both write out, with their own messages. *)
Inductive SaveStep :=
| MakeDir
| MakeTemporary
| WriteTemporary
| SyncTemporary
| CloseTemporary
| Publish
| OpenDirectory
| SyncDirectory.

Definition saveAtomically (message : SaveStep → string) (bs : bytes) : IO (option error) :=
  let fail step e := mret (Some (Wrapf (message step) e)) in
  let closeAnd step e := _ ← close; fail step e in
  check mkdirAll (fail MakeDir)
  (checkV createTemp (fail MakeTemporary) (λ temporary,
  check (write temporary bs) (closeAnd WriteTemporary)
  (check (fsync temporary) (closeAnd SyncTemporary)
  (check close (fail CloseTemporary)
  (check (rename temporary) (fail Publish)
  (check openDir (fail OpenDirectory)
  (check fsyncDir (fail SyncDirectory)
  (mret None)))))))).

Lemma saveAtomically_spec calm d0 message bs :
  spec (at_ calm d0) (saveAtomically message bs)
    (λ res d, match res with
              | None => at_ calm (replaced d0 bs) d
              | Some _ => ¬ calm ∧ interrupted calm d0 bs d
              end)
    (λ d, ¬ calm ∧ interrupted calm d0 bs d).
Proof.
  unfold saveAtomically. replace_step ltac:(by left). unfold id.
  apply spec_createTemp; [by intros ? ? ?; split; [|left]|
    by intros ? ?; apply spec_ret; intros ? ?; split; [|left]|].
  fold (staged d0 [] []).
  assert (∀ a s d, at_ calm (staged d0 a s) d → interrupted calm d0 bs d)
    as Hst by (intros a s d Hd; right; left; by exists a, s).
  apply spec_write.
  { intros n d Hn Hd. rewrite write_staged in Hd. by split; [|eapply Hst]. }
  { intros n e Hn. rewrite write_staged. apply spec_ignore.
    - intros d _ Hd. by split; [|eapply Hst].
    - apply spec_ret. intros d Hd. by split; [|eapply Hst]. }
  rewrite write_staged, app_nil_l.
  replace_step ltac:(by eapply Hst). rewrite fsync_staged.
  do 2 replace_step ltac:(by eapply Hst). unfold id.
  change (staged ?d ?b ?b <| link := _ |>) with (renamed d b).
  do 2 replace_step ltac:(right; right; by left). unfold id.
  change (renamed ?d ?b <| durableLink := _ |>) with (replaced d b). by apply spec_ret.
Qed.

(** Reading the whole file at the path. *)
Definition readPath (notOpened notRead : string) : IO (Fallible (option bytes)) :=
  checkV openRead (λ e, mret (Err (Wrapf notOpened e))) (λ file,
  match file with
  | None => mret (Ok None)
  | Some i =>
      checkV (readAll i) (λ e, mret (Err (Wrapf notRead e))) (λ bs, mret (Ok (Some bs)))
  end).

Lemma readPath_spec calm d0 notOpened notRead :
  disk_wf d0 →
  spec (at_ calm d0) (readPath notOpened notRead)
    (λ r d, at_ calm d0 d ∧ match r with Ok o => o = visible d0 | Err _ => ¬ calm end)
    (λ d, ¬ calm ∧ at_ calm d0 d).
Proof.
  intros [Hwf _]. unfold readPath.
  eapply (spec_checkV _ _ _ _ (λ a d, a = link d0 ∧ at_ calm d0 d) (λ d, at_ calm d0 d ∧ ¬ calm)).
  - apply spec_syscall; [intros fs Hfs; split; [done|by exists fs]|
      intros fs _ e Hn; split; [by exists fs|done]|intros fs _ Hn; split; [done|by exists fs]].
  - intros e. by apply spec_ret.
  - intros file d [-> Ha]. revert d Ha. unfold visible.
    destruct (link d0) as [i|]; [|by apply spec_ret].
    eapply (spec_checkV _ _ _ _ (λ a d, a = contentOf d0 i ∧ at_ calm d0 d)
      (λ d, at_ calm d0 d ∧ ¬ calm)).
    + apply spec_syscall; [intros fs Hfs; split; [done|by exists fs]|
        intros fs _ e Hn; split; [by exists fs|done]|intros fs _ Hn; split; [done|by exists fs]].
    + intros e. by apply spec_ret.
    + intros bs. apply spec_ret. intros d [-> Ha]. split; [done|]. unfold contentOf.
      destruct (lookup_lt_is_Some_2 (inodes d0) i) as [nd ->]; [by apply Hwf|done].
Qed.

(** A disk a store can work on; without faults to come if [calm]. *)
Definition sound (calm : Prop) (d : Disk) : Prop := (calm → faults d = []) ∧ disk_wf d.

Lemma at_sound calm d0 d : disk_wf d0 → at_ calm d0 d → sound calm d.
Proof. by intros Hwf (fs & Hfs & ->). Qed.

Lemma interrupted_sound calm d0 bs d : disk_wf d0 → interrupted calm d0 bs d → sound calm d.
Proof.
  intros Hwf Hi. split; [|by eapply interrupted_visible].
  by destruct Hi as [(fs & ? & ->)|[(w & s & fs & ? & ->)|[(fs & ? & ->)|(fs & ? & ->)]]].
Qed.

(** The error of a call the process does not survive. *)
Definition Crash : error := Sentinel "crash".

(** The outcome of the second [decoder.Decode], into an empty struct. *)
Inductive JsonEnd :=
| EndOfInput
| AnotherValue
| Malformed (e : error).

