(* ===== verification/Http.v ===== *)
(** * The parts of [net/http] and [net/url] the handlers use

    A response writer, [http.Error], [http.Redirect], [Query().Get] and
    [URL.String], for [internal/server/server.go]. *)

From Stdlib Require Import Ascii.
From S2P Require Import Prelude.

(** ** Requests *)

Record Request := mkRequest {
  Method : string;
  Path : string;
  RawQuery : string;
  Body : string;
}.

(** ** Query strings *)

Definition eqc (c d : ascii) : bool := Ascii.eqb c d.

(** [strings.Cut] at the first [c]. *)
Fixpoint cut (c : ascii) (s : string) : string * option string :=
  match s with
  | EmptyString => (EmptyString, None)
  | String d s =>
      if eqc c d then (EmptyString, Some s)
      else let '(before, after) := cut c s in (String d before, after)
  end.

(** The pieces between separators. *)
Fixpoint splitOn (c : ascii) (s : string) : list string :=
  match s with
  | EmptyString => [EmptyString]
  | String d s =>
      if eqc c d then EmptyString :: splitOn c s
      else match splitOn c s with
           | piece :: rest => String d piece :: rest
           | [] => [String d EmptyString]
           end
  end.

Definition hexDigit (c : ascii) : option N :=
  let n := N_of_ascii c in
  if decide (48 ≤ n ∧ n ≤ 57)%N then Some (n - 48)%N
  else if decide (97 ≤ n ∧ n ≤ 102)%N then Some (n - 87)%N
  else if decide (65 ≤ n ∧ n ≤ 70)%N then Some (n - 55)%N
  else None.

(** [url.QueryUnescape]. *)
Fixpoint queryUnescape (s : string) : option string :=
  match s with
  | EmptyString => Some EmptyString
  | String c rest =>
      if eqc c "%" then
        match rest with
        | String a (String b rest) =>
            hi ← hexDigit a; lo ← hexDigit b; rest ← queryUnescape rest;
            Some (String (ascii_of_N (16 * hi + lo)) rest)
        | _ => None
        end
      else
        rest ← queryUnescape rest;
        Some (String (if eqc c "+" then " "%char else c) rest)
  end.

(** One piece of the query: malformed ones are dropped. *)
Definition queryPair (piece : string) : option (string * string) :=
  if snd (cut ";" piece) then None
  else if decide (piece = ""%string) then None
  else
    let '(key, value) := cut "=" piece in
    key ← queryUnescape key;
    value ← queryUnescape (default ""%string value);
    Some (key, value).

Definition parseQuery (query : string) : list (string * string) :=
  omap queryPair (splitOn "&" query).

(** [r.URL.Query().Get(key)]: the first value, or the empty string. *)
Definition queryGet (query key : string) : string :=
  match list_find (λ '(k, _), k = key) (parseQuery query) with
  | Some (_, (_, value)) => value
  | None => ""
  end.

(** [(&url.URL{Scheme: "http", Host: host, Path: path, RawQuery: query}).String()],
    for a host and a path that need no escaping. *)
Definition httpURL (host path query : string) : string :=
  "http://" ++ host ++ path ++ (if decide (query = "")%string then "" else "?" ++ query).

(** ** Responses *)

(** [sent]: the status and headers that went out; [broken]: the peer is gone,
    so a [Write] fails. *)
Record ResponseWriter := mkWriter {
  header : gmap string string;
  sent : option (Z * gmap string string);
  written : string;
  broken : bool;
}.

Definition newWriter (broken : bool) : ResponseWriter := mkWriter ∅ None "" broken.

Definition StatusOK : Z := 200.
Definition StatusNoContent : Z := 204.
Definition StatusTemporaryRedirect : Z := 307.
Definition StatusBadRequest : Z := 400.
Definition StatusNotFound : Z := 404.
Definition StatusMethodNotAllowed : Z := 405.
Definition StatusInternalServerError : Z := 500.
Definition StatusServiceUnavailable : Z := 503.

Definition setHeader (w : ResponseWriter) (name value : string) : ResponseWriter :=
  mkWriter (<[name := value]> (header w)) (sent w) (written w) (broken w).

(** Only the first call counts. *)
Definition WriteHeader (w : ResponseWriter) (status : Z) : ResponseWriter :=
  match sent w with
  | Some _ => w
  | None => mkWriter (header w) (Some (status, header w)) (written w) (broken w)
  end.

(** Whether it succeeded. *)
Definition Write (w : ResponseWriter) (data : string) : ResponseWriter * bool :=
  let w := WriteHeader w StatusOK in
  if broken w then (w, false)
  else (mkWriter (header w) (sent w) (written w ++ data) (broken w), true).

Definition newline : string := String "010" "".

(** Between double quotes. *)
Definition quoted (s : string) : string := String "034" (s ++ String "034" "").

(** [http.Error]. *)
Definition http_Error (w : ResponseWriter) (message : string) (status : Z) : ResponseWriter :=
  let w := setHeader w "Content-Type" "text/plain; charset=utf-8" in
  let w := setHeader w "X-Content-Type-Options" "nosniff" in
  let w := WriteHeader w status in
  (Write w (message ++ newline)).1.

(** [http.Redirect] to an absolute URL, for a method other than GET and HEAD,
    which gets no body. *)
Definition http_Redirect (w : ResponseWriter) (url : string) (status : Z) : ResponseWriter :=
  WriteHeader (setHeader w "Location" url) status.

(** What the client gets when the handler has returned. *)
Record Response := mkResponse {
  Status : Z;
  Header : gmap string string;
  Content : string;
}.

Definition respond (w : ResponseWriter) : Response :=
  let w := WriteHeader w StatusOK in
  match sent w with
  | Some (status, headers) => mkResponse status headers (written w)
  | None => mkResponse StatusOK (header w) (written w)
  end.

(** ** Facts *)

(** A character that does not occur. *)
Fixpoint absent (c : ascii) (s : string) : bool :=
  match s with
  | EmptyString => true
  | String d s => negb (eqc c d) && absent c s
  end.

Lemma cut_absent c s : absent c s = true → cut c s = (s, None).
Proof.
  induction s as [|d s IH]; simpl; [done|]. intros [Hd Hs]%andb_prop.
  destruct (eqc c d); [done|]. by rewrite IH.
Qed.

Lemma splitOn_absent c s : absent c s = true → splitOn c s = [s].
Proof.
  induction s as [|d s IH]; simpl; [done|]. intros [Hd Hs]%andb_prop.
  destruct (eqc c d); [done|]. by rewrite IH.
Qed.

Lemma eqc_sym c d : eqc c d = eqc d c.
Proof. unfold eqc. destruct (Ascii.eqb_spec c d), (Ascii.eqb_spec d c); congruence. Qed.

Lemma unescape_absent s :
  absent "%" s = true → absent "+" s = true → queryUnescape s = Some s.
Proof.
  induction s as [|d s IH]; [done|]. cbn [absent queryUnescape].
  intros [Hp Hps]%andb_prop [Hq Hqs]%andb_prop.
  rewrite (eqc_sym d "%"), (eqc_sym d "+").
  destruct (eqc "%" d), (eqc "+" d); try done. by rewrite IH.
Qed.

(** A key a client need not escape. *)
Definition plain (s : string) : bool :=
  absent "%" s && absent "+" s && absent "&" s && absent ";" s.

(** The handlers read it back. *)
Lemma queryGet_plain key : plain key = true → queryGet ("key=" ++ key) "key" = key.
Proof.
  unfold plain. intros [[[Hp Hq]%andb_prop Ha]%andb_prop Hs]%andb_prop.
  unfold queryGet, parseQuery. rewrite splitOn_absent by done. cbn [omap list_omap].
  unfold queryPair. rewrite (cut_absent ";") by done. simpl.
  by rewrite unescape_absent.
Qed.

Lemma respond_error w message status :
  sent w = None → broken w = false → written w = ""%string →
  Status (respond (http_Error w message status)) = status ∧
  Content (respond (http_Error w message status)) = (message ++ newline)%string ∧
  Header (respond (http_Error w message status)) =
    <["X-Content-Type-Options" := "nosniff"]>
      (<["Content-Type" := "text/plain; charset=utf-8"]> (header w)).
Proof.
  intros Hs Hb Hw. unfold respond, http_Error, Write, WriteHeader, setHeader. cbn.
  rewrite Hs. cbn. rewrite Hb. cbn. rewrite Hw. done.
Qed.
