(* ===== verification/Wal.v ===== *)
(** * The write-ahead log

    [internal/wal/wal.go]: length-prefixed records in one append-only file.
    The file system is [Fs]; [w.path] and the mutex need no state. *)

From Stdlib Require Import Strings.Byte.
From S2P Require Import Prelude.
From S2P Require Import Fs.

(** ** Records on disk *)

Definition maxRecordSize : Z := Z.shiftl 16 20.

Definition byteOf (z : Z) : byte := default x00 (Byte.of_N (Z.to_N (z `mod` 256))).
Definition byteVal (b : byte) : Z := Z.of_N (Byte.to_N b).

(** [binary.BigEndian.PutUint32] and [Uint32]. *)
Definition putUint32 (n : Z) : bytes :=
  [byteOf (Z.shiftr n 24); byteOf (Z.shiftr n 16); byteOf (Z.shiftr n 8); byteOf n].
Definition uint32 (bs : bytes) : Z := foldl (λ n b, n * 256 + byteVal b) 0 bs.

(** ** Operations *)

(** [file]: [None] once closed. *)
Record WAL := mkWAL { file : option nat }.

Definition NewWAL : IO (Fallible WAL) :=
  check mkdirAll (λ e, mret (Err (Wrapf "create WAL directory for %q" e)))
  (checkV openCreate (λ e, mret (Err (Wrapf "open WAL %q" e)))
  (λ i, mret (Ok (mkWAL (Some i))))).

Definition writeRecord (i : nat) (record : bytes) : IO (option error) :=
  if decide (lenZ record = 0 ∨ maxRecordSize < lenZ record)
  then mret (Some (Errorf "WAL record size %d is invalid"))
  else
    check (write i (putUint32 (u32 (lenZ record)))) (λ e, mret (Some e))
    (check (write i record) (λ e, mret (Some e))
    (mret None)).

(** The loop over [records] of [AppendBatch] and of [Replace]. *)
Fixpoint writeRecords (i : nat) (records : list bytes) : IO (option error) :=
  match records with
  | [] => mret None
  | record :: rest =>
      check (writeRecord i record) (λ e, mret (Some e)) (writeRecords i rest)
  end.

Definition AppendBatch (w : WAL) (records : list bytes) : IO (option error) :=
  if decide (lenZ records = 0) then mret None
  else match file w with
  | None => mret (Some (Errorf "append to closed WAL"))
  | Some i =>
      check (writeRecords i records) (λ e, mret (Some (Wrapf "write WAL record %q" e)))
      (check (fsync i) (λ e, mret (Some (Wrapf "sync WAL %q" e)))
      (mret None))
  end.

Definition Append (w : WAL) (record : bytes) : IO (option error) := AppendBatch w [record].

Definition truncateLocked (i size : nat) : IO (option error) :=
  check (truncate i size) (λ e, mret (Some (Wrapf "truncate torn WAL record %q" e)))
  (check (fsync i) (λ e, mret (Some (Wrapf "sync truncated WAL %q" e)))
  (mret None)).

(** The loop of [Replay]; [validBytes] is also the file's offset at the head
    of the loop.  [fuel] bounds the records. *)
Fixpoint replay_from (fuel i validBytes : nat) (records : list bytes) :
    IO (Fallible (list bytes)) :=
  match fuel with
  | O => mret (Err (Errorf "out of fuel"))
  | S fuel =>
      let torn :=
        check (truncateLocked i validBytes) (λ e, mret (Err e)) (mret (Ok records)) in
      header ← readFull i validBytes 4;
      match header with
      | EOF => mret (Ok records)
      | UnexpectedEOF => torn
      | ReadErr e => mret (Err (Wrapf "read WAL header %q" e))
      | ReadOk header =>
          let size := uint32 header in
          if decide (size = 0 ∨ maxRecordSize < size)
          then mret (Err (Errorf "WAL %q has invalid record size %d at byte %d"))
          else
            record ← readFull i (validBytes + 4) (Z.to_nat size);
            match record with
            | EOF | UnexpectedEOF => torn
            | ReadErr e => mret (Err (Wrapf "read WAL record %q" e))
            | ReadOk record =>
                replay_from fuel i (validBytes + (4 + Z.to_nat size)) (records ++ [record])
            end
      end
  end.

(** A record takes five bytes at least, so the file's length is fuel enough. *)
Definition Replay (w : WAL) : IO (Fallible (list bytes)) :=
  match file w with
  | None => mret (Err (Errorf "replay closed WAL"))
  | Some i =>
      check seek (λ e, mret (Err (Wrapf "seek WAL %q" e)))
      (checkV (λ d, replay_from (S (length (contentOf d i))) i 0 [] d)
        (λ e, mret (Err e))
      (λ records,
        check seek (λ e, mret (Err (Wrapf "seek WAL end %q" e)))
        (mret (Ok records))))
  end.

(** On the failures between creating and closing it, the temporary file is
    closed, the error of that call ignored; its removal is not observed. *)
Definition Replace (w : WAL) (records : list bytes) : IO (WAL * option error) :=
  match file w with
  | None => mret (w, Some (Errorf "replace closed WAL"))
  | Some i =>
      let fail msg e := mret (w, Some (Wrapf msg e)) in
      let closeAnd msg e := _ ← close; fail msg e in
      checkV createTemp (fail "create WAL replacement for %q") (λ temporary,
      check (writeRecords temporary records) (closeAnd "write WAL replacement %q")
      (check (fsync temporary) (closeAnd "sync WAL replacement %q")
      (check close (fail "close WAL replacement %q")
      (check (rename temporary) (fail "replace WAL %q")
      (check openDir (fail "open WAL directory %q")
      (check fsyncDir (closeAnd "sync WAL directory %q")
      (check close (fail "close WAL directory %q")
      (check close (fail "close replaced WAL %q")
      (checkV openCreate (fail "reopen replaced WAL %q") (λ file,
      mret (mkWAL (Some file), None)))))))))))
  end.

Definition Close (w : WAL) : IO (WAL * option error) :=
  match file w with
  | None => mret (w, None)
  | Some _ => err ← close; mret (mkWAL None, err)
  end.

(** ** The file's format *)

(** What a record may be. *)
Definition fits (record : bytes) : Prop := 0 < lenZ record ≤ maxRecordSize.

#[export] Instance fits_dec record : Decision (fits record).
Proof. apply _. Defined.

Definition frame (record : bytes) : bytes := putUint32 (u32 (lenZ record)) ++ record.
Definition frames (records : list bytes) : bytes := concat (frame <$> records).

(** The log durably holds these records: the open file is the path's, and all
    it contains is synced. *)
Record holds (w : WAL) (records : list bytes) (d : Disk) : Prop := {
  holds_fits : Forall fits records;
  holds_file : ∃ i, file w = Some i ∧ link d = Some i ∧ durableLink d = Some i ∧
    inodes d !! i = Some (mkInode (frames records) (frames records));
}.

(** Whatever a crash leaves is the old records and a part of the frames of the
    new ones. *)
Definition recoverable (old new : list bytes) (d : Disk) : Prop :=
  ∀ c, image d c → ∃ p, c = Some (frames old ++ p) ∧ p `prefix_of` frames new.

Lemma byteVal_byteOf z : byteVal (byteOf z) = z `mod` 256.
Proof.
  pose proof (Z.mod_pos_bound z 256). unfold byteVal, byteOf.
  destruct (Byte.of_N _) as [b|] eqn:Hb.
  - apply Byte.to_of_N in Hb. simpl. rewrite Hb. lia.
  - apply Byte.of_N_None_iff in Hb. lia.
Qed.

Lemma uint32_putUint32 n : 0 ≤ n < 2 ^ 32 → uint32 (putUint32 n) = n.
Proof.
  intros Hn. unfold uint32, putUint32. cbn [foldl]. rewrite !byteVal_byteOf, !Z.shiftr_div_pow2 by lia.
  change (2 ^ 24) with (256 * (256 * 256)). change (2 ^ 16) with (256 * 256). change (2 ^ 8) with 256.
  rewrite <- !Z.div_div by lia.
  pose proof (Z.div_mod n 256). pose proof (Z.div_mod (n / 256) 256).
  pose proof (Z.div_mod (n / 256 / 256) 256). pose proof (Z.div_mod (n / 256 / 256 / 256) 256).
  assert (n / 256 / 256 / 256 / 256 = 0); [|lia].
  rewrite !Z.div_div by lia. apply Z.div_small. lia.
Qed.

Lemma uint32_frame r : fits r → uint32 (putUint32 (u32 (lenZ r))) = lenZ r.
Proof.
  unfold fits, maxRecordSize. change (Z.shiftl 16 20) with 16777216. intros Hr.
  rewrite u32_small by lia. apply uint32_putUint32. lia.
Qed.

Lemma frames_cons r rs : frames (r :: rs) = frame r ++ frames rs.
Proof. done. Qed.

Lemma frames_app rs es : frames (rs ++ es) = frames rs ++ frames es.
Proof. unfold frames. by rewrite fmap_app, concat_app. Qed.

Lemma length_frame r : length (frame r) = (4 + length r)%nat.
Proof. done. Qed.

(** A part of a record's frame that is not the whole. *)
Definition torn (tail : bytes) : Prop :=
  tail = [] ∨ ∃ r, fits r ∧ tail `prefix_of` frame r ∧ (length tail < length (frame r))%nat.

(** A prefix of a file is some whole records and a torn one. *)
Lemma prefix_frames rs p :
  Forall fits rs → p `prefix_of` frames rs →
  ∃ k tail, p = frames (take k rs) ++ tail ∧ torn tail ∧ tail `prefix_of` frames (drop k rs).
Proof.
  intros Hf. revert p. induction Hf as [|r rs Hr Hf IH]; intros p Hp.
  - exists 0%nat, []. apply prefix_nil_inv in Hp as ->. split_and!; [done|by left|done].
  - rewrite frames_cons in Hp. destruct (decide (length p < length (frame r))%nat) as [Hl|Hl].
    + exists 0%nat, p. split_and!; [done| |exact Hp].
      right. exists r. split_and!; [done| |done].
      destruct Hp as [q Hq]. exists (take (length (frame r) - length p) q).
      apply (f_equal (take (length (frame r)))) in Hq.
      rewrite take_app_length, take_app_ge in Hq by lia. done.
    + assert (∃ p', p = frame r ++ p') as [p' ->].
      { destruct Hp as [q Hq]. exists (drop (length (frame r)) p).
        apply (f_equal (take (length (frame r)))) in Hq.
        rewrite take_app_length, take_app_le in Hq by lia. rewrite Hq at 1. by rewrite take_drop. }
      apply prefix_app_inv in Hp. apply IH in Hp as (k & tail & -> & Ht & Hd).
      exists (S k), tail. split_and!; [|done..]. by rewrite app_assoc.
Qed.
