(* ===== verification/WalFacts.v ===== *)
(** * Facts about the write-ahead log

    What each operation of [Wal] does on a disk whose calls may fail or crash,
    and that it succeeds on a calm one. *)

From S2P Require Import Prelude.
From S2P Require Import Fs.
From S2P Require Import Wal.

(** ** Appending *)

Definition wrote (i : nat) (bs : bytes) : Disk → Disk := onInode (appendBytes bs) i.

(** Some prefix of [bs] was written. *)
Definition partial (calm : Prop) (i : nat) (bs : bytes) (d0 d : Disk) : Prop :=
  ∃ p, p `prefix_of` bs ∧ at_ calm (wrote i p d0) d.

Lemma onInode_compose f g i d :
  onInode f i (onInode g i d) = onInode (f ∘ g) i d.
Proof.
  unfold onInode. cbn. by rewrite list_alter_alter_eq.
Qed.

Lemma onInode_ext f g i d : (∀ nd, f nd = g nd) → onInode f i d = onInode g i d.
Proof.
  intros H. unfold onInode. rewrite (list_alter_ext f g _ (inodes d) i); [done| |done].
  intros x _. apply H.
Qed.

Lemma wrote_app i a b d : wrote i b (wrote i a d) = wrote i (a ++ b) d.
Proof.
  unfold wrote. rewrite onInode_compose. apply onInode_ext.
  intros nd. unfold appendBytes. cbn. by rewrite app_assoc.
Qed.

Lemma wrote_nil i d : wrote i [] d = d.
Proof.
  unfold wrote, onInode. destruct d. cbn. unfold set_field, set_inodes. cbn.
  rewrite list_alter_id; [done|].
  intros [c s]. unfold appendBytes. cbn. by rewrite app_nil_r.
Qed.

Lemma partial_nil calm i bs d0 d : at_ calm d0 d → partial calm i bs d0 d.
Proof. intros H. exists []. rewrite wrote_nil. split; [apply prefix_nil|done]. Qed.

Lemma partial_mono calm i bs bs' d0 d :
  bs `prefix_of` bs' → partial calm i bs d0 d → partial calm i bs' d0 d.
Proof. intros Hb (p & Hp & Hd). exists p. split; [by trans bs|done]. Qed.

Lemma partial_after calm i a b d0 d :
  partial calm i b (wrote i a d0) d → partial calm i (a ++ b) d0 d.
Proof.
  intros (p & Hp & Hd). exists (a ++ p). rewrite <- wrote_app. split; [|done].
  by apply prefix_app.
Qed.

Lemma writeRecord_spec calm i r d0 :
  spec (at_ calm d0) (writeRecord i r)
    (λ res d, match res with
              | None => fits r ∧ at_ calm (wrote i (frame r) d0) d
              | Some _ => (calm → ¬ fits r) ∧ partial calm i (frame r) d0 d
              end)
    (λ d, ¬ calm ∧ partial calm i (frame r) d0 d).
Proof.
  unfold writeRecord. case_decide as Hr.
  { apply spec_ret. intros d Hd. split; [unfold fits; lia|by apply partial_nil]. }
  apply spec_write.
  { intros n d Hn Hd. split; [done|]. exists (take n (putUint32 (u32 (lenZ r)))).
    split; [|done]. apply prefix_app_r, prefix_take. }
  { intros n e Hn. apply spec_ret. intros d Hd. split; [done|].
    exists (take n (putUint32 (u32 (lenZ r)))). split; [|done]. apply prefix_app_r, prefix_take. }
  fold (wrote i (putUint32 (u32 (lenZ r)))). apply spec_write.
  { intros n d Hn Hd. split; [done|]. apply partial_after. exists (take n r).
    split; [apply prefix_take|done]. }
  { intros n e Hn. apply spec_ret. intros d Hd. split; [done|].
    apply partial_after. exists (take n r). split; [apply prefix_take|done]. }
  apply spec_ret. intros d Hd. split; [unfold fits; pose proof (lenZ_nonneg r); lia|].
  fold (wrote i r) in Hd. by rewrite wrote_app in Hd.
Qed.

Lemma writeRecords_spec calm i rs d0 :
  spec (at_ calm d0) (writeRecords i rs)
    (λ res d, match res with
              | None => Forall fits rs ∧ at_ calm (wrote i (frames rs) d0) d
              | Some _ => (calm → ¬ Forall fits rs) ∧ partial calm i (frames rs) d0 d
              end)
    (λ d, ¬ calm ∧ partial calm i (frames rs) d0 d).
Proof.
  revert d0. induction rs as [|r rs IH]; intros d0; simpl.
  { apply spec_ret. intros d Hd. split; [done|]. by rewrite wrote_nil. }
  assert (frame r `prefix_of` frames (r :: rs)) as Hpre by (by apply prefix_app_r).
  unfold check. eapply spec_bind.
  { eapply spec_weaken; [apply writeRecord_spec|done|intros ?? Hq; exact Hq|].
    intros d [Hn Hp]. split; [done|]. by eapply partial_mono. }
  intros [e|].
  - apply spec_ret. intros d [Hf Hp]. split; [|by eapply partial_mono].
    intros Hc Hall. apply Forall_cons in Hall as [? _]. by apply Hf.
  - intros d [Hr Hd]. specialize (IH (wrote i (frame r) d0) d Hd).
    destruct (writeRecords i rs d) as [d' [[e|]|]].
    + destruct IH as [Hf Hp]. split; [|by apply partial_after].
      intros Hc Hall. apply Forall_cons in Hall as [_ ?]. by apply Hf.
    + destruct IH as [Hf Hp]. rewrite wrote_app in Hp. by split; [constructor|].
    + destruct IH as [Hn Hp]. split; [done|]. by apply partial_after.
Qed.

Definition syncedAt (i : nat) : Disk → Disk :=
  onInode (λ nd, mkInode (content nd) (content nd)) i.

Lemma AppendBatch_spec calm w i rs d0 :
  file w = Some i →
  spec (at_ calm d0) (AppendBatch w rs)
    (λ res d, match res with
              | None => Forall fits rs ∧
                        (rs = [] ∧ at_ calm d0 d ∨
                         at_ calm (syncedAt i (wrote i (frames rs) d0)) d)
              | Some _ => (calm → ¬ Forall fits rs) ∧ partial calm i (frames rs) d0 d
              end)
    (λ d, ¬ calm ∧ partial calm i (frames rs) d0 d).
Proof.
  intros Hw. unfold AppendBatch. case_decide as Hl.
  { apply spec_ret. intros d Hd. assert (rs = []) as -> by (by destruct rs).
    split; [done|]. by left. }
  rewrite Hw. unfold check at 1. eapply spec_bind; [apply writeRecords_spec|].
  intros [e|]; [by apply spec_ret|]. intros d [Hf Hd]. revert d Hd.
  change (spec (at_ calm (wrote i (frames rs) d0))
    (check (fsync i) (λ e, mret (Some (Wrapf "sync WAL %q" e))) (mret None))
    (λ res d, match res with
              | None => Forall fits rs ∧
                        (rs = [] ∧ at_ calm d0 d ∨
                         at_ calm (syncedAt i (wrote i (frames rs) d0)) d)
              | Some _ => (calm → ¬ Forall fits rs) ∧ partial calm i (frames rs) d0 d
              end)
    (λ d, ¬ calm ∧ partial calm i (frames rs) d0 d)).
  apply spec_simple; [done| | |].
  - intros d Hn Hd. split; [done|]. by exists (frames rs).
  - intros e Hn. apply spec_ret. intros d Hd. split; [done|]. by exists (frames rs).
  - apply spec_ret. intros d Hd. split; [done|]. by right.
Qed.

(** ** Recovering *)

(** The file cut to [bs], before and after the cut is synced. *)
Definition cut (i : nat) (bs : bytes) : Disk → Disk :=
  onInode (λ nd, mkInode bs (durable nd)) i.
Definition cutSynced (i : nat) (bs : bytes) : Disk → Disk :=
  onInode (λ _, mkInode bs bs) i.

(** A recovery that was interrupted. *)
Definition midway (calm : Prop) (i : nat) (bs : bytes) (d0 d : Disk) : Prop :=
  at_ calm d0 d ∨ at_ calm (cut i bs d0) d ∨ at_ calm (cutSynced i bs d0) d.

Definition recovered (calm : Prop) (i : nat) (bs tail : bytes) (d0 d : Disk) : Prop :=
  tail = [] ∧ at_ calm d0 d ∨ tail ≠ [] ∧ at_ calm (cutSynced i bs d0) d.

Lemma recovered_midway calm i bs tail d0 d :
  recovered calm i bs tail d0 d → midway calm i bs d0 d.
Proof. unfold recovered, midway. tauto. Qed.

Lemma truncate_content i bs tail d0 :
  contentOf d0 i = bs ++ tail → is_Some (inodes d0 !! i) →
  onInode (λ nd, mkInode (resize (length bs) Byte.x00 (content nd)) (durable nd)) i d0 =
  cut i bs d0.
Proof.
  intros Hc [nd Hnd]. unfold contentOf in Hc. rewrite Hnd in Hc. cbn in Hc.
  unfold cut, onInode. f_equal. apply list_alter_ext; [|done].
  intros nd' Hnd'. simplify_eq. rewrite Hc, resize_app_le, resize_all by lia. done.
Qed.

Lemma truncateLocked_spec calm i bs tail d0 {A} (fail : error → IO A) k Q C :
  contentOf d0 i = bs ++ tail → is_Some (inodes d0 !! i) →
  (∀ d, ¬ calm → midway calm i bs d0 d → C d) →
  (∀ e, ¬ calm → spec (midway calm i bs d0) (fail e) Q C) →
  spec (at_ calm (cutSynced i bs d0)) k Q C →
  spec (at_ calm d0) (check (truncateLocked i (length bs)) fail k) Q C.
Proof.
  intros Hc Hi HC Hf Hk.
  apply spec_check with (R := at_ calm (cutSynced i bs d0))
    (Rf := λ d, ¬ calm ∧ midway calm i bs d0 d).
  - eapply spec_weaken with (C' := λ d, ¬ calm ∧ midway calm i bs d0 d);
      [|done|intros a d Hq; exact Hq|intros d []; by apply HC].
    unfold truncateLocked. apply spec_simple; [done| | |].
    + intros d Hn Hd. split; [done|]. by left.
    + intros e Hn. apply spec_ret. intros d Hd. split; [done|]. by left.
    + rewrite (truncate_content _ _ tail) by done. apply spec_simple; [done| | |].
      * intros d Hn Hd. split; [done|]. right. by left.
      * intros e Hn. apply spec_ret. intros d Hd. split; [done|]. right. by left.
      * apply spec_ret. unfold cut, cutSynced. rewrite onInode_compose. done.
  - intros e d [Hn Hd]. by apply (Hf e Hn).
  - done.
Qed.

Lemma readAt_exact a b c n :
  length b = n → readAt (a ++ b ++ c) (length a) n = ReadOk b.
Proof.
  intros <-. unfold readAt. rewrite drop_app_length, length_app, decide_True by lia.
  by rewrite take_app_length.
Qed.

Lemma readAt_short a b n :
  (length b < n)%nat → readAt (a ++ b) (length a) n = if decide (b = []) then EOF else UnexpectedEOF.
Proof. intros Hb. unfold readAt. rewrite drop_app_length, decide_False by lia. done. Qed.

(** The two reads of a torn record: either ends the loop. *)
Lemma torn_read pre tail n :
  torn tail → tail ≠ [] → n = 4%nat →
  readAt (pre ++ tail) (length pre) n = UnexpectedEOF ∨
  ∃ header r, readAt (pre ++ tail) (length pre) n = ReadOk header ∧ fits r ∧
    uint32 header = lenZ r ∧
    (readAt (pre ++ tail) (length pre + n) (length r) = EOF ∨
     readAt (pre ++ tail) (length pre + n) (length r) = UnexpectedEOF).
Proof.
  intros [->|(r & Hr & Hp & Hl)] Hne ->; [done|].
  destruct (decide (length tail < 4)%nat) as [Hs|Hs].
  { left. by rewrite readAt_short, decide_False. }
  right. assert (∃ part, tail = putUint32 (u32 (lenZ r)) ++ part) as [part ->].
  { destruct Hp as [q Hq]. exists (drop 4 tail).
    rewrite <- (take_drop 4 tail) at 1. f_equal. apply (f_equal (take 4)) in Hq.
    by rewrite take_app_le in Hq by lia. }
  rewrite length_frame, length_app in Hl. change (length (putUint32 _)) with 4%nat in Hl.
  exists (putUint32 (u32 (lenZ r))), r. rewrite readAt_exact by done.
  split; [done|]. split; [done|]. split; [by apply uint32_frame|].
  rewrite app_assoc. replace (length pre + 4)%nat
    with (length (pre ++ putUint32 (u32 (lenZ r)))) by (rewrite length_app; done).
  rewrite readAt_short by lia. case_decide; tauto.
Qed.

(** The loop over whole records: what it does at the end of them, [Q] and [C],
    decides what it does. *)
Lemma replay_walk calm i d0 fuel recs es tail Q C :
  contentOf d0 i = frames recs ++ frames es ++ tail →
  Forall fits es → (length es < fuel)%nat →
  (∀ d, ¬ calm → at_ calm d0 d → C d) →
  (∀ e d, ¬ calm → at_ calm d0 d → Q (Err e) d) →
  (∀ fuel, spec (at_ calm d0)
     (replay_from (S fuel) i (length (frames (recs ++ es))) (recs ++ es)) Q C) →
  spec (at_ calm d0) (replay_from fuel i (length (frames recs)) recs) Q C.
Proof.
  intros Hc Hf Hfuel HC HQ. revert recs es Hc Hf Hfuel.
  induction fuel as [|fuel IH]; intros recs es Hc Hf Hfuel Hend; [lia|].
  destruct es as [|r es]; [rewrite app_nil_r in Hend; apply Hend|].
  cbn [replay_from]. apply spec_read; [done|by intros e Hn; apply spec_ret; intros d; apply HQ|].
  apply Forall_cons in Hf as [Hr Hf].
  rewrite frames_cons in Hc. unfold frame in Hc. rewrite <- !app_assoc in Hc.
  rewrite Hc, readAt_exact by done. rewrite uint32_frame by done.
  rewrite decide_False by (unfold fits in Hr; lia).
  apply spec_read; [done|by intros e Hn; apply spec_ret; intros d; apply HQ|].
  rewrite Hc, (app_assoc (frames recs)).
  replace (length (frames recs) + 4)%nat with (length (frames recs ++ putUint32 (u32 (lenZ r))))
    by (rewrite length_app; done).
  rewrite readAt_exact by (unfold lenZ; lia).
  assert (length (frames recs) + (4 + Z.to_nat (lenZ r)) = length (frames (recs ++ [r])))%nat
    as -> by (rewrite frames_app, length_app; unfold frames at 3, lenZ;
              simpl; rewrite length_app; simpl; lia).
  replace (recs ++ r :: es) with ((recs ++ [r]) ++ es) in Hend by (by rewrite <- app_assoc).
  apply (IH _ es); [|done|simpl in *; lia|done].
  rewrite Hc, frames_app, frames_cons. unfold frame. by rewrite app_nil_r, <- !app_assoc.
Qed.

(** At a torn record, or at the end of the file. *)
Lemma replay_torn calm i d0 fuel recs tail :
  contentOf d0 i = frames recs ++ tail → is_Some (inodes d0 !! i) → torn tail →
  spec (at_ calm d0) (replay_from (S fuel) i (length (frames recs)) recs)
    (λ res d, match res with
              | Ok out => out = recs ∧ recovered calm i (frames recs) tail d0 d
              | Err _ => ¬ calm ∧ midway calm i (frames recs) d0 d
              end)
    (λ d, ¬ calm ∧ midway calm i (frames recs) d0 d).
Proof.
  intros Hc Hi Ht. cbn [replay_from].
  apply spec_read; [by intros d Hn Hd; split; [|left]|
    by intros e Hn; apply spec_ret; intros d Hd; split; [|left]|].
  assert (tail ≠ [] → spec (at_ calm d0)
    (check (truncateLocked i (length (frames recs))) (λ e, mret (Err e)) (mret (Ok recs)))
    (λ res d, match res with
              | Ok out => out = recs ∧ recovered calm i (frames recs) tail d0 d
              | Err _ => ¬ calm ∧ midway calm i (frames recs) d0 d
              end) (λ d, ¬ calm ∧ midway calm i (frames recs) d0 d)) as Htorn.
  { intros Hne. eapply truncateLocked_spec; [done..| |].
    - intros e Hn. by apply spec_ret.
    - apply spec_ret. intros d Hd. split; [done|]. by right. }
  destruct (decide (tail = [])) as [->|Hne].
  { rewrite Hc, readAt_short, decide_True by (done || simpl; lia).
    apply spec_ret. intros d Hd. split; [done|]. by left. }
  rewrite Hc. destruct (torn_read (frames recs) tail 4)
    as [->|(h & r & -> & Hr & -> & Hread)]; [done..|by apply Htorn|].
  rewrite decide_False by (unfold fits in Hr; lia).
  apply spec_read; [by intros d Hn Hd; split; [|left]|
    by intros e Hn; apply spec_ret; intros d Hd; split; [|left]|].
  rewrite Hc. unfold lenZ. rewrite Nat2Z.id.
  destruct Hread as [->| ->]; by apply Htorn.
Qed.

(** At a size no record can have. *)
Lemma replay_corrupt calm i d0 fuel recs n rest :
  contentOf d0 i = frames recs ++ putUint32 n ++ rest →
  0 ≤ n < 2 ^ 32 → n = 0 ∨ maxRecordSize < n →
  spec (at_ calm d0) (replay_from (S fuel) i (length (frames recs)) recs)
    (λ res d, (∀ out, res ≠ Ok out) ∧ at_ calm d0 d) (at_ calm d0).
Proof.
  intros Hc Hn Hbad. cbn [replay_from].
  apply spec_read; [done|by intros e _; apply spec_ret|].
  rewrite Hc, readAt_exact, uint32_putUint32, decide_True by done. by apply spec_ret.
Qed.

Lemma length_frames rs : Forall fits rs → (length rs ≤ length (frames rs))%nat.
Proof.
  induction 1 as [|r rs Hr _ IH]; [done|]. rewrite frames_cons, length_app, length_frame.
  simpl. lia.
Qed.

Lemma Replay_spec calm w i d0 rs tail :
  file w = Some i → contentOf d0 i = frames rs ++ tail → is_Some (inodes d0 !! i) →
  Forall fits rs → torn tail →
  spec (at_ calm d0) (Replay w)
    (λ res d, match res with
              | Ok out => out = rs ∧ recovered calm i (frames rs) tail d0 d
              | Err _ => ¬ calm ∧ midway calm i (frames rs) d0 d
              end)
    (λ d, ¬ calm ∧ midway calm i (frames rs) d0 d).
Proof.
  intros Hw Hc Hi Hf Ht. unfold Replay. rewrite Hw.
  apply spec_simple; [done|by intros d Hn Hd; split; [|left]|
    by intros e Hn; apply spec_ret; intros d Hd; split; [|left]|].
  change (id d0) with d0.
  apply spec_checkV with (R := λ out d, out = rs ∧ recovered calm i (frames rs) tail d0 d)
    (Rf := λ d, ¬ calm ∧ midway calm i (frames rs) d0 d).
  - assert (length rs < S (length (contentOf d0 i)))%nat as Hfuel.
    { rewrite Hc, length_app. pose proof (length_frames _ Hf). lia. }
    intros d Hd. pose proof Hd as Hd'. destruct Hd' as (fs & _ & Heq).
    assert (contentOf d i = contentOf d0 i) as -> by (by rewrite Heq).
    refine (replay_walk calm i d0 _ [] rs tail _ _ Hc Hf Hfuel _ _ _ d Hd).
    + intros d1 Hn Hd1. split; [done|]. by left.
    + intros e d1 Hn Hd1. split; [done|]. by left.
    + intros fuel. by apply replay_torn.
  - intros e. by apply spec_ret.
  - intros out d [-> [[-> Hd]|[Hne Hd]]]; revert d Hd.
    + eapply spec_simple; [done|by intros d Hn Hd; split; [|left]|
        by intros e Hn; apply spec_ret; intros d Hd; split; [|left]|].
      apply spec_ret. intros d Hd. split; [done|]. by left.
    + eapply spec_simple; [done|by intros d Hn Hd; split; [|right; right]|
        by intros e Hn; apply spec_ret; intros d Hd; split; [|right; right]|].
      apply spec_ret. intros d Hd. split; [done|]. by right.
Qed.

(** ** Replacing *)

Lemma Replace_spec calm w i rs d0 :
  file w = Some i →
  spec (at_ calm d0) (Replace w rs)
    (λ '(w', res) d, match res with
        | None => Forall fits rs ∧ w' = mkWAL (Some (length (inodes d0))) ∧
                  at_ calm (replaced d0 (frames rs)) d
        | Some _ => (calm → ¬ Forall fits rs) ∧ w' = w ∧
                    interrupted calm d0 (frames rs) d
        end)
    (λ d, ¬ calm ∧ interrupted calm d0 (frames rs) d).
Proof.
  intros Hw. unfold Replace. rewrite Hw.
  apply spec_createTemp; [by intros d Hn Hd; split; [|left]|
    by intros e Hn; apply spec_ret; intros d Hd; split_and!; [|done|left]|].
  fold (staged d0 [] []).
  assert (∀ p d, at_ calm (wrote (length (inodes d0)) p (staged d0 [] [])) d →
    at_ calm (staged d0 p []) d) as Hst by (intros p d; unfold wrote; by rewrite write_staged).
  unfold check at 1. eapply spec_bind.
  { eapply spec_weaken; [apply writeRecords_spec|done|intros ?? Hq; exact Hq|].
    intros d (Hn & p & _ & Hd%Hst). split; [done|]. right. left. by exists p, []. }
  intros [e|].
  { intros d (Hn & p & _ & Hd%Hst). revert d Hd. apply spec_ignore.
    - intros d Hc Hd. split; [done|]. right. left. by exists p, [].
    - apply spec_ret. intros d Hd. split_and!; [done..|]. right. left. by exists p, []. }
  intros d [Hf Hd%Hst]. revert d Hd.
  replace_step ltac:(right; left; by eexists _, _).
  rewrite fsync_staged.
  do 2 replace_step ltac:(right; left; by eexists _, _).
  unfold id. change (staged ?d ?b ?b <| link := _ |>) with (renamed d b).
  do 2 replace_step ltac:(right; right; by left).
  unfold id. change (renamed ?d ?b <| durableLink := _ |>) with (replaced d b).
  do 2 replace_step ltac:(right; right; by right).
  eapply spec_openCreate; [done|intros d Hn Hd; split; [done|]; right; right; by right| |].
  { intros e Hn. apply spec_ret. intros d Hd. split_and!; [done..|]. right; right; by right. }
  by apply spec_ret.
Qed.

(** ** Crash safety *)

Lemma holds_settled w rs d : holds w rs d → settled d (Some (frames rs)).
Proof. intros [_ (i & _ & Hl & Hd & Hi)]. split; [congruence|]. by exists i. Qed.

Lemma onInode_lookup f i d nd : inodes d !! i = Some nd → inodes (onInode f i d) !! i = Some (f nd).
Proof. intros H. cbn. rewrite list_lookup_alter_eq, H. done. Qed.

(** A file all of whose states extend a synced one. *)
Lemma file_image d i nd c :
  link d = Some i → durableLink d = Some i → inodes d !! i = Some nd →
  image d c ↔ ∃ bs, c = Some bs ∧ survives nd bs.
Proof.
  intros Hl Hd Hi. unfold image. rewrite Hl, Hd. split.
  - intros (l & Hx & Hc). assert (l = Some i) as -> by (by destruct Hx).
    destruct Hc as (nd' & bs & Hn & Hs & ->). simplify_eq. by exists bs.
  - intros (bs & -> & Hs). exists (Some i). split; [by left|]. by exists nd, bs.
Qed.

Lemma holds_partial calm w i rs es d d' :
  holds w rs d → file w = Some i → partial calm i (frames es) d d' → recoverable rs es d'.
Proof.
  intros [_ (j & Hj & Hl & Hd & Hi)] Hw (p & Hp & Ha) c Hc.
  assert (j = i) as -> by congruence.
  apply (at_image _ _ _ _ Ha) in Hc.
  apply (file_image _ i (mkInode (frames rs ++ p) (frames rs))) in Hc as (bs & -> & Hs); [|done..|].
  - destruct Hs as [[[q ->] Hq]|[Hq Hs]].
    + exists q. split; [done|]. apply prefix_app_inv in Hq. by trans p.
    + exists []. rewrite app_nil_r. split; [|apply prefix_nil]. f_equal.
      apply (anti_symm prefix); [done|]. trans (frames rs ++ p); [by apply prefix_app_r|done].
  - unfold wrote. by erewrite onInode_lookup by done.
Qed.

Lemma append_safe w rs es d d' r :
  holds w rs d → Forall fits es → AppendBatch w es d = (d', r) →
  recoverable rs es d' ∧ (r = Some None → holds w (rs ++ es) d').
Proof.
  intros Hh Hes Ha. pose proof Hh as [Hrs (i & Hw & Hl & Hdl & Hi)].
  pose proof (AppendBatch_spec False w i es d Hw d) as Hs. rewrite Ha in Hs.
  specialize (Hs (at_same False d (λ H, match H with end))).
  assert (∀ d', at_ False (syncedAt i (wrote i (frames es) d)) d' → holds w (rs ++ es) d') as Hok.
  { intros d1 (fs & _ & ->). split; [by apply Forall_app|]. exists i. split_and!; try done.
    unfold syncedAt, wrote. cbn. erewrite !list_lookup_alter_eq, Hi. by rewrite frames_app. }
  destruct r as [[e|]|].
  - split; [|done]. by eapply holds_partial; [| |apply Hs].
  - destruct Hs as [_ [[-> Hd]|Hd]].
    + split; [by eapply holds_partial; [| |apply partial_nil]|]. intros _.
      rewrite app_nil_r. destruct Hd as (fs & _ & ->). split; [done|]. by exists i.
    + pose proof (Hok _ Hd) as Hh'. split; [|done]. intros c Hc.
      apply (settled_image _ _ _ (holds_settled _ _ _ Hh')) in Hc as ->.
      exists (frames es). by rewrite frames_app.
  - split; [|done]. by eapply holds_partial; [| |apply Hs].
Qed.

Lemma NewWAL_spec calm bs :
  spec (at_ calm (rebooted (Some bs) [])) NewWAL
    (λ r d, at_ calm (rebooted (Some bs) []) d ∧
            match r with Ok w => w = mkWAL (Some 0%nat) | Err _ => ¬ calm end)
    (λ d, ¬ calm ∧ at_ calm (rebooted (Some bs) []) d).
Proof.
  unfold NewWAL. apply spec_simple; [done|done|by intros; apply spec_ret|].
  change (id ?d) with d.
  eapply spec_openCreate; [done|done|by intros; apply spec_ret|by apply spec_ret].
Qed.

(** What a recovery leaves when it is cut short can be recovered as well. *)
Lemma midway_recoverable calm k rs es tail d :
  frames es = frames (take k es) ++ frames (drop k es) → tail `prefix_of` frames (drop k es) →
  midway calm 0 (frames (rs ++ take k es)) (rebooted (Some (frames rs ++ frames (take k es) ++ tail)) []) d →
  recoverable rs es d.
Proof.
  intros Hes Htail Hm c Hc.
  assert (frames (take k es) ++ tail `prefix_of` frames es) as Hp by (rewrite Hes; by apply prefix_app).
  rewrite frames_app in Hm. set (good := frames rs ++ frames (take k es)) in *.
  assert (∀ c, c = Some good → ∃ p, c = Some (frames rs ++ p) ∧ p `prefix_of` frames es) as Hgood.
  { intros ? ->. eexists. split; [done|]. etrans; [|exact Hp]. by apply prefix_app_r. }
  destruct Hm as [Ha|[Ha|Ha]]; apply (at_image _ _ _ _ Ha) in Hc.
  - apply (settled_image _ _ _ (rebooted_settled _ _)) in Hc as ->. by eexists.
  - apply (file_image _ 0 (mkInode good (good ++ tail))) in Hc as (bs & -> & Hs);
      [|done|done|cbn; by rewrite app_assoc].
    destruct Hs as [[H1 H2]|[[q ->] H2]].
    + apply Hgood. f_equal. apply (anti_symm prefix); [done|]. etrans; [|exact H1]. by apply prefix_app_r.
    + apply prefix_app_inv in H2. exists (frames (take k es) ++ q). subst good.
      rewrite app_assoc. split; [done|]. rewrite Hes. apply prefix_app. by trans tail.
  - apply (file_image _ 0 (mkInode good good)) in Hc as (bs & -> & Hs); [|done..].
    apply survives_synced in Hs as ->. by apply Hgood.
Qed.

Lemma replay_recovery rs es d c fs d1 w d2 r :
  Forall fits rs → Forall fits es → recoverable rs es d → image d c →
  NewWAL (rebooted c fs) = (d1, Some (Ok w)) → Replay w d1 = (d2, r) →
  recoverable rs es d2 ∧
  (∀ out, r = Some (Ok out) → ∃ k, out = rs ++ take k es ∧ holds w out d2) ∧
  (fs = [] → ∃ out, r = Some (Ok out)).
Proof.
  intros Hrs Hes Hrec (p & -> & Hp)%Hrec Hnew Hrep.
  set (bs := frames rs ++ p) in *.
  pose proof (NewWAL_spec (fs = []) bs (rebooted (Some bs) fs)) as Hn.
  rewrite Hnew in Hn. destruct Hn as [Hd1 ->]; [by exists fs|].
  apply prefix_frames in Hp as (k & tail & -> & Htorn & Htail); [|done].
  pose proof (Replay_spec (fs = []) (mkWAL (Some 0%nat)) 0 (rebooted (Some bs) [])
    (rs ++ take k es) tail eq_refl) as Hr.
  rewrite frames_app in Hr. specialize (Hr ltac:(subst bs; cbn; by rewrite app_assoc)).
  assert (Forall fits (rs ++ take k es)) as Hall by (apply Forall_app; by split; [|apply Forall_take]).
  specialize (Hr ltac:(by eexists) Hall Htorn d1 Hd1). rewrite Hrep in Hr.
  assert (frames es = frames (take k es) ++ frames (drop k es)) as Hsplit
    by (by rewrite <- frames_app, take_drop).
  assert (∀ d, midway (fs = []) 0 (frames rs ++ frames (take k es)) (rebooted (Some bs) []) d →
    recoverable rs es d) as Hmid.
  { intros d0 Hm. eapply midway_recoverable; [done..|]. by rewrite frames_app. }
  destruct r as [[out|e]|].
  - destruct Hr as [-> Hd]. split_and!; [by eapply Hmid, recovered_midway| |by eexists].
    intros ? [= <-]. exists k. split; [done|]. split; [done|]. exists 0%nat.
    rewrite frames_app. subst bs.
    destruct Hd as [[-> (? & _ & ->)]|[_ (? & _ & ->)]]; split_and!; try done.
    cbn. by rewrite app_nil_r.
  - destruct Hr as [Hn Hm]. split_and!; [by eapply Hmid|done|]. intros ->. by destruct Hn.
  - destruct Hr as [Hn Hm]. split_and!; [by eapply Hmid|done|]. intros ->. by destruct Hn.
Qed.

Lemma replace_safe w rs es d d' r :
  holds w rs d → Replace w es d = (d', r) →
  (∀ c, image d' c → c = Some (frames rs) ∨ c = Some (frames es)) ∧
  (∀ w', r = Some (w', None) → holds w' es d') ∧
  (faults d = [] → Forall fits es → ∃ w', r = Some (w', None)).
Proof.
  intros Hh Hr. pose proof Hh as [Hrs (i & Hw & Hl & Hdl & Hi)].
  pose proof (Replace_spec (faults d = []) w i es d Hw d (at_same _ d (λ H, H))) as Hs.
  rewrite Hr in Hs. pose proof (holds_settled _ _ _ Hh) as Hset.
  assert (∀ d', interrupted (faults d = []) d (frames es) d' →
    ∀ c, image d' c → c = Some (frames rs) ∨ c = Some (frames es)) as Hint.
  { intros d1 Hd c Hc. eapply interrupted_image in Hc as [Hc|Hc]; [|by right| |done].
    - left. by apply (settled_image _ _ _ Hset) in Hc.
    - by eapply settled_wf. }
  destruct r as [[w' [e|]]|].
  - destruct Hs as (Hf & _ & Hd). split_and!; [by apply Hint|done|]. intros ??. by destruct Hf.
  - destruct Hs as (Hf & -> & Hd). split_and!; [|intros ? [= <-]|by eexists].
    + apply Hint. by do 3 right.
    + destruct Hd as (fs & _ & ->). split; [done|]. eexists. split_and!; try done.
      cbn. rewrite lookup_app_r, Nat.sub_diag by done. done.
  - destruct Hs as [Hn Hd]. split_and!; [by apply Hint|done|]. done.
Qed.

