(* ===== verification/WalProps.v ===== *)
(** * What the write-ahead log promises

    The crash-safety properties of [wal.go], with their witnesses. *)

From Stdlib Require Import Strings.Byte.
From S2P Require Import Prelude.
From S2P Require Import Fs.
From S2P Require Import Wal.
From S2P Require Import WalFacts.

(** Appending is atomic up to a torn tail: whatever calls fail and
    wherever the process crashes, a restart finds the old records and at most
    a prefix of the new records' bytes; once [AppendBatch] has returned
    without error, every new record is durable. *)
Theorem append_crash_safe w rs es d d' r :
  holds w rs d → Forall fits es → AppendBatch w es d = (d', r) →
  recoverable rs es d' ∧ (r = Some None → holds w (rs ++ es) d').
Proof. apply append_safe. Qed.

(** C22: Recovery after a crash: whatever part of the new records' bytes the
    crash has left, reopening the log and replaying it gives the old records
    and a prefix of the new ones, cuts the torn record off durably, survives
    failures and crashes of its own, and succeeds on a disk that works. *)
Theorem replay_recovers rs es d c fs d1 w d2 r :
  Forall fits rs → Forall fits es → recoverable rs es d → image d c →
  NewWAL (rebooted c fs) = (d1, Some (Ok w)) → Replay w d1 = (d2, r) →
  recoverable rs es d2 ∧
  (∀ out, r = Some (Ok out) → ∃ k, out = rs ++ take k es ∧ holds w out d2) ∧
  (fs = [] → ∃ out, r = Some (Ok out)).
Proof. apply replay_recovery. Qed.

(** C23: Rewriting the log is atomic: whatever fails and wherever it crashes, a
    restart finds all the old records or all the new ones; once [Replace]
    returns without error the new ones are durable in the reopened file, and
    on a disk that works it does so. *)
Theorem replace_atomic w rs es d d' r :
  holds w rs d → Replace w es d = (d', r) →
  (∀ c, image d' c → c = Some (frames rs) ∨ c = Some (frames es)) ∧
  (∀ w', r = Some (w', None) → holds w' es d') ∧
  (faults d = [] → Forall fits es → ∃ w', r = Some (w', None)).
Proof. apply replace_safe. Qed.

(** A size that no record can have stops the recovery with an error and
    nothing is cut: the bytes after it may be records. *)
Theorem corrupt_size_rejected w i d rs n rest :
  file w = Some i → contentOf d i = frames rs ++ putUint32 n ++ rest → Forall fits rs →
  0 ≤ n < 2 ^ 32 → n = 0 ∨ maxRecordSize < n →
  let '(d', r) := Replay w d in
  (∀ out, r ≠ Some (Ok out)) ∧ ∀ c, image d' c → image d c.
Proof.
  intros Hw Hc Hf Hn Hbad. unfold Replay. rewrite Hw.
  set (Q := λ (res : Fallible (list bytes)) d', (∀ out, res ≠ Ok out) ∧ at_ False d d').
  assert (spec (at_ False d) (check seek (λ e, mret (Err (Wrapf "seek WAL %q" e)))
    (checkV (λ d, replay_from (S (length (contentOf d i))) i 0 [] d) (λ e, mret (Err e))
     (λ records, check seek (λ e, mret (Err (Wrapf "seek WAL end %q" e)))
        (mret (Ok records))))) Q (at_ False d)) as Hs.
  { apply spec_simple; [done|done|by intros; apply spec_ret|]. change (id d) with d.
    apply spec_checkV with (R := λ _ _, False) (Rf := at_ False d);
      [|by intros; apply spec_ret|by intros ? ? []].
    intros d1 Hd1. pose proof Hd1 as (fs & _ & Heq).
    assert (contentOf d1 i = contentOf d i) as -> by (by rewrite Heq).
    eapply spec_weaken; [|exact (λ d H, H)|..|exact Hd1].
    - eapply (replay_walk False i d _ [] rs (putUint32 n ++ rest) Q (at_ False d)); try done.
      + pose proof (length_frames _ Hf). rewrite Hc, length_app. lia.
      + intros fuel. by eapply replay_corrupt.
    - intros [out|e] d2 [Hne Hd2]; [by destruct (Hne out)|done].
    - done. }
  specialize (Hs d (at_same False d (λ H, match H with end))).
  destruct (check _ _ _ d) as [d' [[out|e]|]].
  - destruct Hs as [Hne _]. by destruct (Hne out).
  - destruct Hs as [_ Hd]. split; [done|]. intros c. by apply at_image with False.
  - split; [done|]. intros c. by apply at_image with False.
Qed.

(** ** Witnesses *)

Definition rec1 : bytes := [x01; x02].
Definition rec2 : bytes := [x03].
Definition openLog : WAL := mkWAL (Some 0%nat).
Definition diskWith (fs : list outcome) : Disk := rebooted (Some (frames [rec1])) fs.

Lemma diskWith_holds fs : holds openLog [rec1] (diskWith fs).
Proof. split; [by apply Forall_singleton|by exists 0%nat]. Qed.

(** The second write fails after one byte. *)
Lemma append_crash_safe_witness :
  ∃ d' e, AppendBatch openLog [rec2; rec1] (diskWith [Done; Done; Done; Failed 1 (Errorf "io")])
          = (d', Some (Some e)) ∧ recoverable [rec1] [rec2; rec1] d'.
Proof.
  eexists _, _. split; [vm_compute; reflexivity|].
  eapply (append_crash_safe openLog [rec1] [rec2; rec1]
    (diskWith [Done; Done; Done; Failed 1 (Errorf "io")]) _ (Some (Some _)) (diskWith_holds _));
    [|vm_compute; reflexivity].
  repeat constructor; vm_compute; discriminate || reflexivity.
Defined.

(** Half a frame is left behind. *)
Lemma replay_recovers_witness :
  ∃ d2, Replay openLog (rebooted (Some (frames [rec1] ++ [x00; x00])) []) = (d2, Some (Ok [rec1])) ∧
  recoverable [rec1] [rec2] d2.
Proof.
  eexists. split; [vm_compute; reflexivity|].
  eapply (replay_recovers [rec1] [rec2] (rebooted (Some (frames [rec1] ++ [x00; x00])) [])
    (Some (frames [rec1] ++ [x00; x00])) []
    (rebooted (Some (frames [rec1] ++ [x00; x00])) []) openLog _ (Some (Ok [rec1]))).
  - by apply Forall_singleton.
  - by apply Forall_singleton.
  - intros c Hc. apply (settled_image _ _ _ (rebooted_settled _ _)) in Hc as ->.
    exists [x00; x00]. split; [done|]. by exists [x00; x01; x03].
  - by apply (settled_image _ _ _ (rebooted_settled _ _)).
  - vm_compute. reflexivity.
  - vm_compute. reflexivity.
Defined.

Lemma replace_atomic_witness :
  ∃ d', Replace openLog [rec2] (diskWith []) = (d', Some (mkWAL (Some 1%nat), None)) ∧
  holds (mkWAL (Some 1%nat)) [rec2] d'.
Proof.
  eexists. split; [vm_compute; reflexivity|].
  eapply (replace_atomic openLog [rec1] [rec2] (diskWith []) _ (Some (mkWAL (Some 1%nat), None))
    (diskWith_holds _)); [|reflexivity].
  vm_compute. reflexivity.
Defined.

Lemma corrupt_size_rejected_witness :
  let d := rebooted (Some (frames [rec1] ++ putUint32 0 ++ [x05])) [] in
  ∃ d' e, Replay openLog d = (d', Some (Err e)) ∧ ∀ c, image d' c → image d c.
Proof.
  intros d. pose proof (corrupt_size_rejected openLog 0 d [rec1] 0 [x05] eq_refl eq_refl) as H.
  destruct (Replay openLog d) as [d' r] eqn:Hr.
  assert (r = (Replay openLog d).2) as -> by (by rewrite Hr).
  eexists _, _. split; [vm_compute in Hr |- *; injection Hr as <-; reflexivity|].
  apply H; [by apply Forall_singleton|lia|by left].
Defined.
