(* ===== verification/Log.v ===== *)
(** * Raft log entries and the log store interface

    [internal/raft/log.go]: entries, metadata and the [LogStore] interface.
    The stores are in [FileLog] and [MemoryLog]. *)

From S2P Require Import Prelude.

(** ** Entries *)

(** [type Operation string]: any string may occur (the transport decodes an
    unknown wire value to ["invalid"]); three are meaningful. *)
Abbreviation operation := string (only parsing).
Definition NoopOperation : operation := ""%string.
Definition SetOperation : operation := "SET"%string.
Definition DeleteOperation : operation := "DELETE"%string.

Record LogEntry := mkLogEntry {
  Index : Z;
  Term : Z;
  Operation : operation;
  Key : string;
  Value : string;
}.

#[export] Instance LogEntry_eq_dec : EqDecision LogEntry.
Proof. solve_decision. Defined.

(** [func (e LogEntry) Validate() error] *)
Definition LogEntry_Validate (e : LogEntry) : option error :=
  if decide (Index e = 0) then Some (Errorf "log entry index must be positive")
  else if decide (Operation e = NoopOperation) then
    if decide (Key e ≠ ""%string ∨ Value e ≠ ""%string)
    then Some (Errorf "NOOP entry %d cannot contain a key or value") else None
  else if decide (Operation e = SetOperation) then
    if decide (Key e = ""%string)
    then Some (Errorf "SET entry %d key cannot be empty") else None
  else if decide (Operation e = DeleteOperation) then
    if decide (Key e = ""%string)
    then Some (Errorf "DELETE entry %d key cannot be empty")
    else if decide (Value e ≠ ""%string)
    then Some (Errorf "DELETE entry %d cannot contain a value") else None
  else Some (Errorf "log entry %d has unknown operation %q").

(** ** Snapshot boundary *)

Record SnapshotMetadata := mkMeta {
  LastIncludedIndex : Z;
  LastIncludedTerm : Z;
}.

#[export] Instance SnapshotMetadata_eq_dec : EqDecision SnapshotMetadata.
Proof. solve_decision. Defined.

(** [func (m SnapshotMetadata) Validate() error] *)
Definition SnapshotMetadata_Validate (m : SnapshotMetadata) : option error :=
  if decide (LastIncludedIndex m = 0 ∧ LastIncludedTerm m ≠ 0)
  then Some (Errorf "empty snapshot cannot have last included term %d") else None.

(** ** Contiguous runs of entries *)

(** The entries carry the consecutive indexes [first], [first + 1], … *)
Fixpoint contiguous (first : Z) (es : list LogEntry) : Prop :=
  match es with
  | [] => True
  | e :: es' => Index e = first ∧ contiguous (first + 1) es'
  end.

Definition chained (es : list LogEntry) : Prop := ∃ first, contiguous first es.

Definition valid_entries (es : list LogEntry) : Prop :=
  Forall (λ e, LogEntry_Validate e = None) es.

#[export] Instance contiguous_dec first es : Decision (contiguous first es).
Proof. revert first. induction es; intros first; simpl; apply _. Defined.

#[export] Instance valid_entries_dec es : Decision (valid_entries es).
Proof. apply _. Defined.

Lemma contiguous_app f es fs :
  contiguous f (es ++ fs) ↔ contiguous f es ∧ contiguous (f + lenZ es) fs.
Proof.
  revert f. induction es as [|e es IH]; intros f; simpl.
  - rewrite lenZ_nil, Z.add_0_r. tauto.
  - rewrite IH, lenZ_cons, Z.add_assoc. tauto.
Qed.

Lemma contiguous_lookup f es k e :
  contiguous f es → es !! k = Some e → Index e = f + Z.of_nat k.
Proof.
  revert f k. induction es as [|e' es IH]; intros f k Hc Hk; [done|].
  destruct Hc as [Hi Hc], k as [|k]; simplify_eq/=; [lia|].
  rewrite (IH _ _ Hc Hk). lia.
Qed.

Lemma contiguous_elem f es e :
  contiguous f es → e ∈ es → f ≤ Index e < f + lenZ es.
Proof.
  intros Hc [k Hk]%list_elem_of_lookup.
  pose proof (lookup_lt_Some _ _ _ Hk). rewrite (contiguous_lookup _ _ _ _ Hc Hk).
  unfold lenZ. lia.
Qed.

Lemma contiguous_take f es n : contiguous f es → contiguous f (take n es).
Proof. rewrite <- (take_drop n es) at 1. rewrite contiguous_app. tauto. Qed.

Lemma contiguous_drop f es n :
  contiguous f es → contiguous (f + Z.of_nat (min n (length es))) (drop n es).
Proof.
  rewrite <- (take_drop n es) at 1. rewrite contiguous_app.
  unfold lenZ. rewrite length_take. tauto.
Qed.

Lemma contiguous_last f es e :
  contiguous f es → last es = Some e → Index e = f + lenZ es - 1.
Proof.
  intros Hc Hl. rewrite last_lookup in Hl.
  pose proof (lookup_lt_Some _ _ _ Hl). rewrite (contiguous_lookup _ _ _ _ Hc Hl).
  unfold lenZ. lia.
Qed.

Lemma contiguous_snoc f es e :
  contiguous f es → Index e = f + lenZ es → contiguous f (es ++ [e]).
Proof. intros ??. rewrite contiguous_app. done. Qed.

(** A bound on the index selects a prefix, or a suffix, of a contiguous run. *)
Lemma filter_below f es i :
  contiguous f es →
  filter (λ e, Index e < i) es = take (Z.to_nat (i - f)) es.
Proof.
  revert f. induction es as [|e es IH]; intros f Hc; [by rewrite take_nil|].
  destruct Hc as [Hi Hc]. rewrite filter_cons. case_decide.
  - replace (Z.to_nat (i - f)) with (S (Z.to_nat (i - (f + 1)))) by lia.
    simpl. f_equal. by apply IH.
  - rewrite (IH _ Hc).
    replace (Z.to_nat (i - f)) with 0%nat by lia.
    by replace (Z.to_nat (i - (f + 1))) with 0%nat by lia.
Qed.

Lemma filter_above f es i :
  contiguous f es →
  filter (λ e, i < Index e) es = drop (Z.to_nat (i + 1 - f)) es.
Proof.
  revert f. induction es as [|e es IH]; intros f Hc; [by rewrite drop_nil|].
  destruct Hc as [Hi Hc]. rewrite filter_cons. case_decide.
  - replace (Z.to_nat (i + 1 - f)) with 0%nat by lia. rewrite (IH _ Hc).
    by replace (Z.to_nat (i + 1 - (f + 1))) with 0%nat by lia.
  - replace (Z.to_nat (i + 1 - f)) with (S (Z.to_nat (i + 1 - (f + 1)))) by lia.
    simpl. by apply IH.
Qed.

(** ** The stores' search loops

    [for position, entry := range entries { if … { offset = position; break } }]
    with [offset] initialised to [len(entries)]. *)
Fixpoint scan (stop : LogEntry → bool) (es : list LogEntry) : nat :=
  match es with
  | [] => 0%nat
  | e :: es' => if stop e then 0%nat else S (scan stop es')
  end.

(** The loop of [TruncateFrom]. *)
Definition truncateOffset (index : Z) (es : list LogEntry) : nat :=
  scan (λ e, bool_decide (index ≤ Index e)) es.

(** The loop of [CompactThrough]. *)
Definition firstRetained (index : Z) (es : list LogEntry) : nat :=
  scan (λ e, bool_decide (index < Index e)) es.

Lemma take_truncateOffset f es i :
  contiguous f es → take (truncateOffset i es) es = filter (λ e, Index e < i) es.
Proof.
  revert f. induction es as [|e es IH]; intros f Hc; [done|].
  pose proof (filter_below _ _ i Hc) as Hfilter. destruct Hc as [Hi Hc].
  unfold truncateOffset. simpl. case_bool_decide.
  - rewrite Hfilter. by replace (Z.to_nat (i - f)) with 0%nat by lia.
  - rewrite filter_cons_True by lia. simpl. f_equal. by apply (IH (f + 1)).
Qed.

Lemma drop_firstRetained f es i :
  contiguous f es → drop (firstRetained i es) es = filter (λ e, i < Index e) es.
Proof.
  revert f. induction es as [|e es IH]; intros f Hc; [done|].
  pose proof (filter_above _ _ i Hc) as Hfilter. destruct Hc as [Hi Hc].
  unfold firstRetained. simpl. case_bool_decide.
  - rewrite Hfilter. by replace (Z.to_nat (i + 1 - f)) with 0%nat by lia.
  - rewrite filter_cons_False by lia. simpl. by apply (IH (f + 1)).
Qed.

Create HintDb log discriminated.
#[export] Hint Resolve contiguous_take contiguous_snoc : log.

(** ** The store interface *)

(** [type LogStore interface].  A call returns the store's next state with
    the value and the error the method returns. *)
Class LogStore (LS : Type) := {
  log_Load : LS → LS * Fallible (list LogEntry);
  log_Append : LS → list LogEntry → LS * option error;
  log_TruncateFrom : LS → Z → LS * option error;
  log_CompactThrough : LS → Z → LS * option error;
  log_Close : LS → LS * option error;
}.

(** What Raft relies on.  [log_entries] is the sequence a later [Load] gives,
    [log_inv] the store's own invariant, [log_fits] the entries the store can
    hold.  An operation that reports an error has had no effect: an assumption
    about the medium, which the in-memory store meets, and the file store on a
    disk whose calls do not fail (its instance is over such disks).  On one
    whose writes fail part of a batch may stay in the file, which no user of
    the interface is prepared for ([partial_batch_kept] shows what comes of
    it). *)
Class LogStoreLaws (LS : Type) `{LogStore LS} := {
  log_entries : LS → list LogEntry;
  log_inv : LS → Prop;
  log_fits : LogEntry → Prop;
  log_fits_noop i t :
    0 ≤ i < 2 ^ 64 → 0 ≤ t < 2 ^ 64 → log_fits (mkLogEntry i t NoopOperation "" "");
  log_fits_entries s : log_inv s → Forall log_fits (log_entries s);
  log_Load_law s s' r :
    log_inv s → log_Load s = (s', r) →
    log_inv s' ∧ log_entries s' = log_entries s ∧
    (∀ es, r = Ok es → es = log_entries s);
  log_Append_law s es s' r :
    log_inv s → valid_entries es → Forall log_fits es → chained (log_entries s ++ es) →
    log_Append s es = (s', r) →
    log_inv s' ∧
    log_entries s' = (if r then log_entries s else log_entries s ++ es);
  log_TruncateFrom_law s i s' r :
    log_inv s → chained (log_entries s) → log_TruncateFrom s i = (s', r) →
    log_inv s' ∧
    log_entries s' =
      (if r then log_entries s else filter (λ e, Index e < i) (log_entries s));
  log_CompactThrough_law s i s' r :
    log_inv s → chained (log_entries s) → log_CompactThrough s i = (s', r) →
    log_inv s' ∧
    log_entries s' =
      (if r then log_entries s else filter (λ e, i < Index e) (log_entries s));
}.

(** A store whose medium does not fail: each call inside its contract
    succeeds.  Progress results use it; safety results do not. *)
Class LogStoreLive (LS : Type) `{LogStoreLaws LS} := {
  log_Load_live s : log_inv s → ∃ s', log_Load s = (s', Ok (log_entries s));
  log_Append_live s es :
    log_inv s → valid_entries es → Forall log_fits es →
    chained (log_entries s ++ es) → ∃ s', log_Append s es = (s', None);
  log_TruncateFrom_live s f i :
    log_inv s → contiguous f (log_entries s) → 0 < i →
    i ≤ f + lenZ (log_entries s) < 2 ^ 64 →
    ∃ s', log_TruncateFrom s i = (s', None);
  log_CompactThrough_live s i :
    log_inv s → chained (log_entries s) →
    ∃ s', log_CompactThrough s i = (s', None);
}.
