(* ===== verification/FileLog.v ===== *)
(** * The durable log store

    [FileLogStore] of [internal/raft/log.go]: entries in JSON, one record of the
    write-ahead log each.  [encoding/json] on an entry is the class
    [EntryCodec]. *)

From S2P Require Import Prelude.
From S2P Require Import Fs.
From S2P Require Import Wal.
From S2P Require Import Log.

(** [json.Marshal] and [json.Unmarshal] on a [LogEntry].  Marshalling cannot
    fail and gives at least one byte; an entry whose numbers are [uint64] and
    whose strings are valid UTF-8 ([exactEntry]) is read back unchanged; the
    no-op entries are of that kind and short. *)
Class EntryCodec := {
  marshalEntry : LogEntry → bytes;
  unmarshalEntry : bytes → option LogEntry;
  exactEntry : LogEntry → Prop;
  unmarshal_marshalEntry e : exactEntry e → unmarshalEntry (marshalEntry e) = Some e;
  marshalEntry_pos e : 0 < lenZ (marshalEntry e);
  exactEntry_index e : exactEntry e → is_u64 (Index e);
  exactEntry_noop i t : is_u64 i → is_u64 t → exactEntry (mkLogEntry i t NoopOperation "" "");
  marshalEntry_noop i t :
    is_u64 i → is_u64 t → lenZ (marshalEntry (mkLogEntry i t NoopOperation "" "")) ≤ maxRecordSize;
}.

Record FileLogStore := mkFileLogStore { wal : WAL }.

Section FileLog.
Context `{EntryCodec}.

Definition NewFileLogStore : IO (Fallible FileLogStore) :=
  checkV NewWAL (λ e, mret (Err e)) (λ w, mret (Ok (mkFileLogStore w))).

(** [position > 0 && entry.Index != entries[position-1].Index+1], negated;
    [previous] is the index at [position-1]. *)
Definition follows (previous : option Z) (entry : LogEntry) : bool :=
  match previous with
  | None => true
  | Some p => bool_decide (Index entry = u64 (p + 1))
  end.

(** The loop of [encodeEntries], and of [replaceLocked]. *)
Fixpoint encode_from (previous : option Z) (es : list LogEntry) : Fallible (list bytes) :=
  match es with
  | [] => Ok []
  | entry :: rest =>
      match LogEntry_Validate entry with
      | Some err => Err err
      | None =>
          if negb (follows previous entry)
          then Err (Errorf "entry index %d does not follow index %d")
          else match encode_from (Some (Index entry)) rest with
               | Err err => Err err
               | Ok records => Ok (marshalEntry entry :: records)
               end
      end
  end.

Definition encodeEntries (es : list LogEntry) : Fallible (list bytes) := encode_from None es.

(** The loop of [loadLocked]. *)
Fixpoint decode_from (previous : option Z) (records : list bytes) : Fallible (list LogEntry) :=
  match records with
  | [] => Ok []
  | record :: rest =>
      match unmarshalEntry record with
      | None => Err (Errorf "decode log entry at record %d: %w")
      | Some entry =>
          match LogEntry_Validate entry with
          | Some err => Err err
          | None =>
              if negb (follows previous entry)
              then Err (Errorf "log entry index %d at record %d is not contiguous after index %d")
              else match decode_from (Some (Index entry)) rest with
                   | Err err => Err err
                   | Ok es => Ok (entry :: es)
                   end
          end
      end
  end.

Definition loadLocked (s : FileLogStore) : IO (Fallible (list LogEntry)) :=
  checkV (Replay (wal s)) (λ e, mret (Err e))
  (λ records, mret (decode_from None records)).

Definition file_Load (s : FileLogStore) : IO (Fallible (list LogEntry)) := loadLocked s.

Definition file_Append (s : FileLogStore) (es : list LogEntry) : IO (option error) :=
  if decide (lenZ es = 0) then mret None
  else match encodeEntries es with
  | Err err => mret (Some err)
  | Ok records =>
      check (AppendBatch (wal s) records)
        (λ e, mret (Some (Wrapf "append Raft log entries" e)))
      (mret None)
  end.

Definition replaceLocked (s : FileLogStore) (es : list LogEntry) :
    IO (FileLogStore * option error) :=
  match encode_from None es with
  | Err err => mret (s, Some err)
  | Ok records =>
      '(w, err) ← Replace (wal s) records;
      mret (mkFileLogStore w, Wrapf "replace Raft log" <$> err)
  end.

Definition file_TruncateFrom (s : FileLogStore) (index : Z) :
    IO (FileLogStore * option error) :=
  if decide (index = 0) then mret (s, Some (Errorf "truncate index must be positive"))
  else
    checkV (loadLocked s) (λ e, mret (s, Some e)) (λ es,
    match last es with
    | Some lastEntry =>
        if decide (u64 (Index lastEntry + 1) < index)
        then mret (s, Some (Errorf "truncate index %d exceeds last log index %d"))
        else replaceLocked s (take (truncateOffset index es) es)
    | None => replaceLocked s (take (length es) es)
    end).

Definition file_CompactThrough (s : FileLogStore) (index : Z) :
    IO (FileLogStore * option error) :=
  checkV (loadLocked s) (λ e, mret (s, Some e)) (λ es,
  replaceLocked s (drop (firstRetained index es) es)).

Definition file_Close (s : FileLogStore) : IO (FileLogStore * option error) :=
  '(w, err) ← Close (wal s); mret (mkFileLogStore w, err).

(** ** As a [LogStore]

    A store and its disk.  A call the process does not survive counts as
    failed: what the disk holds then is the subject of [WalProps]. *)
Definition Store : Type := FileLogStore * Disk.

Definition onDisk {A} (s : FileLogStore) (m : IO (FileLogStore * A)) (crashed : A) (d : Disk) :
    Store * A :=
  match m d with
  | (d, Some (s, a)) => ((s, d), a)
  | (d, None) => ((s, d), crashed)
  end.

#[export] Instance FileLogStore_LogStore : LogStore Store := {|
  log_Load := λ '(s, d), onDisk s (r ← file_Load s; mret (s, r)) (Err Crash) d;
  log_Append := λ '(s, d) es, onDisk s (r ← file_Append s es; mret (s, r)) (Some Crash) d;
  log_TruncateFrom := λ '(s, d) i, onDisk s (file_TruncateFrom s i) (Some Crash) d;
  log_CompactThrough := λ '(s, d) i, onDisk s (file_CompactThrough s i) (Some Crash) d;
  log_Close := λ '(s, d), onDisk s (file_Close s) (Some Crash) d;
|}.
End FileLog.

(** ** The laws *)

Section Laws.
Context `{EntryCodec}.

(** What the file can hold. *)
Definition file_fits (e : LogEntry) : Prop :=
  exactEntry e ∧ lenZ (marshalEntry e) ≤ maxRecordSize.

(** The entries continue the index [previous], if any. *)
Definition linked (previous : option Z) (es : list LogEntry) : Prop :=
  match previous with
  | None => chained es
  | Some p => contiguous (p + 1) es
  end.

Lemma linked_cons previous e es :
  is_u64 (Index e) → linked previous (e :: es) →
  follows previous e = true ∧ linked (Some (Index e)) es.
Proof.
  intros Hi. destruct previous as [p|]; simpl.
  - intros [He Hc]. rewrite <- He in Hc. by rewrite bool_decide_eq_true, <- He, u64_small.
  - intros (f & He & Hc). subst f. by split.
Qed.

Lemma encode_from_ok previous es :
  valid_entries es → Forall file_fits es → linked previous es →
  encode_from previous es = Ok (marshalEntry <$> es).
Proof.
  intros Hv. revert previous. induction Hv as [|e es He Hv IH]; intros previous Hf Hl; [done|].
  apply Forall_cons in Hf as [[Hx _] Hf]. simpl. rewrite He.
  apply linked_cons in Hl as [-> Hl]; [|by apply exactEntry_index]. simpl. by rewrite IH.
Qed.

Lemma decode_from_ok previous es :
  valid_entries es → Forall file_fits es → linked previous es →
  decode_from previous (marshalEntry <$> es) = Ok es.
Proof.
  intros Hv. revert previous. induction Hv as [|e es He Hv IH]; intros previous Hf Hl; [done|].
  apply Forall_cons in Hf as [[Hx _] Hf]. simpl. rewrite unmarshal_marshalEntry, He by done.
  apply linked_cons in Hl as [-> Hl]; [|by apply exactEntry_index]. simpl. by rewrite IH.
Qed.

(** What is decoded is valid and in order, whatever the records are. *)
Lemma decode_from_valid previous records es :
  decode_from previous records = Ok es →
  valid_entries es ∧ length es = length records ∧
  ∀ k e e', es !! k = Some e → es !! S k = Some e' → Index e' = u64 (Index e + 1).
Proof.
  revert previous es. induction records as [|record records IH]; intros previous es; simpl.
  { intros [= <-]. split_and!; [constructor|done|]. intros k e e' Hk. by rewrite lookup_nil in Hk. }
  destruct (unmarshalEntry record) as [e|]; [|done].
  destruct (LogEntry_Validate e) eqn:Hv; [done|]. destruct (negb _); [done|].
  destruct (decode_from _ records) as [rest|] eqn:Hd; [|done]. intros [= <-].
  pose proof (IH _ _ Hd) as (Hvs & Hlen & Hnext). split_and!; [by constructor|by simpl; f_equal|].
  intros [|k] e1 e2; simpl; [|by apply Hnext]. intros [= <-] H2.
  destruct records as [|record2 records]; [by simplify_eq/=; destruct rest|].
  revert Hd. simpl. destruct (unmarshalEntry record2) as [e3|]; [|done].
  destruct (LogEntry_Validate e3); [done|]. case_bool_decide as Hi; [|done].
  destruct (decode_from _ records); [|done]. intros [= <-]. by simplify_eq/=.
Qed.

Lemma marshalled_fits es : Forall file_fits es → Forall fits (marshalEntry <$> es).
Proof.
  intros Hf. apply Forall_fmap. eapply Forall_impl; [exact Hf|].
  intros e [_ Hl]. split; [apply marshalEntry_pos|done].
Qed.
End Laws.
