(* ===== verification/FileLogFacts.v ===== *)
(** * The durable log store keeps its contract

    On a disk whose calls succeed, [FileLogStore] satisfies the laws Raft
    relies on and always succeeds; on any disk its updates are crash-safe. *)

From S2P Require Import Prelude.
From S2P Require Import Fs.
From S2P Require Import Wal.
From S2P Require Import WalFacts.
From S2P Require Import Log.
From S2P Require Import FileLog.

(** A computation on a disk without faults runs to its end. *)
Lemma calm_run {A} (m : IO A) (Q : A → Disk → Prop) (C : Disk → Prop) d :
  faults d = [] → spec (at_ True d) m Q C → (∀ d', C d' → False) →
  ∃ a d', m d = (d', Some a) ∧ Q a d'.
Proof.
  intros Hd Hm HC. specialize (Hm d (at_same True d (λ _, Hd))).
  destruct (m d) as [d' [a|]]; [by exists a, d'|by destruct (HC d')].
Qed.

Lemma at_calm d0 d : faults d0 = [] → at_ True d0 d → d = d0.
Proof. intros Hf (fs & Hfs & ->). rewrite Hfs by done. destruct d0. cbn in *. by subst. Qed.

Lemma at_calm_faults d0 d : at_ True d0 d → faults d = [].
Proof. intros (fs & Hfs & ->). by apply Hfs. Qed.

(** ** Without faults *)

(** A computation that meets no fault leaves none to come. *)
Definition quiet {A} (m : IO A) : Prop :=
  ∀ d d' r, faults d = [] → m d = (d', r) → faults d' = [].

Lemma quiet_ret {A} (a : A) : quiet (mret a : IO A).
Proof. by intros d d' r Hd [= <- _]. Qed.

Lemma quiet_bind {A B} (m : IO A) (f : A → IO B) :
  quiet m → (∀ a, quiet (f a)) → quiet (m ≫= f).
Proof.
  intros Hm Hf d d' r Hd. unfold mbind, IO_bind.
  destruct (m d) as [d1 [a|]] eqn:H1; apply Hm in H1; try done; [by apply Hf|].
  by intros [= <- _].
Qed.

Lemma quiet_check {A} (m : IO (option error)) (fail : error → IO A) (k : IO A) :
  quiet m → (∀ e, quiet (fail e)) → quiet k → quiet (check m fail k).
Proof. intros Hm Hf Hk. apply quiet_bind; [done|]. by intros []. Qed.

Lemma quiet_checkV {A B} (m : IO (Fallible A)) (fail : error → IO B) (k : A → IO B) :
  quiet m → (∀ e, quiet (fail e)) → (∀ a, quiet (k a)) → quiet (checkV m fail k).
Proof. intros Hm Hf Hk. apply quiet_bind; [done|]. by intros []. Qed.

Lemma quiet_syscall {A} (done_ : Disk → Disk * A) part failed :
  (∀ d, faults (done_ d).1 = faults d) → quiet (syscall done_ part failed).
Proof.
  intros Hf d d' r Hd. unfold syscall. rewrite Hd. specialize (Hf d).
  destruct (done_ d). cbn in Hf. intros [= <- _]. congruence.
Qed.

Create HintDb quiet.
#[export] Hint Resolve quiet_ret quiet_bind quiet_check quiet_checkV : quiet.
#[export] Hint Extern 1 (quiet (syscall _ _ _)) =>
  apply quiet_syscall; intros ?; cbn; repeat case_match; reflexivity : quiet.
#[export] Hint Extern 1 (quiet (simpleCall _)) => unfold simpleCall : quiet.

Lemma NewWAL_quiet : quiet NewWAL.
Proof. unfold NewWAL, mkdirAll, openCreate. auto 8 with quiet. Qed.

Lemma truncateLocked_quiet i size : quiet (truncateLocked i size).
Proof. unfold truncateLocked, truncate, seek, fsync. auto 12 with quiet. Qed.

Lemma replay_from_quiet fuel i n recs : quiet (replay_from fuel i n recs).
Proof.
  revert n recs. induction fuel as [|fuel IH]; intros n recs; simpl; [apply quiet_ret|].
  pose proof (truncateLocked_quiet i n). unfold readFull.
  apply quiet_bind; [auto with quiet|]. intros [header| | |e]; auto with quiet.
  case_decide; [auto with quiet|]. apply quiet_bind; [auto with quiet|].
  intros [record| | |e]; auto with quiet.
Qed.

Lemma Replay_quiet w : quiet (Replay w).
Proof.
  unfold Replay. destruct (file w) as [i|]; [|auto with quiet].
  apply quiet_check; [unfold seek; auto with quiet|auto with quiet|].
  apply quiet_checkV; [|auto with quiet|unfold seek; auto with quiet].
  intros d d' r. apply (replay_from_quiet (S (length (contentOf d i))) i 0 []).
Qed.

Section Calm.
Context `{EntryCodec}.

(** The file durably holds these entries. *)
Record stores (s : FileLogStore) (es : list LogEntry) (d : Disk) : Prop := {
  stores_holds : holds (wal s) (marshalEntry <$> es) d;
  stores_valid : valid_entries es;
  stores_chained : chained es;
  stores_fit : Forall file_fits es;
}.

Lemma stores_settled s es d :
  stores s es d → settled d (Some (frames (marshalEntry <$> es))).
Proof. intros [Hh _ _ _]. by eapply holds_settled. Qed.

Lemma loadLocked_calm s es d :
  stores s es d → faults d = [] → loadLocked s d = (d, Some (Ok es)).
Proof.
  intros [[Hf (i & Hw & _ & _ & Hi)] Hv Hc Hx] Hd.
  destruct (calm_run (Replay (wal s)) _ _ d Hd
    (Replay_spec True (wal s) i d (marshalEntry <$> es) [] Hw
       ltac:(unfold contentOf; rewrite Hi; cbn; by rewrite app_nil_r)
       ltac:(by eexists) Hf (or_introl eq_refl))) as ([out|e] & d' & Hr & Hq).
  - by intros d' [? _].
  - destruct Hq as [-> [[_ ->%at_calm]|[? _]]]; [|done..].
    unfold loadLocked, checkV, mbind, IO_bind. rewrite Hr. unfold mret, IO_ret.
    by rewrite decode_from_ok.
  - by destruct Hq as [? _].
Qed.

Lemma replaceLocked_calm s es es' d :
  stores s es d → faults d = [] → valid_entries es' → chained es' → Forall file_fits es' →
  ∃ s' d', replaceLocked s es' d = (d', Some (s', None)) ∧ stores s' es' d' ∧ faults d' = [].
Proof.
  intros [Hh _ _ _] Hd Hv Hc Hx. pose proof Hh as [_ (i & Hw & _)].
  pose proof (marshalled_fits _ Hx) as Hfit.
  destruct (calm_run (Replace (wal s) (marshalEntry <$> es')) _ _ d Hd
    (Replace_spec True (wal s) i _ d Hw)) as ([w' [e|]] & d' & Hr & Hq).
  - by intros d' [? _].
  - destruct Hq as [Hn _]. by destruct Hn.
  - destruct Hq as (_ & -> & Ha). exists (mkFileLogStore (mkWAL (Some (length (inodes d))))), d'.
    unfold replaceLocked. rewrite encode_from_ok by done. unfold mbind, IO_bind. rewrite Hr.
    split; [done|]. split; [|by eapply at_calm_faults].
    split; [|done..]. by apply (replace_safe _ _ _ _ _ _ Hh Hr).
Qed.

Lemma append_calm s es es' d :
  stores s es d → faults d = [] → valid_entries es' → chained (es ++ es') →
  Forall file_fits es' →
  ∃ d', file_Append s es' d = (d', Some None) ∧ stores s (es ++ es') d' ∧ faults d' = [].
Proof.
  intros Hs Hd Hv Hc Hx. pose proof Hs as [Hh Hv0 _ Hx0]. pose proof Hh as [_ (i & Hw & _)].
  unfold file_Append. case_decide as Hl.
  { assert (es' = []) as -> by (by destruct es'). exists d. by rewrite app_nil_r. }
  assert (chained es') as Hc' by (destruct Hc as [f Hc]; apply contiguous_app in Hc as [_ ?]; by eexists).
  unfold encodeEntries. rewrite encode_from_ok by done.
  pose proof (marshalled_fits _ Hx) as Hfit.
  destruct (calm_run (AppendBatch (wal s) (marshalEntry <$> es')) _ _ d Hd
    (AppendBatch_spec True (wal s) i _ d Hw)) as ([e|] & d' & Hr & Hq).
  - by intros d' [? _].
  - destruct Hq as [Hn _]. by destruct Hn.
  - exists d'. unfold check, mbind, IO_bind. rewrite Hr. split; [done|]. split.
    + split; [|by apply Forall_app|done|by apply Forall_app]. rewrite fmap_app.
      by apply (append_safe _ _ _ _ _ _ Hh Hfit Hr).
    + destruct Hq as [_ [[_ Ha]|Ha]]; by eapply at_calm_faults.
Qed.

(** What is left of a chained log after cutting either end. *)
Lemma stores_sub s es d (k : nat) (es' : list LogEntry) :
  stores s es d → es' = take k es ∨ es' = drop k es →
  valid_entries es' ∧ chained es' ∧ Forall file_fits es'.
Proof.
  intros [_ Hv [f Hc] Hx] [-> | ->]; split_and!; try (by apply Forall_take || by apply Forall_drop).
  - exists f. by apply contiguous_take.
  - eexists. by apply contiguous_drop.
Qed.

(** The indexes [TruncateFrom] refuses. *)
Definition truncateRefused (es : list LogEntry) (i : Z) : bool :=
  bool_decide (i = 0) ||
  match last es with Some e => bool_decide (u64 (Index e + 1) < i) | None => false end.

(** The outcome of [TruncateFrom] on a calm disk. *)
Lemma truncate_calm s es f i d :
  stores s es d → faults d = [] → contiguous f es →
  if truncateRefused es i
  then ∃ e, file_TruncateFrom s i d = (d, Some (s, Some e))
  else ∃ s' d', file_TruncateFrom s i d = (d', Some (s', None)) ∧
    stores s' (filter (λ e, Index e < i) es) d' ∧ faults d' = [].
Proof.
  intros Hs Hd Hc. unfold file_TruncateFrom, truncateRefused.
  destruct (decide (i = 0)) as [Hi|Hi]; [rewrite bool_decide_true by done; by eexists|].
  rewrite bool_decide_false by done. cbn [orb].
  unfold checkV, mbind, IO_bind. rewrite (loadLocked_calm s es) by done.
  destruct (last es) as [lastEntry|] eqn:Hl.
  - case_decide as Hb; [rewrite bool_decide_true by done; by eexists|].
    rewrite bool_decide_false by done. rewrite <- (take_truncateOffset f) by done.
    destruct (stores_sub s es d (truncateOffset i es) _ Hs (or_introl eq_refl)) as (?&?&?).
    by eapply replaceLocked_calm.
  - apply last_None in Hl as ->. cbn [length take].
    apply (replaceLocked_calm s [] [] d); [done..|constructor|by exists 0|constructor].
Qed.

Lemma compact_calm s es i d :
  stores s es d → faults d = [] →
  ∃ s' d', file_CompactThrough s i d = (d', Some (s', None)) ∧
    stores s' (filter (λ e, i < Index e) es) d' ∧ faults d' = [].
Proof.
  intros Hs Hd. unfold file_CompactThrough, checkV, mbind, IO_bind.
  rewrite (loadLocked_calm s es) by done. pose proof Hs as [_ _ [f Hc] _].
  rewrite <- (drop_firstRetained f) by done.
  destruct (stores_sub s es d (firstRetained i es) _ Hs (or_intror eq_refl)) as (?&?&?).
  by eapply replaceLocked_calm.
Qed.

(** ** The instance *)

Definition file_entries (s : Store) : list LogEntry :=
  match (loadLocked s.1 (s.2 <| faults := [] |>)).2 with
  | Some (Ok es) => es
  | _ => []
  end.

Definition file_inv (s : Store) : Prop :=
  faults s.2 = [] ∧ ∃ es, stores s.1 es s.2.

Lemma file_entries_eq s es d :
  faults d = [] → stores s es d → file_entries (s, d) = es.
Proof.
  intros Hd Hs. unfold file_entries. cbn.
  assert (d <| faults := [] |> = d) as -> by (destruct d; cbn in *; by subst).
  by rewrite (loadLocked_calm s es).
Qed.

Lemma file_inv_intro s es d :
  faults d = [] → stores s es d → file_inv (s, d) ∧ file_entries (s, d) = es.
Proof. intros Hd Hs. split; [split; [done|by exists es]|by apply file_entries_eq]. Qed.

#[export, program] Instance FileLogStore_laws : LogStoreLaws Store := {|
  log_entries := file_entries;
  log_inv := file_inv;
  log_fits := file_fits;
|}.
Next Obligation. intros i t Hi Ht. split; [by apply exactEntry_noop|by apply marshalEntry_noop]. Qed.
Next Obligation.
  intros [s d] [Hd (es & Hs)]. rewrite (file_entries_eq s es) by done. apply Hs.
Qed.
Next Obligation.
  intros [s d] s' r [Hd (es & Hs)]. rewrite (file_entries_eq s es) by done. cbn.
  unfold onDisk, file_Load, mbind, IO_bind. rewrite (loadLocked_calm s es) by done.
  intros [= <- <-]. split_and!; [by split; [|exists es]|by apply file_entries_eq|by intros ? [= <-]].
Qed.
Next Obligation.
  intros [s d] es' s' r [Hd (es & Hs)] Hv Hx. rewrite (file_entries_eq s es) by done. intros Hc.
  cbn. destruct (append_calm s es es' d) as (d' & Ha & Hs' & Hd'); [done..|].
  unfold onDisk, mbind, IO_bind. rewrite Ha. intros [= <- <-]. by apply file_inv_intro.
Qed.
Next Obligation.
  intros [s d] i s' r [Hd (es & Hs)]. rewrite (file_entries_eq s es) by done. intros [f Hc].
  cbn. unfold onDisk. pose proof (truncate_calm s es f i d Hs Hd Hc) as Ht.
  destruct (truncateRefused es i); [destruct Ht as (e & ->)|destruct Ht as (s1 & d1 & -> & Hs1 & Hd1)];
    intros [= <- <-]; by apply file_inv_intro.
Qed.
Next Obligation.
  intros [s d] i s' r [Hd (es & Hs)]. rewrite (file_entries_eq s es) by done. intros _.
  cbn. unfold onDisk. destruct (compact_calm s es i d) as (s1 & d1 & -> & Hs1 & Hd1); [done..|].
  intros [= <- <-]. by apply file_inv_intro.
Qed.

#[export] Instance FileLogStore_live : LogStoreLive Store.
Proof.
  split.
  - intros [s d] [Hd (es & Hs)]. exists (s, d). cbn [log_entries FileLogStore_laws].
    rewrite (file_entries_eq s es) by done. cbn.
    unfold onDisk, file_Load, mbind, IO_bind. by rewrite (loadLocked_calm s es).
  - intros [s d] es' [Hd (es & Hs)] Hv Hx. cbn [log_entries FileLogStore_laws].
    rewrite (file_entries_eq s es) by done. intros Hc.
    destruct (append_calm s es es' d) as (d' & Ha & _); [done..|].
    exists (s, d'). cbn. unfold onDisk, mbind, IO_bind. by rewrite Ha.
  - intros [s d] f i [Hd (es & Hs)]. cbn [log_entries FileLogStore_laws].
    rewrite (file_entries_eq s es) by done. intros Hc Hpos Hle. cbn. unfold onDisk.
    pose proof (truncate_calm s es f i d Hs Hd Hc) as Ht.
    destruct (truncateRefused es i) eqn:Hbad; cycle 1.
    { destruct Ht as (s1 & d1 & -> & _). by eexists. }
    unfold truncateRefused in Hbad. rewrite bool_decide_false in Hbad by lia.
    destruct (last es) as [e1|] eqn:Hl; [|done]. apply bool_decide_eq_true in Hbad.
    rewrite (contiguous_last _ _ _ Hc Hl), u64_small in Hbad; [lia|].
    destruct Hs as [_ _ _ Hx]. pose proof (last_Some_elem_of _ _ Hl) as Hin.
    rewrite Forall_forall in Hx. destruct (Hx _ Hin) as [Hx1 _]. apply exactEntry_index in Hx1.
    rewrite (contiguous_last _ _ _ Hc Hl) in Hx1. unfold is_u64 in Hx1. lia.
  - intros [s d] i [Hd (es & Hs)] _. cbn. unfold onDisk.
    destruct (compact_calm s es i d) as (s1 & d1 & -> & _); [done..|]. by eexists.
Qed.
Lemma loadLocked_quiet s : quiet (loadLocked s).
Proof.
  unfold loadLocked. apply quiet_checkV; [apply Replay_quiet|auto with quiet|].
  intros recs. auto with quiet.
Qed.
(** ** After a crash *)

(** Reopening and loading what a crash has left of a whole log [es] to which
    [es'] was being added. *)
Lemma reload es es' d c fs d1 s2 d2 out :
  valid_entries (es ++ es') → chained (es ++ es') → Forall file_fits (es ++ es') →
  recoverable (marshalEntry <$> es) (marshalEntry <$> es') d → image d c →
  NewFileLogStore (rebooted c fs) = (d1, Some (Ok s2)) →
  file_Load s2 d1 = (d2, Some (Ok out)) →
  ∃ k, out = es ++ take k es' ∧ stores s2 out d2.
Proof.
  intros Hv [f Hc] Hx Hrec Him. pose proof Hx as [Hx1 Hx2]%Forall_app.
  unfold NewFileLogStore, checkV, mbind, IO_bind.
  destruct (NewWAL (rebooted c fs)) as [d3 [[w|e]|]] eqn:Hw; [|done..]. intros [= <- <-].
  unfold file_Load, loadLocked, checkV, mbind, IO_bind. cbn.
  destruct (Replay w d3) as [d4 [[recs|e]|]] eqn:Hrep; [|done..]. intros [= <- Hdec].
  destruct (replay_recovery _ _ _ _ _ _ _ _ _ (marshalled_fits _ Hx1) (marshalled_fits _ Hx2)
    Hrec Him Hw Hrep) as (_ & Hout & _).
  destruct (Hout recs eq_refl) as (k & -> & Hholds). rewrite <- fmap_take, <- fmap_app in *.
  rewrite <- (take_drop k es'), app_assoc in Hv, Hc, Hx.
  apply Forall_app in Hv as [Hv _], Hx as [Hx _]. apply contiguous_app in Hc as [Hc _].
  rewrite decode_from_ok in Hdec by (done || by exists f). injection Hdec as <-.
  exists k. split; [done|]. split; [done..|by exists f|done].
Qed.

Lemma reload_live es es' d c d1 s2 :
  valid_entries (es ++ es') → chained (es ++ es') → Forall file_fits (es ++ es') →
  recoverable (marshalEntry <$> es) (marshalEntry <$> es') d → image d c →
  NewFileLogStore (rebooted c []) = (d1, Some (Ok s2)) →
  ∃ d2 k, file_Load s2 d1 = (d2, Some (Ok (es ++ take k es'))).
Proof.
  intros Hv [f Hc] Hx Hrec Him. pose proof Hx as [Hx1 Hx2]%Forall_app.
  unfold NewFileLogStore, checkV, mbind, IO_bind.
  destruct (NewWAL (rebooted c [])) as [d3 [[w|e]|]] eqn:Hw; [|done..]. intros [= <- <-].
  unfold file_Load, loadLocked, checkV, mbind, IO_bind. cbn.
  destruct (Replay w d3) as [d4 r] eqn:Hrep.
  destruct (replay_recovery _ _ _ _ _ _ _ _ _ (marshalled_fits _ Hx1) (marshalled_fits _ Hx2)
    Hrec Him Hw Hrep) as (_ & Hout & Hlive).
  destruct (Hlive eq_refl) as (recs & ->). destruct (Hout recs eq_refl) as (k & -> & _).
  exists d4, k. rewrite <- fmap_take, <- fmap_app.
  rewrite <- (take_drop k es'), app_assoc in Hv, Hc, Hx.
  apply Forall_app in Hv as [Hv _], Hx as [Hx _]. apply contiguous_app in Hc as [Hc _].
  unfold mret, IO_ret. by rewrite decode_from_ok by (done || by exists f).
Qed.

(** And a working disk opens. *)
Lemma NewFileLogStore_live es es' d c :
  recoverable es es' d → image d c → ∃ d1 s, NewFileLogStore (rebooted c []) = (d1, Some (Ok s)).
Proof.
  intros Hrec Him. destruct (Hrec _ Him) as (p & -> & _).
  pose proof (NewWAL_spec True (frames es ++ p) (rebooted (Some (frames es ++ p)) [])) as Hn.
  assert (at_ True (rebooted (Some (frames es ++ p)) []) (rebooted (Some (frames es ++ p)) [])) as Ha
    by by apply at_same.
  specialize (Hn Ha). unfold NewFileLogStore, checkV, mbind, IO_bind.
  destruct (NewWAL _) as [d1 [[w|e]|]]; [by eexists _, _|exfalso; tauto..].
Qed.

(** What a crash after or within an append leaves of it. *)
Lemma file_append_recoverable s es es' d d' r :
  stores s es d → valid_entries es' → chained (es ++ es') → Forall file_fits es' →
  file_Append s es' d = (d', r) →
  valid_entries (es ++ es') ∧ Forall file_fits (es ++ es') ∧
  recoverable (marshalEntry <$> es) (marshalEntry <$> es') d' ∧
  (r = Some None → recoverable (marshalEntry <$> es ++ es') [] d').
Proof.
  intros [Hh Hv _ Hx] Hv' Hc Hx' Ha.
  assert (∃ r', AppendBatch (wal s) (marshalEntry <$> es') d = (d', r') ∧
    (r = Some None → r' = Some None)) as (r' & Hab & Hr).
  { revert Ha. unfold file_Append. case_decide as Hz.
    - assert (es' = []) as -> by (by destruct es'). intros [= <- <-]. by eexists.
    - unfold encodeEntries. rewrite encode_from_ok; [|done..|].
      2: { destruct Hc as [f Hc]. apply contiguous_app in Hc as [_ Hc]. by eexists. }
      unfold check, mbind, IO_bind. destruct (AppendBatch _ _ d) as [d3 [[e|]|]];
        intros [= <- <-]; by eexists. }
  destruct (append_safe _ _ _ _ _ _ Hh (marshalled_fits _ Hx') Hab) as [Hrec Hdone].
  split; [by apply Forall_app|]. split; [by apply Forall_app|]. split; [done|].
  intros Hok. specialize (Hdone (Hr Hok)). rewrite <- fmap_app in Hdone.
  intros c' ->%(settled_image _ _ _ (holds_settled _ _ _ Hdone)). exists []. by rewrite app_nil_r.
Qed.

(** The same, when nothing fails after the restart: the store as it is then
    loads again what the first load gave. *)
Lemma reload_calm es es' d c d1 s2 s' out :
  valid_entries (es ++ es') → chained (es ++ es') → Forall file_fits (es ++ es') →
  recoverable (marshalEntry <$> es) (marshalEntry <$> es') d → image d c →
  NewFileLogStore (rebooted c []) = (d1, Some (Ok s2)) →
  log_Load (s2, d1) = (s', Ok out) →
  (∃ k, out = es ++ take k es') ∧ file_inv s' ∧ file_entries s' = out ∧
  log_Load s' = log_Load (s2, d1).
Proof.
  intros Hv Hc Hx Hrec Him Hnew. assert (faults d1 = []) as Hd1.
  { revert Hnew. unfold NewFileLogStore. apply quiet_checkV; [apply NewWAL_quiet|auto with quiet..|].
    by destruct c. }
  cbn. unfold onDisk, mbind, IO_bind. destruct (file_Load s2 d1) as [d2 [r|]] eqn:Hl; [|done].
  pose proof (loadLocked_quiet s2 d1 d2 _ Hd1 Hl) as Hd2.
  intros [= <- ->]. destruct (reload _ _ _ _ _ _ _ _ _ Hv Hc Hx Hrec Him Hnew Hl) as (k & -> & Hs).
  destruct (file_inv_intro _ _ _ Hd2 Hs) as [Hinv Hent].
  split; [by exists k|]. split; [done|]. split; [done|].
  unfold file_Load. by rewrite (loadLocked_calm s2 _ _ Hs Hd2).
Qed.
End Calm.
