(* ===== verification/MemoryLog.v ===== *)
(** * The RAM-backed log store

    [internal/raft/memory_log.go], a [LogStore] that satisfies the laws and
    never fails inside its contract. *)

From S2P Require Import Prelude.
From S2P Require Import Log.

Record memoryLogStore := mkMemoryLogStore { entries : list LogEntry }.

Definition newMemoryLogStore : memoryLogStore := mkMemoryLogStore [].

Definition memory_Load (s : memoryLogStore) :
    memoryLogStore * Fallible (list LogEntry) :=
  (s, Ok (entries s)).

Definition memory_Append (s : memoryLogStore) (es : list LogEntry) :
    memoryLogStore * option error :=
  (mkMemoryLogStore (entries s ++ es), None).

Definition memory_TruncateFrom (s : memoryLogStore) (index : Z) :
    memoryLogStore * option error :=
  if decide (index = 0) then (s, Some (Errorf "invalid truncate index %d"))
  else match last (entries s) with
  | None => (s, None)
  | Some lastEntry =>
      let lastIndex := Index lastEntry in
      if decide (u64 (lastIndex + 1) < index)
      then (s, Some (Errorf "invalid truncate index %d after last index %d"))
      else (mkMemoryLogStore (take (truncateOffset index (entries s)) (entries s)), None)
  end.

Definition memory_CompactThrough (s : memoryLogStore) (index : Z) :
    memoryLogStore * option error :=
  (mkMemoryLogStore (drop (firstRetained index (entries s)) (entries s)), None).

Definition memory_Close (s : memoryLogStore) : memoryLogStore * option error :=
  (s, None).

#[export] Instance memoryLogStore_LogStore : LogStore memoryLogStore := {|
  log_Load := memory_Load;
  log_Append := memory_Append;
  log_TruncateFrom := memory_TruncateFrom;
  log_CompactThrough := memory_CompactThrough;
  log_Close := memory_Close;
|}.

#[export, program] Instance memoryLogStore_laws : LogStoreLaws memoryLogStore := {|
  log_entries := entries;
  log_inv := λ _, True;
  log_fits := λ _, True;
|}.
Next Obligation. done. Qed.
Next Obligation. intros s _. by apply Forall_true. Qed.
Next Obligation. intros s s' r _ [= <- <-]. split_and!; try done. by intros es [= <-]. Qed.
Next Obligation. by intros s es s' r _ _ _ _ [= <- <-]. Qed.
Next Obligation.
  intros s i s' r _ [f Hc] H. split; [done|].
  cbn in H. unfold memory_TruncateFrom in H. case_decide; [by simplify_eq|].
  destruct (last (entries s)) eqn:Hl; cases_in H.
  - by apply take_truncateOffset with f.
  - by apply last_None in Hl as ->.
Qed.
Next Obligation.
  intros s i s' r _ [f Hc] [= <- <-]. split; [done|]. by apply drop_firstRetained with f.
Qed.

#[export] Instance memoryLogStore_live : LogStoreLive memoryLogStore.
Proof.
  split; simpl.
  - intros s _. by exists s.
  - intros s es _ _ _ _. by eexists.
  - intros s f i _ Hc Hpos Hle. unfold memory_TruncateFrom.
    rewrite decide_False by lia. destruct (last (entries s)) as [e|] eqn:Hl; [|by eexists].
    pose proof (contiguous_last _ _ _ Hc Hl). pose proof (lenZ_nonneg (entries s)).
    rewrite decide_False; [by eexists|]. unfold u64. rewrite Z.mod_small; lia.
  - intros s i _ _. by eexists.
Qed.
