(* ===== verification/Config.v ===== *)
(** * Cluster membership

    [internal/config/config.go].  The YAML parser and the file read in [Load]
    are third-party or I/O: [Load] here starts from the parsed document. *)

From S2P Require Import Prelude.

(** [time.Duration]: nanoseconds. *)
Definition Millisecond : Z := 1000000.
Definition DefaultElectionTimeoutMin : Z := 300 * Millisecond.
Definition DefaultElectionTimeoutMax : Z := 600 * Millisecond.
Definition DefaultHeartbeatInterval : Z := 50 * Millisecond.
Definition DefaultSnapshotThreshold : Z := 1000.

Record Node := mkNode {
  ID : Z;
  RaftAddr : string;
  HTTPAddr : string;
}.

Record Config := mkConfig {
  Self : Node;
  Peers : list Node;
  DataDir : string;
  ElectionTimeoutMin : Z;
  ElectionTimeoutMax : Z;
  HeartbeatInterval : Z;
  SnapshotThreshold : Z;
}.

Definition ClusterSize (c : Config) : Z := lenZ (Peers c) + 1.

(** Go's [/] on non-negative operands is [Z]'s. *)
Definition Majority (c : Config) : Z := ClusterSize c / 2 + 1.

Fixpoint peerByID (id : Z) (peers : list Node) : option Node :=
  match peers with
  | [] => None
  | peer :: rest => if decide (ID peer = id) then Some peer else peerByID id rest
  end.

Definition PeerByID (c : Config) (id : Z) : option Node := peerByID id (Peers c).

(** The loop over [c.Peers], with the three sets it accumulates. *)
Fixpoint validatePeers (ids : gset Z) (raftAddrs httpAddrs : gset string)
    (peers : list Node) : option error :=
  match peers with
  | [] => None
  | peer :: rest =>
      if decide (ID peer < 0 ∨ RaftAddr peer = ""%string ∨ HTTPAddr peer = ""%string)
      then Some (Errorf "peer %d must have a non-negative ID, Raft address, and HTTP address")
      else if decide (ID peer ∈ ids) then Some (Errorf "duplicate node ID %d")
      else if decide (RaftAddr peer ∈ raftAddrs) then Some (Errorf "duplicate Raft address %q")
      else if decide (HTTPAddr peer ∈ httpAddrs) then Some (Errorf "duplicate HTTP address %q")
      else validatePeers ({[ID peer]} ∪ ids) ({[RaftAddr peer]} ∪ raftAddrs)
             ({[HTTPAddr peer]} ∪ httpAddrs) rest
  end.

(** [func (c Config) Validate() error] *)
Definition Config_Validate (c : Config) : option error :=
  if decide (ClusterSize c ≠ 3)
  then Some (Errorf "Phase 3 requires exactly 3 static cluster members, got %d")
  else if decide (ID (Self c) < 0) then Some (Errorf "node ID must be non-negative")
  else if decide (HTTPAddr (Self c) = ""%string)
  then Some (Errorf "local HTTP address cannot be empty")
  else if decide (DataDir c = ""%string) then Some (Errorf "data directory cannot be empty")
  else if decide (ElectionTimeoutMin c ≤ 0 ∨ ElectionTimeoutMax c ≤ 0)
  then Some (Errorf "election timeouts must be positive")
  else if decide (ElectionTimeoutMax c ≤ ElectionTimeoutMin c)
  then Some (Errorf "minimum election timeout must be smaller than maximum election timeout")
  else if decide (HeartbeatInterval c ≤ 0 ∨ ElectionTimeoutMin c ≤ HeartbeatInterval c)
  then Some (Errorf "heartbeat interval must be positive and smaller than the minimum election timeout")
  else validatePeers {[ID (Self c)]}
         (if decide (RaftAddr (Self c) ≠ ""%string) then {[RaftAddr (Self c)]} else ∅)
         {[HTTPAddr (Self c)]} (Peers c).

(** The parsed YAML document. *)
Record timing := mkTiming {
  t_ElectionTimeoutMin : Z;
  t_ElectionTimeoutMax : Z;
  t_HeartbeatInterval : Z;
}.

Record fileConfig := mkFileConfig {
  f_Node : Node;
  f_Peers : list Node;
  f_DataDir : string;
  f_Timing : timing;
  f_SnapshotThreshold : Z;
}.

(** [func Load]: after the file is read and parsed, zero fields take their
    defaults and the result must validate. *)
Definition Load (raw : fileConfig) : Fallible Config :=
  let default v d := if decide (v = 0) then d else v in
  let cfg := {|
    Self := f_Node raw;
    Peers := f_Peers raw;
    DataDir := f_DataDir raw;
    ElectionTimeoutMin :=
      default (t_ElectionTimeoutMin (f_Timing raw)) DefaultElectionTimeoutMin;
    ElectionTimeoutMax :=
      default (t_ElectionTimeoutMax (f_Timing raw)) DefaultElectionTimeoutMax;
    HeartbeatInterval :=
      default (t_HeartbeatInterval (f_Timing raw)) DefaultHeartbeatInterval;
    SnapshotThreshold := default (f_SnapshotThreshold raw) DefaultSnapshotThreshold;
  |} in
  match Config_Validate cfg with
  | Some err => Err (Wrapf "invalid configuration %q" err)
  | None => Ok cfg
  end.

(** ** What a valid configuration is *)

Definition members (c : Config) : list Z := ID (Self c) :: (ID <$> Peers c).

Definition peer_complete (p : Node) : Prop :=
  0 ≤ ID p ∧ RaftAddr p ≠ ""%string ∧ HTTPAddr p ≠ ""%string.

(** The members are three, identified, and reachable at distinct addresses;
    the timings order heartbeat < minimum < maximum election timeout. *)
Record valid_config (c : Config) : Prop := {
  vc_size : ClusterSize c = 3;
  vc_self : 0 ≤ ID (Self c) ∧ HTTPAddr (Self c) ≠ ""%string ∧ DataDir c ≠ ""%string;
  vc_timing : 0 < HeartbeatInterval c < ElectionTimeoutMin c ∧
              ElectionTimeoutMin c < ElectionTimeoutMax c;
  vc_peers : Forall peer_complete (Peers c);
  vc_ids : NoDup (members c);
  vc_raft : NoDup (RaftAddr <$> Peers c) ∧ RaftAddr (Self c) ∉ (RaftAddr <$> Peers c);
  vc_http : NoDup (HTTPAddr (Self c) :: (HTTPAddr <$> Peers c));
}.

(** Distinct among themselves and new to a set. *)
Definition fresh_for {A} `{Countable A} (seen : gset A) (l : list A) : Prop :=
  NoDup l ∧ ∀ x, x ∈ l → x ∉ seen.

Lemma fresh_for_cons {A} `{Countable A} (seen : gset A) x l :
  fresh_for seen (x :: l) ↔ x ∉ seen ∧ fresh_for ({[x]} ∪ seen) l.
Proof. unfold fresh_for. rewrite NoDup_cons. set_solver. Qed.

Lemma fresh_for_nil {A} `{Countable A} (seen : gset A) : fresh_for seen [].
Proof. split; [apply NoDup_nil_2|]. intros x Hx. by apply elem_of_nil in Hx. Qed.

Lemma validatePeers_spec peers ids raftAddrs httpAddrs :
  validatePeers ids raftAddrs httpAddrs peers = None ↔
  Forall peer_complete peers ∧ fresh_for ids (ID <$> peers) ∧
  fresh_for raftAddrs (RaftAddr <$> peers) ∧ fresh_for httpAddrs (HTTPAddr <$> peers).
Proof.
  revert ids raftAddrs httpAddrs.
  induction peers as [|p ps IH]; intros ids ra ha; simpl.
  { split; [|done]. intros _. by split_and!; try apply fresh_for_nil. }
  rewrite Forall_cons, !fresh_for_cons.
  unfold peer_complete at 1.
  repeat case_decide; [intuition (done || lia)..|]. rewrite IH. intuition (done || lia).
Qed.

Lemma fresh_for_singleton {A} `{Countable A} (x : A) l :
  fresh_for {[x]} l ↔ NoDup (x :: l).
Proof. unfold fresh_for. rewrite NoDup_cons. set_solver. Qed.

Lemma majority_of_three c : ClusterSize c = 3 → Majority c = 2.
Proof. intros H. unfold Majority. by rewrite H. Qed.

(** ** Quorums

    A set of members at least as large as the majority; two of them meet. *)
Definition quorum (members : list Z) (Q : gset Z) : Prop :=
  Q ⊆ list_to_set members ∧ lenZ members / 2 + 1 ≤ Z.of_nat (size Q).

Lemma quorum_meet ms Q1 Q2 :
  NoDup ms → quorum ms Q1 → quorum ms Q2 → ∃ n, n ∈ Q1 ∧ n ∈ Q2.
Proof.
  intros Hnd [Hs1 Hn1] [Hs2 Hn2].
  destruct (decide (Q1 ∩ Q2 = ∅)) as [He|(n & Hn)%set_choose_L]; [|exists n; set_solver].
  assert (size (Q1 ∪ Q2) ≤ length ms)%nat as Hle.
  { rewrite <- (size_list_to_set (C := gset Z) ms) by done.
    apply subseteq_size. set_solver. }
  rewrite size_union in Hle by set_solver. unfold lenZ in *.
  pose proof (Z.div_mod (Z.of_nat (length ms)) 2).
  pose proof (Z.mod_pos_bound (Z.of_nat (length ms)) 2). lia.
Qed.

(** ** Properties *)

(** The set of seen Raft addresses the loop starts from. *)
Lemma self_raft_fresh c :
  Forall peer_complete (Peers c) →
  fresh_for (if decide (RaftAddr (Self c) ≠ ""%string) then {[RaftAddr (Self c)]} else ∅)
    (RaftAddr <$> Peers c) ↔
  NoDup (RaftAddr <$> Peers c) ∧ RaftAddr (Self c) ∉ (RaftAddr <$> Peers c).
Proof.
  intros Hp. unfold fresh_for. case_decide as Hself; [set_solver|].
  split; intros [Hnd _]; (split; [done|]); [|set_solver].
  intros (p & Heq & Hin)%list_elem_of_fmap.
  rewrite Forall_forall in Hp. destruct (Hp _ Hin) as (_ & Hne & _).
  congruence.
Qed.

(** [Validate] against [valid_config]. *)
Lemma Validate_spec c : Config_Validate c = None ↔ valid_config c.
Proof.
  unfold Config_Validate. split.
  - intros H. do 7 (case_decide; [done|]).
    apply validatePeers_spec in H as (Hp & Hi & Hr & Hh).
    apply fresh_for_singleton in Hi, Hh. apply self_raft_fresh in Hr; [|done].
    constructor; try done; try lia. split_and!; [lia|done..].
  - intros [Hs (?&?&?) Ht Hp Hi Hr Hh].
    rewrite !decide_False by (tauto || lia).
    apply validatePeers_spec. rewrite !fresh_for_singleton, self_raft_fresh by done. done.
Qed.

(** C40: [Validate] accepts a configuration exactly when it is valid: three
    members with distinct identifiers, addresses that are set and distinct, a
    data directory, and heartbeats shorter than the minimum election timeout,
    which is shorter than the maximum one; and a majority is then two. *)
Theorem validate_exact c :
  (Config_Validate c = None ↔ valid_config c) ∧
  (Config_Validate c = None → Majority c = 2).
Proof.
  split; [apply Validate_spec|]. intros Hv%Validate_spec. apply majority_of_three, Hv.
Qed.

(** Load returns only valid configurations. *)
Lemma Load_valid raw cfg : Load raw = Ok cfg → valid_config cfg.
Proof.
  unfold Load. destruct (Config_Validate _) eqn:Hv; [done|]. intros [= <-].
  by apply Validate_spec.
Qed.

Lemma validate_exact_witness :
  Majority (mkConfig (mkNode 0 "" "a:2") [mkNode 1 "b:1" "b:2"; mkNode 2 "c:1" "c:2"] "data"
              150 300 50 1000) = 2.
Proof. apply (proj2 (validate_exact _)). vm_compute. reflexivity. Defined.
