(* ===== verification/Stores.v ===== *)
(** * The collaborators of a Raft node

    The interfaces Raft is written against, with what it relies on:
    [StableStore] ([internal/raft/stable_state.go]), [snapshot.Store]
    ([internal/snapshot/snapshot.go]), and the state machine behind [Applier]
    and [Snapshotter] ([internal/raft/raft.go]).  [LogStore] is in [Log]. *)

From S2P Require Import Prelude.
From S2P Require Import Log.

(** ** Stable election state *)

Definition NoVote : Z := -1.

Record StableState := mkStableState {
  CurrentTerm : Z;
  VotedFor : Z;
  CommitIndex : Z;
  LastApplied : Z;
}.

#[export] Instance StableState_eq_dec : EqDecision StableState.
Proof. solve_decision. Defined.

Class StableStore (SS : Type) := {
  stable_Load : SS → SS * Fallible StableState;
  stable_Save : SS → StableState → SS * option error;
}.

(** The guard at the head of [Save], which [Load] repeats on what it read. *)
Definition stable_state_ok (s : StableState) : Prop :=
  NoVote ≤ VotedFor s ∧ LastApplied s ≤ CommitIndex s.

#[export] Instance stable_state_ok_dec s : Decision (stable_state_ok s).
Proof. apply _. Defined.

(** A successful save is read back; a failed one has left the old document or
    installed the new one, never a third. *)
Class StableStoreLaws (SS : Type) `{StableStore SS} := {
  stable_state : SS → StableState;
  stable_inv : SS → Prop;
  stable_Load_law s s' r :
    stable_inv s → stable_Load s = (s', r) →
    stable_inv s' ∧ stable_state s' = stable_state s ∧
    (∀ st, r = Ok st → st = stable_state s);
  stable_Save_law s st s' r :
    stable_inv s → stable_Save s st = (s', r) →
    stable_inv s' ∧
    match r with
    | None => stable_state_ok st ∧ stable_state s' = st
    | Some _ => stable_state s' = stable_state s ∨
                stable_state_ok st ∧ stable_state s' = st
    end;
}.

Class StableStoreLive (SS : Type) `{StableStoreLaws SS} := {
  stable_Load_live s :
    stable_inv s → ∃ s', stable_Load s = (s', Ok (stable_state s));
  stable_Save_live s st :
    stable_inv s → stable_state_ok st → ∃ s', stable_Save s st = (s', None);
}.

(** ** State-machine checkpoints *)

Record Snapshot := mkSnapshot {
  s_LastIncludedIndex : Z;
  s_LastIncludedTerm : Z;
  s_Data : bytes;
}.

#[export] Instance Snapshot_eq_dec : EqDecision Snapshot.
Proof. solve_decision. Defined.

(** [func (s Snapshot) Validate() error] *)
Definition Snapshot_Validate (s : Snapshot) : option error :=
  if decide (s_LastIncludedIndex s = 0 ∧ s_LastIncludedTerm s ≠ 0)
  then Some (Errorf "empty snapshot cannot have last included term %d")
  else if decide (s_Data s = []) then Some (Errorf "snapshot data cannot be empty")
  else None.

(** [Load]'s [found = false] is [Ok None]. *)
Class SnapshotStore (NS : Type) := {
  snap_Load : NS → NS * Fallible (option Snapshot);
  snap_Save : NS → Snapshot → NS * option error;
}.

Class SnapshotStoreLaws (NS : Type) `{SnapshotStore NS} := {
  snap_stored : NS → option Snapshot;
  snap_inv : NS → Prop;
  snap_Load_law s s' r :
    snap_inv s → snap_Load s = (s', r) →
    snap_inv s' ∧ snap_stored s' = snap_stored s ∧
    (∀ o, r = Ok o → o = snap_stored s);
  snap_Save_law s sn s' r :
    snap_inv s → snap_Save s sn = (s', r) →
    snap_inv s' ∧
    match r with
    | None => Snapshot_Validate sn = None ∧ snap_stored s' = Some sn
    | Some _ => snap_stored s' = snap_stored s ∨
                Snapshot_Validate sn = None ∧ snap_stored s' = Some sn
    end;
}.

Class SnapshotStoreLive (NS : Type) `{SnapshotStoreLaws NS} := {
  snap_Load_live s : snap_inv s → ∃ s', snap_Load s = (s', Ok (snap_stored s));
  snap_Save_live s sn :
    snap_inv s → Snapshot_Validate sn = None → ∃ s', snap_Save s sn = (s', None);
}.

(** ** The state machine

    [Apply] is [Applier]'s method, [Snapshot] and [Restore] are
    [Snapshotter]'s; in a node the three act on one store. *)
Class StateMachine (SM : Type) := {
  sm_Apply : SM → LogEntry → SM * option error;
  sm_Snapshot : SM → Fallible bytes;
  sm_Restore : SM → bytes → SM * option error;
}.

(** Two machines of one configuration ([sm_like]) exchange images: restoring
    the image of [m] on any of them gives [m], when [m] holds only data its
    encoding represents exactly ([sm_faithful]). *)
Class StateMachineLaws (SM : Type) `{StateMachine SM} := {
  sm_like : SM → SM → Prop;
  sm_inv : SM → Prop;
  sm_faithful : SM → Prop;
  sm_like_equiv : Equivalence sm_like;
  sm_Apply_law m e m' r :
    sm_inv m → sm_Apply m e = (m', r) → sm_inv m' ∧ sm_like m m' ∧ (is_Some r → m' = m);
  sm_Restore_law m d m' r :
    sm_inv m → sm_Restore m d = (m', r) → sm_inv m' ∧ sm_like m m' ∧ (is_Some r → m' = m);
  sm_round_trip m m0 d :
    sm_inv m → sm_faithful m → sm_like m0 m → sm_Snapshot m = Ok d → sm_Restore m0 d = (m, None);
}.
#[export] Existing Instance sm_like_equiv.
