(* ===== verification/FileStable.v ===== *)
(** * The stable-state file

    [FileStableStore] of [internal/raft/stable_state.go]: one JSON document,
    replaced atomically.  [encoding/json] on the document is the class
    [StateCodec].  The deferred closes and the removal of the temporary
    file's name, whose errors are ignored, change nothing a reader sees and are
    left out. *)

From S2P Require Import Prelude.
From S2P Require Import Fs.
From S2P Require Import Log.
From S2P Require Import Stores.

(** [encoder.Encode] and [decoder.Decode] of a [StableState]: a document is
    read back, up to white space.  Integers being unbounded here the law is
    stated for all of them; the program's are in range. *)
Class StateCodec := {
  encodeState : StableState → bytes;
  decodeState : bytes → Fallible (StableState * bytes);
  stateEnd : bytes → JsonEnd;
  decode_encodeState st :
    ∃ rest, decodeState (encodeState st) = Ok (st, rest) ∧ stateEnd rest = EndOfInput;
}.

Section FileStable.
Context `{StateCodec}.

(** [Load] once the file is open: its contents decoded and checked. *)
Definition parseState (bs : bytes) : Fallible StableState :=
  match decodeState bs with
  | Err e => Err (Wrapf "decode Raft state %q" e)
  | Ok (st, rest) =>
      match stateEnd rest with
      | AnotherValue => Err (Errorf "decode Raft state %q: contains multiple JSON values")
      | Malformed e => Err (Wrapf "decode Raft state %q" e)
      | EndOfInput =>
          if decide (VotedFor st < NoVote)
          then Err (Errorf "decode Raft state %q: invalid voted_for %d")
          else if decide (CommitIndex st < LastApplied st)
          then Err (Errorf "decode Raft state %q: last_applied exceeds commit_index")
          else Ok st
      end
  end.

(** What a node that has never saved starts from. *)
Definition freshState : StableState := mkStableState 0 NoVote 0 0.

Definition stableFile_Load : IO (Fallible StableState) :=
  checkV (readPath "open Raft state %q" "decode Raft state %q") (λ e, mret (Err e))
  (λ file, mret match file with None => Ok freshState | Some bs => parseState bs end).

Definition stateMessage (step : SaveStep) : string :=
  match step with
  | MakeDir => "create Raft state directory %q"
  | MakeTemporary => "create temporary Raft state"
  | WriteTemporary => "encode Raft state"
  | SyncTemporary => "sync temporary Raft state"
  | CloseTemporary => "close temporary Raft state"
  | Publish => "replace Raft state %q"
  | OpenDirectory => "open Raft state directory %q"
  | SyncDirectory => "sync Raft state directory %q"
  end.

Definition stableFile_Save (st : StableState) : IO (option error) :=
  if decide (VotedFor st < NoVote) then mret (Some (Errorf "invalid voted_for %d"))
  else if decide (CommitIndex st < LastApplied st)
  then mret (Some (Errorf "last_applied cannot exceed commit_index"))
  else saveAtomically stateMessage (encodeState st).

(** ** As a [StableStore] *)

Record FileStableStore := mkFileStableStore { sf_disk : Disk }.

#[export] Instance FileStableStore_StableStore : StableStore FileStableStore := {|
  stable_Load := λ s,
    let '(d, r) := stableFile_Load (sf_disk s) in
    (mkFileStableStore d, default (Err Crash) r);
  stable_Save := λ s st,
    let '(d, r) := stableFile_Save st (sf_disk s) in
    (mkFileStableStore d, default (Some Crash) r);
|}.

(** ** The laws *)

Definition documents (d : Disk) (st : StableState) : Prop :=
  match visible d with
  | None => link d = None ∧ st = freshState
  | Some bs => bs = encodeState st ∧ stable_state_ok st
  end.

Lemma parse_encodeState st : stable_state_ok st → parseState (encodeState st) = Ok st.
Proof.
  intros [Hv Ha]. unfold parseState.
  destruct (decode_encodeState st) as (rest & -> & ->). by rewrite !decide_False by lia.
Qed.

(** Only a well-formed document is ever loaded. *)
Lemma parseState_ok bs st : parseState bs = Ok st → stable_state_ok st.
Proof.
  unfold parseState. destruct (decodeState bs) as [[st' rest]|e]; [|done].
  destruct (stateEnd rest); [|done..]. repeat case_decide; try done.
  intros [= <-]. split; lia.
Qed.

Lemma stableFile_Save_spec calm d0 st :
  spec (at_ calm d0) (stableFile_Save st)
    (λ res d, match res with
              | None => stable_state_ok st ∧ at_ calm (replaced d0 (encodeState st)) d
              | Some _ => (calm → ¬ stable_state_ok st) ∧
                  (stable_state_ok st ∧ interrupted calm d0 (encodeState st) d ∨ at_ calm d0 d)
              end)
    (λ d, ¬ calm ∧ (stable_state_ok st ∧ interrupted calm d0 (encodeState st) d)).
Proof.
  unfold stableFile_Save.
  case_decide as Hv; [apply spec_ret; intros d Hd; split; [unfold stable_state_ok; lia|by right]|].
  case_decide as Ha; [apply spec_ret; intros d Hd; split; [unfold stable_state_ok; lia|by right]|].
  assert (stable_state_ok st) as Hok by (split; lia).
  eapply spec_weaken; [apply saveAtomically_spec|done| |by intros d []].
  intros [e|] d; [|done]. intros [Hn Hi]. split; [done|by left].
Qed.

Lemma stableFile_Load_spec calm d0 st :
  disk_wf d0 → documents d0 st →
  spec (at_ calm d0) stableFile_Load
    (λ r d, at_ calm d0 d ∧ match r with Ok st' => st' = st | Err _ => ¬ calm end)
    (λ d, ¬ calm ∧ at_ calm d0 d).
Proof.
  unfold documents. intros Hwf Hd. unfold stableFile_Load, checkV.
  eapply spec_bind; [by apply readPath_spec|]. intros [o|e]; [|by apply spec_ret].
  apply spec_ret. intros d [Ha ->]. split; [done|]. destruct (visible d0) as [bs|].
  - destruct Hd as [-> Hok]. by rewrite parse_encodeState.
  - by destruct Hd as [_ ->].
Qed.

Definition file_state (s : FileStableStore) : StableState :=
  match visible (sf_disk s) with
  | None => freshState
  | Some bs => match parseState bs with Ok st => st | Err _ => freshState end
  end.

Definition stable_file_ok (calm : Prop) (s : FileStableStore) : Prop :=
  sound calm (sf_disk s) ∧ documents (sf_disk s) (file_state s).

Lemma documents_state d st : documents d st → file_state (mkFileStableStore d) = st.
Proof.
  unfold documents, file_state. cbn. destruct (visible d) as [bs|]; [|by intros [_ ->]].
  intros [-> Hok]. by rewrite parse_encodeState.
Qed.

Lemma documents_at calm d0 d st : at_ calm d0 d → documents d0 st → documents d st.
Proof. by intros (fs & _ & ->). Qed.

Lemma stable_file_intro (calm : Prop) d st :
  sound calm d → documents d st →
  stable_file_ok calm (mkFileStableStore d) ∧ file_state (mkFileStableStore d) = st.
Proof.
  intros Hwf Hd. rewrite (documents_state _ _ Hd). split; [|done].
  split; [done|]. by rewrite (documents_state _ _ Hd).
Qed.

(** What an interrupted save leaves for a reader. *)
Lemma interrupted_documents calm d0 st0 st d :
  disk_wf d0 → documents d0 st0 → stable_state_ok st →
  interrupted calm d0 (encodeState st) d →
  sound calm d ∧ (documents d st0 ∨ documents d st).
Proof.
  intros Hwf Hd0 Hok Hi. pose proof (interrupted_sound _ _ _ _ Hwf Hi).
  apply interrupted_visible in Hi as [_ [[Hl Hv]|Hv]]; [| |done];
    (split; [done|]); unfold documents in *; rewrite Hv; [left; by rewrite Hl|by right].
Qed.

(** [calm]: the disk's calls succeed. *)
#[program] Definition FileStableStore_laws (calm : Prop) : StableStoreLaws FileStableStore := {|
  stable_state := file_state;
  stable_inv := stable_file_ok calm;
|}.
Next Obligation.
  intros calm [d] s' r [[Hf Hwf] Hd]. cbn in *.
  pose proof (stableFile_Load_spec calm d _ Hwf Hd d (at_same calm d Hf)) as Hs.
  assert (∀ d', at_ calm d d' → stable_file_ok calm (mkFileStableStore d') ∧
    file_state (mkFileStableStore d') = file_state (mkFileStableStore d)) as Hsame.
  { intros d' Ha. by apply stable_file_intro; [eapply at_sound|eapply documents_at]. }
  destruct (stableFile_Load d) as [d' [r'|]]; intros [= <- <-].
  - destruct Hs as [Ha Hr]. destruct (Hsame d' Ha). split_and!; [done..|].
    by intros st ->.
  - destruct Hs as [_ Ha]. by destruct (Hsame d' Ha).
Qed.
Next Obligation.
  intros calm [d] st s' r [[Hf Hwf] Hd]. cbn in *.
  pose proof (stableFile_Save_spec calm d st d (at_same calm d Hf)) as Hs.
  assert (∀ d', stable_state_ok st ∧ interrupted calm d (encodeState st) d' ∨ at_ calm d d' →
    stable_file_ok calm (mkFileStableStore d') ∧
    (file_state (mkFileStableStore d') = file_state (mkFileStableStore d) ∨
     stable_state_ok st ∧ file_state (mkFileStableStore d') = st)) as Hfail.
  { intros d' [[Hok Hi]|Ha].
    - destruct (interrupted_documents calm d _ st d' Hwf Hd Hok Hi) as [Hwf' [Hdoc|Hdoc]];
        destruct (stable_file_intro calm d' _ Hwf' Hdoc) as [? ->]; tauto.
    - destruct (stable_file_intro calm d' (file_state (mkFileStableStore d))) as [? ->];
        [by eapply at_sound|by eapply documents_at|tauto]. }
  destruct (stableFile_Save st d) as [d' [[e|]|]]; intros [= <- <-]; cbn.
  - by apply Hfail, Hs.
  - destruct Hs as [Hok Ha].
    assert (sound calm d') as Hwf' by (apply (interrupted_sound _ d (encodeState st)); [done|by right; right; right]).
    destruct (stable_file_intro calm d' st) as [? ->]; [done| |done].
    eapply documents_at; [done|]. unfold documents. by rewrite replaced_visible.
  - apply Hfail. left. tauto.
Qed.

(** On a disk that works every well-formed call succeeds. *)
Lemma FileStableStore_live :
  StableStoreLive FileStableStore (H0 := FileStableStore_laws True).
Proof.
  split.
  - intros [d] [[Hf Hwf] Hd]. cbn in *.
    pose proof (stableFile_Load_spec True d _ Hwf Hd d (at_same True d Hf)) as Hs.
    destruct (stableFile_Load d) as [d' [[st|e]|]]; [|by destruct Hs as [_ []]|by destruct Hs as [[] _]].
    destruct Hs as [_ ->]. by eexists.
  - intros [d] st [[Hf Hwf] Hd] Hok. cbn in *.
    pose proof (stableFile_Save_spec True d st d (at_same True d Hf)) as Hs.
    destruct (stableFile_Save st d) as [d' [[e|]|]]; [by destruct Hs as [[] _]|by eexists|].
    by destruct Hs as [[] _].
Qed.
End FileStable.
