(* ===== verification/FileSnapshot.v ===== *)
(** * The snapshot file

    [FileStore] of [internal/snapshot/snapshot.go]: one checksummed JSON
    document, replaced atomically.  [encoding/json] on the two document types
    and [crypto/sha256] are the class [SnapshotCodec]. *)

From Stdlib Require Import Strings.Byte.
From S2P Require Import Prelude.
From S2P Require Import Fs.
From S2P Require Import Log.
From S2P Require Import Stores.

Definition formatVersion : Z := 1.

Record diskSnapshot := mkDiskSnapshot {
  d_Version : Z;
  d_LastIncludedIndex : Z;
  d_LastIncludedTerm : Z;
  d_Data : bytes;
  d_Checksum : string;
}.

Record checksumPayload := mkPayload {
  p_Version : Z;
  p_LastIncludedIndex : Z;
  p_LastIncludedTerm : Z;
  p_Data : bytes;
}.

(** [json.Marshal] of the two types, [decoder.Decode] of the first, and
    [sha256.Sum256].  A document is read back, up to white space (data is in
    base 64); integers are unbounded here, as in [StateCodec]. *)
Class SnapshotCodec := {
  marshalPayload : checksumPayload → bytes;
  marshalDisk : diskSnapshot → bytes;
  decodeDisk : bytes → Fallible (diskSnapshot * bytes);
  diskEnd : bytes → JsonEnd;
  sum256 : bytes → bytes;
  decode_marshalDisk disk :
    ∃ rest, decodeDisk (marshalDisk disk) = Ok (disk, rest) ∧ diskEnd rest = EndOfInput;
}.

(** [hex.EncodeToString] *)
Definition hexDigit (n : N) : Ascii.ascii :=
  Ascii.ascii_of_N (if decide (n < 10)%N then 48 + n else 87 + n)%N.
Fixpoint hex (bs : bytes) : string :=
  match bs with
  | [] => ""
  | b :: rest =>
      String (hexDigit (Byte.to_N b / 16)) (String (hexDigit (Byte.to_N b mod 16)) (hex rest))
  end.

Section FileSnapshot.
Context `{SnapshotCodec}.

Definition checksumFor (sn : Snapshot) : string :=
  hex (sum256 (marshalPayload {|
    p_Version := formatVersion;
    p_LastIncludedIndex := s_LastIncludedIndex sn;
    p_LastIncludedTerm := s_LastIncludedTerm sn;
    p_Data := s_Data sn;
  |})).

(** [Load] once the file is open: its contents decoded and checked. *)
Definition parseSnapshot (bs : bytes) : Fallible Snapshot :=
  match decodeDisk bs with
  | Err e => Err (Wrapf "decode snapshot %q" e)
  | Ok (disk, rest) =>
      match diskEnd rest with
      | AnotherValue => Err (Errorf "decode snapshot %q: contains multiple JSON values")
      | Malformed e => Err (Wrapf "decode snapshot %q" e)
      | EndOfInput =>
          if decide (d_Version disk ≠ formatVersion)
          then Err (Errorf "snapshot %q has unsupported format version %d")
          else
            let result :=
              mkSnapshot (d_LastIncludedIndex disk) (d_LastIncludedTerm disk) (d_Data disk) in
            match Snapshot_Validate result with
            | Some err => Err (Wrapf "invalid snapshot %q" err)
            | None =>
                if decide (d_Checksum disk ≠ checksumFor result)
                then Err (Errorf "snapshot %q checksum mismatch")
                else Ok result
            end
      end
  end.

Definition snapshotFile_Load : IO (Fallible (option Snapshot)) :=
  checkV (readPath "open snapshot %q" "decode snapshot %q") (λ e, mret (Err e))
  (λ file, mret match file with
                | None => Ok None
                | Some bs => match parseSnapshot bs with
                             | Ok sn => Ok (Some sn)
                             | Err e => Err e
                             end
                end).

Definition snapshotMessage (step : SaveStep) : string :=
  match step with
  | MakeDir => "create snapshot directory %q"
  | MakeTemporary => "create temporary snapshot"
  | WriteTemporary => "write temporary snapshot"
  | SyncTemporary => "sync temporary snapshot"
  | CloseTemporary => "close temporary snapshot"
  | Publish => "replace snapshot %q"
  | OpenDirectory => "open snapshot directory %q"
  | SyncDirectory => "sync snapshot directory %q"
  end.

Definition diskOf (sn : Snapshot) : diskSnapshot := {|
  d_Version := formatVersion;
  d_LastIncludedIndex := s_LastIncludedIndex sn;
  d_LastIncludedTerm := s_LastIncludedTerm sn;
  d_Data := s_Data sn;
  d_Checksum := checksumFor sn;
|}.

Definition snapshotFile_Save (sn : Snapshot) : IO (option error) :=
  match Snapshot_Validate sn with
  | Some err => mret (Some err)
  | None => saveAtomically snapshotMessage (marshalDisk (diskOf sn))
  end.

(** ** As a [SnapshotStore] *)

Record FileStore := mkFileStore { fs_disk : Disk }.

#[export] Instance FileStore_SnapshotStore : SnapshotStore FileStore := {|
  snap_Load := λ s,
    let '(d, r) := snapshotFile_Load (fs_disk s) in (mkFileStore d, default (Err Crash) r);
  snap_Save := λ s sn,
    let '(d, r) := snapshotFile_Save sn (fs_disk s) in (mkFileStore d, default (Some Crash) r);
|}.

(** ** The laws *)

(** The file at the path, if any, is the document of this snapshot. *)
Definition publishes (d : Disk) (o : option Snapshot) : Prop :=
  match o with
  | None => link d = None
  | Some sn => visible d = Some (marshalDisk (diskOf sn)) ∧ Snapshot_Validate sn = None
  end.

Lemma parse_marshalDisk sn :
  Snapshot_Validate sn = None → parseSnapshot (marshalDisk (diskOf sn)) = Ok sn.
Proof.
  intros Hv. unfold parseSnapshot.
  destruct (decode_marshalDisk (diskOf sn)) as (rest & -> & ->).
  destruct sn as [i t data]. rewrite decide_False by (intros Hne; by apply Hne).
  cbn -[Snapshot_Validate]. rewrite Hv, decide_False by (intros Hne; by apply Hne). done.
Qed.

(** Only a valid snapshot with a matching checksum is ever loaded. *)
Lemma parseSnapshot_ok bs sn :
  parseSnapshot bs = Ok sn →
  Snapshot_Validate sn = None ∧
  ∃ disk rest, decodeDisk bs = Ok (disk, rest) ∧ diskEnd rest = EndOfInput ∧ disk = diskOf sn.
Proof.
  unfold parseSnapshot. destruct (decodeDisk bs) as [[disk rest]|e]; [|done].
  destruct (diskEnd rest) eqn:He; [|done..]. case_decide as Hver; [done|].
  destruct (Snapshot_Validate _) eqn:Hv; [done|]. case_decide as Hc; [done|]. intros [= <-].
  split; [done|]. exists disk, rest. split_and!; [done..|].
  destruct disk. cbn in *. by subst.
Qed.

Lemma snapshotFile_Save_spec calm d0 sn :
  spec (at_ calm d0) (snapshotFile_Save sn)
    (λ res d, match res with
              | None => Snapshot_Validate sn = None ∧
                        at_ calm (replaced d0 (marshalDisk (diskOf sn))) d
              | Some _ => (calm → Snapshot_Validate sn ≠ None) ∧
                  (Snapshot_Validate sn = None ∧
                   interrupted calm d0 (marshalDisk (diskOf sn)) d ∨ at_ calm d0 d)
              end)
    (λ d, ¬ calm ∧ Snapshot_Validate sn = None ∧
          interrupted calm d0 (marshalDisk (diskOf sn)) d).
Proof.
  unfold snapshotFile_Save. destruct (Snapshot_Validate sn) as [e|].
  { apply spec_ret. intros d Hd. split; [done|by right]. }
  eapply spec_weaken; [apply saveAtomically_spec|done| |by intros d []].
  intros [e|] d; [|done]. intros [Hn Hi]. split; [done|by left].
Qed.

Lemma snapshotFile_Load_spec calm d0 o :
  disk_wf d0 → publishes d0 o →
  spec (at_ calm d0) snapshotFile_Load
    (λ r d, at_ calm d0 d ∧ match r with Ok o' => o' = o | Err _ => ¬ calm end)
    (λ d, ¬ calm ∧ at_ calm d0 d).
Proof.
  intros Hwf Hp. unfold snapshotFile_Load, checkV.
  eapply spec_bind; [by apply readPath_spec|]. intros [f|e]; [|by apply spec_ret].
  apply spec_ret. intros d [Ha ->]. split; [done|]. destruct o as [sn|]; cbn in Hp.
  - destruct Hp as [-> Hv]. by rewrite parse_marshalDisk.
  - unfold visible. by rewrite Hp.
Qed.

Definition file_stored (s : FileStore) : option Snapshot :=
  match visible (fs_disk s) with
  | None => None
  | Some bs => match parseSnapshot bs with Ok sn => Some sn | Err _ => None end
  end.

Definition snapshot_file_ok (calm : Prop) (s : FileStore) : Prop :=
  sound calm (fs_disk s) ∧ publishes (fs_disk s) (file_stored s).

Lemma snapshot_file_intro (calm : Prop) d o :
  sound calm d → publishes d o →
  snapshot_file_ok calm (mkFileStore d) ∧ file_stored (mkFileStore d) = o.
Proof.
  intros Hwf Hp. assert (file_stored (mkFileStore d) = o) as Heq.
  { unfold file_stored. cbn. destruct o as [sn|]; cbn in Hp.
    - destruct Hp as [-> Hv]. by rewrite parse_marshalDisk.
    - unfold visible. by rewrite Hp. }
  split; [|done]. split; [done|]. by rewrite Heq.
Qed.

Lemma publishes_at calm d0 d o : at_ calm d0 d → publishes d0 o → publishes d o.
Proof. by intros (fs & _ & ->). Qed.

Lemma interrupted_publishes calm d0 o sn d :
  disk_wf d0 → publishes d0 o → Snapshot_Validate sn = None →
  interrupted calm d0 (marshalDisk (diskOf sn)) d →
  sound calm d ∧ (publishes d o ∨ publishes d (Some sn)).
Proof.
  intros Hwf Hp Hv Hi. pose proof (interrupted_sound _ _ _ _ Hwf Hi).
  apply interrupted_visible in Hi as [_ [[Hl Hvis]|Hvis]]; [| |done];
    (split; [done|]).
  - left. unfold publishes in *. by rewrite Hl, Hvis.
  - right. by split.
Qed.

(** [calm]: the disk's calls succeed. *)
#[program] Definition FileStore_laws (calm : Prop) : SnapshotStoreLaws FileStore := {|
  snap_stored := file_stored;
  snap_inv := snapshot_file_ok calm;
|}.
Next Obligation.
  intros calm [d] s' r [[Hf Hwf] Hd]. cbn in *.
  pose proof (snapshotFile_Load_spec calm d _ Hwf Hd d (at_same calm d Hf)) as Hs.
  assert (∀ d', at_ calm d d' → snapshot_file_ok calm (mkFileStore d') ∧
    file_stored (mkFileStore d') = file_stored (mkFileStore d)) as Hsame.
  { intros d' Ha. by apply snapshot_file_intro; [eapply at_sound|eapply publishes_at]. }
  destruct (snapshotFile_Load d) as [d' [r'|]]; intros [= <- <-].
  - destruct Hs as [Ha Hr]. destruct (Hsame d' Ha). split_and!; [done..|].
    by intros o ->.
  - destruct Hs as [_ Ha]. by destruct (Hsame d' Ha).
Qed.
Next Obligation.
  intros calm [d] sn s' r [[Hf Hwf] Hd]. cbn in *.
  pose proof (snapshotFile_Save_spec calm d sn d (at_same calm d Hf)) as Hs.
  assert (∀ d', Snapshot_Validate sn = None ∧
      interrupted calm d (marshalDisk (diskOf sn)) d' ∨ at_ calm d d' →
    snapshot_file_ok calm (mkFileStore d') ∧
    (file_stored (mkFileStore d') = file_stored (mkFileStore d) ∨
     Snapshot_Validate sn = None ∧ file_stored (mkFileStore d') = Some sn)) as Hfail.
  { intros d' [[Hok Hi]|Ha].
    - destruct (interrupted_publishes calm d _ sn d' Hwf Hd Hok Hi) as [Hwf' [Hp|Hp]];
        destruct (snapshot_file_intro calm d' _ Hwf' Hp) as [? ->]; tauto.
    - destruct (snapshot_file_intro calm d' (file_stored (mkFileStore d))) as [? ->];
        [by eapply at_sound|by eapply publishes_at|tauto]. }
  destruct (snapshotFile_Save sn d) as [d' [[e|]|]]; intros [= <- <-]; cbn.
  - by apply Hfail, Hs.
  - destruct Hs as [Hok Ha].
    assert (sound calm d') as Hwf' by (apply (interrupted_sound _ d (marshalDisk (diskOf sn))); [done|by right; right; right]).
    destruct (snapshot_file_intro calm d' (Some sn)) as [? ->]; [done| |done].
    eapply publishes_at; [done|]. split; [|done]. by rewrite replaced_visible.
  - apply Hfail. left. tauto.
Qed.

(** On a disk that works every well-formed call succeeds. *)
Lemma FileStore_live : SnapshotStoreLive FileStore (H0 := FileStore_laws True).
Proof.
  split.
  - intros [d] [[Hf Hwf] Hd]. cbn in *.
    pose proof (snapshotFile_Load_spec True d _ Hwf Hd d (at_same True d Hf)) as Hs.
    destruct (snapshotFile_Load d) as [d' [[o|e]|]]; [|by destruct Hs as [_ []]|by destruct Hs as [[] _]].
    destruct Hs as [_ ->]. by eexists.
  - intros [d] sn [[Hf Hwf] Hd] Hok. cbn in *.
    pose proof (snapshotFile_Save_spec True d sn d (at_same True d Hf)) as Hs.
    destruct (snapshotFile_Save sn d) as [d' [[e|]|]]; [by destruct Hs as [[] _]|by eexists|].
    by destruct Hs as [[] _].
Qed.
End FileSnapshot.
