(* ===== verification/Store.v ===== *)
(** * The key-value state machine

    [internal/store/memory.go], and [storeApplier] of [internal/node/node.go]
    that drives it from committed entries.  [encoding/json] on a string map is
    the class [MapCodec]: what Raft ships as snapshot bytes is opaque. *)

From S2P Require Import Prelude.
From S2P Require Import Log.
From S2P Require Import Stores.

(** [json.Marshal] and [json.Unmarshal] on a [map[string]string].  Marshalling
    a map cannot fail; a map whose strings are valid UTF-8 ([exact]) is read
    back unchanged. *)
Class MapCodec := {
  marshal : gmap string string → bytes;
  unmarshal : bytes → option (gmap string string);
  exact : gmap string string → Prop;
  unmarshal_marshal m : exact m → unmarshal (marshal m) = Some m;
}.

Record MemoryStore := mkMemoryStore {
  data : gmap string string;
  maxLength : Z;
}.

Definition NewMemoryStore (maxLength : Z) : MemoryStore := mkMemoryStore ∅ maxLength.

(** [len] of a Go string: its bytes. *)
Definition len (s : string) : Z := Z.of_nat (String.length s).

Definition Get (m : MemoryStore) (key : string) : Fallible string :=
  match data m !! key with
  | None => Err (Errorf "key %q not found")
  | Some val => Ok val
  end.

Definition Set_ (m : MemoryStore) (key val : string) : MemoryStore * option error :=
  if decide (key = ""%string) then (m, Some (Errorf "key cannot be empty"))
  else if decide (maxLength m < len val)
  then (m, Some (Errorf "value cannot be greater than %d"))
  else (mkMemoryStore (<[key := val]> (data m)) (maxLength m), None).

Definition Delete (m : MemoryStore) (key : string) : MemoryStore * option error :=
  (mkMemoryStore (delete key (data m)) (maxLength m), None).

(** [func (a storeApplier) Apply(entry raft.LogEntry) error] *)
Definition Apply (m : MemoryStore) (entry : LogEntry) : MemoryStore * option error :=
  if decide (Operation entry = NoopOperation) then (m, None)
  else if decide (Operation entry = SetOperation) then Set_ m (Key entry) (Value entry)
  else if decide (Operation entry = DeleteOperation) then Delete m (Key entry)
  else (m, Some (Errorf "apply unknown Raft operation %q")).

(** The check [Restore] makes on every decoded pair. *)
Definition pair_ok (limit : Z) (key value : string) : Prop :=
  key ≠ ""%string ∧ len value ≤ limit.

#[export] Instance pair_ok_dec limit key value : Decision (pair_ok limit key value).
Proof. apply _. Defined.

Section Images.
Context `{MapCodec}.

Definition Snapshot_ (m : MemoryStore) : Fallible bytes := Ok (marshal (data m)).

(** The range over the decoded map stops at the first pair that fails; which
    one is unspecified, so the two messages are one error here. *)
Definition Restore_ (m : MemoryStore) (image : bytes) : MemoryStore * option error :=
  match unmarshal image with
  | None => (m, Some (Errorf "decode memory store snapshot: %w"))
  | Some decoded =>
      if decide (map_Forall (λ key value, pair_ok (maxLength m) key value) decoded)
      then (mkMemoryStore decoded (maxLength m), None)
      else (m, Some (Errorf "snapshot contains an invalid pair"))
  end.

#[export] Instance MemoryStore_StateMachine : StateMachine MemoryStore := {|
  sm_Apply := Apply;
  sm_Snapshot := Snapshot_;
  sm_Restore := Restore_;
|}.
End Images.

(** ** The store's invariant *)

(** Every stored pair would be accepted by [Set]. *)
Definition store_ok (m : MemoryStore) : Prop :=
  map_Forall (λ key value, pair_ok (maxLength m) key value) (data m).

Lemma Apply_ok m e m' r :
  store_ok m → Apply m e = (m', r) →
  store_ok m' ∧ maxLength m' = maxLength m ∧ (is_Some r → m' = m).
Proof.
  unfold Apply, Set_, Delete. intros Hok.
  repeat case_decide; intros [= <- <-]. all: split; [|split; [done|by intros []]]. all: try done. all: unfold store_ok; cbn.
  - apply map_Forall_insert_2; [split; [done|lia]|done].
  - by apply map_Forall_delete.
Qed.

#[export, program] Instance MemoryStore_laws `{MapCodec} : StateMachineLaws MemoryStore := {|
  sm_like m m' := maxLength m' = maxLength m;
  sm_inv := store_ok;
  sm_faithful m := exact (data m);
|}.
Next Obligation.
  intros ?. split; [by intros ?|by intros ???|intros ???; congruence].
Qed.
Next Obligation. intros ? m e m' r Hok Ha. by eapply Apply_ok. Qed.
Next Obligation.
  intros ? m d m' r Hok. cbn. unfold Restore_.
  destruct (unmarshal d) as [decoded|]; [case_decide|]; intros [= <- <-];
    split_and!; try done; by intros [].
Qed.
Next Obligation.
  intros ? m m0 d Hok Hf Hl [= <-]. cbn. unfold Restore_.
  rewrite unmarshal_marshal by done. rewrite decide_True.
  - destruct m, m0; simpl in *. by rewrite Hl.
  - by rewrite <- Hl.
Qed.

(** ** The state machine as a function of the committed history *)

(** What an entry that a store accepts does to the map. *)
Definition effect (e : LogEntry) (kv : gmap string string) : gmap string string :=
  if decide (Operation e = SetOperation) then <[Key e := Value e]> kv
  else if decide (Operation e = DeleteOperation) then delete (Key e) kv
  else kv.

(** The entries a store of this limit accepts: what the log validates, with a
    value that fits. *)
Definition acceptable (limit : Z) (e : LogEntry) : Prop :=
  LogEntry_Validate e = None ∧ len (Value e) ≤ limit.

Lemma Apply_acceptable m e :
  acceptable (maxLength m) e → Apply m e = (mkMemoryStore (effect e (data m)) (maxLength m), None).
Proof.
  intros [Hv Hl]. revert Hv. unfold LogEntry_Validate, Apply, Set_, Delete, effect.
  unfold NoopOperation, SetOperation, DeleteOperation in *.
  repeat (case_decide; simplify_eq/=; try done); try lia; try congruence.
  all: by destruct m.
Qed.
