(* ===== verification/Server.v ===== *)
(** * The HTTP server

    The handlers of [internal/server/server.go].  The store, the cluster
    status and the write coordinator the server is given are classes; a
    handler takes their common state and gives it back. *)

From stdpp Require Import pretty.
From S2P Require Import Prelude.
From S2P Require Import Store.
From S2P Require Import Http.

(** ** What the server is given *)

(** [store.Store]: the handlers only read it. *)
Class ReadStore (W : Type) := {
  store_Get : W → string → Fallible string;
}.

Class ClusterStatus (W : Type) := {
  status_LeaderID : W → Z;
  status_CurrentTerm : W → Z;
  status_LeaderHTTPAddr : W → string * bool;
}.

(** [ProposeSet] and [ProposeDelete] return once the context is done at the
    latest; the state they give back is the one at their return. *)
Class WriteCoordinator (W : Type) := {
  write_IsLeader : W → bool;
  ProposeSet : W → string → string → W * option error;
  ProposeDelete : W → string → W * option error;
  write_LeaderHTTPAddr : W → string * bool;
}.

Record SetRequest := mkSetRequest {
  sr_Key : string;
  sr_Value : string;
}.

Record LeaderResponse := mkLeaderResponse {
  lr_LeaderID : Z;
  lr_LeaderHTTPAddr : string;
  lr_Term : Z;
  lr_Known : bool;
}.

(** [encoding/json] on the two. *)
Class ServerCodec := {
  decodeSetRequest : string → option SetRequest;
  encodeLeader : LeaderResponse → string;
}.

(** [cluster], [writes]: whether they are not nil; [httpSrv]: whether it is
    set, and whether it was shut down. *)
Record Server := mkServer {
  addr : string;
  cluster : bool;
  writes : bool;
  maxValueLength : Z;
  httpSrv : option bool;
}.

Definition NewServer (addr : string) (cluster writes : bool) (maxValueLength : Z) : Server :=
  mkServer addr cluster writes maxValueLength None.

Section Handlers.
Context {W : Type} `{!ReadStore W, !ClusterStatus W} {coordinator : WriteCoordinator W} `{ServerCodec}.
Implicit Types (s : Server) (w : ResponseWriter) (r : Request) (n : W).

Definition methodNotAllowed w : ResponseWriter :=
  http_Error w "method not allowed" StatusMethodNotAllowed.

(** [err.Error()], as far as the model keeps it: the outermost format. *)
Definition errorText (e : error) : string :=
  match e with Sentinel t | Errorf t | Wrapf t _ => t end.

Definition getHandler s n w r : ResponseWriter :=
  if decide (Method r ≠ "GET"%string) then methodNotAllowed w
  else
    let key := queryGet (RawQuery r) "key" in
    if decide (key = ""%string)
    then http_Error w "missing query parameter: key" StatusBadRequest
    else match store_Get n key with
    | Err err => http_Error w (errorText err) StatusNotFound
    | Ok value =>
        let w := WriteHeader w StatusOK in
        let '(w, ok) := Write w value in
        if ok then w
        else http_Error w "failed to write response" StatusInternalServerError
    end.

Definition redirectToLeader s n w r : ResponseWriter :=
  let '(address, known) := write_LeaderHTTPAddr n in
  if negb known then
    let w := setHeader w "Retry-After" "1" in
    http_Error w "no Raft leader is known" StatusServiceUnavailable
  else
    let target := httpURL address (Path r) (RawQuery r) in
    http_Redirect w target StatusTemporaryRedirect.

Definition requireLeaderForWrite s n w r : ResponseWriter * bool :=
  if negb (writes s)
  then (http_Error w "cluster writes are not configured" StatusServiceUnavailable, false)
  else if write_IsLeader n then (w, true)
  else (redirectToLeader s n w r, false).

(** [context.DeadlineExceeded] and [context.Canceled]. *)
Definition DeadlineExceeded : error := Sentinel "context deadline exceeded".
Definition Canceled : error := Sentinel "context canceled".

Definition writeFailure s n w r (err : error) : ResponseWriter :=
  if negb (write_IsLeader n) then redirectToLeader s n w r
  else if errors_Is err DeadlineExceeded || errors_Is err Canceled then
    let w := setHeader w "Retry-After" "1" in
    http_Error w "write was not confirmed by a Raft majority; retry" StatusServiceUnavailable
  else http_Error w ("write was not confirmed: " ++ errorText err) StatusServiceUnavailable.

Definition setHandler s n w r : W * ResponseWriter :=
  if decide (Method r ≠ "POST"%string) then (n, methodNotAllowed w)
  else match requireLeaderForWrite s n w r with
  | (w, false) => (n, w)
  | (w, true) =>
      match decodeSetRequest (Body r) with
      | None => (n, http_Error w "invalid JSON body" StatusBadRequest)
      | Some req =>
          if decide (sr_Key req = ""%string)
          then (n, http_Error w "key cannot be empty" StatusBadRequest)
          else if decide (maxValueLength s < len (sr_Value req))
          then (n, http_Error w ("value cannot be greater than " ++ pretty (maxValueLength s))
                   StatusBadRequest)
          else match ProposeSet n (sr_Key req) (sr_Value req) with
          | (n, Some err) => (n, writeFailure s n w r err)
          | (n, None) => (n, WriteHeader w StatusOK)
          end
      end
  end.

Definition deleteHandler s n w r : W * ResponseWriter :=
  if decide (Method r ≠ "DELETE"%string) then (n, methodNotAllowed w)
  else match requireLeaderForWrite s n w r with
  | (w, false) => (n, w)
  | (w, true) =>
      let key := queryGet (RawQuery r) "key" in
      if decide (key = ""%string)
      then (n, http_Error w "missing query parameter: key" StatusBadRequest)
      else match ProposeDelete n key with
      | (n, Some err) => (n, writeFailure s n w r err)
      | (n, None) => (n, WriteHeader w StatusNoContent)
      end
  end.

Definition leaderHandler s n w r : ResponseWriter :=
  if decide (Method r ≠ "GET"%string) then methodNotAllowed w
  else if negb (cluster s)
  then http_Error w "cluster mode is not configured" StatusServiceUnavailable
  else
    let '(address, known) := status_LeaderHTTPAddr n in
    let response := {|
      lr_LeaderID := status_LeaderID n;
      lr_LeaderHTTPAddr := address;
      lr_Term := status_CurrentTerm n;
      lr_Known := known;
    |} in
    let w := setHeader w "Content-Type" "application/json" in
    let '(w, ok) := Write w (encodeLeader response) in
    if ok then w else http_Error w "failed to write response" StatusInternalServerError.

Definition healthy : string := "{" ++ quoted "status" ++ ":" ++ quoted "ok" ++ "}".

Definition healthHandler s n w r : ResponseWriter :=
  if decide (Method r ≠ "GET"%string) then methodNotAllowed w
  else
    let w := setHeader w "Content-Type" "application/json" in
    (Write w healthy).1.

(** ** Routing *)

Inductive Route :=
| GetRoute
| SetRoute
| DeleteRoute
| LeaderRoute
| HealthRoute.

(** The patterns [Start] registers, for a request whose path is clean. *)
Definition route (path : string) : option Route :=
  if decide (path = "/get"%string) then Some GetRoute
  else if decide (path = "/set"%string) then Some SetRoute
  else if decide (path = "/delete"%string) then Some DeleteRoute
  else if decide (path = "/leader"%string) then Some LeaderRoute
  else if decide (path = "/health"%string) then Some HealthRoute
  else None.

(** One request from its arrival to its answer. *)
Definition serve s n (broken : bool) r : W * Response :=
  let w := newWriter broken in
  let '(n, w) :=
    match route (Path r) with
    | Some GetRoute => (n, getHandler s n w r)
    | Some SetRoute => setHandler s n w r
    | Some DeleteRoute => deleteHandler s n w r
    | Some LeaderRoute => (n, leaderHandler s n w r)
    | Some HealthRoute => (n, healthHandler s n w r)
    | None => (n, http_Error w "404 page not found" StatusNotFound)
    end in
  (n, respond w).

(** ** Facts *)

(** An answer with a status and, among its headers, the given one. *)
Definition answers (resp : Response) (status : Z) (name value : string) : Prop :=
  Status resp = status ∧ Header resp !! name = Some value.

Lemma error_status broken message status :
  Status (respond (http_Error (newWriter broken) message status)) = status.
Proof. by destruct broken. Qed.

Lemma redirect_answers s n broken r :
  let resp := respond (redirectToLeader s n (newWriter broken) r) in
  match write_LeaderHTTPAddr n with
  | (address, true) =>
      answers resp 307 "Location" (httpURL address (Path r) (RawQuery r))
  | (_, false) => answers resp 503 "Retry-After" "1"
  end.
Proof.
  unfold redirectToLeader, answers. destruct (write_LeaderHTTPAddr n) as [a []]; [done|].
  by destruct broken.
Qed.

(** What a failed write is answered, in the state it left. *)
Lemma writeFailure_answers s n broken r err :
  let resp := respond (writeFailure s n (newWriter broken) r err) in
  if write_IsLeader n then Status resp = 503
  else match write_LeaderHTTPAddr n with
       | (address, true) =>
           answers resp 307 "Location" (httpURL address (Path r) (RawQuery r))
       | (_, false) => answers resp 503 "Retry-After" "1"
       end.
Proof.
  unfold writeFailure. destruct (write_IsLeader n); cbn [negb]; [|apply redirect_answers].
  destruct (errors_Is err DeadlineExceeded || errors_Is err Canceled); by destruct broken.
Qed.

(** A write request. *)
Definition is_write r : Prop :=
  Method r = "POST"%string ∧ Path r = "/set"%string ∨
  Method r = "DELETE"%string ∧ Path r = "/delete"%string.

Lemma route_set : route "/set" = Some SetRoute.
Proof. reflexivity. Qed.

Lemma route_delete : route "/delete" = Some DeleteRoute.
Proof. reflexivity. Qed.

Lemma redirected s n broken r :
  writes s = true → is_write r → write_IsLeader n = false →
  serve s n broken r = (n, respond (redirectToLeader s n (newWriter broken) r)).
Proof.
  intros Hw Hr Hl. unfold serve.
  destruct Hr as [[Hm ->]|[Hm ->]]; rewrite ?route_set, ?route_delete;
    [unfold setHandler|unfold deleteHandler];
    unfold requireLeaderForWrite; by rewrite decide_False, Hw, Hl by (rewrite Hm; auto).
Qed.

(** What the leader does with a write: whether it proposes it. *)
Definition acceptable s (req : SetRequest) : Prop :=
  sr_Key req ≠ ""%string ∧ len (sr_Value req) ≤ maxValueLength s.

Lemma set_on_leader s n broken r :
  writes s = true → Method r = "POST"%string → Path r = "/set"%string →
  write_IsLeader n = true →
  let w := newWriter broken in
  (∃ message, serve s n broken r = (n, respond (http_Error w message 400)) ∧
     ∀ req, decodeSetRequest (Body r) = Some req → ¬ acceptable s req) ∨
  ∃ req, decodeSetRequest (Body r) = Some req ∧ acceptable s req ∧
    let '(n', res) := ProposeSet n (sr_Key req) (sr_Value req) in
    serve s n broken r =
      (n', match res with
           | None => respond (WriteHeader w 200)
           | Some err => respond (writeFailure s n' w r err)
           end).
Proof.
  intros Hw Hm Hp Hl. cbn zeta. unfold serve. rewrite Hp, route_set. unfold setHandler.
  rewrite decide_False by (rewrite Hm; auto).
  unfold requireLeaderForWrite. rewrite Hw, Hl. cbn [negb].
  destruct (decodeSetRequest (Body r)) as [req|] eqn:Hd; [|by left; eexists].
  case_decide as Hk.
  { left. eexists. split; [done|]. by intros ? [= <-] []. }
  case_decide as Hv.
  { left. eexists. split; [done|]. intros ? [= <-] []. lia. }
  right. exists req. split; [done|]. split; [split; [done|lia]|].
  by destruct (ProposeSet n _ _) as [n' [err|]].
Qed.

Lemma delete_on_leader s n broken r :
  writes s = true → Method r = "DELETE"%string → Path r = "/delete"%string →
  write_IsLeader n = true →
  let w := newWriter broken in
  let key := queryGet (RawQuery r) "key" in
  if decide (key = ""%string)
  then ∃ message, serve s n broken r = (n, respond (http_Error w message 400))
  else let '(n', res) := ProposeDelete n key in
    serve s n broken r =
      (n', match res with
           | None => respond (WriteHeader w 204)
           | Some err => respond (writeFailure s n' w r err)
           end).
Proof.
  intros Hw Hm Hp Hl. cbn zeta. unfold serve. rewrite Hp, route_delete. unfold deleteHandler.
  rewrite (decide_False (P := Method r ≠ "DELETE"%string)) by (rewrite Hm; auto).
  unfold requireLeaderForWrite. rewrite Hw, Hl. cbn [negb].
  case_decide; [by eexists|]. by destruct (ProposeDelete n _) as [n' [err|]].
Qed.
End Handlers.

(** ** Starting and stopping *)

(** [Start] up to [ListenAndServe]; whether that goes on to serve. *)
Definition Server_Start (s : Server) : Server * bool :=
  (mkServer (addr s) (cluster s) (writes s) (maxValueLength s) (Some false), true).

(** [failure] is what closing the listeners and connections reports. *)
Definition Shutdown (failure : option error) (s : Server) : Server * option error :=
  match httpSrv s with
  | None => (s, None)
  | Some _ =>
      (mkServer (addr s) (cluster s) (writes s) (maxValueLength s) (Some true), failure)
  end.
