(* ===== verification/Codecs.v ===== *)
(** * Concrete codecs

    The classes that stand for [encoding/json] and [crypto/sha256] have
    instances: what [Store], [FileLog], [FileStable] and [FileSnapshot] ask of
    them can be met.  The witnesses run on these. *)

From Stdlib Require Import Strings.Byte.
From S2P Require Import Prelude.
From S2P Require Import Fs.
From S2P Require Import Wal.
From S2P Require Import Log.
From S2P Require Import Stores.
From S2P Require Import Store.
From S2P Require Import FileLog.
From S2P Require Import FileStable.
From S2P Require Import FileSnapshot.

(** ** Any countable type

    The bits of the value's code number, one byte each. *)

Fixpoint bits_of (p : positive) : list byte :=
  match p with
  | xH => [x02]
  | xO p => x00 :: bits_of p
  | xI p => x01 :: bits_of p
  end.

Fixpoint of_bits (bs : list byte) : option positive :=
  match bs with
  | [x02] => Some xH
  | x00 :: bs => xO <$> of_bits bs
  | x01 :: bs => xI <$> of_bits bs
  | _ => None
  end.

Lemma of_bits_of p : of_bits (bits_of p) = Some p.
Proof. induction p as [p IH|p IH|]; simpl; [by rewrite IH|by rewrite IH|done]. Qed.

Definition toBits {A} `{Countable A} (x : A) : bytes := bits_of (encode x).
Definition fromBits {A} `{Countable A} (bs : bytes) : option A := of_bits bs ≫= decode.

Lemma fromBits_toBits {A} `{Countable A} (x : A) : fromBits (toBits x) = Some x.
Proof. unfold fromBits, toBits. rewrite of_bits_of. simpl. apply decode_encode. Qed.

#[export, program] Instance bits_codec : MapCodec := {|
  marshal m := toBits m;
  unmarshal := fromBits;
  exact _ := True;
|}.
Next Obligation. intros m _. apply fromBits_toBits. Qed.

#[export] Instance byte_countable : Countable byte.
Proof.
  refine (inj_countable Byte.to_N Byte.of_N _). intros b. apply Byte.of_to_N.
Defined.

#[export] Instance StableState_countable : Countable StableState.
Proof.
  refine (inj_countable' (λ s, (CurrentTerm s, VotedFor s, CommitIndex s, LastApplied s))
    (λ '(t, v, c, a), mkStableState t v c a) _). by intros [].
Defined.

#[export] Instance diskSnapshot_eq_dec : EqDecision diskSnapshot.
Proof. solve_decision. Defined.

#[export] Instance diskSnapshot_countable : Countable diskSnapshot.
Proof.
  refine (inj_countable' (λ s, (d_Version s, d_LastIncludedIndex s, d_LastIncludedTerm s,
      d_Data s, d_Checksum s))
    (λ '(v, i, t, d, c), mkDiskSnapshot v i t d c) _). by intros [].
Defined.

Definition undecodable : error := Errorf "unexpected end of JSON input".

#[export, program] Instance bits_state_codec : StateCodec := {|
  encodeState st := toBits st;
  decodeState bs := match fromBits bs with Some st => Ok (st, []) | None => Err undecodable end;
  stateEnd _ := EndOfInput;
|}.
Next Obligation. intros st. exists []. cbn. by rewrite fromBits_toBits. Qed.

(** The sum of the bytes for a digest: the checks do not depend on its
    strength. *)
#[export, program] Instance bits_snapshot_codec : SnapshotCodec := {|
  marshalPayload p :=
    toBits (p_Version p, p_LastIncludedIndex p, p_LastIncludedTerm p, p_Data p);
  marshalDisk disk := toBits disk;
  decodeDisk bs := match fromBits bs with Some disk => Ok (disk, []) | None => Err undecodable end;
  diskEnd _ := EndOfInput;
  sum256 bs := [byteOf (foldl (λ n b, n * 3 + byteVal b) 0 bs)];
|}.
Next Obligation. intros disk. exists []. cbn. by rewrite fromBits_toBits. Qed.

(** ** Log entries

    Two eight-byte words and three strings, each character marked and each
    string ended by a zero. *)

Fixpoint word (k : nat) (z : Z) : bytes :=
  match k with
  | O => []
  | S k => word k (z / 256) ++ [byteOf z]
  end.

Lemma length_word k z : length (word k z) = k.
Proof. revert z. induction k as [|k IH]; intros z; [done|]. simpl. rewrite length_app, IH. simpl. lia. Qed.

Lemma uint32_word k z : 0 ≤ z < 256 ^ Z.of_nat k → uint32 (word k z) = z.
Proof.
  unfold uint32. revert z. induction k as [|k IH]; intros z Hz; [simpl in *; lia|].
  simpl. rewrite foldl_app. simpl. rewrite byteVal_byteOf.
  rewrite Nat2Z.inj_succ, Z.pow_succ_r in Hz by lia.
  rewrite IH; [pose proof (Z.div_mod z 256); lia|].
  split; [apply Z.div_pos; lia|apply Z.div_lt_upper_bound; lia].
Qed.

Fixpoint putString (s : string) : bytes :=
  match s with
  | EmptyString => [x00]
  | String c s => x01 :: Ascii.byte_of_ascii c :: putString s
  end.

Fixpoint getString (bs : bytes) : option (string * bytes) :=
  match bs with
  | x00 :: rest => Some (EmptyString, rest)
  | x01 :: b :: rest =>
      '(s, rest) ← getString rest; Some (String (Ascii.ascii_of_byte b) s, rest)
  | _ => None
  end.

Lemma getString_putString s rest : getString (putString s ++ rest) = Some (s, rest).
Proof.
  induction s as [|c s IH]; [done|]. simpl. rewrite IH. simpl.
  by rewrite Ascii.ascii_of_byte_of_ascii.
Qed.

Definition putEntry (e : LogEntry) : bytes :=
  word 8 (Index e) ++ word 8 (Term e) ++ putString (Operation e) ++ putString (Key e) ++
  putString (Value e).

Definition getEntry (bs : bytes) : option LogEntry :=
  '(op, rest) ← getString (drop 16 bs);
  '(key, rest) ← getString rest;
  '(value, _) ← getString rest;
  Some (mkLogEntry (uint32 (take 8 bs)) (uint32 (take 8 (drop 8 bs))) op key value).

Lemma length_putEntry_noop i t :
  length (putEntry (mkLogEntry i t NoopOperation "" "")) = 19%nat.
Proof. unfold putEntry. by rewrite !length_app, !length_word. Qed.

#[export, program] Instance words_codec : EntryCodec := {|
  marshalEntry := putEntry;
  unmarshalEntry := getEntry;
  exactEntry e := is_u64 (Index e) ∧ is_u64 (Term e);
|}.
Next Obligation.
  intros [i t op key value] [Hi Ht]. unfold is_u64, getEntry, putEntry in *.
  cbn [Index Term Operation Key Value] in *.
  rewrite (take_app_length' (word 8 i)), uint32_word by (rewrite ?length_word; done || lia).
  assert (∀ tl, drop 8 (word 8 i ++ tl) = tl) as Hd
    by (intros tl; apply drop_app_length'; by rewrite length_word).
  assert (∀ tl, drop 16 (word 8 i ++ word 8 t ++ tl) = tl) as Hd2
    by (intros tl; rewrite app_assoc; apply drop_app_length'; by rewrite length_app, !length_word).
  rewrite Hd, Hd2, (take_app_length' (word 8 t)), uint32_word by (rewrite ?length_word; done || lia).
  rewrite getString_putString. cbn. rewrite getString_putString. cbn.
  rewrite <- (app_nil_r (putString value)), getString_putString. done.
Qed.
Next Obligation.
  intros e. unfold lenZ. change (length _) with (length (putEntry e)). unfold putEntry.
  rewrite length_app, length_word. lia.
Qed.
Next Obligation. by intros e [Hi _]. Qed.
Next Obligation. done. Qed.
Next Obligation.
  intros i t _ _. unfold lenZ. change (length _) with
    (length (putEntry (mkLogEntry i t NoopOperation "" ""))).
  rewrite length_putEntry_noop. by vm_compute.
Qed.
