(* ===== verification/FileProps.v ===== *)
(** * What the durable stores promise

    Properties of [FileLogStore], [FileStableStore] and the snapshot
    [FileStore], with their witnesses. *)

From Stdlib Require Import Strings.Byte.
From S2P Require Import Prelude.
From S2P Require Import Fs.
From S2P Require Import Wal.
From S2P Require Import WalFacts.
From S2P Require Import WalProps.
From S2P Require Import Log.
From S2P Require Import MemoryLog.
From S2P Require Import Stores.
From S2P Require Import FileLog.
From S2P Require Import FileLogFacts.
From S2P Require Import FileStable.
From S2P Require Import FileSnapshot.
From S2P Require Import Codecs.

(** ** The two log stores are interchangeable *)

Inductive log_op :=
| OpAppend (es : list LogEntry)
| OpTruncate (i : Z)
| OpCompact (i : Z).

(** One call, and whether it succeeded. *)
Definition run_op {LS} `{LogStore LS} (s : LS) (op : log_op) : LS * bool :=
  let '(s, err) :=
    match op with
    | OpAppend es => log_Append s es
    | OpTruncate i => log_TruncateFrom s i
    | OpCompact i => log_CompactThrough s i
    end in
  (s, bool_decide (err = None)).

Fixpoint run_ops {LS} `{LogStore LS} (s : LS) (ops : list log_op) : LS * list bool :=
  match ops with
  | [] => (s, [])
  | op :: rest =>
      let '(s, ok) := run_op s op in
      let '(s, oks) := run_ops s rest in
      (s, ok :: oks)
  end.

Section Equivalence.
Context `{EntryCodec}.

(** What is appended are valid entries that follow the log and fit a record. *)
Fixpoint permitted (m : memoryLogStore) (ops : list log_op) : Prop :=
  match ops with
  | [] => True
  | op :: rest =>
      match op with
      | OpAppend es =>
          valid_entries es ∧ Forall file_fits es ∧ chained (entries m ++ es)
      | _ => True
      end ∧ permitted (run_op m op).1 rest
  end.

Lemma memory_truncate m f i :
  contiguous f (entries m) →
  if truncateRefused (entries m) i
  then ∃ e, memory_TruncateFrom m i = (m, Some e)
  else memory_TruncateFrom m i =
       (mkMemoryLogStore (filter (λ e, Index e < i) (entries m)), None).
Proof.
  intros Hc. unfold memory_TruncateFrom, truncateRefused.
  destruct (decide (i = 0)) as [Hi|Hi]; [rewrite bool_decide_true by done; by eexists|].
  rewrite bool_decide_false by done. cbn [orb].
  destruct (last (entries m)) as [e|] eqn:Hl.
  - case_decide; [rewrite bool_decide_true by done; by eexists|].
    rewrite bool_decide_false by done. by rewrite (take_truncateOffset f).
  - destruct m as [es]. cbn in *. by apply last_None in Hl as ->.
Qed.

(** One call on a file that holds the memory store's entries. *)
Lemma run_op_same s d m op :
  file_inv (s, d) → file_entries (s, d) = entries m → permitted m [op] →
  ∃ s' d' m' ok, run_op (LS := Store) (s, d) op = ((s', d'), ok) ∧ run_op m op = (m', ok) ∧
    file_inv (s', d') ∧ file_entries (s', d') = entries m'.
Proof.
  intros [Hd (es & Hs)]. rewrite (file_entries_eq s es) by done. intros -> Hp.
  pose proof Hs as [_ _ [f Hc] _]. unfold run_op.
  destruct op as [es'|i|i]; cbn; unfold onDisk.
  - destruct Hp as [(Hv & Hx & Hch) _].
    destruct (append_calm s (entries m) es' d) as (d' & Ha & Hs' & Hd'); [done..|].
    unfold mbind, IO_bind. rewrite Ha. eexists s, d', _, _. split; [done|]. split; [done|].
    by apply file_inv_intro.
  - pose proof (truncate_calm s _ f i d Hs Hd Hc) as Ht.
    pose proof (memory_truncate m f i Hc) as Hm. destruct (truncateRefused _ i).
    + destruct Ht as (e & ->), Hm as (e' & ->). eexists s, d, m, false. split; [done|].
      split; [done|]. by apply file_inv_intro.
    + destruct Ht as (s' & d' & -> & Hs' & Hd'). rewrite Hm.
      eexists s', d', _, _. split; [done|].
    split; [done|]. by apply file_inv_intro.
  - destruct (compact_calm s (entries m) i d) as (s' & d' & -> & Hs' & Hd'); [done..|].
    unfold memory_CompactThrough. rewrite (drop_firstRetained f) by done.
    eexists s', d', _, _. split; [done|].
    split; [done|]. by apply file_inv_intro.
Qed.

(** C24: On a disk that works, and for appends of valid entries that follow the
    log and fit a record, the durable log store is the in-memory one with a
    file: any sequence of such appends, of truncations and of compactions
    succeeds and fails at the same calls on both, and loads the same entries at
    the end.  (The in-memory store does not check what it is given: it also
    takes entries that the file store refuses.) *)
Theorem file_log_equals_memory s m ops :
  file_inv s → file_entries s = entries m → permitted m ops →
  (run_ops s ops).2 = (run_ops m ops).2 ∧
  (log_Load (run_ops s ops).1).2 = (log_Load (run_ops m ops).1).2.
Proof.
  revert s m. induction ops as [|op ops IH]; intros [s d] m Hinv Heq Hp.
  - split; [done|]. cbn [run_ops fst]. destruct (log_Load_live (s, d)) as [s' Hl]; [done|].
    cbn in Hl |- *. rewrite Hl. cbn. by rewrite Heq.
  - destruct Hp as [Hop Hp].
    destruct (run_op_same s d m op) as (s' & d' & m' & ok & Ha & Hb & Hinv' & Heq'); [done..|].
    cbn [run_ops]. rewrite Ha, Hb. rewrite Hb in Hp. cbn in Hp.
    specialize (IH (s', d') m' Hinv' Heq' Hp).
    destruct (run_ops (LS := Store) (s', d') ops) as [s1 o1], (run_ops m' ops) as [m1 o2].
    cbn [fst snd] in *. destruct IH as [-> ->]. done.
Qed.

(** ** Crashes of the log store *)

(** C21: Appending Raft entries is crash-safe end to end: whatever calls fail
    and wherever the process crashes, a node that reopens its log and loads it
    gets the old entries and a prefix of the new ones, all of them if the
    append had returned without error; and the log it gets is again whole. *)
Theorem file_log_crash_recovery s es es' d d' r c fs d1 s2 d2 out :
  stores s es d → valid_entries es' → chained (es ++ es') → Forall file_fits es' →
  file_Append s es' d = (d', r) → image d' c →
  NewFileLogStore (rebooted c fs) = (d1, Some (Ok s2)) →
  file_Load s2 d1 = (d2, Some (Ok out)) →
  (∃ k, out = es ++ take k es') ∧ (r = Some None → out = es ++ es') ∧ stores s2 out d2.
Proof.
  intros Hs Hv' Hc Hx' Ha Him Hnew Hl.
  destruct (file_append_recoverable _ _ _ _ _ _ Hs Hv' Hc Hx' Ha) as (Hva & Hxa & Hrec & Hdone).
  destruct (reload es es' d' c fs d1 s2 d2 out) as (k & -> & Hst); [done..|].
  split_and!; [by exists k| |done]. intros Hok.
  destruct (reload (es ++ es') [] d' c fs d1 s2 d2 (es ++ take k es')) as (k' & Heq & _);
    rewrite ?app_nil_r; try done; [by apply Hdone|by rewrite take_nil, app_nil_r in Heq].
Qed.
End Equivalence.

(** ** The atomically replaced documents *)

Section Stable.
Context `{StateCodec}.

(** What a restarted node loads. *)
Lemma stable_reload o fs d2 found :
  (∀ st0, o = Some st0 → stable_state_ok st0) →
  stableFile_Load (rebooted (encodeState <$> o) fs) = (d2, Some (Ok found)) →
  found = default freshState o ∧ stable_state_ok found.
Proof.
  intros Ho Hl.
  assert (documents (rebooted (encodeState <$> o) fs) (default freshState o)) as Hdoc.
  { destruct o as [st0|]; [|done]. split; [done|]. by apply Ho. }
  pose proof (stableFile_Load_spec False _ _ (settled_wf _ _ (rebooted_settled _ _)) Hdoc
    _ (at_same False (rebooted (encodeState <$> o) fs) (λ H, match H with end))) as Hload.
  rewrite Hl in Hload. destruct Hload as [_ ->]. split; [done|].
  destruct o as [st0|]; [by apply Ho|done].
Qed.

(** What a crash during or after a save leaves at the path. *)
Lemma stable_save_image old d st d' r c :
  settled d old → stableFile_Save st d = (d', r) → image d' c →
  (c = old ∨ c = Some (encodeState st) ∧ stable_state_ok st) ∧
  (r = Some None → c = Some (encodeState st) ∧ stable_state_ok st).
Proof.
  intros Hset Hs Him.
  pose proof (stableFile_Save_spec False d st d (at_same False d (λ H, match H with end))) as Hspec.
  rewrite Hs in Hspec. destruct r as [[e|]|].
  - split; [|done]. destruct Hspec as [_ [[Hok Hi]|Ha]].
    + destruct (settled_interrupted _ _ _ _ _ _ Hset Hi Him); auto.
    + left. by eapply settled_at.
  - destruct Hspec as [Hok Ha].
    assert (c = Some (encodeState st)) as ->
      by (eapply settled_at; [apply replaced_settled|exact Ha|done]). auto.
  - split; [|done]. destruct Hspec as (_ & Hok & Hi).
    destruct (settled_interrupted _ _ _ _ _ _ Hset Hi Him); auto.
Qed.

(** C27: Saving the term, vote and indexes is atomic and durable: a save is
    refused, with no effect, unless it is well formed; whatever else fails and
    wherever it crashes, a restart that can read the file loads the old state
    or the new one, and the new one once [Save] has returned without error. *)
Theorem stable_save_atomic old d st d' r :
  settled d (encodeState <$> old) → (∀ st0, old = Some st0 → stable_state_ok st0) →
  stableFile_Save st d = (d', r) →
  (¬ stable_state_ok st → ∃ e, d' = d ∧ r = Some (Some e)) ∧
  (faults d = [] → stable_state_ok st → r = Some None) ∧
  ∀ c fs d2 found, image d' c → stableFile_Load (rebooted c fs) = (d2, Some (Ok found)) →
    (found = default freshState old ∨ found = st) ∧
    (r = Some None → found = st) ∧ stable_state_ok found.
Proof.
  intros Hset Hold Hs. split_and!.
  - intros Hbad. revert Hs. unfold stableFile_Save, stable_state_ok in *.
    case_decide; [intros [= <- <-]; by eexists|].
    case_decide; [intros [= <- <-]; by eexists|lia].
  - intros Hf Hok.
    pose proof (stableFile_Save_spec (faults d = []) d st d (at_same _ d (λ H, H))) as Hspec.
    rewrite Hs in Hspec. destruct r as [[e|]|]; [|done|]; naive_solver.
  - intros c fs d2 found Him Hl. destruct (stable_save_image _ _ _ _ _ _ Hset Hs Him) as [Hc Hnew].
    assert (c = Some (encodeState st) ∧ stable_state_ok st → found = st ∧ stable_state_ok found)
      as Hst by (intros [-> Hok]; apply (stable_reload (Some st) fs d2); [by intros ? [= <-]|done]).
    destruct Hc as [->|Hc].
    + destruct (stable_reload old fs d2 found) as [? ?]; [done..|].
      split_and!; [by left| |done]. intros Hr. by apply Hst, Hnew.
    + destruct (Hst Hc). by split_and!; [right|..].
Qed.
End Stable.

Section SnapshotFile.
Context `{SnapshotCodec}.

Lemma snapshot_reload o fs d2 found :
  (∀ sn, o = Some sn → Snapshot_Validate sn = None) →
  snapshotFile_Load (rebooted ((λ sn, marshalDisk (diskOf sn)) <$> o) fs) =
    (d2, Some (Ok found)) → found = o.
Proof.
  intros Ho Hl.
  assert (publishes (rebooted ((λ sn, marshalDisk (diskOf sn)) <$> o) fs) o) as Hp.
  { destruct o as [sn|]; [|done]. split; [done|]. by apply Ho. }
  pose proof (snapshotFile_Load_spec False _ _ (settled_wf _ _ (rebooted_settled _ _)) Hp
    _ (at_same False (rebooted _ fs) (λ H, match H with end))) as Hload.
  rewrite Hl in Hload. by destruct Hload.
Qed.

(** C28: Saving a snapshot is atomic and durable, and what is saved is what is
    loaded: an invalid snapshot is refused with no effect; whatever else fails
    and wherever it crashes, a restart that can read the file loads the old
    snapshot (or finds none) or the new one, whole, and the new one once
    [Save] has returned without error. *)
Theorem snapshot_save_atomic old d sn d' r :
  settled d ((λ sn, marshalDisk (diskOf sn)) <$> old) →
  (∀ sn0, old = Some sn0 → Snapshot_Validate sn0 = None) →
  snapshotFile_Save sn d = (d', r) →
  (Snapshot_Validate sn ≠ None → d' = d ∧ r = Some (Snapshot_Validate sn)) ∧
  (faults d = [] → Snapshot_Validate sn = None → r = Some None) ∧
  ∀ c fs d2 found, image d' c → snapshotFile_Load (rebooted c fs) = (d2, Some (Ok found)) →
    (found = old ∨ found = Some sn ∧ Snapshot_Validate sn = None) ∧
    (r = Some None → found = Some sn).
Proof.
  intros Hset Hold Hs. split_and!.
  - revert Hs. unfold snapshotFile_Save. destruct (Snapshot_Validate sn); [|done].
    by intros [= <- <-].
  - intros Hf Hok.
    pose proof (snapshotFile_Save_spec (faults d = []) d sn d (at_same _ d (λ H, H))) as Hspec.
    rewrite Hs in Hspec. destruct r as [[e|]|]; [|done|]; naive_solver.
  - intros c fs d2 found Him Hl.
    pose proof (snapshotFile_Save_spec False d sn d (at_same False d (λ H, match H with end))) as Hspec.
    rewrite Hs in Hspec.
    assert (c = Some (marshalDisk (diskOf sn)) → Snapshot_Validate sn = None → found = Some sn) as Hsn
      by (intros -> Hv; apply (snapshot_reload (Some sn) fs d2); [by intros ? [= <-]|done]).
    assert (c = (λ sn, marshalDisk (diskOf sn)) <$> old → found = old) as Hfold
      by (intros ->; by eapply snapshot_reload).
    destruct r as [[e|]|].
    + split; [|done]. destruct Hspec as [_ [[Hok Hi]|Ha]].
      * destruct (settled_interrupted _ _ _ _ _ _ Hset Hi Him); auto.
      * left. apply Hfold. by eapply settled_at.
    + destruct Hspec as [Hok Ha].
      assert (c = Some (marshalDisk (diskOf sn))) as Hc
        by (eapply settled_at; [apply replaced_settled|exact Ha|done]). auto.
    + split; [|done]. destruct Hspec as (_ & Hok & Hi).
      destruct (settled_interrupted _ _ _ _ _ _ Hset Hi Him); auto.
Qed.

(** C39: Whatever bytes the snapshot file holds, a snapshot is loaded only if it
    is valid, the format version is known and the recorded checksum is that of
    the boundary and data it is loaded with. *)
Theorem snapshot_load_checked bs fs d2 sn :
  snapshotFile_Load (rebooted (Some bs) fs) = (d2, Some (Ok (Some sn))) →
  Snapshot_Validate sn = None ∧
  ∃ disk rest, decodeDisk bs = Ok (disk, rest) ∧ diskEnd rest = EndOfInput ∧
    d_Version disk = formatVersion ∧ d_Checksum disk = checksumFor sn ∧
    (d_LastIncludedIndex disk, d_LastIncludedTerm disk, d_Data disk) =
    (s_LastIncludedIndex sn, s_LastIncludedTerm sn, s_Data sn).
Proof.
  pose proof (readPath_spec False (rebooted (Some bs) fs) "open snapshot %q" "decode snapshot %q"
    (settled_wf _ _ (rebooted_settled (Some bs) fs)) _
    (at_same False (rebooted (Some bs) fs) (λ H, match H with end))) as Hr.
  unfold snapshotFile_Load, checkV, mbind, IO_bind.
  destruct (readPath _ _ _) as [d1 [[o|e]|]]; [|done..]. destruct Hr as [_ ->].
  cbn. destruct (parseSnapshot bs) as [sn'|e] eqn:Hp; [|done]. intros [= _ <-].
  apply parseSnapshot_ok in Hp as (Hv & disk & rest & Hd & He & ->).
  split; [done|]. by exists (diskOf sn'), rest.
Qed.
End SnapshotFile.

(** ** Witnesses *)

Definition e1 : LogEntry := mkLogEntry 1 1 NoopOperation "" "".
Definition e2 : LogEntry := mkLogEntry 2 1 SetOperation "k" "v".
Definition openStore : FileLogStore := mkFileLogStore (mkWAL (Some 0%nat)).
Definition emptyDisk (fs : list outcome) : Disk := rebooted (Some []) fs.

Lemma emptyDisk_stores fs : stores openStore [] (emptyDisk fs).
Proof.
  split; [|constructor|by exists 1|constructor]. split; [constructor|]. by exists 0%nat.
Qed.

Lemma entries_ok : valid_entries [e1; e2] ∧ Forall file_fits [e1; e2] ∧ chained ([] ++ [e1; e2]).
Proof.
  split; [by repeat constructor|]. split; [|by exists 1].
  repeat constructor; vm_compute; (done || discriminate).
Qed.

Lemma file_log_equals_memory_witness :
  let s : Store := (openStore, emptyDisk []) in
  let ops := [OpAppend [e1; e2]; OpTruncate 9; OpTruncate 2; OpCompact 0] in
  (run_ops s ops).2 = [true; false; true; true] ∧ (log_Load (run_ops s ops).1).2 = Ok [e1].
Proof.
  intros s ops.
  destruct (file_log_equals_memory s newMemoryLogStore ops) as [-> ->].
  - apply (file_inv_intro openStore []); [done|apply emptyDisk_stores].
  - apply (file_inv_intro openStore []); [done|apply emptyDisk_stores].
  - split_and!; try done; apply entries_ok.
  - split; vm_compute; reflexivity.
Defined.

(** The process crashes while it writes the second record. *)
Definition tornAppend : Disk * option (option error) :=
  file_Append openStore [e1; e2] (emptyDisk [Done; Done; Done; Crashed 3]).
Definition tornBytes : bytes := take 30 (frames (marshalEntry <$> [e1; e2])).

Lemma tornAppend_eq : tornAppend = (tornAppend.1, None).
Proof. vm_compute. reflexivity. Qed.

Lemma torn_image : image tornAppend.1 (Some tornBytes).
Proof.
  exists (Some 0%nat). split; [by left|].
  do 2 eexists. split; [vm_compute; reflexivity|]. split; [|vm_compute; reflexivity].
  left. split; [apply prefix_nil|]. exists []. vm_compute. reflexivity.
Qed.

Lemma file_log_crash_recovery_witness :
  ∃ d1 s2 d2,
    NewFileLogStore (rebooted (Some tornBytes) []) = (d1, Some (Ok s2)) ∧
    file_Load s2 d1 = (d2, Some (Ok [e1])) ∧ stores s2 [e1] d2.
Proof.
  do 3 eexists. split; [vm_compute; reflexivity|]. split; [vm_compute; reflexivity|].
  eapply (file_log_crash_recovery openStore [] [e1; e2] (emptyDisk [Done; Done; Done; Crashed 3])
    tornAppend.1 None (Some tornBytes) [] _ _ _ [e1] (emptyDisk_stores _)
    (proj1 entries_ok) (proj2 (proj2 entries_ok)) (proj1 (proj2 entries_ok)) tornAppend_eq torn_image);
    [vm_compute; reflexivity|vm_compute; reflexivity].
Defined.

Definition state1 : StableState := mkStableState 3 1 2 1.

(** The crash comes right after the rename. *)
Lemma stable_save_atomic_witness :
  ∃ d', stableFile_Save state1 (rebooted None (replicate 6 Done ++ [Crashed 0])) = (d', None) ∧
  ∀ c fs d2 found, image d' c → stableFile_Load (rebooted c fs) = (d2, Some (Ok found)) →
    found = freshState ∨ found = state1.
Proof.
  eexists. split; [vm_compute; reflexivity|]. intros c fs d2 found Hc Hl.
  eapply (stable_save_atomic None (rebooted None (replicate 6 Done ++ [Crashed 0])) state1 _ None
    (rebooted_settled _ _)); [done| |exact Hc|exact Hl].
  vm_compute. reflexivity.
Defined.

Definition snapshot1 : Snapshot := mkSnapshot 2 1 [x01].

Lemma snapshot_save_atomic_witness :
  ∃ d', snapshotFile_Save snapshot1 (rebooted None []) = (d', Some None) ∧
  ∀ c fs d2 found, image d' c → snapshotFile_Load (rebooted c fs) = (d2, Some (Ok found)) →
    found = Some snapshot1.
Proof.
  eexists. split; [vm_compute; reflexivity|]. intros c fs d2 found Hc Hl.
  eapply (snapshot_save_atomic None (rebooted None []) snapshot1 _ (Some None)
    (rebooted_settled _ _)); [done| |exact Hc|exact Hl|reflexivity].
  vm_compute. reflexivity.
Defined.

Lemma snapshot_load_checked_witness :
  ∃ d2, snapshotFile_Load (rebooted (Some (marshalDisk (diskOf snapshot1))) []) =
          (d2, Some (Ok (Some snapshot1))) ∧ Snapshot_Validate snapshot1 = None.
Proof.
  eexists. split; [vm_compute; reflexivity|].
  eapply (snapshot_load_checked (marshalDisk (diskOf snapshot1)) []). vm_compute. reflexivity.
Defined.
