(* ===== verification/RaftState.v ===== *)
(** * The Raft node: state, messages and log addressing

    The data of [internal/raft/raft.go], its channels, and the helpers that
    translate absolute Raft indexes to offsets of the retained suffix. *)

From S2P Require Import Prelude.
From S2P Require Import Log.
From S2P Require Import Config.
From S2P Require Import Stores.

Inductive State := Follower | Candidate | Leader.

#[export] Instance State_eq_dec : EqDecision State.
Proof. solve_decision. Defined.

Definition UnknownLeader : Z := -1.

Definition ErrNotLeader : error := Sentinel "Raft node is not the leader".
Definition ErrNoApplier : error := Sentinel "Raft node has no state-machine applier".

(** ** Messages *)

Record RequestVoteRequest := mkRequestVote {
  rv_Term : Z;
  rv_CandidateID : Z;
  rv_LastLogIndex : Z;
  rv_LastLogTerm : Z;
}.

Record RequestVoteResponse := mkRequestVoteResponse {
  rvr_Term : Z;
  rvr_VoteGranted : bool;
}.

Record AppendEntriesRequest := mkAppendEntries {
  ae_Term : Z;
  ae_LeaderID : Z;
  ae_PrevLogIndex : Z;
  ae_PrevLogTerm : Z;
  ae_Entries : list LogEntry;
  ae_LeaderCommit : Z;
}.

Record AppendEntriesResponse := mkAppendEntriesResponse {
  aer_Term : Z;
  aer_Success : bool;
}.

Record InstallSnapshotRequest := mkInstallSnapshot {
  is_Term : Z;
  is_LeaderID : Z;
  is_LastIncludedIndex : Z;
  is_LastIncludedTerm : Z;
  is_Data : bytes;
}.

Record InstallSnapshotResponse := mkInstallSnapshotResponse { isr_Term : Z }.

(** ** Client commands and their results *)

Record Command := mkCommand {
  c_Operation : operation;
  c_Key : string;
  c_Value : string;
}.

Definition Command_Validate (c : Command) : option error :=
  if decide (c_Operation c = NoopOperation)
  then Some (Errorf "client command cannot be a Raft NOOP")
  else LogEntry_Validate (mkLogEntry 1 0 (c_Operation c) (c_Key c) (c_Value c)).

Record Result := mkResult {
  r_Index : Z;
  r_Err : option error;
}.

(** A [chan Result] made with capacity one. *)
Record Channel := mkChannel {
  buffered : list Result;
  closed : bool;
}.

Abbreviation chan := nat (only parsing).

(** ** The node

    The mutexes are not fields: a definition below is one critical section of
    [mu], and [Apply] composes the sections that release it.  The network and
    the process's goroutines are outside the record. *)
Record Raft {SS LS SM NS : Type} := mkRaft {
  id : Z;
  peers : list Node;
  stable : SS;
  logStore : LS;
  machine : SM;  (** the state machine [applier] and [snapshotter] act on *)
  applier : bool;  (** whether [applier] is non-nil *)
  snapshotter : bool;  (** whether [snapshotter] is non-nil *)
  snapshotStore : option NS;
  snapshotThreshold : Z;
  electionTimeoutMin : Z;
  electionTimeoutMax : Z;
  heartbeatInterval : Z;
  state : State;
  currentTerm : Z;
  votedFor : Z;
  leaderID : Z;
  log : list LogEntry;
  snapshotMeta : SnapshotMetadata;
  commitIndex : Z;
  lastApplied : Z;
  nextIndex : gmap Z Z;
  matchIndex : gmap Z Z;
  replicating : gmap Z bool;
  pendingResults : gmap Z chan;
  channels : list Channel;  (** every channel made so far, [chan] is a position here *)
  applyErr : option error;
  snapshotErr : option error;
  resetElection : bool;  (** a capacity-one signal channel is full *)
  replicateNow : bool;
  applyNow : bool;
}.
Arguments Raft SS LS SM NS : clear implicits.
Arguments mkRaft {SS LS SM NS}.

#[export] Instance set_stable {SS LS SM NS} : Setter (@stable SS LS SM NS) :=
  λ v r, mkRaft
    (id r) (peers r) v (logStore r) (machine r) (applier r) (snapshotter
    r) (snapshotStore r) (snapshotThreshold r) (electionTimeoutMin r)
    (electionTimeoutMax r) (heartbeatInterval r) (state r) (currentTerm r)
    (votedFor r) (leaderID r) (log r) (snapshotMeta r) (commitIndex r)
    (lastApplied r) (nextIndex r) (matchIndex r) (replicating r)
    (pendingResults r) (channels r) (applyErr r) (snapshotErr r)
    (resetElection r) (replicateNow r) (applyNow r).
#[export] Instance set_logStore {SS LS SM NS} : Setter (@logStore SS LS SM NS) :=
  λ v r, mkRaft
    (id r) (peers r) (stable r) v (machine r) (applier r) (snapshotter r)
    (snapshotStore r) (snapshotThreshold r) (electionTimeoutMin r)
    (electionTimeoutMax r) (heartbeatInterval r) (state r) (currentTerm r)
    (votedFor r) (leaderID r) (log r) (snapshotMeta r) (commitIndex r)
    (lastApplied r) (nextIndex r) (matchIndex r) (replicating r)
    (pendingResults r) (channels r) (applyErr r) (snapshotErr r)
    (resetElection r) (replicateNow r) (applyNow r).
#[export] Instance set_machine {SS LS SM NS} : Setter (@machine SS LS SM NS) :=
  λ v r, mkRaft
    (id r) (peers r) (stable r) (logStore r) v (applier r) (snapshotter r)
    (snapshotStore r) (snapshotThreshold r) (electionTimeoutMin r)
    (electionTimeoutMax r) (heartbeatInterval r) (state r) (currentTerm r)
    (votedFor r) (leaderID r) (log r) (snapshotMeta r) (commitIndex r)
    (lastApplied r) (nextIndex r) (matchIndex r) (replicating r)
    (pendingResults r) (channels r) (applyErr r) (snapshotErr r)
    (resetElection r) (replicateNow r) (applyNow r).
#[export] Instance set_snapshotStore {SS LS SM NS} : Setter (@snapshotStore SS LS SM NS) :=
  λ v r, mkRaft
    (id r) (peers r) (stable r) (logStore r) (machine r) (applier r)
    (snapshotter r) v (snapshotThreshold r) (electionTimeoutMin r)
    (electionTimeoutMax r) (heartbeatInterval r) (state r) (currentTerm r)
    (votedFor r) (leaderID r) (log r) (snapshotMeta r) (commitIndex r)
    (lastApplied r) (nextIndex r) (matchIndex r) (replicating r)
    (pendingResults r) (channels r) (applyErr r) (snapshotErr r)
    (resetElection r) (replicateNow r) (applyNow r).
#[export] Instance set_state {SS LS SM NS} : Setter (@state SS LS SM NS) :=
  λ v r, mkRaft
    (id r) (peers r) (stable r) (logStore r) (machine r) (applier r)
    (snapshotter r) (snapshotStore r) (snapshotThreshold r)
    (electionTimeoutMin r) (electionTimeoutMax r) (heartbeatInterval r) v
    (currentTerm r) (votedFor r) (leaderID r) (log r) (snapshotMeta r)
    (commitIndex r) (lastApplied r) (nextIndex r) (matchIndex r)
    (replicating r) (pendingResults r) (channels r) (applyErr r)
    (snapshotErr r) (resetElection r) (replicateNow r) (applyNow r).
#[export] Instance set_currentTerm {SS LS SM NS} : Setter (@currentTerm SS LS SM NS) :=
  λ v r, mkRaft
    (id r) (peers r) (stable r) (logStore r) (machine r) (applier r)
    (snapshotter r) (snapshotStore r) (snapshotThreshold r)
    (electionTimeoutMin r) (electionTimeoutMax r) (heartbeatInterval r)
    (state r) v (votedFor r) (leaderID r) (log r) (snapshotMeta r)
    (commitIndex r) (lastApplied r) (nextIndex r) (matchIndex r)
    (replicating r) (pendingResults r) (channels r) (applyErr r)
    (snapshotErr r) (resetElection r) (replicateNow r) (applyNow r).
#[export] Instance set_votedFor {SS LS SM NS} : Setter (@votedFor SS LS SM NS) :=
  λ v r, mkRaft
    (id r) (peers r) (stable r) (logStore r) (machine r) (applier r)
    (snapshotter r) (snapshotStore r) (snapshotThreshold r)
    (electionTimeoutMin r) (electionTimeoutMax r) (heartbeatInterval r)
    (state r) (currentTerm r) v (leaderID r) (log r) (snapshotMeta r)
    (commitIndex r) (lastApplied r) (nextIndex r) (matchIndex r)
    (replicating r) (pendingResults r) (channels r) (applyErr r)
    (snapshotErr r) (resetElection r) (replicateNow r) (applyNow r).
#[export] Instance set_leaderID {SS LS SM NS} : Setter (@leaderID SS LS SM NS) :=
  λ v r, mkRaft
    (id r) (peers r) (stable r) (logStore r) (machine r) (applier r)
    (snapshotter r) (snapshotStore r) (snapshotThreshold r)
    (electionTimeoutMin r) (electionTimeoutMax r) (heartbeatInterval r)
    (state r) (currentTerm r) (votedFor r) v (log r) (snapshotMeta r)
    (commitIndex r) (lastApplied r) (nextIndex r) (matchIndex r)
    (replicating r) (pendingResults r) (channels r) (applyErr r)
    (snapshotErr r) (resetElection r) (replicateNow r) (applyNow r).
#[export] Instance set_log {SS LS SM NS} : Setter (@log SS LS SM NS) :=
  λ v r, mkRaft
    (id r) (peers r) (stable r) (logStore r) (machine r) (applier r)
    (snapshotter r) (snapshotStore r) (snapshotThreshold r)
    (electionTimeoutMin r) (electionTimeoutMax r) (heartbeatInterval r)
    (state r) (currentTerm r) (votedFor r) (leaderID r) v (snapshotMeta r)
    (commitIndex r) (lastApplied r) (nextIndex r) (matchIndex r)
    (replicating r) (pendingResults r) (channels r) (applyErr r)
    (snapshotErr r) (resetElection r) (replicateNow r) (applyNow r).
#[export] Instance set_snapshotMeta {SS LS SM NS} : Setter (@snapshotMeta SS LS SM NS) :=
  λ v r, mkRaft
    (id r) (peers r) (stable r) (logStore r) (machine r) (applier r)
    (snapshotter r) (snapshotStore r) (snapshotThreshold r)
    (electionTimeoutMin r) (electionTimeoutMax r) (heartbeatInterval r)
    (state r) (currentTerm r) (votedFor r) (leaderID r) (log r) v
    (commitIndex r) (lastApplied r) (nextIndex r) (matchIndex r)
    (replicating r) (pendingResults r) (channels r) (applyErr r)
    (snapshotErr r) (resetElection r) (replicateNow r) (applyNow r).
#[export] Instance set_commitIndex {SS LS SM NS} : Setter (@commitIndex SS LS SM NS) :=
  λ v r, mkRaft
    (id r) (peers r) (stable r) (logStore r) (machine r) (applier r)
    (snapshotter r) (snapshotStore r) (snapshotThreshold r)
    (electionTimeoutMin r) (electionTimeoutMax r) (heartbeatInterval r)
    (state r) (currentTerm r) (votedFor r) (leaderID r) (log r)
    (snapshotMeta r) v (lastApplied r) (nextIndex r) (matchIndex r)
    (replicating r) (pendingResults r) (channels r) (applyErr r)
    (snapshotErr r) (resetElection r) (replicateNow r) (applyNow r).
#[export] Instance set_lastApplied {SS LS SM NS} : Setter (@lastApplied SS LS SM NS) :=
  λ v r, mkRaft
    (id r) (peers r) (stable r) (logStore r) (machine r) (applier r)
    (snapshotter r) (snapshotStore r) (snapshotThreshold r)
    (electionTimeoutMin r) (electionTimeoutMax r) (heartbeatInterval r)
    (state r) (currentTerm r) (votedFor r) (leaderID r) (log r)
    (snapshotMeta r) (commitIndex r) v (nextIndex r) (matchIndex r)
    (replicating r) (pendingResults r) (channels r) (applyErr r)
    (snapshotErr r) (resetElection r) (replicateNow r) (applyNow r).
#[export] Instance set_nextIndex {SS LS SM NS} : Setter (@nextIndex SS LS SM NS) :=
  λ v r, mkRaft
    (id r) (peers r) (stable r) (logStore r) (machine r) (applier r)
    (snapshotter r) (snapshotStore r) (snapshotThreshold r)
    (electionTimeoutMin r) (electionTimeoutMax r) (heartbeatInterval r)
    (state r) (currentTerm r) (votedFor r) (leaderID r) (log r)
    (snapshotMeta r) (commitIndex r) (lastApplied r) v (matchIndex r)
    (replicating r) (pendingResults r) (channels r) (applyErr r)
    (snapshotErr r) (resetElection r) (replicateNow r) (applyNow r).
#[export] Instance set_matchIndex {SS LS SM NS} : Setter (@matchIndex SS LS SM NS) :=
  λ v r, mkRaft
    (id r) (peers r) (stable r) (logStore r) (machine r) (applier r)
    (snapshotter r) (snapshotStore r) (snapshotThreshold r)
    (electionTimeoutMin r) (electionTimeoutMax r) (heartbeatInterval r)
    (state r) (currentTerm r) (votedFor r) (leaderID r) (log r)
    (snapshotMeta r) (commitIndex r) (lastApplied r) (nextIndex r) v
    (replicating r) (pendingResults r) (channels r) (applyErr r)
    (snapshotErr r) (resetElection r) (replicateNow r) (applyNow r).
#[export] Instance set_replicating {SS LS SM NS} : Setter (@replicating SS LS SM NS) :=
  λ v r, mkRaft
    (id r) (peers r) (stable r) (logStore r) (machine r) (applier r)
    (snapshotter r) (snapshotStore r) (snapshotThreshold r)
    (electionTimeoutMin r) (electionTimeoutMax r) (heartbeatInterval r)
    (state r) (currentTerm r) (votedFor r) (leaderID r) (log r)
    (snapshotMeta r) (commitIndex r) (lastApplied r) (nextIndex r)
    (matchIndex r) v (pendingResults r) (channels r) (applyErr r)
    (snapshotErr r) (resetElection r) (replicateNow r) (applyNow r).
#[export] Instance set_pendingResults {SS LS SM NS} : Setter (@pendingResults SS LS SM NS) :=
  λ v r, mkRaft
    (id r) (peers r) (stable r) (logStore r) (machine r) (applier r)
    (snapshotter r) (snapshotStore r) (snapshotThreshold r)
    (electionTimeoutMin r) (electionTimeoutMax r) (heartbeatInterval r)
    (state r) (currentTerm r) (votedFor r) (leaderID r) (log r)
    (snapshotMeta r) (commitIndex r) (lastApplied r) (nextIndex r)
    (matchIndex r) (replicating r) v (channels r) (applyErr r)
    (snapshotErr r) (resetElection r) (replicateNow r) (applyNow r).
#[export] Instance set_channels {SS LS SM NS} : Setter (@channels SS LS SM NS) :=
  λ v r, mkRaft
    (id r) (peers r) (stable r) (logStore r) (machine r) (applier r)
    (snapshotter r) (snapshotStore r) (snapshotThreshold r)
    (electionTimeoutMin r) (electionTimeoutMax r) (heartbeatInterval r)
    (state r) (currentTerm r) (votedFor r) (leaderID r) (log r)
    (snapshotMeta r) (commitIndex r) (lastApplied r) (nextIndex r)
    (matchIndex r) (replicating r) (pendingResults r) v (applyErr r)
    (snapshotErr r) (resetElection r) (replicateNow r) (applyNow r).
#[export] Instance set_applyErr {SS LS SM NS} : Setter (@applyErr SS LS SM NS) :=
  λ v r, mkRaft
    (id r) (peers r) (stable r) (logStore r) (machine r) (applier r)
    (snapshotter r) (snapshotStore r) (snapshotThreshold r)
    (electionTimeoutMin r) (electionTimeoutMax r) (heartbeatInterval r)
    (state r) (currentTerm r) (votedFor r) (leaderID r) (log r)
    (snapshotMeta r) (commitIndex r) (lastApplied r) (nextIndex r)
    (matchIndex r) (replicating r) (pendingResults r) (channels r) v
    (snapshotErr r) (resetElection r) (replicateNow r) (applyNow r).
#[export] Instance set_snapshotErr {SS LS SM NS} : Setter (@snapshotErr SS LS SM NS) :=
  λ v r, mkRaft
    (id r) (peers r) (stable r) (logStore r) (machine r) (applier r)
    (snapshotter r) (snapshotStore r) (snapshotThreshold r)
    (electionTimeoutMin r) (electionTimeoutMax r) (heartbeatInterval r)
    (state r) (currentTerm r) (votedFor r) (leaderID r) (log r)
    (snapshotMeta r) (commitIndex r) (lastApplied r) (nextIndex r)
    (matchIndex r) (replicating r) (pendingResults r) (channels r)
    (applyErr r) v (resetElection r) (replicateNow r) (applyNow r).
#[export] Instance set_resetElection {SS LS SM NS} : Setter (@resetElection SS LS SM NS) :=
  λ v r, mkRaft
    (id r) (peers r) (stable r) (logStore r) (machine r) (applier r)
    (snapshotter r) (snapshotStore r) (snapshotThreshold r)
    (electionTimeoutMin r) (electionTimeoutMax r) (heartbeatInterval r)
    (state r) (currentTerm r) (votedFor r) (leaderID r) (log r)
    (snapshotMeta r) (commitIndex r) (lastApplied r) (nextIndex r)
    (matchIndex r) (replicating r) (pendingResults r) (channels r)
    (applyErr r) (snapshotErr r) v (replicateNow r) (applyNow r).
#[export] Instance set_replicateNow {SS LS SM NS} : Setter (@replicateNow SS LS SM NS) :=
  λ v r, mkRaft
    (id r) (peers r) (stable r) (logStore r) (machine r) (applier r)
    (snapshotter r) (snapshotStore r) (snapshotThreshold r)
    (electionTimeoutMin r) (electionTimeoutMax r) (heartbeatInterval r)
    (state r) (currentTerm r) (votedFor r) (leaderID r) (log r)
    (snapshotMeta r) (commitIndex r) (lastApplied r) (nextIndex r)
    (matchIndex r) (replicating r) (pendingResults r) (channels r)
    (applyErr r) (snapshotErr r) (resetElection r) v (applyNow r).
#[export] Instance set_applyNow {SS LS SM NS} : Setter (@applyNow SS LS SM NS) :=
  λ v r, mkRaft
    (id r) (peers r) (stable r) (logStore r) (machine r) (applier r)
    (snapshotter r) (snapshotStore r) (snapshotThreshold r)
    (electionTimeoutMin r) (electionTimeoutMax r) (heartbeatInterval r)
    (state r) (currentTerm r) (votedFor r) (leaderID r) (log r)
    (snapshotMeta r) (commitIndex r) (lastApplied r) (nextIndex r)
    (matchIndex r) (replicating r) (pendingResults r) (channels r)
    (applyErr r) (snapshotErr r) (resetElection r) (replicateNow r) v.

(** ** Log addressing *)

Definition lastLogIndexFor (entries : list LogEntry) (snapshotMeta : SnapshotMetadata) : Z :=
  match last entries with
  | None => LastIncludedIndex snapshotMeta
  | Some e => Index e
  end.

(** [func validateLogSuffix]: the loop carries [expectedIndex]. *)
Fixpoint validateLogSuffix_from (expectedIndex : Z) (entries : list LogEntry) :
    option error :=
  match entries with
  | [] => None
  | entry :: rest =>
      match LogEntry_Validate entry with
      | Some err => Some err
      | None =>
          if decide (Index entry ≠ expectedIndex)
          then Some (Errorf "log entry index %d, want %d after snapshot index %d")
          else validateLogSuffix_from (u64 (expectedIndex + 1)) rest
      end
  end.

Definition validateLogSuffix (entries : list LogEntry) (snapshotMeta : SnapshotMetadata) :
    option error :=
  validateLogSuffix_from (u64 (LastIncludedIndex snapshotMeta + 1)) entries.

Section Addressing.
Context {SS LS SM NS : Type}.
Implicit Types r : Raft SS LS SM NS.

Definition firstLogIndexLocked r : Z := u64 (LastIncludedIndex (snapshotMeta r) + 1).

Definition lastLogIndexLocked r : Z := lastLogIndexFor (log r) (snapshotMeta r).

Definition logOffsetLocked r (index : Z) : option Z :=
  if decide (index < firstLogIndexLocked r ∨ lastLogIndexLocked r < index) then None
  else
    let offset := i64 (u64 (index - firstLogIndexLocked r)) in
    if decide (offset < 0 ∨ lenZ (log r) ≤ offset) then None
    else match log r !! Z.to_nat offset with
         | Some e => if decide (Index e ≠ index) then None else Some offset
         | None => None
         end.

Definition entryAtLocked r (index : Z) : option LogEntry :=
  match logOffsetLocked r index with
  | None => None
  | Some offset => log r !! Z.to_nat offset
  end.

Definition termAtLocked r (index : Z) : option Z :=
  if decide (index = LastIncludedIndex (snapshotMeta r))
  then Some (LastIncludedTerm (snapshotMeta r))
  else match entryAtLocked r index with
       | None => None
       | Some entry => Some (Term entry)
       end.

Definition entriesFromLocked r (index : Z) : option (list LogEntry) :=
  if decide (index < firstLogIndexLocked r ∨ u64 (lastLogIndexLocked r + 1) < index)
  then None
  else if decide (index = u64 (lastLogIndexLocked r + 1)) then Some []
  else match logOffsetLocked r index with
       | None => None
       | Some offset => Some (drop (Z.to_nat offset) (log r))
       end.

(** A missing term is Go's zero value. *)
Definition lastLogInfoLocked r : Z * Z :=
  let index := lastLogIndexLocked r in
  (index, default 0 (termAtLocked r index)).

Definition candidateLogIsUpToDateLocked r (candidateIndex candidateTerm : Z) : bool :=
  let '(localIndex, localTerm) := lastLogInfoLocked r in
  if decide (candidateTerm ≠ localTerm) then bool_decide (localTerm < candidateTerm)
  else bool_decide (localIndex ≤ candidateIndex).

Definition matchesPrefixLocked r (index term : Z) : bool :=
  match termAtLocked r index with
  | Some localTerm => bool_decide (localTerm = term)
  | None => false
  end.

Definition majority r : Z := (lenZ (peers r) + 1) / 2 + 1.

(** Reading an absent key of a [map[int]uint64]. *)
Definition readUint (m : gmap Z Z) (k : Z) : Z := default 0 (m !! k).

Definition signalElectionReset r := r <| resetElection := true |>.
Definition signalReplication r := r <| replicateNow := true |>.
Definition signalApply r := r <| applyNow := true |>.
End Addressing.

(** ** The retained suffix as a sequence indexed from the boundary *)

(** The entry of absolute index [i] when [base] entries are compacted. *)
Definition entry_of (base : Z) (es : list LogEntry) (i : Z) : option LogEntry :=
  if decide (base < i) then es !! Z.to_nat (i - base - 1) else None.

Lemma entry_of_Some base es i e :
  entry_of base es i = Some e → base < i ≤ base + lenZ es.
Proof.
  unfold entry_of. case_decide; [|done]. intros Hl%lookup_lt_Some. unfold lenZ. lia.
Qed.

Lemma entry_of_is_Some base es i :
  is_Some (entry_of base es i) ↔ base < i ≤ base + lenZ es.
Proof.
  split; [intros [e He]; by eapply entry_of_Some|]. intros Hi. unfold entry_of.
  rewrite decide_True by lia. apply lookup_lt_is_Some. unfold lenZ in *. lia.
Qed.

Lemma entry_of_None base es i :
  entry_of base es i = None ↔ ¬ (base < i ≤ base + lenZ es).
Proof. rewrite <- entry_of_is_Some, eq_None_not_Some. done. Qed.

Lemma entry_of_app base es fs i :
  entry_of base (es ++ fs) i =
  if decide (i ≤ base + lenZ es) then entry_of base es i
  else entry_of (base + lenZ es) fs i.
Proof.
  unfold entry_of, lenZ. repeat case_decide; try done; try lia.
  - rewrite lookup_app_l by lia. done.
  - rewrite lookup_app_r by lia. f_equal. lia.
Qed.

Lemma entry_of_take base es n i :
  entry_of base (take n es) i =
  if decide (i ≤ base + Z.of_nat n) then entry_of base es i else None.
Proof.
  unfold entry_of. repeat case_decide; try done.
  - by rewrite lookup_take_lt by lia.
  - by rewrite lookup_take_ge by lia.
Qed.

Lemma entry_of_drop base es n i :
  entry_of (base + Z.of_nat n) (drop n es) i =
  if decide (base + Z.of_nat n < i) then entry_of base es i else None.
Proof.
  unfold entry_of. repeat case_decide; try done; try lia.
  rewrite lookup_drop. f_equal. lia.
Qed.

Lemma entry_of_Index base es i e :
  contiguous (base + 1) es → entry_of base es i = Some e → Index e = i.
Proof.
  unfold entry_of. case_decide; [|done]. intros Hc He.
  rewrite (contiguous_lookup _ _ _ _ Hc He). lia.
Qed.

(** ** Well-formed logs

    The retained entries follow the boundary one by one, and every index is
    within reach of the signed offsets the code computes. *)
Record log_wf (es : list LogEntry) (m : SnapshotMetadata) : Prop := {
  wf_base : 0 ≤ LastIncludedIndex m;
  wf_contiguous : contiguous (LastIncludedIndex m + 1) es;
  wf_valid : valid_entries es;
  wf_bound : LastIncludedIndex m + lenZ es < 2 ^ 63;
}.

Lemma lastLogIndexFor_eq es m :
  contiguous (LastIncludedIndex m + 1) es →
  lastLogIndexFor es m = LastIncludedIndex m + lenZ es.
Proof.
  intros Hc. unfold lastLogIndexFor. destruct (last es) eqn:Hl.
  - rewrite (contiguous_last _ _ _ Hc Hl). lia.
  - apply last_None in Hl as ->. rewrite lenZ_nil. lia.
Qed.

(** [validateLogSuffix] accepts exactly the valid entries that follow the
    boundary. *)
Lemma validateLogSuffix_spec es m :
  0 ≤ LastIncludedIndex m → LastIncludedIndex m + lenZ es < 2 ^ 64 - 1 →
  validateLogSuffix es m = None ↔
  valid_entries es ∧ contiguous (LastIncludedIndex m + 1) es.
Proof.
  intros H0 Hb. unfold validateLogSuffix, valid_entries.
  pose proof (lenZ_nonneg es). rewrite u64_small by lia. clear H.
  assert (0 ≤ LastIncludedIndex m + 1) as Hf by lia.
  assert (LastIncludedIndex m + 1 + lenZ es < 2 ^ 64) as Hl by lia.
  clear H0 Hb. revert Hf Hl. generalize (LastIncludedIndex m + 1).
  induction es as [|e es IH]; intros f Hf Hl; simpl.
  { split; [|done]. by split; [apply Forall_nil|]. }
  rewrite Forall_cons. rewrite lenZ_cons in Hl. pose proof (lenZ_nonneg es).
  destruct (LogEntry_Validate e).
  { split; [done|]. by intros [[[=] _] _]. }
  case_decide; [split; [done|]; by intros [_ [? _]]|]. rewrite u64_small, IH by lia. tauto.
Qed.

Section AddressingFacts.
Context {SS LS SM NS : Type}.
Implicit Types r : Raft SS LS SM NS.

Abbreviation base r := (LastIncludedIndex (snapshotMeta r)).

Context r (Hwf : log_wf (log r) (snapshotMeta r)).

Lemma lastLogIndex_eq : lastLogIndexLocked r = base r + lenZ (log r).
Proof using Hwf. apply lastLogIndexFor_eq, Hwf. Qed.

Lemma firstLogIndex_eq : firstLogIndexLocked r = base r + 1.
Proof using Hwf.
  destruct Hwf. pose proof (lenZ_nonneg (log r)). apply u64_small. lia.
Qed.

Lemma logOffset_eq i :
  logOffsetLocked r i =
  if decide (base r < i ≤ base r + lenZ (log r)) then Some (i - base r - 1) else None.
Proof using Hwf.
  destruct Hwf as [H0 Hc _ Hb]. unfold logOffsetLocked.
  rewrite firstLogIndex_eq, lastLogIndex_eq.
  destruct (decide (base r < i ≤ base r + lenZ (log r))) as [Hi|]; [|case_decide; [done|lia]].
  rewrite decide_False by lia. rewrite u64_small by lia. rewrite i64_small by lia.
  rewrite decide_False by lia.
  destruct (proj2 (entry_of_is_Some (base r) (log r) i) Hi) as [e He].
  pose proof (entry_of_Index _ _ _ _ Hc He) as Hie.
  unfold entry_of in He. rewrite decide_True in He by lia.
  replace (i - (base r + 1)) with (i - base r - 1) by lia. rewrite He.
  rewrite decide_False by tauto. f_equal.
Qed.

Lemma entryAt_eq i : entryAtLocked r i = entry_of (base r) (log r) i.
Proof using Hwf.
  unfold entryAtLocked. rewrite logOffset_eq. case_decide.
  - unfold entry_of. by rewrite decide_True by lia.
  - symmetry. by apply entry_of_None.
Qed.

Lemma termAt_eq i :
  termAtLocked r i =
  if decide (i = base r) then Some (LastIncludedTerm (snapshotMeta r))
  else Term <$> entry_of (base r) (log r) i.
Proof using Hwf.
  unfold termAtLocked. rewrite entryAt_eq. case_decide; [done|]. by destruct (entry_of _ _ _).
Qed.

Lemma entriesFrom_eq i :
  entriesFromLocked r i =
  if decide (base r < i ≤ base r + lenZ (log r) + 1)
  then Some (drop (Z.to_nat (i - base r - 1)) (log r)) else None.
Proof using Hwf.
  destruct Hwf as [H0 Hc _ Hb]. unfold entriesFromLocked. pose proof (lenZ_nonneg (log r)).
  rewrite firstLogIndex_eq, lastLogIndex_eq, logOffset_eq, u64_small by lia.
  repeat case_decide; try lia; try done.
  rewrite drop_ge; [done|]. unfold lenZ in *. lia.
Qed.
End AddressingFacts.
