(* ===== verification/RaftElection.v ===== *)
(** * Roles, voting and elections

    The part of [internal/raft/raft.go] that moves a node between follower,
    candidate and leader, and persists each change of term and vote first. *)

From S2P Require Import Prelude.
From S2P Require Import Log.
From S2P Require Import Config.
From S2P Require Import Stores.
From S2P Require Import RaftState.

Section Election.
Context {SS LS SM NS : Type} `{StableStore SS} `{LogStore LS}.
Abbreviation Raft := (Raft SS LS SM NS).
Implicit Types r : Raft.

(** ** Persistence of the election state *)

Definition saveStableValuesLocked r (term votedFor commitIndex lastApplied : Z) :
    Raft * option error :=
  let '(s, err) := stable_Save (stable r) {|
    CurrentTerm := term;
    VotedFor := votedFor;
    CommitIndex := commitIndex;
    LastApplied := lastApplied;
  |} in
  (r <| stable := s |>, err).

Definition saveStableLocked r (term votedFor : Z) : Raft * option error :=
  saveStableValuesLocked r term votedFor (commitIndex r) (lastApplied r).

(** ** Role changes *)

Definition becomeCandidateLocked r : Raft * Fallible Z :=
  let newTerm := u64 (currentTerm r + 1) in
  match saveStableLocked r newTerm (id r) with
  | (r, Some err) => (r, Err err)
  | (r, None) =>
      (r <| currentTerm := newTerm |> <| votedFor := id r |>
         <| state := Candidate |> <| leaderID := UnknownLeader |>, Ok newTerm)
  end.

(** The two maps a new leader makes, one entry per peer. *)
Definition freshProgress (value : Z) (ps : list Node) : gmap Z Z :=
  foldl (λ m peer, <[ID peer := value]> m) ∅ ps.

Definition becomeLeaderLocked r : Raft * option error :=
  let lastLogIndex := (lastLogInfoLocked r).1 in
  let noop := mkLogEntry (u64 (lastLogIndex + 1)) (currentTerm r) NoopOperation "" "" in
  let '(ls, err) := log_Append (logStore r) [noop] in
  let r := r <| logStore := ls |> in
  match err with
  | Some err => (r, Some (Wrapf "persist leader no-op at index %d" err))
  | None =>
      let lastLogIndex := Index noop in
      (r <| log := log r ++ [noop] |> <| state := Leader |> <| leaderID := id r |>
         <| nextIndex := freshProgress (u64 (lastLogIndex + 1)) (peers r) |>
         <| matchIndex := freshProgress 0 (peers r) |>, None)
  end.

Definition becomeFollowerLocked r (term leader : Z) : Raft * option error :=
  if decide (term < currentTerm r) then (r, None)
  else
    let '(r, err) :=
      if decide (currentTerm r < term) then
        match saveStableLocked r term NoVote with
        | (r, Some err) => (r, Some err)
        | (r, None) => (r <| currentTerm := term |> <| votedFor := NoVote |>, None)
        end
      else (r, None) in
    match err with
    | Some err => (r, Some err)
    | None => (r <| state := Follower |> <| leaderID := leader |>, None)
    end.

(** ** Granting votes *)

Definition HandleRequestVote r (req : RequestVoteRequest) : Raft * RequestVoteResponse :=
  let refuse r := (r, mkRequestVoteResponse (currentTerm r) false) in
  if decide (rv_Term req < currentTerm r) then refuse r
  else
    let '(r, err) :=
      if decide (currentTerm r < rv_Term req)
      then becomeFollowerLocked r (rv_Term req) UnknownLeader
      else (r, None) in
    if err then refuse r
    else if decide (votedFor r ≠ NoVote ∧ votedFor r ≠ rv_CandidateID req) then refuse r
    else if negb (candidateLogIsUpToDateLocked r (rv_LastLogIndex req) (rv_LastLogTerm req))
    then refuse r
    else
      let '(r, err) :=
        if decide (votedFor r ≠ rv_CandidateID req) then
          match saveStableLocked r (currentTerm r) (rv_CandidateID req) with
          | (r, Some err) => (r, Some err)
          | (r, None) => (r <| votedFor := rv_CandidateID req |>, None)
          end
        else (r, None) in
      if err then refuse r
      else
        let r := signalElectionReset r in
        (r, mkRequestVoteResponse (currentTerm r) true).

(** ** Running for leader

    [startElection] releases the mutex while the votes are gathered: it is
    [startElection_begin], one [countVote] per response that arrives in
    time, and nothing once it returns. *)

(** What a candidate sends to every peer. *)
Definition voteRequest r (term : Z) : RequestVoteRequest :=
  let '(lastLogIndex, lastLogTerm) := lastLogInfoLocked r in
  mkRequestVote term (id r) lastLogIndex lastLogTerm.

(** [Some (Some req)]: ask for votes; [Some None]: the candidate alone is a
    majority; [None]: the term could not be persisted. *)
Definition startElection_begin r : Raft * option (option RequestVoteRequest) :=
  let '(r, result) := becomeCandidateLocked r in
  match result with
  | Err _ => (r, None)
  | Ok term =>
      let request := voteRequest r term in
      if decide (majority r = 1) then
        let '(r, err) :=
          if decide (state r = Candidate ∧ currentTerm r = term)
          then becomeLeaderLocked r else (r, None) in
        match err with
        | None => (signalReplication r, Some None)
        | Some _ => (r, Some None)
        end
      else (r, Some (Some request))
  end.

(** The body of the loop: [None] when the election is over. *)
Definition countVote r (term votes : Z) (response : RequestVoteResponse) :
    Raft * option Z :=
  if decide (currentTerm r < rvr_Term response)
  then ((becomeFollowerLocked r (rvr_Term response) UnknownLeader).1, None)
  else if decide (state r ≠ Candidate ∨ currentTerm r ≠ term) then (r, None)
  else if decide (rvr_Term response = term ∧ rvr_VoteGranted response = true) then
    let votes := votes + 1 in
    if decide (majority r ≤ votes) then
      match becomeLeaderLocked r with
      | (r, None) => (signalReplication r, None)
      | (r, Some _) => (r, None)
      end
    else (r, Some votes)
  else (r, Some votes).

Fixpoint countVotes r (term votes : Z) (responses : list RequestVoteResponse) : Raft :=
  match responses with
  | [] => r
  | response :: rest =>
      match countVote r term votes response with
      | (r, Some votes) => countVotes r term votes rest
      | (r, None) => r
      end
  end.

(** [startElection] when no other request reaches the node meanwhile:
    [responses] are those that arrive before the wait times out, one per
    peer at most. *)
Definition startElection r (responses : list RequestVoteResponse) : Raft :=
  match startElection_begin r with
  | (r, Some (Some request)) =>
      countVotes r (rv_Term request) 1 (take (length (peers r)) responses)
  | (r, _) => r
  end.

(** ** Proposals *)

Definition Propose r (command : Command) : Raft * Fallible (Z * chan) :=
  match Command_Validate command with
  | Some err => (r, Err (Wrapf "invalid Raft command" err))
  | None =>
      if decide (state r ≠ Leader) then (r, Err ErrNotLeader)
      else if negb (applier r) then (r, Err ErrNoApplier)
      else match applyErr r with
      | Some err => (r, Err (Wrapf "Raft state machine is unavailable" err))
      | None =>
          let lastLogIndex := (lastLogInfoLocked r).1 in
          let entry := mkLogEntry (u64 (lastLogIndex + 1)) (currentTerm r)
                         (c_Operation command) (c_Key command) (c_Value command) in
          let '(ls, err) := log_Append (logStore r) [entry] in
          let r := r <| logStore := ls |> in
          match err with
          | Some err => (r, Err (Wrapf "persist proposed log entry %d" err))
          | None =>
              let result := length (channels r) in
              let r := r <| log := log r ++ [entry] |>
                         <| channels := channels r ++ [mkChannel [] false] |>
                         <| pendingResults := <[Index entry := result]> (pendingResults r) |> in
              (signalReplication r, Ok (Index entry, result))
          end
      end
  end.
End Election.
