(* ===== verification/RaftReplication.v ===== *)
(** * Log replication

    [HandleAppendEntries] and the leader's side of one AppendEntries exchange,
    [internal/raft/raft.go]. *)

From S2P Require Import Prelude.
From S2P Require Import Log.
From S2P Require Import Config.
From S2P Require Import Stores.
From S2P Require Import RaftState.
From S2P Require Import RaftElection.

Section Replication.
Context {SS LS SM NS : Type} `{StableStore SS} `{LogStore LS}.
Abbreviation Raft := (Raft SS LS SM NS).
Implicit Types r : Raft.

(** ** The follower *)

(** The loop of [replicationPlanLocked] at the entry of position [offset];
    the result is [(truncateFrom, entriesToAppend)]. *)
Fixpoint replicationPlan_from r (prevLogIndex offset : Z) (entries : list LogEntry) :
    Fallible (Z * list LogEntry) :=
  match entries with
  | [] => Ok (0, [])
  | entry :: rest =>
      let expectedIndex := u64 (prevLogIndex + offset + 1) in
      match LogEntry_Validate entry with
      | Some err => Err err
      | None =>
          if decide (Index entry ≠ expectedIndex)
          then Err (Errorf "entry index %d does not follow previous index %d")
          else if decide (Index entry ≤ lastLogIndexLocked r) then
            match entryAtLocked r (Index entry) with
            | None => Err (Errorf "entry %d is compacted into the snapshot")
            | Some existing =>
                if decide (existing = entry)
                then replicationPlan_from r prevLogIndex (offset + 1) rest
                else if decide (Term existing = Term entry)
                then Err (Errorf "entry %d has matching term but different command")
                else if decide (Index entry ≤ commitIndex r)
                then Err (Errorf "cannot replace committed entry %d")
                else Ok (Index entry, entry :: rest)
            end
          else if decide (Index entry ≠ u64 (lastLogIndexLocked r + 1))
          then Err (Errorf "entry %d leaves a log gap")
          else Ok (0, entry :: rest)
      end
  end.

Definition replicationPlanLocked r (prevLogIndex : Z) (entries : list LogEntry) :
    Fallible (Z * list LogEntry) :=
  replicationPlan_from r prevLogIndex 0 entries.

(** How AppendEntries and InstallSnapshot react to the sender's term once it
    is not stale: adopt a higher term, or recognise the current leader. *)
Definition recognizeLeader r (term leader : Z) : Raft * option error :=
  if decide (currentTerm r < term) then becomeFollowerLocked r term leader
  else (r <| state := Follower |> <| leaderID := leader |>, None).

(** The durable repair of a conflicting suffix, when the plan has one. *)
Definition truncateConflict r (truncateFrom : Z) : Raft * bool :=
  if decide (truncateFrom ≠ 0) then
    let '(ls, err) := log_TruncateFrom (logStore r) truncateFrom in
    let r := r <| logStore := ls |> in
    if err then (r, false)
    else match logOffsetLocked r truncateFrom with
         | None => (r, false)
         | Some offset => (r <| log := take (Z.to_nat offset) (log r) |>, true)
         end
  else (r, true).

Definition appendMissing r (entriesToAppend : list LogEntry) : Raft * bool :=
  if decide (0 < lenZ entriesToAppend) then
    let '(ls, err) := log_Append (logStore r) entriesToAppend in
    let r := r <| logStore := ls |> in
    if err then (r, false) else (r <| log := log r ++ entriesToAppend |>, true)
  else (r, true).

Definition adoptCommit r (leaderCommit : Z) : Raft * bool :=
  let newCommitIndex := Z.min leaderCommit (lastLogIndexLocked r) in
  if decide (commitIndex r < newCommitIndex) then
    match saveStableValuesLocked r (currentTerm r) (votedFor r) newCommitIndex
            (lastApplied r) with
    | (r, Some _) => (r, false)
    | (r, None) => (signalApply (r <| commitIndex := newCommitIndex |>), true)
    end
  else (r, true).

Definition HandleAppendEntries r (req : AppendEntriesRequest) :
    Raft * AppendEntriesResponse :=
  let reply r success := (r, mkAppendEntriesResponse (currentTerm r) success) in
  if decide (ae_Term req < currentTerm r) then reply r false
  else match recognizeLeader r (ae_Term req) (ae_LeaderID req) with
  | (r, Some _) => reply r false
  | (r, None) =>
      let r := signalElectionReset r in
      if negb (matchesPrefixLocked r (ae_PrevLogIndex req) (ae_PrevLogTerm req))
      then reply r false
      else match replicationPlanLocked r (ae_PrevLogIndex req) (ae_Entries req) with
      | Err _ => reply r false
      | Ok (truncateFrom, entriesToAppend) =>
          match truncateConflict r truncateFrom with
          | (r, false) => reply r false
          | (r, true) =>
              match appendMissing r entriesToAppend with
              | (r, false) => reply r false
              | (r, true) =>
                  let '(r, ok) := adoptCommit r (ae_LeaderCommit req) in
                  reply r ok
              end
          end
      end
  end.

(** ** The leader *)

Definition beginReplication r (peerID : Z) : Raft * bool :=
  if decide (state r ≠ Leader ∨ default false (replicating r !! peerID) = true)
  then (r, false)
  else (r <| replicating := <[peerID := true]> (replicating r) |>, true).

Definition endReplication r (peerID : Z) : Raft :=
  r <| replicating := delete peerID (replicating r) |>.

Definition buildAppendEntries r (peerID : Z) : option AppendEntriesRequest :=
  if decide (state r ≠ Leader) then None
  else match nextIndex r !! peerID with
  | None => None
  | Some next =>
      if decide (next ≤ LastIncludedIndex (snapshotMeta r) ∨
                 u64 (lastLogIndexLocked r + 1) < next) then None
      else
        let previous := u64 (next - 1) in
        match termAtLocked r previous with
        | None => None
        | Some previousTerm =>
            match entriesFromLocked r next with
            | None => None
            | Some entries => Some {|
                ae_Term := currentTerm r;
                ae_LeaderID := id r;
                ae_PrevLogIndex := previous;
                ae_PrevLogTerm := previousTerm;
                ae_Entries := entries;
                ae_LeaderCommit := commitIndex r;
              |}
            end
        end
  end.

(** The leader's own copy and every peer known to hold [index]. *)
Fixpoint countMatched (m : gmap Z Z) (index : Z) (ps : list Node) : Z :=
  match ps with
  | [] => 1
  | peer :: rest =>
      countMatched m index rest + (if decide (index ≤ readUint m (ID peer)) then 1 else 0)
  end.

(** The loop of [advanceCommitIndexLocked], down from [index]; [fuel] bounds
    the iterations left. *)
Fixpoint advanceCommit_from (fuel : nat) r (index : Z) : Raft * bool :=
  match fuel with
  | O => (r, false)
  | S fuel =>
      if decide (commitIndex r < index) then
        if decide (termAtLocked r index = Some (currentTerm r)) then
          if decide (countMatched (matchIndex r) index (peers r) < majority r)
          then advanceCommit_from fuel r (u64 (index - 1))
          else match saveStableValuesLocked r (currentTerm r) (votedFor r) index
                       (lastApplied r) with
               | (r, Some _) => (r, false)
               | (r, None) => (signalApply (r <| commitIndex := index |>), true)
               end
        else advanceCommit_from fuel r (u64 (index - 1))
      else (r, false)
  end.

Definition advanceCommitIndexLocked r : Raft * bool :=
  let last := lastLogIndexLocked r in
  advanceCommit_from (S (Z.to_nat (last - commitIndex r))) r last.

Definition handleAppendEntriesResponse r (peerID : Z) (request : AppendEntriesRequest)
    (response : AppendEntriesResponse) : Raft * bool :=
  if decide (currentTerm r < aer_Term response)
  then ((becomeFollowerLocked r (aer_Term response) UnknownLeader).1, false)
  else if decide (state r ≠ Leader ∨ ae_Term request ≠ currentTerm r ∨
                  aer_Term response ≠ currentTerm r) then (r, false)
  else if negb (aer_Success response) then
    if decide (readUint (nextIndex r) peerID ≤ 1) then (r, false)
    else (r <| nextIndex :=
               <[peerID := u64 (readUint (nextIndex r) peerID - 1)]> (nextIndex r) |>, true)
  else
    let matched := u64 (ae_PrevLogIndex request + lenZ (ae_Entries request)) in
    let r := if decide (readUint (matchIndex r) peerID < matched)
             then r <| matchIndex := <[peerID := matched]> (matchIndex r) |> else r in
    let after := u64 (readUint (matchIndex r) peerID + 1) in
    let r := if decide (readUint (nextIndex r) peerID < after)
             then r <| nextIndex := <[peerID := after]> (nextIndex r) |> else r in
    match advanceCommitIndexLocked r with
    | (r, true) => (signalReplication r, false)
    | (r, false) => (r, false)
    end.
End Replication.
