(* ===== verification/RaftApply.v ===== *)
(** * Applying committed entries

    The apply loop of [internal/raft/raft.go].  It releases the Raft mutex
    while the state machine runs, so one iteration is three atomic sections:
    [fetch] chooses the next committed entry, [execute] runs it on the state
    machine, [complete] persists the checkpoint and answers the client. *)

From S2P Require Import Prelude.
From S2P Require Import Log.
From S2P Require Import Config.
From S2P Require Import Stores.
From S2P Require Import RaftState.
From S2P Require Import RaftElection.

Section Apply.
Context {SS LS SM NS : Type} `{StableStore SS} `{StateMachine SM}.
Abbreviation Raft := (Raft SS LS SM NS).
Implicit Types r : Raft.

(** [result <- …; close(result)] on a channel nobody has written. *)
Definition complete_channel (cs : list Channel) (c : chan) (res : Result) : list Channel :=
  alter (λ ch, mkChannel (buffered ch ++ [res]) true) c cs.

Inductive Fetched :=
| Drained
| Fetch (entry : LogEntry)
| FetchFailed (e : error).

(** The section under [RLock]. *)
Definition applyCommitted_fetch r : Fetched :=
  if decide (commitIndex r ≤ lastApplied r) then Drained
  else match entryAtLocked r (u64 (lastApplied r + 1)) with
  | None => FetchFailed (Errorf "committed log entry %d is absent")
  | Some entry =>
      if decide (Operation entry ≠ NoopOperation ∧ applier r = false)
      then FetchFailed ErrNoApplier
      else Fetch entry
  end.

(** The section under [stateMachineMu], outside [mu]. *)
Definition applyCommitted_execute r (entry : LogEntry) : Raft * option error :=
  if decide (Operation entry ≠ NoopOperation) then
    let '(m, err) := sm_Apply (machine r) entry in
    let r := r <| machine := m |> in
    match err with
    | Some err => (r, Some (Wrapf "apply committed log entry %d" err))
    | None => (r, None)
    end
  else (r, None).

(** The section under [Lock]. *)
Definition applyCommitted_complete r (entry : LogEntry) : Raft * option error :=
  if decide (u64 (lastApplied r + 1) ≠ Index entry)
  then (r, Some (Errorf "apply order changed: last applied %d, entry %d"))
  else match saveStableValuesLocked r (currentTerm r) (votedFor r) (commitIndex r)
               (Index entry) with
  | (r, Some err) => (r, Some (Wrapf "persist last applied index %d" err))
  | (r, None) =>
      let r := r <| lastApplied := Index entry |> in
      match pendingResults r !! Index entry with
      | None => (r, None)
      | Some result =>
          (r <| channels := complete_channel (channels r) result
                              (mkResult (Index entry) None) |>
             <| pendingResults := delete (Index entry) (pendingResults r) |>, None)
      end
  end.

(** One iteration with no other section in between, as a reference: the mutex
    is free between the three, and the runs with other sections there are
    [apply_step] of [Untouched], [loop_step] and the [applyStep] of the cluster.
    [None] while the loop goes on, [Some result] when [applyCommitted]
    returns. *)
Definition applyCommitted_once r : Raft * option (option error) :=
  match applyCommitted_fetch r with
  | Drained => (r, Some None)
  | FetchFailed err => (r, Some (Some err))
  | Fetch entry =>
      match applyCommitted_execute r entry with
      | (r, Some err) => (r, Some (Some err))
      | (r, None) =>
          match applyCommitted_complete r entry with
          | (r, Some err) => (r, Some (Some err))
          | (r, None) => (r, None)
          end
      end
  end.

(** The whole loop undisturbed; [None] when the fuel runs out. *)
Fixpoint applyCommitted (fuel : nat) r : Raft * option (option error) :=
  match fuel with
  | O => (r, None)
  | S fuel =>
      match applyCommitted_once r with
      | (r, Some result) => (r, Some result)
      | (r, None) => applyCommitted fuel r
      end
  end.

Definition recordApplyFailure r (err : error) : Raft :=
  if applyErr r then r
  else
    r <| applyErr := Some err |>
      <| channels :=
           foldr (λ '(index, result) cs,
                    complete_channel cs result (mkResult index (Some err)))
             (channels r) (map_to_list (pendingResults r)) |>
      <| pendingResults := ∅ |>.
End Apply.
