(* ===== verification/RaftSnapshot.v ===== *)
(** * Snapshots and log compaction

    Local snapshots ([maybeSnapshot]), and the two ends of InstallSnapshot,
    [internal/raft/raft.go]. *)

From S2P Require Import Prelude.
From S2P Require Import Log.
From S2P Require Import Config.
From S2P Require Import Stores.
From S2P Require Import RaftState.
From S2P Require Import RaftElection.
From S2P Require Import RaftReplication.

Section Snapshots.
Context {SS LS SM NS : Type}
  `{StableStore SS} `{LogStore LS} `{StateMachine SM} `{SnapshotStore NS}.
Abbreviation Raft := (Raft SS LS SM NS).
Implicit Types r : Raft.

(** [r.snapshotStore.Save]; only called when the store is present. *)
Definition saveSnapshot r (store : NS) (sn : Snapshot) : Raft * option error :=
  let '(store, err) := snap_Save store sn in
  (r <| snapshotStore := Some store |>, err).

(** ** Local snapshots

    [maybeSnapshot] holds [snapshotMu] throughout and [mu] in its first and
    last sections only. *)

Inductive SnapshotChoice :=
| NoSnapshot
| TakeSnapshot (lastIncludedIndex lastIncludedTerm : Z) (store : NS)
| ChoiceFailed (e : error).

(** The section under [RLock]: whether to snapshot, and at which boundary. *)
Definition maybeSnapshot_choose r : SnapshotChoice :=
  match snapshotter r, snapshotStore r with
  | true, Some store =>
      if decide (u64 (lastApplied r - LastIncludedIndex (snapshotMeta r))
                 < snapshotThreshold r)
      then NoSnapshot
      else match termAtLocked r (lastApplied r) with
      | None => ChoiceFailed (Errorf "snapshot boundary entry %d is absent")
      | Some term => TakeSnapshot (lastApplied r) term store
      end
  | _, _ => NoSnapshot
  end.

(** The section under [Lock]: publish the new boundary. *)
Definition maybeSnapshot_publish r (lastIncludedIndex lastIncludedTerm : Z) :
    Raft * option error :=
  if decide (lastApplied r ≠ lastIncludedIndex)
  then (r, Some (Errorf "snapshot application advanced from index %d to %d"))
  else if decide (lastIncludedIndex ≤ LastIncludedIndex (snapshotMeta r)) then (r, None)
  else if decide (commitIndex r < lastIncludedIndex)
  then (r, Some (Errorf "snapshot index %d exceeds commit index %d"))
  else match entriesFromLocked r (u64 (lastIncludedIndex + 1)) with
  | None => (r, Some (Errorf "cannot retain Raft log suffix after snapshot index %d"))
  | Some suffix =>
      let '(ls, err) := log_CompactThrough (logStore r) lastIncludedIndex in
      let r := r <| logStore := ls |> in
      match err with
      | Some err => (r, Some (Wrapf "compact Raft log through snapshot index %d" err))
      | None =>
          (r <| log := suffix |>
             <| snapshotMeta := mkMeta lastIncludedIndex lastIncludedTerm |>, None)
      end
  end.

(** [maybeSnapshot] with no other section in between. *)
Definition maybeSnapshot r : Raft * option error :=
  match maybeSnapshot_choose r with
  | NoSnapshot => (r, None)
  | ChoiceFailed err => (r, Some err)
  | TakeSnapshot lastIncludedIndex lastIncludedTerm store =>
      match sm_Snapshot (machine r) with
      | Err err => (r, Some (Wrapf "serialize state-machine snapshot at index %d" err))
      | Ok data =>
          match saveSnapshot r store
                  (mkSnapshot lastIncludedIndex lastIncludedTerm data) with
          | (r, Some err) => (r, Some (Wrapf "persist snapshot at index %d" err))
          | (r, None) => maybeSnapshot_publish r lastIncludedIndex lastIncludedTerm
          end
      end
  end.

Definition recordSnapshotFailure r (err : error) : Raft := r <| snapshotErr := Some err |>.
Definition clearSnapshotFailure r : Raft := r <| snapshotErr := None |>.

(** ** Installing the leader's snapshot *)

(** The local suffix that survives the install: [None] when the entry at the
    boundary is missing or has another term. *)
Definition retainedSuffix r (req : InstallSnapshotRequest) : option (list LogEntry) :=
  match termAtLocked r (is_LastIncludedIndex req) with
  | Some localTerm =>
      if decide (localTerm = is_LastIncludedTerm req)
      then entriesFromLocked r (u64 (is_LastIncludedIndex req + 1)) else None
  | None => None
  end.

(** The durable log keeps the retained suffix, or nothing. *)
Definition installTrimLog r (req : InstallSnapshotRequest)
    (suffix : option (list LogEntry)) : Raft * option error :=
  match suffix with
  | Some _ =>
      let '(ls, err) := log_CompactThrough (logStore r) (is_LastIncludedIndex req) in
      (r <| logStore := ls |>,
       Wrapf "compact retained log prefix through snapshot index %d" <$> err)
  | None =>
      if decide (0 < lenZ (log r)) then
        let '(ls, err) := log_TruncateFrom (logStore r) (firstLogIndexLocked r) in
        (r <| logStore := ls |>,
         Wrapf "discard conflicting log suffix for snapshot index %d" <$> err)
      else (r, None)
  end.

(** Under [stateMachineMu]. *)
Definition installRestore r (req : InstallSnapshotRequest) : Raft * option error :=
  let '(m, err) := sm_Restore (machine r) (is_Data req) in
  (r <| machine := m |>, Wrapf "restore installed snapshot at index %d" <$> err).

Definition installPublish r (req : InstallSnapshotRequest)
    (suffix : option (list LogEntry)) : Raft * option error :=
  let newCommitIndex := Z.max (commitIndex r) (is_LastIncludedIndex req) in
  let newLastApplied := Z.max (lastApplied r) (is_LastIncludedIndex req) in
  match saveStableValuesLocked r (currentTerm r) (votedFor r) newCommitIndex
          newLastApplied with
  | (r, Some err) => (r, Some (Wrapf "persist installed snapshot metadata" err))
  | (r, None) =>
      let r := r <| log := default [] suffix |>
                 <| snapshotMeta := mkMeta (is_LastIncludedIndex req)
                                      (is_LastIncludedTerm req) |>
                 <| commitIndex := newCommitIndex |>
                 <| lastApplied := newLastApplied |> in
      let r := signalElectionReset r in
      (if decide (lastApplied r < commitIndex r) then signalApply r else r, None)
  end.

(** The install proper, once the request is known to be newer than what the
    node has applied. *)
Definition installSnapshot r (store : NS) (req : InstallSnapshotRequest) :
    Raft * option error :=
  let suffix := retainedSuffix r req in
  match saveSnapshot r store (mkSnapshot (is_LastIncludedIndex req)
                                (is_LastIncludedTerm req) (is_Data req)) with
  | (r, Some err) => (r, Some (Wrapf "persist installed snapshot at index %d" err))
  | (r, None) =>
      match installTrimLog r req suffix with
      | (r, Some err) => (r, Some err)
      | (r, None) =>
          match installRestore r req with
          | (r, Some err) => (r, Some err)
          | (r, None) => installPublish r req suffix
          end
      end
  end.

(** [func (r *Raft) HandleInstallSnapshot]: the response and the RPC error. *)
Definition HandleInstallSnapshot r (req : InstallSnapshotRequest) :
    Raft * (InstallSnapshotResponse * option error) :=
  let response := mkInstallSnapshotResponse (currentTerm r) in
  if decide (is_Term req < currentTerm r) then (r, (response, None))
  else match recognizeLeader r (is_Term req) (is_LeaderID req) with
  | (r, Some err) =>
      (r, (response, Some (Wrapf "persist higher term from InstallSnapshot" err)))
  | (r, None) =>
      let response := mkInstallSnapshotResponse (currentTerm r) in
      match snapshotter r, snapshotStore r with
      | true, Some store =>
          let metadata := mkMeta (is_LastIncludedIndex req) (is_LastIncludedTerm req) in
          match SnapshotMetadata_Validate metadata with
          | Some err => (r, (response, Some (Wrapf "invalid InstallSnapshot metadata" err)))
          | None =>
              if decide (is_Data req = [])
              then (r, (response, Some (Errorf "InstallSnapshot data cannot be empty")))
              else if decide (is_LastIncludedIndex req ≤ lastApplied r)
              then (signalElectionReset r, (response, None))
              else
                let '(r, err) := installSnapshot r store req in
                (r, (response, err))
          end
      | _, _ =>
          (r, (response,
               Some (Errorf "Raft node cannot install a snapshot without snapshot storage")))
      end
  end.

(** ** Sending a snapshot *)

(** The first section under [RLock]: the boundary and term to send, when the
    peer has fallen behind the compacted prefix. *)
Definition snapshotNeeded r (peerID : Z) : option (SnapshotMetadata * Z) :=
  if decide (state r ≠ Leader) then None
  else match nextIndex r !! peerID with
  | None => None
  | Some next =>
      if decide (next ≤ LastIncludedIndex (snapshotMeta r))
      then Some (snapshotMeta r, currentTerm r) else None
  end.

(** The second section under [RLock]. *)
Definition confirmInstall r (peerID : Z) (metadata : SnapshotMetadata) (term : Z)
    (stored : Snapshot) : option InstallSnapshotRequest :=
  if decide (state r ≠ Leader ∨ currentTerm r ≠ term ∨ snapshotMeta r ≠ metadata ∨
             LastIncludedIndex metadata < readUint (nextIndex r) peerID) then None
  else Some {|
    is_Term := term;
    is_LeaderID := id r;
    is_LastIncludedIndex := LastIncludedIndex metadata;
    is_LastIncludedTerm := LastIncludedTerm metadata;
    is_Data := s_Data stored;
  |}.

(** In between, without the mutex: the image at that boundary. *)
Definition loadForInstall r (metadata : SnapshotMetadata) : Raft * Fallible Snapshot :=
  match snapshotStore r with
  | None => (r, Err (Errorf "leader needs a snapshot but has no snapshot store"))
  | Some store =>
      let '(store, loaded) := snap_Load store in
      let r := r <| snapshotStore := Some store |> in
      match loaded with
      | Err err => (r, Err (Wrapf "load snapshot for follower %d" err))
      | Ok None =>
          (r, Err (Errorf "leader needs a snapshot for follower %d but none is durable"))
      | Ok (Some stored) =>
          if decide (s_LastIncludedIndex stored ≠ LastIncludedIndex metadata ∨
                     s_LastIncludedTerm stored ≠ LastIncludedTerm metadata)
          then (r, Err (Errorf "durable snapshot boundary %d/%d differs from Raft boundary %d/%d"))
          else (r, Ok stored)
      end
  end.

(** [buildInstallSnapshot] with no other section in between. *)
Definition buildInstallSnapshot r (peerID : Z) :
    Raft * Fallible (option InstallSnapshotRequest) :=
  match snapshotNeeded r peerID with
  | None => (r, Ok None)
  | Some (metadata, term) =>
      match loadForInstall r metadata with
      | (r, Err err) => (r, Err err)
      | (r, Ok stored) => (r, Ok (confirmInstall r peerID metadata term stored))
      end
  end.

Definition handleInstallSnapshotResponse r (peerID : Z)
    (request : InstallSnapshotRequest) (response : InstallSnapshotResponse) : Raft * bool :=
  if decide (currentTerm r < isr_Term response)
  then ((becomeFollowerLocked r (isr_Term response) UnknownLeader).1, false)
  else if decide (state r ≠ Leader ∨ is_Term request ≠ currentTerm r ∨
                  isr_Term response ≠ currentTerm r) then (r, false)
  else
    (r <| matchIndex := <[peerID := is_LastIncludedIndex request]> (matchIndex r) |>
       <| nextIndex := <[peerID := u64 (is_LastIncludedIndex request + 1)]> (nextIndex r) |>,
     true).
End Snapshots.
