(* ===== verification/RaftRecovery.v ===== *)
(** * Start-up and recovery

    [NewWithSnapshot], [NewWithLog] and the replay of committed entries,
    [internal/raft/raft.go]. *)

From S2P Require Import Prelude.
From S2P Require Import Log.
From S2P Require Import Config.
From S2P Require Import Stores.
From S2P Require Import RaftState.
From S2P Require Import RaftElection.

Section Recovery.
Context {SS LS SM NS : Type}
  `{StableStore SS} `{LogStore LS} `{StateMachine SM} `{SnapshotStore NS}.
Abbreviation Raft := (Raft SS LS SM NS).
Implicit Types r : Raft.

Definition recoverLogAfterSnapshot (ls : LS) (entries : list LogEntry)
    (snapshotMeta : SnapshotMetadata) : LS * option error :=
  match entries with
  | [] => (ls, None)
  | e0 :: _ =>
      let firstIndex := Index e0 in
      let boundary := LastIncludedIndex snapshotMeta in
      if decide (firstIndex = u64 (boundary + 1)) then (ls, None)
      else if decide (u64 (boundary + 1) < firstIndex)
      then (ls, Some (Errorf "log starts at %d, leaving a gap after snapshot index %d"))
      else
        let boundaryOffset := u64 (boundary - firstIndex) in
        let matching :=
          if decide (boundaryOffset < lenZ entries) then
            match entries !! Z.to_nat boundaryOffset with
            | Some e => bool_decide (Index e = boundary ∧
                                     Term e = LastIncludedTerm snapshotMeta)
            | None => false
            end
          else false in
        if matching then log_CompactThrough ls boundary
        else log_TruncateFrom ls firstIndex
  end.

(** The loop that replays entries [lastApplied + 1 … commitIndex]. *)
Fixpoint replayCommitted (fuel : nat) r : Raft * option error :=
  match fuel with
  | O => (r, None)
  | S fuel =>
      if decide (lastApplied r < commitIndex r) then
        match entryAtLocked r (u64 (lastApplied r + 1)) with
        | None => (r, Some (Errorf "committed log entry %d is absent"))
        | Some entry =>
            let '(r, err) :=
              if decide (Operation entry ≠ NoopOperation) then
                if negb (applier r)
                then (r, Some (Errorf "committed log entry %d requires a state-machine applier"))
                else
                  let '(m, err) := sm_Apply (machine r) entry in
                  (r <| machine := m |>, Wrapf "replay committed log entry %d" <$> err)
              else (r, None) in
            match err with
            | Some err => (r, Some err)
            | None =>
                replayCommitted fuel (r <| lastApplied := u64 (lastApplied r + 1) |>)
            end
        end
      else (r, None)
  end.

(** The fresh [Raft] value of the constructor. *)
Definition initialRaft (cfg : Config) (ss : SS) (ls : LS) (m : SM) (applier : bool)
    (snapshotMeta : SnapshotMetadata) (snapshotStore : option NS)
    (persisted : StableState) (entries : list LogEntry) : Raft := {|
  id := ID (Self cfg);
  peers := Peers cfg;
  stable := ss;
  logStore := ls;
  machine := m;
  applier := applier;
  snapshotter := bool_decide (is_Some snapshotStore);
  snapshotStore := snapshotStore;
  snapshotThreshold :=
    if decide (SnapshotThreshold cfg = 0) then DefaultSnapshotThreshold
    else SnapshotThreshold cfg;
  electionTimeoutMin := ElectionTimeoutMin cfg;
  electionTimeoutMax := ElectionTimeoutMax cfg;
  heartbeatInterval := HeartbeatInterval cfg;
  state := Follower;
  currentTerm := CurrentTerm persisted;
  votedFor := VotedFor persisted;
  leaderID := UnknownLeader;
  log := entries;
  RaftState.snapshotMeta := snapshotMeta;
  commitIndex := CommitIndex persisted;
  lastApplied := LastIncludedIndex snapshotMeta;
  nextIndex := ∅;
  matchIndex := ∅;
  replicating := ∅;
  pendingResults := ∅;
  channels := [];
  applyErr := None;
  snapshotErr := None;
  resetElection := false;
  replicateNow := false;
  applyNow := false;
|}.

(** [newWithLogAndSnapshot].  The snapshotter and its store come together,
    so the constructor's check that neither is nil alone cannot fail here. *)
Definition newWithLogAndSnapshot (cfg : Config) (ss : SS) (ls : LS) (m : SM)
    (applier : bool) (snapshotMeta : SnapshotMetadata) (snapshotStore : option NS) :
    Fallible Raft :=
  match Config_Validate cfg with
  | Some err => Err (Wrapf "invalid Raft configuration" err)
  | None =>
  match SnapshotMetadata_Validate snapshotMeta with
  | Some err => Err (Wrapf "invalid Raft snapshot metadata" err)
  | None =>
  match stable_Load ss with
  | (_, Err err) => Err (Wrapf "load Raft stable state" err)
  | (ss, Ok persisted) =>
  match log_Load ls with
  | (_, Err err) => Err (Wrapf "load Raft log" err)
  | (ls, Ok entries) =>
  match validateLogSuffix entries snapshotMeta with
  | Some err => Err (Wrapf "invalid durable Raft log" err)
  | None =>
  if decide (CommitIndex persisted < LastIncludedIndex snapshotMeta ∨
             lastLogIndexFor entries snapshotMeta < CommitIndex persisted)
  then Err (Errorf "commit index %d is outside snapshot/log range %d..%d")
  else if decide (LastApplied persisted < LastIncludedIndex snapshotMeta)
  then Err (Errorf "last applied index %d precedes snapshot index %d")
  else
    let r := initialRaft cfg ss ls m applier snapshotMeta snapshotStore persisted entries in
    match replayCommitted (S (Z.to_nat (commitIndex r - lastApplied r))) r with
    | (_, Some err) => Err err
    | (r, None) =>
        if decide (LastApplied persisted ≠ lastApplied r) then
          match saveStableValuesLocked r (currentTerm r) (votedFor r) (commitIndex r)
                  (lastApplied r) with
          | (_, Some err) => Err (Wrapf "persist recovered last applied index" err)
          | (r, None) => Ok r
          end
        else Ok r
    end
  end end end end end.

Definition NewWithLog (cfg : Config) (ss : SS) (ls : LS) (m : SM) (applier : bool) :
    Fallible Raft :=
  newWithLogAndSnapshot cfg ss ls m applier (mkMeta 0 0) None.

Definition NewWithSnapshot (cfg : Config) (ss : SS) (ls : LS) (m : SM) (applier : bool)
    (store : NS) : Fallible Raft :=
  match snap_Load store with
  | (_, Err err) => Err (Wrapf "load Raft snapshot" err)
  | (store, Ok None) =>
      newWithLogAndSnapshot cfg ss ls m applier (mkMeta 0 0) (Some store)
  | (store, Ok (Some stored)) =>
      let metadata := mkMeta (s_LastIncludedIndex stored) (s_LastIncludedTerm stored) in
      match SnapshotMetadata_Validate metadata with
      | Some err => Err (Wrapf "invalid Raft snapshot metadata" err)
      | None =>
      match stable_Load ss with
      | (_, Err err) => Err (Wrapf "load Raft stable state before snapshot recovery" err)
      | (ss, Ok persisted) =>
      match log_Load ls with
      | (_, Err err) => Err (Wrapf "load Raft log before snapshot recovery" err)
      | (ls, Ok entries) =>
      match recoverLogAfterSnapshot ls entries metadata with
      | (_, Some err) => Err (Wrapf "recover Raft log against snapshot" err)
      | (ls, None) =>
      match sm_Restore m (s_Data stored) with
      | (_, Some err) => Err (Wrapf "restore Raft snapshot at index %d" err)
      | (m, None) =>
          let boundary := LastIncludedIndex metadata in
          let persisted := {|
            CurrentTerm := CurrentTerm persisted;
            VotedFor := VotedFor persisted;
            CommitIndex := Z.max (CommitIndex persisted) boundary;
            LastApplied := Z.max (LastApplied persisted) boundary;
          |} in
          match stable_Save ss persisted with
          | (_, Some err) => Err (Wrapf "persist recovered snapshot boundary" err)
          | (ss, None) =>
              newWithLogAndSnapshot cfg ss ls m applier metadata (Some store)
          end
      end end end end end
  end.
End Recovery.
