(* ===== verification/RaftLoop.v ===== *)
(** * The two goroutines of a node

    [run], [applyLoop] and what they need of [internal/raft/raft.go].  The
    scheduler picks the next event; one turn of a loop is a function. *)

From S2P Require Import Prelude.
From S2P Require Import Log.
From S2P Require Import Config.
From S2P Require Import Stores.
From S2P Require Import RaftState.
From S2P Require Import RaftElection.
From S2P Require Import RaftReplication.
From S2P Require Import RaftApply.
From S2P Require Import RaftSnapshot.

(** ** Timers *)

(** A [time.Timer]: the deadline while it runs, and whether its channel holds
    a tick. *)
Record Timer := mkTimer {
  deadline : option Z;
  ticked : bool;
}.

(** [timer.Stop]: whether it was running.  As of Go 1.23 neither [Stop] nor
    [Reset] leaves a stale tick. *)
Definition timer_Stop (t : Timer) : Timer * bool :=
  (mkTimer None false, bool_decide (is_Some (deadline t))).

Definition timer_Reset (t : Timer) (now duration : Z) : Timer :=
  mkTimer (Some (now + duration)) false.

(** The clock reaches [now]. *)
Definition timer_advance (t : Timer) (now : Z) : Timer :=
  match deadline t with
  | Some d => if decide (d ≤ now) then mkTimer None true else t
  | None => t
  end.

Definition resetTimer (t : Timer) (now duration : Z) : Timer :=
  let '(t, running) := timer_Stop t in
  let t := if running then t else mkTimer (deadline t) false in
  timer_Reset t now duration.

(** ** Starting and stopping *)

(** What [Start] and [Stop] keep: whether [cancel] is set, and the counter of
    the wait group, the goroutines still running. *)
Record Goroutines := mkGoroutines {
  cancel : bool;
  wg : Z;
}.

Definition Raft_Start (g : Goroutines) : Goroutines :=
  if cancel g then g else mkGoroutines true (wg g + 2).

(** The goroutine that called [Done]. *)
Definition goroutine_Done (g : Goroutines) : Goroutines := mkGoroutines (cancel g) (wg g - 1).

(** [Stop] up to [wg.Wait]: whether it waits. *)
Definition Raft_Stop_begin (g : Goroutines) : Goroutines * bool :=
  (mkGoroutines false (wg g), cancel g).

(** [wg.Wait] lets it return. *)
Definition Raft_Stop_returns (g : Goroutines) (waits : bool) : bool :=
  negb waits || bool_decide (wg g = 0).

Section Loops.
Context {SS LS SM NS : Type}
  `{StableStore SS} `{LogStore LS} `{StateMachine SM} `{SnapshotStore NS}.
Abbreviation Raft := (Raft SS LS SM NS).
Implicit Types r : Raft.

(** ** Accessors *)

Definition Raft_State r : State := state r.
Definition Raft_CurrentTerm r : Z := currentTerm r.
Definition Raft_LeaderID r : Z := leaderID r.
Definition Raft_IsLeader r : bool := bool_decide (Raft_State r = Leader).
Definition Raft_CommitIndex r : Z := commitIndex r.
Definition Raft_LastApplied r : Z := lastApplied r.
Definition Raft_SnapshotMetadata r : SnapshotMetadata := snapshotMeta r.
Definition Raft_SnapshotError r : option error := snapshotErr r.

(** ** The event loop *)

(** [rand] is what [rand.Int63n] returns for the bound it is called with. *)
Definition randomElectionTimeout r (rand : Z → Z) : Z :=
  electionTimeoutMin r + rand (electionTimeoutMax r - electionTimeoutMin r).

Inductive Event :=
| StopRequested
| ElectionReset
| ElectionTimeout
| Heartbeat
| ReplicateNow.

(** What a turn starts: an election, in the loop's own goroutine, or one
    replication exchange per peer. *)
Inductive Work :=
| Nothing
| Election (request : option RequestVoteRequest)
| Exchanges (peerIDs : list Z).

Definition replicateAll r : list Z := ID <$> peers r.

(** When [select] can choose an event. *)
Definition enabled r (t : Timer) (event : Event) : bool :=
  match event with
  | StopRequested | Heartbeat => true
  | ElectionReset => resetElection r
  | ElectionTimeout => ticked t
  | ReplicateNow => replicateNow r
  end.

(** One turn: the received signal is consumed; [None] when the loop returns.
    An election begins; [countVote] goes on with it as responses arrive.  [now]
    is the end of the turn, after an election it started is over: the loop
    receives nothing before. *)
Definition run_turn r (t : Timer) (event : Event) (now : Z) (rand : Z → Z) :
    option (Raft * Timer * Work) :=
  match event with
  | StopRequested => None
  | ElectionReset =>
      Some (r <| resetElection := false |>,
            resetTimer t now (randomElectionTimeout r rand), Nothing)
  | ElectionTimeout =>
      let t := mkTimer (deadline t) false in
      if negb (Raft_IsLeader r) then
        let '(r, outcome) := startElection_begin r in
        Some (r, resetTimer t now (randomElectionTimeout r rand), Election (default None outcome))
      else Some (r, resetTimer t now (randomElectionTimeout r rand), Nothing)
  | Heartbeat =>
      if Raft_IsLeader r then Some (r, t, Exchanges (replicateAll r)) else Some (r, t, Nothing)
  | ReplicateNow =>
      let r := r <| replicateNow := false |> in
      if Raft_IsLeader r then Some (r, t, Exchanges (replicateAll r)) else Some (r, t, Nothing)
  end.

(** ** The apply loop *)

(** A turn that received from [applyNow], when no other section runs in
    between; [false]: the loop returns.  [fuel] bounds the entries applied. *)
Definition applyLoop_turn (fuel : nat) r : option (Raft * bool) :=
  let r := r <| applyNow := false |> in
  match applyCommitted fuel r with
  | (_, None) => None
  | (r, Some (Some err)) => Some (recordApplyFailure r err, false)
  | (r, Some None) =>
      match maybeSnapshot r with
      | (r, Some err) => Some (recordSnapshotFailure r err, true)
      | (r, None) => Some (clearSnapshotFailure r, true)
      end
  end.
End Loops.
