(* ===== verification/Transport.v ===== *)
(** * The gRPC transport

    [internal/transport]: Raft's messages as protobuf messages
    ([transport.go]), the cache of client connections and the RPC stubs on
    both sides ([grpc.go]).  gRPC itself is a parameter: whether a connection
    can be made, and what a call on it returns. *)

From S2P Require Import Prelude.
From S2P Require Import Log.
From S2P Require Import Config.
From S2P Require Import Stores.
From S2P Require Import RaftState.
From S2P Require Import RaftElection.
From S2P Require Import RaftReplication.
From S2P Require Import RaftSnapshot.

(** ** The messages of [raft.proto]

    Fields of type [int32] and the open enum [Operation] are integers that the
    conversions keep at 32 bits. *)
Module pb.
Definition OPERATION_UNSPECIFIED : Z := 0.
Definition OPERATION_SET : Z := 1.
Definition OPERATION_DELETE : Z := 2.

Record LogEntry := mkLogEntry {
  Index : Z;
  Term : Z;
  Operation : Z;
  Key : string;
  Value : string;
}.

Record RequestVoteRequest := mkRequestVoteRequest {
  rv_Term : Z;
  rv_CandidateId : Z;
  rv_LastLogIndex : Z;
  rv_LastLogTerm : Z;
}.

Record RequestVoteResponse := mkRequestVoteResponse {
  rvr_Term : Z;
  rvr_VoteGranted : bool;
}.

Record AppendEntriesRequest := mkAppendEntriesRequest {
  ae_Term : Z;
  ae_LeaderId : Z;
  ae_PrevLogIndex : Z;
  ae_PrevLogTerm : Z;
  ae_Entries : list LogEntry;
  ae_LeaderCommit : Z;
}.

Record AppendEntriesResponse := mkAppendEntriesResponse {
  aer_Term : Z;
  aer_Success : bool;
}.

Record InstallSnapshotRequest := mkInstallSnapshotRequest {
  is_Term : Z;
  is_LeaderId : Z;
  is_LastIncludedIndex : Z;
  is_LastIncludedTerm : Z;
  is_Data : bytes;
}.

Record InstallSnapshotResponse := mkInstallSnapshotResponse { isr_Term : Z }.
End pb.

(** ** Conversions *)

Definition operationToProto (operation : string) : Z :=
  if decide (operation = NoopOperation) then pb.OPERATION_UNSPECIFIED
  else if decide (operation = SetOperation) then pb.OPERATION_SET
  else if decide (operation = DeleteOperation) then pb.OPERATION_DELETE
  else pb.OPERATION_UNSPECIFIED.

Definition operationFromProto (operation : Z) : string :=
  if decide (operation = pb.OPERATION_UNSPECIFIED) then NoopOperation
  else if decide (operation = pb.OPERATION_SET) then SetOperation
  else if decide (operation = pb.OPERATION_DELETE) then DeleteOperation
  else "invalid"%string.

Definition logEntryToProto (entry : LogEntry) : pb.LogEntry := {|
  pb.Index := Index entry;
  pb.Term := Term entry;
  pb.Operation := operationToProto (Operation entry);
  pb.Key := Key entry;
  pb.Value := Value entry;
|}.

Definition logEntryFromProto (entry : pb.LogEntry) : LogEntry := {|
  Index := pb.Index entry;
  Term := pb.Term entry;
  Operation := operationFromProto (pb.Operation entry);
  Key := pb.Key entry;
  Value := pb.Value entry;
|}.

Definition requestVoteToProto (request : RequestVoteRequest) : pb.RequestVoteRequest := {|
  pb.rv_Term := rv_Term request;
  pb.rv_CandidateId := i32 (rv_CandidateID request);
  pb.rv_LastLogIndex := rv_LastLogIndex request;
  pb.rv_LastLogTerm := rv_LastLogTerm request;
|}.

Definition requestVoteFromProto (request : pb.RequestVoteRequest) : RequestVoteRequest := {|
  rv_Term := pb.rv_Term request;
  rv_CandidateID := pb.rv_CandidateId request;
  rv_LastLogIndex := pb.rv_LastLogIndex request;
  rv_LastLogTerm := pb.rv_LastLogTerm request;
|}.

Definition requestVoteResponseToProto (response : RequestVoteResponse) :
    pb.RequestVoteResponse :=
  pb.mkRequestVoteResponse (rvr_Term response) (rvr_VoteGranted response).

Definition requestVoteResponseFromProto (response : pb.RequestVoteResponse) :
    RequestVoteResponse :=
  mkRequestVoteResponse (pb.rvr_Term response) (pb.rvr_VoteGranted response).

Definition appendEntriesToProto (request : AppendEntriesRequest) : pb.AppendEntriesRequest := {|
  pb.ae_Term := ae_Term request;
  pb.ae_LeaderId := i32 (ae_LeaderID request);
  pb.ae_PrevLogIndex := ae_PrevLogIndex request;
  pb.ae_PrevLogTerm := ae_PrevLogTerm request;
  pb.ae_Entries := logEntryToProto <$> ae_Entries request;
  pb.ae_LeaderCommit := ae_LeaderCommit request;
|}.

Definition appendEntriesFromProto (request : pb.AppendEntriesRequest) : AppendEntriesRequest := {|
  ae_Term := pb.ae_Term request;
  ae_LeaderID := pb.ae_LeaderId request;
  ae_PrevLogIndex := pb.ae_PrevLogIndex request;
  ae_PrevLogTerm := pb.ae_PrevLogTerm request;
  ae_Entries := logEntryFromProto <$> pb.ae_Entries request;
  ae_LeaderCommit := pb.ae_LeaderCommit request;
|}.

Definition appendEntriesResponseToProto (response : AppendEntriesResponse) :
    pb.AppendEntriesResponse :=
  pb.mkAppendEntriesResponse (aer_Term response) (aer_Success response).

Definition appendEntriesResponseFromProto (response : pb.AppendEntriesResponse) :
    AppendEntriesResponse :=
  mkAppendEntriesResponse (pb.aer_Term response) (pb.aer_Success response).

Definition installSnapshotToProto (request : InstallSnapshotRequest) :
    pb.InstallSnapshotRequest := {|
  pb.is_Term := is_Term request;
  pb.is_LeaderId := i32 (is_LeaderID request);
  pb.is_LastIncludedIndex := is_LastIncludedIndex request;
  pb.is_LastIncludedTerm := is_LastIncludedTerm request;
  pb.is_Data := is_Data request;
|}.

Definition installSnapshotFromProto (request : pb.InstallSnapshotRequest) :
    InstallSnapshotRequest := {|
  is_Term := pb.is_Term request;
  is_LeaderID := pb.is_LeaderId request;
  is_LastIncludedIndex := pb.is_LastIncludedIndex request;
  is_LastIncludedTerm := pb.is_LastIncludedTerm request;
  is_Data := pb.is_Data request;
|}.

Definition installSnapshotResponseToProto (response : InstallSnapshotResponse) :
    pb.InstallSnapshotResponse := pb.mkInstallSnapshotResponse (isr_Term response).

Definition installSnapshotResponseFromProto (response : pb.InstallSnapshotResponse) :
    InstallSnapshotResponse := mkInstallSnapshotResponse (pb.isr_Term response).

(** ** Client connections

    A connection is its number; [opened] says which were made and are open.
    [clients] and [conns] are the two maps of the Go type. *)
Abbreviation conn := nat (only parsing).

Record GRPCTransport := mkTransport {
  clients : gmap string conn;
  conns : gmap string conn;
  opened : list bool;
}.

Definition NewGRPCTransport : GRPCTransport := mkTransport ∅ ∅ [].

(** [client] releases the mutex while it dials: it is a lookup, the creation
    of a connection, and its publication. *)
Definition client_lookup (t : GRPCTransport) (address : string) : option conn :=
  clients t !! address.

(** [grpc.NewClient] succeeded. *)
Definition client_dial (t : GRPCTransport) : GRPCTransport * conn :=
  (mkTransport (clients t) (conns t) (opened t ++ [true]), length (opened t)).

(** [closing] is what closing a duplicate connection returns. *)
Definition client_publish (t : GRPCTransport) (address : string) (c : conn)
    (closing : option error) : GRPCTransport * Fallible conn :=
  match clients t !! address with
  | Some existing =>
      let t := mkTransport (clients t) (conns t) (<[c := false]> (opened t)) in
      match closing with
      | Some err => (t, Err (Wrapf "close duplicate gRPC connection to %s" err))
      | None => (t, Ok existing)
      end
  | None =>
      (mkTransport (<[address := c]> (clients t)) (<[address := c]> (conns t)) (opened t), Ok c)
  end.

(** [client] when no other goroutine runs in between; [dialed] is the error
    of [grpc.NewClient], if any. *)
Definition client (t : GRPCTransport) (address : string) (dialed : option error) :
    GRPCTransport * Fallible conn :=
  match client_lookup t address with
  | Some c => (t, Ok c)
  | None =>
      match dialed with
      | Some err => (t, Err (Wrapf "create gRPC client for peer %s" err))
      | None => let '(t, c) := client_dial t in client_publish t address c None
      end
  end.

(** [Close]: every cached connection is closed, the first error reported. *)
Definition Transport_Close (t : GRPCTransport) (closing : conn → option error) :
    GRPCTransport * option error :=
  let cached := (map_to_list (conns t)).*2 in
  (mkTransport ∅ ∅ (foldr (λ c o, <[c := false]> o) (opened t) cached),
   Wrapf "close gRPC connection to %s" <$> head (omap closing cached)).

(** ** Calls

    [invoke] is the generated stub's call on a connection. *)
Definition remote {Req Resp PReq PResp : Type} (toProto : Req → PReq) (fromProto : PResp → Resp)
    (name : string) (t : GRPCTransport) (peer : Node) (request : Req)
    (dialed : option error) (invoke : conn → PReq → Fallible PResp) :
    GRPCTransport * Fallible Resp :=
  match client t (RaftAddr peer) dialed with
  | (t, Err err) => (t, Err err)
  | (t, Ok c) =>
      match invoke c (toProto request) with
      | Err err => (t, Err (Wrapf name err))
      | Ok response => (t, Ok (fromProto response))
      end
  end.

Definition Transport_RequestVote :=
  remote requestVoteToProto requestVoteResponseFromProto "RequestVote to node %d at %s".
Definition Transport_AppendEntries :=
  remote appendEntriesToProto appendEntriesResponseFromProto "AppendEntries to node %d at %s".
Definition Transport_InstallSnapshot :=
  remote installSnapshotToProto installSnapshotResponseFromProto "InstallSnapshot to node %d at %s".

(** ** The server's side *)
Section Server.
Context {SS LS SM NS : Type}
  `{StableStore SS} `{LogStore LS} `{StateMachine SM} `{SnapshotStore NS}.
Abbreviation Raft := (Raft SS LS SM NS).
Implicit Types r : Raft.

Definition Server_RequestVote r (request : pb.RequestVoteRequest) :
    Raft * Fallible pb.RequestVoteResponse :=
  let '(r, response) := HandleRequestVote r (requestVoteFromProto request) in
  (r, Ok (requestVoteResponseToProto response)).

Definition Server_AppendEntries r (request : pb.AppendEntriesRequest) :
    Raft * Fallible pb.AppendEntriesResponse :=
  let '(r, response) := HandleAppendEntries r (appendEntriesFromProto request) in
  (r, Ok (appendEntriesResponseToProto response)).

Definition Server_InstallSnapshot r (request : pb.InstallSnapshotRequest) :
    Raft * Fallible pb.InstallSnapshotResponse :=
  match HandleInstallSnapshot r (installSnapshotFromProto request) with
  | (r, (_, Some err)) => (r, Err err)
  | (r, (response, None)) => (r, Ok (installSnapshotResponseToProto response))
  end.
End Server.

(** ** Facts about the conversions *)

(** The operations the wire can carry. *)
Definition wire_operation (op : operation) : Prop :=
  op = NoopOperation ∨ op = SetOperation ∨ op = DeleteOperation.

Definition is_i32 (z : Z) : Prop := - 2 ^ 31 ≤ z < 2 ^ 31.

Lemma operation_round_trip op :
  operationFromProto (operationToProto op) = op ↔ wire_operation op.
Proof.
  unfold wire_operation, operationToProto, operationFromProto.
  repeat case_decide; subst; try tauto; try done.
  split; [intros <-; by left|]. intros [->|[->| ->]]; congruence.
Qed.

Lemma valid_wire_operation e : LogEntry_Validate e = None → wire_operation (Operation e).
Proof. unfold LogEntry_Validate, wire_operation. repeat case_decide; naive_solver. Qed.

Lemma logEntry_round_trip e :
  wire_operation (Operation e) → logEntryFromProto (logEntryToProto e) = e.
Proof.
  intros Ho. destruct e as [i t op k v]. unfold logEntryFromProto, logEntryToProto. cbn in *.
  by rewrite (proj2 (operation_round_trip op)).
Qed.

Lemma entries_round_trip es :
  Forall (λ e, wire_operation (Operation e)) es →
  logEntryFromProto <$> (logEntryToProto <$> es) = es.
Proof.
  induction 1 as [|e es He _ IH]; [done|]. rewrite !fmap_cons, IH. by rewrite logEntry_round_trip.
Qed.

(** What the wire carries unchanged. *)
Lemma requestVote_round_trip req :
  is_i32 (rv_CandidateID req) → requestVoteFromProto (requestVoteToProto req) = req.
Proof. destruct req. unfold requestVoteFromProto. cbn. intros Hid. by rewrite i32_small. Qed.

Lemma appendEntries_round_trip req :
  is_i32 (ae_LeaderID req) → valid_entries (ae_Entries req) →
  appendEntriesFromProto (appendEntriesToProto req) = req.
Proof.
  destruct req as [t l p pt es lc]. unfold appendEntriesFromProto. cbn. intros Hid Hv.
  rewrite i32_small, entries_round_trip; [done| |done].
  eapply Forall_impl; [exact Hv|]. apply valid_wire_operation.
Qed.

Lemma installSnapshot_round_trip req :
  is_i32 (is_LeaderID req) → installSnapshotFromProto (installSnapshotToProto req) = req.
Proof. destruct req. unfold installSnapshotFromProto. cbn. intros Hid. by rewrite i32_small. Qed.

(** What the caller is told is what the handler returned. *)
Section Served.
Context {SS LS SM NS : Type}
  `{StableStore SS} `{LogStore LS} `{StateMachine SM} `{SnapshotStore NS}.
Implicit Types r : Raft SS LS SM NS.

Lemma Server_RequestVote_served r req :
  is_i32 (rv_CandidateID req) →
  Server_RequestVote r (requestVoteToProto req) =
    ((HandleRequestVote r req).1, Ok (requestVoteResponseToProto (HandleRequestVote r req).2)) ∧
  requestVoteResponseFromProto (requestVoteResponseToProto (HandleRequestVote r req).2) =
    (HandleRequestVote r req).2.
Proof.
  intros Hid. unfold Server_RequestVote. rewrite requestVote_round_trip by done.
  by destruct (HandleRequestVote r req) as [r' [term granted]].
Qed.

Lemma Server_AppendEntries_served r req :
  is_i32 (ae_LeaderID req) → valid_entries (ae_Entries req) →
  Server_AppendEntries r (appendEntriesToProto req) =
    ((HandleAppendEntries r req).1, Ok (appendEntriesResponseToProto (HandleAppendEntries r req).2)) ∧
  appendEntriesResponseFromProto (appendEntriesResponseToProto (HandleAppendEntries r req).2) =
    (HandleAppendEntries r req).2.
Proof.
  intros Hid Hv. unfold Server_AppendEntries. rewrite appendEntries_round_trip by done.
  by destruct (HandleAppendEntries r req) as [r' [term success]].
Qed.

Lemma Server_InstallSnapshot_served r req r' result :
  is_i32 (is_LeaderID req) → Server_InstallSnapshot r (installSnapshotToProto req) = (r', result) →
  ∃ resp err, HandleInstallSnapshot r req = (r', (resp, err)) ∧
    match err with
    | Some err => result = Err err
    | None => result = Ok (installSnapshotResponseToProto resp) ∧
              installSnapshotResponseFromProto (installSnapshotResponseToProto resp) = resp
    end.
Proof.
  intros Hid. unfold Server_InstallSnapshot. rewrite installSnapshot_round_trip by done.
  destruct (HandleInstallSnapshot r req) as [r1 [[term] [err|]]]; intros [= <- <-];
    by do 2 eexists.
Qed.
End Served.

(** An operation this version does not know decodes to an invalid entry. *)
Lemma unknown_operation e :
  pb.Operation e ∉ [pb.OPERATION_UNSPECIFIED; pb.OPERATION_SET; pb.OPERATION_DELETE] →
  is_Some (LogEntry_Validate (logEntryFromProto e)).
Proof.
  intros Hop. rewrite !not_elem_of_cons in Hop. destruct Hop as (H0 & H1 & H2 & _).
  unfold LogEntry_Validate, logEntryFromProto, operationFromProto. cbn.
  rewrite !(decide_False (P := pb.Operation e = _)) by done.
  case_decide; [by eexists|]. rewrite !decide_False by done. by eexists.
Qed.
