(* ===== verification/NodeProc.v ===== *)
(** * The node process

    [internal/node/node.go]: the Raft node, its stores, the transport and the
    HTTP server put together; [Process] is the source's [Node]. *)

From S2P Require Import Prelude.
From S2P Require Import Fs.
From S2P Require Import Log.
From S2P Require Import FileLog.
From S2P Require Import Config.
From S2P Require Import Stores.
From S2P Require Import FileStable.
From S2P Require Import FileSnapshot.
From S2P Require Import Store.
From S2P Require Import Http.
From S2P Require Import Server.
From S2P Require Import RaftState.
From S2P Require Import RaftElection.
From S2P Require Import RaftReplication.
From S2P Require Import RaftRecovery.
From S2P Require Import RaftLoop.
From S2P Require Import Transport.

Section Process.
Context {SS LS NS : Type} `{StableStore SS} `{LogStore LS} `{MapCodec} `{SnapshotStore NS}.
Abbreviation Raft := (Raft SS LS MemoryStore NS).

(** [raft] owns the log store and the memory store.  [grpc], [listener]:
    whether the gRPC server and its listener are set. *)
Record Process := mkProcess {
  cfg : Config;
  raft : Raft;
  loops : Goroutines;
  transport : GRPCTransport;
  http : Server;
  grpc : bool;
  listener : bool;
  stopped : bool;
}.
Implicit Types n : Process.

Definition with_raft n (r : Raft) : Process :=
  mkProcess (cfg n) r (loops n) (transport n) (http n) (grpc n) (listener n) (stopped n).

(** The process [New] returns around its Raft node. *)
Definition assembled (c : Config) (maxValueLength : Z) (r : Raft) : Process :=
  mkProcess c r (mkGoroutines false 0) NewGRPCTransport
    (NewServer (HTTPAddr (Self c)) true true maxValueLength) false false false.

(** ** The leader a client is sent to *)

Definition Process_LeaderHTTPAddr n : string * bool :=
  let leaderID := Raft_LeaderID (raft n) in
  if decide (leaderID = UnknownLeader) then (""%string, false)
  else if decide (leaderID = ID (Self (cfg n))) then (HTTPAddr (Self (cfg n)), true)
  else match PeerByID (cfg n) leaderID with
  | None => (""%string, false)
  | Some peer => (HTTPAddr peer, true)
  end.

#[export] Instance Process_status : ClusterStatus Process := {|
  status_LeaderID n := Raft_LeaderID (raft n);
  status_CurrentTerm n := Raft_CurrentTerm (raft n);
  status_LeaderHTTPAddr := Process_LeaderHTTPAddr;
|}.

(** The memory store is the one Raft applies to. *)
#[export] Instance Process_store : ReadStore Process := {|
  store_Get n key := Get (machine (raft n)) key;
|}.

(** ** Proposing and waiting *)

(** What happens while a proposal waits: the sections the node runs, the
    error of the context if it is done by then, and which case [select] takes
    when both are ready. *)
Record Wait := mkWait {
  meanwhile : Raft → Raft;
  ctxDone : option error;
  prefersResult : bool;
}.

(** What the receive gives, when it is ready. *)
Definition received (result : option Channel) : option (option error) :=
  match result with
  | Some (mkChannel (applied :: _) _) => Some (r_Err applied)
  | Some (mkChannel [] true) => Some (Some (Errorf "Raft proposal completed without a result"))
  | _ => None
  end.

(** The [select] of [propose].  A receive that never becomes ready leaves the
    context, which has a deadline. *)
Definition select (wait : Wait) (result : option Channel) : option error :=
  match received result, ctxDone wait with
  | None, done => Some (default DeadlineExceeded done)
  | Some err, None => err
  | Some err, Some done => if prefersResult wait then err else Some done
  end.

Definition propose (wait : Wait) n (command : Command) : Process * option error :=
  match Propose (raft n) command with
  | (r, Err err) => (with_raft n r, Some err)
  | (r, Ok (_, result)) =>
      let r := meanwhile wait r in
      (with_raft n r, select wait (channels r !! result))
  end.

Definition Process_ProposeSet (wait : Wait) n (key value : string) : Process * option error :=
  propose wait n (mkCommand SetOperation key value).

Definition Process_ProposeDelete (wait : Wait) n (key : string) : Process * option error :=
  propose wait n (mkCommand DeleteOperation key "").

Definition Process_writes (wait : Wait) : WriteCoordinator Process := {|
  write_IsLeader n := Raft_IsLeader (raft n);
  ProposeSet := Process_ProposeSet wait;
  ProposeDelete := Process_ProposeDelete wait;
  write_LeaderHTTPAddr := Process_LeaderHTTPAddr;
|}.

(** A client's request to this process. *)
Definition request `{ServerCodec} (wait : Wait) n (broken : bool) (r : Request) :
    Process * Response :=
  serve (coordinator := Process_writes wait) (http n) n broken r.

(** ** Starting and stopping *)

(** [listen] is the error of [net.Listen]; whether the HTTP server goes on to
    serve. *)
Definition Process_Start (listen : option error) n : Process * Fallible bool :=
  match listen with
  | Some err => (n, Err (Wrapf "listen for Raft gRPC at %s" err))
  | None =>
      let '(http, serving) := Server_Start (http n) in
      (mkProcess (cfg n) (raft n) (Raft_Start (loops n)) (transport n) http true true (stopped n),
       Ok serving)
  end.

Definition orElse (e e' : option error) : option error :=
  match e with Some _ => e | None => e' end.

(** The body of [stopOnce]; the four errors are those of the listener (but
    [net.ErrClosed]), the HTTP server, the connections and the log. *)
Definition Process_Stop (closeListener shutdown : option error)
    (closing : conn → option error) n : Process * option error :=
  if stopped n then (n, None)
  else
    let stopErr := if listener n then closeListener else None in
    let '(http, err) := Shutdown shutdown (http n) in
    let stopErr := orElse stopErr err in
    let '(t, err) := Transport_Close (transport n) closing in
    let stopErr := orElse stopErr err in
    let '(ls, err) := log_Close (logStore (raft n)) in
    let stopErr := orElse stopErr err in
    (mkProcess (cfg n) (raft n <| logStore := ls |>) (mkGoroutines false 0) t http
       (grpc n) (listener n) true, stopErr).
End Process.

(** ** [New], on its three files *)

Section New.
Context `{EntryCodec} `{StateCodec} `{SnapshotCodec} `{MapCodec}.

Definition FileProcess : Type := Process (SS := FileStableStore) (LS := FileLog.Store) (NS := FileStore).

(** The state machine is fresh; what it held comes from the snapshot and the
    log.  [None]: the process crashes while it opens its log; a later crash is
    the error [Crash] of the store it happens in. *)
Definition New (c : Config) (maxValueLength : Z) (logFile stateFile snapshotFile : Disk) :
    option (Fallible FileProcess) :=
  match Config_Validate c with
  | Some err => Some (Err err)
  | None =>
      match NewFileLogStore logFile with
      | (_, None) => None
      | (_, Some (Err err)) => Some (Err (Wrapf "open Raft log" err))
      | (d, Some (Ok logStore)) =>
          Some match NewWithSnapshot c (mkFileStableStore stateFile) (logStore, d)
                       (NewMemoryStore maxValueLength) true (mkFileStore snapshotFile) with
               | Err err => Err err
               | Ok r => Ok (assembled c maxValueLength r)
               end
      end
  end.
End New.
