(* ===== verification/RaftInvariant.v ===== *)
(** * The invariant of a Raft node, and what every operation may change

    [node_ok] ties the memory of a node to its durable stores; [advances] is
    the order in which a node may evolve.  The operations of [RaftElection]
    are shown to respect both here; the others in the [*Facts] files. *)

From S2P Require Import Prelude.
From S2P Require Import Log.
From S2P Require Import Config.
From S2P Require Import Stores.
From S2P Require Import RaftState.
From S2P Require Import RaftElection.

Section Invariant.
Context {SS LS SM NS : Type}
  `{StableStoreLaws SS} `{LogStoreLaws LS} `{StateMachineLaws SM} `{SnapshotStoreLaws NS}.
Abbreviation Raft := (Raft SS LS SM NS).
Implicit Types r : Raft.

Definition base r : Z := LastIncludedIndex (snapshotMeta r).
Definition baseTerm r : Z := LastIncludedTerm (snapshotMeta r).
Definition lastIndex r : Z := base r + lenZ (log r).
Definition entry r (i : Z) : option LogEntry := entry_of (base r) (log r) i.

(** The election state in memory, as a save writes it. *)
Definition election_state r : StableState :=
  mkStableState (currentTerm r) (votedFor r) (commitIndex r) (lastApplied r).

(** The durable election state [d] is the one in memory, [m], or one that
    memory was about to adopt when a save reported an error after taking
    effect. *)
Record stable_ahead (m d : StableState) : Prop := {
  ahead_vote : CurrentTerm m < CurrentTerm d ∨
               CurrentTerm m = CurrentTerm d ∧
               (VotedFor m = NoVote ∨ VotedFor m = VotedFor d);
  ahead_commit : CommitIndex m ≤ CommitIndex d;
  ahead_applied : LastApplied m ≤ LastApplied d;
  ahead_ok : stable_state_ok d;
}.

Lemma stable_ahead_refl d : stable_state_ok d → stable_ahead d d.
Proof. by constructor; [right; split; [|right]|..]. Qed.

(** The durable snapshot is at the boundary of the log or past it. *)
Definition snapshot_covers r : Prop :=
  match snapshotStore r with
  | Some ns =>
      snap_inv ns ∧
      match snap_stored ns with
      | Some sn => base r ≤ s_LastIncludedIndex sn ∧
                   (s_LastIncludedIndex sn = base r → s_LastIncludedTerm sn = baseTerm r)
      | None => base r = 0
      end
  | None => base r = 0
  end.

Record node_ok r : Prop := {
  ok_log : log_wf (log r) (snapshotMeta r);
  ok_meta : SnapshotMetadata_Validate (snapshotMeta r) = None;
  ok_applied : base r ≤ lastApplied r ≤ commitIndex r;
  ok_commit : commitIndex r ≤ lastIndex r;
  ok_term : 0 ≤ currentTerm r < 2 ^ 64;
  ok_id : 0 ≤ id r;
  ok_vote : NoVote ≤ votedFor r;
  ok_stable_inv : stable_inv (stable r);
  ok_stable : stable_ahead (election_state r) (stable_state (stable r));
  ok_log_inv : log_inv (logStore r);
  ok_log_entries : log_entries (logStore r) = log r;
  ok_machine : sm_inv (machine r);
  ok_snapshot : snapshot_covers r;
}.

(** Terms never decrease, a vote is not changed within its term, nothing
    committed is lost or replaced. *)
Record advances r r' : Prop := {
  adv_id : id r' = id r ∧ peers r' = peers r;
  adv_term : currentTerm r ≤ currentTerm r';
  adv_vote : currentTerm r' = currentTerm r → votedFor r ≠ NoVote →
             votedFor r' = votedFor r;
  adv_base : base r ≤ base r';
  adv_commit : commitIndex r ≤ commitIndex r';
  adv_applied : lastApplied r ≤ lastApplied r';
  adv_committed i : base r' < i ≤ commitIndex r → entry r' i = entry r i;
}.

#[export] Instance advances_preorder : PreOrder advances.
Proof.
  split.
  - intros r. by constructor.
  - intros r1 r2 r3 [[??] ????? Hc1] [[??] ????? Hc2].
    constructor; [split; congruence|lia| |lia..|].
    + intros Heq Hv. assert (currentTerm r2 = currentTerm r1) as E by lia.
      rewrite <- (adv_vote0 E Hv). apply adv_vote1; [lia|]. by rewrite (adv_vote0 E Hv).
    + intros i Hi. rewrite Hc2 by lia. apply Hc1. lia.
Qed.

Definition evolves r r' : Prop := node_ok r' ∧ advances r r'.

Lemma evolves_refl r : node_ok r → evolves r r.
Proof. by split. Qed.

Lemma evolves_trans r1 r2 r3 : evolves r1 r2 → evolves r2 r3 → evolves r1 r3.
Proof. intros [? ?] [? ?]. split; [done|]. by transitivity r2. Qed.

Lemma evolves_then r1 r2 r3 : evolves r1 r2 → (node_ok r2 → evolves r2 r3) → evolves r1 r3.
Proof. intros H12 H23. eapply evolves_trans; [done|]. apply H23, H12. Qed.

(** Two nodes that differ in volatile bookkeeping only. *)
Record same_core r r' : Prop := {
  sc_id : id r' = id r; sc_peers : peers r' = peers r;
  sc_stable : stable r' = stable r; sc_logStore : logStore r' = logStore r;
  sc_machine : machine r' = machine r; sc_snapshotStore : snapshotStore r' = snapshotStore r;
  sc_term : currentTerm r' = currentTerm r; sc_vote : votedFor r' = votedFor r;
  sc_log : log r' = log r; sc_meta : snapshotMeta r' = snapshotMeta r;
  sc_commit : commitIndex r' = commitIndex r; sc_applied : lastApplied r' = lastApplied r;
}.

Lemma same_core_evolves r r' : same_core r r' → node_ok r → evolves r r'.
Proof.
  intros [Hi Hp Hs Hl Hm Hn Ht Hv Hlog Hmeta Hc Ha] Hok.
  assert (base r' = base r ∧ baseTerm r' = baseTerm r ∧ lastIndex r' = lastIndex r) as (Hb & Hbt & Hli).
  { unfold lastIndex, base, baseTerm. by rewrite Hmeta, Hlog. }
  split.
  - destruct Hok as [?????????????]. constructor; rewrite ?Hlog, ?Hmeta, ?Hb, ?Ha, ?Hc, ?Hli,
      ?Ht, ?Hv, ?Hi, ?Hs, ?Hl, ?Hm; try done.
    + unfold election_state in *. by rewrite Ht, Hv, Hc, Ha.
    + unfold snapshot_covers in *. by rewrite Hn, Hb, Hbt.
  - constructor; rewrite ?Ht, ?Hv, ?Hc, ?Ha, ?Hi, ?Hp, ?Hb; try done.
    intros i _. unfold entry. by rewrite Hb, Hlog.
Qed.

(** ** Saves *)

Lemma saveStableValues_spec r t v c a r' err :
  stable_inv (stable r) → saveStableValuesLocked r t v c a = (r', err) →
  ∃ s', r' = r <| stable := s' |> ∧ stable_inv s' ∧
    match err with
    | None => stable_state_ok (mkStableState t v c a) ∧ stable_state s' = mkStableState t v c a
    | Some _ => stable_state s' = stable_state (stable r) ∨
                stable_state_ok (mkStableState t v c a) ∧
                stable_state s' = mkStableState t v c a
    end.
Proof.
  unfold saveStableValuesLocked. intros Hinv Heq.
  destruct (stable_Save _ _) as [s' e] eqn:Hs. simplify_eq.
  apply stable_Save_law in Hs as [? ?]; [|done]. by eexists.
Qed.

(** A failed save of a state ahead of memory keeps the invariant. *)
Lemma failed_save_evolves r s' :
  node_ok r → stable_inv s' → stable_ahead (election_state r) (stable_state s') →
  evolves r (r <| stable := s' |>).
Proof.
  intros [] Hinv [????]. split; [|by constructor]. by constructor.
Qed.

(** A failed save of values that, if acceptable, are ahead of memory. *)
Lemma save_ahead_evolves r t v c a r' err :
  node_ok r →
  (stable_state_ok (mkStableState t v c a) →
   stable_ahead (election_state r) (mkStableState t v c a)) →
  saveStableValuesLocked r t v c a = (r', Some err) → evolves r r'.
Proof.
  intros Hok Ha Heq.
  apply saveStableValues_spec in Heq as (s' & -> & Hinv & Hs); [|apply Hok].
  apply failed_save_evolves; [done..|].
  destruct Hs as [->|[? ->]]; [apply Hok|by apply Ha].
Qed.

(** ** Roles *)

Lemma stable_ahead_term r t v :
  node_ok r → currentTerm r < t → NoVote ≤ v →
  stable_ahead (election_state r) (mkStableState t v (commitIndex r) (lastApplied r)).
Proof. intros [] Ht Hv. constructor; simpl; [by left|lia|lia|]. split; simpl; lia. Qed.

(** Adopting a higher term, once it is durable. *)
Lemma adopt_term_evolves r s' t v :
  node_ok r → currentTerm r < t < 2 ^ 64 → NoVote ≤ v → stable_inv s' →
  stable_state s' = mkStableState t v (commitIndex r) (lastApplied r) →
  evolves r (r <| stable := s' |> <| currentTerm := t |> <| votedFor := v |>).
Proof.
  intros [] Ht Hv Hinv Hs. split.
  - constructor; try done; cbn; [lia|].
    rewrite Hs. constructor; simpl; [by right; split; [|right]|lia|lia|]. split; simpl; lia.
  - constructor; cbn; try done; lia.
Qed.

Lemma becomeFollower_evolves r t l r' err :
  node_ok r → t < 2 ^ 64 → becomeFollowerLocked r t l = (r', err) → evolves r r'.
Proof.
  intros Hok Ht. unfold becomeFollowerLocked.
  case_decide; [intros [= <- <-]; by apply evolves_refl|].
  case_decide; [|intros [= <- <-]; by apply same_core_evolves].
  unfold saveStableLocked. destruct (saveStableValuesLocked _ _ _ _ _) as [r1 [e|]] eqn:Hs.
  - intros [= <- <-]. eapply save_ahead_evolves; [done| |done].
    intros _. apply stable_ahead_term; [done|lia|done].
  - intros [= <- <-]. apply saveStableValues_spec in Hs as (s' & -> & Hinv & _ & Hs); [|apply Hok].
    eapply evolves_then; [by apply adopt_term_evolves; try done; lia|].
    intros. by apply same_core_evolves.
Qed.

Lemma becomeCandidate_evolves r r' res :
  node_ok r → currentTerm r < 2 ^ 64 - 1 → becomeCandidateLocked r = (r', res) →
  evolves r r'.
Proof.
  intros Hok Ht. unfold becomeCandidateLocked, saveStableLocked.
  pose proof (ok_term _ Hok). pose proof (ok_id _ Hok).
  rewrite u64_small by lia.
  destruct (saveStableValuesLocked _ _ _ _ _) as [r1 [e|]] eqn:Hs.
  - intros [= <- <-]. eapply save_ahead_evolves; [done| |done].
    intros _. apply stable_ahead_term; [done|lia|unfold NoVote; lia].
  - intros [= <- <-]. apply saveStableValues_spec in Hs as (s' & -> & Hinv & _ & Hs); [|apply Hok].
    eapply evolves_then;
      [apply (adopt_term_evolves _ s' (currentTerm r + 1) (id r)); try done; unfold NoVote; lia|].
    intros. by apply same_core_evolves.
Qed.

(** ** Appending to the log *)

Lemma chained_after r es :
  node_ok r → contiguous (lastIndex r + 1) es → chained (log r ++ es).
Proof.
  intros Hok Hc. exists (base r + 1). rewrite contiguous_app. split; [apply Hok|].
  unfold lastIndex in Hc. by replace (base r + 1 + lenZ (log r)) with (base r + lenZ (log r) + 1) by lia.
Qed.

(** The log and its store grow by the same valid entries. *)
Lemma append_evolves r es ls :
  node_ok r → valid_entries es → contiguous (lastIndex r + 1) es →
  lastIndex r + lenZ es < 2 ^ 63 →
  log_inv ls → log_entries ls = log r ++ es →
  evolves r (r <| logStore := ls |> <| log := log r ++ es |>).
Proof.
  intros Hok Hv Hc Hb Hinv Hes. pose proof (chained_after _ _ Hok Hc) as _.
  destruct Hok as [[] ????????????]. unfold lastIndex in *. pose proof (lenZ_nonneg es). split.
  - constructor; try done; unfold lastIndex, base in *; cbn; [|rewrite lenZ_app; lia].
    constructor; [done| | |rewrite lenZ_app; lia].
    + rewrite contiguous_app. split; [done|].
      by rewrite <- Z.add_assoc, (Z.add_comm 1), Z.add_assoc.
    + by apply Forall_app.
  - constructor; try done. intros i Hi. unfold entry, base in *. cbn in *. rewrite entry_of_app.
    by rewrite decide_True by lia.
Qed.

(** A log store call that failed changed nothing. *)
Lemma logStore_evolves r ls :
  node_ok r → log_inv ls → log_entries ls = log r → evolves r (r <| logStore := ls |>).
Proof. intros [] ??. split; by constructor. Qed.

Lemma log_Append_evolves r es ls err :
  node_ok r → valid_entries es → Forall log_fits es → contiguous (lastIndex r + 1) es →
  lastIndex r + lenZ es < 2 ^ 63 → log_Append (logStore r) es = (ls, err) →
  match err with
  | None => evolves r (r <| logStore := ls |> <| log := log r ++ es |>)
  | Some _ => evolves r (r <| logStore := ls |>)
  end.
Proof.
  intros Hok Hv Hf Hc Hb Heq.
  pose proof (chained_after _ _ Hok Hc) as Hch.
  apply log_Append_law in Heq as [Hinv Hes];
    [|apply Hok|done|done|by rewrite (ok_log_entries _ Hok)].
  rewrite (ok_log_entries _ Hok) in Hes.
  destruct err; [by apply logStore_evolves|by apply append_evolves].
Qed.

(** What a node holds fits its store. *)
Lemma ok_fits r : node_ok r → Forall log_fits (log r).
Proof. intros Hok. rewrite <- (ok_log_entries _ Hok). apply log_fits_entries, Hok. Qed.

Lemma lastLogInfo_index r : node_ok r → (lastLogInfoLocked r).1 = lastIndex r.
Proof. intros []. by apply lastLogIndex_eq. Qed.

Lemma next_index_small r :
  node_ok r → lastIndex r + 1 < 2 ^ 63 → u64 (lastIndex r + 1) = lastIndex r + 1.
Proof.
  intros [[] ????????????] Hb. apply u64_small. unfold lastIndex, base in *.
  pose proof (lenZ_nonneg (log r)). lia.
Qed.

Lemma becomeLeader_evolves r r' err :
  node_ok r → lastIndex r + 1 < 2 ^ 63 → becomeLeaderLocked r = (r', err) → evolves r r'.
Proof.
  intros Hok Hb. unfold becomeLeaderLocked. rewrite lastLogInfo_index by done.
  rewrite next_index_small by done.
  destruct (log_Append _ _) as [ls e] eqn:Ha.
  assert (0 ≤ lastIndex r).
  { destruct Hok as [[] ????????????]. unfold lastIndex, base. pose proof (lenZ_nonneg (log r)). lia. }
  destruct (ok_term _ Hok).
  eapply log_Append_evolves in Ha; [|done| | | |]; cycle 1.
  - constructor; [|done]. unfold LogEntry_Validate. simpl. rewrite decide_False by lia. done.
  - constructor; [|done]. apply log_fits_noop; lia.
  - done.
  - done.
  - destruct e; intros [= <- <-]; [done|].
    eapply evolves_then; [done|]. intros. by apply same_core_evolves.
Qed.
End Invariant.

(** The side goals left after an operation's branch has been followed. *)
Create HintDb evolve discriminated.
#[export] Hint Resolve evolves_refl : evolve.
