(* ===== verification/ElectionFacts.v ===== *)
(** * Voting and elections: what the operations guarantee

    Preservation of the node invariant by the operations of [RaftElection],
    the decision [HandleRequestVote] takes on every branch, one vote per term,
    and what a node needs to become leader. *)

From S2P Require Import Prelude.
From S2P Require Import Log.
From S2P Require Import Config.
From S2P Require Import Stores.
From S2P Require Import RaftState.
From S2P Require Import RaftElection.
From S2P Require Import RaftInvariant.

Section ElectionFacts.
Context {SS LS SM NS : Type}
  `{StableStoreLaws SS} `{LogStoreLaws LS} `{StateMachineLaws SM} `{SnapshotStoreLaws NS}.
Abbreviation Raft := (Raft SS LS SM NS).
Implicit Types r : Raft.

(** ** Votes *)

Lemma vote_free v c : ¬ (v ≠ NoVote ∧ v ≠ c) → v = NoVote ∨ v = c.
Proof. destruct (decide (v = NoVote)), (decide (v = c)); tauto. Qed.

(** Recording a vote for [c] in the current term. *)
Lemma record_vote_evolves r c r' err :
  node_ok r → votedFor r = NoVote →
  saveStableLocked r (currentTerm r) c = (r', err) →
  match err with
  | Some _ => evolves r r'
  | None => evolves r (r' <| votedFor := c |>)
  end.
Proof.
  intros Hok Hv Hs. unfold saveStableLocked in Hs. destruct err.
  - eapply save_ahead_evolves; [done| |done]. intros Hsok.
    constructor; simpl; [by right; split; [|left]|done..].
  - apply saveStableValues_spec in Hs as (s' & -> & Hinv & [Hc Ha] & Hs); [|apply Hok].
    destruct Hok. split; [|by constructor].
    constructor; try done. cbn. rewrite Hs.
    constructor; simpl; [by right; split; [|right]|done..].
Qed.

Lemma HandleRequestVote_evolves r req r' resp :
  node_ok r → rv_Term req < 2 ^ 64 → HandleRequestVote r req = (r', resp) → evolves r r'.
Proof.
  intros Hok Ht. unfold HandleRequestVote.
  case_decide; [intros [= <- <-]; by apply evolves_refl|].
  destruct (if decide _ then _ else _) as [r1 e1] eqn:Hf.
  assert (evolves r r1) as Hev.
  { case_decide; [|simplify_eq; by apply evolves_refl].
    by eapply becomeFollower_evolves in Hf. }
  intros Heq. eapply evolves_then; [done|]. intros Hok1.
  destruct e1; [simplify_eq; by apply evolves_refl|].
  case_decide as Hvote; [simplify_eq; by apply evolves_refl|].
  case_match; [simplify_eq; by apply evolves_refl|].
  case_decide as Hnew.
  - assert (votedFor r1 = NoVote) as Hnv by (by destruct (vote_free _ _ Hvote)).
    destruct (saveStableLocked _ _ _) as [r2 e2] eqn:Hsv.
    eapply record_vote_evolves in Hsv; [|done..].
    destruct e2; simplify_eq; [done|].
    eapply evolves_then; [done|]. intros. by apply same_core_evolves.
  - simplify_eq. by apply same_core_evolves.
Qed.

(** The Raft rule for granting a vote, on the state before the request. *)
Definition may_grant r (req : RequestVoteRequest) : Prop :=
  currentTerm r ≤ rv_Term req ∧
  (currentTerm r < rv_Term req ∨ votedFor r = NoVote ∨ votedFor r = rv_CandidateID req) ∧
  candidateLogIsUpToDateLocked r (rv_LastLogIndex req) (rv_LastLogTerm req) = true.

#[export] Instance may_grant_dec r req : Decision (may_grant r req).
Proof. apply _. Defined.

(** Elections do not touch the log. *)
Lemma becomeFollower_log r t l r' err :
  stable_inv (stable r) → becomeFollowerLocked r t l = (r', err) →
  log r' = log r ∧ snapshotMeta r' = snapshotMeta r ∧ id r' = id r ∧
  commitIndex r' = commitIndex r ∧ lastApplied r' = lastApplied r ∧
  stable_inv (stable r') ∧
  (err = None → t < currentTerm r ∨
     currentTerm r' = t ∧ state r' = Follower ∧ leaderID r' = l ∧
     votedFor r' = (if decide (currentTerm r < t) then NoVote else votedFor r)) ∧
  (is_Some err → currentTerm r < t ∧ currentTerm r' = currentTerm r ∧
     votedFor r' = votedFor r ∧ state r' = state r).
Proof.
  intros Hinv. unfold becomeFollowerLocked.
  case_decide; [intros [= <- <-]; split_and!; try done; auto; by intros []|].
  case_decide; cycle 1.
  { intros [= <- <-]. split_and!; try done. intros _. right. cbn.
    split_and!; (done || lia). }
  unfold saveStableLocked. destruct (saveStableValuesLocked _ _ _ _ _) as [r1 e] eqn:Hs.
  apply saveStableValues_spec in Hs as (s' & -> & Hinv' & _); [|done].
  destruct e; intros [= <- <-]; split_and!; try done. intros _. by right.
Qed.

(** What a granted vote records. *)
Lemma HandleRequestVote_granted r req r' resp :
  node_ok r → rv_Term req < 2 ^ 64 → HandleRequestVote r req = (r', resp) →
  rvr_VoteGranted resp = true →
  may_grant r req ∧ currentTerm r' = rv_Term req ∧ votedFor r' = rv_CandidateID req ∧
  rvr_Term resp = rv_Term req ∧ log r' = log r ∧ snapshotMeta r' = snapshotMeta r.
Proof.
  intros Hok Ht. unfold HandleRequestVote, may_grant.
  case_decide; [by intros [= <- <-]|].
  destruct (if decide _ then _ else _) as [r1 e1] eqn:Hf.
  assert (e1 = None → currentTerm r1 = rv_Term req ∧ log r1 = log r ∧
    snapshotMeta r1 = snapshotMeta r ∧ stable_inv (stable r1) ∧
    votedFor r1 = (if decide (currentTerm r < rv_Term req) then NoVote else votedFor r)) as Hr1.
  { intros ->. pose proof (ok_stable_inv _ Hok) as Hinv. case_decide.
    - pose proof Hf as (Hl & Hm & _ & _ & _ & Hi & Hn & _)%becomeFollower_log; [|done].
      specialize (Hn eq_refl) as [?|(?&?&?&Hv)]; [lia|].
      by rewrite decide_True in Hv by done.
    - simplify_eq. split_and!; [lia|done..]. }
  clear Hf. destruct e1; [by intros [= <- <-]|].
  destruct (Hr1 eq_refl) as (Ht1 & Hl1 & Hm1 & Hinv1 & Hv1). clear Hr1.
  assert (candidateLogIsUpToDateLocked r1 (rv_LastLogIndex req) (rv_LastLogTerm req) =
          candidateLogIsUpToDateLocked r (rv_LastLogIndex req) (rv_LastLogTerm req)) as Hup.
  { unfold candidateLogIsUpToDateLocked, lastLogInfoLocked, termAtLocked, entryAtLocked,
      logOffsetLocked, firstLogIndexLocked, lastLogIndexLocked. by rewrite Hl1, Hm1. }
  destruct (decide (votedFor r1 ≠ NoVote ∧ votedFor r1 ≠ rv_CandidateID req)) as [|Hvote];
    [by intros [= <- <-]|]. rewrite Hup.
  destruct (candidateLogIsUpToDateLocked r _ _) eqn:Hu; [|by intros [= <- <-]].
  assert (currentTerm r < rv_Term req ∨ votedFor r = NoVote ∨ votedFor r = rv_CandidateID req).
  { rewrite Hv1 in Hvote. case_decide; [auto|]. right. by apply vote_free. }
  destruct (decide (votedFor r1 ≠ rv_CandidateID req)) as [Hnew|Hnew].
  - destruct (saveStableLocked _ _ _) as [r2 [e|]] eqn:Hsv; [by intros [= <- <-]|].
    intros [= <- <-] _. unfold saveStableLocked in Hsv.
    apply saveStableValues_spec in Hsv as (s' & -> & _); [|done].
    cbn. by split_and!; try lia.
  - intros [= <- <-] _. cbn. split_and!; try (done || lia).
Qed.

(** The term of the node's last entry, or of the snapshot it ends at. *)
Definition lastTerm r : Z :=
  match last (log r) with Some e => Term e | None => baseTerm r end.

Lemma lastLogInfo_eq r : node_ok r → lastLogInfoLocked r = (lastIndex r, lastTerm r).
Proof.
  intros Hok. pose proof (lastLogInfo_index _ Hok) as Hi. unfold lastLogInfoLocked in *.
  simpl in Hi. rewrite Hi. f_equal. rewrite termAt_eq by apply Hok. fold (base r) (baseTerm r).
  unfold lastTerm, lastIndex. rewrite last_lookup.
  assert (lenZ (log r) = Z.of_nat (length (log r))) as Hlen by done.
  destruct (decide (log r = [])) as [Hnil|Hnn].
  - rewrite Hnil. rewrite decide_True by (rewrite lenZ_nil; lia). done.
  - assert (length (log r) ≠ 0%nat) by (by intros ?%nil_length_inv).
    rewrite decide_False by lia. unfold entry_of. rewrite decide_True by lia.
    replace (Z.to_nat _) with (pred (length (log r))) by lia.
    destruct (log r !! pred _) eqn:He; [done|]. apply lookup_ge_None in He. lia.
Qed.

(** Raft's order on logs: by last term, then by length. *)
Lemma upToDate_spec r i t :
  node_ok r →
  candidateLogIsUpToDateLocked r i t = true ↔
  lastTerm r < t ∨ lastTerm r = t ∧ lastIndex r ≤ i.
Proof.
  intros Hok. unfold candidateLogIsUpToDateLocked. rewrite lastLogInfo_eq by done.
  case_decide; rewrite bool_decide_eq_true; lia.
Qed.

(** On a store that does not fail, the rule decides the vote. *)
Section Live.
Context `{!StableStoreLive SS}.

(** A save of the node's own commit and apply indexes succeeds. *)
Lemma save_live r t v :
  node_ok r → NoVote ≤ v →
  ∃ s', saveStableLocked r t v = (r <| stable := s' |>, None) ∧ stable_inv s' ∧
    stable_state s' = mkStableState t v (commitIndex r) (lastApplied r).
Proof.
  intros Hok Hv. unfold saveStableLocked, saveStableValuesLocked.
  destruct (stable_Save_live (stable r) (mkStableState t v (commitIndex r) (lastApplied r)))
    as [s' Hs]; [apply Hok|split; simpl; [done|apply Hok]|].
  rewrite Hs. exists s'. apply stable_Save_law in Hs as (? & _ & ?); [done|apply Hok].
Qed.

Lemma becomeFollower_live r t l :
  node_ok r → currentTerm r ≤ t →
  ∃ s', becomeFollowerLocked r t l =
    (r <| stable := s' |> <| currentTerm := t |>
       <| votedFor := if decide (currentTerm r < t) then NoVote else votedFor r |>
       <| state := Follower |> <| leaderID := l |>, None).
Proof.
  intros Hok Ht. unfold becomeFollowerLocked. rewrite decide_False by lia. case_decide.
  - destruct (save_live r t NoVote) as (s' & -> & _); [done..|]. by exists s'.
  - exists (stable r). assert (t = currentTerm r) as -> by lia. by destruct r.
Qed.

Lemma HandleRequestVote_live r req r' resp :
  node_ok r → rv_Term req < 2 ^ 64 → NoVote ≤ rv_CandidateID req → may_grant r req →
  HandleRequestVote r req = (r', resp) → rvr_VoteGranted resp = true.
Proof.
  intros Hok Ht Hc (Hle & Hfree & Hup). unfold HandleRequestVote.
  rewrite decide_False by lia.
  destruct (if decide _ then _ else _) as [r1 e1] eqn:Hf.
  assert (e1 = None ∧ node_ok r1 ∧ log r1 = log r ∧ snapshotMeta r1 = snapshotMeta r ∧
    votedFor r1 = (if decide (currentTerm r < rv_Term req) then NoVote else votedFor r))
    as (-> & Hok1 & Hl1 & Hm1 & Hv1).
  { destruct (decide (currentTerm r < rv_Term req)) as [Hlt|]; [|by simplify_eq].
    pose proof Hf as Hev%becomeFollower_evolves; [|done..].
    destruct (becomeFollower_live r (rv_Term req) UnknownLeader) as [s' Heq]; [done..|].
    rewrite Heq in Hf. simplify_eq. cbn. rewrite decide_True by done.
    split_and!; try done. rewrite decide_True in Hev by done. apply Hev. }
  rewrite decide_False; cycle 1.
  { rewrite Hv1. destruct (decide (currentTerm r < rv_Term req)); tauto. }
  replace (candidateLogIsUpToDateLocked r1 _ _) with true; cycle 1.
  { rewrite <- Hup. unfold candidateLogIsUpToDateLocked, lastLogInfoLocked, termAtLocked,
      entryAtLocked, logOffsetLocked, firstLogIndexLocked, lastLogIndexLocked. by rewrite Hl1, Hm1. }
  clear Hv1 Hf. simpl. case_decide; [|by intros [= <- <-]].
  destruct (save_live r1 (currentTerm r1) (rv_CandidateID req)) as (s' & -> & _); [done..|].
  by intros [= <- <-].
Qed.
End Live.

(** ** Candidates and leaders *)

Lemma countVote_evolves r term votes resp r' o :
  node_ok r → rvr_Term resp < 2 ^ 64 → lastIndex r + 1 < 2 ^ 63 →
  countVote r term votes resp = (r', o) → evolves r r'.
Proof.
  intros Hok Ht Hb. unfold countVote.
  case_decide.
  { destruct (becomeFollowerLocked _ _ _) as [r1 e] eqn:Hf. intros [= <- <-].
    by eapply becomeFollower_evolves in Hf. }
  case_decide; [intros [= <- <-]; by apply evolves_refl|].
  case_decide; [|intros [= <- <-]; by apply evolves_refl].
  case_decide; [|intros [= <- <-]; by apply evolves_refl].
  destruct (becomeLeaderLocked r) as [r1 e] eqn:Hl. apply becomeLeader_evolves in Hl; [|done..].
  destruct e; intros [= <- <-]; [done|].
  eapply evolves_then; [done|]. intros. by apply same_core_evolves.
Qed.

Lemma freshProgress_spec v ps k :
  freshProgress v ps !! k = if decide (k ∈ ID <$> ps) then Some v else None.
Proof.
  unfold freshProgress.
  assert (∀ m : gmap Z Z, foldl (λ m peer, <[ID peer := v]> m) m ps !! k =
    if decide (k ∈ ID <$> ps) then Some v else m !! k) as Hgen; [|by rewrite Hgen, lookup_empty].
  induction ps as [|p ps IH]; intros m; simpl; [done|]. rewrite IH.
  destruct (decide (k ∈ ID <$> ps)) as [Hin|Hin].
  { by rewrite decide_True by (by right). }
  destruct (decide (k = ID p)) as [->|Hne].
  - rewrite lookup_insert_eq, decide_True; [done|by left].
  - rewrite lookup_insert_ne, decide_False by (rewrite ?elem_of_cons; tauto || done). done.
Qed.

(** What a new leader is: its log extended with a no-op of its term, durably,
    and every peer's progress reset. *)
Record new_leader r r' : Prop := {
  nl_log : log r' = log r ++ [mkLogEntry (lastIndex r + 1) (currentTerm r) NoopOperation "" ""];
  nl_durable : log_entries (logStore r') = log r';
  nl_role : state r' = Leader ∧ leaderID r' = id r' ∧ id r' = id r;
  nl_term : currentTerm r' = currentTerm r ∧ votedFor r' = votedFor r;
  nl_indexes : snapshotMeta r' = snapshotMeta r ∧ commitIndex r' = commitIndex r ∧
               lastApplied r' = lastApplied r;
  nl_progress p : p ∈ peers r →
    nextIndex r' !! ID p = Some (lastIndex r' + 1) ∧ matchIndex r' !! ID p = Some 0;
}.

Lemma becomeLeader_spec r r' :
  node_ok r → lastIndex r + 2 < 2 ^ 63 → becomeLeaderLocked r = (r', None) → new_leader r r'.
Proof.
  intros Hok Hb Hbl. pose proof Hbl as [Hok' _]%becomeLeader_evolves; [|done|lia].
  revert Hbl. unfold becomeLeaderLocked. rewrite lastLogInfo_index, next_index_small by (done || lia).
  destruct (log_Append _ _) as [ls [e|]]; [done|]. intros [= <-].
  pose proof (ok_log_entries _ Hok') as Hle. destruct (ok_log _ Hok) as [Hb0 _ _ _].
  pose proof (lenZ_nonneg (log r)). unfold lastIndex, base in *. constructor; try done.
  intros p Hp. cbn. rewrite !freshProgress_spec, !decide_True by by apply list_elem_of_fmap_2.
  unfold lastIndex, base. cbn. rewrite lenZ_app, u64_small by lia. split; [|done]. f_equal.
  change (lenZ [_]) with 1. lia.
Qed.

(** The votes among the responses of an election. *)
Definition grants (term : Z) (rs : list RequestVoteResponse) : Z :=
  lenZ (filter (λ resp, rvr_Term resp = term ∧ rvr_VoteGranted resp = true) rs).

Lemma grants_cons t resp rs :
  grants t (resp :: rs) =
  (if decide (rvr_Term resp = t ∧ rvr_VoteGranted resp = true) then 1 else 0) + grants t rs.
Proof. unfold grants. rewrite filter_cons. case_decide; [by rewrite lenZ_cons|lia]. Qed.

Lemma countVotes_won r term votes rs :
  node_ok r → lastIndex r + 2 < 2 ^ 63 → state r = Candidate → currentTerm r = term →
  state (countVotes r term votes rs) = Leader →
  majority r ≤ votes + grants term rs ∧ new_leader r (countVotes r term votes rs).
Proof.
  intros Hok Hb Hs Ht. revert votes. induction rs as [|resp rs IH]; intros votes; simpl; [congruence|].
  rewrite grants_cons. unfold countVote. case_decide.
  { destruct (becomeFollowerLocked _ _ _) as [r1 e] eqn:Hf. simpl.
    apply becomeFollower_log in Hf as (_ & _ & _ & _ & _ & _ & Hn & He); [|apply Hok].
    destruct e as [e|]; [destruct He as (_ & _ & _ & ?); [by eexists|congruence]|].
    destruct (Hn eq_refl) as [|(_ & ? & _)]; [lia|congruence]. }
  rewrite decide_False by (intros [|]; congruence).
  pose proof (lenZ_nonneg (filter (λ resp, rvr_Term resp = term ∧ rvr_VoteGranted resp = true) rs)).
  fold (grants term rs) in *.
  case_decide as Hg; [|intros Hl; apply IH in Hl as [? ?]; split; [lia|done]].
  case_decide as Hm; cycle 1.
  { intros Hl. apply IH in Hl as [? ?]. split; [lia|done]. }
  destruct (becomeLeaderLocked r) as [r1 [e|]] eqn:Hbl.
  - intros Hl. revert Hbl. unfold becomeLeaderLocked.
    destruct (log_Append _ _) as [ls [e'|]]; [|done]. intros [= <- _]. cbn in Hl. congruence.
  - intros _. apply becomeLeader_spec in Hbl; [|done..]. split; [lia|].
    destruct Hbl. by constructor.
Qed.

(** The start of a campaign: a durable vote for oneself in the next term. *)
Lemma becomeCandidate_spec r r1 t :
  node_ok r → currentTerm r < 2 ^ 64 - 1 → becomeCandidateLocked r = (r1, Ok t) →
  t = currentTerm r + 1 ∧ evolves r r1 ∧ currentTerm r1 = t ∧ votedFor r1 = id r ∧
  state r1 = Candidate ∧ log r1 = log r ∧ snapshotMeta r1 = snapshotMeta r ∧ peers r1 = peers r.
Proof.
  intros Hok Ht Hb. pose proof Hb as Hev%becomeCandidate_evolves; [|done..].
  revert Hb. unfold becomeCandidateLocked, saveStableLocked. pose proof (ok_term _ Hok).
  rewrite u64_small by lia.
  destruct (saveStableValuesLocked _ _ _ _ _) as [r2 [e|]] eqn:Hs; [done|].
  apply saveStableValues_spec in Hs as (s' & -> & _); [|apply Hok].
  intros [= <- <-]. by split_and!.
Qed.

Lemma startElection_won r rs :
  node_ok r → currentTerm r < 2 ^ 64 - 1 → lastIndex r + 2 < 2 ^ 63 →
  state r ≠ Leader → state (startElection r rs) = Leader →
  majority r ≤ 1 + grants (currentTerm r + 1) (take (length (peers r)) rs) ∧
  ∃ r1, evolves r r1 ∧ currentTerm r1 = currentTerm r + 1 ∧ votedFor r1 = id r ∧
    log r1 = log r ∧ snapshotMeta r1 = snapshotMeta r ∧ new_leader r1 (startElection r rs).
Proof.
  intros Hok Ht Hb Hs. unfold startElection, startElection_begin.
  destruct (becomeCandidateLocked r) as [r1 [t|e]] eqn:Hc; cycle 1.
  { revert Hc. unfold becomeCandidateLocked, saveStableLocked, saveStableValuesLocked.
    destruct (stable_Save _ _) as [s' [e'|]]; [|done]. by intros [= <- _]. }
  apply becomeCandidate_spec in Hc as (-> & Hev & Ht1 & Hv1 & Hs1 & Hl1 & Hm1 & Hp1); [|done..].
  assert (lastIndex r1 = lastIndex r) as Hli by (unfold lastIndex, base; by rewrite Hl1, Hm1).
  assert (majority r1 = majority r) as Hmaj by (unfold majority; by rewrite Hp1).
  pose proof (lenZ_nonneg (filter (λ resp, rvr_Term resp = currentTerm r + 1 ∧
    rvr_VoteGranted resp = true) (take (length (peers r)) rs))) as Hg.
  fold (grants (currentTerm r + 1) (take (length (peers r)) rs)) in Hg.
  rewrite Hmaj. case_decide as Hone.
  - rewrite decide_True by done. destruct (becomeLeaderLocked r1) as [r2 [e|]] eqn:Hbl.
    + intros Hl. exfalso. revert Hbl Hl. unfold becomeLeaderLocked.
      destruct (log_Append _ _) as [ls [e'|]]; [|done]. intros [= <- _]. cbn. congruence.
    + intros _. apply becomeLeader_spec in Hbl; [|apply Hev|lia]. split; [lia|].
      exists r1. split_and!; try done. destruct Hbl. by constructor.
  - change (rv_Term (voteRequest r1 (currentTerm r + 1))) with (currentTerm r + 1).
    rewrite Hp1.
    intros Hl. apply countVotes_won in Hl as [Hm Hn]; [|apply Hev|lia|done|done].
    split; [lia|]. exists r1. by split_and!.
Qed.

Section LiveElection.
Context `{!StableStoreLive SS} `{!LogStoreLive LS}.

Lemma becomeLeader_live r :
  node_ok r → lastIndex r + 1 < 2 ^ 63 →
  ∃ r', becomeLeaderLocked r = (r', None) ∧ state r' = Leader.
Proof.
  intros Hok Hb. unfold becomeLeaderLocked. destruct (ok_term _ Hok).
  rewrite lastLogInfo_index, next_index_small by done.
  destruct (ok_log _ Hok) as [Hb0 _ _ _]. pose proof (lenZ_nonneg (log r)).
  destruct (log_Append_live (logStore r)
    [mkLogEntry (lastIndex r + 1) (currentTerm r) NoopOperation "" ""]) as [ls ->].
  - apply Hok.
  - constructor; [|done]. unfold LogEntry_Validate, lastIndex, base. simpl.
    by rewrite decide_False by lia.
  - constructor; [|done]. apply log_fits_noop; unfold lastIndex, base in *; lia.
  - rewrite (ok_log_entries _ Hok). by apply chained_after.
  - by eexists.
Qed.

Lemma countVotes_elected r term votes rs :
  node_ok r → lastIndex r + 1 < 2 ^ 63 → state r = Candidate → currentTerm r = term →
  Forall (λ resp, rvr_Term resp ≤ term) rs →
  votes < majority r ≤ votes + grants term rs →
  state (countVotes r term votes rs) = Leader.
Proof.
  intros Hok Hb Hs Ht Hrs. revert votes. induction Hrs as [|resp rs Hr Hrs IH]; intros votes.
  { change (grants term []) with 0. lia. }
  rewrite grants_cons. intros Hm. simpl. unfold countVote.
  rewrite decide_False by lia. rewrite decide_False by (intros [|]; congruence).
  destruct (decide (rvr_Term resp = term ∧ _)); [|apply IH; lia].
  case_decide; [|apply IH; lia].
  destruct (becomeLeader_live r) as (r1 & -> & ?); [done..|].  done.
Qed.

Lemma startElection_elected r rs :
  node_ok r → currentTerm r < 2 ^ 64 - 1 → lastIndex r + 1 < 2 ^ 63 →
  Forall (λ resp, rvr_Term resp ≤ currentTerm r + 1) (take (length (peers r)) rs) →
  1 < majority r ≤ 1 + grants (currentTerm r + 1) (take (length (peers r)) rs) →
  state (startElection r rs) = Leader.
Proof.
  intros Hok Ht Hb Hrs Hm. unfold startElection, startElection_begin.
  pose proof (ok_term _ Hok). pose proof (ok_id _ Hok).
  assert (∃ r1, becomeCandidateLocked r = (r1, Ok (currentTerm r + 1))) as [r1 Hc].
  { unfold becomeCandidateLocked. rewrite u64_small by lia.
    destruct (save_live r (currentTerm r + 1) (id r)) as (s' & -> & _);
      [done|unfold NoVote; lia|by eexists]. }
  rewrite Hc. apply becomeCandidate_spec in Hc as (_ & Hev & Ht1 & Hv1 & Hs1 & Hl1 & Hm1 & Hp1); [|done..].
  assert (lastIndex r1 = lastIndex r) as Hli by (unfold lastIndex, base; by rewrite Hl1, Hm1).
  assert (majority r1 = majority r) as Hmaj by (unfold majority; by rewrite Hp1).
  rewrite Hmaj, decide_False by lia.
  change (rv_Term (voteRequest r1 (currentTerm r + 1))) with (currentTerm r + 1).
  rewrite Hp1. apply countVotes_elected; rewrite ?Hli, ?Hmaj; try done. apply Hev.
Qed.
End LiveElection.

Lemma startElection_begin_evolves r r' o :
  node_ok r → currentTerm r < 2 ^ 64 - 1 → lastIndex r + 1 < 2 ^ 63 →
  startElection_begin r = (r', o) → evolves r r'.
Proof.
  intros Hok Ht Hb. unfold startElection_begin.
  destruct (becomeCandidateLocked r) as [r1 res] eqn:Hc.
  assert (log r1 = log r ∧ snapshotMeta r1 = snapshotMeta r) as [Hl Hm].
  { revert Hc. unfold becomeCandidateLocked, saveStableLocked.
    destruct (saveStableValuesLocked _ _ _ _ _) as [r2 e] eqn:Hs.
    apply saveStableValues_spec in Hs as (s' & -> & _); [|apply Hok].
    by destruct e; intros [= <- <-]. }
  apply becomeCandidate_evolves in Hc; [|done..].
  destruct res; [|intros [= <- <-]; done].
  case_decide; [|intros [= <- <-]; done].
  intros Heq. eapply evolves_then; [done|]. intros Hok1. case_decide.
  - destruct (becomeLeaderLocked r1) as [r2 e] eqn:Hbl.
    apply becomeLeader_evolves in Hbl;
      [|done|by unfold lastIndex, base in *; rewrite Hl, Hm].
    destruct e; simplify_eq; [done|].
    eapply evolves_then; [done|]. intros. by apply same_core_evolves.
  - simplify_eq. by apply same_core_evolves.
Qed.

Lemma countVotes_evolves r term votes rs :
  node_ok r → lastIndex r + 1 < 2 ^ 63 → Forall (λ resp, rvr_Term resp < 2 ^ 64) rs →
  evolves r (countVotes r term votes rs).
Proof.
  intros Hok Hb Hrs. revert votes.
  induction Hrs as [|resp rs Hr Hrs IH]; intros votes; simpl; [by apply evolves_refl|].
  destruct (countVote r term votes resp) as [r1 [v|]] eqn:Hc; [|by eapply countVote_evolves].
  assert (r1 = r) as ->; [|done]. revert Hc. unfold countVote.
  repeat (case_decide; [try by intros [= <- _]|try by intros [= <- _]]).
  by destruct (becomeLeaderLocked r) as [r2 [|]].
Qed.

Lemma startElection_evolves r rs :
  node_ok r → currentTerm r < 2 ^ 64 - 1 → lastIndex r + 1 < 2 ^ 63 →
  Forall (λ resp, rvr_Term resp < 2 ^ 64) rs → evolves r (startElection r rs).
Proof.
  intros Hok Ht Hb Hrs. unfold startElection.
  destruct (startElection_begin r) as [r1 o] eqn:Hs.
  pose proof Hs as Hev%startElection_begin_evolves; [|done..].
  destruct o as [[req|]|]; [|done..]. eapply evolves_then; [done|]. intros Hok1.
  apply countVotes_evolves; [done| |by apply Forall_take].
  revert Hs. unfold startElection_begin.
  destruct (becomeCandidateLocked r) as [r2 [t|e]] eqn:Hc; [|done].
  apply becomeCandidate_spec in Hc as (_ & _ & _ & _ & _ & Hl & Hm & _); [|done..].
  case_decide; [case_decide; [destruct (becomeLeaderLocked r2) as [r3 [|]]|]; done|].
  intros [= <- _]. unfold lastIndex, base in *. by rewrite Hl, Hm.
Qed.

(** The entry of a proposal is one the log store can hold. *)
Definition command_fits r (command : Command) : Prop :=
  log_fits (mkLogEntry (lastIndex r + 1) (currentTerm r) (c_Operation command) (c_Key command)
              (c_Value command)).

Lemma Propose_evolves r command r' res :
  node_ok r → lastIndex r + 1 < 2 ^ 63 → command_fits r command →
  Propose r command = (r', res) → evolves r r'.
Proof.
  intros Hok Hb Hfit. unfold Propose.
  destruct (Command_Validate command) eqn:Hv; [intros [= <- <-]; by apply evolves_refl|].
  case_decide; [intros [= <- <-]; by apply evolves_refl|].
  case_match; [intros [= <- <-]; by apply evolves_refl|].
  case_match; [intros [= <- <-]; by apply evolves_refl|].
  rewrite lastLogInfo_index, next_index_small by done.
  destruct (log_Append _ _) as [ls e] eqn:Ha.
  assert (0 ≤ lastIndex r).
  { destruct Hok as [[] ????????????]. unfold lastIndex, base.
    pose proof (lenZ_nonneg (log r)). lia. }
  eapply log_Append_evolves in Ha; [|done| |by constructor|done|done]; cycle 1.
  { constructor; [|done]. revert Hv. unfold Command_Validate, LogEntry_Validate. simpl.
    repeat (case_decide; try done); lia. }
  destruct e; intros [= <- <-]; [done|].
  eapply evolves_then; [done|]. intros. by apply same_core_evolves.
Qed.
End ElectionFacts.
