(* ===== verification/ReplicationFacts.v ===== *)
(** * Replication: what the operations guarantee

    The plan of [HandleAppendEntries] against a reference merge, preservation
    of the node invariant by the operations of [RaftReplication], and the
    commit rule of the leader. *)

From S2P Require Import Prelude.
From S2P Require Import Log.
From S2P Require Import Config.
From S2P Require Import Stores.
From S2P Require Import RaftState.
From S2P Require Import RaftElection.
From S2P Require Import RaftReplication.
From S2P Require Import RaftInvariant.
From S2P Require Import ElectionFacts.

(** A request a leader may build: valid entries that follow the prefix. *)
Record request_ok `{LogStoreLaws LS} (req : AppendEntriesRequest) : Prop := {
  rq_term : ae_Term req < 2 ^ 64;
  rq_valid : valid_entries (ae_Entries req);
  rq_contiguous : contiguous (ae_PrevLogIndex req + 1) (ae_Entries req);
  rq_bound : ae_PrevLogIndex req + lenZ (ae_Entries req) < 2 ^ 63;
  rq_fits : Forall log_fits (ae_Entries req);
}.

(** How the entries [es] of a request meet the local entries [local] that
    follow the same prefix: they agree on [same], then one of the two ends or
    they conflict. *)
Inductive meets (local es : list LogEntry) : list LogEntry → list LogEntry → Prop :=
| meets_included rest : local = es ++ rest → meets local es es []
| meets_extends es' : es = local ++ es' → es' ≠ [] → meets local es local es'
| meets_conflict same x rest y es' :
    local = same ++ x :: rest → es = same ++ y :: es' → Term x ≠ Term y →
    meets local es same (y :: es').

Lemma meets_app local es same es' : meets local es same es' → es = same ++ es'.
Proof. by intros []; rewrite ?app_nil_r. Qed.

Section ReplicationFacts.
Context {SS LS SM NS : Type}
  `{StableStoreLaws SS} `{LogStoreLaws LS} `{StateMachineLaws SM} `{SnapshotStoreLaws NS}.
Abbreviation Raft := (Raft SS LS SM NS).
Implicit Types r : Raft.

(** The local entries after absolute index [p]. *)
Definition after r (p : Z) : list LogEntry := drop (Z.to_nat (p - base r)) (log r).

Lemma after_unfold r p :
  base r ≤ p →
  match entry r (p + 1) with
  | Some x => after r p = x :: after r (p + 1)
  | None => after r p = []
  end.
Proof.
  intros Hp. unfold after, entry, entry_of. rewrite decide_True by lia.
  replace (p + 1 - base r - 1) with (p - base r) by lia.
  replace (Z.to_nat (p + 1 - base r)) with (S (Z.to_nat (p - base r))) by lia.
  destruct (log r !! Z.to_nat (p - base r)) eqn:Hx; [by apply drop_S|].
  apply drop_ge. by apply lookup_ge_None.
Qed.

Lemma meets_cons x local es same es' :
  meets local es same es' → meets (x :: local) (x :: es) (x :: same) es'.
Proof.
  intros [rest ->|es1 -> Hne|same1 y rest z es1 -> -> Hne].
  - by apply meets_included with rest.
  - by apply meets_extends.
  - by apply meets_conflict with y rest.
Qed.

(** ** The plan *)

(** What [replicationPlanLocked] returns for the entries after [p]. *)
Definition plan_ok r (p : Z) (es same es' : list LogEntry) (truncateFrom : Z) : Prop :=
  meets (after r p) es same es' ∧
  (truncateFrom = 0 ∧ (es' = [] ∨ after r p = same) ∨
   truncateFrom = p + 1 + lenZ same ∧ commitIndex r < truncateFrom ≤ lastIndex r ∧ es' ≠ []).

Lemma plan_ok_cons r p x es same es' tf :
  after r p = x :: after r (p + 1) →
  plan_ok r (p + 1) es same es' tf → plan_ok r p (x :: es) (x :: same) es' tf.
Proof.
  intros Hp [Hm Htf]. split.
  - rewrite Hp. by apply meets_cons.
  - rewrite lenZ_cons. destruct Htf as [[-> [->|Ha]]|(-> & Hc & Hne)].
    + left. split; [done|]. by left.
    + left. split; [done|]. right. by rewrite Hp, Ha.
    + right. split_and!; (done || lia).
Qed.

Lemma entry_last r i : entry r i = None → base r < i → lastIndex r < i.
Proof. unfold entry, lastIndex. rewrite entry_of_None. lia. Qed.

Lemma plan_spec r es p offset prev tf es' :
  node_ok r → base r ≤ p ≤ lastIndex r → prev + offset = p →
  contiguous (p + 1) es → valid_entries es → p + lenZ es < 2 ^ 63 →
  replicationPlan_from r prev offset es = Ok (tf, es') →
  ∃ same, plan_ok r p es same es' tf.
Proof.
  intros Hok. pose proof (wf_base _ _ (ok_log _ Hok)) as Hbase.
  revert p offset. induction es as [|e es IH]; intros p offset Hp Hoff Hc Hv Hb; simpl.
  { intros [= <- <-]. exists []. split; [by eapply meets_included|]. left. auto. }
  destruct Hc as [Hi Hc]. apply Forall_cons in Hv as [Hve Hv].
  rewrite lenZ_cons in Hb. pose proof (lenZ_nonneg es).
  rewrite Hve, Hoff, u64_small by (unfold base in *; lia). rewrite decide_False by lia.
  rewrite lastLogIndex_eq, entryAt_eq by apply Hok. fold (base r) (lastIndex r).
  change (entry_of (base r) (log r)) with (entry r).
  pose proof (after_unfold r p ltac:(lia)) as Hafter. rewrite Hi.
  destruct (entry r (p + 1)) as [x|] eqn:Hx.
  - assert (p + 1 ≤ lastIndex r) by (apply entry_of_Some in Hx; unfold lastIndex; lia).
    rewrite decide_True by done.
    case_decide as Heq; [subst x|].
    + intros Hplan. destruct (IH (p + 1) (offset + 1)) as [same Hs]; [lia|lia|done|done|lia|done|].
      exists (e :: same). by apply plan_ok_cons.
    + case_decide as Hterm; [done|]. case_decide as Hcommit; [done|].
      intros [= <- <-]. exists []. split; [by apply (meets_conflict _ _ [] x (after r (p + 1)))|].
      right. rewrite lenZ_nil. split_and!; (done || lia).
  - pose proof (entry_last _ _ Hx ltac:(lia)). rewrite decide_False by lia.
    rewrite u64_small by (unfold lastIndex, base in *; lia). rewrite decide_False by lia.
    intros [= <- <-]. exists []. split; [|by left; split; [|right]].
    rewrite Hafter. by apply (meets_extends [] (e :: es)).
Qed.

(** ** The reference merge *)

(** Keep the log if it already holds the entries after [prev]; otherwise cut
    it at [prev] and append them all. *)
Definition merge r (prev : Z) (es : list LogEntry) : list LogEntry :=
  if decide (take (length es) (after r prev) = es) then log r
  else take (Z.to_nat (prev - base r)) (log r) ++ es.

Lemma log_split r p : take (Z.to_nat (p - base r)) (log r) ++ after r p = log r.
Proof. apply take_drop. Qed.

(** Executing the plan is the merge. *)
Lemma plan_merge r p es same es' tf :
  node_ok r → base r ≤ p ≤ lastIndex r → plan_ok r p es same es' tf →
  merge r p es =
  (if decide (tf = 0) then log r else take (Z.to_nat (tf - base r - 1)) (log r)) ++ es'.
Proof.
  intros Hok Hp [Hm Htf]. pose proof (wf_base _ _ (ok_log _ Hok)) as Hbase. fold (base r) in Hbase.
  unfold merge. destruct Hm as [rest Hl|es1 Hl Hne|same x rest y es1 Hl He Hne].
  - rewrite decide_True by (rewrite Hl; apply take_app_length).
    destruct Htf as [[-> _]|(_ & _ & Hne)]; [|done].
    by rewrite (decide_True (P := 0 = 0)), app_nil_r.
  - destruct Htf as [[-> _]|(-> & Hbad & _)]; cycle 1.
    { pose proof (log_split r p) as Hs. apply (f_equal lenZ) in Hs. rewrite lenZ_app in Hs.
      unfold lastIndex, lenZ in *. rewrite length_take in Hs. lia. }
    rewrite (decide_True (P := 0 = 0)) by done. rewrite decide_False.
    + by rewrite Hl, app_assoc, log_split.
    + rewrite take_ge by (rewrite Hl, length_app; lia). intros Heq.
      apply Hne. rewrite Hl in Heq. apply (f_equal length) in Heq. rewrite length_app in Heq.
      apply nil_length_inv. lia.
  - destruct Htf as [[_ [?|Heq]]|(-> & Hc & _)]; [done| |].
    { rewrite Heq in Hl. apply (f_equal length) in Hl. rewrite length_app in Hl. simpl in Hl. lia. }
    rewrite decide_False; cycle 1.
    { rewrite Hl, He. intros Heq. apply (f_equal (λ l, l !! length same)) in Heq.
      rewrite list_lookup_middle in Heq by done.
      rewrite lookup_take_lt in Heq by (rewrite length_app; simpl; lia).
      rewrite list_lookup_middle in Heq by done. congruence. }
    pose proof (lenZ_nonneg same). rewrite decide_False by lia.
    replace (Z.to_nat (p + 1 + lenZ same - base r - 1))
      with (Z.to_nat (p - base r) + length same)%nat by (unfold lenZ; lia).
    rewrite <- take_take_drop, He. fold (after r p).
    rewrite Hl, take_app_length. by rewrite app_assoc.
Qed.

(** A first difference that the plan may repair. *)
Definition repairable r (p : Z) (es : list LogEntry) : Prop :=
  ∀ k x y, after r p !! k = Some x → es !! k = Some y →
    take k (after r p) = take k es → x ≠ y →
    Term x ≠ Term y ∧ commitIndex r < p + 1 + Z.of_nat k.

(** The plan exists exactly when the first difference is repairable. *)
Lemma plan_exists r es p offset prev :
  node_ok r → base r ≤ p ≤ lastIndex r → prev + offset = p →
  contiguous (p + 1) es → valid_entries es → p + lenZ es < 2 ^ 63 →
  (∃ plan, replicationPlan_from r prev offset es = Ok plan) ↔ repairable r p es.
Proof.
  intros Hok. pose proof (wf_base _ _ (ok_log _ Hok)) as Hbase.
  revert p offset. induction es as [|e es IH]; intros p offset Hp Hoff Hc Hv Hb; simpl.
  { split; [by intros _ k x y _ Hk|by eexists]. }
  destruct Hc as [Hi Hc]. apply Forall_cons in Hv as [Hve Hv].
  rewrite lenZ_cons in Hb. pose proof (lenZ_nonneg es).
  rewrite Hve, Hoff, u64_small by (unfold base in *; lia). rewrite decide_False by lia.
  rewrite lastLogIndex_eq, entryAt_eq by apply Hok. fold (base r) (lastIndex r).
  change (entry_of (base r) (log r)) with (entry r).
  pose proof (after_unfold r p ltac:(lia)) as Hafter. rewrite Hi.
  destruct (entry r (p + 1)) as [x|] eqn:Hx; cycle 1.
  { pose proof (entry_last _ _ Hx ltac:(lia)). rewrite decide_False by lia.
    rewrite u64_small by (unfold lastIndex, base in *; lia). rewrite decide_False by lia.
    split; [|by eexists]. intros _ k ?? Hk. by rewrite Hafter in Hk. }
  assert (p + 1 ≤ lastIndex r) by (apply entry_of_Some in Hx; unfold lastIndex; lia).
  rewrite decide_True by done. unfold repairable. rewrite Hafter.
  case_decide as Heq; [subst x|].
  - rewrite (IH (p + 1) (offset + 1)) by (done || lia). split.
    + intros Hr [|k] x y; simpl; [by intros [= ->] [= ->]|].
      intros Hxk Hyk [= Htk] Hne. destruct (Hr k x y) as [? ?]; [done..|]. split; [done|lia].
    + intros Hr k x y Hxk Hyk Htk Hne. destruct (Hr (S k) x y) as [? ?]; simpl; try done.
      * by rewrite Htk.
      * split; [done|lia].
  - split.
    + intros [plan Hplan] [|k] x' y; simpl; [|by intros _ _ [= ?]].
      intros [= <-] [= <-] _ _. repeat (case_decide; [done|]). split; [done|lia].
    + intros Hr. destruct (Hr 0%nat x e) as [? ?]; [done..|].
      rewrite decide_False by done. rewrite decide_False by lia. by eexists.
Qed.

(** ** The follower *)

(** A repair that fails changes the log store only. *)
Lemma truncateConflict_shape r tf r' ok :
  truncateConflict r tf = (r', ok) →
  tf = 0 ∧ r' = r ∧ ok = true ∨
  tf ≠ 0 ∧ ∃ ls, if ok then ∃ l, r' = r <| logStore := ls |> <| log := l |>
                 else r' = r <| logStore := ls |>.
Proof.
  unfold truncateConflict. case_decide; [|intros [= <- <-]; left; split_and!; [lia|done..]].
  destruct (log_TruncateFrom _ _) as [ls [e|]]; cbn.
  { intros [= <- <-]. right. split; [done|]. by exists ls. }
  destruct (logOffsetLocked _ _); intros [= <- <-]; right; (split; [done|]); exists ls; eauto.
Qed.

Lemma appendMissing_shape r es r' ok :
  appendMissing r es = (r', ok) →
  r' = r ∧ es = [] ∧ ok = true ∨
  es ≠ [] ∧
  ∃ ls, r' = if ok then r <| logStore := ls |> <| log := log r ++ es |> else r <| logStore := ls |>.
Proof.
  unfold appendMissing. case_decide; [|intros [= <- <-]; left; split_and!; [done| |done]].
  - assert (es ≠ []) by (by intros ->).
    destruct (log_Append _ _) as [ls [e|]]; cbn; intros [= <- <-]; right; (split; [done|]); by exists ls.
  - destruct es; [done|]. rewrite lenZ_cons in *. pose proof (lenZ_nonneg es). lia.
Qed.

Lemma recognizeLeader_spec r t l r' err :
  node_ok r → currentTerm r ≤ t < 2 ^ 64 → recognizeLeader r t l = (r', err) →
  evolves r r' ∧ log r' = log r ∧ snapshotMeta r' = snapshotMeta r ∧
  commitIndex r' = commitIndex r ∧ lastApplied r' = lastApplied r ∧
  (err = None → currentTerm r' = t ∧ state r' = Follower ∧ leaderID r' = l).
Proof.
  intros Hok Ht. unfold recognizeLeader. case_decide.
  - intros Hb. pose proof Hb as (Hl & Hm & Hi & Hcm & Ha & _ & Hn & _)%becomeFollower_log;
      [|apply Hok].
    apply becomeFollower_evolves in Hb; [|done|lia]. split_and!; try done.
    intros Herr. destruct (Hn Herr) as [?|(?&?&?&_)]; [lia|done].
  - intros [= <- <-]. split_and!; try done; [by apply same_core_evolves|].
    intros _. cbn. split_and!; (done || lia).
Qed.

Lemma truncate_evolves r tf ls :
  node_ok r → commitIndex r < tf ≤ lastIndex r → log_inv ls →
  log_entries ls = filter (λ e, Index e < tf) (log r) →
  evolves r (r <| logStore := ls |> <| log := take (Z.to_nat (tf - base r - 1)) (log r) |>).
Proof.
  intros Hok Htf Hinv Hes. destruct Hok as [[] ????????????].
  rewrite (filter_below (base r + 1)) in Hes by done.
  replace (tf - (base r + 1)) with (tf - base r - 1) in Hes by lia.
  split; constructor; try done; unfold lastIndex, entry, base in *; cbn.
  - constructor; [done|by apply contiguous_take|by apply Forall_take|].
    unfold lenZ in *. rewrite length_take. lia.
  - unfold lenZ in *. rewrite length_take. lia.
  - intros i Hi. rewrite entry_of_take. by rewrite decide_True by lia.
Qed.

Lemma truncateConflict_spec r tf r' ok :
  node_ok r → (tf = 0 ∨ commitIndex r < tf ≤ lastIndex r) →
  truncateConflict r tf = (r', ok) →
  evolves r r' ∧ snapshotMeta r' = snapshotMeta r ∧ commitIndex r' = commitIndex r ∧
  lastApplied r' = lastApplied r ∧ currentTerm r' = currentTerm r ∧ state r' = state r ∧
  leaderID r' = leaderID r ∧
  (ok = true → log r' = if decide (tf = 0) then log r
                        else take (Z.to_nat (tf - base r - 1)) (log r)).
Proof.
  intros Hok Htf. unfold truncateConflict. destruct (decide (tf = 0)) as [->|Hne].
  { rewrite decide_False by lia. intros [= <- <-]. by split_and!. }
  rewrite decide_True by done. destruct Htf as [?|Htf]; [done|].
  destruct (log_TruncateFrom _ _) as [ls e] eqn:Ht.
  apply log_TruncateFrom_law in Ht as [Hinv Hes]; [|apply Hok|].
  2: { exists (base r + 1). rewrite (ok_log_entries _ Hok). apply Hok. }
  rewrite (ok_log_entries _ Hok) in Hes. destruct e.
  - intros [= <- <-]. split_and!; try done. by apply logStore_evolves.
  - rewrite logOffset_eq by (cbn; apply Hok). cbn. fold (base r) (lastIndex r).
    pose proof (ok_applied _ Hok). rewrite decide_True by lia. intros [= <- <-].
    split_and!; try done. by apply truncate_evolves.
Qed.

Lemma appendMissing_spec r es r' ok :
  node_ok r → valid_entries es → Forall log_fits es → contiguous (lastIndex r + 1) es →
  lastIndex r + lenZ es < 2 ^ 63 → appendMissing r es = (r', ok) →
  evolves r r' ∧ snapshotMeta r' = snapshotMeta r ∧ commitIndex r' = commitIndex r ∧
  lastApplied r' = lastApplied r ∧ currentTerm r' = currentTerm r ∧ state r' = state r ∧
  leaderID r' = leaderID r ∧ (ok = true → log r' = log r ++ es).
Proof.
  intros Hok Hv Hf Hc Hb. unfold appendMissing. case_decide as Hlen; cycle 1.
  { intros [= <- <-]. split_and!; try done. intros _.
    destruct es; [by rewrite app_nil_r|]. rewrite lenZ_cons in Hlen.
    pose proof (lenZ_nonneg es). lia. }
  destruct (log_Append _ _) as [ls e] eqn:Ha. eapply log_Append_evolves in Ha; [|done..].
  destruct e; intros [= <- <-]; by split_and!.
Qed.

Lemma adoptCommit_spec r c r' ok :
  node_ok r → adoptCommit r c = (r', ok) →
  evolves r r' ∧ snapshotMeta r' = snapshotMeta r ∧ log r' = log r ∧
  lastApplied r' = lastApplied r ∧ currentTerm r' = currentTerm r ∧ state r' = state r ∧
  leaderID r' = leaderID r ∧
  (ok = true → commitIndex r' = Z.max (commitIndex r) (Z.min c (lastIndex r))).
Proof.
  intros Hok. unfold adoptCommit. rewrite lastLogIndex_eq by apply Hok. fold (base r) (lastIndex r).
  case_decide; cycle 1.
  { intros [= <- <-]. split_and!; try done. lia. }
  destruct (saveStableValuesLocked _ _ _ _ _) as [r1 e] eqn:Hs. destruct e.
  - intros [= <- <-].
    assert (evolves r r1) as Hev.
    { eapply save_ahead_evolves; [done| |done]. intros Hsok.
      constructor; simpl; [by right; split; [|right]|lia|lia|done]. }
    apply saveStableValues_spec in Hs as (s' & -> & _); [|apply Hok]. by split_and!.
  - apply saveStableValues_spec in Hs as (s' & -> & Hinv & Hsok & Hs); [|apply Hok].
    intros [= <- <-]. split_and!; try done; [|cbn; lia].
    destruct Hok. split; [|constructor; try done; cbn; lia].
    constructor; try done; unfold lastIndex, base in *; cbn in *; [lia|lia|].
    rewrite Hs. constructor; simpl; [by right; split; [|right]|lia|lia|done].
Qed.
(** The term of index [i] as the node remembers it, boundary included. *)
Definition term_of r (i : Z) : option Z :=
  if decide (i = base r) then Some (baseTerm r) else Term <$> entry r i.

Lemma matchesPrefix_spec r i t :
  node_ok r → matchesPrefixLocked r i t = true ↔ term_of r i = Some t.
Proof.
  intros Hok. unfold matchesPrefixLocked. rewrite termAt_eq by apply Hok.
  change (if decide _ then _ else _) with (term_of r i).
  destruct (term_of r i); [|done]. rewrite bool_decide_eq_true. naive_solver.
Qed.

Lemma term_of_range r i t : term_of r i = Some t → base r ≤ i ≤ lastIndex r.
Proof.
  unfold term_of. pose proof (lenZ_nonneg (log r)). case_decide.
  - intros _. subst i. unfold lastIndex. lia.
  - destruct (entry r i) eqn:He; [|done]. apply entry_of_Some in He. unfold lastIndex. lia.
Qed.

Lemma term_of_same r r' i :
  log r' = log r → snapshotMeta r' = snapshotMeta r → term_of r' i = term_of r i.
Proof. intros Hl Hm. unfold term_of, entry, baseTerm, base. by rewrite Hl, Hm. Qed.

Lemma lastIndex_same r r' :
  log r' = log r → snapshotMeta r' = snapshotMeta r → lastIndex r' = lastIndex r.
Proof. intros Hl Hm. unfold lastIndex, base. by rewrite Hl, Hm. Qed.

(** Once the conflict is gone the entries to append come next. *)
Lemma plan_lastIndex r p es same es' tf r1 :
  node_ok r → base r ≤ p ≤ lastIndex r → plan_ok r p es same es' tf → es' ≠ [] →
  truncateConflict r tf = (r1, true) →
  evolves r r1 ∧ lastIndex r1 = p + lenZ same.
Proof.
  intros Hok Hp [Hmeets Htf] Hne Htr.
  apply truncateConflict_spec in Htr as (Hev & Hm & _ & _ & _ & _ & _ & Hlog); [|done|].
  2: { destruct Htf as [[-> _]|(_ & Hr & _)]; auto. }
  specialize (Hlog eq_refl). split; [done|]. unfold lastIndex, base. rewrite Hm, Hlog. fold (base r).
  pose proof (lenZ_nonneg same). pose proof (wf_base _ _ (ok_log _ Hok)).
  destruct Htf as [[-> [?|Hall]]|(-> & [_ Hle] & _)]; [done| |].
  - rewrite decide_True by done. unfold lastIndex in *. rewrite <- Hall. unfold after, lenZ.
    rewrite length_drop. unfold lenZ in *. lia.
  - rewrite decide_False by (unfold base in *; lia). unfold lastIndex, lenZ in *.
    rewrite length_take. lia.
Qed.

(** After the plan, the rest of the request: the log becomes the merge. *)
Lemma executePlan_spec r p es tf es' r1 ok1 r2 ok2 :
  node_ok r → base r ≤ p ≤ lastIndex r → contiguous (p + 1) es → valid_entries es →
  p + lenZ es < 2 ^ 63 → Forall log_fits es → replicationPlanLocked r p es = Ok (tf, es') →
  truncateConflict r tf = (r1, ok1) →
  (if ok1 then appendMissing r1 es' else (r1, false)) = (r2, ok2) →
  evolves r r2 ∧ snapshotMeta r2 = snapshotMeta r ∧ commitIndex r2 = commitIndex r ∧
  lastApplied r2 = lastApplied r ∧ currentTerm r2 = currentTerm r ∧ state r2 = state r ∧
  leaderID r2 = leaderID r ∧ (ok2 = true → log r2 = merge r p es).
Proof.
  intros Hok Hp Hc Hv Hb Hf Hplan Htr Happ.
  apply (plan_spec _ _ p) in Hplan as [same Hsame]; [|done|done|lia|done..].
  pose proof (plan_merge _ _ _ _ _ _ Hok Hp Hsame) as Hmerge. pose proof Htr as Htr0.
  apply truncateConflict_spec in Htr as (Hev & Hm & Hcm & Ha & Ht & Hs & Hl & Hlog); [|done|].
  2: { destruct Hsame as [_ [[-> _]|(_ & Hr & _)]]; auto. }
  destruct ok1; [|simplify_eq; by split_and!]. specialize (Hlog eq_refl).
  destruct (decide (es' = [])) as [->|Hne].
  { change (appendMissing r1 []) with (r1, true) in Happ.
    simplify_eq. split_and!; try done. intros _. by rewrite Hmerge, Hlog, app_nil_r. }
  pose proof (plan_lastIndex _ _ _ _ _ _ _ Hok Hp Hsame Hne Htr0) as [_ Hlast].
  pose proof (meets_app _ _ _ _ (proj1 Hsame)) as Hes.
  rewrite Hes, lenZ_app in Hb. rewrite Hes, contiguous_app in Hc.
  rewrite Hes in Hv, Hf. apply Forall_app in Hv as [_ Hv], Hf as [_ Hf].
  assert (lastIndex r1 + 1 = p + 1 + lenZ same) as Hnext by lia.
  apply appendMissing_spec in Happ as (Hev2 & Hm2 & Hcm2 & Ha2 & Ht2 & Hs2 & Hl2 & Hlog2);
    [|apply Hev|done|done|rewrite Hnext; apply Hc|lia].
  split_and!; try congruence; [by eapply evolves_trans|].
  intros Hok2. by rewrite (Hlog2 Hok2), Hlog, Hmerge.
Qed.

(** Everything [HandleAppendEntries] does, on every branch. *)
Lemma HandleAppendEntries_spec r req r' resp :
  node_ok r → request_ok req → HandleAppendEntries r req = (r', resp) →
  evolves r r' ∧ snapshotMeta r' = snapshotMeta r ∧ lastApplied r' = lastApplied r ∧
  aer_Term resp = currentTerm r' ∧
  (aer_Success resp = true →
     currentTerm r ≤ ae_Term req ∧ currentTerm r' = ae_Term req ∧ state r' = Follower ∧
     leaderID r' = ae_LeaderID req ∧
     term_of r (ae_PrevLogIndex req) = Some (ae_PrevLogTerm req) ∧
     repairable r (ae_PrevLogIndex req) (ae_Entries req) ∧
     log r' = merge r (ae_PrevLogIndex req) (ae_Entries req) ∧
     commitIndex r' = Z.max (commitIndex r) (Z.min (ae_LeaderCommit req) (lastIndex r'))).
Proof.
  intros Hok [Hrt Hrv Hrc Hrb Hrf]. unfold HandleAppendEntries.
  case_decide as Hstale; [intros [= <- <-]; by split_and!|].
  destruct (recognizeLeader _ _ _) as [r1 e] eqn:Hrec.
  apply recognizeLeader_spec in Hrec as (Hev1 & Hl1 & Hm1 & Hc1 & Ha1 & Hn1); [|done|lia].
  destruct e; [intros [= <- <-]; by split_and!|]. destruct (Hn1 eq_refl) as (Ht1 & Hs1 & Hld1).
  assert (evolves r1 (signalElectionReset r1)) as Hev2 by (apply same_core_evolves, Hev1; done).
  set (r2 := signalElectionReset r1) in *.
  pose proof (evolves_trans _ _ _ Hev1 Hev2) as Hev. clear Hev1 Hev2.
  assert (log r2 = log r ∧ snapshotMeta r2 = snapshotMeta r ∧ lastApplied r2 = lastApplied r ∧
    commitIndex r2 = commitIndex r ∧ currentTerm r2 = ae_Term req ∧ state r2 = Follower ∧
    leaderID r2 = ae_LeaderID req) as (Hl2 & Hm2 & Ha2 & Hc2 & Ht2 & Hs2 & Hld2) by done.
  pose proof (proj1 Hev) as Hok2.
  destruct (matchesPrefixLocked _ _ _) eqn:Hpre; [|intros [= <- <-]; by split_and!].
  apply matchesPrefix_spec in Hpre; [|done]. pose proof (term_of_range _ _ _ Hpre) as Hp.
  destruct (replicationPlanLocked _ _ _) as [[tf es']|] eqn:Hplan; [|intros [= <- <-]; by split_and!].
  destruct (truncateConflict _ _) as [r3 ok3] eqn:Htr.
  destruct (if ok3 then appendMissing r3 es' else (r3, false)) as [r4 ok4] eqn:Happ.
  pose proof (executePlan_spec _ _ _ _ _ _ _ _ _ Hok2 Hp Hrc Hrv Hrb Hrf Hplan Htr Happ)
    as (Hev4 & Hm4 & Hc4 & Ha4 & Ht4 & Hs4 & Hld4 & Hlog4).
  pose proof (evolves_trans _ _ _ Hev Hev4) as Hev'.
  destruct ok3; cycle 1.
  { simplify_eq. intros [= <- <-]. split_and!; (done || congruence). }
  simpl in Happ. rewrite Happ. destruct ok4; cycle 1.
  { intros [= <- <-]. split_and!; (done || congruence). }
  destruct (adoptCommit _ _) as [r5 ok5] eqn:Had.
  apply adoptCommit_spec in Had as (Hev5 & Hm5 & Hl5 & Ha5 & Ht5 & Hs5 & Hld5 & Hc5); [|apply Hev4].
  intros [= <- <-]. split_and!; [by eapply evolves_trans|congruence|congruence|done|].
  simpl. intros ->. rewrite <- (term_of_same r r2) by done.
  assert (repairable r2 (ae_PrevLogIndex req) (ae_Entries req)) as Hrep.
  { apply (plan_exists _ _ _ 0 (ae_PrevLogIndex req)); [done|done|lia|done..|by eexists]. }
  split_and!; try congruence; try lia.
  - revert Hrep. unfold repairable, after, base. by rewrite Hl2, Hm2, Hc2.
  - rewrite Hl5, (Hlog4 eq_refl). unfold merge, after, base. by rewrite Hl2, Hm2.
  - rewrite Hc5, Hc4, Hc2, (lastIndex_same r4 r5) by done. done.
Qed.
(** What was merged is found again. *)
Lemma merge_again r r1 p es :
  base r ≤ p ≤ lastIndex r → log r1 = merge r p es → snapshotMeta r1 = snapshotMeta r →
  merge r1 p es = log r1.
Proof.
  intros Hp Hl Hm. unfold merge at 1. rewrite decide_True; [done|].
  unfold after, base. rewrite Hm, Hl. fold (base r). unfold merge. case_decide as Ht; [done|].
  rewrite drop_app_ge; rewrite ?length_take; unfold lastIndex, lenZ in *; [|lia].
  rewrite Nat.min_l by lia. rewrite Nat.sub_diag. simpl. apply firstn_all.
Qed.

(** ** The leader *)

Lemma valid_after r p : node_ok r → valid_entries (after r p).
Proof. intros Hok. apply Forall_drop, Hok. Qed.

Lemma contiguous_after r p :
  node_ok r → base r ≤ p ≤ lastIndex r → contiguous (p + 1) (after r p).
Proof.
  intros Hok Hp. pose proof (contiguous_drop _ _ (Z.to_nat (p - base r))
    (wf_contiguous _ _ (ok_log _ Hok))) as Hc.
  fold (base r) in Hc. unfold lastIndex, lenZ in *.
  rewrite Nat.min_l in Hc by lia.
  by replace (base r + 1 + Z.of_nat (Z.to_nat (p - base r))) with (p + 1) in Hc by lia.
Qed.

Lemma lenZ_after r p :
  base r ≤ p ≤ lastIndex r → p + lenZ (after r p) = lastIndex r.
Proof. intros Hp. unfold after, lastIndex, lenZ in *. rewrite length_drop. lia. Qed.

(** The request a leader sends is well formed, carries the whole suffix
    after the prefix it names, and so reaches past its commit index. *)
Lemma buildAppendEntries_spec r peerID req :
  node_ok r → buildAppendEntries r peerID = Some req →
  state r = Leader ∧ ae_Term req = currentTerm r ∧ ae_LeaderID req = id r ∧
  nextIndex r !! peerID = Some (ae_PrevLogIndex req + 1) ∧
  term_of r (ae_PrevLogIndex req) = Some (ae_PrevLogTerm req) ∧
  ae_Entries req = after r (ae_PrevLogIndex req) ∧
  ae_LeaderCommit req = commitIndex r ∧ request_ok req ∧
  ae_LeaderCommit req ≤ ae_PrevLogIndex req + lenZ (ae_Entries req).
Proof.
  intros Hok. unfold buildAppendEntries.
  case_decide as Hlead; [done|].
  destruct (nextIndex r !! peerID) as [next|] eqn:Hn; [|done].
  pose proof (ok_log _ Hok) as [Hb0 Hwc Hwv Hwb]. fold (base r) in *.
  pose proof (lenZ_nonneg (log r)).
  rewrite lastLogIndex_eq, termAt_eq, entriesFrom_eq by apply Hok.
  fold (base r) (baseTerm r) (lastIndex r). unfold lastIndex in *.
  rewrite u64_small by lia. case_decide as Hr; [done|]. rewrite u64_small by lia.
  change (if decide (next - 1 = base r) then _ else _) with (term_of r (next - 1)).
  destruct (term_of r (next - 1)) as [t|] eqn:Ht; [|done].
  rewrite decide_True by lia. intros [= <-]. simpl.
  replace (next - base r - 1) with (next - 1 - base r) by lia. fold (after r (next - 1)).
  pose proof (ok_commit _ Hok). unfold lastIndex in *.
  assert (base r ≤ next - 1 ≤ lastIndex r) as Hp by (unfold lastIndex; lia).
  pose proof (lenZ_after _ _ Hp). unfold lastIndex in *.
  split_and!; try done; [by rewrite Z.sub_add| |lia].
  constructor; simpl; [apply Hok|by apply valid_after|by apply contiguous_after|lia|].
  by apply Forall_drop, ok_fits.
Qed.

(** An entry the leader may commit: of its own term and on a quorum. *)
Definition committable r (i : Z) : Prop :=
  term_of r i = Some (currentTerm r) ∧ majority r ≤ countMatched (matchIndex r) i (peers r).

#[export] Instance committable_dec r i : Decision (committable r i).
Proof. apply _. Defined.

Lemma countMatched_filter m i ps :
  countMatched m i ps = 1 + lenZ (filter (λ p, i ≤ readUint m (ID p)) ps).
Proof.
  induction ps as [|p ps IH]; [done|]. simpl. rewrite filter_cons, IH.
  case_decide; rewrite ?lenZ_cons; lia.
Qed.

(** The outcome of scanning down from [index]: either the greatest
    committable index was found, and committed unless the save failed, or
    there is none and nothing changed. *)
Definition commit_scan r (index : Z) r' (res : bool) : Prop :=
  evolves r r' ∧ log r' = log r ∧ snapshotMeta r' = snapshotMeta r ∧
  lastApplied r' = lastApplied r ∧
  (∃ i, commitIndex r < i ≤ index ∧ committable r i ∧
        (∀ j, i < j ≤ index → ¬ committable r j) ∧
        commitIndex r' = if res then i else commitIndex r) ∨
  r' = r ∧ res = false ∧ (∀ j, commitIndex r < j ≤ index → ¬ committable r j).

Lemma commit_scan_skip r index r' res :
  ¬ committable r index → commit_scan r (index - 1) r' res → commit_scan r index r' res.
Proof.
  assert (∀ i, ¬ committable r index → (∀ j, i < j ≤ index - 1 → ¬ committable r j) →
    ∀ j, i < j ≤ index → ¬ committable r j) as Hext.
  { intros i Hno Hmax j Hj. destruct (decide (j = index)) as [->|]; [done|]. apply Hmax. lia. }
  intros Hno [(?&?&?&?&i&?&?&Hmax&?)|(->&->&Hmax)].
  - left. split_and!; try done. exists i. split_and!; [lia|lia|done|by apply Hext|done].
  - right. split_and!; try done. by apply Hext.
Qed.

Lemma commit_save_evolves r i r' err :
  node_ok r → commitIndex r < i ≤ lastIndex r →
  saveStableValuesLocked r (currentTerm r) (votedFor r) i (lastApplied r) = (r', err) →
  match err with
  | Some _ => evolves r r'
  | None => evolves r (r' <| commitIndex := i |>)
  end ∧ log r' = log r ∧ snapshotMeta r' = snapshotMeta r ∧ lastApplied r' = lastApplied r ∧
  commitIndex r' = commitIndex r.
Proof.
  intros Hok Hi Hs. pose proof (ok_applied _ Hok).
  assert (stable_state_ok (mkStableState (currentTerm r) (votedFor r) i (lastApplied r)) →
    stable_ahead (election_state r)
      (mkStableState (currentTerm r) (votedFor r) i (lastApplied r))) as Hah.
  { intros ?. constructor; simpl; [by right; split; [|right]|lia|lia|done]. }
  destruct err.
  - assert (evolves r r') by (by eapply save_ahead_evolves).
    by apply saveStableValues_spec in Hs as (s' & -> & _); [|apply Hok].
  - apply saveStableValues_spec in Hs as (s' & -> & Hinv & Hsok & Hs); [|apply Hok].
    split_and!; try done. destruct Hok. split; [|constructor; try done; cbn; lia].
    constructor; try done; unfold lastIndex, base in *; cbn in *; [lia|lia|].
    rewrite Hs. by apply stable_ahead_refl.
Qed.

Lemma advanceCommit_from_spec fuel r index r' res :
  node_ok r → index ≤ lastIndex r → index - commitIndex r < Z.of_nat fuel →
  advanceCommit_from fuel r index = (r', res) → commit_scan r index r' res.
Proof.
  intros Hok. revert index. induction fuel as [|fuel IH]; intros index Hi Hf.
  { intros [= <- <-]. right. split_and!; try done. lia. }
  simpl. case_decide as Hc; cycle 1.
  { intros [= <- <-]. right. split_and!; try done. lia. }
  pose proof (ok_log _ Hok) as [Hb0 _ _ Hwb]. pose proof (ok_applied _ Hok).
  fold (base r) in *. unfold lastIndex in Hi.
  rewrite u64_small by lia. rewrite termAt_eq by apply Hok.
  change (if decide (index = _) then _ else _) with (term_of r index).
  assert (¬ committable r index → advanceCommit_from fuel r (index - 1) = (r', res) →
    commit_scan r index r' res) as Hskip.
  { intros Hno Heq. apply commit_scan_skip; [done|]. apply IH; [unfold lastIndex; lia|lia|done]. }
  case_decide as Ht; [|apply Hskip; by intros [? _]].
  case_decide as Hq; [apply Hskip; intros [_ ?]; lia|].
  clear Hskip. intros Hsave. left.
  destruct (saveStableValuesLocked _ _ _ _ _) as [r1 e] eqn:Hs.
  apply commit_save_evolves in Hs as (Hev & Hl & Hm & Ha & Hcm); [|done|unfold lastIndex; lia].
  assert (committable r index) by (split; [done|lia]).
  destruct e; simplify_eq; [split_and!; try done|].
  - exists index. split_and!; (done || lia).
  - split_and!; try done; [|exists index; split_and!; (done || lia)].
    eapply evolves_then; [done|]. intros. by apply same_core_evolves.
Qed.

Lemma handleAppendEntriesResponse_evolves r peerID req resp r' retry :
  node_ok r → aer_Term resp < 2 ^ 64 →
  handleAppendEntriesResponse r peerID req resp = (r', retry) → evolves r r'.
Proof.
  intros Hok Ht. unfold handleAppendEntriesResponse.
  case_decide.
  { destruct (becomeFollowerLocked _ _ _) as [r1 e] eqn:Hf. intros [= <- <-].
    by eapply becomeFollower_evolves in Hf. }
  case_decide; [intros [= <- <-]; by apply evolves_refl|].
  destruct (aer_Success resp); simpl; cycle 1.
  { case_decide; intros [= <- <-]; by apply same_core_evolves. }
  set (r1 := if decide _ then r <| matchIndex := _ |> else r).
  set (r2 := if decide (readUint (nextIndex r1) _ < _) then _ else r1).
  assert (evolves r r2) as Hev.
  { apply same_core_evolves; [|done]. subst r2 r1. by repeat case_decide. }
  clearbody r2. clear r1. unfold advanceCommitIndexLocked.
  destruct (advanceCommit_from _ _ _) as [r3 res] eqn:Hadv.
  rewrite lastLogIndex_eq in Hadv by apply Hev. fold (base r2) (lastIndex r2) in Hadv.
  apply advanceCommit_from_spec in Hadv as Hcases; [|apply Hev|done|lia].
  assert (evolves r r3) as Hev3.
  { destruct Hcases as [(?&_)|(->&_)]; [by eapply evolves_trans|done]. }
  destruct res; intros [= <- <-]; [|done].
  eapply evolves_then; [done|]. intros. by apply same_core_evolves.
Qed.
End ReplicationFacts.
