(* ===== verification/ApplyFacts.v ===== *)
(** * Applying: what the loop guarantees

    Preservation of the node invariant by the sections of the apply loop, and
    the loop as a whole: it drains the committed entries in log order. *)

From S2P Require Import Prelude.
From S2P Require Import Log.
From S2P Require Import Config.
From S2P Require Import Stores.
From S2P Require Import RaftState.
From S2P Require Import RaftElection.
From S2P Require Import RaftApply.
From S2P Require Import RaftInvariant.

(** ** A run of entries on a state machine

    No-ops are skipped; [None] when an entry is refused. *)
Section Runs.
Context {SM : Type} `{StateMachineLaws SM}.

Definition run_entry (m : SM) (e : LogEntry) : option SM :=
  if decide (Operation e ≠ NoopOperation) then
    match sm_Apply m e with
    | (m', None) => Some m'
    | (_, Some _) => None
    end
  else Some m.

Fixpoint run_entries (m : SM) (es : list LogEntry) : option SM :=
  match es with
  | [] => Some m
  | e :: es => run_entry m e ≫= λ m', run_entries m' es
  end.

Lemma run_entries_app m es fs :
  run_entries m (es ++ fs) = run_entries m es ≫= λ m', run_entries m' fs.
Proof.
  revert m. induction es as [|e es IH]; intros m; [done|]. simpl.
  destruct (run_entry m e); [apply IH|done].
Qed.

Lemma run_entry_inv m e m' : sm_inv m → run_entry m e = Some m' → sm_inv m' ∧ sm_like m m'.
Proof.
  unfold run_entry. intros Hinv. case_decide; [|intros [= <-]; by split].
  destruct (sm_Apply m e) as [m1 [err|]] eqn:Ha; [done|]. intros [= <-].
  apply sm_Apply_law in Ha as (?&?&_); done.
Qed.

Lemma run_entries_inv m es m' :
  sm_inv m → run_entries m es = Some m' → sm_inv m' ∧ sm_like m m'.
Proof.
  revert m. induction es as [|e es IH]; intros m Hinv; simpl; [by intros [= <-]|].
  destruct (run_entry m e) as [m1|] eqn:He; [|done]. intros Hr.
  apply run_entry_inv in He as [Hinv1 Hl1]; [|done].
  apply IH in Hr as [Hinv2 Hl2]; [|done]. split; [done|]. by transitivity m1.
Qed.
End Runs.

Section ApplyFacts.
Context {SS LS SM NS : Type}
  `{StableStoreLaws SS} `{LogStoreLaws LS} `{StateMachineLaws SM} `{SnapshotStoreLaws NS}.
Abbreviation Raft := (Raft SS LS SM NS).
Implicit Types r : Raft.

(** What walking the committed entries needs. *)
Record walkable r : Prop := {
  walk_log : log_wf (log r) (snapshotMeta r);
  walk_applied : base r ≤ lastApplied r ≤ commitIndex r;
  walk_commit : commitIndex r ≤ lastIndex r;
}.

Lemma node_ok_walkable r : node_ok r → walkable r.
Proof. intros []. by constructor. Qed.

Lemma next_applied r :
  walkable r → lastApplied r < commitIndex r →
  u64 (lastApplied r + 1) = lastApplied r + 1 ∧
  ∃ e, entryAtLocked r (lastApplied r + 1) = Some e ∧ entry r (lastApplied r + 1) = Some e ∧
       Index e = lastApplied r + 1.
Proof.
  intros [Hwf ? ?] Hlt. pose proof (wf_base _ _ Hwf). pose proof (wf_bound _ _ Hwf).
  unfold lastIndex, base in *. split; [apply u64_small; lia|].
  rewrite entryAt_eq by done.
  destruct (proj2 (entry_of_is_Some (LastIncludedIndex (snapshotMeta r)) (log r)
    (lastApplied r + 1))) as [e He]; [lia|].
  exists e. split_and!; [done..|]. eapply entry_of_Index; [apply Hwf|done].
Qed.

(** The fetch never misses a committed entry. *)
Lemma fetch_spec r :
  node_ok r →
  match applyCommitted_fetch r with
  | Drained => lastApplied r = commitIndex r
  | Fetch e => lastApplied r < commitIndex r ∧ entry r (lastApplied r + 1) = Some e ∧
               Index e = lastApplied r + 1 ∧
               (Operation e ≠ NoopOperation → applier r = true)
  | FetchFailed err => err = ErrNoApplier ∧ applier r = false ∧ lastApplied r < commitIndex r
  end.
Proof.
  intros Hok. unfold applyCommitted_fetch. pose proof (ok_applied _ Hok).
  case_decide; [lia|].
  destruct (next_applied _ (node_ok_walkable _ Hok)) as (-> & e & -> & He & Hi); [lia|].
  case_decide as Hna.
  - destruct Hna. split_and!; (done || lia).
  - split_and!; try (done || lia). intros Hop. destruct (applier r); [done|tauto].
Qed.

Lemma execute_spec r e r' err :
  node_ok r → applyCommitted_execute r e = (r', err) →
  evolves r r' ∧ same_core (r <| machine := machine r' |>) r' ∧
  lastApplied r' = lastApplied r ∧ commitIndex r' = commitIndex r ∧
  (err = None → run_entry (machine r) e = Some (machine r')) ∧
  (is_Some err → machine r' = machine r).
Proof.
  intros Hok. unfold applyCommitted_execute, run_entry. case_decide; cycle 1.
  { intros [= <- <-]. destruct r. by split_and!. }
  destruct (sm_Apply (machine r) e) as [m err1] eqn:Ha.
  apply sm_Apply_law in Ha as (Hinv & _ & Hun); [|apply Hok].
  destruct Hok. destruct err1; intros [= <- <-]; split_and!; try done; try (split; by constructor).
  intros _. by apply Hun.
Qed.

Lemma complete_spec r e r' err :
  node_ok r → lastApplied r < Index e ≤ commitIndex r →
  applyCommitted_complete r e = (r', err) →
  evolves r r' ∧ machine r' = machine r ∧ log r' = log r ∧ snapshotMeta r' = snapshotMeta r ∧
  commitIndex r' = commitIndex r ∧ applier r' = applier r ∧
  (err = None → lastApplied r' = Index e) ∧ (is_Some err → lastApplied r' = lastApplied r).
Proof.
  intros Hok Hi. pose proof (ok_applied _ Hok). unfold applyCommitted_complete.
  case_decide; [intros [= <- <-]; by split_and!|].
  destruct (saveStableValuesLocked _ _ _ _ _) as [r1 e1] eqn:Hs. destruct e1.
  - intros [= <- <-].
    assert (evolves r r1).
    { eapply save_ahead_evolves; [done| |done]. intros Hsok.
      constructor; simpl; [by right; split; [|right]|lia|lia|done]. }
    by apply saveStableValues_spec in Hs as (s' & -> & _); [|apply Hok]; split_and!.
  - apply saveStableValues_spec in Hs as (s' & -> & Hinv & Hsok & Hs); [|apply Hok].
    set (r2 := r <| stable := s' |> <| lastApplied := Index e |>).
    assert (evolves r r2) as Hev.
    { destruct Hok. subst r2. split; [|constructor; try done; cbn; lia].
      constructor; try done; unfold base in *; cbn in *; [lia|].
      rewrite Hs. by apply stable_ahead_refl. }
    intros Heq.
    assert (same_core r2 r' ∧ err = None ∧ applier r' = applier r) as ([] & -> & ?).
    { by destruct (pendingResults _ !! _); simplify_eq. }
    split_and!; try done. eapply evolves_then; [done|]. intros. by apply same_core_evolves.
Qed.

(** ** The whole loop *)

(** The committed entries not applied yet. *)
Definition backlog r : list LogEntry :=
  take (Z.to_nat (commitIndex r - lastApplied r))
    (drop (Z.to_nat (lastApplied r - base r)) (log r)).

Lemma backlog_unfold r e :
  walkable r → lastApplied r < commitIndex r → entry r (lastApplied r + 1) = Some e →
  backlog r = e :: take (Z.to_nat (commitIndex r - (lastApplied r + 1)))
                     (drop (Z.to_nat (lastApplied r + 1 - base r)) (log r)).
Proof.
  intros [_ ? _] Hlt He. unfold backlog, entry, entry_of in *.
  rewrite decide_True in He by lia.
  replace (lastApplied r + 1 - base r - 1) with (lastApplied r - base r) in He by lia.
  rewrite (drop_S _ _ _ He).
  replace (Z.to_nat (commitIndex r - lastApplied r))
    with (S (Z.to_nat (commitIndex r - (lastApplied r + 1)))) by lia.
  by replace (Z.to_nat (lastApplied r + 1 - base r))
    with (S (Z.to_nat (lastApplied r - base r))) by lia.
Qed.

(** The loop is correct whenever it returns without error, and it keeps the
    invariant in any case. *)
Lemma applyCommitted_spec fuel r r' res :
  node_ok r → applyCommitted fuel r = (r', res) →
  evolves r r' ∧ log r' = log r ∧ snapshotMeta r' = snapshotMeta r ∧
  commitIndex r' = commitIndex r ∧
  (res = Some None → lastApplied r' = commitIndex r ∧
                     run_entries (machine r) (backlog r) = Some (machine r')).
Proof.
  revert r. induction fuel as [|fuel IH]; intros r Hok; simpl.
  { intros [= <- <-]. by split_and!. }
  unfold applyCommitted_once. pose proof (fetch_spec _ Hok) as Hf.
  destruct (applyCommitted_fetch r) as [|e|err].
  - intros [= <- <-]. split_and!; try done. intros _. split; [done|].
    unfold backlog. by rewrite Hf, Z.sub_diag.
  - destruct Hf as (Hlt & He & Hi & _).
    destruct (applyCommitted_execute r e) as [r1 e1] eqn:Hx.
    apply execute_spec in Hx as (Hev1 & [] & Ha1 & Hc1 & Hrun & _); [|done].
    destruct e1; [intros [= <- <-]; by split_and!|]. specialize (Hrun eq_refl).
    destruct (applyCommitted_complete r1 e) as [r2 e2] eqn:Hcm.
    apply complete_spec in Hcm as (Hev2 & Hm2 & Hl2 & Hsm2 & Hc2 & _ & Ha2 & _); [|apply Hev1|lia].
    pose proof (evolves_trans _ _ _ Hev1 Hev2) as Hev.
    assert (log r2 = log r ∧ snapshotMeta r2 = snapshotMeta r) as [Hl Hsm].
    { rewrite Hl2, Hsm2. done. }
    destruct e2; [intros [= <- <-]; split_and!; (done || congruence)|].
    specialize (Ha2 eq_refl). intros Heq. apply IH in Heq as (Hev3 & Hl3 & Hsm3 & Hc3 & Hr3); [|apply Hev].
    split_and!; try congruence; [by eapply evolves_trans|].
    intros Hres. destruct (Hr3 Hres) as [Hla Hrun2]. split; [congruence|].
    rewrite (backlog_unfold _ _ (node_ok_walkable _ Hok) Hlt He). simpl. rewrite Hrun. simpl.
    rewrite <- Hrun2, Hm2. f_equal. unfold backlog, base. by rewrite Hl, Hsm, Hc2, Hc1, Ha2, Hi.
  - intros [= <- <-]. by split_and!.
Qed.

(** With enough fuel it returns. *)
Lemma applyCommitted_returns fuel r :
  node_ok r → commitIndex r - lastApplied r < Z.of_nat fuel →
  ∃ r' err, applyCommitted fuel r = (r', Some err).
Proof.
  revert r. induction fuel as [|fuel IH]; intros r Hok Hfuel.
  { pose proof (ok_applied _ Hok). lia. }
  simpl. unfold applyCommitted_once. pose proof (fetch_spec _ Hok) as Hf.
  destruct (applyCommitted_fetch r) as [|e|err]; [by eexists _, _| |by eexists _, _].
  destruct Hf as (Hlt & He & Hi & _).
  destruct (applyCommitted_execute r e) as [r1 e1] eqn:Hx.
  apply execute_spec in Hx as (Hev1 & _ & Ha1 & Hc1 & _); [|done].
  destruct e1; [by eexists _, _|].
  destruct (applyCommitted_complete r1 e) as [r2 e2] eqn:Hcm.
  apply complete_spec in Hcm as (Hev2 & _ & _ & _ & Hc2 & _ & Ha2 & _); [|apply Hev1|lia].
  destruct e2; [by eexists _, _|]. apply IH; [apply Hev2|].
  rewrite Ha2 by done. lia.
Qed.

(** A backlog the machine accepts is applied in full when saves succeed. *)
Lemma applyCommitted_drains `{!StableStoreLive SS} fuel r m :
  node_ok r → applier r = true → commitIndex r - lastApplied r < Z.of_nat fuel →
  run_entries (machine r) (backlog r) = Some m →
  ∃ r', applyCommitted fuel r = (r', Some None) ∧ machine r' = m ∧
        lastApplied r' = commitIndex r.
Proof.
  revert r. induction fuel as [|fuel IH]; intros r Hok Happ Hfuel Hrun.
  { pose proof (ok_applied _ Hok). lia. }
  simpl. unfold applyCommitted_once. pose proof (fetch_spec _ Hok) as Hf.
  destruct (applyCommitted_fetch r) as [|e|err].
  - exists r. split_and!; try done. unfold backlog in Hrun. rewrite Hf, Z.sub_diag in Hrun.
    by simplify_eq/=.
  - destruct Hf as (Hlt & He & Hi & _).
    rewrite (backlog_unfold _ _ (node_ok_walkable _ Hok) Hlt He) in Hrun. simpl in Hrun.
    destruct (run_entry (machine r) e) as [m1|] eqn:Hm1; [|done]. simpl in Hrun.
    destruct (applyCommitted_execute r e) as [r1 e1] eqn:Hx.
    assert (e1 = None ∧ applier r1 = true ∧ machine r1 = m1) as (-> & Happ1 & Hmr1).
    { revert Hx Hm1. unfold applyCommitted_execute, run_entry. case_decide.
      - destruct (sm_Apply _ _) as [m' [err|]]; [done|]. by intros [= <- <-] [= <-].
      - by intros [= <- <-] [= <-]. }
    apply execute_spec in Hx as (Hev1 & [] & Ha1 & Hc1 & _); [|done].
    destruct (applyCommitted_complete r1 e) as [r2 e2] eqn:Hcm.
    assert (e2 = None) as ->.
    { revert Hcm. unfold applyCommitted_complete, saveStableValuesLocked.
      destruct (next_applied _ (node_ok_walkable _ Hok) Hlt) as (Hu & _).
      rewrite Ha1, Hu. rewrite decide_False by congruence.
      destruct (stable_Save_live (stable r1)
        (mkStableState (currentTerm r1) (votedFor r1) (commitIndex r1) (Index e))) as [s' ->].
      - apply Hev1.
      - split; simpl; [apply Hev1|lia].
      - destruct (pendingResults _ !! _); by intros [= <- <-]. }
    apply complete_spec in Hcm as (Hev2 & Hm2 & Hl2 & Hsm2 & Hc2 & Happ2 & Ha2 & _); [|apply Hev1|lia].
    specialize (Ha2 eq_refl).
    destruct (IH r2) as (r3 & Heq & Hm3 & Ha3).
    + apply Hev2.
    + congruence.
    + rewrite Ha2. lia.
    + rewrite Hm2, Hmr1, <- Hrun. f_equal. unfold backlog, base.
      rewrite Hl2, Hsm2, Hc2, Hc1, Ha2, Hi.
      by assert (log r1 = log r ∧ snapshotMeta r1 = snapshotMeta r) as [-> ->] by done.
    + exists r3. split_and!; [done..|congruence].
  - destruct Hf as (_ & ? & _). congruence.
Qed.
End ApplyFacts.
