(* ===== verification/SnapshotFacts.v ===== *)
(** * Snapshots: what the operations guarantee

    Compaction forgets nothing the node still needs, and an installed snapshot
    replaces exactly the prefix it covers. *)

From S2P Require Import Prelude.
From S2P Require Import Log.
From S2P Require Import Config.
From S2P Require Import Stores.
From S2P Require Import RaftState.
From S2P Require Import RaftElection.
From S2P Require Import RaftReplication.
From S2P Require Import RaftSnapshot.
From S2P Require Import RaftInvariant.
From S2P Require Import ElectionFacts.
From S2P Require Import ReplicationFacts.

Section SnapshotFacts.
Context {SS LS SM NS : Type}
  `{StableStoreLaws SS} `{LogStoreLaws LS} `{StateMachineLaws SM} `{SnapshotStoreLaws NS}.
Abbreviation Raft := (Raft SS LS SM NS).
Implicit Types r : Raft.

(** ** Moving the boundary *)

Lemma entry_after r i j :
  base r ≤ i → i < j → entry_of i (after r i) j = entry r j.
Proof.
  intros Hi Hj. unfold after, entry.
  pose proof (entry_of_drop (base r) (log r) (Z.to_nat (i - base r)) j) as Hd.
  replace (base r + Z.of_nat (Z.to_nat (i - base r))) with i in Hd by lia.
  by rewrite Hd, decide_True by done.
Qed.

(** The node after its prefix through [i] was compacted: its durable log
    holds the suffix and a durable snapshot covers the prefix. *)
Definition compacted r (ls : LS) (i t : Z) : Raft :=
  r <| logStore := ls |> <| log := after r i |> <| snapshotMeta := mkMeta i t |>.

Lemma compacted_evolves r ls i t ns sn :
  node_ok r → base r < i ≤ lastApplied r → log_inv ls →
  log_entries ls = filter (λ e, i < Index e) (log r) →
  snapshotStore r = Some ns → snap_inv ns → snap_stored ns = Some sn →
  s_LastIncludedIndex sn = i → s_LastIncludedTerm sn = t →
  evolves r (compacted r ls i t).
Proof.
  intros Hok Hi Hinv Hes Hns Hsi Hst Hsn Ht. pose proof (ok_applied _ Hok).
  pose proof (ok_commit _ Hok). destruct (ok_log _ Hok) as [Hb0 Hwc Hwv Hwb].
  rewrite (filter_above _ _ _ Hwc) in Hes. fold (base r) in *.
  replace (i + 1 - (base r + 1)) with (i - base r) in Hes by lia.
  assert (base r ≤ i ≤ lastIndex r) as Hr by lia. pose proof (lenZ_after _ _ Hr).
  split.
  - destruct Hok. constructor; try done; unfold lastIndex, base in *; cbn in *.
    + constructor; cbn; [lia|by apply contiguous_after|by apply Forall_drop|lia].
    + unfold SnapshotMetadata_Validate. simpl. rewrite decide_False; [done|lia].
    + lia.
    + lia.
    + unfold snapshot_covers. cbn. rewrite Hns, Hst. split; [done|]. unfold base. cbn.
      split; [lia|done].
  - constructor; try done; unfold base in *; cbn in *; [lia|].
    intros j Hj. apply (entry_after r i j); unfold base; lia.
Qed.

(** ** Local snapshots *)

Lemma maybeSnapshot_choose_spec r i t ns :
  node_ok r → maybeSnapshot_choose r = TakeSnapshot i t ns →
  i = lastApplied r ∧ term_of r i = Some t ∧ snapshotStore r = Some ns ∧
  snapshotThreshold r ≤ lastApplied r - base r.
Proof.
  intros Hok. unfold maybeSnapshot_choose.
  destruct (snapshotter r), (snapshotStore r) as [ns'|]; try done.
  pose proof (ok_applied _ Hok). pose proof (ok_commit _ Hok).
  destruct (ok_log _ Hok) as [Hb0 _ _ Hwb]. unfold lastIndex, base in *.
  rewrite u64_small by lia. case_decide; [done|]. rewrite termAt_eq by apply Hok.
  change (if decide _ then _ else _) with (term_of r (lastApplied r)).
  destruct (term_of r (lastApplied r)) as [t'|] eqn:Ht; [|done].
  intros [= <- <- <-]. split_and!; (done || lia).
Qed.

Lemma saveSnapshot_spec r ns sn r' err :
  node_ok r → snapshotStore r = Some ns → base r ≤ s_LastIncludedIndex sn →
  (s_LastIncludedIndex sn = base r → s_LastIncludedTerm sn = baseTerm r) →
  saveSnapshot r ns sn = (r', err) →
  evolves r r' ∧ ∃ ns', r' = r <| snapshotStore := Some ns' |> ∧ snap_inv ns' ∧
    (err = None → snap_stored ns' = Some sn ∧ Snapshot_Validate sn = None).
Proof.
  intros Hok Hns Hi Ht. unfold saveSnapshot.
  destruct (snap_Save ns sn) as [ns' e] eqn:Hs. intros [= <- <-].
  pose proof (ok_snapshot _ Hok) as Hcov. unfold snapshot_covers in Hcov. rewrite Hns in Hcov.
  destruct Hcov as [Hinv Hcov]. apply snap_Save_law in Hs as [Hinv' Hs]; [|done].
  assert (snapshot_covers (r <| snapshotStore := Some ns' |>)) as Hcov'.
  { unfold snapshot_covers. cbn. split; [done|].
    assert (snap_stored ns' = snap_stored ns ∨ snap_stored ns' = Some sn) as [->| ->];
      [destruct e; [destruct Hs as [?|[_ ?]]|destruct Hs]; by auto|done..]. }
  split; [destruct Hok; by split; constructor|].
  exists ns'. split_and!; [done..|]. intros ->. by destruct Hs.
Qed.

Lemma maybeSnapshot_publish_spec r i t ns sn r' err :
  node_ok r → snapshotStore r = Some ns → snap_inv ns → snap_stored ns = Some sn →
  s_LastIncludedIndex sn = i → s_LastIncludedTerm sn = t →
  maybeSnapshot_publish r i t = (r', err) →
  evolves r r' ∧ (err = None → base r' = Z.max (base r) i).
Proof.
  intros Hok Hns Hsi Hst Hi Ht. unfold maybeSnapshot_publish. fold (base r).
  case_decide as Ha; [intros [= <- <-]; by split|].
  case_decide; [intros [= <- <-]; split; [by split|lia]|].
  case_decide; [intros [= <- <-]; by split|].
  pose proof (ok_applied _ Hok). pose proof (ok_commit _ Hok).
  destruct (ok_log _ Hok) as [Hb0 Hwc _ Hwb]. fold (base r) in *. unfold lastIndex in *.
  rewrite u64_small, entriesFrom_eq by (lia || apply Hok). fold (base r).
  rewrite decide_True by lia. replace (i + 1 - base r - 1) with (i - base r) by lia.
  fold (after r i). destruct (log_CompactThrough _ _) as [ls e] eqn:Hc.
  apply log_CompactThrough_law in Hc as [Hinv Hes]; [|apply Hok|].
  2: { exists (base r + 1). by rewrite (ok_log_entries _ Hok). }
  rewrite (ok_log_entries _ Hok) in Hes. destruct e; intros [= <- <-].
  - split; [by apply logStore_evolves|done].
  - split; [|intros _; unfold base; cbn; unfold base in *; lia].
    eapply compacted_evolves; try done. lia.
Qed.

Lemma maybeSnapshot_evolves r r' err :
  node_ok r → maybeSnapshot r = (r', err) → evolves r r'.
Proof.
  intros Hok. unfold maybeSnapshot.
  destruct (maybeSnapshot_choose r) as [|i t ns|e] eqn:Hch; [by intros [= <- <-]| |by intros [= <- <-]].
  apply maybeSnapshot_choose_spec in Hch as (-> & Ht & Hns & _); [|done].
  destruct (sm_Snapshot (machine r)) as [d|e]; [|by intros [= <- <-]].
  destruct (saveSnapshot _ _ _) as [r1 e1] eqn:Hs.
  apply saveSnapshot_spec in Hs as (Hev & ns' & -> & Hinv & Hst);
    [|done|done|simpl; apply (ok_applied _ Hok)|].
  2: { simpl. intros Heq. unfold term_of in Ht. rewrite decide_True in Ht by done. by simplify_eq. }
  destruct e1; [by intros [= <- <-]|]. destruct (Hst eq_refl) as [Hst' _].
  intros Hp. eapply evolves_trans; [done|].
  by eapply maybeSnapshot_publish_spec in Hp as [? _]; [|apply Hev|done..].
Qed.

(** A snapshot either leaves the log alone or moves the boundary to the
    apply index, with the machine's image durable at it. *)
Definition log_kept r r' : Prop :=
  log r' = log r ∧ snapshotMeta r' = snapshotMeta r ∧ machine r' = machine r ∧
  stable r' = stable r ∧ commitIndex r' = commitIndex r ∧ lastApplied r' = lastApplied r.

Definition snapshotted r r' : Prop :=
  ∃ t data ns ls, base r < lastApplied r ∧ term_of r (lastApplied r) = Some t ∧
    sm_Snapshot (machine r) = Ok data ∧ snap_inv ns ∧
    snap_stored ns = Some (mkSnapshot (lastApplied r) t data) ∧
    log_entries ls = after r (lastApplied r) ∧
    r' = compacted (r <| snapshotStore := Some ns |>) ls (lastApplied r) t.

Lemma maybeSnapshot_spec r r' err :
  node_ok r → maybeSnapshot r = (r', err) → log_kept r r' ∨ err = None ∧ snapshotted r r'.
Proof.
  intros Hok. unfold maybeSnapshot.
  destruct (maybeSnapshot_choose r) as [|i t ns|e] eqn:Hch;
    [by intros [= <- <-]; left| |by intros [= <- <-]; left].
  apply maybeSnapshot_choose_spec in Hch as (-> & Ht & Hns & _); [|done].
  destruct (sm_Snapshot (machine r)) as [d|e] eqn:Hd; [|by intros [= <- <-]; left].
  destruct (saveSnapshot _ _ _) as [r1 e1] eqn:Hs.
  apply saveSnapshot_spec in Hs as (Hev & ns' & -> & Hinv & Hst);
    [|done|done|simpl; apply (ok_applied _ Hok)|].
  2: { simpl. intros Heq. unfold term_of in Ht. rewrite decide_True in Ht by done. by simplify_eq. }
  destruct e1; [by intros [= <- <-]; left|]. destruct (Hst eq_refl) as [Hst' _].
  unfold maybeSnapshot_publish. cbn. rewrite decide_False by tauto. fold (base r).
  case_decide; [by intros [= <- <-]; left|].
  pose proof (ok_applied _ Hok). pose proof (ok_commit _ Hok). rewrite decide_False by lia.
  destruct (ok_log _ Hok) as [Hb0 Hwc _ Hwb]. fold (base r) in *. unfold lastIndex in *.
  rewrite u64_small, entriesFrom_eq by (lia || apply Hok). cbn. fold (base r).
  rewrite decide_True by lia.
  replace (lastApplied r + 1 - base r - 1) with (lastApplied r - base r) by lia.
  fold (after r (lastApplied r)). destruct (log_CompactThrough _ _) as [ls e] eqn:Hc.
  apply log_CompactThrough_law in Hc as [Hli Hes]; [|apply Hok|].
  2: { exists (base r + 1). by rewrite (ok_log_entries _ Hok). }
  rewrite (ok_log_entries _ Hok) in Hes. destruct e; intros [= <- <-]; [by left|right].
  split; [done|]. exists t, d, ns', ls. split_and!; try done; [lia|].
  rewrite Hes, (filter_above _ _ _ Hwc). unfold after. f_equal. lia.
Qed.

(** What a node still knows after compacting. *)
Lemma snapshotted_keeps r r' :
  node_ok r → snapshotted r r' →
  base r' = lastApplied r ∧ lastIndex r' = lastIndex r ∧
  (∀ i, base r' ≤ i → term_of r' i = term_of r i) ∧
  (∀ i, base r' < i → entry r' i = entry r i).
Proof.
  intros Hok (t & d & ns & ls & Hb & Ht & _ & _ & _ & _ & ->).
  pose proof (ok_applied _ Hok). pose proof (ok_commit _ Hok).
  assert (base r ≤ lastApplied r ≤ lastIndex r) as Hr by lia. pose proof (lenZ_after _ _ Hr).
  assert (∀ i, lastApplied r < i →
    entry (compacted (r <| snapshotStore := Some ns |>) ls (lastApplied r) t) i = entry r i) as He.
  { intros i Hi. apply (entry_after r (lastApplied r) i); lia. }
  split_and!; [done|unfold lastIndex at 1, base at 1; cbn; done| |done].
  intros i Hi. unfold base in Hi. cbn in Hi. unfold term_of at 1. case_decide as Hc.
  - rewrite Hc. unfold base, baseTerm. cbn. by rewrite Ht.
  - unfold base in Hc. cbn in Hc. rewrite He by lia. unfold term_of.
    by rewrite decide_False by lia.
Qed.

(** ** Installing a snapshot *)

(** The request agrees with what this node has committed and not applied. *)
Definition install_agrees r (req : InstallSnapshotRequest) : Prop :=
  lastApplied r < is_LastIncludedIndex req ≤ commitIndex r →
  term_of r (is_LastIncludedIndex req) = Some (is_LastIncludedTerm req).

(** The suffix that survives: what follows a boundary of the same term. *)
Lemma retainedSuffix_spec r req :
  node_ok r → is_LastIncludedIndex req < 2 ^ 63 →
  retainedSuffix r req =
  if decide (term_of r (is_LastIncludedIndex req) = Some (is_LastIncludedTerm req))
  then Some (after r (is_LastIncludedIndex req)) else None.
Proof.
  intros Hok Hb. unfold retainedSuffix. rewrite termAt_eq by apply Hok.
  change (if decide (_ = LastIncludedIndex _) then _ else _)
    with (term_of r (is_LastIncludedIndex req)).
  destruct (term_of r _) as [t|] eqn:Ht; [|done].
  pose proof (term_of_range _ _ _ Ht) as Hr. destruct (ok_log _ Hok) as [Hb0 _ _ Hwb].
  fold (base r) in *. unfold lastIndex in *.
  destruct (decide (t = is_LastIncludedTerm req)) as [->|]; [|by rewrite decide_False by congruence].
  rewrite decide_True by done. rewrite u64_small, entriesFrom_eq by (lia || apply Hok).
  fold (base r). rewrite decide_True by lia. unfold after. do 3 f_equal. lia.
Qed.

(** The state once the log store, the state machine and the boundary have
    followed the saved snapshot. *)
Record installed r (req : InstallSnapshotRequest) r' : Prop := {
  in_base : base r' = is_LastIncludedIndex req;
  in_term : baseTerm r' = is_LastIncludedTerm req;
  in_log : log r' =
    if decide (term_of r (is_LastIncludedIndex req) = Some (is_LastIncludedTerm req))
    then after r (is_LastIncludedIndex req) else [];
  in_commit : commitIndex r' = Z.max (commitIndex r) (is_LastIncludedIndex req);
  in_applied : lastApplied r' = is_LastIncludedIndex req;
  in_machine : sm_Restore (machine r) (is_Data req) = (machine r', None);
  in_same : currentTerm r' = currentTerm r ∧ votedFor r' = votedFor r ∧ id r' = id r ∧
            peers r' = peers r ∧ state r' = state r ∧ leaderID r' = leaderID r;
  in_stable : stable_inv (stable r') ∧ stable_state (stable r') = election_state r';
  in_logStore : log_inv (logStore r') ∧ log_entries (logStore r') = log r';
  in_snapshot : ∃ ns, snapshotStore r' = Some ns ∧ snap_inv ns ∧
    snap_stored ns = Some (mkSnapshot (is_LastIncludedIndex req) (is_LastIncludedTerm req)
                             (is_Data req));
}.

Lemma installTrimLog_spec r req r' :
  node_ok r → lastApplied r < is_LastIncludedIndex req < 2 ^ 63 →
  installTrimLog r req (retainedSuffix r req) = (r', None) →
  ∃ ls, r' = r <| logStore := ls |> ∧ log_inv ls ∧
    log_entries ls = default [] (retainedSuffix r req).
Proof.
  intros Hok Hi. rewrite retainedSuffix_spec by (done || lia).
  destruct (ok_log _ Hok) as [Hb0 Hwc _ Hwb]. pose proof (ok_applied _ Hok). fold (base r) in *.
  assert (chained (log_entries (logStore r))) as Hch.
  { exists (base r + 1). by rewrite (ok_log_entries _ Hok). }
  unfold installTrimLog. case_decide as Ht.
  - pose proof (term_of_range _ _ _ Ht) as Hr.
    destruct (log_CompactThrough _ _) as [ls e] eqn:Hc. intros [= <- He].
    destruct e; [done|]. apply log_CompactThrough_law in Hc as [Hinv Hes]; [|apply Hok|done].
    exists ls. split_and!; [done..|]. rewrite Hes, (ok_log_entries _ Hok), (filter_above _ _ _ Hwc).
    simpl. unfold after. f_equal. lia.
  - case_decide as Hlen.
    + destruct (log_TruncateFrom _ _) as [ls e] eqn:Hc. intros [= <- He].
      destruct e; [done|]. apply log_TruncateFrom_law in Hc as [Hinv Hes]; [|apply Hok|done].
      exists ls. split_and!; [done..|].
      rewrite Hes, (ok_log_entries _ Hok), (filter_below _ _ _ Hwc).
      rewrite firstLogIndex_eq by apply Hok. fold (base r). by rewrite Z.sub_diag.
    + intros [= <-]. exists (logStore r). split_and!; [by destruct r|apply Hok|].
      rewrite (ok_log_entries _ Hok). destruct (log r) as [|e0 es0]; [done|].
      rewrite lenZ_cons in Hlen. pose proof (lenZ_nonneg es0). lia.
Qed.

Lemma installSnapshot_spec r ns req r' :
  node_ok r → snapshotStore r = Some ns →
  lastApplied r < is_LastIncludedIndex req < 2 ^ 63 →
  installSnapshot r ns req = (r', None) → installed r req r'.
Proof.
  intros Hok Hns Hi. unfold installSnapshot. pose proof (ok_applied _ Hok).
  destruct (saveSnapshot _ _ _) as [r1 e1] eqn:Hs.
  apply saveSnapshot_spec in Hs as (Hev & ns' & -> & Hinv & Hst); [|done|done|simpl; lia|simpl; lia].
  destruct e1; [done|]. destruct (Hst eq_refl) as [Hst' _].
  destruct (installTrimLog _ _ _) as [r2 [e2|]] eqn:Htr; [done|].
  change (retainedSuffix r req) with (retainedSuffix (r <| snapshotStore := Some ns' |>) req) in Htr.
  apply installTrimLog_spec in Htr as (ls & -> & Hli & Hles); [|apply Hev|done].
  unfold installRestore. cbn [machine set_field]. 
  destruct (sm_Restore _ _) as [m [e3|]] eqn:Hr; [done|]. simpl.
  unfold installPublish. destruct (saveStableValuesLocked _ _ _ _ _) as [r3 [e4|]] eqn:Hsv; [done|].
  apply saveStableValues_spec in Hsv as (s' & -> & Hsi & _ & Hss); [|apply Hok].
  change (retainedSuffix (r <| snapshotStore := Some ns' |>) req) with (retainedSuffix r req) in Hles.
  pose proof (retainedSuffix_spec r req Hok ltac:(lia)) as Hret.
  intros [= <-].
  match goal with |- installed _ _ (if _ then signalApply ?x else _) => set (r4 := x) end.
  assert (installed r req r4) as Hin.
  { subst r4. constructor; cbn; try done.
    - rewrite Hret. by case_decide.
    - lia.
    - by exists ns'. }
  clearbody r4. clear Hret. case_decide; [|done]. destruct Hin. by constructor.
Qed.

Lemma installed_evolves r req r' :
  node_ok r → lastApplied r < is_LastIncludedIndex req < 2 ^ 63 → install_agrees r req →
  installed r req r' → evolves r r'.
Proof.
  intros Hok Hi Hag [Hb Hbt Hl Hc Ha Hm (Ht & Hv & Hid & Hp & _) [Hsi Hss] [Hli Hle] (ns & Hns & Hni & Hst)].
  pose proof (ok_applied _ Hok). pose proof (ok_commit _ Hok).
  destruct (ok_log _ Hok) as [Hb0 Hwc Hwv Hwb]. fold (base r) in *.
  assert (log_wf (log r') (snapshotMeta r') ∧ commitIndex r' ≤ lastIndex r' ∧
    ∀ j, base r' < j ≤ commitIndex r → entry r' j = entry r j) as (Hwf & Hcm & Hent).
  { unfold lastIndex, entry. rewrite Hb, Hl, Hc. case_decide as Hterm.
    - pose proof (term_of_range _ _ _ Hterm) as Hr. pose proof (lenZ_after _ _ Hr).
      split_and!; [|lia|intros j Hj; apply entry_after; lia].
      unfold lastIndex in *.
      constructor; fold (base r'); rewrite ?Hb; [lia| |by apply valid_after|lia].
      by apply contiguous_after.
    - assert (commitIndex r < is_LastIncludedIndex req).
      { destruct (decide (is_LastIncludedIndex req ≤ commitIndex r)) as [Hle'|]; [|lia].
        destruct Hterm. apply Hag. lia. }
      rewrite lenZ_nil. split_and!; [|lia|lia].
      constructor; fold (base r'); rewrite ?Hb, ?lenZ_nil; [lia|done|by apply Forall_nil|lia]. }
  assert (sm_inv (machine r')) as Hsm.
  { apply sm_Restore_law in Hm as (? & _); [done|apply Hok]. }
  split; [destruct Hok; constructor; try done|constructor; try done; try lia].
  - unfold SnapshotMetadata_Validate. fold (base r'). rewrite Hb. rewrite decide_False; [done|lia].
  - rewrite Hb, Ha, Hc. lia.
  - by rewrite Ht.
  - by rewrite Hid.
  - by rewrite Hv.
  - rewrite Hss. apply stable_ahead_refl. split; simpl; [by rewrite Hv|rewrite Ha, Hc; lia].
  - unfold snapshot_covers. rewrite Hns, Hst. split; [done|]. simpl. rewrite Hb, Hbt. split; [lia|done].
Qed.

(** A transfer that succeeds either installs the snapshot or finds the node
    already past it. *)
Lemma HandleInstallSnapshot_spec r req r' resp :
  node_ok r → 0 ≤ is_Term req < 2 ^ 64 → is_LastIncludedIndex req < 2 ^ 63 →
  HandleInstallSnapshot r req = (r', (resp, None)) →
  isr_Term resp = currentTerm r' ∧
  (is_Term req < currentTerm r ∧ r' = r ∨
   ∃ r1, evolves r r1 ∧ currentTerm r1 = is_Term req ∧ state r1 = Follower ∧
     leaderID r1 = is_LeaderID req ∧ log r1 = log r ∧ snapshotMeta r1 = snapshotMeta r ∧
     commitIndex r1 = commitIndex r ∧ lastApplied r1 = lastApplied r ∧
     (is_LastIncludedIndex req ≤ lastApplied r ∧ r' = signalElectionReset r1 ∨
      lastApplied r < is_LastIncludedIndex req ∧ installed r1 req r')).
Proof.
  intros Hok Ht Hb. unfold HandleInstallSnapshot.
  case_decide; [intros [= <- <-]; split; [done|by left]|].
  destruct (recognizeLeader _ _ _) as [r1 e1] eqn:Hrec.
  apply recognizeLeader_spec in Hrec as (Hev & Hl & Hm & Hc & Ha & Hn); [|done|lia].
  destruct e1; [done|]. destruct (Hn eq_refl) as (Ht1 & Hs1 & Hld1).
  destruct (snapshotter r1), (snapshotStore r1) as [ns|] eqn:Hns; try done.
  destruct (SnapshotMetadata_Validate _); [done|]. case_decide; [done|].
  case_decide as Hap.
  { intros [= <- <-]. split; [done|]. right. exists r1. split_and!; try done.
    left. split; [|done]. by rewrite <- Ha. }
  destruct (installSnapshot _ _ _) as [r2 e2] eqn:Hi. intros [= <- <- ->].
  apply installSnapshot_spec in Hi; [|apply Hev|done|lia]. split.
  { simpl. by destruct Hi as [_ _ _ _ _ _ (-> & _)]. }
  right. exists r1. split_and!; try done. right. split; [|done]. rewrite <- Ha. lia.
Qed.

Lemma install_agrees_same r r1 req :
  log r1 = log r → snapshotMeta r1 = snapshotMeta r → commitIndex r1 = commitIndex r →
  lastApplied r1 = lastApplied r → install_agrees r req → install_agrees r1 req.
Proof. intros Hl Hm Hc Ha. unfold install_agrees. by rewrite Hc, Ha, (term_of_same r r1). Qed.

Lemma HandleInstallSnapshot_evolves r req r' resp :
  node_ok r → 0 ≤ is_Term req < 2 ^ 64 → is_LastIncludedIndex req < 2 ^ 63 →
  install_agrees r req → HandleInstallSnapshot r req = (r', (resp, None)) → evolves r r'.
Proof.
  intros Hok Ht Hb Hag Heq.
  apply HandleInstallSnapshot_spec in Heq as (_ & [[_ ->]|(r1 & Hev & _ & _ & _ & Hl & Hm & Hc & Ha & Hcase)]);
    [done| |done..].
  destruct Hcase as [[_ ->]|[Hi Hin]].
  - eapply evolves_then; [done|]. intros. by apply same_core_evolves.
  - eapply evolves_then; [done|]. intros Hok1. apply (installed_evolves _ req); [done|lia| |done].
    by eapply install_agrees_same.
Qed.

(** ** The leader's side *)

Lemma loadForInstall_spec r meta r' res :
  node_ok r → loadForInstall r meta = (r', res) →
  evolves r r' ∧
  (r' = r ∨ ∃ ns ns', snapshotStore r = Some ns ∧ snap_stored ns' = snap_stored ns ∧
     r' = r <| snapshotStore := Some ns' |>) ∧
  (∀ sn, res = Ok sn →
     s_LastIncludedIndex sn = LastIncludedIndex meta ∧
     s_LastIncludedTerm sn = LastIncludedTerm meta ∧
     ∃ ns, snapshotStore r = Some ns ∧ snap_stored ns = Some sn).
Proof.
  intros Hok. unfold loadForInstall. pose proof (ok_snapshot _ Hok) as Hcov.
  unfold snapshot_covers in Hcov. destruct (snapshotStore r) as [ns|] eqn:Hns.
  2: { intros [= <- <-]. split; [by apply evolves_refl|]. by split; [left|]. }
  destruct Hcov as [Hinv Hcov]. destruct (snap_Load ns) as [ns' loaded] eqn:Hl.
  apply snap_Load_law in Hl as (Hinv' & Hst & Hld); [|done].
  assert (evolves r (r <| snapshotStore := Some ns' |>)) as Hev.
  { destruct Hok. split; [|by constructor]. constructor; try done.
    unfold snapshot_covers. cbn. rewrite Hst. split; [done|]. by destruct (snap_stored ns). }
  assert (∃ ns1 ns2, Some ns = Some ns1 ∧ snap_stored ns2 = snap_stored ns1 ∧
    r <| snapshotStore := Some ns' |> = r <| snapshotStore := Some ns2 |>) as Hsh by by exists ns, ns'.
  destruct loaded as [[sn|]|]; [case_decide as Hbd| |]; intros [= <- <-];
    (split; [done|]; split; [by right|]); try done.
  intros sn' [= <-]. split_and!; [lia..|]. exists ns. split; [done|]. by rewrite <- (Hld _ eq_refl).
Qed.

Lemma snapshotNeeded_spec r peerID meta term :
  snapshotNeeded r peerID = Some (meta, term) →
  state r = Leader ∧ meta = snapshotMeta r ∧ term = currentTerm r ∧
  readUint (nextIndex r) peerID ≤ base r.
Proof.
  unfold snapshotNeeded. case_decide; [done|]. unfold readUint.
  destruct (nextIndex r !! peerID) as [next|]; [|done]. case_decide; [|done].
  intros [= <- <-]. split_and!; [|done..]. destruct (decide (state r = Leader)); tauto.
Qed.

(** What the last section sends is of the moment it runs in. *)
Lemma confirmInstall_spec r peerID meta term stored req :
  confirmInstall r peerID meta term stored = Some req →
  state r = Leader ∧ is_Term req = currentTerm r ∧ is_LeaderID req = id r ∧
  is_LastIncludedIndex req = base r ∧ is_LastIncludedTerm req = baseTerm r ∧
  is_Data req = s_Data stored.
Proof.
  unfold confirmInstall. case_decide as Hc; [done|]. intros [= <-]. simpl.
  assert (snapshotMeta r = meta) as <- by (destruct (decide (snapshotMeta r = meta)); tauto).
  split_and!; try done; [destruct (decide (state r = Leader)); tauto|lia].
Qed.

Lemma buildInstallSnapshot_spec r peerID r' res :
  node_ok r → buildInstallSnapshot r peerID = (r', res) →
  evolves r r' ∧
  (∀ req, res = Ok (Some req) →
     state r = Leader ∧ is_Term req = currentTerm r ∧ is_LeaderID req = id r ∧
     is_LastIncludedIndex req = base r ∧ is_LastIncludedTerm req = baseTerm r ∧
     readUint (nextIndex r) peerID ≤ base r ∧
     ∃ ns, snapshotStore r = Some ns ∧
       snap_stored ns = Some (mkSnapshot (base r) (baseTerm r) (is_Data req))).
Proof.
  intros Hok. unfold buildInstallSnapshot.
  destruct (snapshotNeeded r peerID) as [[meta term]|] eqn:Hn; [|by intros [= <- <-]].
  apply snapshotNeeded_spec in Hn as (Hs & -> & -> & Hnext).
  destruct (loadForInstall r _) as [r1 [stored|e]] eqn:Hl; intros [= <- <-];
    apply loadForInstall_spec in Hl as (Hev & Hsh & Hst); try done.
  split; [done|]. intros req [= Hc]. apply confirmInstall_spec in Hc as (? & Ht & Hid & Hi & Hit & Hd).
  destruct (Hst stored eq_refl) as (Hsi & Hstt & ns & Hns & Hsto).
  assert (currentTerm r1 = currentTerm r ∧ id r1 = id r ∧ base r1 = base r ∧ baseTerm r1 = baseTerm r)
    as (E1 & E2 & E3 & E4) by (by destruct Hsh as [->|(? & ? & _ & _ & ->)]).
  split_and!; [done|congruence..|done|]. exists ns. split; [done|].
  rewrite Hsto, Hd. f_equal. destruct stored; simpl in *. unfold base, baseTerm. congruence.
Qed.

Lemma handleInstallSnapshotResponse_evolves r peerID req resp r' retry :
  node_ok r → isr_Term resp < 2 ^ 64 →
  handleInstallSnapshotResponse r peerID req resp = (r', retry) → evolves r r'.
Proof.
  intros Hok Ht. unfold handleInstallSnapshotResponse. case_decide.
  { destruct (becomeFollowerLocked _ _ _) as [r1 e] eqn:Hf. intros [= <- <-].
    by eapply becomeFollower_evolves in Hf. }
  case_decide; intros [= <- <-]; [by apply evolves_refl|]. by apply same_core_evolves.
Qed.
End SnapshotFacts.
