(* ===== verification/RecoveryFacts.v ===== *)
(** * Start-up: what a recovered node is

    The log a snapshot leaves behind, the replay of committed entries, and
    the node [NewWithLog] and [NewWithSnapshot] return.  A restart from a
    node's stores is one more step of its evolution. *)

From S2P Require Import Prelude.
From S2P Require Import Log.
From S2P Require Import Config.
From S2P Require Import Stores.
From S2P Require Import RaftState.
From S2P Require Import RaftElection.
From S2P Require Import RaftRecovery.
From S2P Require Import RaftInvariant.
From S2P Require Import ApplyFacts.

(** ** The log after a snapshot *)

(** The part of a durable log that survives a snapshot: the entries past the
    boundary when the log, which follows index [b0], reaches the boundary with
    the boundary's own term, and nothing otherwise. *)
Definition recoveredLog (b0 : Z) (es : list LogEntry) (m : SnapshotMetadata) : list LogEntry :=
  if decide (b0 = LastIncludedIndex m) then es
  else if decide (Term <$> entry_of b0 es (LastIncludedIndex m) = Some (LastIncludedTerm m))
  then drop (Z.to_nat (LastIncludedIndex m - b0)) es else [].

Lemma recoveredLog_nil b0 m : recoveredLog b0 [] m = [].
Proof. unfold recoveredLog. repeat case_decide; try done. by rewrite drop_nil. Qed.

Lemma recoveredLog_wf b0 es m :
  contiguous (b0 + 1) es → valid_entries es → b0 ≤ LastIncludedIndex m →
  contiguous (LastIncludedIndex m + 1) (recoveredLog b0 es m) ∧
  valid_entries (recoveredLog b0 es m) ∧
  lenZ (recoveredLog b0 es m) ≤ Z.max 0 (b0 + lenZ es - LastIncludedIndex m).
Proof.
  intros Hc Hv Hb. unfold recoveredLog. pose proof (lenZ_nonneg es). case_decide as Hm.
  { rewrite <- Hm. split_and!; [done..|lia]. }
  case_decide as Ht; [|split_and!; [done|by apply Forall_nil|rewrite lenZ_nil; lia]].
  destruct (entry_of b0 es _) as [e|] eqn:He; [|done]. apply entry_of_Some in He.
  unfold lenZ in *. rewrite length_drop. split_and!; [|by apply Forall_drop|lia].
  apply (contiguous_drop _ _ (Z.to_nat (LastIncludedIndex m - b0))) in Hc.
  replace (b0 + 1 + _) with (LastIncludedIndex m + 1) in Hc by lia. done.
Qed.

Lemma entry_of_recoveredLog b0 es m i :
  b0 = LastIncludedIndex m ∨
    Term <$> entry_of b0 es (LastIncludedIndex m) = Some (LastIncludedTerm m) →
  b0 ≤ LastIncludedIndex m → LastIncludedIndex m < i →
  entry_of (LastIncludedIndex m) (recoveredLog b0 es m) i = entry_of b0 es i.
Proof.
  intros Hor Hb Hi. unfold recoveredLog. case_decide as Hm; [by rewrite Hm|].
  rewrite decide_True by tauto.
  pose proof (entry_of_drop b0 es (Z.to_nat (LastIncludedIndex m - b0)) i) as Hd.
  rewrite Z2Nat.id in Hd by lia.
  replace (b0 + (LastIncludedIndex m - b0)) with (LastIncludedIndex m) in Hd by lia.
  rewrite Hd. by rewrite decide_True by lia.
Qed.

Section Recovery.
Context {SS LS SM NS : Type}
  `{StableStoreLaws SS} `{LogStoreLaws LS} `{StateMachineLaws SM} `{SnapshotStoreLaws NS}.
Abbreviation Raft := (Raft SS LS SM NS).
Implicit Types r : Raft.

Lemma recoverLog_spec (ls : LS) b0 es m ls' :
  log_inv ls → log_entries ls = es → contiguous (b0 + 1) es → 0 ≤ b0 →
  b0 + lenZ es < 2 ^ 63 → 0 ≤ LastIncludedIndex m < 2 ^ 63 →
  recoverLogAfterSnapshot ls es m = (ls', None) →
  log_inv ls' ∧ log_entries ls' = recoveredLog b0 es m ∧
  (es ≠ [] → b0 ≤ LastIncludedIndex m).
Proof.
  intros Hinv Hes Hc Hb0 Hb Hm. unfold recoverLogAfterSnapshot.
  assert (chained (log_entries ls)) as Hch by (exists (b0 + 1); by rewrite Hes).
  destruct es as [|e0 es0] eqn:Hdes.
  { intros [= <-]. by rewrite recoveredLog_nil. }
  rewrite <- Hdes in *. assert (Index e0 = b0 + 1) as Hi0 by (rewrite Hdes in Hc; by destruct Hc).
  rewrite Hi0, (u64_small (LastIncludedIndex m + 1)) by lia.
  case_decide as Heq.
  { intros [= <-]. unfold recoveredLog. rewrite decide_True by lia. by split_and!; [| |lia]. }
  case_decide; [done|]. rewrite u64_small by lia.
  unfold recoveredLog. rewrite (decide_False (P := b0 = _)) by lia.
  unfold entry_of. rewrite (decide_True (P := b0 < _)) by lia.
  replace (LastIncludedIndex m - b0 - 1) with (LastIncludedIndex m - (b0 + 1)) by lia.
  match goal with |- (if ?b then _ else _) = _ → _ => destruct b eqn:Hmatch end.
  - intros Hct. apply log_CompactThrough_law in Hct as [Hinv' Hes']; [|done..].
    split; [done|]. split; [|lia]. rewrite Hes', Hes, (filter_above _ _ _ Hc).
    case_decide; [|done]. destruct (es !! _) as [e|] eqn:He; [|done].
    apply bool_decide_eq_true in Hmatch as [_ Ht].
    rewrite decide_True by (simpl; congruence). f_equal. lia.
  - intros Htr. apply log_TruncateFrom_law in Htr as [Hinv' Hes']; [|done..].
    split; [done|]. split; [|lia]. rewrite Hes', Hes, (filter_below _ _ _ Hc).
    rewrite Z.sub_diag. simpl. symmetry. apply decide_False. intros Ht.
    destruct (es !! _) as [e|] eqn:He; [|done]. simplify_eq/=.
    pose proof (lookup_lt_Some _ _ _ He) as Hlt.
    rewrite decide_True in Hmatch by (unfold lenZ; lia).
    apply bool_decide_eq_false in Hmatch. apply Hmatch.
    split; [|congruence]. rewrite (contiguous_lookup (b0 + 1) (e0 :: es0) _ _ Hc He). lia.
Qed.

(** ** The replay loop *)

Lemma walkable_applied r e :
  walkable r → lastApplied r < commitIndex r → entry r (lastApplied r + 1) = Some e →
  ∀ m, walkable (r <| machine := m |> <| lastApplied := lastApplied r + 1 |>) ∧
    backlog r = e :: backlog (r <| machine := m |> <| lastApplied := lastApplied r + 1 |>).
Proof.
  intros Hw Hlt He m. split; [|by rewrite (backlog_unfold _ _ Hw Hlt He)].
  destruct Hw. constructor; unfold lastIndex, base in *; cbn; [done|lia|done].
Qed.

(** Replay runs the backlog, or reports an error. *)
Lemma replay_spec n r r' :
  walkable r → (Z.to_nat (commitIndex r - lastApplied r) < n)%nat →
  replayCommitted n r = (r', None) →
  ∃ m, run_entries (machine r) (backlog r) = Some m ∧
    r' = r <| machine := m |> <| lastApplied := commitIndex r |>.
Proof.
  revert r. induction n as [|n IH]; intros r Hw Hn; [lia|]. simpl.
  case_decide as Hlt; cycle 1.
  { intros [= <-]. exists (machine r). destruct Hw as [_ [_ ?] _].
    assert (lastApplied r = commitIndex r) as Heq by lia.
    unfold backlog. rewrite Heq, Z.sub_diag. split; [done|]. destruct r; simpl in *; by subst. }
  destruct (next_applied _ Hw Hlt) as (Hu & e & Hat & He & Hi). rewrite Hu, Hat.
  destruct (walkable_applied _ _ Hw Hlt He (machine r)) as [Hw' Hb'].
  unfold run_entry in IH. case_decide as Hop.
  - destruct (applier r) eqn:Happ; [|done]. simpl.
    destruct (sm_Apply (machine r) e) as [m [err|]] eqn:Ha; [done|]. simpl.
    destruct (walkable_applied _ _ Hw Hlt He m) as [Hw1 Hb1].
    cbn. rewrite Hu. intros Hr. apply IH in Hr as (m' & Hrun & ->); [|done|cbn; lia].
    exists m'. split; [|done]. rewrite Hb1. simpl. unfold run_entry.
    rewrite decide_True, Ha by done. done.
  - cbn. rewrite ?Hu. intros Hr. apply IH in Hr as (m' & Hrun & ->); [|by destruct r|cbn; lia].
    exists m'. split; [|by destruct r]. rewrite Hb'. simpl. unfold run_entry.
    rewrite decide_False by tauto. simpl. destruct r. exact Hrun.
Qed.

Lemma replay_live n r m :
  walkable r → (Z.to_nat (commitIndex r - lastApplied r) < n)%nat → applier r = true →
  run_entries (machine r) (backlog r) = Some m →
  replayCommitted n r = (r <| machine := m |> <| lastApplied := commitIndex r |>, None).
Proof.
  revert r. induction n as [|n IH]; intros r Hw Hn Happ; [lia|]. simpl.
  case_decide as Hlt; cycle 1.
  { destruct Hw as [_ [_ ?] _]. assert (lastApplied r = commitIndex r) as Heq by lia.
    unfold backlog. rewrite Heq, Z.sub_diag. intros [= <-]. destruct r; simpl in *; by subst. }
  destruct (next_applied _ Hw Hlt) as (Hu & e & Hat & He & Hi). rewrite Hu, Hat. rewrite Happ.
  destruct (run_entry (machine r) e) as [m1|] eqn:Hm1;
    destruct (walkable_applied _ _ Hw Hlt He (default (machine r) (run_entry (machine r) e)))
      as [Hw1 ->]; simpl; rewrite Hm1; [|done]. simpl.
  intros Hrun. rewrite Hm1 in *. simpl in *.
  revert Hm1. unfold run_entry. case_decide.
  - destruct (sm_Apply (machine r) e) as [m' [err|]]; [done|]. intros [= ->].
    pose proof (IH _ Hw1) as Hr. cbn in *. rewrite Hu. by rewrite Hr by (done || lia).
  - intros [= <-]. pose proof (IH _ Hw1) as Hr. destruct r; cbn in *. rewrite Hu.
    apply Hr; (done || lia).
Qed.

(** ** The constructor *)

(** The node a start-up builds from stable state [d], entries [es] past the
    boundary [meta], and a machine [m] that holds the boundary's image. *)
Record recovered (cfg : Config) (d : StableState) (es : list LogEntry)
    (meta : SnapshotMetadata) (m : SM) r : Prop := {
  rec_id : id r = ID (Self cfg) ∧ peers r = Peers cfg;
  rec_role : state r = Follower ∧ leaderID r = UnknownLeader ∧ pendingResults r = ∅ ∧ channels r = [];
  rec_term : currentTerm r = CurrentTerm d ∧ votedFor r = VotedFor d;
  rec_log : log r = es ∧ snapshotMeta r = meta;
  rec_commit : commitIndex r = CommitIndex d ∧ lastApplied r = CommitIndex d;
  rec_machine : run_entries m
    (take (Z.to_nat (CommitIndex d - LastIncludedIndex meta)) es) = Some (machine r);
}.

(** What the durable stores of a node satisfy between operations. *)
Record disk_ok (ss : SS) (ls : LS) (b0 : Z) : Prop := {
  disk_stable : stable_inv ss ∧ stable_state_ok (stable_state ss) ∧
                0 ≤ CurrentTerm (stable_state ss) < 2 ^ 64 ∧ 0 ≤ LastApplied (stable_state ss);
  disk_log : log_inv ls ∧ contiguous (b0 + 1) (log_entries ls) ∧ valid_entries (log_entries ls);
  disk_bound : 0 ≤ b0 ∧ b0 + lenZ (log_entries ls) < 2 ^ 63;
}.

Lemma initial_walkable cfg (ss : SS) (ls : LS) (m : SM) ap meta (sno : option NS) d es :
  log_wf es meta → LastIncludedIndex meta ≤ CommitIndex d ≤ LastIncludedIndex meta + lenZ es →
  walkable (initialRaft cfg ss ls m ap meta sno d es).
Proof. intros Hwf Hc. constructor; unfold lastIndex, base; simpl; [done|lia|lia]. Qed.

Lemma new_spec cfg (ss : SS) (ls : LS) m ap meta (sno : option NS) b0 r :
  disk_ok ss ls b0 → sm_inv m → 0 ≤ ID (Self cfg) →
  0 ≤ LastIncludedIndex meta → LastIncludedIndex meta + lenZ (log_entries ls) < 2 ^ 63 →
  snapshot_covers (initialRaft cfg ss ls m ap meta sno (stable_state ss) (log_entries ls)) →
  newWithLogAndSnapshot cfg ss ls m ap meta sno = Ok r →
  node_ok r ∧ snapshotStore r = sno ∧
  recovered cfg (stable_state ss) (log_entries ls) meta m r.
Proof.
  intros [(Hsi & Hsok & Hterm & _) (Hli & _) _] Hm Hid Hb0 Hb Hcov. unfold newWithLogAndSnapshot.
  destruct (Config_Validate cfg); [done|].
  destruct (SnapshotMetadata_Validate meta) eqn:Hmeta; [done|].
  destruct (stable_Load ss) as [ss' [d|]] eqn:Hls; [|done].
  apply stable_Load_law in Hls as (Hsi' & Hss' & Hd); [|done]. pose proof (Hd d eq_refl); subst d; clear Hd.
  destruct (log_Load ls) as [ls' [es|]] eqn:Hll; [|done].
  apply log_Load_law in Hll as (Hli' & Hes' & Hes); [|done]. pose proof (Hes es eq_refl); subst es; clear Hes.
  destruct (validateLogSuffix _ _) eqn:Hval; [done|].
  apply validateLogSuffix_spec in Hval as [Hv Hc]; [|lia..].
  rewrite lastLogIndexFor_eq by done. case_decide as Hrange; [done|]. case_decide; [done|].
  assert (log_wf (log_entries ls) meta) as Hwf by by constructor.
  set (d := stable_state ss) in *. set (es := log_entries ls) in *.
  destruct (replayCommitted _ _) as [r1 [e|]] eqn:Hr; [done|].
  apply replay_spec in Hr as (m' & Hrun & Hr1); [|apply initial_walkable; [done|lia]|cbn; lia].
  assert (sm_inv m') as Hm' by (apply run_entries_inv in Hrun as []; done).
  unfold backlog, base in Hrun. simpl in Hrun. rewrite Z.sub_diag in Hrun. simpl in Hrun.
  assert (recovered cfg d es meta m r1) as Hrec by (subst r1; by constructor).
  assert (∀ s', stable_inv s' → stable_state s' = mkStableState (CurrentTerm d) (VotedFor d)
    (CommitIndex d) (CommitIndex d) → node_ok (r1 <| stable := s' |>)) as Hok.
  { intros s' Hs' Heq. destruct Hsok. subst r1. constructor; try done; unfold lastIndex, base; cbn; try lia.
    rewrite Heq. apply stable_ahead_refl. split; simpl; [done|lia]. }
  case_decide as Hsave.
  - destruct (saveStableValuesLocked _ _ _ _ _) as [r2 [e|]] eqn:Hsv; [done|]. intros [= <-].
    apply saveStableValues_spec in Hsv as (s' & -> & Hs' & _ & Heq); [|by subst r1].
    split; [apply Hok; [done|]; rewrite Heq; by subst r1|].
    split; [by subst r1|]. by destruct Hrec; constructor.
  - intros [= <-]. split; [|split; [by subst r1|done]].
    replace r1 with (r1 <| stable := ss' |>) by by subst r1. apply Hok; [done|].
    rewrite Hss'. assert (LastApplied d = CommitIndex d) as Heq by (subst r1; cbn in Hsave; lia).
    clear -Heq. clearbody d. destruct d; simpl in *; congruence.
Qed.

(** ** Start-up with a snapshot store *)

(** The boundary a stored snapshot sets, and the stable state raised to it. *)
Definition diskMeta (o : option Snapshot) : SnapshotMetadata :=
  match o with
  | Some sn => mkMeta (s_LastIncludedIndex sn) (s_LastIncludedTerm sn)
  | None => mkMeta 0 0
  end.

Definition raised (d : StableState) (boundary : Z) : StableState :=
  mkStableState (CurrentTerm d) (VotedFor d) (Z.max (CommitIndex d) boundary)
    (Z.max (LastApplied d) boundary).

Definition restored (m : SM) (o : option Snapshot) (m' : SM) : Prop :=
  match o with
  | Some sn => sm_Restore m (s_Data sn) = (m', None)
  | None => m' = m
  end.

Definition snap_words (o : option Snapshot) : Prop :=
  ∀ sn, o = Some sn → 0 ≤ s_LastIncludedIndex sn < 2 ^ 63.

Lemma restored_inv m o m' : sm_inv m → restored m o m' → sm_inv m'.
Proof.
  destruct o; simpl; [|by intros ? ->]. intros Hm Hr. by apply sm_Restore_law in Hr as (? & _).
Qed.

Lemma raised_0 d : stable_state_ok d → 0 ≤ LastApplied d → raised d 0 = d.
Proof. intros [] ?. unfold raised. rewrite !Z.max_l by lia. by destruct d. Qed.

Lemma raised_ok d boundary : stable_state_ok d → stable_state_ok (raised d boundary).
Proof. intros []. split; simpl; [done|lia]. Qed.

(** A start that finds no snapshot: the log must then begin at index 1. *)
Lemma new_first_boundary cfg (ss : SS) (ls : LS) m ap (ns : NS) b0 r :
  disk_ok ss ls b0 → sm_inv m → snap_inv ns → snap_stored ns = None → 0 ≤ ID (Self cfg) →
  newWithLogAndSnapshot cfg ss ls m ap (mkMeta 0 0) (Some ns) = Ok r →
  node_ok r ∧ snapshotStore r = Some ns ∧ (log_entries ls = [] ∨ b0 = 0) ∧
  recovered cfg (raised (stable_state ss) 0) (recoveredLog b0 (log_entries ls) (mkMeta 0 0))
    (mkMeta 0 0) m r.
Proof.
  intros Hd Hm Hns Hst Hid Hnew. pose proof Hd as [(_ & Hsok & _ & Hap) (_ & Hc & _) [Hb0 Hb]].
  assert (snapshot_covers (initialRaft cfg ss ls m ap (mkMeta 0 0) (Some ns)
    (stable_state ss) (log_entries ls))) as Hcov by (unfold snapshot_covers, base; simpl; by rewrite Hst).
  apply (new_spec _ _ _ _ _ _ _ b0) in Hnew as (Hok & Hstore & Hrec); try (done || (simpl; lia)).
  assert (log_entries ls = [] ∨ b0 = 0) as Hcase.
  { destruct (ok_log _ Hok) as [_ Hwc _ _]. destruct Hrec as [_ _ _ [Hl Hmeta] _ _].
    rewrite Hl, Hmeta in Hwc. destruct (log_entries ls) as [|e0 es0]; [by left|right].
    destruct Hc as [Hi0 _], Hwc as [Hi0' _]. simpl in Hi0'. lia. }
  rewrite raised_0 by done. split_and!; [done..|].
  destruct Hcase as [Hnil| ->]; [|done]. by rewrite Hnil, recoveredLog_nil in *.
Qed.

(** The stores once the log and the stable state have met the snapshot. *)
Lemma disk_recovered (ss ss2 : SS) (ls ls2 : LS) b0 meta :
  disk_ok ss ls b0 → 0 ≤ LastIncludedIndex meta < 2 ^ 63 →
  log_entries ls = [] ∨ b0 ≤ LastIncludedIndex meta →
  stable_inv ss2 → stable_state ss2 = raised (stable_state ss) (LastIncludedIndex meta) →
  log_inv ls2 → log_entries ls2 = recoveredLog b0 (log_entries ls) meta →
  disk_ok ss2 ls2 (LastIncludedIndex meta).
Proof.
  intros [(Hsi & Hsok & Hterm & Hap) (Hli & Hc & Hv) [Hb0 Hb]] Hw Hcase Hsi2 Hss2 Hli2 Hes2.
  assert (contiguous (LastIncludedIndex meta + 1) (log_entries ls2) ∧
    valid_entries (log_entries ls2) ∧
    LastIncludedIndex meta + lenZ (log_entries ls2) < 2 ^ 63) as (Hc2 & Hv2 & Hb2).
  { rewrite Hes2. destruct Hcase as [->|Hcase].
    - rewrite recoveredLog_nil, lenZ_nil. split_and!; [done|by apply Forall_nil|lia].
    - destruct (recoveredLog_wf b0 (log_entries ls) meta) as (?&?&?); [done..|].
      split_and!; [done..|]. lia. }
  constructor; [rewrite Hss2; split_and!|done|lia];
    first [done|by apply raised_ok|simpl; lia].
Qed.

Lemma NewWithSnapshot_spec cfg (ss : SS) (ls : LS) m ap (ns : NS) b0 r :
  disk_ok ss ls b0 → sm_inv m → snap_inv ns → 0 ≤ ID (Self cfg) →
  snap_words (snap_stored ns) →
  NewWithSnapshot cfg ss ls m ap ns = Ok r →
  let meta := diskMeta (snap_stored ns) in
  node_ok r ∧ (log_entries ls = [] ∨ b0 ≤ LastIncludedIndex meta) ∧
  (∃ ns', snapshotStore r = Some ns' ∧ snap_stored ns' = snap_stored ns) ∧
  ∃ m', restored m (snap_stored ns) m' ∧
    recovered cfg (raised (stable_state ss) (LastIncludedIndex meta))
      (recoveredLog b0 (log_entries ls) meta) meta m' r.
Proof.
  intros Hd Hm Hns Hid Hw. unfold NewWithSnapshot.
  destruct (snap_Load ns) as [ns' [o|e]] eqn:Hln; [|done].
  apply snap_Load_law in Hln as (Hns' & Hst & Ho); [|done].
  pose proof (Ho o eq_refl) as ->. clear Ho. rewrite <- Hst in Hw.
  pose proof Hd as [(Hsi & Hsok & Hterm & Hap) (Hli & Hc & Hv) [Hb0 Hb]].
  destruct (snap_stored ns) as [sn|] eqn:Hsn; simpl; cycle 1.
  { intros Hnew. apply (new_first_boundary _ _ _ _ _ _ b0) in Hnew as (Hok & Hstore & Hcase & Hrec);
      [|done..]. split; [done|]. split; [destruct Hcase; [by left|right; lia]|].
    split; [by exists ns'|]. by exists m. }
  specialize (Hw sn Hst). set (meta := mkMeta _ _).
  destruct (SnapshotMetadata_Validate meta); [done|].
  destruct (stable_Load ss) as [ss1 [d|]] eqn:Hls; [|done].
  apply stable_Load_law in Hls as (Hsi1 & Hss1 & Hd1); [|done].
  pose proof (Hd1 d eq_refl); subst d; clear Hd1.
  destruct (log_Load ls) as [ls1 [es|]] eqn:Hll; [|done].
  apply log_Load_law in Hll as (Hli1 & Hes1 & Hd1); [|done].
  pose proof (Hd1 es eq_refl); subst es; clear Hd1.
  destruct (recoverLogAfterSnapshot _ _ _) as [ls2 [e|]] eqn:Hrl; [done|].
  apply (recoverLog_spec _ b0) in Hrl as (Hli2 & Hes2 & Hle); try done.
  destruct (sm_Restore m _) as [m2 [e|]] eqn:Hrs; [done|].
  fold (raised (stable_state ss) (LastIncludedIndex meta)).
  destruct (stable_Save _ _) as [ss2 [e|]] eqn:Hsv; [done|].
  apply stable_Save_law in Hsv as (Hsi2 & _ & Hss2); [|done].
  assert (sm_inv m2) as Hm2 by (apply sm_Restore_law in Hrs as (? & _); done).
  assert (log_entries ls = [] ∨ b0 ≤ LastIncludedIndex meta) as Hcase.
  { destruct (log_entries ls) eqn:Hnil; [by left|right]. by apply Hle. }
  pose proof (disk_recovered _ _ _ _ _ meta Hd Hw Hcase Hsi2 Hss2 Hli2 Hes2) as Hdisk2.
  intros Hnew. apply (new_spec _ _ _ _ _ _ _ (LastIncludedIndex meta)) in Hnew; try (done || apply Hdisk2).
  - rewrite Hss2, Hes2 in Hnew. destruct Hnew as (Hok & Hstore & Hrec).
    split; [done|]. split; [done|]. split; [by exists ns'|]. by exists m2.
  - unfold snapshot_covers. simpl. rewrite Hst. split; [done|].
    unfold base, baseTerm. simpl. split; [lia|done].
Qed.

(** ** What a start-up reads of the log store *)

Lemma NewWithSnapshot_same_load cfg (ss : SS) (ls ls' : LS) m ap (ns : NS) :
  log_Load ls = log_Load ls' →
  NewWithSnapshot cfg ss ls m ap ns = NewWithSnapshot cfg ss ls' m ap ns.
Proof. intros Heq. unfold NewWithSnapshot, newWithLogAndSnapshot. by rewrite Heq. Qed.

Lemma NewWithSnapshot_loads cfg (ss : SS) (ls : LS) m ap (ns : NS) r :
  NewWithSnapshot cfg ss ls m ap ns = Ok r → ∃ ls' es, log_Load ls = (ls', Ok es).
Proof.
  unfold NewWithSnapshot, newWithLogAndSnapshot.
  destruct (log_Load ls) as [ls' [es|e]]; [by eexists _, _|].
  repeat (match goal with |- context [match ?x with _ => _ end] => destruct x end; try done).
Qed.

(** ** Restarting a node *)

Lemma node_ok_disk r :
  node_ok r → CurrentTerm (stable_state (stable r)) < 2 ^ 64 →
  disk_ok (stable r) (logStore r) (base r).
Proof.
  intros [[Hb0 Hc Hv Hb] _ Ha Hcm Ht _ _ Hsi [Hav Hac Haa Hasok] Hli Hle _ _] Hw.
  constructor; rewrite ?Hle; simpl in *; split_and!; try done; unfold base in *; simpl in *; lia.
Qed.

(** The durable snapshot agrees with what the node has committed. *)
Definition snapshot_agrees r (o : option Snapshot) : Prop :=
  ∀ sn, o = Some sn → base r < s_LastIncludedIndex sn ≤ commitIndex r →
    Term <$> entry r (s_LastIncludedIndex sn) = Some (s_LastIncludedTerm sn).

Lemma recovered_advances r cfg d ls ns meta m r' :
  node_ok r → snapshotStore r = Some ns → meta = diskMeta (snap_stored ns) →
  d = stable_state (stable r) → ls = log r →
  snapshot_agrees r (snap_stored ns) →
  ID (Self cfg) = id r → Peers cfg = peers r →
  recovered cfg (raised d (LastIncludedIndex meta)) (recoveredLog (base r) ls meta) meta m r' →
  advances r r'.
Proof.
  intros Hok Hns -> -> -> Hag Hid Hp [[Hid' Hp'] _ [Ht Hv] [Hl Hm] [Hcm Ha] _].
  pose proof (ok_applied _ Hok). pose proof (ok_snapshot _ Hok) as Hcov.
  destruct (ok_stable _ Hok) as [Hav Hac Haa Hasok]. simpl in *.
  unfold snapshot_covers in Hcov. rewrite Hns in Hcov. destruct Hcov as [_ Hcov].
  assert (base r ≤ LastIncludedIndex (diskMeta (snap_stored ns))) as Hbase
    by (destruct (snap_stored ns); simpl; lia).
  constructor; unfold base in *; rewrite ?Hm; try (done || lia).
  - split; congruence.
  - intros i Hi. unfold entry, base. rewrite Hm, Hl. apply entry_of_recoveredLog; [|done|lia].
    destruct (snap_stored ns) as [sn|]; simpl in *; [|by left].
    destruct (decide (LastIncludedIndex (snapshotMeta r) = s_LastIncludedIndex sn)); [by left|right].
    apply Hag; [done|]. unfold base. lia.
Qed.

Lemma restart_evolves r cfg m ap ns r' :
  node_ok r → snapshotStore r = Some ns → CurrentTerm (stable_state (stable r)) < 2 ^ 64 →
  snap_words (snap_stored ns) → snapshot_agrees r (snap_stored ns) →
  ID (Self cfg) = id r → Peers cfg = peers r → sm_inv m →
  NewWithSnapshot cfg (stable r) (logStore r) m ap ns = Ok r' → evolves r r'.
Proof.
  intros Hok Hns Ht Hw Hag Hid Hp Hm Hnew. pose proof (ok_id _ Hok).
  pose proof (ok_snapshot _ Hok) as Hcov. unfold snapshot_covers in Hcov. rewrite Hns in Hcov.
  apply (NewWithSnapshot_spec _ _ _ _ _ _ (base r)) in Hnew as (Hok' & _ & _ & m' & _ & Hrec);
    [|by apply node_ok_disk|done|apply Hcov|lia|done].
  split; [done|]. rewrite (ok_log_entries _ Hok) in Hrec.
  by eapply recovered_advances.
Qed.

(** ** A start-up that succeeds *)

Section Live.
Context `{!StableStoreLive SS} `{!LogStoreLive LS} `{!SnapshotStoreLive NS}.

Lemma new_live cfg (ss : SS) (ls : LS) m meta (sno : option NS) m' :
  disk_ok ss ls (LastIncludedIndex meta) → Config_Validate cfg = None →
  SnapshotMetadata_Validate meta = None →
  LastIncludedIndex meta ≤ LastApplied (stable_state ss) →
  CommitIndex (stable_state ss) ≤ LastIncludedIndex meta + lenZ (log_entries ls) →
  run_entries m (take (Z.to_nat (CommitIndex (stable_state ss) - LastIncludedIndex meta))
                   (log_entries ls)) = Some m' →
  ∃ r, newWithLogAndSnapshot cfg ss ls m true meta sno = Ok r.
Proof.
  intros [(Hsi & Hsok & Hterm & _) (Hli & Hc & Hv) [Hb0 Hb]] Hcfg Hmeta Ha Hcm Hrun.
  unfold newWithLogAndSnapshot. rewrite Hcfg, Hmeta. destruct (Hsok) as [Hnv Hac].
  destruct (stable_Load_live ss Hsi) as [ss' Hls]. rewrite Hls.
  apply stable_Load_law in Hls as (Hsi' & _); [|done].
  destruct (log_Load_live ls Hli) as [ls' Hll]. rewrite Hll.
  assert (validateLogSuffix (log_entries ls) meta = None) as ->
    by (apply validateLogSuffix_spec; (done || lia)).
  rewrite lastLogIndexFor_eq by done. rewrite decide_False by lia. rewrite decide_False by lia.
  erewrite replay_live; [|apply initial_walkable; [by constructor|lia]|simpl; lia|done|]; cycle 1.
  { unfold backlog, base. simpl. by rewrite Z.sub_diag. }
  case_decide; [|by eexists]. unfold saveStableValuesLocked. cbn.
  destruct (stable_Save_live ss' (mkStableState (CurrentTerm (stable_state ss))
    (VotedFor (stable_state ss)) (CommitIndex (stable_state ss)) (CommitIndex (stable_state ss))))
    as [s ->]; [done|by split; simpl|by eexists].
Qed.

Lemma recoverLog_live (ls : LS) b0 m :
  log_inv ls → contiguous (b0 + 1) (log_entries ls) → 0 ≤ b0 ≤ LastIncludedIndex m →
  b0 + lenZ (log_entries ls) < 2 ^ 63 → LastIncludedIndex m < 2 ^ 63 →
  ∃ ls', recoverLogAfterSnapshot ls (log_entries ls) m = (ls', None).
Proof.
  intros Hinv Hc Hb0 Hb Hm. unfold recoverLogAfterSnapshot.
  destruct (log_entries ls) as [|e0 es0] eqn:Hes; [by eexists|]. pose proof Hc as [-> _].
  pose proof (lenZ_nonneg (e0 :: es0)).
  rewrite u64_small by lia. case_decide; [by eexists|]. rewrite decide_False by lia.
  match goal with |- context [if ?b then _ else _] => destruct b end.
  - apply log_CompactThrough_live; [done|]. exists (b0 + 1). by rewrite Hes.
  - apply (log_TruncateFrom_live _ (b0 + 1)); [done|by rewrite Hes|lia|rewrite Hes; lia].
Qed.

(** On stores that do not fail, a start-up succeeds once the log reaches
    the commit index, the image restores, and the machine takes the
    entries. *)
Lemma NewWithSnapshot_live cfg (ss : SS) (ls : LS) m (ns : NS) b0 m1 m2 :
  disk_ok ss ls b0 → snap_inv ns → Config_Validate cfg = None → sm_inv m →
  snap_words (snap_stored ns) →
  let meta := diskMeta (snap_stored ns) in
  let es := recoveredLog b0 (log_entries ls) meta in
  let d := raised (stable_state ss) (LastIncludedIndex meta) in
  SnapshotMetadata_Validate meta = None → b0 ≤ LastIncludedIndex meta →
  CommitIndex d ≤ LastIncludedIndex meta + lenZ es →
  restored m (snap_stored ns) m1 →
  run_entries m1 (take (Z.to_nat (CommitIndex d - LastIncludedIndex meta)) es) = Some m2 →
  ∃ r, NewWithSnapshot cfg ss ls m true ns = Ok r.
Proof.
  intros Hd Hns Hcfg Hm Hw meta es d Hmeta Hb0' Hcm Hres Hrun.
  pose proof Hd as [(Hsi & Hsok & Hterm & Hap) (Hli & Hc & Hv) [Hb0 Hb]].
  unfold NewWithSnapshot. destruct (snap_Load_live ns Hns) as [ns' ->].
  subst meta es d. destruct (snap_stored ns) as [sn|] eqn:Hsn; simpl in Hres; cycle 1.
  { assert (b0 = 0) as -> by (simpl in *; lia). subst m1. simpl in *.
    rewrite Z.max_l in * by (destruct Hsok; lia).
    apply (new_live _ _ _ _ (mkMeta 0 0) _ m2); done. }
  specialize (Hw sn eq_refl). change (mkMeta _ _) with (diskMeta (Some sn)). rewrite Hmeta.
  destruct (stable_Load_live ss Hsi) as [ss1 Hls]. rewrite Hls.
  apply stable_Load_law in Hls as (Hsi1 & Hss1 & _); [|done].
  destruct (log_Load_live ls Hli) as [ls1 Hll]. rewrite Hll.
  apply log_Load_law in Hll as (Hli1 & Hes1 & _); [|done]. rewrite <- Hes1 in *.
  destruct (recoverLog_live ls1 b0 (diskMeta (Some sn))) as [ls2 Hrl]; [done..|simpl; lia|].
  rewrite Hrl. apply (recoverLog_spec _ b0) in Hrl as (Hli2 & Hes2 & _); [|done..].
  rewrite Hres. fold (raised (stable_state ss) (LastIncludedIndex (diskMeta (Some sn)))).
  destruct (stable_Save_live ss1 (raised (stable_state ss) (LastIncludedIndex (diskMeta (Some sn)))))
    as [ss2 Hsv]; [done|by apply raised_ok|]. rewrite Hsv.
  apply stable_Save_law in Hsv as (Hsi2 & _ & Hss2); [|done].
  apply (new_live _ _ _ _ _ _ m2); try done; rewrite ?Hss2, ?Hes2; try (done || (simpl; lia)).
  apply (disk_recovered ss _ ls1 _ b0); try done. by right.
Qed.
End Live.
End Recovery.
