(* ===== verification/InstallFacts.v ===== *)
(** * Installs that fail, and processes that die in one

    An InstallSnapshot that reports an error has left the node's memory alone;
    of its work on the stores, a part may be done: the image saved, then the
    durable log cut to what follows it, then the stable state raised.  Up to
    the cut the node is as consistent as before; past it, a start from what it
    has left makes it so. *)

From S2P Require Import Prelude.
From S2P Require Import Log.
From S2P Require Import Config.
From S2P Require Import Stores.
From S2P Require Import RaftState.
From S2P Require Import RaftElection.
From S2P Require Import RaftReplication.
From S2P Require Import RaftSnapshot.
From S2P Require Import RaftRecovery.
From S2P Require Import RaftInvariant.
From S2P Require Import ElectionFacts.
From S2P Require Import ReplicationFacts.
From S2P Require Import SnapshotFacts.
From S2P Require Import RecoveryFacts.

Section InstallFacts.
Context {SS LS SM NS : Type}
  `{StableStoreLaws SS} `{LogStoreLaws LS} `{StateMachineLaws SM} `{SnapshotStoreLaws NS}.
Abbreviation Raft := (Raft SS LS SM NS).
Implicit Types r : Raft.

(** What a log keeps under a snapshot that ends at index [i] with term [t]. *)
Definition kept r (i t : Z) : list LogEntry :=
  if decide (term_of r i = Some t) then after r i else [].

Lemma recoveredLog_kept r i t :
  base r ≤ i → (i = base r → t = baseTerm r) →
  recoveredLog (base r) (log r) (mkMeta i t) = kept r i t.
Proof.
  intros Hi Ht. unfold recoveredLog, kept, term_of, after. simpl. fold (entry r i).
  destruct (decide (base r = i)) as [<-|Hne].
  - rewrite (decide_True (P := base r = base r)), Z.sub_diag by done.
    rewrite decide_True by (by rewrite Ht). done.
  - by rewrite (decide_False (P := i = base r)) by congruence.
Qed.

(** The stores after the image was saved, or not. *)
Definition uncut r (req : InstallSnapshotRequest) (ns : NS) (ls : LS) (ss : SS) : Prop :=
  log_entries ls = log r ∧ stable_state ss = stable_state (stable r) ∧
  (Some (snap_stored ns) = snap_stored <$> snapshotStore r ∨
   snap_stored ns = Some (mkSnapshot (is_LastIncludedIndex req) (is_LastIncludedTerm req)
                            (is_Data req))).

(** And after the log was cut. *)
Definition cut r (req : InstallSnapshotRequest) (ns : NS) (ls : LS) (ss : SS) : Prop :=
  log_entries ls = kept r (is_LastIncludedIndex req) (is_LastIncludedTerm req) ∧
  snap_stored ns = Some (mkSnapshot (is_LastIncludedIndex req) (is_LastIncludedTerm req)
                           (is_Data req)) ∧
  (stable_state ss = stable_state (stable r) ∨
   stable_state ss = mkStableState (currentTerm r) (votedFor r)
     (Z.max (commitIndex r) (is_LastIncludedIndex req)) (is_LastIncludedIndex req)).

Inductive abandoned r (req : InstallSnapshotRequest) : Raft → Prop :=
| abandoned_intro ns ls m ss :
    snap_inv ns → log_inv ls → sm_inv m → stable_inv ss →
    uncut r req ns ls ss ∨ cut r req ns ls ss →
    abandoned r req (r <| snapshotStore := Some ns |> <| logStore := ls |>
                       <| machine := m |> <| stable := ss |>).

Lemma installTrimLog_fails r req suffix r' e :
  node_ok r → installTrimLog r req suffix = (r', Some e) →
  ∃ ls, r' = r <| logStore := ls |> ∧ log_inv ls ∧ log_entries ls = log r.
Proof.
  intros Hok. pose proof (ok_log_entries _ Hok) as Hes.
  assert (chained (log_entries (logStore r))) as Hch.
  { exists (base r + 1). rewrite Hes. apply Hok. }
  unfold installTrimLog. destruct suffix.
  - destruct (log_CompactThrough _ _) as [ls [x|]] eqn:Hc; [|done]. intros [= <- _].
    apply log_CompactThrough_law in Hc as [Hinv Hle]; [|apply Hok|done]. exists ls. by rewrite Hle.
  - case_decide; [|done]. destruct (log_TruncateFrom _ _) as [ls [x|]] eqn:Hc; [|done].
    intros [= <- _]. apply log_TruncateFrom_law in Hc as [Hinv Hle]; [|apply Hok|done].
    exists ls. by rewrite Hle.
Qed.

Lemma installSnapshot_fails r ns req r' e :
  node_ok r → snapshotStore r = Some ns →
  lastApplied r < is_LastIncludedIndex req < 2 ^ 63 →
  installSnapshot r ns req = (r', Some e) → abandoned r req r'.
Proof.
  intros Hok Hns Hi. unfold installSnapshot. pose proof (ok_applied _ Hok).
  destruct (saveSnapshot _ _ _) as [r1 e1] eqn:Hs.
  assert (∃ ns', r1 = r <| snapshotStore := Some ns' |> ∧ snap_inv ns' ∧
    (Some (snap_stored ns') = snap_stored <$> snapshotStore r ∨
     snap_stored ns' = Some (mkSnapshot (is_LastIncludedIndex req) (is_LastIncludedTerm req)
                               (is_Data req)))) as (ns' & -> & Hinv & Hor).
  { unfold saveSnapshot in Hs. destruct (snap_Save _ _) as [ns' x] eqn:Hsv. injection Hs as <- <-.
    pose proof (ok_snapshot _ Hok) as Hcov. unfold snapshot_covers in Hcov. rewrite Hns in Hcov.
    apply snap_Save_law in Hsv as [Hinv Hst]; [|apply Hcov]. exists ns'. split_and!; [done..|].
    rewrite Hns. destruct x; [destruct Hst as [->|[_ ?]]; [by left|by right]|right; apply Hst]. }
  apply saveSnapshot_spec in Hs as (Hev & ns2 & Hns2 & _ & Hst); [|done|done|simpl; lia|simpl; lia].
  apply (f_equal snapshotStore) in Hns2. cbn in Hns2. injection Hns2 as <-.
  destruct e1.
  { intros [= <- _]. apply (abandoned_intro r req ns' (logStore r) (machine r) (stable r)); try done;
      [apply Hok..|]. left. split_and!; [apply Hok|done..]. }
  destruct (Hst eq_refl) as [Hst' _].
  destruct (installTrimLog _ _ _) as [r2 [e2|]] eqn:Htr.
  { apply installTrimLog_fails in Htr as (ls & -> & Hli & Hle); [|apply Hev].
    intros [= <- _]. apply (abandoned_intro r req ns' ls (machine r) (stable r)); try done;
      [apply Hok..|]. left. by split_and!; [| |right]. }
  change (retainedSuffix r req) with (retainedSuffix (r <| snapshotStore := Some ns' |>) req) in Htr.
  apply installTrimLog_spec in Htr as (ls & -> & Hli & Hles); [|apply Hev|done].
  change (retainedSuffix (r <| snapshotStore := Some ns' |>) req) with (retainedSuffix r req) in Hles.
  rewrite retainedSuffix_spec in Hles by (done || lia).
  assert (log_entries ls = kept r (is_LastIncludedIndex req) (is_LastIncludedTerm req)) as Hkept
    by (rewrite Hles; unfold kept; by case_decide).
  unfold installRestore. cbn [machine set_field].
  destruct (sm_Restore _ _) as [m e3] eqn:Hr. apply sm_Restore_law in Hr as (Hm & _); [|apply Hok].
  destruct e3 as [e3|]; simpl.
  { intros [= <- _]. apply (abandoned_intro r req ns' ls m (stable r)); try done; [apply Hok|].
    right. by split_and!; [| |left]. }
  unfold installPublish. destruct (saveStableValuesLocked _ _ _ _ _) as [r3 [e4|]] eqn:Hsv; [|done].
  apply saveStableValues_spec in Hsv as (ss & -> & Hsi & Hss); [|apply Hok].
  intros [= <- _]. apply (abandoned_intro r req ns' ls m ss); try done. right. split_and!; [done..|].
  destruct Hss as [->|[_ ->]]; [by left|right]. cbn. f_equal. lia.
Qed.

(** An InstallSnapshot that reports an error. *)
Lemma HandleInstallSnapshot_fails r req r' resp e :
  node_ok r → 0 ≤ is_Term req < 2 ^ 64 → is_LastIncludedIndex req < 2 ^ 63 →
  HandleInstallSnapshot r req = (r', (resp, Some e)) →
  ∃ r1 err, recognizeLeader r (is_Term req) (is_LeaderID req) = (r1, err) ∧
    currentTerm r ≤ is_Term req ∧
    (r' = r1 ∨ err = None ∧ lastApplied r < is_LastIncludedIndex req ∧ abandoned r1 req r').
Proof.
  intros Hok Ht Hb. unfold HandleInstallSnapshot. case_decide; [done|].
  destruct (recognizeLeader _ _ _) as [r1 err] eqn:Hrec. intros Hh. exists r1, err.
  split; [done|]. split; [lia|].
  apply recognizeLeader_spec in Hrec as (Hev & _ & _ & _ & Ha & _); [|done|lia].
  destruct err; [injection Hh as <- _ _; by left|].
  destruct (snapshotter r1), (snapshotStore r1) as [ns|] eqn:Hns; try (injection Hh as <- _ _; by left).
  destruct (SnapshotMetadata_Validate _); [injection Hh as <- _ _; by left|].
  case_decide; [injection Hh as <- _ _; by left|]. case_decide as Hap; [done|].
  destruct (installSnapshot r1 ns req) as [r2 e2] eqn:Hin. injection Hh as <- _ ->.
  right. split; [done|]. split; [lia|].
  eapply installSnapshot_fails; [apply Hev|done|lia|done].
Qed.

(** ** Going on *)

Lemma abandoned_evolves r req r' :
  node_ok r → lastApplied r < is_LastIncludedIndex req → abandoned r req r' →
  log_entries (logStore r') = log r → evolves r r'.
Proof.
  intros Hok Hi [ns ls m ss Hn Hl Hm Hs Hor] Hes. cbn in Hes. pose proof (ok_applied _ Hok).
  assert (snapshot_covers (r <| snapshotStore := Some ns |>)) as Hcov.
  { pose proof (ok_snapshot _ Hok) as Hcov. unfold snapshot_covers in *. cbn. split; [done|].
    assert (Some (snap_stored ns) = snap_stored <$> snapshotStore r ∨
      snap_stored ns = Some (mkSnapshot (is_LastIncludedIndex req) (is_LastIncludedTerm req)
        (is_Data req))) as [Hst|Hst].
    { destruct Hor as [(_ & _ & ?)|(_ & ? & _)]; [done|by right]. }
    - destruct (snapshotStore r) as [ns0|]; [|done]. injection Hst as ->. apply Hcov.
    - rewrite Hst. simpl. unfold base. simpl. unfold base in *. lia. }
  assert (stable_ahead (election_state r) (stable_state ss)) as Hah.
  { assert (stable_state ss = stable_state (stable r) ∨ stable_state ss = mkStableState (currentTerm r)
      (votedFor r) (Z.max (commitIndex r) (is_LastIncludedIndex req)) (is_LastIncludedIndex req))
      as [->| ->]; [|apply Hok|].
    { destruct Hor as [(_ & ? & _)|(_ & _ & ?)]; [by left|done]. }
    destruct Hok. constructor; simpl; [by right; split; [|right]|lia|lia|]. split; simpl; [done|lia]. }
  split; [|by constructor]. destruct Hok. by constructor.
Qed.

(** A transfer that either goes through or is given up before the cut. *)
Lemma HandleInstallSnapshot_keeps r req r' resp err :
  node_ok r → 0 ≤ is_Term req < 2 ^ 64 → is_LastIncludedIndex req < 2 ^ 63 →
  install_agrees r req → HandleInstallSnapshot r req = (r', (resp, err)) →
  err = None ∨ log_entries (logStore r') = log_entries (logStore r) → evolves r r'.
Proof.
  intros Hok Ht Hb Hag Hh Hor. destruct err as [e|]; [|by eapply HandleInstallSnapshot_evolves].
  destruct Hor as [|Hes]; [done|].
  apply HandleInstallSnapshot_fails in Hh as (r1 & err & Hrec & Hge & Hcase); [|done..].
  apply recognizeLeader_spec in Hrec as (Hev & Hl & _ & _ & Ha & _); [|done|lia].
  destruct Hcase as [->|(_ & Hlt & Hab)]; [done|]. eapply evolves_then; [done|]. intros Hok1.
  eapply abandoned_evolves; [done| |done|]; [lia|]. rewrite Hes, (ok_log_entries _ Hok). congruence.
Qed.

(** ** Starting again *)

(** The node a start makes of a log cut under a snapshot. *)
Lemma adopted_advances r cfg d i t m r' :
  node_ok r → stable_ahead (election_state r) d → base r ≤ i →
  (base r < i ≤ commitIndex r → term_of r i = Some t) → (i = base r → t = baseTerm r) →
  ID (Self cfg) = id r → Peers cfg = peers r →
  recovered cfg (raised d i) (kept r i t) (mkMeta i t) m r' → advances r r'.
Proof.
  intros Hok [Hav Hac Haa Hsok] Hi Hag Hbt Hid Hp [[Hid' Hp'] _ [Ht Hv] [Hl Hm] [Hcm Ha] _].
  pose proof (ok_applied _ Hok). simpl in *.
  assert (base r' = i) as Hb' by (unfold base; by rewrite Hm).
  constructor; rewrite ?Hb'; try (done || lia).
  - split; congruence.
  - intros j Hj. unfold entry. rewrite Hb', Hl. unfold kept. rewrite decide_True.
    + apply entry_after; lia.
    + destruct (decide (i = base r)) as [E|].
      * unfold term_of. by rewrite decide_True, (Hbt E).
      * apply Hag. lia.
Qed.

Lemma cut_ahead r req ns ls ss :
  node_ok r → lastApplied r < is_LastIncludedIndex req → cut r req ns ls ss →
  stable_ahead (election_state r) (stable_state ss).
Proof.
  intros Hok Hi (_ & _ & [->| ->]); [apply Hok|]. pose proof (ok_applied _ Hok).
  constructor; simpl; [by right; split; [|right]|lia..|]. split; simpl; [apply Hok|lia].
Qed.

Lemma kept_wf r i t :
  node_ok r → base r ≤ i < 2 ^ 63 →
  contiguous (i + 1) (kept r i t) ∧ valid_entries (kept r i t) ∧ i + lenZ (kept r i t) < 2 ^ 63.
Proof.
  intros Hok Hi. destruct (ok_log _ Hok) as [Hb0 Hwc Hwv Hwb]. fold (base r) in *. unfold kept.
  case_decide as Ht; [|rewrite lenZ_nil; split_and!; [done|by apply Forall_nil|lia]].
  pose proof (term_of_range _ _ _ Ht) as Hr. pose proof (lenZ_after _ _ Hr). unfold lastIndex in *.
  split_and!; [by apply contiguous_after|by apply valid_after|lia].
Qed.

(** The node a start finds in what an install that cut the log has left. *)
Lemma cut_restart r req ns ls ss cfg m ap r' :
  node_ok r → lastApplied r < is_LastIncludedIndex req < 2 ^ 63 →
  snap_inv ns → log_inv ls → stable_inv ss → cut r req ns ls ss →
  CurrentTerm (stable_state ss) < 2 ^ 64 → 0 ≤ ID (Self cfg) → sm_inv m →
  NewWithSnapshot cfg ss ls m ap ns = Ok r' →
  let i := is_LastIncludedIndex req in
  let t := is_LastIncludedTerm req in
  node_ok r' ∧ (∃ ns', snapshotStore r' = Some ns' ∧ snap_stored ns' = snap_stored ns) ∧
  ∃ m', recovered cfg (raised (stable_state ss) i) (kept r i t) (mkMeta i t) m' r'.
Proof.
  intros Hok Hi Hn Hl Hs Hcut Hw Hid Hm Hnew i t. pose proof (ok_applied _ Hok).
  pose proof (cut_ahead _ _ _ _ _ Hok (proj1 Hi) Hcut) as [Hav Hac Haa Hsok].
  destruct Hcut as (Hes & Hst & _). destruct (ok_log _ Hok) as [Hb0 _ _ _]. fold (base r) in *.
  destruct (kept_wf r i t Hok) as (Hc & Hv & Hb); [subst i; lia|].
  pose proof (ok_term _ Hok). simpl in *.
  assert (disk_ok ss ls i) as Hdisk.
  { constructor; rewrite ?Hes; subst i; split_and!; (done || lia). }
  apply (NewWithSnapshot_spec _ _ _ _ _ _ i) in Hnew; try done.
  - rewrite Hst, Hes in Hnew. simpl in Hnew. fold i t in Hnew.
    destruct Hnew as (Hok' & _ & (ns' & Hns' & Hst') & m' & _ & Hrec).
    split; [done|]. split; [exists ns'; by rewrite Hst|]. exists m'.
    unfold recoveredLog in Hrec. by rewrite decide_True in Hrec by done.
  - rewrite Hst. intros sn [= <-]. subst i. simpl. lia.
Qed.

(** A process that dies in an install, or stops after one that failed, starts
    again as a node that has lost nothing. *)
Lemma abandoned_restart r req r1 cfg m ap ns r' :
  node_ok r → lastApplied r < is_LastIncludedIndex req < 2 ^ 63 → install_agrees r req →
  abandoned r req r1 → snapshotStore r1 = Some ns → CurrentTerm (stable_state (stable r1)) < 2 ^ 64 →
  snap_words (snap_stored ns) → snapshot_agrees r (snap_stored ns) →
  ID (Self cfg) = id r → Peers cfg = peers r → sm_inv m →
  NewWithSnapshot cfg (stable r1) (logStore r1) m ap ns = Ok r' → evolves r r'.
Proof.
  intros Hok Hi Hag Hab Hns Ht Hw Hsa Hid Hp Hm Hnew. pose proof (ok_id _ Hok).
  destruct (decide (log_entries (logStore r1) = log r)) as [Heq|Hne].
  - pose proof (abandoned_evolves _ _ _ Hok (proj1 Hi) Hab Heq) as Hev.
    eapply evolves_then; [exact Hev|]. intros Hok1. destruct Hab as [ns1 ls m1 ss].
    by eapply restart_evolves.
  - destruct Hab as [ns1 ls m1 ss Hn Hl Hm1 Hs Hor]. cbn in *. injection Hns as ->.
    destruct Hor as [(? & _)|Hcut]; [done|].
    pose proof (cut_ahead _ _ _ _ _ Hok (proj1 Hi) Hcut) as Hah. pose proof (ok_applied _ Hok).
    apply (cut_restart r req) in Hnew as (Hok' & _ & m' & Hrec); try (done || lia).
    split; [done|]. eapply adopted_advances; [done|exact Hah| | | | | |exact Hrec]; try (done || lia).
    intros ?. apply Hag. lia.
Qed.

Lemma snapshot_agrees_same r r1 o :
  log r1 = log r → snapshotMeta r1 = snapshotMeta r → commitIndex r1 = commitIndex r →
  snapshot_agrees r o → snapshot_agrees r1 o.
Proof.
  intros Hl Hm Hc Hag sn Hsn. unfold entry, base. rewrite Hl, Hm, Hc. by apply Hag.
Qed.

Lemma HandleInstallSnapshot_restart r req r1 resp err cfg m ap ns r' :
  node_ok r → 0 ≤ is_Term req < 2 ^ 64 → is_LastIncludedIndex req < 2 ^ 63 →
  install_agrees r req → HandleInstallSnapshot r req = (r1, (resp, Some err)) →
  snapshotStore r1 = Some ns → CurrentTerm (stable_state (stable r1)) < 2 ^ 64 →
  snap_words (snap_stored ns) → snapshot_agrees r (snap_stored ns) →
  ID (Self cfg) = id r → Peers cfg = peers r → sm_inv m →
  NewWithSnapshot cfg (stable r1) (logStore r1) m ap ns = Ok r' → evolves r r'.
Proof.
  intros Hok Ht Hb Hag Hh Hns Hw Hsw Hsa Hid Hp Hm Hnew.
  apply HandleInstallSnapshot_fails in Hh as (r0 & e0 & Hrec & Hge & Hcase); [|done..].
  apply recognizeLeader_spec in Hrec as (Hev & Hl & Hmt & Hc & Ha & _); [|done|lia].
  destruct (adv_id _ _ (proj2 Hev)) as [Hid0 Hp0].
  pose proof (snapshot_agrees_same r r0 _ Hl Hmt Hc Hsa).
  eapply evolves_then; [exact Hev|]. intros Hok0.
  destruct Hcase as [->|(_ & Hlt & Hab)]; [eapply restart_evolves; rewrite ?Hid0, ?Hp0; done|].
  eapply abandoned_restart; [done|split; [|exact Hb]; lia| |exact Hab|exact Hns|..]; rewrite ?Hid0, ?Hp0; try done.
  by eapply install_agrees_same.
Qed.
End InstallFacts.
