(* ===== verification/RaftNode.v ===== *)
(** * A Raft node as a transition system

    One step per critical section of [internal/raft/raft.go]: whatever order
    RPCs, timers, proposals and the apply loop run in, a node's history is a
    sequence of these steps.  The premises are what the sender or an earlier
    section of the same operation provides. *)

From S2P Require Import Prelude.
From S2P Require Import Log.
From S2P Require Import Config.
From S2P Require Import Stores.
From S2P Require Import RaftState.
From S2P Require Import RaftElection.
From S2P Require Import RaftReplication.
From S2P Require Import RaftApply.
From S2P Require Import RaftSnapshot.
From S2P Require Import RaftRecovery.
From S2P Require Import RaftInvariant.
From S2P Require Import ElectionFacts.
From S2P Require Import ReplicationFacts.
From S2P Require Import ApplyFacts.
From S2P Require Import SnapshotFacts.
From S2P Require Import RecoveryFacts.
From S2P Require Import InstallFacts.

Section Node.
Context {SS LS SM NS : Type}
  `{StableStoreLaws SS} `{LogStoreLaws LS} `{StateMachineLaws SM} `{SnapshotStoreLaws NS}.
Abbreviation Raft := (Raft SS LS SM NS).
Implicit Types r : Raft.

(** Indexes and terms are far from the end of their 64-bit range. *)
Definition room r : Prop := currentTerm r < 2 ^ 64 - 1 ∧ lastIndex r + 1 < 2 ^ 63.

(** One critical section of a running node.  A store call may fail in any of
    them.  An InstallSnapshot that fails may have saved its image; one that
    fails after it has cut the durable log leaves a node whose memory and stores
    disagree ([refused_snapshot_installed]) and is no section of a history:
    there the process has to be started again ([step_install_restart]). *)
Inductive section_step r : Raft → Prop :=
| step_request_vote req r' resp :
    rv_Term req < 2 ^ 64 → HandleRequestVote r req = (r', resp) → section_step r r'
| step_append_entries req r' resp :
    request_ok req → HandleAppendEntries r req = (r', resp) → section_step r r'
| step_install_snapshot req r' resp err :
    0 ≤ is_Term req < 2 ^ 64 → is_LastIncludedIndex req < 2 ^ 63 → install_agrees r req →
    HandleInstallSnapshot r req = (r', (resp, err)) →
    err = None ∨ log_entries (logStore r') = log_entries (logStore r) → section_step r r'
| step_campaign r' o :
    room r → startElection_begin r = (r', o) → section_step r r'
| step_vote_response term votes resp r' o :
    room r → rvr_Term resp < 2 ^ 64 → countVote r term votes resp = (r', o) → section_step r r'
| step_propose command r' res :
    room r → command_fits r command → Propose r command = (r', res) → section_step r r'
| step_begin_replication peerID r' b : beginReplication r peerID = (r', b) → section_step r r'
| step_end_replication peerID : section_step r (endReplication r peerID)
| step_append_response peerID req resp r' retry :
    aer_Term resp < 2 ^ 64 →
    handleAppendEntriesResponse r peerID req resp = (r', retry) → section_step r r'
| step_load_snapshot metadata r' res : loadForInstall r metadata = (r', res) → section_step r r'
| step_install_response peerID req resp r' retry :
    isr_Term resp < 2 ^ 64 →
    handleInstallSnapshotResponse r peerID req resp = (r', retry) → section_step r r'
| step_execute e r' err : applyCommitted_execute r e = (r', err) → section_step r r'
| step_complete e r' err :
    Index e ≤ commitIndex r → applyCommitted_complete r e = (r', err) → section_step r r'
| step_apply_failure err : section_step r (recordApplyFailure r err)
| step_save_snapshot ns sn r' err :
    snapshotStore r = Some ns → base r ≤ s_LastIncludedIndex sn →
    (s_LastIncludedIndex sn = base r → s_LastIncludedTerm sn = baseTerm r) →
    saveSnapshot r ns sn = (r', err) → section_step r r'
| step_publish_snapshot ns sn r' err :
    snapshotStore r = Some ns → snap_inv ns → snap_stored ns = Some sn →
    maybeSnapshot_publish r (s_LastIncludedIndex sn) (s_LastIncludedTerm sn) = (r', err) →
    section_step r r'
| step_snapshot_failure err : section_step r (recordSnapshotFailure r err)
| step_snapshot_success : section_step r (clearSnapshotFailure r).

(** Or the end of the process, between two sections or in an InstallSnapshot,
    and its start from the durable stores. *)
Inductive node_step r : Raft → Prop :=
| step_section r' : section_step r r' → node_step r r'
| step_restart cfg m ap ns r' :
    snapshotStore r = Some ns → CurrentTerm (stable_state (stable r)) < 2 ^ 64 →
    snap_words (snap_stored ns) → snapshot_agrees r (snap_stored ns) →
    ID (Self cfg) = id r → Peers cfg = peers r → sm_inv m →
    NewWithSnapshot cfg (stable r) (logStore r) m ap ns = Ok r' → node_step r r'
| step_install_restart req r1 resp err cfg m ap ns r' :
    0 ≤ is_Term req < 2 ^ 64 → is_LastIncludedIndex req < 2 ^ 63 → install_agrees r req →
    HandleInstallSnapshot r req = (r1, (resp, Some err)) →
    snapshotStore r1 = Some ns → CurrentTerm (stable_state (stable r1)) < 2 ^ 64 →
    snap_words (snap_stored ns) → snapshot_agrees r (snap_stored ns) →
    ID (Self cfg) = id r → Peers cfg = peers r → sm_inv m →
    NewWithSnapshot cfg (stable r1) (logStore r1) m ap ns = Ok r' → node_step r r'.

(** The bookkeeping steps leave the core alone. *)
Lemma beginReplication_core r p r' b : beginReplication r p = (r', b) → same_core r r'.
Proof. unfold beginReplication. by case_decide; intros [= <- <-]. Qed.

Lemma recordApplyFailure_core r err : same_core r (recordApplyFailure r err).
Proof. unfold recordApplyFailure. by destruct (applyErr r). Qed.

Lemma complete_evolves r e r' err :
  node_ok r → Index e ≤ commitIndex r → applyCommitted_complete r e = (r', err) →
  evolves r r'.
Proof.
  intros Hok Hi Heq. destruct (decide (lastApplied r < Index e)).
  { by apply complete_spec in Heq as [? _]; [|done|lia]. }
  revert Heq. unfold applyCommitted_complete.
  pose proof (ok_applied _ Hok). pose proof (ok_commit _ Hok). destruct (ok_log _ Hok).
  unfold lastIndex, base in *. rewrite decide_True; [by intros [= <- <-]|].
  intros Heq. destruct (decide (lastApplied r + 1 < 2 ^ 64)); [rewrite u64_small in Heq; lia|lia].
Qed.

Lemma section_step_evolves r r' : node_ok r → section_step r r' → evolves r r'.
Proof.
  intros Hok Hstep. destruct Hstep.
  - by eapply HandleRequestVote_evolves.
  - by eapply HandleAppendEntries_spec.
  - by eapply HandleInstallSnapshot_keeps.
  - match goal with Hr : room _ |- _ => destruct Hr end. by eapply startElection_begin_evolves.
  - match goal with Hr : room _ |- _ => destruct Hr end. by eapply countVote_evolves.
  - match goal with Hr : room _ |- _ => destruct Hr end. by eapply Propose_evolves.
  - eapply same_core_evolves; [by eapply beginReplication_core|done].
  - by apply same_core_evolves.
  - by eapply handleAppendEntriesResponse_evolves.
  - by eapply loadForInstall_spec.
  - by eapply handleInstallSnapshotResponse_evolves.
  - by eapply execute_spec.
  - by eapply complete_evolves.
  - eapply same_core_evolves; [apply recordApplyFailure_core|done].
  - by eapply saveSnapshot_spec.
  - by eapply maybeSnapshot_publish_spec.
  - by apply same_core_evolves.
  - by apply same_core_evolves.
Qed.

Lemma node_step_evolves r r' : node_ok r → node_step r r' → evolves r r'.
Proof.
  intros Hok Hstep. destruct Hstep; [by apply section_step_evolves|by eapply restart_evolves|].
  by eapply HandleInstallSnapshot_restart.
Qed.

Lemma node_steps_evolves r r' : node_ok r → rtc node_step r r' → evolves r r'.
Proof.
  intros Hok Hsteps. induction Hsteps as [r|r1 r2 r3 Hs Hss IH]; [by apply evolves_refl|].
  apply node_step_evolves in Hs; [|done]. eapply evolves_trans; [done|]. apply IH, Hs.
Qed.
End Node.
