(* ===== verification/Untouched.v ===== *)
(** * What the sections leave alone

    Only an InstallSnapshot and the apply loop itself touch the state machine,
    the apply index and the snapshot boundary.  So the apply loop runs the
    committed entries in order whatever runs between its sections. *)

From S2P Require Import Prelude.
From S2P Require Import Log.
From S2P Require Import Config.
From S2P Require Import Stores.
From S2P Require Import RaftState.
From S2P Require Import RaftElection.
From S2P Require Import RaftReplication.
From S2P Require Import RaftApply.
From S2P Require Import RaftSnapshot.
From S2P Require Import RaftInvariant.
From S2P Require Import ElectionFacts.
From S2P Require Import ReplicationFacts.
From S2P Require Import ApplyFacts.
From S2P Require Import SnapshotFacts.
From S2P Require Import RaftNode.

Section Untouched.
Context {SS LS SM NS : Type}
  `{StableStoreLaws SS} `{LogStoreLaws LS} `{StateMachineLaws SM} `{SnapshotStoreLaws NS}.
Abbreviation Raft := (Raft SS LS SM NS).
Implicit Types r : Raft.

(** ** What the apply loop relies on

    A section that leaves the state machine and the apply index alone; one that
    leaves the snapshot boundary and the stored snapshot alone too. *)
Definition undisturbed r r' : Prop := machine r' = machine r ∧ lastApplied r' = lastApplied r.

Definition frozen r r' : Prop :=
  snapshotMeta r' = snapshotMeta r ∧
  snap_stored <$> snapshotStore r' = snap_stored <$> snapshotStore r ∧ undisturbed r r'.

Lemma frozen_refl r : frozen r r.
Proof. done. Qed.

Lemma frozen_trans r1 r2 r3 : frozen r1 r2 → frozen r2 r3 → frozen r1 r3.
Proof. intros (E1 & E2 & E3 & E4) (E5 & E6 & E7 & E8). split_and!; [..|split]; congruence. Qed.

Lemma saveStable_frozen r t v c a r' err :
  saveStableValuesLocked r t v c a = (r', err) → frozen r r'.
Proof. unfold saveStableValuesLocked. destruct (stable_Save _ _). by intros [= <- <-]. Qed.

Lemma becomeFollower_frozen r t l r' err : becomeFollowerLocked r t l = (r', err) → frozen r r'.
Proof.
  unfold becomeFollowerLocked, saveStableLocked, saveStableValuesLocked.
  case_decide; [by intros [= <- <-]|]. case_decide; [|by intros [= <- <-]].
  destruct (stable_Save _ _) as [ss [e|]]; by intros [= <- <-].
Qed.

Lemma becomeLeader_frozen r r' err : becomeLeaderLocked r = (r', err) → frozen r r'.
Proof. unfold becomeLeaderLocked. destruct (log_Append _ _) as [ls [e|]]; by intros [= <- <-]. Qed.

Lemma HandleRequestVote_frozen r req r' resp :
  HandleRequestVote r req = (r', resp) → frozen r r' ∧ rvr_Term resp = currentTerm r'.
Proof.
  unfold HandleRequestVote. case_decide; [by intros [= <- <-]|].
  destruct (if decide (currentTerm r < rv_Term req) then _ else _) as [r1 err] eqn:Hb.
  assert (frozen r r1) as Hf.
  { case_decide; [by eapply becomeFollower_frozen|by injection Hb as <- <-]. }
  destruct err; [by intros [= <- <-]|].
  destruct (decide (votedFor r1 ≠ NoVote ∧ _)); [by intros [= <- <-]|].
  destruct (negb _); [by intros [= <- <-]|].
  destruct (decide (votedFor r1 ≠ rv_CandidateID req)); [|by intros [= <- <-]]. unfold saveStableLocked.
  destruct (saveStableValuesLocked _ _ _ _ _) as [r2 [e|]] eqn:Hs; apply saveStable_frozen in Hs;
    intros [= <- <-]; (split; [|done]); by eapply frozen_trans.
Qed.

Lemma startElection_begin_frozen r r' o : startElection_begin r = (r', o) → frozen r r'.
Proof.
  unfold startElection_begin, becomeCandidateLocked, saveStableLocked.
  destruct (saveStableValuesLocked _ _ _ _ _) as [r1 [e|]] eqn:Hs; apply saveStable_frozen in Hs.
  { by intros [= <- <-]. }
  set (r2 := _ <| leaderID := _ |>). assert (frozen r r2) as Hf by (by destruct Hs).
  clearbody r2. case_decide; [|by intros [= <- <-]].
  destruct (if decide (state r2 = Candidate ∧ _) then _ else _) as [r3 err] eqn:Hb.
  assert (frozen r r3) as Hf3.
  { case_decide; [|by injection Hb as <- <-]. eapply frozen_trans; [done|by eapply becomeLeader_frozen]. }
  destruct err; by intros [= <- <-].
Qed.

Lemma countVote_frozen r t v resp r' o : countVote r t v resp = (r', o) → frozen r r'.
Proof.
  unfold countVote. case_decide.
  { destruct (becomeFollowerLocked _ _ _) as [r1 e] eqn:Hb. intros [= <- <-]. by eapply becomeFollower_frozen. }
  case_decide; [by intros [= <- <-]|]. case_decide; [|by intros [= <- <-]].
  case_decide; [|by intros [= <- <-]].
  destruct (becomeLeaderLocked r) as [r1 [e|]] eqn:Hb; apply becomeLeader_frozen in Hb; by intros [= <- <-].
Qed.

Lemma Propose_frozen r command r' res : Propose r command = (r', res) → frozen r r'.
Proof.
  unfold Propose. destruct (Command_Validate _); [by intros [= <- <-]|].
  case_decide; [by intros [= <- <-]|]. destruct (negb _); [by intros [= <- <-]|].
  destruct (applyErr r); [by intros [= <- <-]|].
  destruct (log_Append _ _) as [ls [e|]]; by intros [= <- <-].
Qed.

Lemma truncateConflict_frozen r tf r' ok : truncateConflict r tf = (r', ok) → frozen r r'.
Proof.
  intros [(_ & -> & _)|(_ & ls & Hr)]%truncateConflict_shape; [done|].
  destruct ok; [by destruct Hr as [l ->]|by subst].
Qed.

Lemma appendMissing_frozen r es r' ok : appendMissing r es = (r', ok) → frozen r r'.
Proof. intros [(-> & _)|(_ & ls & ->)]%appendMissing_shape; [done|by destruct ok]. Qed.

Lemma adoptCommit_frozen r c r' ok : adoptCommit r c = (r', ok) → frozen r r'.
Proof.
  unfold adoptCommit. case_decide; [|by intros [= <- <-]].
  destruct (saveStableValuesLocked _ _ _ _ _) as [r1 [e|]] eqn:Hs; apply saveStable_frozen in Hs;
    by intros [= <- <-].
Qed.

Lemma recognizeLeader_frozen r t l r' err : recognizeLeader r t l = (r', err) → frozen r r'.
Proof. unfold recognizeLeader. case_decide; [apply becomeFollower_frozen|by intros [= <- <-]]. Qed.

Lemma HandleAppendEntries_frozen r req r' resp :
  HandleAppendEntries r req = (r', resp) → frozen r r' ∧ aer_Term resp = currentTerm r'.
Proof.
  unfold HandleAppendEntries. case_decide; [by intros [= <- <-]|].
  destruct (recognizeLeader _ _ _) as [r1 err] eqn:Hrl.
  assert (frozen r r1) as Hf1 by by eapply recognizeLeader_frozen.
  destruct err; [by intros [= <- <-]|].
  set (r2 := signalElectionReset r1). assert (frozen r r2) as Hf2 by (by destruct Hf1). clearbody r2.
  destruct (negb _); [by intros [= <- <-]|].
  destruct (replicationPlanLocked _ _ _) as [[tf es']|]; [|by intros [= <- <-]].
  destruct (truncateConflict r2 tf) as [r3 ok3] eqn:Ht. apply truncateConflict_frozen in Ht.
  assert (frozen r r3) as Hf3 by (by eapply frozen_trans). destruct ok3; [|by intros [= <- <-]].
  destruct (appendMissing r3 es') as [r4 ok4] eqn:Ha. apply appendMissing_frozen in Ha.
  assert (frozen r r4) as Hf4 by (by eapply frozen_trans). destruct ok4; [|by intros [= <- <-]].
  destruct (adoptCommit _ _) as [r5 ok5] eqn:Hc. apply adoptCommit_frozen in Hc.
  intros [= <- <-]. split; [|done]. by eapply frozen_trans.
Qed.

Lemma advanceCommit_frozen fuel r index r' b : advanceCommit_from fuel r index = (r', b) → frozen r r'.
Proof.
  revert index. induction fuel as [|fuel IH]; intros index; simpl; [by intros [= <- <-]|].
  repeat (case_decide; [|try by intros [= <- <-]]); try apply IH.
  destruct (saveStableValuesLocked _ _ _ _ _) as [r1 [e|]] eqn:Hs; apply saveStable_frozen in Hs;
    by intros [= <- <-].
Qed.

Lemma handleAppendEntriesResponse_frozen r p req resp r' retry :
  handleAppendEntriesResponse r p req resp = (r', retry) → frozen r r'.
Proof.
  unfold handleAppendEntriesResponse. case_decide.
  { destruct (becomeFollowerLocked _ _ _) as [r1 e] eqn:Hb. intros [= <- <-]. by eapply becomeFollower_frozen. }
  case_decide; [by intros [= <- <-]|]. destruct (negb _); [case_decide; by intros [= <- <-]|].
  set (r1 := if decide (readUint (matchIndex r) p < _) then _ else r). assert (frozen r r1) as Hf1 by (subst r1; by case_decide).
  clearbody r1. set (r2 := if decide (readUint (nextIndex r1) p < _) then _ else r1).
  assert (frozen r r2) as Hf2 by (subst r2; by case_decide). clearbody r2.
  unfold advanceCommitIndexLocked. destruct (advanceCommit_from _ _ _) as [r3 b] eqn:Ha.
  apply advanceCommit_frozen in Ha. assert (frozen r r3) by (by eapply frozen_trans).
  destruct b; by intros [= <- <-].
Qed.

Lemma loadForInstall_frozen r metadata r' res :
  node_ok r → loadForInstall r metadata = (r', res) → frozen r r'.
Proof.
  intros Hok Hl. apply loadForInstall_spec in Hl as (_ & [->|(ns & ns' & Hns & Hst & ->)] & _); [done| |done].
  split; [done|]. cbn. by rewrite Hns, Hst.
Qed.

Lemma handleInstallSnapshotResponse_frozen r p req resp r' retry :
  handleInstallSnapshotResponse r p req resp = (r', retry) → frozen r r'.
Proof.
  unfold handleInstallSnapshotResponse. case_decide.
  { destruct (becomeFollowerLocked _ _ _) as [r1 e] eqn:Hb. intros [= <- <-]. by eapply becomeFollower_frozen. }
  case_decide; by intros [= <- <-].
Qed.

(** ** All sections *)

Lemma saveSnapshot_undisturbed r ns sn r' err :
  saveSnapshot r ns sn = (r', err) → undisturbed r r'.
Proof. unfold saveSnapshot. destruct (snap_Save ns sn). by intros [= <- <-]. Qed.

Lemma publish_undisturbed r i t r' err :
  maybeSnapshot_publish r i t = (r', err) → undisturbed r r'.
Proof.
  unfold maybeSnapshot_publish. repeat (case_decide; [by intros [= <- <-]|]).
  destruct (entriesFromLocked _ _); [|by intros [= <- <-]].
  destruct (log_CompactThrough _ _) as [ls [e|]]; by intros [= <- <-].
Qed.

(** A section that disturbs the apply loop is its own, or an InstallSnapshot. *)
Definition disturbing r r' : Prop :=
  (∃ req resp err, HandleInstallSnapshot r req = (r', (resp, err))) ∨
  (∃ e err, applyCommitted_execute r e = (r', err)) ∨
  (∃ e err, applyCommitted_complete r e = (r', err)).

Lemma section_undisturbed r r' : node_ok r → section_step r r' → undisturbed r r' ∨ disturbing r r'.
Proof.
  intros Hok Hst. destruct Hst as [req r' resp Ht He|req r' resp Hq He|req r' resp err Ht Hb Ha He Hor
    |r' o Hr He|t v resp r' o Hr Ht He|cmd r' res Hr Hf He|p r' b He|p|p req resp r' retry Ht He
    |meta r' res He|p req resp r' retry Ht He|e r' err He|e r' err Hi He|err
    |ns sn r' err Hns Hb Ht He|ns sn r' err Hns Hinv Hsn He|err| ].
  - left. by eapply HandleRequestVote_frozen.
  - left. by eapply HandleAppendEntries_frozen.
  - right. left. eauto.
  - left. by eapply startElection_begin_frozen.
  - left. by eapply countVote_frozen.
  - left. by eapply Propose_frozen.
  - left. revert He. unfold beginReplication. by case_decide; intros [= <- <-].
  - by left.
  - left. by eapply handleAppendEntriesResponse_frozen.
  - left. by eapply loadForInstall_frozen.
  - left. by eapply handleInstallSnapshotResponse_frozen.
  - right. right. left. eauto.
  - right. right. right. eauto.
  - left. unfold recordApplyFailure. by destruct (applyErr r).
  - left. by eapply saveSnapshot_undisturbed.
  - left. by eapply publish_undisturbed.
  - by left.
  - by left.
Qed.

(** ** The apply loop among them *)

(** Where [applyCommitted] is: between two entries, after its choice, after it
    ran the entry, or on its way out with an error. *)
Inductive Point :=
| Between
| Chosen (e : LogEntry)
| Ran (e : LogEntry)
| Halted.

Inductive apply_step : Point * Raft → Point * Raft → Prop :=
| ap_other p r r' : section_step r r' → undisturbed r r' → apply_step (p, r) (p, r')
| ap_fetch r e : applyCommitted_fetch r = Fetch e → apply_step (Between, r) (Chosen e, r)
| ap_fetch_failed r err : applyCommitted_fetch r = FetchFailed err → apply_step (Between, r) (Halted, r)
| ap_execute r e r' err :
    applyCommitted_execute r e = (r', err) →
    apply_step (Chosen e, r) (if err then Halted else Ran e, r')
| ap_complete r e r' err :
    applyCommitted_complete r e = (r', err) →
    apply_step (Ran e, r) (if err then Halted else Between, r').

(** The entries run so far since [r], the last of them perhaps not recorded. *)
Definition next_entry r (e : LogEntry) : Prop :=
  Index e = lastApplied r + 1 ∧ Index e ≤ commitIndex r ∧ entry r (Index e) = Some e.

Definition still_committed r (e : LogEntry) : Prop :=
  Index e ≤ commitIndex r ∧ (base r < Index e → entry r (Index e) = Some e).

Definition ran_so_far r (p : Point) r' (es extra : list LogEntry) : Prop :=
  contiguous (lastApplied r + 1) (es ++ extra) ∧ lastApplied r' = lastApplied r + lenZ es ∧
  Forall (still_committed r') (es ++ extra) ∧
  run_entries (machine r) (es ++ extra) = Some (machine r') ∧
  match p with
  | Between => extra = []
  | Chosen e => extra = [] ∧ next_entry r' e
  | Ran e => extra = [e] ∧ next_entry r' e
  | Halted => (length extra ≤ 1)%nat
  end.

Lemma still_committed_advances r r' e :
  advances r r' → still_committed r e → still_committed r' e.
Proof.
  intros [_ _ _ Hb Hc _ He] [Hi Hent]. split; [lia|]. intros Hlt.
  rewrite He by lia. apply Hent. lia.
Qed.

Lemma next_entry_advances r r' e :
  node_ok r' → advances r r' → lastApplied r' = lastApplied r → next_entry r e → next_entry r' e.
Proof.
  intros Hok' Hadv Ha (Hi & Hc & He). pose proof (ok_applied _ Hok').
  destruct (still_committed_advances r r' e Hadv) as [? Hent]; [by split|].
  split_and!; [congruence|done|]. apply Hent. lia.
Qed.

(** A step that runs nothing. *)
Lemma ran_so_far_quiet r p r1 r2 es extra :
  node_ok r2 → advances r1 r2 → undisturbed r1 r2 →
  ran_so_far r p r1 es extra → ran_so_far r p r2 es extra.
Proof.
  intros Hok Hadv [Hm Ha] (Hc & Hl & Hs & Hr & Hp). rewrite <- Ha in Hl. rewrite <- Hm in Hr.
  split_and!; [done..| |done|].
  - eapply Forall_impl; [exact Hs|]. intros e. by apply still_committed_advances.
  - destruct p; [done|destruct Hp..|done]; (split; [done|]; by eapply next_entry_advances).
Qed.

Lemma ran_so_far_fetch r r1 e es extra :
  node_ok r1 → applyCommitted_fetch r1 = Fetch e →
  ran_so_far r Between r1 es extra → ran_so_far r (Chosen e) r1 es extra.
Proof.
  intros Hok Hf (Hc & Hl & Hs & Hr & ->). pose proof (fetch_spec _ Hok) as Hsp. rewrite Hf in Hsp.
  destruct Hsp as (Hlt & He & Hi & _). split_and!; [done..|]. split; [lia|].
  split; [lia|]. by rewrite Hi.
Qed.

Lemma ran_so_far_execute r r1 e r2 err es extra :
  node_ok r1 → applyCommitted_execute r1 e = (r2, err) → ran_so_far r (Chosen e) r1 es extra →
  ∃ extra', ran_so_far r (if err then Halted else Ran e) r2 es extra'.
Proof.
  intros Hok He (Hc & Hl & Hs & Hr & -> & Hn). rewrite app_nil_r in *.
  apply execute_spec in He as ([Hok2 Hadv] & _ & Ha & _ & Hnone & Hsome); [|done].
  assert (Forall (still_committed r2) es) as Hs2
    by (eapply Forall_impl; [exact Hs|]; intros x; by apply still_committed_advances).
  pose proof (next_entry_advances _ _ _ Hok2 Hadv Ha Hn) as Hn2. destruct Hn as (Hi & _).
  destruct err as [err|].
  - exists []. rewrite <- (Hsome ltac:(by eexists)) in Hr. unfold ran_so_far. rewrite app_nil_r, Ha.
    split_and!; [done..|simpl; lia].
  - exists [e]. specialize (Hnone eq_refl). unfold ran_so_far. rewrite Ha. split_and!; [|done| | |done|done].
    + apply contiguous_app. split; [done|]. simpl. split; [lia|done].
    + apply Forall_app. split; [done|]. apply Forall_singleton. split; [apply Hn2|]. intros _. apply Hn2.
    + rewrite run_entries_app, Hr. simpl. by rewrite Hnone.
Qed.

Lemma ran_so_far_complete r r1 e r2 err es extra :
  node_ok r1 → applyCommitted_complete r1 e = (r2, err) → ran_so_far r (Ran e) r1 es extra →
  evolves r1 r2 ∧ ∃ es' extra', ran_so_far r (if err then Halted else Between) r2 es' extra'.
Proof.
  intros Hok He (Hc & Hl & Hs & Hr & -> & Hn). pose proof Hn as (Hi & Hle & _).
  apply complete_spec in He as (Hev & Hm & _ & _ & _ & _ & Hnone & Hsome); [|done|lia].
  split; [done|]. rewrite <- Hm in Hr.
  assert (Forall (still_committed r2) (es ++ [e])) as Hs2
    by (eapply Forall_impl; [exact Hs|]; intros x; apply still_committed_advances, Hev).
  destruct err as [err|].
  - exists es, [e]. rewrite <- (Hsome ltac:(by eexists)) in Hl. split_and!; [done..|simpl; lia].
  - exists (es ++ [e]), []. unfold ran_so_far. rewrite app_nil_r, (Hnone eq_refl), lenZ_app.
    split_and!; [done| |done..]. change (lenZ [e]) with 1. lia.
Qed.

Lemma apply_steps_run r p r' :
  node_ok r → rtc apply_step (Between, r) (p, r') →
  node_ok r' ∧ ∃ es extra, ran_so_far r p r' es extra.
Proof.
  intros Hok Hs.
  assert (∀ s s', rtc apply_step s s' → ∀ es extra, node_ok s.2 → ran_so_far r s.1 s.2 es extra →
    node_ok s'.2 ∧ ∃ es extra, ran_so_far r s'.1 s'.2 es extra) as Hinv.
  { clear p r' Hs. intros s s' Hs. induction Hs as [|s1 s2 s3 Hst _ IH]; [eauto|].
    intros es extra Hok1 Hran. destruct Hst as [p r1 r2 Hsec Hun|r1 e Hf|r1 err Hf|r1 e r2 err He
      |r1 e r2 err He]; cbn in *.
    - apply section_step_evolves in Hsec as [Hok2 Hadv]; [|done].
      eapply IH; [done|]. by eapply ran_so_far_quiet.
    - eapply IH; [done|]. by eapply ran_so_far_fetch.
    - eapply (IH es extra); [done|]. destruct Hran as (? & ? & ? & ? & ->). by split_and!; [..|simpl; lia].
    - pose proof He as [[Hok2 _] _]%execute_spec; [|done].
      eapply ran_so_far_execute in Hran as (extra' & Hran); [|done..]. by eapply IH.
    - eapply ran_so_far_complete in Hran as ([Hok2 _] & es' & extra' & Hran); [|done..]. by eapply IH. }
  apply (Hinv _ _ Hs [] []); [done|]. split_and!; [done|cbn; unfold lenZ; simpl; lia|done..].
Qed.
End Untouched.
