(* ===== verification/PendingFacts.v ===== *)
(** * The clients waiting on a leader

    Every proposal gets a channel of capacity one that is written at most once
    and closed right after; a second write or close would panic. *)

From S2P Require Import Prelude.
From S2P Require Import Log.
From S2P Require Import Config.
From S2P Require Import Stores.
From S2P Require Import RaftState.
From S2P Require Import RaftElection.
From S2P Require Import RaftReplication.
From S2P Require Import RaftApply.
From S2P Require Import RaftSnapshot.
From S2P Require Import RaftRecovery.
From S2P Require Import RaftInvariant.
From S2P Require Import RecoveryFacts.
From S2P Require Import RaftNode.

(** Follow every branch of an operation that only updates records. *)
Ltac branches :=
  repeat match goal with
  | |- context [match ?x with _ => _ end] =>
      lazymatch x with context [match _ with _ => _ end] => fail | _ => destruct x eqn:? end
  end.
Ltac untouched := branches; simplify_eq/=; intros; simplify_eq/=; by split.

Section Pending.
Context {SS LS SM NS : Type}
  `{StableStoreLaws SS} `{LogStoreLaws LS} `{StateMachineLaws SM} `{SnapshotStoreLaws NS}.
Abbreviation Raft := (Raft SS LS SM NS).
Implicit Types r : Raft.

(** A channel nobody has written, or one that got its result. *)
Definition channel_ok (ch : Channel) : Prop :=
  ch = mkChannel [] false ∨ ∃ res, ch = mkChannel [res] true.

(** The pending proposals wait on distinct open channels. *)
Record pending_ok r : Prop := {
  pend_channels : Forall channel_ok (channels r);
  pend_open i c : pendingResults r !! i = Some c → channels r !! c = Some (mkChannel [] false);
  pend_inj i j c : pendingResults r !! i = Some c → pendingResults r !! j = Some c → i = j;
}.

(** Nobody waits after a start. *)
Lemma no_pending_ok r : pendingResults r = ∅ → channels r = [] → pending_ok r.
Proof. intros Hp Hc. constructor; rewrite ?Hp, ?Hc; [by apply Forall_nil|done..]. Qed.

(** ** The operations that leave the clients alone *)

Definition same_pending r r' : Prop :=
  pendingResults r' = pendingResults r ∧ channels r' = channels r.

#[export] Instance same_pending_preorder : PreOrder same_pending.
Proof. split; [done|]. intros r1 r2 r3 [??] [??]. split; congruence. Qed.

Lemma same_pending_ok r r' : same_pending r r' → pending_ok r → pending_ok r'.
Proof. intros [Hp Hc] []. constructor; by rewrite ?Hp, ?Hc. Qed.

Lemma save_same r t v c a r' err :
  saveStableValuesLocked r t v c a = (r', err) → same_pending r r'.
Proof. unfold saveStableValuesLocked. untouched. Qed.

Lemma becomeFollower_same r t l r' err :
  becomeFollowerLocked r t l = (r', err) → same_pending r r'.
Proof. unfold becomeFollowerLocked, saveStableLocked, saveStableValuesLocked. untouched. Qed.

Lemma becomeLeader_same r r' err : becomeLeaderLocked r = (r', err) → same_pending r r'.
Proof. unfold becomeLeaderLocked. untouched. Qed.

Lemma HandleRequestVote_same r req r' resp :
  HandleRequestVote r req = (r', resp) → same_pending r r'.
Proof.
  unfold HandleRequestVote, becomeFollowerLocked, saveStableLocked, saveStableValuesLocked.
  untouched.
Qed.

Lemma HandleAppendEntries_same r req r' resp :
  HandleAppendEntries r req = (r', resp) → same_pending r r'.
Proof.
  unfold HandleAppendEntries, recognizeLeader, becomeFollowerLocked, truncateConflict,
    appendMissing, adoptCommit, saveStableLocked, saveStableValuesLocked.
  untouched.
Qed.

Lemma HandleInstallSnapshot_same r req r' resp :
  HandleInstallSnapshot r req = (r', resp) → same_pending r r'.
Proof.
  unfold HandleInstallSnapshot, recognizeLeader, becomeFollowerLocked, installSnapshot,
    saveSnapshot, installTrimLog, installRestore, installPublish,
    saveStableLocked, saveStableValuesLocked.
  untouched.
Qed.

Lemma startElection_begin_same r r' o : startElection_begin r = (r', o) → same_pending r r'.
Proof.
  unfold startElection_begin, becomeCandidateLocked, becomeLeaderLocked, saveStableLocked,
    saveStableValuesLocked.
  untouched.
Qed.

Lemma countVote_same r t v resp r' o : countVote r t v resp = (r', o) → same_pending r r'.
Proof.
  unfold countVote, becomeFollowerLocked, becomeLeaderLocked, saveStableLocked,
    saveStableValuesLocked.
  untouched.
Qed.

Lemma advanceCommit_same fuel r i r' b : advanceCommit_from fuel r i = (r', b) → same_pending r r'.
Proof.
  revert i. induction fuel as [|fuel IH]; intros i; simpl; [by intros [= <- <-]|].
  unfold saveStableValuesLocked. repeat (case_decide; [|try by intros [= <- <-]]); try apply IH.
  branches; by intros [= <- <-].
Qed.

Lemma handleAppendEntriesResponse_same r p req resp r' b :
  handleAppendEntriesResponse r p req resp = (r', b) → same_pending r r'.
Proof.
  unfold handleAppendEntriesResponse. destruct (decide _).
  { destruct (becomeFollowerLocked _ _ _) eqn:Hf. apply becomeFollower_same in Hf.
    by intros [= <- <-]. }
  case_decide; [by intros [= <- <-]|]. destruct (negb _); [untouched|].
  destruct (advanceCommitIndexLocked _) as [r1 b1] eqn:Ha. apply advanceCommit_same in Ha.
  intros Heq. transitivity r1; [|destruct b1; by simplify_eq].
  etransitivity; [|done]. branches; by split.
Qed.

Lemma loading_same r meta r' res : loadForInstall r meta = (r', res) → same_pending r r'.
Proof. unfold loadForInstall. untouched. Qed.

Lemma handleInstallSnapshotResponse_same r p req resp r' b :
  handleInstallSnapshotResponse r p req resp = (r', b) → same_pending r r'.
Proof.
  unfold handleInstallSnapshotResponse, becomeFollowerLocked, saveStableLocked,
    saveStableValuesLocked.
  untouched.
Qed.

Lemma publish_same r i t r' err : maybeSnapshot_publish r i t = (r', err) → same_pending r r'.
Proof. unfold maybeSnapshot_publish. untouched. Qed.

(** ** The operations that serve the clients *)

(** A fresh channel; one that waited at the same index is forgotten. *)
Lemma pending_open_ok r i r' :
  pending_ok r → channels r' = channels r ++ [mkChannel [] false] →
  pendingResults r' = <[i := length (channels r)]> (pendingResults r) → pending_ok r'.
Proof.
  intros [Hch Hopen Hinj] Hc Hp.
  assert (∀ j c, pendingResults r !! j = Some c → (c < length (channels r))%nat) as Hlt.
  { intros j c Hj. by eapply lookup_lt_Some, Hopen. }
  constructor; rewrite ?Hc, ?Hp.
  - apply Forall_app. split; [done|]. constructor; [by left|done].
  - intros j c [[<- <-]|[Hne Hj]]%lookup_insert_Some; [by apply list_lookup_middle|].
    apply lookup_app_l_Some. by eapply Hopen.
  - intros j k c [[<- <-]|[Hne Hj]]%lookup_insert_Some [[<- Heq]|[Hne' Hk]]%lookup_insert_Some;
      [done| | |by eapply Hinj].
    + apply Hlt in Hk. lia.
    + apply Hlt in Hj. lia.
Qed.

Lemma completed_channel_ok cs c res :
  Forall channel_ok cs → cs !! c = Some (mkChannel [] false) →
  Forall channel_ok (complete_channel cs c res).
Proof.
  intros Hcs Hc. apply Forall_lookup_2. intros k ch Hk. unfold complete_channel in Hk.
  destruct (decide (c = k)) as [<-|Hne].
  - rewrite list_lookup_alter_eq, Hc in Hk. simplify_eq/=. right. by eexists.
  - rewrite list_lookup_alter_ne in Hk by done. by eapply Forall_lookup_1 in Hcs.
Qed.

(** The result delivered on the channel of one index. *)
Lemma pending_complete_ok r i c res r' :
  pending_ok r → pendingResults r !! i = Some c →
  channels r' = complete_channel (channels r) c res →
  pendingResults r' = delete i (pendingResults r) → pending_ok r'.
Proof.
  intros [Hch Hopen Hinj] Hi Hc Hp. constructor; rewrite ?Hc, ?Hp.
  - apply completed_channel_ok; [done|by eapply Hopen].
  - intros j d [Hne Hj]%lookup_delete_Some. unfold complete_channel.
    rewrite list_lookup_alter_ne; [by eapply Hopen|]. intros ->. by destruct Hne; eapply Hinj.
  - intros j k d [_ Hj]%lookup_delete_Some [_ Hk]%lookup_delete_Some. by eapply Hinj.
Qed.

(** The results delivered to all of them. *)
Lemma complete_all_ok err (l : list (Z * nat)) cs :
  Forall channel_ok cs → NoDup l.*2 →
  (∀ i c, (i, c) ∈ l → cs !! c = Some (mkChannel [] false)) →
  let f : Z * nat → list Channel → list Channel :=
    λ '(index, result) cs, complete_channel cs result (mkResult index err) in
  Forall channel_ok (foldr f cs l) ∧
  ∀ c, c ∉ l.*2 → foldr f cs l !! c = cs !! c.
Proof.
  intros Hcs. induction l as [|[i c] l IH]; intros Hnd Hl; simpl; [done|].
  apply NoDup_cons in Hnd as [Hc Hnd].
  destruct IH as [Hok Hsame]; [done|intros j d Hj; apply (Hl j); by right|].
  split.
  - apply completed_channel_ok; [done|]. rewrite Hsame by done. apply (Hl i). by left.
  - intros d Hd. apply not_elem_of_cons in Hd as [Hne Hd]. unfold complete_channel.
    rewrite list_lookup_alter_ne by done. by apply Hsame.
Qed.

Lemma recordApplyFailure_pending r err : pending_ok r → pending_ok (recordApplyFailure r err).
Proof.
  intros Hok. unfold recordApplyFailure. destruct (applyErr r); [done|].
  destruct Hok as [Hch Hopen Hinj].
  destruct (complete_all_ok (Some err) (map_to_list (pendingResults r)) (channels r)) as [Hall _].
  - done.
  - apply NoDup_fmap_2_strong; [|apply NoDup_map_to_list].
    intros [i c] [j d] Hi Hj ?. simplify_eq/=.
    apply elem_of_map_to_list in Hi, Hj. f_equal. by eapply Hinj.
  - intros i c Hi. apply elem_of_map_to_list in Hi. by eapply Hopen.
  - by constructor.
Qed.

Lemma complete_pending r e r' err :
  applyCommitted_complete r e = (r', err) → pending_ok r → pending_ok r'.
Proof.
  unfold applyCommitted_complete. case_decide; [by intros [= <- <-]|].
  destruct (saveStableValuesLocked _ _ _ _ _) as [r1 [e1|]] eqn:Hs; apply save_same in Hs;
    intros Heq Hok; apply (same_pending_ok _ _ Hs) in Hok; [by simplify_eq|].
  cbn in Heq. destruct (pendingResults r1 !! Index e) as [c|] eqn:Hc; simplify_eq.
  - by eapply (pending_complete_ok r1).
  - by eapply (same_pending_ok r1).
Qed.

Lemma Propose_pending r command r' res :
  Propose r command = (r', res) → pending_ok r → pending_ok r'.
Proof.
  unfold Propose.
  destruct (Command_Validate command); [by intros [= <- <-]|].
  case_decide; [by intros [= <- <-]|]. destruct (negb _); [by intros [= <- <-]|].
  destruct (applyErr r); [by intros [= <- <-]|].
  destruct (log_Append _ _) as [ls [e|]]; intros [= <- <-] Hp; [by apply (same_pending_ok r)|].
  by eapply (pending_open_ok r).
Qed.

(** ** Along a history *)

Lemma section_step_pending r r' : section_step r r' → pending_ok r → pending_ok r'.
Proof.
  intros Hstep. destruct Hstep.
  - apply same_pending_ok. by eapply HandleRequestVote_same.
  - apply same_pending_ok. by eapply HandleAppendEntries_same.
  - apply same_pending_ok. by eapply HandleInstallSnapshot_same.
  - apply same_pending_ok. by eapply startElection_begin_same.
  - apply same_pending_ok. by eapply countVote_same.
  - by eapply Propose_pending.
  - apply same_pending_ok. revert select (beginReplication _ _ = _). unfold beginReplication. untouched.
  - by apply same_pending_ok.
  - apply same_pending_ok. by eapply handleAppendEntriesResponse_same.
  - apply same_pending_ok. by eapply loading_same.
  - apply same_pending_ok. by eapply handleInstallSnapshotResponse_same.
  - apply same_pending_ok. revert select (applyCommitted_execute _ _ = _).
    unfold applyCommitted_execute. untouched.
  - by eapply complete_pending.
  - apply recordApplyFailure_pending.
  - apply same_pending_ok. revert select (saveSnapshot _ _ _ = _). unfold saveSnapshot. untouched.
  - apply same_pending_ok. by eapply publish_same.
  - by apply same_pending_ok.
  - by apply same_pending_ok.
Qed.

(** Whatever a start finds in the stores, nobody waits for it yet. *)
Lemma replay_same fuel r r' err : replayCommitted fuel r = (r', err) → same_pending r r'.
Proof.
  revert r. induction fuel as [|fuel IH]; intros r; simpl; [by intros [= <- <-]|].
  case_decide; [|by intros [= <- <-]]. destruct (entryAtLocked _ _) as [e|]; [|by intros [= <- <-]].
  case_decide; [|by apply IH]. destruct (negb _); [by intros [= <- <-]|].
  destruct (sm_Apply _ _) as [m [x|]]; [by intros [= <- <-]|]. intros Hr. by apply IH in Hr.
Qed.

Lemma new_no_pending cfg (ss : SS) (ls : LS) m ap meta (sno : option NS) r :
  newWithLogAndSnapshot cfg ss ls m ap meta sno = Ok r → pendingResults r = ∅ ∧ channels r = [].
Proof.
  unfold newWithLogAndSnapshot, saveStableValuesLocked.
  destruct (Config_Validate cfg); [done|]. destruct (SnapshotMetadata_Validate meta); [done|].
  destruct (stable_Load ss) as [ss' [d|]]; [|done]. destruct (log_Load ls) as [ls' [es|]]; [|done].
  destruct (validateLogSuffix _ _); [done|]. do 2 (case_decide; [done|]).
  destruct (replayCommitted _ _) as [r1 [e|]] eqn:Hr; [done|]. apply replay_same in Hr as [Hp Hc].
  cbn in Hp, Hc. case_decide; [|by intros [= <-]].
  destruct (stable_Save _ _) as [ss2 [e|]]; [done|]. by intros [= <-].
Qed.

Lemma start_no_pending cfg (ss : SS) (ls : LS) m ap (ns : NS) r :
  NewWithSnapshot cfg ss ls m ap ns = Ok r → pendingResults r = ∅ ∧ channels r = [].
Proof.
  unfold NewWithSnapshot. destruct (snap_Load ns) as [ns' [[sn|]|]]; [|by apply new_no_pending|done].
  destruct (SnapshotMetadata_Validate _); [done|].
  destruct (stable_Load ss) as [ss' [d|]]; [|done]. destruct (log_Load ls) as [ls' [es|]]; [|done].
  destruct (recoverLogAfterSnapshot _ _ _) as [ls2 [e|]]; [done|].
  destruct (sm_Restore _ _) as [m' [e|]]; [done|].
  destruct (stable_Save _ _) as [ss2 [e|]]; [done|]. apply new_no_pending.
Qed.

Lemma node_step_pending r r' :
  node_ok r → node_step r r' → pending_ok r → pending_ok r'.
Proof.
  intros Hok Hstep. destruct Hstep; [by apply section_step_pending|..];
    (intros _; edestruct start_no_pending as [Hp Hc]; [done|by apply no_pending_ok]).
Qed.

Lemma node_steps_pending r r' :
  node_ok r → pending_ok r → rtc node_step r r' → pending_ok r'.
Proof.
  intros Hok Hp Hsteps. induction Hsteps as [r|r1 r2 r3 Hs Hss IH]; [done|].
  apply IH; [by eapply node_step_evolves|by eapply node_step_pending].
Qed.
End Pending.
