(* ===== verification/LoopFacts.v ===== *)
(** * Facts about the goroutines

    Which operations wake the apply loop, and the loop among the other
    sections of the node. *)

From S2P Require Import Prelude.
From S2P Require Import Log.
From S2P Require Import Config.
From S2P Require Import Stores.
From S2P Require Import RaftState.
From S2P Require Import RaftElection.
From S2P Require Import RaftReplication.
From S2P Require Import RaftApply.
From S2P Require Import RaftSnapshot.
From S2P Require Import RaftRecovery.
From S2P Require Import RaftLoop.
From S2P Require Import RaftInvariant.
From S2P Require Import ElectionFacts.
From S2P Require Import ReplicationFacts.
From S2P Require Import ApplyFacts.
From S2P Require Import SnapshotFacts.
From S2P Require Import RecoveryFacts.
From S2P Require Import RaftNode.
From S2P Require Import PendingFacts.

(** ** Starting and stopping *)

(** The calls of [Start] and [Stop] one after the other, with the goroutines
    that end on their own or while [Stop] waits for them. *)
Inductive lifecycle (g : Goroutines) : Goroutines → Prop :=
| life_start : lifecycle g (Raft_Start g)
| life_done : 0 < wg g → lifecycle g (goroutine_Done g)
| life_stop g' : 0 ≤ wg g' ≤ wg g → cancel g' = false →
    Raft_Stop_returns g' (Raft_Stop_begin g).2 = true → lifecycle g g'.

(** There is never a second pair of loops, and none after [Stop]. *)
Definition one_pair (g : Goroutines) : Prop :=
  0 ≤ wg g ≤ 2 ∧ (cancel g = false → wg g = 0).

Lemma lifecycle_one_pair g g' : rtc lifecycle g g' → one_pair g → one_pair g'.
Proof.
  induction 1 as [|g1 g2 g3 Hs _ IH]; [done|]. intros [Hw Hc]. apply IH. clear IH.
  destruct Hs as [|Hp|g' Hle Hg' Hr]; unfold one_pair.
  - unfold Raft_Start. destruct (cancel g1) eqn:E; [by rewrite E|]. cbn. split; [|done].
    rewrite Hc by done. lia.
  - cbn. split; [lia|]. intros E. rewrite (Hc E) in Hp. lia.
  - unfold Raft_Stop_returns in Hr. cbn in Hr. split; [lia|]. intros _.
    destruct (cancel g1); cbn in Hr; [by apply bool_decide_eq_true in Hr|].
    rewrite Hc in Hle by done. lia.
Qed.

Section Loop.
Context {SS LS SM NS : Type}
  `{StableStoreLaws SS} `{LogStoreLaws LS} `{StateMachineLaws SM} `{SnapshotStoreLaws NS}.
Abbreviation Raft := (Raft SS LS SM NS).
Implicit Types r : Raft.

(** An operation that commits something leaves the signal, or nothing to
    apply; and a failure of the state machine is never forgotten. *)
Definition wakes r r' : Prop :=
  (applyNow r' = true ∨ commitIndex r' ≤ lastApplied r' ∨
   applyNow r' = applyNow r ∧ commitIndex r' = commitIndex r) ∧
  (applyErr r = None ∨ applyErr r' = applyErr r).

Lemma wakes_refl r : wakes r r.
Proof. split; right; [by right|done]. Qed.

Ltac awake :=
  branches; simplify_eq/=; intros; simplify_eq/=; unfold wakes; cbn;
  (split; [first [by left|by right; right|right; left; lia]|by auto]).

Lemma save_wakes r t v c a r' err : saveStableValuesLocked r t v c a = (r', err) → wakes r r'.
Proof. unfold saveStableValuesLocked. awake. Qed.

Lemma becomeFollower_wakes r t l r' err : becomeFollowerLocked r t l = (r', err) → wakes r r'.
Proof. unfold becomeFollowerLocked, saveStableLocked, saveStableValuesLocked. awake. Qed.

Lemma HandleRequestVote_wakes r req r' resp : HandleRequestVote r req = (r', resp) → wakes r r'.
Proof.
  unfold HandleRequestVote, becomeFollowerLocked, saveStableLocked, saveStableValuesLocked. awake.
Qed.

Lemma HandleAppendEntries_wakes r req r' resp :
  HandleAppendEntries r req = (r', resp) → wakes r r'.
Proof.
  unfold HandleAppendEntries, recognizeLeader, becomeFollowerLocked, truncateConflict,
    appendMissing, adoptCommit, saveStableLocked, saveStableValuesLocked.
  awake.
Qed.

Lemma HandleInstallSnapshot_wakes r req r' resp :
  HandleInstallSnapshot r req = (r', resp) → wakes r r'.
Proof.
  unfold HandleInstallSnapshot, recognizeLeader, becomeFollowerLocked, installSnapshot,
    saveSnapshot, installTrimLog, installRestore, installPublish,
    saveStableLocked, saveStableValuesLocked.
  awake.
Qed.

Lemma startElection_begin_wakes r r' o : startElection_begin r = (r', o) → wakes r r'.
Proof.
  unfold startElection_begin, becomeCandidateLocked, becomeLeaderLocked, saveStableLocked,
    saveStableValuesLocked.
  awake.
Qed.

Lemma countVote_wakes r t v resp r' o : countVote r t v resp = (r', o) → wakes r r'.
Proof.
  unfold countVote, becomeFollowerLocked, becomeLeaderLocked, saveStableLocked,
    saveStableValuesLocked.
  awake.
Qed.

Lemma Propose_wakes r command r' res : Propose r command = (r', res) → wakes r r'.
Proof. unfold Propose. awake. Qed.

Lemma advanceCommit_wakes fuel r i r' b : advanceCommit_from fuel r i = (r', b) → wakes r r'.
Proof.
  revert i. induction fuel as [|fuel IH]; intros i; simpl; [intros [= <- <-]; apply wakes_refl|].
  unfold saveStableValuesLocked.
  repeat (case_decide; [|try by intros [= <- <-]; apply wakes_refl]); try apply IH.
  destruct (stable_Save _ _) as [s [e|]]; intros [= <- <-]; unfold wakes; cbn; (split; [auto|by right]).
Qed.

Lemma handleAppendEntriesResponse_wakes r p req resp r' b :
  handleAppendEntriesResponse r p req resp = (r', b) → wakes r r'.
Proof.
  unfold handleAppendEntriesResponse. destruct (decide _).
  { destruct (becomeFollowerLocked _ _ _) eqn:Hf. apply becomeFollower_wakes in Hf.
    by intros [= <- <-]. }
  case_decide; [intros [= <- <-]; apply wakes_refl|]. destruct (negb _); [awake|].
  destruct (advanceCommitIndexLocked _) as [r1 b1] eqn:Ha. apply advanceCommit_wakes in Ha.
  intros Heq. assert (wakes r r1) as Hw.
  { revert Ha. unfold wakes. repeat case_decide; cbn; done. }
  destruct b1; simplify_eq; [|done]. exact Hw.
Qed.

Lemma loading_wakes r meta r' res : loadForInstall r meta = (r', res) → wakes r r'.
Proof. unfold loadForInstall. awake. Qed.

Lemma handleInstallSnapshotResponse_wakes r p req resp r' b :
  handleInstallSnapshotResponse r p req resp = (r', b) → wakes r r'.
Proof.
  unfold handleInstallSnapshotResponse, becomeFollowerLocked, saveStableLocked,
    saveStableValuesLocked.
  awake.
Qed.

Lemma complete_wakes r e r' err : applyCommitted_complete r e = (r', err) → wakes r r'.
Proof. unfold applyCommitted_complete, saveStableValuesLocked. awake. Qed.

Lemma recordApplyFailure_wakes r err : wakes r (recordApplyFailure r err).
Proof.
  unfold recordApplyFailure. destruct (applyErr r) eqn:He; [apply wakes_refl|].
  unfold wakes; cbn. split; [by right; right|by left].
Qed.

Lemma publish_wakes r i t r' err : maybeSnapshot_publish r i t = (r', err) → wakes r r'.
Proof. unfold maybeSnapshot_publish. awake. Qed.

Lemma section_step_wakes r r' : section_step r r' → wakes r r'.
Proof.
  intros Hstep. destruct Hstep.
  - by eapply HandleRequestVote_wakes.
  - by eapply HandleAppendEntries_wakes.
  - by eapply HandleInstallSnapshot_wakes.
  - by eapply startElection_begin_wakes.
  - by eapply countVote_wakes.
  - by eapply Propose_wakes.
  - revert select (beginReplication _ _ = _). unfold beginReplication. awake.
  - unfold endReplication. awake.
  - by eapply handleAppendEntriesResponse_wakes.
  - by eapply loading_wakes.
  - by eapply handleInstallSnapshotResponse_wakes.
  - revert select (applyCommitted_execute _ _ = _). unfold applyCommitted_execute. awake.
  - by eapply complete_wakes.
  - apply recordApplyFailure_wakes.
  - revert select (saveSnapshot _ _ _ = _). unfold saveSnapshot. awake.
  - by eapply publish_wakes.
  - unfold recordSnapshotFailure. awake.
  - unfold clearSnapshotFailure. awake.
Qed.

(** ** The election timer *)

Lemma randomElectionTimeout_bounds r rand :
  (∀ n, 0 < n → 0 ≤ rand n < n) → electionTimeoutMin r < electionTimeoutMax r →
  electionTimeoutMin r ≤ randomElectionTimeout r rand < electionTimeoutMax r.
Proof.
  intros Hr Hlt. unfold randomElectionTimeout.
  pose proof (Hr (electionTimeoutMax r - electionTimeoutMin r)). lia.
Qed.

Lemma startElection_begin_timings r r' o :
  startElection_begin r = (r', o) →
  electionTimeoutMin r' = electionTimeoutMin r ∧ electionTimeoutMax r' = electionTimeoutMax r.
Proof.
  unfold startElection_begin, becomeCandidateLocked, becomeLeaderLocked, saveStableLocked,
    saveStableValuesLocked.
  untouched.
Qed.

(** A turn that resets the timer gives it one fresh random timeout. *)
Lemma run_turn_resets r t event now rand r' t' work :
  (∀ n, 0 < n → 0 ≤ rand n < n) → electionTimeoutMin r < electionTimeoutMax r →
  event = ElectionReset ∨ event = ElectionTimeout →
  run_turn r t event now rand = Some (r', t', work) →
  ∃ d, electionTimeoutMin r ≤ d < electionTimeoutMax r ∧ t' = mkTimer (Some (now + d)) false.
Proof.
  intros Hr Hlt Hev. pose proof (randomElectionTimeout_bounds r rand Hr Hlt) as Hb.
  assert (∀ t d, resetTimer t now d = mkTimer (Some (now + d)) false) as Hreset.
  { intros [[?|] ?] d; done. }
  destruct Hev as [-> | ->]; cbn; [intros [= _ <- _]; rewrite Hreset; by eexists|].
  destruct (negb _); [|intros [= _ <- _]; rewrite Hreset; by eexists].
  destruct (startElection_begin r) as [r1 o] eqn:Hs.
  apply startElection_begin_timings in Hs as [Hmin Hmax].
  intros [= _ <- _]. rewrite Hreset. exists (randomElectionTimeout r1 rand).
  split; [|done]. rewrite <- Hmin, <- Hmax. apply randomElectionTimeout_bounds; [done|lia].
Qed.

(** ** The apply loop among the other sections *)

(** Waiting on [applyNow]; inside [applyCommitted]; returned after a failure. *)
Inductive Phase :=
| Idle
| Draining
| Dead.

(** The sections of the node in any order, the loop's own among them, with
    where the loop is. *)
Inductive loop_step : Phase * Raft → Phase * Raft → Prop :=
| loop_section p r r' : section_step r r' → loop_step (p, r) (p, r')
| loop_receive r : applyNow r = true → loop_step (Idle, r) (Draining, r <| applyNow := false |>)
| loop_drained r : applyCommitted_fetch r = Drained → loop_step (Draining, r) (Idle, r)
| loop_failed r err : loop_step (Draining, r) (Dead, recordApplyFailure r err).

(** An idle loop that has something to apply is about to hear of it. *)
Definition awake_ok (s : Phase * Raft) : Prop :=
  node_ok s.2 ∧
  (s.1 = Idle → lastApplied s.2 < commitIndex s.2 → applyNow s.2 = true).

Lemma loop_step_awake s s' : loop_step s s' → awake_ok s → awake_ok s'.
Proof.
  intros Hstep [Hok Haw]. destruct Hstep as [p r r' Hs|r|r Hf|r err]; cbn in *.
  - pose proof (section_step_evolves _ _ Hok Hs) as [Hok' Hadv].
    split; [done|]. cbn. intros -> Hlt.
    destruct (section_step_wakes _ _ Hs) as [[?|[?|[-> Hc]]] _]; [done|lia|].
    apply Haw; [done|]. pose proof (adv_applied _ _ Hadv). lia.
  - split; [|done]. by apply (same_core_evolves r).
  - split; [done|]. cbn. intros _ Hlt. unfold applyCommitted_fetch in Hf. by case_decide; [lia|cases_in Hf].
  - split; [|done]. cbn. eapply same_core_evolves; [apply recordApplyFailure_core|done].
Qed.

Lemma loop_steps_awake s s' : rtc loop_step s s' → awake_ok s → awake_ok s'.
Proof. induction 1; eauto using loop_step_awake. Qed.

(** ** One turn of the apply loop is a path of these steps *)

Lemma sections_loop p r r' : rtc section_step r r' → rtc loop_step (p, r) (p, r').
Proof. induction 1; [done|]. eapply rtc_l; [by apply loop_section|done]. Qed.

Lemma maybeSnapshot_steps r r' err :
  node_ok r → maybeSnapshot r = (r', err) → rtc section_step r r'.
Proof.
  intros Hok. unfold maybeSnapshot.
  destruct (maybeSnapshot_choose r) as [|i t ns|e] eqn:Hch; [by intros [= <- <-]| |by intros [= <- <-]].
  apply maybeSnapshot_choose_spec in Hch as (-> & Ht & Hns & _); [|done].
  destruct (sm_Snapshot (machine r)) as [d|e]; [|by intros [= <- <-]].
  assert (base r ≤ lastApplied r) as Hb by apply (ok_applied _ Hok).
  assert (lastApplied r = base r → t = baseTerm r) as Hbt.
  { intros Heq. unfold term_of in Ht. rewrite decide_True in Ht by done. by simplify_eq. }
  destruct (saveSnapshot _ _ _) as [r1 e1] eqn:Hs.
  assert (section_step r r1) as Hstep
    by (eapply (step_save_snapshot _ ns (mkSnapshot (lastApplied r) t d)); [exact Hns|exact Hb|exact Hbt|exact Hs]).
  apply saveSnapshot_spec in Hs as (_ & ns' & -> & Hinv & Hst);
    [|first [exact Hns|exact Hb|exact Hbt|done]..].
  destruct e1; [by intros [= <- <-]; apply rtc_once|]. destruct (Hst eq_refl) as [Hst' _].
  intros Hp. eapply rtc_l; [done|]. apply rtc_once.
  by apply (step_publish_snapshot _ ns' (mkSnapshot (lastApplied r) t d) r' err).
Qed.

(** One iteration of [applyCommitted]. *)
Lemma applyCommitted_once_steps r r' res :
  node_ok r → applyCommitted_once r = (r', res) →
  node_ok r' ∧ rtc section_step r r' ∧
  (res = Some None → applyCommitted_fetch r' = Drained).
Proof.
  intros Hok. unfold applyCommitted_once. pose proof (fetch_spec _ Hok) as Hf.
  destruct (applyCommitted_fetch r) as [|e|e] eqn:Hfe; [by intros [= <- <-]| |by intros [= <- <-]].
  destruct Hf as (Hlt & _ & Hi & _).
  destruct (applyCommitted_execute r e) as [r1 e1] eqn:He.
  pose proof (execute_spec _ _ _ _ Hok He) as ([Hok1 _] & _ & Ha1 & Hc1 & _).
  assert (section_step r r1) as Hs1 by by eapply step_execute.
  destruct e1 as [e1|].
  { intros [= <- <-]. split; [done|]. split; [|done]. by apply rtc_once. }
  destruct (applyCommitted_complete r1 e) as [r2 e2] eqn:Hc.
  assert (section_step r1 r2) as Hs2 by (eapply step_complete; [|done]; lia).
  pose proof (section_step_evolves _ _ Hok1 Hs2) as [Hok2 _].
  assert (rtc section_step r r2) by (eapply rtc_l; [done|by apply rtc_once]).
  by destruct e2; intros [= <- <-].
Qed.

Lemma applyCommitted_steps fuel r r' res :
  node_ok r → applyCommitted fuel r = (r', res) →
  node_ok r' ∧ rtc section_step r r' ∧
  (res = Some None → applyCommitted_fetch r' = Drained).
Proof.
  revert r. induction fuel as [|fuel IH]; intros r Hok; simpl; [by intros [= <- <-]|].
  destruct (applyCommitted_once r) as [r1 [res1|]] eqn:Ho;
    apply applyCommitted_once_steps in Ho as (Hok1 & Hs1 & Hd); try done.
  - by intros [= <- <-].
  - intros (? & Hs2 & ?)%IH; [|done]. split_and!; [done| |done]. by etransitivity.
Qed.

Lemma applyLoop_turn_steps fuel r r' goes_on :
  node_ok r → applyNow r = true → applyLoop_turn fuel r = Some (r', goes_on) →
  rtc loop_step (Idle, r) (if goes_on then Idle else Dead, r').
Proof.
  intros Hok Hnow. unfold applyLoop_turn.
  assert (node_ok (r <| applyNow := false |>)) as Hok0 by by apply (same_core_evolves r).
  destruct (applyCommitted fuel _) as [r1 [res|]] eqn:Ha; [|done].
  apply applyCommitted_steps in Ha as (Hok1 & Hs & Hd); [|done].
  intros Ht. eapply rtc_l; [by apply loop_receive|]. etransitivity; [by apply sections_loop|].
  destruct res as [err|]; [simplify_eq; apply rtc_once, loop_failed|].
  eapply rtc_l; [by apply loop_drained, Hd|].
  destruct (maybeSnapshot r1) as [r2 e2] eqn:Hm. apply maybeSnapshot_steps in Hm; [|done].
  destruct e2; simplify_eq; apply sections_loop; (eapply rtc_r; [exact Hm|]);
    [apply step_snapshot_failure|apply step_snapshot_success].
Qed.

(** And it always returns. *)
Lemma applyLoop_turn_returns fuel r :
  node_ok r → commitIndex r - lastApplied r < Z.of_nat fuel →
  is_Some (applyLoop_turn fuel r).
Proof.
  intros Hok Hf. unfold applyLoop_turn.
  assert (node_ok (r <| applyNow := false |>)) as Hok0 by by apply (same_core_evolves r).
  apply (applyCommitted_returns fuel) in Hok0 as (r1 & res & ->); [|done].
  destruct res; [done|]. by destruct (maybeSnapshot r1) as [? []].
Qed.

(** ** A failed state machine *)

Lemma section_steps_err r r' e :
  rtc section_step r r' → applyErr r = Some e → applyErr r' = Some e.
Proof.
  induction 1 as [|r1 r2 r3 Hs _ IH]; [done|]. intros He. apply IH.
  destruct (section_step_wakes _ _ Hs) as [_ [?|Heq]]; congruence.
Qed.

(** Every pending client gets the error. *)
Lemma complete_all_lookup err (l : list (Z * nat)) cs i c :
  NoDup l.*2 → (∀ i c, (i, c) ∈ l → cs !! c = Some (mkChannel [] false)) → (i, c) ∈ l →
  foldr (λ '(index, result) cs, complete_channel cs result (mkResult index err)) cs l !! c =
    Some (mkChannel [mkResult i err] true).
Proof.
  induction l as [|[j d] l IH]; intros Hnd Hopen Hin; [by apply elem_of_nil in Hin|].
  cbn in *. apply NoDup_cons in Hnd as [Hd Hnd]. unfold complete_channel at 1.
  apply elem_of_cons in Hin as [[= -> ->]|Hin].
  - rewrite list_lookup_alter_eq.
    assert (∀ l, d ∉ l.*2 → foldr (λ '(index, result) cs,
      complete_channel cs result (mkResult index err)) cs l !! d = cs !! d) as Hother.
    { clear. induction l as [|[k e] l IH]; intros Hd; [done|]. cbn in *.
      apply not_elem_of_cons in Hd as [Hne Hd]. unfold complete_channel at 1.
      rewrite list_lookup_alter_ne by done. by apply IH. }
    rewrite Hother by done. rewrite (Hopen j d); [done|by constructor].
  - assert (c ≠ d) as Hne.
    { intros ->. apply Hd. apply list_elem_of_fmap. by exists (i, d). }
    rewrite list_lookup_alter_ne by done. apply IH; [done| |done].
    intros k e Hk. apply (Hopen k). by constructor.
Qed.
End Loop.
