(* ===== verification/ResultFacts.v ===== *)
(** * What the answer to a proposal means

    One proposal followed through the sections of its node, from the channel
    [Propose] returns to the result a client reads from it. *)

From S2P Require Import Prelude.
From S2P Require Import Log.
From S2P Require Import Config.
From S2P Require Import Stores.
From S2P Require Import RaftState.
From S2P Require Import RaftElection.
From S2P Require Import RaftReplication.
From S2P Require Import RaftApply.
From S2P Require Import RaftSnapshot.
From S2P Require Import RaftInvariant.
From S2P Require Import ElectionFacts.
From S2P Require Import ReplicationFacts.
From S2P Require Import RecoveryFacts.
From S2P Require Import RaftNode.
From S2P Require Import PendingFacts.
From S2P Require Import LoopFacts.

Section Results.
Context {SS LS SM NS : Type}
  `{StableStoreLaws SS} `{LogStoreLaws LS} `{StateMachineLaws SM} `{SnapshotStoreLaws NS}.
Abbreviation Raft := (Raft SS LS SM NS).
Implicit Types r : Raft.

(** What a channel that waits for index [i] may hold. *)
Definition answered r (i : Z) (ch : Channel) : Prop :=
  ch = mkChannel [] false ∨
  (ch = mkChannel [mkResult i None] true ∧ i ≤ lastApplied r) ∨
  (∃ err, ch = mkChannel [mkResult i (Some err)] true ∧ applyErr r = Some err).

(** Channel [c] is the one a proposal at index [i] waits on. *)
Definition tracked r (i : Z) (c : chan) : Prop :=
  (∃ ch, channels r !! c = Some ch ∧ answered r i ch) ∧
  ∀ j, pendingResults r !! j = Some c → j = i.

Lemma answered_mono r r' i ch :
  lastApplied r ≤ lastApplied r' → (applyErr r = None ∨ applyErr r' = applyErr r) →
  answered r i ch → answered r' i ch.
Proof.
  intros Ha He [->|[[-> Hi]|(err & -> & Herr)]]; [by left| |].
  - right; left. split; [done|lia].
  - right; right. exists err. split; [done|]. destruct He; congruence.
Qed.

Lemma same_pending_tracked r r' i c :
  lastApplied r ≤ lastApplied r' → (applyErr r = None ∨ applyErr r' = applyErr r) →
  same_pending r r' → tracked r i c → tracked r' i c.
Proof.
  intros Ha He [Hp Hc] [(ch & Hch & Hans) Hj]. split; rewrite ?Hp, ?Hc; [|done].
  exists ch. split; [done|]. by eapply answered_mono.
Qed.

(** A proposal opens a channel after the ones that exist. *)
Lemma Propose_tracked r command r' res i c :
  lastApplied r ≤ lastApplied r' → (applyErr r = None ∨ applyErr r' = applyErr r) →
  Propose r command = (r', res) → pending_ok r → tracked r i c → tracked r' i c.
Proof.
  intros Ha He Hp Hok Ht. pose proof Ht as [(ch & Hch & Hans) Hj].
  assert (same_pending r r' ∨ ∃ k, channels r' = channels r ++ [mkChannel [] false] ∧
    pendingResults r' = <[k := length (channels r)]> (pendingResults r)) as [Hs|(k & Hc & Hpend)].
  { revert Hp. unfold Propose.
    destruct (Command_Validate command); [by intros [= <- <-]; left|].
    case_decide; [by intros [= <- <-]; left|]. destruct (negb _); [by intros [= <- <-]; left|].
    destruct (applyErr r); [by intros [= <- <-]; left|].
    destruct (log_Append _ _) as [ls [e|]]; intros [= <- <-]; [by left|right].
    by eexists. }
  - by eapply same_pending_tracked.
  - split; rewrite ?Hc, ?Hpend.
    + exists ch. split; [by apply lookup_app_l_Some|]. by eapply answered_mono.
    + intros j [[<- <-]|[_ Hjc]]%lookup_insert_Some; [|by apply Hj].
      apply lookup_lt_Some in Hch. lia.
Qed.

(** Completing an entry answers the channel of its own index. *)
Lemma complete_tracked r e r' err i c :
  lastApplied r ≤ lastApplied r' → (applyErr r = None ∨ applyErr r' = applyErr r) →
  applyCommitted_complete r e = (r', err) → pending_ok r → tracked r i c → tracked r' i c.
Proof.
  intros Ha He Heq Hok Ht. revert Heq. unfold applyCommitted_complete.
  case_decide; [by intros [= <- <-]|].
  destruct (saveStableValuesLocked _ _ _ _ _) as [r1 [e1|]] eqn:Hs; apply save_same in Hs as Hsame.
  { intros [= <- <-]. by eapply same_pending_tracked. }
  cbn. destruct Hsame as [Hp1 Hc1]. rewrite Hp1, Hc1.
  destruct (pendingResults r !! Index e) as [d|] eqn:Hd; intros [= <- <-]; [|by eapply same_pending_tracked].
  destruct Ht as [(ch & Hch & Hans) Hj]. split; cbn.
  - destruct (decide (d = c)) as [->|Hne].
    + exists (mkChannel [mkResult (Index e) None] true). unfold complete_channel.
      rewrite list_lookup_alter_eq, (pend_open _ Hok _ _ Hd). split; [done|].
      right; left. rewrite (Hj _ Hd). split; [done|]. cbn. lia.
    + exists ch. unfold complete_channel. rewrite list_lookup_alter_ne by done.
      split; [done|]. by eapply answered_mono.
  - intros j [_ ?]%lookup_delete_Some. by apply Hj.
Qed.

(** ** A failed state machine *)

(** The waiting clients, once each, each on an open channel. *)
Lemma waiting_open r :
  pending_ok r → let l := map_to_list (pendingResults r) in
  NoDup l.*2 ∧ ∀ j d, (j, d) ∈ l → channels r !! d = Some (mkChannel [] false).
Proof.
  intros Hok. split.
  - apply NoDup_fmap_2_strong; [|apply NoDup_map_to_list].
    intros [k d] [l d'] Hk Hl ?. simplify_eq/=. apply elem_of_map_to_list in Hk, Hl.
    f_equal. by eapply (pend_inj _ Hok).
  - intros j d Hd%elem_of_map_to_list. by eapply (pend_open _ Hok).
Qed.

Lemma all_pending_answered r err i c :
  pending_ok r → pendingResults r !! i = Some c →
  foldr (λ '(index, result) cs, complete_channel cs result (mkResult index (Some err)))
    (channels r) (map_to_list (pendingResults r)) !! c =
    Some (mkChannel [mkResult i (Some err)] true).
Proof.
  intros Hok Hi. destruct (waiting_open _ Hok) as [Hnd Hopen].
  apply complete_all_lookup; [done|done|]. by apply elem_of_map_to_list.
Qed.

(** It answers all of them. *)
Lemma recordApplyFailure_tracked r err i c :
  pending_ok r → tracked r i c → tracked (recordApplyFailure r err) i c.
Proof.
  intros Hok Ht. unfold recordApplyFailure. destruct (applyErr r) eqn:He; [done|].
  destruct Ht as [(ch & Hch & Hans) Hj]. split; cbn; [|done].
  destruct (waiting_open _ Hok) as [Hnd Hopen].
  destruct (decide (c ∈ (map_to_list (pendingResults r)).*2)) as [Hin|Hin].
  - apply list_elem_of_fmap in Hin as ([j d] & -> & Hin%elem_of_map_to_list). cbn in *.
    rewrite (all_pending_answered _ _ j) by done. eexists. split; [done|].
    rewrite (Hj _ Hin). right; right. by exists err.
  - exists ch. rewrite (proj2 (complete_all_ok (Some err) _ _ (pend_channels _ Hok) Hnd Hopen)) by done.
    split; [done|]. eapply (answered_mono r); [done|by left|done].
Qed.

(** ** Along a history *)

Lemma section_step_tracked r r' i c :
  node_ok r → section_step r r' → pending_ok r → tracked r i c → tracked r' i c.
Proof.
  intros Hok Hstep Hpend.
  pose proof (adv_applied _ _ (proj2 (section_step_evolves _ _ Hok Hstep))) as Ha.
  pose proof (proj2 (section_step_wakes _ _ Hstep)) as He.
  destruct Hstep.
  - apply same_pending_tracked; [done..|]. by eapply HandleRequestVote_same.
  - apply same_pending_tracked; [done..|]. by eapply HandleAppendEntries_same.
  - apply same_pending_tracked; [done..|]. by eapply HandleInstallSnapshot_same.
  - apply same_pending_tracked; [done..|]. by eapply startElection_begin_same.
  - apply same_pending_tracked; [done..|]. by eapply countVote_same.
  - by eapply Propose_tracked.
  - apply same_pending_tracked; [done..|].
    revert select (beginReplication _ _ = _). unfold beginReplication. untouched.
  - by apply same_pending_tracked.
  - apply same_pending_tracked; [done..|]. by eapply handleAppendEntriesResponse_same.
  - apply same_pending_tracked; [done..|]. by eapply loading_same.
  - apply same_pending_tracked; [done..|]. by eapply handleInstallSnapshotResponse_same.
  - apply same_pending_tracked; [done..|].
    revert select (applyCommitted_execute _ _ = _). unfold applyCommitted_execute. untouched.
  - by eapply complete_tracked.
  - by apply recordApplyFailure_tracked.
  - apply same_pending_tracked; [done..|].
    revert select (saveSnapshot _ _ _ = _). unfold saveSnapshot. untouched.
  - apply same_pending_tracked; [done..|]. by eapply publish_same.
  - by apply same_pending_tracked.
  - by apply same_pending_tracked.
Qed.

Lemma section_steps_tracked r r' i c :
  node_ok r → rtc section_step r r' → pending_ok r → tracked r i c → tracked r' i c.
Proof.
  intros Hok Hs. induction Hs as [|r1 r2 r3 Hs _ IH]; [done|]. intros Hp Ht.
  apply IH; [by eapply section_step_evolves|by eapply section_step_pending|].
  by eapply section_step_tracked.
Qed.

Lemma Propose_tracks r command r' i c :
  Propose r command = (r', Ok (i, c)) → pending_ok r → tracked r' i c.
Proof.
  intros Hp Hok. pose proof (Propose_pending _ _ _ _ Hp Hok) as Hok'.
  revert Hp. unfold Propose.
  destruct (Command_Validate command); [done|]. case_decide; [done|].
  destruct (negb _); [done|]. destruct (applyErr r); [done|].
  destruct (log_Append _ _) as [ls [e|]]; [done|]. intros [= <- <- <-]. split; cbn in *.
  - eexists. split; [by apply list_lookup_middle|by left].
  - intros j Hj. eapply (pend_inj _ Hok' j); [exact Hj|]. cbn. by rewrite lookup_insert_eq.
Qed.

(** ** A proposal and its answer *)

Lemma Propose_spec r command r' i c :
  node_ok r → room r → command_fits r command → Propose r command = (r', Ok (i, c)) →
  Command_Validate command = None ∧ state r = Leader ∧ applier r = true ∧ applyErr r = None ∧
  i = lastIndex r + 1 ∧ i = lastIndex r' ∧
  entry r' i = Some (mkLogEntry i (currentTerm r) (c_Operation command) (c_Key command)
                       (c_Value command)) ∧
  log_entries (logStore r') = log r' ∧ take (length (log r)) (log r') = log r ∧
  pendingResults r' !! i = Some c ∧ channels r' !! c = Some (mkChannel [] false) ∧
  commitIndex r' = commitIndex r.
Proof.
  intros Hok Hroom Hfit Hp. pose proof Hp as [Hok' _]%Propose_evolves; [|done|apply Hroom|done].
  revert Hp. unfold Propose. rewrite lastLogInfo_index, next_index_small by (done || apply Hroom).
  destruct (Command_Validate command); [done|]. case_decide as Hs; [done|].
  destruct (negb _) eqn:Happ; [done|]. destruct (applyErr r); [done|].
  destruct (log_Append _ _) as [ls [e|]]; [done|]. intros [= <- <- <-].
  apply negb_false_iff in Happ. destruct (ok_log _ Hok) as [Hb0 _ _ _].
  pose proof (lenZ_nonneg (log r)). split_and!; try done.
  - unfold lastIndex, base. cbn. rewrite lenZ_app. change (lenZ [_]) with 1. lia.
  - unfold entry, base. cbn. rewrite entry_of_app. unfold lastIndex, base.
    rewrite decide_False by lia. unfold entry_of. rewrite decide_True by lia.
    by replace (Z.to_nat _) with 0%nat by lia.
  - apply Hok'.
  - apply take_app_length.
  - cbn. by rewrite lookup_insert_eq.
  - cbn. by apply list_lookup_middle.
Qed.

Lemma reply_spec r command r1 i c r2 ch res :
  node_ok r → pending_ok r → room r → command_fits r command →
  Propose r command = (r1, Ok (i, c)) → rtc section_step r1 r2 →
  channels r2 !! c = Some ch → res ∈ buffered ch →
  r_Index res = i ∧
  match r_Err res with
  | None => i ≤ lastApplied r2 ∧ lastApplied r2 ≤ commitIndex r2
  | Some err => applyErr r2 = Some err
  end.
Proof.
  intros Hok Hp [_ Hroom] Hfit Hprop Hs Hch Hin.
  pose proof (Propose_evolves _ _ _ _ Hok Hroom Hfit Hprop) as [Hok1 _].
  pose proof (Propose_pending _ _ _ _ Hprop Hp) as Hp1.
  pose proof (Propose_tracks _ _ _ _ _ Hprop Hp) as Ht.
  apply (section_steps_tracked _ _ _ _ Hok1 Hs Hp1) in Ht as [(ch' & Hch' & Hans) _].
  assert (node_ok r2) as Hok2.
  { eapply (node_steps_evolves r1); [done|]. eapply rtc_subrel; [|exact Hs].
    intros ???. by apply step_section. }
  pose proof (ok_applied _ Hok2). simplify_eq.
  destruct Hans as [->|[[-> Hi]|(err & -> & Herr)]]; cbn in Hin;
    [by apply elem_of_nil in Hin|..]; apply list_elem_of_singleton in Hin as ->; cbn;
    [split; [done|lia]|done].
Qed.
End Results.
