(* ===== verification/ProcessFacts.v ===== *)
(** * Facts about the node process

    What a proposal that returns without error guarantees, whom a client is
    sent to, and a start on what a crash left. *)

From S2P Require Import Prelude.
From S2P Require Import Fs.
From S2P Require Import Wal.
From S2P Require Import WalFacts.
From S2P Require Import Log.
From S2P Require Import FileLog.
From S2P Require Import FileLogFacts.
From S2P Require Import Config.
From S2P Require Import Stores.
From S2P Require Import FileStable.
From S2P Require Import FileSnapshot.
From S2P Require Import Store.
From S2P Require Import Http.
From S2P Require Import Server.
From S2P Require Import RaftState.
From S2P Require Import RaftElection.
From S2P Require Import RaftReplication.
From S2P Require Import RaftApply.
From S2P Require Import RaftRecovery.
From S2P Require Import RaftLoop.
From S2P Require Import Transport.
From S2P Require Import NodeProc.
From S2P Require Import RaftInvariant.
From S2P Require Import ElectionFacts.
From S2P Require Import ReplicationFacts.
From S2P Require Import ApplyFacts.
From S2P Require Import RecoveryFacts.
From S2P Require Import RaftNode.
From S2P Require Import PendingFacts.
From S2P Require Import ResultFacts.

(** ** Where a client is sent *)

Lemma peerByID_lookup leader peers :
  NoDup (ID <$> peers) →
  ∀ peer, peer ∈ peers → ID peer = leader → peerByID leader peers = Some peer.
Proof.
  induction peers as [|q peers IH]; simpl; intros Hnd p Hin Hid; [by apply elem_of_nil in Hin|].
  apply NoDup_cons in Hnd as [Hq Hnd]. apply elem_of_cons in Hin as [->|Hin].
  - by rewrite decide_True.
  - rewrite decide_False; [by apply IH|]. intros Heq. apply Hq. rewrite Heq, <- Hid.
    by apply list_elem_of_fmap_2.
Qed.

Lemma peerByID_absent leader peers :
  leader ∉ (ID <$> peers) → peerByID leader peers = None.
Proof.
  induction peers as [|q peers IH]; simpl; [done|]. intros [Hne Hn]%not_elem_of_cons.
  rewrite decide_False by congruence. by apply IH.
Qed.

Section Process.
Context {SS LS NS : Type}
  `{StableStoreLaws SS} `{LogStoreLaws LS} `{MapCodec} `{SnapshotStoreLaws NS}.
Abbreviation Process := (Process (SS := SS) (LS := LS) (NS := NS)).
Abbreviation Wait := (Wait (SS := SS) (LS := LS) (NS := NS)).
Implicit Types (n : Process) (wait : Wait).

(** The member with the leader's identifier, if there is one. *)
Lemma LeaderHTTPAddr_spec n :
  valid_config (cfg n) →
  match Process_LeaderHTTPAddr n with
  | (address, true) => ∃ member, member ∈ Self (cfg n) :: Peers (cfg n) ∧
      ID member = leaderID (raft n) ∧ HTTPAddr member = address ∧ address ≠ ""%string
  | (_, false) => leaderID (raft n) ∉ members (cfg n)
  end.
Proof.
  intros [_ (Hself & Haddr & _) _ Hpeers Hids _ _]. unfold Process_LeaderHTTPAddr, Raft_LeaderID.
  rewrite Forall_forall in Hpeers. unfold members.
  case_decide as Hu.
  { rewrite Hu. unfold UnknownLeader. intros [Heq|(p & Heq & Hp)%list_elem_of_fmap]%elem_of_cons;
      [lia|]. apply Hpeers in Hp as [? _]. lia. }
  case_decide as Hs; [exists (Self (cfg n)); split_and!; first [by left|done]|].
  apply NoDup_cons in Hids as [_ Hnd]. unfold PeerByID.
  destruct (decide (leaderID (raft n) ∈ (ID <$> Peers (cfg n)))) as [Hin|Hin].
  - apply list_elem_of_fmap in Hin as (p & Heq & Hp). rewrite (peerByID_lookup _ _ Hnd p) by done.
    exists p. split_and!; [by right|done|done|]. by apply Hpeers in Hp as (_ & _ & ?).
  - rewrite peerByID_absent by done. rewrite not_elem_of_cons. by split.
Qed.

(** ** A proposal that returns without error *)

Lemma select_None wait result :
  select wait result = None → ∃ ch res, result = Some ch ∧ res ∈ buffered ch ∧ r_Err res = None.
Proof.
  unfold select, received. destruct result as [[[|res l] []]|]; destruct (ctxDone wait), (prefersResult wait);
    try done; intros Hn; by (eexists _, res; split_and!; [done|left|]).
Qed.

Lemma propose_acknowledged wait n command n' :
  node_ok (raft n) → pending_ok (raft n) → room (raft n) → command_fits (raft n) command →
  (∀ r p, Propose (raft n) command = (r, Ok p) → rtc section_step r (meanwhile wait r)) →
  propose wait n command = (n', None) →
  ∃ r i c, Propose (raft n) command = (r, Ok (i, c)) ∧ i ≤ lastApplied (raft n').
Proof.
  intros Hok Hp Hroom Hfit Hwait. unfold propose.
  destruct (Propose (raft n) command) as [r [[i c]|err]] eqn:Hprop; [|done].
  intros [= <- Hsel]. destruct (select_None _ _ Hsel) as (ch & res & Hch & Hin & Herr).
  exists r, i, c. split; [done|]. cbn.
  destruct (reply_spec _ _ _ _ _ _ _ _ Hok Hp Hroom Hfit Hprop (Hwait _ _ eq_refl) Hch Hin) as [_ Hr].
  rewrite Herr in Hr. apply Hr.
Qed.

(** ** A write request and its answer *)

Context `{ServerCodec}.

(** The command a request asks for. *)
Definition asked (r : Request) : option Command :=
  if decide (Path r = "/set"%string) then
    (λ req, mkCommand SetOperation (sr_Key req) (sr_Value req)) <$> decodeSetRequest (Body r)
  else if decide (Path r = "/delete"%string) then
    Some (mkCommand DeleteOperation (queryGet (RawQuery r) "key") "")
  else None.

Lemma failure_status s n broken r err (wc : WriteCoordinator Process) :
  300 ≤ Status (respond (writeFailure (coordinator := wc) s n (newWriter broken) r err)).
Proof.
  pose proof (writeFailure_answers (coordinator := wc) s n broken r err) as Ha. cbn in Ha.
  destruct (write_IsLeader n); [by rewrite Ha|].
  destruct (write_LeaderHTTPAddr n) as [a []]; destruct Ha as [-> _]; done.
Qed.

(** A success status comes only from a proposal that returned no error. *)
Lemma request_success wait n broken r n' resp :
  writes (http n) = true → is_write r → request wait n broken r = (n', resp) →
  Status resp < 300 →
  Raft_IsLeader (raft n) = true ∧
  ∃ command, asked r = Some command ∧ c_Key command ≠ ""%string ∧
    propose wait n command = (n', None).
Proof.
  unfold request. set (wc := Process_writes wait). intros Hw Hr Hs Hlt.
  destruct (write_IsLeader (WriteCoordinator := wc) n) eqn:Hl; cycle 1.
  { rewrite redirected in Hs by done. injection Hs as <- <-.
    pose proof (redirect_answers (coordinator := wc) (http n) n broken r) as Ha. cbn in Ha.
    destruct (Process_LeaderHTTPAddr n) as [a []]; destruct Ha as [Ha _]; rewrite Ha in Hlt; lia. }
  split; [done|]. unfold asked. destruct Hr as [[Hm Hp]|[Hm Hp]]; rewrite Hp.
  - destruct (set_on_leader (coordinator := wc) (http n) n broken r Hw Hm Hp Hl)
      as [(msg & Heq & _)|(req & Hd & [Hk _] & Heq)].
    { rewrite Heq in Hs. injection Hs as <- <-. by rewrite error_status in Hlt. }
    cbn in Heq. unfold Process_ProposeSet in Heq.
    destruct (propose wait n _) as [n1 [err|]] eqn:Hprop; rewrite Heq in Hs; injection Hs as <- <-.
    { pose proof (failure_status (http n) n1 broken r err wc). lia. }
    rewrite Hd. cbn. by eexists.
  - pose proof (delete_on_leader (coordinator := wc) (http n) n broken r Hw Hm Hp Hl) as Heq.
    cbn zeta in Heq. case_decide as Hk.
    { destruct Heq as (msg & Heq). rewrite Heq in Hs. injection Hs as <- <-. by rewrite error_status in Hlt. }
    cbn in Heq. unfold Process_ProposeDelete in Heq.
    destruct (propose wait n _) as [n1 [err|]] eqn:Hprop; rewrite Heq in Hs; injection Hs as <- <-.
    { pose proof (failure_status (http n) n1 broken r err wc). lia. }
    by eexists.
Qed.
End Process.

(** ** A start on what a crash left *)

Section Restart.
Context `{EntryCodec} `{StateCodec} `{SnapshotCodec} `{MapCodec}.

(** The disks of the state and the snapshot may go on failing. *)
#[local] Instance stable_laws : StableStoreLaws FileStableStore := FileStableStore_laws False.
#[local] Instance snapshot_laws : SnapshotStoreLaws FileStore := FileStore_laws False.

Definition stateFile (so : option StableState) (fs : list outcome) : Disk :=
  rebooted (encodeState <$> so) fs.
Definition snapshotFile (sno : option Snapshot) (fs : list outcome) : Disk :=
  rebooted ((λ sn, marshalDisk (diskOf sn)) <$> sno) fs.

Lemma stateFile_inv (calm : Prop) so fs :
  (calm → fs = []) → (∀ st, so = Some st → stable_state_ok st) →
  stable_file_ok calm (mkFileStableStore (stateFile so fs)) ∧
  file_state (mkFileStableStore (stateFile so fs)) = default freshState so.
Proof.
  intros Hfs Hso. apply stable_file_intro.
  - split; [by destruct so|]. by eapply settled_wf, rebooted_settled.
  - unfold documents, stateFile. destruct so as [st|]; [|done]. split; [done|by apply Hso].
Qed.

Lemma snapshotFile_inv (calm : Prop) sno fs :
  (calm → fs = []) → (∀ sn, sno = Some sn → Snapshot_Validate sn = None) →
  snapshot_file_ok calm (mkFileStore (snapshotFile sno fs)) ∧
  file_stored (mkFileStore (snapshotFile sno fs)) = sno.
Proof.
  intros Hfs Hso. apply snapshot_file_intro.
  - split; [by destruct sno|]. by eapply settled_wf, rebooted_settled.
  - unfold publishes, snapshotFile. destruct sno as [sn|]; [|done]. split; [done|by apply Hso].
Qed.

(** What the three files must hold, for indexes that fit. *)
Record files_ok (b0 : Z) (es : list LogEntry) (so : option StableState)
    (sno : option Snapshot) : Prop := {
  files_log : contiguous (b0 + 1) es ∧ 0 ≤ b0 ∧ b0 + lenZ es < 2 ^ 63;
  files_state st : so = Some st →
    stable_state_ok st ∧ 0 ≤ CurrentTerm st < 2 ^ 64 ∧ 0 ≤ LastApplied st;
  files_snapshot sn : sno = Some sn →
    Snapshot_Validate sn = None ∧ 0 ≤ s_LastIncludedIndex sn < 2 ^ 63;
}.

(** The node they make: the snapshot's image, the log from its boundary on,
    and the state, with what is committed applied. *)
Definition rebuilt (c : Config) (limit b0 : Z) (es : list LogEntry) (so : option StableState)
    (sno : option Snapshot) (r : Raft FileStableStore FileLog.Store MemoryStore FileStore) : Prop :=
  let meta := diskMeta sno in
  ∃ m, restored (NewMemoryStore limit) sno m ∧
    recovered c (raised (default freshState so) (LastIncludedIndex meta))
      (recoveredLog b0 es meta) meta m r.

Lemma New_spec c limit b0 es es' d crash so sno fs fs' n :
  valid_entries (es ++ es') → Forall file_fits (es ++ es') →
  recoverable (marshalEntry <$> es) (marshalEntry <$> es') d → image d crash →
  files_ok b0 (es ++ es') so sno →
  New c limit (rebooted crash []) (stateFile so fs) (snapshotFile sno fs') = Some (Ok n) →
  ∃ r k, n = assembled c limit r ∧ Config_Validate c = None ∧ node_ok r ∧ pending_ok r ∧
    rebuilt c limit b0 (es ++ take k es') so sno r.
Proof.
  intros Hv Hx Hrec Him [(Hc & Hb0 & Hb) Hst Hsn]. unfold New.
  destruct (Config_Validate c) eqn:Hcfg; [done|].
  destruct (NewFileLogStore _) as [d1 [[s2|e]|]] eqn:Hopen; [|done..].
  destruct (NewWithSnapshot _ _ _ _ _ _) as [r|e] eqn:Hnew; intros [= <-].
  destruct (NewWithSnapshot_loads _ _ _ _ _ _ _ Hnew) as (s' & out & Hload).
  assert (chained (es ++ es')) as Hch by by exists (b0 + 1).
  destruct (reload_calm _ _ _ _ _ _ _ _ Hv Hch Hx Hrec Him Hopen Hload)
    as ((k & ->) & Hinv & Hent & Hsame).
  rewrite (NewWithSnapshot_same_load _ _ _ s') in Hnew by done.
  destruct (stateFile_inv False so fs) as [Hsi Hss]; [done|by intros st [? _]%Hst|].
  destruct (snapshotFile_inv False sno fs') as [Hni Hns]; [done|by intros sn [? _]%Hsn|].
  change (stable_state (mkFileStableStore (stateFile so fs)) = default freshState so) in Hss.
  change (snap_stored (mkFileStore (snapshotFile sno fs')) = sno) in Hns.
  rewrite <- (take_drop k es'), app_assoc in Hv, Hc, Hb.
  apply contiguous_app in Hc as [Hc _]. apply Forall_app in Hv as [Hv _].
  rewrite lenZ_app in Hb. pose proof (lenZ_nonneg (drop k es')).
  apply (NewWithSnapshot_spec _ _ _ _ _ _ b0) in Hnew as (Hok & _ & _ & m & Hm & Hr).
  - exists r, k. split; [done|]. split; [done|]. split; [done|]. split.
    + destruct Hr as [_ (_ & _ & Hp & Hcs) _ _ _ _]. by apply no_pending_ok.
    + unfold rebuilt. rewrite Hns, Hss in *. cbn in Hr. rewrite Hent in Hr. by exists m.
  - constructor; cbn [log_inv log_entries FileLogStore_laws]; rewrite ?Hent, ?Hss; split_and!; try done; try lia.
    all: destruct so as [st|]; cbn; try done; by apply Hst.
  - apply map_Forall_empty.
  - done.
  - apply Validate_spec in Hcfg. apply Hcfg.
  - rewrite Hns. intros sn Heq. by apply Hsn.
Qed.
End Restart.

(** ** A start that succeeds *)

Section RestartLive.
Context `{EntryCodec} `{StateCodec} `{SnapshotCodec} `{MapCodec}.

#[local] Instance stable_calm : StableStoreLaws FileStableStore := FileStableStore_laws True.
#[local] Instance snapshot_calm : SnapshotStoreLaws FileStore := FileStore_laws True.
#[local] Existing Instances FileStableStore_live FileStore_live.

(** The snapshot and the log reach the commit index, and a fresh machine takes
    what they hold up to it. *)
Definition startable (limit b0 : Z) (es : list LogEntry) (so : option StableState)
    (sno : option Snapshot) : Prop :=
  let meta := diskMeta sno in
  let d := raised (default freshState so) (LastIncludedIndex meta) in
  let kept := recoveredLog b0 es meta in
  SnapshotMetadata_Validate meta = None ∧ b0 ≤ LastIncludedIndex meta ∧
  CommitIndex d ≤ LastIncludedIndex meta + lenZ kept ∧
  ∃ m m', restored (NewMemoryStore limit) sno m ∧
    run_entries m (take (Z.to_nat (CommitIndex d - LastIncludedIndex meta)) kept) = Some m'.

Lemma New_live c limit b0 es es' d crash so sno :
  Config_Validate c = None → valid_entries (es ++ es') → Forall file_fits (es ++ es') →
  recoverable (marshalEntry <$> es) (marshalEntry <$> es') d → image d crash →
  files_ok b0 (es ++ es') so sno →
  (∀ k, startable limit b0 (es ++ take k es') so sno) →
  ∃ n, New c limit (rebooted crash []) (stateFile so []) (snapshotFile sno []) = Some (Ok n).
Proof.
  intros Hcfg Hv Hx Hrec Him [(Hc & Hb0 & Hb) Hst Hsn] Hstart. unfold New. rewrite Hcfg.
  destruct (NewFileLogStore_live _ _ _ _ Hrec Him) as (d1 & s2 & Hopen). rewrite Hopen.
  assert (chained (es ++ es')) as Hch by by exists (b0 + 1).
  destruct (reload_live _ _ _ _ _ _ Hv Hch Hx Hrec Him Hopen) as (d2 & k & Hl).
  assert (log_Load (s2, d1) = ((s2, d2), Ok (es ++ take k es'))) as Hload.
  { cbn. unfold onDisk, mbind, IO_bind. by rewrite Hl. }
  destruct (reload_calm _ _ _ _ _ _ _ _ Hv Hch Hx Hrec Him Hopen Hload) as (_ & Hinv & Hent & Hsame).
  rewrite (NewWithSnapshot_same_load _ _ _ (s2, d2)) by done.
  destruct (stateFile_inv True so []) as [Hsi Hss]; [done|by intros st [? _]%Hst|].
  destruct (snapshotFile_inv True sno []) as [Hni Hns]; [done|by intros sn [? _]%Hsn|].
  change (stable_state (mkFileStableStore (stateFile so [])) = default freshState so) in Hss.
  change (snap_stored (mkFileStore (snapshotFile sno [])) = sno) in Hns.
  destruct (Hstart k) as (Hmeta & Hle & Hcm & m & m' & Hm & Hrun).
  rewrite <- (take_drop k es'), app_assoc in Hv, Hc, Hb.
  apply contiguous_app in Hc as [Hc _]. apply Forall_app in Hv as [Hv _].
  rewrite lenZ_app in Hb. pose proof (lenZ_nonneg (drop k es')).
  assert (disk_ok (mkFileStableStore (stateFile so [])) (s2, d2) b0) as Hd.
  { constructor; cbn [log_inv log_entries FileLogStore_laws]; rewrite ?Hent, ?Hss; split_and!; try done; try lia.
    all: destruct so as [st|]; cbn; try done; by apply Hst. }
  assert (snap_words (snap_stored (mkFileStore (snapshotFile sno [])))) as Hw
    by (rewrite Hns; intros sn Heq; by apply Hsn).
  change (snap_inv (mkFileStore (snapshotFile sno []))) in Hni.
  assert (log_entries (s2, d2) = es ++ take k es') as Hes by exact Hent.
  assert (sm_inv (NewMemoryStore limit)) as Hsm by apply map_Forall_empty.
  destruct (NewWithSnapshot_live c _ _ (NewMemoryStore limit) (mkFileStore (snapshotFile sno []))
    b0 m m' Hd Hni Hcfg Hsm Hw)
    as [r Hr]; rewrite ?Hns, ?Hss, ?Hes; try done.
  exists (assembled c limit r). by rewrite Hr.
Qed.
End RestartLive.
