(* ===== verification/ReplicationLive.v ===== *)
(** * Replication makes progress

    What a follower answers when its stores do not fail, and the exchange of
    [replicateToPeer] between a leader and a follower that hears it. *)

From S2P Require Import Prelude.
From S2P Require Import Log.
From S2P Require Import Config.
From S2P Require Import Stores.
From S2P Require Import RaftState.
From S2P Require Import RaftElection.
From S2P Require Import RaftReplication.
From S2P Require Import RaftInvariant.
From S2P Require Import ElectionFacts.
From S2P Require Import ReplicationFacts.

Section ReplicationLive.
Context {SS LS SM NS : Type}
  `{StableStoreLive SS} `{LogStoreLive LS} `{StateMachineLaws SM} `{SnapshotStoreLaws NS}.
Abbreviation Raft := (Raft SS LS SM NS).
Implicit Types r : Raft.

Lemma recognizeLeader_live r t l :
  node_ok r → currentTerm r ≤ t → ∃ r', recognizeLeader r t l = (r', None).
Proof.
  intros Hok Ht. unfold recognizeLeader. case_decide; [|by eexists].
  destruct (becomeFollower_live r t l) as [s' ->]; [done..|by eexists].
Qed.

Lemma truncateConflict_live r tf :
  node_ok r → tf = 0 ∨ commitIndex r < tf ≤ lastIndex r →
  ∃ r', truncateConflict r tf = (r', true).
Proof.
  intros Hok Htf. unfold truncateConflict. case_decide as Hne; [|by eexists].
  destruct Htf as [|Htf]; [done|]. destruct (ok_log _ Hok) as [Hb0 Hwc _ Hwb].
  fold (base r) in *. pose proof (ok_applied _ Hok). unfold lastIndex in *.
  destruct (log_TruncateFrom_live (logStore r) (base r + 1) tf) as [ls ->];
    rewrite ?(ok_log_entries _ Hok); [apply Hok|done|lia..|].
  rewrite logOffset_eq by (cbn; apply Hok). cbn. fold (base r).
  rewrite decide_True by lia. by eexists.
Qed.

Lemma appendMissing_live r es :
  node_ok r → valid_entries es → Forall log_fits es → contiguous (lastIndex r + 1) es →
  ∃ r', appendMissing r es = (r', true).
Proof.
  intros Hok Hv Hf Hc. unfold appendMissing. case_decide; [|by eexists].
  destruct (log_Append_live (logStore r) es) as [ls ->]; [apply Hok|done..| |by eexists].
  rewrite (ok_log_entries _ Hok). by apply chained_after.
Qed.

Lemma adoptCommit_live r c : node_ok r → ∃ r', adoptCommit r c = (r', true).
Proof.
  intros Hok. unfold adoptCommit. case_decide as Hc; [|by eexists].
  unfold saveStableValuesLocked. pose proof (ok_applied _ Hok).
  edestruct (stable_Save_live (stable r)) as [s' ->]; [apply Hok| |by eexists].
  split; simpl; [apply Hok|lia].
Qed.

Lemma executePlan_live r p es tf es' :
  node_ok r → base r ≤ p ≤ lastIndex r → contiguous (p + 1) es → valid_entries es →
  p + lenZ es < 2 ^ 63 → Forall log_fits es →
  replicationPlanLocked r p es = Ok (tf, es') →
  ∃ r1 r2, truncateConflict r tf = (r1, true) ∧ appendMissing r1 es' = (r2, true).
Proof.
  intros Hok Hp Hc Hv Hb Hf Hplan.
  apply (plan_spec _ _ p) in Hplan as [same Hsame]; [|done|done|lia|done..].
  destruct (truncateConflict_live r tf) as [r1 Htr]; [done| |].
  { destruct Hsame as [_ [[-> _]|(_ & Hr & _)]]; auto. }
  exists r1. destruct (decide (es' = [])) as [->|Hne]; [by exists r1|].
  pose proof (plan_lastIndex _ _ _ _ _ _ _ Hok Hp Hsame Hne Htr) as [Hev Hlast].
  pose proof (meets_app _ _ _ _ (proj1 Hsame)) as Hes.
  rewrite Hes, contiguous_app in Hc. rewrite Hes in Hv, Hf.
  apply Forall_app in Hv as [_ Hv], Hf as [_ Hf].
  destruct (appendMissing_live r1 es') as [r2 Happ]; [apply Hev|done..| |by exists r2].
  rewrite Hlast. replace (p + lenZ same + 1) with (p + 1 + lenZ same) by lia. apply Hc.
Qed.

(** A request that fits the log is accepted. *)
Lemma HandleAppendEntries_accepts r req r' resp :
  node_ok r → request_ok req → currentTerm r ≤ ae_Term req →
  term_of r (ae_PrevLogIndex req) = Some (ae_PrevLogTerm req) →
  repairable r (ae_PrevLogIndex req) (ae_Entries req) →
  HandleAppendEntries r req = (r', resp) → aer_Success resp = true.
Proof.
  intros Hok [Hrt Hrv Hrc Hrb Hf] Ht Hpre Hrep. unfold HandleAppendEntries.
  rewrite decide_False by lia.
  destruct (recognizeLeader_live r (ae_Term req) (ae_LeaderID req)) as [r1 Hrec]; [done..|].
  rewrite Hrec.
  apply recognizeLeader_spec in Hrec as (Hev1 & Hl1 & Hm1 & Hc1 & Ha1 & Hn1); [|done|lia].
  set (r2 := signalElectionReset r1).
  assert (node_ok r2) as Hok2 by (apply (same_core_evolves r1 r2), Hev1; done).
  assert (log r2 = log r ∧ snapshotMeta r2 = snapshotMeta r ∧ commitIndex r2 = commitIndex r)
    as (Hl2 & Hm2 & Hc2) by done.
  rewrite <- (term_of_same r r2) in Hpre by done.
  pose proof (term_of_range _ _ _ Hpre) as Hp.
  apply matchesPrefix_spec in Hpre as ->; [|done]. simpl.
  destruct (proj2 (plan_exists r2 (ae_Entries req) (ae_PrevLogIndex req) 0 (ae_PrevLogIndex req)
    Hok2 Hp (Z.add_0_r _) Hrc Hrv Hrb)) as [[tf es'] Hplan].
  { revert Hrep. unfold repairable, after, base. by rewrite Hl2, Hm2, Hc2. }
  unfold replicationPlanLocked. rewrite Hplan.
  destruct (executePlan_live _ _ _ _ _ Hok2 Hp Hrc Hrv Hrb Hf Hplan) as (r3 & r4 & Htr & Happ).
  rewrite Htr, Happ.
  assert (node_ok r4) as Hok4.
  { eapply (executePlan_spec r2 _ _ _ _ r3 true r4 true Hok2 Hp); done. }
  destruct (adoptCommit_live r4 (ae_LeaderCommit req)) as [r5 ->]; [done|].
  by intros [= <- <-].
Qed.

(** A request whose prefix is unknown, or whose entries cannot repair the
    log, is refused, and the log kept. *)
Lemma HandleAppendEntries_rejects r req r' resp :
  node_ok r → request_ok req → currentTerm r ≤ ae_Term req →
  ¬ (term_of r (ae_PrevLogIndex req) = Some (ae_PrevLogTerm req) ∧
     repairable r (ae_PrevLogIndex req) (ae_Entries req)) →
  HandleAppendEntries r req = (r', resp) →
  aer_Success resp = false ∧ currentTerm r' = ae_Term req ∧ aer_Term resp = ae_Term req ∧
  log r' = log r ∧ snapshotMeta r' = snapshotMeta r ∧ commitIndex r' = commitIndex r.
Proof.
  intros Hok [Hrt Hrv Hrc Hrb Hf] Ht Hno. unfold HandleAppendEntries.
  rewrite decide_False by lia.
  destruct (recognizeLeader_live r (ae_Term req) (ae_LeaderID req)) as [r1 Hrec]; [done..|].
  rewrite Hrec.
  apply recognizeLeader_spec in Hrec as (Hev1 & Hl1 & Hm1 & Hc1 & Ha1 & Hn1); [|done|lia].
  destruct (Hn1 eq_refl) as (Ht1 & _).
  set (r2 := signalElectionReset r1).
  assert (node_ok r2) as Hok2 by (apply (same_core_evolves r1 r2), Hev1; done).
  assert (log r2 = log r ∧ snapshotMeta r2 = snapshotMeta r ∧ commitIndex r2 = commitIndex r)
    as (Hl2 & Hm2 & Hc2) by done.
  destruct (matchesPrefixLocked r2 _ _) eqn:Hmp; simpl; [|intros [= <- <-]; by split_and!].
  apply matchesPrefix_spec in Hmp; [|done]. pose proof (term_of_range _ _ _ Hmp) as Hp.
  destruct (replicationPlanLocked _ _ _) as [plan|] eqn:Hplan; [|intros [= <- <-]; by split_and!].
  destruct Hno. split; [by rewrite <- (term_of_same r r2)|].
  assert (repairable r2 (ae_PrevLogIndex req) (ae_Entries req)) as Hrep.
  { apply (plan_exists _ _ _ 0 (ae_PrevLogIndex req)); [done|done|lia|done..|by eexists]. }
  revert Hrep. unfold repairable, after, base. by rewrite Hl2, Hm2, Hc2.
Qed.

(** The scan gives up only when nothing can be committed. *)
Lemma advanceCommit_live fuel r index r' :
  node_ok r → index ≤ lastIndex r → index - commitIndex r < Z.of_nat fuel →
  advanceCommit_from fuel r index = (r', false) →
  ∀ j, commitIndex r < j ≤ index → ¬ committable r j.
Proof.
  intros Hok. revert index. induction fuel as [|fuel IH]; intros index Hi Hf; [lia|].
  pose proof (ok_log _ Hok) as [Hb0 _ _ Hwb]. pose proof (ok_applied _ Hok).
  fold (base r) in *. unfold lastIndex in Hi.
  simpl. case_decide as Hc; [|intros _; lia].
  assert (¬ committable r index →
    advanceCommit_from fuel r (u64 (index - 1)) = (r', false) →
    ∀ j, commitIndex r < j ≤ index → ¬ committable r j) as Hskip.
  { intros Hno. rewrite u64_small by lia. intros Hr j Hj.
    destruct (decide (j = index)) as [->|]; [done|].
    eapply (IH (index - 1)); unfold lastIndex; [lia|lia|done|lia]. }
  rewrite termAt_eq by apply Hok.
  change (if decide (index = _) then _ else _) with (term_of r index).
  case_decide as Ht; [|apply Hskip; by intros [? _]].
  case_decide as Hm; [apply Hskip; intros []; lia|].
  unfold saveStableValuesLocked.
  edestruct (stable_Save_live (stable r)) as [s' ->]; [apply Hok| |done].
  split; simpl; [apply Hok|lia].
Qed.
End ReplicationLive.
