(* ===== verification/RaftExchange.v ===== *)
(** * One replication exchange

    [replicateToPeer], [internal/raft/raft.go], with the follower's handlers
    as the other end of the transport: a leader [l] and a follower [f] that
    nothing else reaches meanwhile. *)

From S2P Require Import Prelude.
From S2P Require Import Log.
From S2P Require Import Config.
From S2P Require Import Stores.
From S2P Require Import RaftState.
From S2P Require Import RaftElection.
From S2P Require Import RaftReplication.
From S2P Require Import RaftSnapshot.
From S2P Require Import RaftInvariant.
From S2P Require Import ElectionFacts.
From S2P Require Import ReplicationFacts.
From S2P Require Import SnapshotFacts.
From S2P Require Import ReplicationLive.

Section Exchange.
Context {SS LS SM NS : Type}
  `{StableStore SS} `{LogStore LS} `{StateMachine SM} `{SnapshotStore NS}.
Abbreviation Raft := (Raft SS LS SM NS).
Implicit Types l f : Raft.

(** One turn of the loop; [true] when it goes round again. *)
Definition exchangeOnce l f (peerID : Z) : Raft * Raft * bool :=
  match buildInstallSnapshot l peerID with
  | (l, Err _) => (l, f, false)
  | (l, Ok (Some request)) =>
      match HandleInstallSnapshot f request with
      | (f, (_, Some _)) => (l, f, false)
      | (f, (response, None)) =>
          let '(l, again) := handleInstallSnapshotResponse l peerID request response in
          (l, f, again)
      end
  | (l, Ok None) =>
      match buildAppendEntries l peerID with
      | None => (l, f, false)
      | Some request =>
          let '(f, response) := HandleAppendEntries f request in
          let '(l, again) := handleAppendEntriesResponse l peerID request response in
          (l, f, again)
      end
  end.

(** The loop; [false] when the fuel ran out first. *)
Fixpoint exchange (fuel : nat) l f (peerID : Z) : Raft * Raft * bool :=
  match fuel with
  | O => (l, f, false)
  | S fuel =>
      match exchangeOnce l f peerID with
      | (l, f, true) => exchange fuel l f peerID
      | (l, f, false) => (l, f, true)
      end
  end.

Definition replicateToPeer (fuel : nat) l f (peerID : Z) : Raft * Raft * bool :=
  match Config.peerByID peerID (peers l) with
  | None => (l, f, true)
  | Some _ =>
      match beginReplication l peerID with
      | (l, false) => (l, f, true)
      | (l, true) =>
          let '(l, f, finished) := exchange fuel l f peerID in
          (endReplication l peerID, f, finished)
      end
  end.
End Exchange.

Section Converge.
Context {SS LS SM NS : Type}
  `{StableStoreLive SS} `{LogStoreLive LS} `{StateMachineLaws SM} `{SnapshotStoreLaws NS}.
Abbreviation Raft := (Raft SS LS SM NS).
Implicit Types r l f : Raft.

(** ** The merged log, index by index *)

Lemma entry_merge r prev es i :
  base r ≤ prev ≤ lastIndex r → i ≤ prev + lenZ es →
  entry_of (base r) (merge r prev es) i =
  if decide (i ≤ prev) then entry r i else entry_of prev es i.
Proof.
  intros Hp Hi. unfold merge. case_decide as Htake.
  - fold (entry r i). case_decide; [done|]. rewrite <- Htake, <- (entry_after r prev i) by lia.
    rewrite entry_of_take, decide_True; [done|]. unfold lenZ in *. lia.
  - assert (lenZ (take (Z.to_nat (prev - base r)) (log r)) = prev - base r) as Hlen.
    { unfold lastIndex, lenZ in *. rewrite length_take. lia. }
    rewrite entry_of_app, Hlen. replace (base r + (prev - base r)) with prev by lia.
    case_decide; [|done]. rewrite entry_of_take, decide_True by lia. done.
Qed.

(** ** Two logs of one cluster *)

(** What Raft's log matching and leader completeness say of a leader [l] and
    a follower [f]. *)
Record compatible l f : Prop := {
  cp_matching i t j :
    term_of l i = Some t → term_of f i = Some t → base l < j ≤ i → base f < j →
    entry f j = entry l j;
  cp_committed i : base l < i → base f < i ≤ commitIndex f → entry l i = entry f i;
}.

Lemma entry_term_of r i e : entry r i = Some e → term_of r i = Some (Term e).
Proof.
  intros He. unfold term_of. pose proof (entry_of_Some _ _ _ _ He).
  rewrite decide_False by lia. by rewrite He.
Qed.

Lemma after_lookup r p k : base r ≤ p → after r p !! k = entry r (p + 1 + Z.of_nat k).
Proof.
  intros Hp. rewrite <- (entry_after r p) by lia. unfold entry_of.
  rewrite decide_True by lia. f_equal. lia.
Qed.

Lemma compatible_repairable l f p t :
  compatible l f → base l ≤ p → base f ≤ p → term_of l p = Some t → term_of f p = Some t →
  repairable f p (after l p).
Proof.
  intros [Hm Hc] Hl Hf Htl Htf k x y Hx Hy _ Hne.
  rewrite after_lookup in Hx, Hy by done. split.
  - intros Heq. apply Hne. apply entry_term_of in Hx as Htx, Hy as Hty. rewrite Heq in Htx.
    assert (Some x = Some y) as [=]; [|done].
    rewrite <- Hx, <- Hy. apply (Hm _ _ _ Hty Htx); lia.
  - destruct (decide (commitIndex f < p + 1 + Z.of_nat k)); [done|]. destruct Hne.
    assert (Some y = Some x) as [=]; [|done]. rewrite <- Hx, <- Hy. apply Hc; lia.
Qed.

(** [l] and [f] hold the same entries as far as [l] goes. *)
Definition caught_up l f : Prop :=
  ∀ i, base l < i ≤ lastIndex l → base f < i → entry f i = entry l i.

Lemma accepted_caught_up l f req f' resp :
  node_ok f → request_ok req → compatible l f → base l ≤ ae_PrevLogIndex req ≤ lastIndex l →
  term_of l (ae_PrevLogIndex req) = Some (ae_PrevLogTerm req) →
  ae_Entries req = after l (ae_PrevLogIndex req) →
  HandleAppendEntries f req = (f', resp) → aer_Success resp = true → caught_up l f'.
Proof.
  intros Hok Hreq [Hm _] Hp Ht Hes Hh Hs i Hi Hbf.
  apply HandleAppendEntries_spec in Hh as (_ & Hmeta & _ & _ & Hsucc); [|done..].
  destruct (Hsucc Hs) as (_ & _ & _ & _ & Htf & _ & Hlog & _).
  pose proof (term_of_range _ _ _ Htf). pose proof (lenZ_after _ _ Hp) as Hlen.
  assert (base f' = base f) as Hb by (unfold base; by rewrite Hmeta).
  unfold entry at 1. rewrite Hlog, Hb in *. rewrite Hes.
  rewrite entry_merge by lia. case_decide.
  - by apply (Hm _ _ _ Ht Htf); lia.
  - apply entry_after; lia.
Qed.

(** ** The leader's side *)

Lemma advanceCommit_progress fuel r i r' b :
  advanceCommit_from fuel r i = (r', b) →
  matchIndex r' = matchIndex r ∧ nextIndex r' = nextIndex r ∧ state r' = state r.
Proof.
  revert i. induction fuel as [|fuel IH]; intros i; simpl; [by intros [= <- <-]|].
  unfold saveStableValuesLocked. repeat (case_decide; [|try by intros [= <- <-]]); try apply IH.
  destruct (stable_Save _ _) as [s' [e|]]; by intros [= <- <-].
Qed.

Lemma refused_again l p req resp next :
  state l = Leader → ae_Term req = currentTerm l → aer_Term resp = currentTerm l →
  aer_Success resp = false → nextIndex l !! p = Some next → 1 < next < 2 ^ 64 →
  handleAppendEntriesResponse l p req resp =
    (l <| nextIndex := <[p := next - 1]> (nextIndex l) |>, true).
Proof.
  intros Hs Ht Hr Hf Hn Hb. unfold handleAppendEntriesResponse, readUint.
  rewrite decide_False by lia. rewrite decide_False by (intros [?|[?|?]]; (done || lia)).
  rewrite Hf, Hn. simpl. rewrite decide_False by lia. by rewrite u64_small by lia.
Qed.

Lemma accepted_done l p req resp l' again :
  node_ok l → state l = Leader → ae_Term req = currentTerm l → aer_Term resp = currentTerm l →
  aer_Success resp = true → 0 ≤ ae_PrevLogIndex req →
  ae_PrevLogIndex req + lenZ (ae_Entries req) < 2 ^ 63 →
  handleAppendEntriesResponse l p req resp = (l', again) →
  again = false ∧ evolves l l' ∧ log l' = log l ∧ snapshotMeta l' = snapshotMeta l ∧
  ae_PrevLogIndex req + lenZ (ae_Entries req) ≤ readUint (matchIndex l') p.
Proof.
  intros Hok Hs Ht Hr Hsucc Hp Hb Hh. pose proof (ok_term _ Hok).
  assert (evolves l l') as Hev by (apply (handleAppendEntriesResponse_evolves l p req resp _ again); (done || lia)).
  revert Hh. unfold handleAppendEntriesResponse.
  rewrite decide_False by lia. rewrite decide_False by (intros [?|[?|?]]; (done || lia)). rewrite Hsucc. simpl.
  pose proof (lenZ_nonneg (ae_Entries req)). rewrite u64_small by lia.
  set (m := ae_PrevLogIndex req + lenZ (ae_Entries req)) in *.
  set (l1 := if decide (readUint (matchIndex l) p < m) then _ else l).
  assert (same_core l l1 ∧ m ≤ readUint (matchIndex l1) p) as [Hc1 Hm1].
  { subst l1. case_decide; [|by split; [|lia]]. split; [done|]. cbn. unfold readUint.
    rewrite lookup_insert_eq. simpl. lia. }
  clearbody l1. set (l2 := if decide (readUint (nextIndex l1) p < _) then _ else l1).
  assert (same_core l l2 ∧ m ≤ readUint (matchIndex l2) p) as [Hc2 Hm2].
  { subst l2. case_decide; [|done]. split; [|done]. destruct Hc1. by constructor. }
  clearbody l2. unfold advanceCommitIndexLocked.
  destruct (advanceCommit_from _ _ _) as [l3 b] eqn:Ha.
  apply advanceCommit_progress in Ha as Hprog. destruct Hprog as (Hm3 & _).
  assert (node_ok l2) as Hok2 by (by apply (same_core_evolves l l2)).
  rewrite lastLogIndex_eq in Ha by apply Hok2. fold (base l2) (lastIndex l2) in Ha.
  assert (log l3 = log l ∧ snapshotMeta l3 = snapshotMeta l) as [Hl3 Hs3].
  { destruct Hc2. apply advanceCommit_from_spec in Ha; [|done|done|lia].
    destruct Ha as [(_ & ? & ? & _)|[-> _]]; split; congruence. }
  destruct b; intros [= <- <-]; split_and!; try done; cbn; by rewrite Hm3.
Qed.

(** ** Convergence *)

Lemma no_snapshot_needed l p next :
  nextIndex l !! p = Some next → base l < next → buildInstallSnapshot l p = (l, Ok None).
Proof.
  intros Hn Hb. unfold buildInstallSnapshot, snapshotNeeded. fold (base l).
  case_decide; [done|]. rewrite Hn. by rewrite decide_False by lia.
Qed.

Lemma buildAppendEntries_live l p next :
  node_ok l → state l = Leader → nextIndex l !! p = Some next →
  base l < next ≤ lastIndex l + 1 →
  ∃ req, buildAppendEntries l p = Some req ∧ ae_PrevLogIndex req = next - 1.
Proof.
  intros Hok Hs Hn Hb. unfold buildAppendEntries.
  destruct (ok_log _ Hok) as [Hb0 _ _ Hwb]. fold (base l) in *. pose proof (lenZ_nonneg (log l)).
  rewrite decide_False by (intros Hne; by apply Hne). rewrite Hn.
  rewrite lastLogIndex_eq, termAt_eq, entriesFrom_eq by apply Hok.
  fold (base l) (baseTerm l) (lastIndex l). unfold lastIndex in *.
  rewrite u64_small by lia. rewrite decide_False by lia. rewrite u64_small by lia.
  change (if decide (next - 1 = base l) then _ else _) with (term_of l (next - 1)).
  destruct (term_of l (next - 1)) as [t|] eqn:Ht.
  - rewrite decide_True by lia. by eexists.
  - unfold term_of in Ht. case_decide; [done|].
    destruct (proj2 (entry_of_is_Some (base l) (log l) (next - 1))) as [e He]; [lia|].
    unfold entry in Ht. by rewrite He in Ht.
Qed.

Lemma compatible_same l l1 f f1 :
  log l1 = log l → snapshotMeta l1 = snapshotMeta l → log f1 = log f →
  snapshotMeta f1 = snapshotMeta f → commitIndex f1 = commitIndex f →
  compatible l f → compatible l1 f1.
Proof.
  intros Hl Hm Hfl Hfm Hc [Hmt Hcm].
  assert (∀ r r1 i, log r1 = log r → snapshotMeta r1 = snapshotMeta r → entry r1 i = entry r i)
    as He by (intros r r1 i E1 E2; unfold entry, base; by rewrite E1, E2).
  constructor; unfold base in *; rewrite ?Hm, ?Hfm, ?Hc.
  - intros i t j. rewrite (term_of_same l l1), (term_of_same f f1), (He l l1), (He f f1) by done. apply Hmt.
  - intros i. rewrite (He l l1), (He f f1) by done. apply Hcm.
Qed.

(** The prefix the two share is found, however far down it lies. *)
Lemma exchange_converges n l f p next p0 t0 :
  node_ok l → node_ok f → state l = Leader → currentTerm f ≤ currentTerm l →
  compatible l f →
  nextIndex l !! p = Some next → next ≤ lastIndex l + 1 →
  p0 < next → next - p0 ≤ Z.of_nat n →
  term_of l p0 = Some t0 → term_of f p0 = Some t0 →
  ∃ l' f', exchange n l f p = (l', f', true) ∧ evolves l l' ∧ evolves f f' ∧
    log l' = log l ∧ snapshotMeta l' = snapshotMeta l ∧ caught_up l f' ∧
    lastIndex l ≤ readUint (matchIndex l') p.
Proof.
  revert l f next. induction n as [|n IH];
    intros l f next Hl Hf Hs Ht Hcp Hn Hlast Hp0 Hfuel Htl Htf; [lia|].
  pose proof (term_of_range _ _ _ Htl) as Hrl. pose proof (term_of_range _ _ _ Htf) as Hrf.
  pose proof (ok_log _ Hl) as [Hb0 _ _ Hwb]. fold (base l) in *. unfold lastIndex in Hlast.
  simpl. unfold exchangeOnce. rewrite (no_snapshot_needed _ _ next) by (done || lia).
  destruct (buildAppendEntries_live l p next) as (req & Hreq & Hprev);
    [done..|unfold lastIndex; lia|].
  rewrite Hreq. apply buildAppendEntries_spec in Hreq as (_ & Hat & _ & _ & Hpt & Hes & _ & Hrok & _);
    [|done].
  destruct (HandleAppendEntries f req) as [f1 resp] eqn:Hh.
  pose proof Hh as Hspec. apply HandleAppendEntries_spec in Hspec as (Hevf & _ & _ & Hrt & _); [|done..].
  assert (base l ≤ ae_PrevLogIndex req ≤ lastIndex l) as Hp by (unfold lastIndex; lia).
  destruct (decide (term_of f (ae_PrevLogIndex req) = Some (ae_PrevLogTerm req))) as [Hm|Hm].
  - assert (aer_Success resp = true) as Hsucc.
    { eapply (HandleAppendEntries_accepts f req); [done..|lia|done| |done].
      pose proof (term_of_range _ _ _ Hm). rewrite Hes.
      eapply compatible_repairable; [done|lia|lia|done|done]. }
    destruct (handleAppendEntriesResponse l p req resp) as [l1 again] eqn:Hr.
    assert (currentTerm f1 = currentTerm l) as Htf1.
    { pose proof Hh as Hspec. apply HandleAppendEntries_spec in Hspec as (_ & _ & _ & _ & Hx); [|done..].
      destruct (Hx Hsucc) as (_ & ? & _). congruence. }
    pose proof (lenZ_after _ _ Hp) as Hlen.
    apply accepted_done in Hr as (-> & Hevl & Hl1 & Hm1 & Hmatch);
      [|done|done|done|congruence|done|lia|rewrite Hes; unfold lastIndex in *; lia].
    exists l1, f1. split_and!; try done; [by eapply accepted_caught_up|].
    rewrite Hes, Hlen in Hmatch. done.
  - apply HandleAppendEntries_rejects in Hh as (Hsucc & Htf1 & Hresp & Hl1 & Hm1 & Hc1);
      [|done|done|lia|by intros [? _]].
    assert (ae_PrevLogIndex req ≠ p0) as Hne by congruence.
    rewrite (refused_again l p req resp next); [|done|done|congruence|done|done|unfold lastIndex in *; lia].
    set (l1 := l <| nextIndex := _ |>).
    destruct (IH l1 f1 (next - 1)) as (l' & f' & -> & Hevl' & Hevf' & Hl' & Hm' & Hcu & Hmi).
    + by apply (same_core_evolves l l1).
    + apply Hevf.
    + done.
    + rewrite Htf1. simpl. lia.
    + by apply (compatible_same l l1 f f1).
    + subst l1. cbn. by rewrite lookup_insert_eq.
    + unfold lastIndex, base in *. simpl. lia.
    + lia.
    + lia.
    + by rewrite (term_of_same l l1).
    + by rewrite (term_of_same f f1).
    + exists l', f'. split_and!; try done; [|by eapply evolves_trans].
      eapply evolves_trans; [|done]. by apply same_core_evolves.
Qed.
End Converge.
