(* ===== verification/Protocol.v ===== *)
(** * The protocol, abstractly

    Raft on whole logs, without messages: the terms, votes and logs of the
    members, with the history a proof needs (who campaigned, voted and led,
    and which member has held which part of a leader's log in its term).
    [Cluster] runs the node of [raft.go] over a network; its steps refine
    these. *)

From stdpp Require Import functions.
From S2P Require Import Prelude.
From S2P Require Import Log.
From S2P Require Import Config.
From S2P Require Import Stores.

Implicit Types (l L : list LogEntry) (t v c : Z) (k : nat).

(** ** Logs *)

Definition lastT l : Z := match last l with Some e => Term e | None => 0 end.

(** The same first [k] entries. *)
Definition agree k l L : Prop := (k ≤ length l)%nat ∧ (k ≤ length L)%nat ∧ take k l = take k L.

(** The order on logs an election uses. *)
Definition at_least L l : Prop :=
  lastT l < lastT L ∨ lastT l = lastT L ∧ (length l ≤ length L)%nat.

Lemma agree_refl k l : (k ≤ length l)%nat → agree k l l.
Proof. intros H. unfold agree. by split_and!. Qed.

Lemma agree_sym k l L : agree k l L → agree k L l.
Proof. unfold agree. intros (?&?&?). by split_and!. Qed.

Lemma agree_trans k l1 l2 l3 : agree k l1 l2 → agree k l2 l3 → agree k l1 l3.
Proof. unfold agree. intros (?&?&H1) (?&?&H2). split_and!; [done..|]. by rewrite H1. Qed.

Lemma agree_le k k' l L : (k' ≤ k)%nat → agree k l L → agree k' l L.
Proof.
  unfold agree.
  intros Hle (?&?&Heq). split_and!; [lia..|].
  rewrite <- (Nat.min_l k' k), <- !take_take by done. by rewrite Heq.
Qed.

Lemma agree_take k l : (k ≤ length l)%nat → agree k (take k l) l.
Proof. intros H. unfold agree. rewrite length_take, take_take, Nat.min_id. split_and!; lia || done. Qed.

Lemma agree_lookup k l L i : agree k l L → (i < k)%nat → l !! i = L !! i.
Proof. intros (_&_&Heq) Hi. by rewrite <- (lookup_take_lt l k i), Heq, lookup_take_lt. Qed.

Lemma agree_prefix k l L L' : agree k l L → L `prefix_of` L' → agree k l L'.
Proof.
  unfold agree.
  intros (?&?&Heq) [x ->]. split_and!; [done|rewrite length_app; lia|].
  by rewrite take_app_le.
Qed.

Lemma agree_app_l k l L x : agree k l L → agree k (l ++ x) L.
Proof.
  unfold agree.
  intros (?&?&Heq). split_and!; [rewrite length_app; lia|done|]. by rewrite take_app_le.
Qed.

Lemma lastT_lookup l e : last l = Some e → l !! pred (length l) = Some e ∧ lastT l = Term e.
Proof. intros H. split; [by rewrite <- last_lookup|]. unfold lastT. by rewrite H. Qed.

(** ** States *)

Record PState := mkP {
  p_term : Z → Z;
  p_vote : Z → Z;
  p_log : Z → list LogEntry;
  (** what a candidate of a term campaigned with *)
  p_cand : gmap (Z * Z) (list LogEntry);
  (** voter, term, candidate *)
  p_votes : gset (Z * Z * Z);
  (** the votes granted before the term had a leader *)
  p_early : gset (Z * Z);
  (** the leader of a term and its log *)
  p_lead : gmap Z (Z * list LogEntry);
  (** member, term, length of the leader's log it held in that term *)
  p_acks : gset (Z * Z * nat);
}.

(** Every entry sits in the log of its term's leader, with the same entries
    before it. *)
Definition grounded (lead : gmap Z (Z * list LogEntry)) l : Prop :=
  ∀ k e, l !! k = Some e → ∃ c L, lead !! Term e = Some (c, L) ∧ agree (S k) l L.

(** The leader of [t'], if any, has the first [k] entries of the one of [t]. *)
Definition carries (lead : gmap Z (Z * list LogEntry)) t k t' : Prop :=
  ∀ c L c' L', lead !! t = Some (c, L) → lead !! t' = Some (c', L') → agree k L' L.

(** ** Steps *)

Section Protocol.
Variable members : list Z.

Implicit Types s : PState.

(** A later term with any vote, or a vote in a term that had none. *)
Definition raise v t c s : PState :=
  mkP (<[v := t]> (p_term s)) (<[v := c]> (p_vote s)) (p_log s) (p_cand s) (p_votes s)
    (p_early s) (p_lead s) (p_acks s).

Definition may_raise v t c s : Prop :=
  p_term s v < t ∨ p_term s v = t ∧ (p_vote s v = NoVote ∨ p_vote s v = c).

Definition grant v t c s : PState :=
  mkP (p_term s) (p_vote s) (p_log s) (p_cand s) ({[(v, t, c)]} ∪ p_votes s)
    (match p_lead s !! t with None => {[(v, t)]} ∪ p_early s | Some _ => p_early s end)
    (p_lead s) (p_acks s).

Definition may_grant_vote v t c s : Prop :=
  p_term s v = t ∧ p_vote s v = c ∧ c ≠ NoVote ∧
  ∃ L, p_cand s !! (t, c) = Some L ∧ at_least L (p_log s v).

(** A candidacy with the log the member has. *)
Definition announce c t s : PState :=
  mkP (p_term s) (p_vote s) (p_log s) (<[(t, c) := p_log s c]> (p_cand s)) (p_votes s)
    (p_early s) (p_lead s) (p_acks s).

Definition may_announce c t s : Prop :=
  p_term s c = t ∧ 0 < t ∧ c ≠ NoVote ∧ p_cand s !! (t, c) = None ∧
  Forall (λ e, Term e < t) (p_log s c).

(** A new term, a candidacy in it, and the candidate's own vote. *)
Definition campaign c t s : PState := grant c t c (announce c t (raise c t c s)).

Definition may_campaign c t s : Prop := p_term s c < t ∧ 0 < t ∧ c ≠ NoVote.

Definition set_lead c t L s : PState :=
  mkP (p_term s) (p_vote s) (<[c := L]> (p_log s)) (p_cand s) (p_votes s) (p_early s)
    (<[t := (c, L)]> (p_lead s)) (p_acks s).

Definition elect c t s : PState := set_lead c t (p_log s c) s.

Definition may_elect c t s : Prop :=
  p_term s c = t ∧ p_lead s !! t = None ∧ p_cand s !! (t, c) = Some (p_log s c) ∧
  ∃ Q, quorum members Q ∧ ∀ v, v ∈ Q → (v, t, c) ∈ p_votes s.

Definition extend c t e s : PState := set_lead c t (p_log s c ++ [e]) s.

Definition may_extend c t e s : Prop :=
  p_term s c = t ∧ p_lead s !! t = Some (c, p_log s c) ∧ Term e = t.

(** A new log, out of the old one and the leader's, that keeps what they
    share. *)
Definition accept v l s : PState :=
  mkP (p_term s) (p_vote s) (<[v := l]> (p_log s)) (p_cand s) (p_votes s) (p_early s)
    (p_lead s) (p_acks s).

Definition may_accept v l s : Prop :=
  ∃ c L, p_lead s !! p_term s v = Some (c, L) ∧
    ((∃ q, l = take q L) ∨ (∃ j, l = take j (p_log s v))) ∧
    ∀ k, agree k (p_log s v) L → agree k l L.

(** Part of the log of a leader [t] that all leaders from [t] to [T] have. *)
Definition settled s T l : Prop :=
  ∃ t, t ≤ T ∧ (∃ c L, p_lead s !! t = Some (c, L) ∧ l `prefix_of` L) ∧
    ∀ t' c L, t ≤ t' ≤ T → p_lead s !! t' = Some (c, L) → l `prefix_of` L.

(** Such a part in place of a log that does not have it: what a member does
    that starts again from a snapshot its log does not lead to. *)
Definition may_adopt v l s : Prop :=
  settled s (p_term s v) l ∧ ¬ l `prefix_of` p_log s v.

(** All lengths up to [k]. *)
Definition lengths_to v t k : gset (Z * Z * nat) :=
  list_to_set ((λ j, (v, t, j)) <$> seq 0 (S k)).

Lemma elem_of_lengths_to x v t k : x ∈ lengths_to v t k ↔ ∃ j, x = (v, t, j) ∧ (j ≤ k)%nat.
Proof.
  unfold lengths_to. rewrite elem_of_list_to_set, list_elem_of_fmap.
  setoid_rewrite elem_of_seq. split; intros (j & ? & ?); exists j; (split; [done|lia]).
Qed.

Definition ack v k s : PState :=
  mkP (p_term s) (p_vote s) (p_log s) (p_cand s) (p_votes s) (p_early s) (p_lead s)
    (lengths_to v (p_term s v) k ∪ p_acks s).

Definition may_ack v k s : Prop :=
  ∃ c L, p_lead s !! p_term s v = Some (c, L) ∧ agree k (p_log s v) L.

Inductive p_step s : PState → Prop :=
| p_raise v t c : may_raise v t c s → p_step s (raise v t c s)
| p_grant v t c : may_grant_vote v t c s → p_step s (grant v t c s)
| p_announce c t : may_announce c t s → p_step s (announce c t s)
| p_elect c t : may_elect c t s → p_step s (elect c t s)
| p_extend c t e : may_extend c t e s → p_step s (extend c t e s)
| p_accept v l : may_accept v l s → p_step s (accept v l s)
| p_adopt v l : may_adopt v l s → p_step s (accept v l s)
| p_ack v k : may_ack v k s → p_step s (ack v k s).

(** ** What is committed *)

(** A quorum held the first [k] entries of the leader of [t] in that term, and
    the last of them is of that term. *)
Definition committed s t k : Prop :=
  ∃ c L e Q, p_lead s !! t = Some (c, L) ∧ L !! pred k = Some e ∧ Term e = t ∧ (0 < k)%nat ∧
    quorum members Q ∧ ∀ v, v ∈ Q → (v, t, k) ∈ p_acks s.

(** Part of what is committed by term [T]. *)
Definition chosen s T l : Prop :=
  l = [] ∨ ∃ t k c L, t ≤ T ∧ committed s t k ∧ p_lead s !! t = Some (c, L) ∧
    l `prefix_of` take k L.

(** ** The invariant *)

Record p_inv s : Prop := {
  pi_vote v t c : (v, t, c) ∈ p_votes s →
    c ≠ NoVote ∧ is_Some (p_cand s !! (t, c)) ∧
    (t < p_term s v ∨ t = p_term s v ∧ p_vote s v = c);
  pi_vote_once v t c c' : (v, t, c) ∈ p_votes s → (v, t, c') ∈ p_votes s → c = c';
  pi_early v t c : (v, t, c) ∈ p_votes s → p_lead s !! t = None → (v, t) ∈ p_early s;
  pi_early_vote v t : (v, t) ∈ p_early s → ∃ c, (v, t, c) ∈ p_votes s;
  pi_cand t c L : p_cand s !! (t, c) = Some L →
    0 < t ≤ p_term s c ∧ Forall (λ e, Term e < t) L ∧ grounded (p_lead s) L;
  pi_lead t c L : p_lead s !! t = Some (c, L) →
    ∃ L0 x Q, p_cand s !! (t, c) = Some L0 ∧ L = L0 ++ x ∧ Forall (λ e, Term e = t) x ∧
      quorum members Q ∧ ∀ v, v ∈ Q → (v, t, c) ∈ p_votes s ∧ (v, t) ∈ p_early s;
  pi_lead_grounded t c L : p_lead s !! t = Some (c, L) → grounded (p_lead s) L;
  pi_log v : grounded (p_lead s) (p_log s v) ∧ Forall (λ e, Term e ≤ p_term s v) (p_log s v);
  pi_acks v t k : (v, t, k) ∈ p_acks s →
    t ≤ p_term s v ∧ ∃ c L, p_lead s !! t = Some (c, L) ∧ (k ≤ length L)%nat;
  (** an acknowledged prefix is kept as long as later leaders have it *)
  pi_keeps v t k c L : (v, t, k) ∈ p_acks s → p_lead s !! t = Some (c, L) →
    (∀ t', t < t' ≤ p_term s v → carries (p_lead s) t k t') → agree k (p_log s v) L;
  (** and a vote is cast with a log that has it *)
  pi_saw v t k c L t2 c2 : (v, t, k) ∈ p_acks s → p_lead s !! t = Some (c, L) →
    (v, t2, c2) ∈ p_votes s → (v, t2) ∈ p_early s → t < t2 →
    (∀ t', t < t' < t2 → carries (p_lead s) t k t') →
    ∃ l C, agree k l L ∧ grounded (p_lead s) l ∧ p_cand s !! (t2, c2) = Some C ∧ at_least C l;
}.

(** ** Preservation *)

(** Leaders are only added, and their logs only extended with entries of their
    terms. *)
Definition grows (lead lead' : gmap Z (Z * list LogEntry)) : Prop :=
  ∀ t c L, lead !! t = Some (c, L) →
  ∃ x, lead' !! t = Some (c, L ++ x) ∧ Forall (λ e, Term e = t) x.

Lemma grows_refl lead : grows lead lead.
Proof. intros t c L H. exists []. by rewrite app_nil_r. Qed.

Lemma grounded_grows lead lead' l : grows lead lead' → grounded lead l → grounded lead' l.
Proof.
  intros Hg Hl k e He. destruct (Hl _ _ He) as (c & L & HL & Hag).
  destruct (Hg _ _ _ HL) as (x & HL' & _). exists c, (L ++ x). split; [done|].
  eapply agree_prefix; [done|]. by exists x.
Qed.

Lemma grounded_take lead l k : grounded lead l → grounded lead (take k l).
Proof.
  intros Hl i e He. pose proof He as [He' Hi]%lookup_take_Some.
  destruct (Hl _ _ He') as (c & L & HL & Hlen & HlenL & Heq).
  exists c, L. split; [done|]. apply lookup_lt_Some in He.
  split_and!; [lia|done|]. by rewrite take_take, Nat.min_l by lia.
Qed.

(** A leader's log has entries of its term and of earlier ones. *)
Lemma lead_terms s t c L :
  p_inv s → p_lead s !! t = Some (c, L) → 0 < t ∧ Forall (λ e, Term e ≤ t) L.
Proof.
  intros Hinv HL. destruct (pi_lead _ Hinv _ _ _ HL) as (L0 & x & Q & HC & -> & Hx & _).
  destruct (pi_cand _ Hinv _ _ _ HC) as ((?&_) & Hlt & _). split; [done|].
  apply Forall_app. split; (eapply Forall_impl; [done|]; simpl; lia).
Qed.

(** What a later leader has after growing, it had before. *)
Lemma carries_back s lead' t k t' c L :
  p_inv s → grows (p_lead s) lead' → t < t' →
  p_lead s !! t = Some (c, L) → (k ≤ length L)%nat →
  carries lead' t k t' → carries (p_lead s) t k t'.
Proof.
  intros Hinv Hg Hlt HL Hk Hc c1 L1 c' L' HL1 HL'. simplify_eq.
  destruct (Hg _ _ _ HL) as (x & Hx & _), (Hg _ _ _ HL') as (y & Hy & Hty).
  destruct (Hc _ _ _ _ Hx Hy) as (_ & _ & Heq). rewrite (take_app_le L) in Heq by done.
  assert (k ≤ length L')%nat as Hk'.
  { destruct (decide (k ≤ length L')%nat) as [|Hgt]; [done|].
    assert (length (take k (L' ++ y)) = k) as Hlen by (rewrite Heq, length_take; lia).
    rewrite length_take, length_app in Hlen.
    destruct y as [|e y]; [simpl in *; lia|].
    assert (L !! length L' = Some e) as He.
    { rewrite <- (lookup_take_lt L k), <- Heq, lookup_take_lt by lia. by rewrite list_lookup_middle. }
    destruct (lead_terms _ _ _ _ Hinv HL) as [_ Hle].
    pose proof (Forall_lookup_1 _ _ _ _ Hle He). apply Forall_inv in Hty. simpl in *. lia. }
  rewrite take_app_le in Heq by done. by split_and!.
Qed.

Ltac upd v v' :=
  destruct (decide (v = v')) as [->|];
  [rewrite ?fn_lookup_insert in *|rewrite ?fn_lookup_insert_ne in * by done].

Lemma raise_inv v t c s : p_inv s → may_raise v t c s → p_inv (raise v t c s).
Proof.
  intros Hinv Hmay.
  assert (∀ w, p_term s w ≤ (<[v := t]> (p_term s)) w) as Hmono.
  { intros w. upd v w; [destruct Hmay; lia|done]. }
  destruct Hinv. constructor; simpl; try done.
  - intros w t1 c1 Hin. destruct (pi_vote0 _ _ _ Hin) as (Hne & Hc & Hv).
    split_and!; [done..|]. upd v w; [|done]. destruct Hmay as [|[<- [|]]]; naive_solver lia.
  - intros t1 c1 L HL. destruct (pi_cand0 _ _ _ HL) as ((?&?)&?&?). pose proof (Hmono c1).
    split_and!; [done|lia|done..].
  - intros w. destruct (pi_log0 w) as [? Hle]. split; [done|]. pose proof (Hmono w).
    eapply Forall_impl; [done|]. simpl. lia.
  - intros w t1 k Hin. destruct (pi_acks0 _ _ _ Hin). pose proof (Hmono w). split; [lia|done].
  - intros w t1 k c1 L Hin HL Hc. eapply pi_keeps0; [done..|]. intros t' Ht'. apply Hc.
    pose proof (Hmono w). lia.
Qed.

Lemma announce_inv c t s : p_inv s → may_announce c t s → p_inv (announce c t s).
Proof.
  intros Hinv (Ht & H0 & Hc & Hnone & Hlt).
  assert (∀ (k : Z * Z) (x : list LogEntry), p_cand s !! k = Some x → <[(t, c) := p_log s c]> (p_cand s) !! k = Some x) as Hin.
  { intros k x Hk. rewrite lookup_insert_ne; [done|]. intros <-. congruence. }
  destruct Hinv. constructor; simpl; try done.
  - intros v t1 c1 Hv. destruct (pi_vote0 _ _ _ Hv) as (? & [x Hx] & ?).
    split_and!; [done|eauto|done].
  - intros t1 c1 L. rewrite lookup_insert_Some. intros [[[= <- <-] <-]|[_ HL]]; [|by apply pi_cand0].
    split_and!; [done|lia|done|]. apply pi_log0.
  - intros t1 c1 L HL. destruct (pi_lead0 _ _ _ HL) as (L0 & x & Q & ? & ?).
    exists L0, x, Q. auto.
  - intros v t1 k c1 L t2 c2 H1 H2 H3 H4 H5 H6.
    destruct (pi_saw0 _ _ _ _ _ _ _ H1 H2 H3 H4 H5 H6) as (l & C & ? & ? & ? & ?).
    exists l, C. auto.
Qed.

Lemma grant_inv v t c s : p_inv s → may_grant_vote v t c s → p_inv (grant v t c s).
Proof.
  intros Hinv (Ht & Hv & Hc & C & HC & Hat).
  assert (∀ w t1 c1, (w, t1, c1) ∈ ({[(v, t, c)]} ∪ p_votes s) →
    (w, t1, c1) ∈ p_votes s ∨ w = v ∧ t1 = t ∧ c1 = c) as Hnew by set_solver.
  assert (∀ w t1, (w, t1) ∈ p_early (grant v t c s) →
    (w, t1) ∈ p_early s ∨ w = v ∧ t1 = t ∧ p_lead s !! t = None) as Hearly.
  { intros w t1. simpl. destruct (p_lead s !! t) eqn:?; set_solver. }
  assert (p_early s ⊆ p_early (grant v t c s)) as Hsub.
  { simpl. destruct (p_lead s !! t); set_solver. }
  destruct Hinv. constructor; simpl; try done.
  - intros w t1 c1 [Hin|(->&->&->)]%Hnew; [by apply pi_vote0|]. split_and!; [done|by rewrite HC|by right].
  - assert (∀ c', (v, t, c') ∈ p_votes s → c' = c) as Hone.
    { intros c' (_ & _ & [|[_ ?]])%pi_vote0; [lia|congruence]. }
    intros w t1 c1 c2 [H1|(->&->&->)]%Hnew [H2|(E1&E2&->)]%Hnew; subst; eauto; symmetry; eauto.
  - intros w t1 c1 [Hin|(->&->&->)]%Hnew HL; [apply Hsub; eauto|]. rewrite HL. set_solver.
  - intros w t1 [Hin|(->&->&_)]%Hearly; [|exists c; set_solver].
    destruct (pi_early_vote0 _ _ Hin) as (c1 & ?). exists c1. set_solver.
  - intros t1 c1 L HL. destruct (pi_lead0 _ _ _ HL) as (L0 & x & Q & ? & ? & ? & ? & HQ).
    exists L0, x, Q. split_and!; [done..|]. intros w Hw. destruct (HQ w Hw). split; [set_solver|].
    by apply Hsub.
  - intros w t1 k c1 L t2 c2 Hack HL Hvote Hear Hlt Hcar.
    destruct (decide ((w, t2, c2) ∈ p_votes s ∧ (w, t2) ∈ p_early s)) as [[Hvs Hes]|Hn].
    { by eapply pi_saw0. }
    assert (w = v ∧ t2 = t ∧ c2 = c ∧ p_lead s !! t = None) as (->&->&->&Hnone).
    { apply Hnew in Hvote as [Hvs|(->&->&->)].
      - apply Hearly in Hear as [|(->&->&HN)]; [by destruct Hn|]. exfalso. apply Hn. eauto.
      - split_and!; [done..|]. apply Hearly in Hear as [Hes|(_&_&?)]; [|done].
        destruct (pi_early_vote0 _ _ Hes) as (c1' & Hv1).
        destruct (pi_vote0 _ _ _ Hv1) as (_ & _ & [|[_ ?]]); [lia|].
        exfalso. apply Hn. by simplify_eq. }
    exists (p_log s v), C. split_and!; [|apply pi_log0|done..].
    eapply pi_keeps0; [done..|]. intros t' Ht'. destruct (decide (t' = t)) as [->|].
    + intros ? ? ? ? _ HL'. congruence.
    + apply Hcar. lia.
Qed.

Lemma accept_inv v l s : p_inv s → may_accept v l s → p_inv (accept v l s).
Proof.
  intros Hinv (c & L & HL & Hl & Hk).
  destruct (lead_terms _ _ _ _ Hinv HL) as [_ HLt].
  pose proof (pi_lead_grounded _ Hinv _ _ _ HL) as HLg.
  destruct Hinv. constructor; simpl; try done.
  - intros w. upd v w; [|done]. destruct (pi_log0 w) as [Hg Hle].
    destruct Hl as [[q ->]|[j ->]]; (split; [by apply grounded_take|by apply Forall_take]).
  - intros w t1 k c1 L1 Hack HL1 Hcar. pose proof (pi_keeps0 _ _ _ _ _ Hack HL1 Hcar) as Hag.
    upd v w; [|done]. destruct (pi_acks0 _ _ _ Hack) as [Hle _].
    destruct (decide (t1 = p_term s w)) as [->|]; [simplify_eq; by apply Hk|].
    assert (agree k L L1) as HLL by (eapply Hcar; [|done..]; lia).
    eapply agree_trans; [|done]. apply Hk. eapply agree_trans; [done|by apply agree_sym].
Qed.

Lemma adopt_inv v l s : p_inv s → may_adopt v l s → p_inv (accept v l s).
Proof.
  intros Hinv [(t & Ht & (c & L & HL & Hpre) & Hlater) Hn].
  destruct (lead_terms _ _ _ _ Hinv HL) as [_ HLt].
  pose proof (pi_lead_grounded _ Hinv _ _ _ HL) as HLg.
  assert (∀ k L1, l `prefix_of` L1 → agree k (p_log s v) L1 → agree k l L1) as Hk.
  { intros k L1 [x ->] (Hk & _ & Heq). destruct (decide (k ≤ length l)%nat) as [Hle|Hgt].
    - split_and!; [done|rewrite length_app; lia|]. by rewrite take_app_le.
    - destruct Hn. exists (drop (length l) (p_log s v)).
      rewrite <- (take_drop (length l) (p_log s v)) at 1. f_equal.
      rewrite <- (Nat.min_l (length l) k), <- take_take, Heq, take_take, Nat.min_l by lia.
      by rewrite take_app_length. }
  destruct Hinv. constructor; simpl; try done.
  - intros w. upd v w; [|done]. destruct Hpre as [x ->]. split.
    + rewrite <- (take_app_length l x). by apply grounded_take.
    + apply Forall_app in HLt as [Hl _]. eapply Forall_impl; [done|]. simpl. lia.
  - intros w t1 k c1 L1 Hack HL1 Hcar. pose proof (pi_keeps0 _ _ _ _ _ Hack HL1 Hcar) as Hag.
    upd v w; [|done]. destruct (pi_acks0 _ _ _ Hack) as [Hle _].
    destruct (decide (t ≤ t1)) as [|Hlt]; [apply Hk; [|done]; eapply Hlater; [|done]; lia|].
    assert (agree k L L1) as HLL by (eapply Hcar; [|done..]; lia).
    eapply agree_trans; [|done]. apply Hk; [done|]. eapply agree_trans; [done|by apply agree_sym].
Qed.

Lemma ack_inv v k s : p_inv s → may_ack v k s → p_inv (ack v k s).
Proof.
  intros Hinv (c & L & HL & Hag).
  assert (∀ w t1 k1, (w, t1, k1) ∈ p_acks (ack v k s) →
    (w, t1, k1) ∈ p_acks s ∨ w = v ∧ t1 = p_term s v ∧ agree k1 (p_log s v) L) as Hnew.
  { intros w t1 k1. simpl. rewrite elem_of_union, elem_of_lengths_to.
    intros [(j & [= -> -> ->] & Hj)|]; [right|by left].
    split_and!; [done..|]. eapply agree_le; [|done]. lia. }
  destruct Hinv. constructor; simpl; try done.
  - intros w t1 k1 [?|(->&->&Hk)]%Hnew; [by apply pi_acks0|]. split; [done|].
    exists c, L. split; [done|]. apply Hk.
  - intros w t1 k1 c1 L1 [?|(->&->&Hk)]%Hnew HL1 Hcar; [by eapply pi_keeps0|]. by simplify_eq.
  - intros w t1 k1 c1 L1 t2 c2 [?|(->&->&Hk)]%Hnew HL1 Hv2; [by eapply pi_saw0|].
    intros _ Hlt. destruct (pi_vote0 _ _ _ Hv2) as (_ & _ & [|[]]); lia.
Qed.

(** Both steps that change a leader. *)
Lemma set_lead_inv c t L s :
  p_inv s → grows (p_lead s) (<[t := (c, L)]> (p_lead s)) →
  (∃ x, L = p_log s c ++ x ∧ Forall (λ e, Term e = t) x) → p_term s c = t →
  (∃ L0 x Q, p_cand s !! (t, c) = Some L0 ∧ L = L0 ++ x ∧ Forall (λ e, Term e = t) x ∧
    quorum members Q ∧ ∀ v, v ∈ Q → (v, t, c) ∈ p_votes s ∧ (v, t) ∈ p_early s) →
  p_inv (set_lead c t L s).
Proof.
  intros Hinv Hg (x & HL & Hx) Ht Hlead.
  assert (∀ v t1 k t', (v, t1, k) ∈ p_acks s → t1 < t' →
    carries (<[t := (c, L)]> (p_lead s)) t1 k t' → carries (p_lead s) t1 k t') as Hback.
  { intros v t1 k t' Hack Hlt. destruct (pi_acks _ Hinv _ _ _ Hack) as (_ & c1 & L1 & HL1 & Hk).
    by eapply carries_back. }
  assert (grounded (<[t := (c, L)]> (p_lead s)) L) as HgL.
  { intros k e He. subst L. destruct (pi_log _ Hinv c) as [Hgl _].
    apply lookup_app_Some in He as [He|[Hge He]].
    - destruct (grounded_grows _ _ _ Hg Hgl _ _ He) as (c1 & L1 & ? & ?).
      exists c1, L1. split; [done|]. by apply agree_app_l.
    - pose proof (Forall_lookup_1 _ _ _ _ Hx He) as ->. rewrite lookup_insert_eq.
      eexists _, _. split; [done|]. apply agree_refl. apply lookup_lt_Some in He.
      rewrite length_app. lia. }
  assert (∀ v t1 k c1 L1, (v, t1, k) ∈ p_acks s → <[t := (c, L)]> (p_lead s) !! t1 = Some (c1, L1) →
    ∃ L2, p_lead s !! t1 = Some (c1, L2) ∧ L2 `prefix_of` L1) as Hold.
  { intros v t1 k c1 L1 Hack HL1. destruct (pi_acks _ Hinv _ _ _ Hack) as (_ & c2 & L2 & HL2 & _).
    destruct (Hg _ _ _ HL2) as (y & Hy & _). simplify_eq. exists L2. split; [done|]. by eexists. }
  destruct Hinv. constructor; simpl; try done.
  - intros v t1 c1 Hv. rewrite lookup_insert_None. intros [? _]. eauto.
  - intros t1 c1 L1 HL1. destruct (pi_cand0 _ _ _ HL1) as (? & ? & ?).
    split_and!; [lia..|done|by eapply grounded_grows].
  - intros t1 c1 L1. rewrite lookup_insert_Some. intros [[<- [= <- <-]]|[_ ?]]; eauto.
  - intros t1 c1 L1. rewrite lookup_insert_Some. intros [[<- [= <- <-]]|[_ ?]]; [done|].
    eapply grounded_grows; eauto.
  - intros v. destruct (pi_log0 v) as [Hgv Hv]. upd c v.
    + split; [done|]. subst L. apply Forall_app. split; [done|]. eapply Forall_impl; [done|]. simpl. lia.
    + split; [by eapply grounded_grows|done].
  - intros v t1 k Hack. destruct (pi_acks0 _ _ _ Hack) as (? & c1 & L1 & HL1 & ?). split; [done|].
    destruct (Hg _ _ _ HL1) as (y & ? & _). exists c1, (L1 ++ y). split; [done|]. rewrite length_app. lia.
  - intros v t1 k c1 L1 Hack HL1 Hcar. destruct (Hold _ _ _ _ _ Hack HL1) as (L2 & HL2 & Hpre).
    assert (agree k (p_log s v) L2) as Hag.
    { eapply pi_keeps0; [done..|]. intros t' Ht'. eapply Hback; [done|lia|by apply Hcar]. }
    eapply agree_prefix; [|done]. upd c v; [|done]. subst L. by apply agree_app_l.
  - intros v t1 k c1 L1 t2 c2 Hack HL1 Hv He Hlt Hcar.
    destruct (Hold _ _ _ _ _ Hack HL1) as (L2 & HL2 & Hpre).
    destruct (pi_saw0 _ _ _ _ _ _ _ Hack HL2 Hv He Hlt) as (l & C & ? & ? & ? & ?).
    { intros t' Ht'. eapply Hback; [done|lia|by apply Hcar]. }
    exists l, C. split_and!; [by eapply agree_prefix|by eapply grounded_grows|done..].
Qed.

Lemma elect_inv c t s : p_inv s → may_elect c t s → p_inv (elect c t s).
Proof.
  intros Hinv (Ht & Hnone & HC & Q & HQ & Hv). apply set_lead_inv; [done| |by exists []; rewrite app_nil_r|done|].
  - intros t1 c1 L1 HL1. exists []. rewrite app_nil_r. split; [|done].
    rewrite lookup_insert_ne by congruence. done.
  - exists (p_log s c), [], Q. rewrite app_nil_r. split_and!; [done..|].
    intros v Hin. split; [by apply Hv|]. eapply pi_early; eauto.
Qed.

Lemma extend_inv c t e s : p_inv s → may_extend c t e s → p_inv (extend c t e s).
Proof.
  intros Hinv (Ht & HL & He). apply set_lead_inv; [done| |exists [e]; auto|done|].
  - intros t1 c1 L1 HL1. destruct (decide (t1 = t)) as [->|].
    + simplify_eq. exists [e]. rewrite lookup_insert_eq. auto.
    + exists []. by rewrite app_nil_r, lookup_insert_ne.
  - destruct (pi_lead _ Hinv _ _ _ HL) as (L0 & x & Q & ? & -> & ? & ? & ?).
    exists L0, (x ++ [e]), Q. rewrite app_assoc. split_and!; [done..| |done|done].
    apply Forall_app. auto.
Qed.

Lemma p_step_inv s s' : p_inv s → p_step s s' → p_inv s'.
Proof.
  destruct 2; [by apply raise_inv|by apply grant_inv|by apply announce_inv|by apply elect_inv
    |by apply extend_inv|by apply accept_inv|by apply adopt_inv|by apply ack_inv].
Qed.

(** ** The steps of one member

    What member [n] does leaves the others' terms, votes and logs alone, and
    only adds to the history. *)
Record by_node n s s' : Prop := {
  bn_term v : v ≠ n → p_term s' v = p_term s v;
  bn_vote v : v ≠ n → p_vote s' v = p_vote s v;
  bn_log v : v ≠ n → p_log s' v = p_log s v;
  bn_mono : p_term s n ≤ p_term s' n;
  bn_cand t c L : p_cand s !! (t, c) = Some L → p_cand s' !! (t, c) = Some L;
  bn_votes : p_votes s ⊆ p_votes s';
  bn_acks : p_acks s ⊆ p_acks s';
  bn_grows : grows (p_lead s) (p_lead s');
  bn_lead t c L : c ≠ n → p_lead s' !! t = Some (c, L) ↔ p_lead s !! t = Some (c, L);
}.

Lemma grows_trans lead1 lead2 lead3 : grows lead1 lead2 → grows lead2 lead3 → grows lead1 lead3.
Proof.
  intros H12 H23 t c L HL. destruct (H12 _ _ _ HL) as (x & HL2 & Hx), (H23 _ _ _ HL2) as (y & HL3 & Hy).
  exists (x ++ y). rewrite app_assoc. split; [done|]. by apply Forall_app.
Qed.

Record moves n s s' : Prop := {
  mv_steps : rtc p_step s s';
  mv_by : by_node n s s';
  mv_inv : p_inv s';
}.

Lemma moves_refl n s : p_inv s → moves n s s.
Proof. intros Hi. constructor; [done| |done]. by constructor; auto using grows_refl. Qed.

Lemma moves_trans n s1 s2 s3 : moves n s1 s2 → moves n s2 s3 → moves n s1 s3.
Proof.
  intros [Hr1 [] _] [Hr2 [] Hi]. constructor; [by transitivity s2| |done].
  constructor.
  - intros v Hv. by rewrite bn_term1, bn_term0.
  - intros v Hv. by rewrite bn_vote1, bn_vote0.
  - intros v Hv. by rewrite bn_log1, bn_log0.
  - lia.
  - auto.
  - set_solver.
  - set_solver.
  - by eapply grows_trans.
  - intros t c L Hc. by rewrite bn_lead1, bn_lead0.
Qed.

Lemma moves_step n s s' : p_inv s → p_step s s' → by_node n s s' → moves n s s'.
Proof. intros Hi Hs Hb. constructor; [by apply rtc_once|done|by eapply p_step_inv]. Qed.

Ltac other := intros; first [done | by rewrite fn_lookup_insert_ne by done | set_solver].

Lemma raise_moves v t c s : p_inv s → may_raise v t c s → moves v s (raise v t c s).
Proof.
  intros Hi Hm. apply moves_step; [done|by constructor|]. constructor; simpl; try other.
  - rewrite fn_lookup_insert. destruct Hm; lia.
  - apply grows_refl.
Qed.

Lemma grant_moves v t c s : p_inv s → may_grant_vote v t c s → moves v s (grant v t c s).
Proof.
  intros Hi Hm. apply moves_step; [done|by constructor|]. constructor; simpl; try other.
  apply grows_refl.
Qed.

Lemma announce_moves c t s : p_inv s → may_announce c t s → moves c s (announce c t s).
Proof.
  intros Hi Hm. apply moves_step; [done|by constructor|]. constructor; simpl; try other.
  - intros t1 c1 L HL. rewrite lookup_insert_ne; [done|]. intros [= <- <-].
    destruct Hm as (_ & _ & _ & ? & _). congruence.
  - apply grows_refl.
Qed.

Lemma campaign_moves c t s :
  p_inv s → may_campaign c t s → moves c s (campaign c t s) ∧
  p_term (campaign c t s) c = t ∧ p_vote (campaign c t s) c = c ∧
  p_log (campaign c t s) c = p_log s c ∧ p_cand (campaign c t s) !! (t, c) = Some (p_log s c) ∧
  (c, t, c) ∈ p_votes (campaign c t s) ∧ ∀ L, p_lead (campaign c t s) !! t ≠ Some (c, L).
Proof.
  intros Hi (Hlt & H0 & Hc).
  assert (p_cand s !! (t, c) = None) as Hnone.
  { destruct (p_cand s !! (t, c)) eqn:HC; [|done]. destruct (pi_cand _ Hi _ _ _ HC). lia. }
  assert (moves c s (raise c t c s)) as H1 by (apply raise_moves; [done|by left]).
  assert (moves c s (announce c t (raise c t c s))) as H2.
  { eapply moves_trans; [done|]. apply announce_moves; [apply H1|].
    split_and!; [apply fn_lookup_insert|done..|]. simpl. destruct (pi_log _ Hi c) as [_ Hle].
    eapply Forall_impl; [done|]. simpl. lia. }
  unfold campaign. split_and!; simpl; rewrite ?fn_lookup_insert, ?lookup_insert_eq; try done.
  - eapply moves_trans; [done|]. apply grant_moves; [apply H2|]. unfold may_grant_vote. simpl.
    rewrite !fn_lookup_insert, lookup_insert_eq. split_and!; [done..|]. eexists. split; [done|].
    by right.
  - set_solver.
  - intros L HL. destruct (pi_lead _ Hi _ _ _ HL) as (L0 & x & Q & HC & _). congruence.
Qed.

Lemma elect_moves c t s : p_inv s → may_elect c t s → moves c s (elect c t s).
Proof.
  intros Hi Hm. apply moves_step; [done|by constructor|].
  destruct Hm as (_ & Hnone & _). constructor; simpl; try other.
  - intros t1 c1 L HL. exists []. rewrite app_nil_r, lookup_insert_ne by congruence. done.
  - intros t1 c1 L Hc1. rewrite lookup_insert_Some. split; [|intros; right; split; congruence].
    by intros [[_ [= <- _]]|[_ ?]].
Qed.

Lemma extend_moves c t e s : p_inv s → may_extend c t e s → moves c s (extend c t e s).
Proof.
  intros Hi Hm. apply moves_step; [done|by constructor|].
  destruct Hm as (_ & HL & He). constructor; simpl; try other.
  - intros t1 c1 L HL1. destruct (decide (t1 = t)) as [->|].
    + simplify_eq. exists [e]. rewrite lookup_insert_eq. split; [done|]. by constructor.
    + exists []. by rewrite app_nil_r, lookup_insert_ne.
  - intros t1 c1 L Hc1. rewrite lookup_insert_Some. split; [|intros; right; split; congruence].
    by intros [[_ [= <- _]]|[_ ?]].
Qed.

Lemma accept_moves v l s : p_inv s → may_accept v l s → moves v s (accept v l s).
Proof.
  intros Hi Hm. apply moves_step; [done|by constructor|]. constructor; simpl; try other.
  apply grows_refl.
Qed.

Lemma adopt_moves v l s : p_inv s → may_adopt v l s → moves v s (accept v l s).
Proof.
  intros Hi Hm. apply moves_step; [done|by eapply p_adopt|]. constructor; simpl; try other.
  apply grows_refl.
Qed.

Lemma ack_moves v k s : p_inv s → may_ack v k s → moves v s (ack v k s).
Proof.
  intros Hi Hm. apply moves_step; [done|by constructor|]. constructor; simpl; try other.
  apply grows_refl.
Qed.

(** ** From the start *)

Definition p_init : PState :=
  mkP (λ _, 0) (λ _, NoVote) (λ _, []) ∅ ∅ ∅ ∅ ∅.

Lemma p_init_inv : p_inv p_init.
Proof. constructor; simpl; try set_solver. intros v. split; [by intros k e|by constructor]. Qed.

(** ** Safety *)

Context (Hmembers : NoDup members).

(** A quorum's votes elect the term's only leader. *)
Lemma one_leader s t c c' L Q :
  p_inv s → p_lead s !! t = Some (c', L) → quorum members Q →
  (∀ v, v ∈ Q → (v, t, c) ∈ p_votes s) → c = c'.
Proof using Hmembers.
  intros Hinv HL HQ Hv. destruct (pi_lead _ Hinv _ _ _ HL) as (L0 & x & Q' & _ & _ & _ & HQ' & Hv').
  destruct (quorum_meet _ _ _ Hmembers HQ HQ') as (v & H1 & H2).
  eapply (pi_vote_once _ Hinv); [by apply Hv|by apply Hv'].
Qed.

(** Terms do not decrease along a grounded log. *)
Lemma grounded_mono s l i j e e' :
  p_inv s → grounded (p_lead s) l → (i ≤ j)%nat → l !! i = Some e → l !! j = Some e' →
  Term e ≤ Term e'.
Proof.
  intros Hinv Hg Hij Hi Hj. destruct (Hg _ _ Hj) as (c & L & HL & Hag).
  destruct (lead_terms _ _ _ _ Hinv HL) as [_ Hle].
  rewrite (agree_lookup _ _ _ _ Hag) in Hi by lia. apply (Forall_lookup_1 _ _ _ _ Hle Hi).
Qed.

(** Two grounded logs whose entries at a position have the same term are equal
    up to it: the log matching property. *)
Lemma grounded_match lead l1 l2 k e1 e2 :
  grounded lead l1 → grounded lead l2 → l1 !! k = Some e1 → l2 !! k = Some e2 →
  Term e1 = Term e2 → agree (S k) l1 l2.
Proof.
  intros H1 H2 He1 He2 Ht. destruct (H1 _ _ He1) as (c1 & L1 & HL1 & Ha1).
  destruct (H2 _ _ He2) as (c2 & L2 & HL2 & Ha2). rewrite Ht in HL1. simplify_eq.
  eapply agree_trans; [done|by apply agree_sym].
Qed.

(** A candidate at least as recent as a log that has a prefix of the leader of
    [t], ending in an entry of [t], has it too, when the leaders of the terms
    in between do. *)
Lemma at_least_carries s t k c L e l C t2 :
  p_inv s → p_lead s !! t = Some (c, L) → L !! k = Some e → Term e = t →
  agree (S k) l L → grounded (p_lead s) l → grounded (p_lead s) C → at_least C l →
  Forall (λ e, Term e < t2) C → (∀ t', t < t' < t2 → carries (p_lead s) t (S k) t') →
  agree (S k) C L.
Proof.
  intros Hinv HL He Ht Hag Hgl HgC Hat HltC Hcar.
  destruct (lead_terms _ _ _ _ Hinv HL) as [H0 HLt].
  destruct Hag as (Hkl & HkL & Heq). assert (agree (S k) l L) as Hag by done.
  pose proof He as Hle. rewrite <- (agree_lookup _ _ _ _ Hag) in Hle by lia.
  destruct (last l) as [el|] eqn:Hlast; [|apply last_None in Hlast; by subst].
  destruct (lastT_lookup _ _ Hlast) as [Hel HTl].
  assert (t ≤ Term el) as Htl.
  { rewrite <- Ht. eapply grounded_mono; [done|exact Hgl| |done|done]. lia. }
  destruct Hat as [Hgt|[Heqt Hlen]].
  - destruct (last C) as [eC|] eqn:HlC; [|unfold lastT in Hgt at 2; rewrite HlC in Hgt; lia].
    destruct (lastT_lookup _ _ HlC) as [HeC HTC].
    pose proof (Forall_lookup_1 _ _ _ _ HltC HeC) as Hlt2. simpl in Hlt2.
    destruct (HgC _ _ HeC) as (c3 & L3 & HL3 & HagC).
    assert (agree (S k) L3 L) as Hag3 by (eapply Hcar; [|done..]; lia).
    assert (k < length C)%nat as HkC.
    { destruct (decide (k < length C)%nat) as [|Hn]; [done|].
      assert (pred (length C) < length C)%nat as Hp by (by apply lookup_lt_Some in HeC).
      pose proof HeC as HeL.
      rewrite (agree_lookup _ _ _ _ HagC), (agree_lookup _ _ _ _ Hag3) in HeL by lia.
      pose proof (Forall_lookup_1 _ _ _ _ HLt HeL). simpl in *. lia. }
    eapply agree_trans; [|exact Hag3]. eapply agree_le; [|exact HagC]. lia.
  - destruct (last C) as [eC|] eqn:HlC; [|apply last_None in HlC; subst; simpl in *; lia].
    destruct (lastT_lookup _ _ HlC) as [HeC HTC].
    destruct (HgC _ _ HeC) as (c3 & L3 & HL3 & HagC), (Hgl _ _ Hel) as (c4 & L4 & HL4 & Hagl).
    replace (Term eC) with (Term el) in HL3 by congruence.
    simplify_eq. eapply agree_trans; [|exact Hag].
    apply (agree_trans _ _ L3); [eapply agree_le; [|exact HagC]; lia|].
    apply agree_sym. eapply agree_le; [|exact Hagl]. lia.
Qed.

(** Leader completeness: later leaders have what is committed. *)
Lemma committed_carries s t k t' :
  p_inv s → committed s t k → t < t' → carries (p_lead s) t k t'.
Proof using Hmembers.
  intros Hinv (c & L & e & Q & HL & He & Ht & Hk & HQ & Hack).
  induction t' as [t' IH] using (well_founded_induction (Z.lt_wf t)).
  intros Hlt c1 L1 c2 C' HL1 HL2. rewrite HL in HL1. injection HL1 as <- <-.
  destruct (pi_lead _ Hinv _ _ _ HL2) as (C & x & Q' & HC & -> & Hx & HQ' & Hv).
  destruct (quorum_meet _ _ _ Hmembers HQ HQ') as (v & Hin & Hin').
  destruct (Hv v Hin') as [Hvote Hearly].
  destruct (pi_saw _ Hinv v t k c L t' c2) as (l & C1 & Hag & Hgl & HC1 & Hat); auto.
  { intros t3 H3. apply IH; lia. }
  rewrite HC in HC1. injection HC1 as <-.
  destruct (pi_cand _ Hinv _ _ _ HC) as (_ & HltC & HgC). apply agree_app_l. replace k with (S (pred k)) in * by lia.
  eapply at_least_carries; eauto. intros t3 H3. apply IH; lia.
Qed.

Lemma chosen_prefix s T l l' : chosen s T l → l' `prefix_of` l → chosen s T l'.
Proof.
  intros [->|(t & k & c & L & ? & ? & ? & ?)] Hpre.
  - left. by apply prefix_nil_inv.
  - right. exists t, k, c, L. split_and!; [done..|]. by etrans.
Qed.

Lemma chosen_le s T T' l : chosen s T l → T ≤ T' → chosen s T' l.
Proof.
  intros [->|(t & k & c & L & ? & ? & ? & ?)] Hle; [by left|].
  right. exists t, k, c, L. split_and!; [lia|done..].
Qed.

(** What is chosen by a term is in the logs of its leader and the later ones. *)
Lemma chosen_lead s T l T' c' L' :
  p_inv s → chosen s T l → T ≤ T' → p_lead s !! T' = Some (c', L') → l `prefix_of` L'.
Proof using Hmembers.
  intros Hinv [->|(t & k & c & L & Ht & Hcom & HL & Hpre)] Hle HL'; [apply prefix_nil|].
  etrans; [exact Hpre|]. destruct (decide (t = T')) as [->|].
  - simplify_eq. apply prefix_take.
  - destruct (committed_carries s t k T' Hinv Hcom) with c L c' L' as (_ & _ & <-); [lia|done..|].
    apply prefix_take.
Qed.

Lemma chosen_grounded s T l : p_inv s → chosen s T l → grounded (p_lead s) l.
Proof.
  intros Hinv [->|(t & k & c & L & _ & _ & HL & Hpre)]; [by intros k e|].
  assert (l = take (length l) (take k L)) as Heq by (destruct Hpre as [x ->]; by rewrite take_app_length).
  rewrite Heq. apply grounded_take, grounded_take. by eapply pi_lead_grounded.
Qed.

(** What is chosen is settled. *)
Lemma chosen_settled s T T' l : p_inv s → chosen s T l → T ≤ T' → l ≠ [] → settled s T' l.
Proof using Hmembers.
  intros Hinv Hc Hle Hne. destruct Hc as [->|(t & k & c & L & Ht & Hcom & HL & Hpre)]; [done|].
  exists t. split; [lia|]. split.
  - exists c, L. split; [done|]. etrans; [exact Hpre|apply prefix_take].
  - intros t' c' L' Ht' HL'. eapply (chosen_lead s t l t'); [done| |lia|done].
    right. by exists t, k, c, L.
Qed.

(** Whatever is chosen, and whenever, agrees. *)
Lemma chosen_comparable s T1 T2 l1 l2 :
  p_inv s → chosen s T1 l1 → chosen s T2 l2 → l1 `prefix_of` l2 ∨ l2 `prefix_of` l1.
Proof using Hmembers.
  intros Hinv H1 H2.
  destruct H1 as [->|H1']; [left; apply prefix_nil|]. destruct H1' as (t1 & k1 & c1 & L1 & _ & Hc1 & HL1 & Hp1).
  destruct H2 as [->|H2']; [right; apply prefix_nil|]. destruct H2' as (t2 & k2 & c2 & L2 & _ & Hc2 & HL2 & Hp2).
  assert (∃ M, l1 `prefix_of` M ∧ l2 `prefix_of` M) as (M & HM1 & HM2).
  { destruct (decide (t1 ≤ t2)).
    - exists L2. split; [|by etrans; [exact Hp2|apply prefix_take]].
      eapply (chosen_lead s t1); [done| |done..]. right. by exists t1, k1, c1, L1.
    - exists L1. split; [by etrans; [exact Hp1|apply prefix_take]|].
      eapply (chosen_lead s t2 _ t1); [done| |lia|done]. right. by exists t2, k2, c2, L2. }
  eapply prefix_weak_total; done.
Qed.

(** A step keeps what is chosen. *)
Lemma chosen_mono s s' T l :
  grows (p_lead s) (p_lead s') → p_acks s ⊆ p_acks s' → p_inv s → chosen s T l → chosen s' T l.
Proof.
  intros Hg Ha Hinv [->|(t & k & c & L & Ht & Hcom & HL & Hpre)]; [by left|].
  destruct Hcom as (c1 & L1 & e & Q & HL1 & He & Hte & Hk & HQ & Hv).
  rewrite HL in HL1. injection HL1 as <- <-.
  destruct (Hg _ _ _ HL) as (x & HL' & _). pose proof (lookup_lt_Some _ _ _ He).
  right. eexists _, k, _, (L ++ x). split_and!; [done| |done|by rewrite take_app_le by lia].
  exists c, (L ++ x), e, Q. split_and!; [done|by apply lookup_app_l_Some|done..|].
  intros v Hin. by apply Ha, Hv.
Qed.

(** A grounded log with everything chosen by its term may take what the leader
    of the term sends without losing any of it. *)
Lemma chosen_kept s v l d :
  p_inv s → may_accept v l s → chosen s (p_term s v) (take d (p_log s v)) →
  (d ≤ length (p_log s v))%nat → take d l = take d (p_log s v) ∧ (d ≤ length l)%nat.
Proof using Hmembers.
  intros Hinv (c & L & HL & _ & Hk) Hch Hd.
  pose proof (chosen_lead _ _ _ _ _ _ Hinv Hch ltac:(reflexivity) HL) as Hpre.
  assert (agree d (p_log s v) L) as Hag.
  { destruct Hpre as [x ->]. split_and!; [done|rewrite length_app, length_take; lia|].
    rewrite take_app_le by (rewrite length_take; lia). by rewrite take_take, Nat.min_id. }
  destruct (Hk _ Hag) as (? & ? & Heq). split; [|done]. rewrite Heq. symmetry. apply Hag.
Qed.

Lemma moves_chosen n s s' T l : p_inv s → moves n s s' → chosen s T l → chosen s' T l.
Proof. intros Hi [_ [] _]. by apply chosen_mono. Qed.

End Protocol.
