(* ===== verification/FullLog.v ===== *)
(** * The whole log of a node

    A node keeps the suffix of its log past the snapshot boundary; [holds] ties
    it to the whole log, which only the history of the cluster remembers. *)

From S2P Require Import Prelude.
From S2P Require Import Log.
From S2P Require Import Config.
From S2P Require Import Stores.
From S2P Require Import RaftState.
From S2P Require Import RaftElection.
From S2P Require Import RaftReplication.
From S2P Require Import RaftInvariant.
From S2P Require Import ElectionFacts.
From S2P Require Import ReplicationFacts.
From S2P Require Import Protocol.

(** The term of index [i] in a whole log; index 0 comes before the first. *)
Definition fterm (F : list LogEntry) (i : Z) : option Z :=
  if decide (i = 0) then Some 0 else Term <$> F !! Z.to_nat (i - 1).

Lemma fterm_range F i t : fterm F i = Some t → 0 ≤ i → i ≤ lenZ F.
Proof.
  unfold fterm, lenZ. case_decide; [lia|]. intros (e & He & _)%fmap_Some Hi.
  apply lookup_lt_Some in He. lia.
Qed.

Lemma fterm_is_Some F i : 0 ≤ i ≤ lenZ F → is_Some (fterm F i).
Proof.
  intros Hi. unfold fterm. case_decide; [done|]. apply fmap_is_Some, lookup_lt_is_Some.
  unfold lenZ in Hi. lia.
Qed.

Lemma fterm_agree k F L i : agree k F L → 0 ≤ i ≤ Z.of_nat k → fterm F i = fterm L i.
Proof.
  intros Hag Hi. unfold fterm. case_decide; [done|].
  by rewrite (agree_lookup _ _ _ _ Hag) by lia.
Qed.

Lemma fterm_prefix F L i : F `prefix_of` L → 0 ≤ i ≤ lenZ F → fterm L i = fterm F i.
Proof.
  intros [x ->] Hi. unfold fterm. case_decide; [done|]. unfold lenZ in Hi. by rewrite lookup_app_l by lia.
Qed.

(** Log matching, with the empty prefix. *)
Lemma fterm_match lead F L i t :
  grounded lead F → grounded lead L → 0 ≤ i → fterm F i = Some t → fterm L i = Some t →
  agree (Z.to_nat i) F L.
Proof.
  intros HF HL Hi. unfold fterm. case_decide as H0.
  { subst. intros _ _. split_and!; simpl; [lia..|by rewrite !take_0]. }
  intros (e1 & He1 & ->)%fmap_Some (e2 & He2 & Heq)%fmap_Some.
  replace (Z.to_nat i) with (S (Z.to_nat (i - 1))) by lia. by eapply grounded_match.
Qed.

Lemma lastT_fterm F : fterm F (lenZ F) = Some (lastT F).
Proof.
  unfold fterm, lastT, lenZ. case_decide as H0; [by destruct F|]. rewrite last_lookup.
  replace (Z.to_nat (Z.of_nat (length F) - 1)) with (pred (length F)) by lia.
  destruct (lookup_lt_is_Some_2 F (pred (length F))) as [e ->]; [lia|done].
Qed.

Section FullLog.
Context {SS LS SM NS : Type}
  `{StableStoreLaws SS} `{LogStoreLaws LS} `{StateMachineLaws SM} `{SnapshotStoreLaws NS}.
Abbreviation Raft := (Raft SS LS SM NS).
Implicit Types (r : Raft) (F : list LogEntry).

(** [r] keeps what follows its boundary of the log [F]. *)
Record holds F r : Prop := {
  h_base : 0 ≤ base r ≤ lenZ F;
  h_log : log r = drop (Z.to_nat (base r)) F;
  h_term : fterm F (base r) = Some (baseTerm r);
}.

Lemma holds_lastIndex F r : holds F r → lastIndex r = lenZ F.
Proof. intros []. unfold lastIndex, lenZ in *. rewrite h_log0, length_drop. lia. Qed.

Lemma holds_entry F r i : holds F r → base r < i → entry r i = F !! Z.to_nat (i - 1).
Proof.
  intros [] Hi. unfold entry, entry_of. rewrite decide_True by done.
  rewrite h_log0, lookup_drop. f_equal. lia.
Qed.

Lemma holds_term_of F r i : holds F r → base r ≤ i → term_of r i = fterm F i.
Proof.
  intros Hh Hi. unfold term_of. case_decide as Hb; [subst; by rewrite (h_term _ _ Hh)|].
  rewrite (holds_entry F) by (done || lia). unfold fterm. rewrite decide_False; [done|].
  pose proof (h_base _ _ Hh). lia.
Qed.

Lemma holds_term_of_Some F r i t : holds F r → term_of r i = Some t → 0 ≤ i ∧ fterm F i = Some t.
Proof.
  intros Hh Ht. pose proof (term_of_range _ _ _ Ht). pose proof (h_base _ _ Hh).
  split; [lia|]. by rewrite <- (holds_term_of F r) by (done || lia).
Qed.

Lemma holds_lastTerm F r : holds F r → lastTerm r = lastT F.
Proof.
  intros [Hb Hl Ht]. unfold lastTerm. rewrite Hl. destruct (last (drop _ F)) as [e|] eqn:He.
  - unfold lastT. rewrite last_lookup, lookup_drop, length_drop in He.
    pose proof (lookup_lt_Some _ _ _ He). rewrite last_lookup.
    replace (pred (length F)) with (Z.to_nat (base r) + pred (length F - Z.to_nat (base r)))%nat
      by (unfold lenZ in *; lia).
    by rewrite He.
  - apply last_None, drop_nil_inv in He. replace (base r) with (lenZ F) in Ht by (unfold lenZ in *; lia).
    rewrite lastT_fterm in Ht. congruence.
Qed.

Lemma holds_after F r p : holds F r → base r ≤ p → after r p = drop (Z.to_nat p) F.
Proof.
  intros [] Hp. unfold after. rewrite h_log0, drop_drop. f_equal. lia.
Qed.

(** ** What becomes of it *)

Lemma holds_same F r r' :
  log r' = log r → snapshotMeta r' = snapshotMeta r → holds F r → holds F r'.
Proof.
  intros Hl Hm []. constructor; unfold base, baseTerm in *; rewrite ?Hl, ?Hm; done.
Qed.

Lemma holds_app F r r' es :
  log r' = log r ++ es → snapshotMeta r' = snapshotMeta r → holds F r → holds (F ++ es) r'.
Proof.
  intros Hl Hm []. constructor; unfold base, baseTerm in *; rewrite ?Hl, ?Hm, ?lenZ_app.
  - pose proof (lenZ_nonneg es). lia.
  - rewrite h_log0. unfold lenZ in *. by rewrite drop_app_le by lia.
  - erewrite fterm_prefix; [done| |done]. by exists es.
Qed.

Lemma holds_take F r r' j :
  log r' = take (Z.to_nat (j - base r)) (log r) → snapshotMeta r' = snapshotMeta r →
  base r ≤ j ≤ lenZ F → holds F r → holds (take (Z.to_nat j) F) r'.
Proof.
  intros Hl Hm Hj Hh. pose proof Hh as [].
  assert (lenZ (take (Z.to_nat j) F) = j) as Hlen by (unfold lenZ in *; rewrite length_take; lia).
  constructor; unfold base, baseTerm in *; rewrite ?Hl, ?Hm, ?Hlen; [lia| |].
  - rewrite h_log0, skipn_firstn_comm. f_equal. lia.
  - rewrite <- h_term0. symmetry. apply fterm_prefix; [apply prefix_take|]. rewrite Hlen. lia.
Qed.

Lemma holds_compact F r r' :
  base r ≤ base r' ≤ lenZ F → log r' = after r (base r') →
  fterm F (base r') = Some (baseTerm r') → holds F r → holds F r'.
Proof.
  intros Hb Hl Ht Hh. constructor; [|by rewrite Hl; apply holds_after; [|lia]|done].
  destruct Hh. lia.
Qed.

Lemma holds_reset F r :
  log r = [] → base r = lenZ F → fterm F (base r) = Some (baseTerm r) → holds F r.
Proof.
  intros Hl Hb Ht. constructor; [|by rewrite Hl, drop_ge by (unfold lenZ in *; lia)|done].
  rewrite Hb. pose proof (lenZ_nonneg F). lia.
Qed.
End FullLog.
