(* ===== verification/Member.v ===== *)
(** * A member of the cluster

    [linked] ties a node of [raft.go] to its part of the abstract protocol.
    Each operation of a linked node, given what the messages of linked nodes
    say, is matched by steps of the protocol that keep it linked. *)

From stdpp Require Import functions.
From S2P Require Import Prelude.
From S2P Require Import Log.
From S2P Require Import Config.
From S2P Require Import Stores.
From S2P Require Import RaftState.
From S2P Require Import RaftElection.
From S2P Require Import RaftReplication.
From S2P Require Import RaftInvariant.
From S2P Require Import ElectionFacts.
From S2P Require Import ReplicationFacts.
From S2P Require Import Protocol.
From S2P Require Import FullLog.

Section Member.
Context {SS LS SM NS : Type}
  `{StableStoreLaws SS} `{LogStoreLaws LS} `{StateMachineLaws SM} `{SnapshotStoreLaws NS}.
Abbreviation Raft := (Raft SS LS SM NS).
Implicit Types (r : Raft) (F L : list LogEntry) (s : PState).

Context (members : list Z).
Abbreviation p_inv := (p_inv members).
Abbreviation moves := (moves members).
Abbreviation chosen := (chosen members).

(** The first [d] entries of [F] are chosen by term [t]. *)
Definition reached s (t : Z) F (d : Z) : Prop :=
  d ≤ lenZ F ∧ chosen s t (take (Z.to_nat d) F).

Definition durableCommit r : Z := CommitIndex (stable_state (stable r)).

(** Index [i] with term [u] ends a log that is chosen by term [t]. *)
Definition known s (t i u : Z) : Prop :=
  ∃ P, lenZ P = i ∧ fterm P i = Some u ∧ chosen s t P.

(** The stored snapshot ends such a log.  It may be ahead of the node's own: an
    install that failed leaves it so. *)
Definition snapshot_held s (t : Z) r : Prop :=
  ∀ ns sn, snapshotStore r = Some ns → snap_stored ns = Some sn →
    s_LastIncludedIndex sn < 2 ^ 63 ∧ known s t (s_LastIncludedIndex sn) (s_LastIncludedTerm sn).

Definition role_ok s (n : Z) r : Prop :=
  match state r with
  | Follower => True
  | Candidate =>
      p_cand s !! (currentTerm r, n) = Some (p_log s n) ∧
      ∀ L, p_lead s !! currentTerm r ≠ Some (n, L)
  | Leader =>
      p_lead s !! currentTerm r = Some (n, p_log s n) ∧
      ∀ p j, (0 < j)%nat → Z.of_nat j ≤ readUint (matchIndex r) p →
        (p, currentTerm r, j) ∈ p_acks s
  end.

Record linked s (n : Z) r : Prop := {
  lk_ok : node_ok r;
  lk_id : id r = n;
  lk_peers : members ≡ₚ id r :: (ID <$> peers r);
  lk_term : p_term s n = currentTerm r;
  lk_vote : p_vote s n = votedFor r;
  lk_log : holds (p_log s n) r;
  lk_commit : reached s (currentTerm r) (p_log s n) (durableCommit r);
  lk_snap : snapshot_held s (currentTerm r) r;
  lk_role : role_ok s n r;
}.

(** ** Stability *)

Lemma reached_le s t t' F d d' : reached s t F d → d' ≤ d → t ≤ t' → reached s t' F d'.
Proof.
  intros [Hl Hc] Hd Ht. split; [lia|]. eapply chosen_le; [|done].
  eapply chosen_prefix; [done|]. rewrite <- (Nat.min_l (Z.to_nat d') (Z.to_nat d)), <- take_take by lia. apply prefix_take.
Qed.

Lemma reached_moves n s s' t F d : p_inv s → moves n s s' → reached s t F d → reached s' t F d.
Proof. intros Hi Hm [Hl Hc]. split; [done|]. by eapply moves_chosen. Qed.

Lemma reached_agree s t F F' d :
  take (Z.to_nat d) F' = take (Z.to_nat d) F → d ≤ lenZ F' → reached s t F d → reached s t F' d.
Proof. intros Heq Hl [_ Hc]. split; [done|]. by rewrite Heq. Qed.

Lemma known_le s t t' i u : known s t i u → t ≤ t' → known s t' i u.
Proof. intros (P & Hl & Hf & Hc) Ht. exists P. split_and!; [done..|]. by eapply chosen_le. Qed.

Lemma known_moves n s s' t i u : p_inv s → moves n s s' → known s t i u → known s' t i u.
Proof. intros Hi Hm (P & Hl & Hf & Hc). exists P. split_and!; [done..|]. by eapply moves_chosen. Qed.

Lemma snapshot_held_moves n s s' t t' r r' :
  p_inv s → moves n s s' → t ≤ t' → snapshotStore r' = snapshotStore r →
  snapshot_held s t r → snapshot_held s' t' r'.
Proof.
  intros Hi Hm Ht Hs Hh ns sn Hns Hsn. rewrite Hs in Hns. destruct (Hh ns sn Hns Hsn) as [Hb Hk].
  split; [done|]. eapply known_le; [|exact Ht]. by eapply known_moves.
Qed.

(** A chosen prefix of a log, as a boundary. *)
Lemma reached_known s t F i u : reached s t F i → fterm F i = Some u → 0 ≤ i → known s t i u.
Proof.
  intros [Hl Hc] Hf Hi. assert (lenZ (take (Z.to_nat i) F) = i) as Hlen
    by (unfold lenZ in *; rewrite length_take; lia).
  exists (take (Z.to_nat i) F). split_and!; [done| |done].
  rewrite <- Hf. symmetry. apply fterm_prefix; [apply prefix_take|lia].
Qed.

Lemma linked_other n n' s s' r : p_inv s → moves n s s' → n' ≠ n → linked s n' r → linked s' n' r.
Proof.
  intros Hi Hm Hne []. pose proof (mv_by _ _ _ _ Hm) as [].
  constructor; rewrite ?bn_term, ?bn_vote, ?bn_log by done; try done.
  - by eapply reached_moves.
  - by eapply snapshot_held_moves.
  - unfold role_ok in *. rewrite bn_log by done. destruct (state r); [done| |].
    + destruct lk_role0 as [Hc Hl]. split; [by apply bn_cand|]. intros L HL.
      apply bn_lead in HL; [|done]. by eapply Hl.
    + destruct lk_role0 as [Hl Ha]. split; [by apply bn_lead|]. intros p j Hj Hp. by apply bn_acks, Ha.
Qed.

(** A node whose log is unchanged. *)
Lemma linked_same s s' n r r' :
  p_inv s → moves n s s' → linked s n r → evolves r r' →
  log r' = log r → snapshotMeta r' = snapshotMeta r → p_log s' n = p_log s n →
  p_term s' n = currentTerm r' → p_vote s' n = votedFor r' →
  reached s' (currentTerm r') (p_log s n) (durableCommit r') →
  snapshot_held s (currentTerm r) r' → role_ok s' n r' → linked s' n r'.
Proof.
  intros Hi Hm [] [Hok [[Hid Hps] Hle _ _ _ _ _]] Hl Hs HF Ht Hv Hc Hsn Hr.
  constructor; rewrite ?HF; try done.
  - by rewrite Hid.
  - by rewrite Hid, Hps.
  - by eapply holds_same.
  - by eapply snapshot_held_moves.
Qed.

Lemma snapshot_held_same s t r r' :
  snapshotStore r' = snapshotStore r → snapshot_held s t r → snapshot_held s t r'.
Proof. intros Hs Hh ns sn Hns Hsn. rewrite Hs in Hns. by apply (Hh ns sn). Qed.

(** What is durable covers what is in memory. *)
Lemma linked_commit s n r : linked s n r → commitIndex r ≤ durableCommit r.
Proof. intros Hlk. apply (ahead_commit _ _ (ok_stable _ (lk_ok _ _ _ Hlk))). Qed.

Lemma linked_reached s n r d :
  linked s n r → d ≤ durableCommit r → reached s (currentTerm r) (p_log s n) d.
Proof. intros Hlk Hd. by eapply reached_le; [apply Hlk|..]. Qed.

(** After a save the durable commit index is the old or the saved one. *)
Lemma save_commit r t v c a r' err :
  stable_inv (stable r) → saveStableValuesLocked r t v c a = (r', err) →
  ∃ ss, r' = r <| stable := ss |> ∧
    (CommitIndex (stable_state ss) = c ∨ is_Some err ∧ CommitIndex (stable_state ss) = durableCommit r).
Proof.
  intros Hinv Hs. apply saveStableValues_spec in Hs as (ss & -> & _ & Hs); [|done].
  exists ss. split; [done|]. destruct err.
  - destruct Hs as [->|[_ ->]]; [right; eauto|by left].
  - destruct Hs as [_ ->]. by left.
Qed.

(** Bookkeeping, and leaving the role. *)
Lemma linked_core s n r r' :
  p_inv s → linked s n r → same_core r r' →
  state r' = state r ∧ matchIndex r' = matchIndex r ∨ state r' = Follower → linked s n r'.
Proof.
  intros Hi Hlk Hsc Hr. pose proof (same_core_evolves _ _ Hsc (lk_ok _ _ _ Hlk)) as Hev.
  pose proof Hlk as []. pose proof Hsc as [Ei Ep Es El Em En Et Ev Elog Emeta Ec Ea].
  apply (linked_same s s n r); try done; try congruence.
  - by apply moves_refl.
  - unfold durableCommit. by rewrite Es, Et.
  - by eapply snapshot_held_same.
  - unfold role_ok in *. destruct Hr as [[-> ->]| ->]; [|done]. by rewrite Et.
Qed.

(** ** Stepping down *)

Definition moved_term r (t : Z) (n : Z) s : PState :=
  if decide (currentTerm r < t) then raise n t NoVote s else s.

Lemma moved_term_moves s n r t : p_inv s → linked s n r → moves n s (moved_term r t n s).
Proof.
  intros Hi Hlk. unfold moved_term. case_decide; [|by apply moves_refl].
  apply raise_moves; [done|]. left. by rewrite (lk_term _ _ _ Hlk).
Qed.

Lemma becomeFollower_linked s n r t l r' err :
  p_inv s → linked s n r → t < 2 ^ 64 → becomeFollowerLocked r t l = (r', err) →
  match err with
  | Some _ => linked s n r'
  | None => linked (moved_term r t n s) n r'
  end.
Proof.
  intros Hi Hlk Ht Hb. pose proof (moved_term_moves s n r t Hi Hlk) as Hm.
  pose proof (becomeFollower_evolves _ _ _ _ _ (lk_ok _ _ _ Hlk) Ht Hb) as Hev.
  pose proof (linked_commit _ _ _ Hlk) as Hc. pose proof Hlk as [].
  unfold becomeFollowerLocked in Hb. unfold moved_term in *.
  destruct (decide (t < currentTerm r)); [injection Hb as <- <-; by rewrite decide_False by lia|].
  destruct (decide (currentTerm r < t)).
  - unfold saveStableLocked in Hb. destruct (saveStableValuesLocked _ _ _ _ _) as [r1 [e|]] eqn:Hs;
      cbn in Hb; injection Hb as <- <-;
      (apply save_commit in Hs as (ss & -> & Hd); [|apply Hlk]).
    + apply (linked_same s s n r); try done; [by apply moves_refl|].
      apply (linked_reached s n r); [done|].
      unfold durableCommit at 1. cbn. destruct Hd as [->|[_ ->]]; lia.
    + apply (linked_same s (raise n t NoVote s) n r); try done; simpl; rewrite ?fn_lookup_insert; try done.
      eapply reached_moves; [done..|]. eapply reached_le; [apply lk_commit0| |cbn; lia].
      unfold durableCommit at 1. cbn. destruct Hd as [->|[[] ?]]; [lia|done].
  - injection Hb as <- <-. by apply (linked_same s s n r).
Qed.

(** ** Votes *)

(** A vote request names the log its candidate campaigned with. *)
Definition vote_request_ok s (req : RequestVoteRequest) : Prop :=
  ∃ C, p_cand s !! (rv_Term req, rv_CandidateID req) = Some C ∧ rv_CandidateID req ≠ NoVote ∧
    rv_LastLogIndex req = lenZ C ∧ rv_LastLogTerm req = lastT C ∧ rv_Term req < 2 ^ 64.

Lemma upToDate_at_least F r C :
  node_ok r → holds F r → candidateLogIsUpToDateLocked r (lenZ C) (lastT C) = true → at_least C F.
Proof.
  intros Hok Hh Hup. apply upToDate_spec in Hup; [|done].
  rewrite (holds_lastTerm F), (holds_lastIndex F) in Hup by done. unfold at_least, lenZ in *. lia.
Qed.

(** A vote that is recorded already. *)
Lemma voted_linked s n r c C :
  p_inv s → linked s n r → votedFor r = c → c ≠ NoVote →
  p_cand s !! (currentTerm r, c) = Some C → at_least C (p_log s n) →
  moves n s (grant n (currentTerm r) c s) ∧ linked (grant n (currentTerm r) c s) n r.
Proof.
  intros Hi Hlk Hv Hc HC Hat.
  assert (moves n s (grant n (currentTerm r) c s)) as Hm.
  { apply grant_moves; [done|]. unfold may_grant_vote.
    rewrite (lk_term _ _ _ Hlk), (lk_vote _ _ _ Hlk). split_and!; [done..|]. by exists C. }
  split; [done|]. pose proof Hlk as []. by apply (linked_same s _ n r).
Qed.

(** A vote recorded durably, then in memory. *)
Lemma save_vote_linked s n r c r' err :
  p_inv s → linked s n r → votedFor r = NoVote →
  saveStableLocked r (currentTerm r) c = (r', err) →
  match err with
  | Some _ => linked s n r'
  | None => moves n s (raise n (currentTerm r) c s) ∧
            linked (raise n (currentTerm r) c s) n (r' <| votedFor := c |>)
  end.
Proof.
  intros Hi Hlk Hv Hs.
  pose proof (record_vote_evolves _ _ _ _ (lk_ok _ _ _ Hlk) Hv Hs) as Hev.
  apply save_commit in Hs as (ss & -> & Hd); [|apply Hlk].
  pose proof (linked_commit _ _ _ Hlk) as Hc.
  assert (reached s (currentTerm r) (p_log s n) (CommitIndex (stable_state ss))) as Hre.
  { apply (linked_reached s n r); [done|]. destruct Hd as [->|[_ ->]]; lia. }
  pose proof Hlk as []. destruct err.
  - apply (linked_same s s n r); try done. by apply moves_refl.
  - assert (moves n s (raise n (currentTerm r) c s)) as Hm.
    { apply raise_moves; [done|]. right. rewrite lk_term0, lk_vote0. auto. }
    split; [done|]. apply (linked_same s _ n r); try done; simpl; by rewrite ?fn_lookup_insert.
Qed.

Lemma HandleRequestVote_linked s n r req r' resp :
  p_inv s → linked s n r → vote_request_ok s req → HandleRequestVote r req = (r', resp) →
  ∃ s', moves n s s' ∧ linked s' n r' ∧
    (rvr_VoteGranted resp = true →
       rvr_Term resp = rv_Term req ∧ (n, rv_Term req, rv_CandidateID req) ∈ p_votes s').
Proof.
  intros Hi Hlk (C & HC & Hne & HlI & HlT & Hb) Hh. unfold HandleRequestVote in Hh.
  assert (∃ s', moves n s s' ∧ s' = s) as (s0 & Hm0 & ->) by eauto using moves_refl.
  destruct (decide (rv_Term req < currentTerm r)).
  { injection Hh as <- <-. exists s. by split_and!. }
  (* the term *)
  set (p := if decide (currentTerm r < rv_Term req) then _ else _) in Hh.
  assert (∃ r1 err s1, p = (r1, err) ∧ moves n s s1 ∧ linked s1 n r1 ∧
    (err = None → currentTerm r1 = rv_Term req)) as (r1 & err & s1 & Hp & Hm1 & Hlk1 & Ht1).
  { subst p. case_decide; [|exists r, None, s; split_and!; (done || lia)].
    destruct (becomeFollowerLocked _ _ _) as [r1 err] eqn:Hbf. exists r1, err.
    pose proof (becomeFollower_log _ _ _ _ _ (ok_stable_inv _ (lk_ok _ _ _ Hlk)) Hbf)
      as (_ & _ & _ & _ & _ & _ & Hnone & _).
    apply (becomeFollower_linked s n) in Hbf; [|done..]. destruct err.
    - exists s. by split_and!.
    - exists (moved_term r (rv_Term req) n s). split_and!; [done|by apply moved_term_moves|done|].
      intros _. destruct (Hnone eq_refl) as [|[? _]]; [lia|done]. }
  rewrite Hp in Hh. clear p Hp. destruct err; [injection Hh as <- <-; by exists s1|].
  specialize (Ht1 eq_refl). pose proof (mv_inv _ _ _ _ Hm1) as Hi1.
  assert (p_cand s1 !! (currentTerm r1, rv_CandidateID req) = Some C) as HC1.
  { rewrite Ht1. by apply (bn_cand _ _ _ (mv_by _ _ _ _ Hm1)). }
  case_decide as Hvf; [injection Hh as <- <-; by exists s1|]. apply vote_free in Hvf.
  destruct (candidateLogIsUpToDateLocked _ _ _) eqn:Hup; simpl in Hh;
    [|injection Hh as <- <-; by exists s1].
  rewrite HlI, HlT in Hup. apply (upToDate_at_least (p_log s1 n)) in Hup; [|apply Hlk1..].
  case_decide as Hv.
  - destruct (saveStableLocked _ _ _) as [r2 [e|]] eqn:Hs; simpl in Hh.
    + injection Hh as <- <-. apply (save_vote_linked s1 n) in Hs; [|done..|tauto]. by exists s1.
    + injection Hh as <- <-. apply (save_vote_linked s1 n) in Hs as [Hm2 Hlk2]; [|done..|tauto].
      set (s2 := raise _ _ _ _) in *.
      assert (currentTerm (r2 <| votedFor := rv_CandidateID req |>) = currentTerm r1) as Ht2.
      { rewrite <- (lk_term _ _ _ Hlk2). apply fn_lookup_insert. }
      destruct (voted_linked s2 n _ (rv_CandidateID req) C (mv_inv _ _ _ _ Hm2) Hlk2) as [Hm3 Hlk3];
        [done..|by rewrite Ht2|done|]. rewrite Ht2 in *.
      eexists. split_and!; [by eapply moves_trans, moves_trans|apply (linked_core _ n _ _ (mv_inv _ _ _ _ Hm3) Hlk3); [done|by left]|].
      intros _. split; [exact (eq_trans Ht2 Ht1)|]. rewrite <- Ht1. simpl. set_solver.
  - injection Hh as <- <-. assert (votedFor r1 = rv_CandidateID req) as Hv'.
    { destruct (decide (votedFor r1 = rv_CandidateID req)); [done|by destruct Hv]. }
    destruct (voted_linked s1 n r1 (rv_CandidateID req) C) as [Hm3 Hlk3]; try done.
    eexists. split_and!; [by eapply moves_trans|apply (linked_core _ n _ _ (mv_inv _ _ _ _ Hm3) Hlk3); [done|by left]|].
    intros _. split; [done|]. rewrite <- Ht1. simpl. set_solver.
Qed.

(** ** Campaigns *)

Lemma becomeCandidate_linked s n r r' res :
  p_inv s → linked s n r → currentTerm r < 2 ^ 64 - 1 → becomeCandidateLocked r = (r', res) →
  match res with
  | Err _ => linked s n r'
  | Ok t => t = currentTerm r' ∧ state r' = Candidate ∧
            moves n s (campaign n t s) ∧ linked (campaign n t s) n r'
  end.
Proof.
  intros Hi Hlk Hb Hbc. pose proof (lk_ok _ _ _ Hlk) as Hok.
  pose proof (becomeCandidate_evolves _ _ _ Hok Hb Hbc) as Hev.
  pose proof (ok_term _ Hok). pose proof (ok_id _ Hok).
  pose proof (linked_commit _ _ _ Hlk) as Hc.
  unfold becomeCandidateLocked, saveStableLocked in Hbc. rewrite u64_small in Hbc by lia.
  destruct (saveStableValuesLocked _ _ _ _ _) as [r1 err] eqn:Hs.
  apply save_commit in Hs as (ss & -> & Hd); [|apply Hok].
  assert (reached s (currentTerm r) (p_log s n) (CommitIndex (stable_state ss))) as Hre.
  { apply (linked_reached s n r); [done|]. destruct Hd as [->|[_ ->]]; lia. }
  pose proof Hlk as []. destruct err as [e|]; injection Hbc as <- <-.
  - apply (linked_same s s n r); try done. by apply moves_refl.
  - destruct (campaign_moves members n (currentTerm r + 1) s Hi) as (Hm & Ht & Hv & Hl & HC & _ & HL).
    { split_and!; [lia..|]. unfold NoVote. lia. }
    split_and!; [done..|]. apply (linked_same s _ n r); try done.
    + by rewrite Hv.
    + eapply reached_le; [exact (reached_moves n s _ _ _ _ Hi Hm Hre)|done|cbn; lia].
Qed.

(** A leader's log grows by an entry of its term. *)
Lemma linked_extend s0 s n r r' e :
  p_inv s0 → moves n s0 s → linked s0 n r → p_log s n = p_log s0 n →
  p_term s n = p_term s0 n → p_vote s n = p_vote s0 n →
  p_lead s !! currentTerm r = Some (n, p_log s0 n) → Term e = currentTerm r →
  evolves r r' → log r' = log r ++ [e] → snapshotMeta r' = snapshotMeta r →
  currentTerm r' = currentTerm r → votedFor r' = votedFor r → stable r' = stable r →
  snapshotStore r' = snapshotStore r → state r' = Leader →
  (∀ p j, (0 < j)%nat → Z.of_nat j ≤ readUint (matchIndex r') p → (p, currentTerm r, j) ∈ p_acks s) →
  moves n s (extend n (currentTerm r) e s) ∧ linked (extend n (currentTerm r) e s) n r'.
Proof.
  intros Hi Hm Hlk HF Ht Hv HL He Hev Hl Hmeta Ht' Hv' Hs Hsn Hst Hma.
  pose proof Hlk as []. set (F := p_log s0 n) in *.
  assert (moves n s (extend n (currentTerm r) e s)) as Hme.
  { apply extend_moves; [apply Hm|]. unfold may_extend. by rewrite HF, Ht. }
  split; [done|]. destruct Hev as [Hok [[Hid Hps] _ _ _ _ Hap _]].
  assert (p_log (extend n (currentTerm r) e s) n = F ++ [e]) as HF'.
  { simpl. by rewrite fn_lookup_insert, HF. }
  constructor; rewrite ?HF'; try done.
  - by rewrite Hid.
  - by rewrite Hid, Hps.
  - simpl. by rewrite Ht, Ht'.
  - simpl. by rewrite Hv, Hv'.
  - by eapply holds_app.
  - unfold durableCommit. rewrite Hs, Ht'. fold (durableCommit r). eapply reached_moves; [apply Hm|done|].
    eapply reached_moves in lk_commit0; [|done..]. destruct lk_commit0 as [Hle ?].
    eapply reached_agree; [|rewrite lenZ_app, lenZ_cons, lenZ_nil; lia|by split].
    apply take_app_le. unfold lenZ in Hle. lia.
  - apply (snapshot_held_moves n s0 _ (currentTerm r) _ r); [done|by eapply moves_trans| |done..].
    by rewrite Ht'.
  - unfold role_ok. rewrite Hst, Ht', HF'. simpl. by rewrite HF, lookup_insert_eq.
Qed.

Lemma readUint_fresh ps p : readUint (freshProgress 0 ps) p = 0.
Proof. unfold readUint. rewrite freshProgress_spec. by case_decide. Qed.

(** Not every branch of an operation changes the log store. *)
Lemma linked_logStore s n r ls :
  p_inv s → linked s n r → evolves r (r <| logStore := ls |>) → linked s n (r <| logStore := ls |>).
Proof.
  intros Hi Hlk Hev. pose proof Hlk as []. apply (linked_same s s n r); try done. by apply moves_refl.
Qed.

Section Quorums.
Context (Hmembers : NoDup members).

Lemma becomeLeader_linked s n r Q r' err :
  p_inv s → linked s n r → state r = Candidate → lastIndex r + 1 < 2 ^ 63 →
  quorum members Q → (∀ v, v ∈ Q → (v, currentTerm r, n) ∈ p_votes s) →
  becomeLeaderLocked r = (r', err) → ∃ s', moves n s s' ∧ linked s' n r'.
Proof using Hmembers.
  intros Hi Hlk Hst Hb HQ Hv Hbl. pose proof (lk_ok _ _ _ Hlk) as Hok.
  pose proof (becomeLeader_evolves _ _ _ Hok Hb Hbl) as Hev.
  unfold becomeLeaderLocked in Hbl. rewrite lastLogInfo_index, next_index_small in Hbl by done.
  pose proof (lk_role _ _ _ Hlk) as Hr. unfold role_ok in Hr. rewrite Hst in Hr. destruct Hr as [HC Hno].
  destruct (log_Append _ _) as [ls [e|]] eqn:Ha; cbn in Hbl; injection Hbl as <- <-.
  { exists s. split; [by apply moves_refl|by apply linked_logStore]. }
  assert (moves n s (elect n (currentTerm r) s)) as Hm.
  { apply elect_moves; [done|]. split_and!; [apply Hlk| |done|eauto].
    destruct (p_lead s !! currentTerm r) as [[c L]|] eqn:HL; [|done].
    assert (n = c) as <- by (by eapply one_leader). by destruct (Hno L). }
  set (noop := mkLogEntry _ _ _ _ _) in *.
  match type of Hev with evolves _ ?x => set (r' := x) in * end.
  destruct (linked_extend s (elect n (currentTerm r) s) n r r' noop) as [Hm2 Hlk2]; try done.
  - simpl. by rewrite fn_lookup_insert.
  - simpl. by rewrite lookup_insert_eq.
  - intros p j Hj. change (matchIndex r') with (freshProgress 0 (peers r)). rewrite readUint_fresh. lia.
  - eexists. split; [by eapply moves_trans|done].
Qed.

(** [votes] members outside [waiting] voted for [n] in term [t]. *)
Definition polled s (n t votes : Z) (waiting : gset Z) : Prop :=
  ∃ V : gset Z, V ⊆ list_to_set members ∖ waiting ∧ Z.of_nat (size V) = votes ∧
    ∀ v, v ∈ V → (v, t, n) ∈ p_votes s.

Lemma polled_moves n' s s' n t votes waiting :
  moves n' s s' → polled s n t votes waiting → polled s' n t votes waiting.
Proof.
  intros Hm (V & ? & ? & Hv). exists V. split_and!; [done..|]. intros v Hin.
  by apply (bn_votes _ _ _ (mv_by _ _ _ _ Hm)), Hv.
Qed.

Lemma linked_majority s n r : linked s n r → majority r = lenZ members / 2 + 1.
Proof.
  intros Hlk. unfold majority, lenZ. rewrite (lk_peers _ _ _ Hlk). simpl. rewrite length_fmap.
  by replace (Z.of_nat (length (peers r)) + 1) with (Z.of_nat (S (length (peers r)))) by lia.
Qed.

Lemma polled_quorum s n r t votes waiting :
  linked s n r → majority r ≤ votes → polled s n t votes waiting →
  ∃ Q, quorum members Q ∧ ∀ v, v ∈ Q → (v, t, n) ∈ p_votes s.
Proof.
  intros Hlk Hmaj (V & Hsub & <- & Hv). exists V. split; [|done]. split; [set_solver|].
  by rewrite <- (linked_majority s n r).
Qed.

Lemma voteRequest_ok s n r :
  linked s n r → n ≠ NoVote → p_cand s !! (currentTerm r, n) = Some (p_log s n) →
  vote_request_ok s (voteRequest r (currentTerm r)) ∧
  rv_CandidateID (voteRequest r (currentTerm r)) = n ∧ rv_Term (voteRequest r (currentTerm r)) = currentTerm r.
Proof.
  intros Hlk Hn HC. unfold voteRequest. rewrite lastLogInfo_eq by apply Hlk. simpl.
  split_and!; [|apply Hlk|done]. exists (p_log s n). simpl. rewrite (lk_id _ _ _ Hlk).
  split_and!; [done..| | |apply (ok_term _ (lk_ok _ _ _ Hlk))].
  - by apply holds_lastIndex, Hlk.
  - by apply holds_lastTerm, Hlk.
Qed.

Lemma linked_positive s n r : linked s n r → n ≠ NoVote.
Proof.
  intros Hlk. pose proof (ok_id _ (lk_ok _ _ _ Hlk)). rewrite (lk_id _ _ _ Hlk) in *. unfold NoVote. lia.
Qed.

Lemma linked_signal s n r : p_inv s → linked s n r → linked s n (signalReplication r).
Proof. intros Hi Hlk. apply (linked_core s n r); [done..|by left]. Qed.

Lemma startElection_begin_linked s n r r' o :
  p_inv s → linked s n r → currentTerm r < 2 ^ 64 - 1 → lastIndex r + 1 < 2 ^ 63 →
  startElection_begin r = (r', o) →
  ∃ s', moves n s s' ∧ linked s' n r' ∧
    ∀ req, o = Some (Some req) → vote_request_ok s' req ∧ rv_CandidateID req = n ∧
      polled s' n (rv_Term req) 1 (list_to_set (ID <$> peers r)).
Proof using Hmembers.
  intros Hi Hlk Hb Hb' Hse. unfold startElection_begin in Hse.
  destruct (becomeCandidateLocked r) as [r1 res] eqn:Hbc.
  pose proof (becomeCandidate_evolves _ _ _ (lk_ok _ _ _ Hlk) Hb Hbc) as Hev.
  apply (becomeCandidate_linked s n) in Hbc as Hbl; [|done..].
  destruct res as [t|e]; [|injection Hse as <- <-; exists s; split_and!; [by apply moves_refl|done..]].
  destruct Hbl as (-> & Hst & Hm & Hlk1).
  destruct (becomeCandidate_spec _ _ _ (lk_ok _ _ _ Hlk) Hb Hbc) as (Ht & _ & _ & _ & _ & Hl & Hme & Hps).
  destruct (campaign_moves members n (currentTerm r1) s Hi) as (_ & _ & _ & HF & HC & Hown & _).
  { split_and!; [rewrite (lk_term _ _ _ Hlk); lia| |by eapply linked_positive].
    pose proof (ok_term _ (lk_ok _ _ _ Hlk)). lia. }
  set (s1 := campaign n (currentTerm r1) s) in *. rewrite <- HF in HC.
  assert (n ∈ members) as Hin by (rewrite (lk_peers _ _ _ Hlk), (lk_id _ _ _ Hlk); set_solver).
  assert (polled s1 n (currentTerm r1) 1 (list_to_set (ID <$> peers r))) as Hpoll.
  { exists {[n]}. rewrite size_singleton. split_and!; [|done|set_solver].
    pose proof (lk_peers _ _ _ Hlk) as Hp. rewrite Hp in Hmembers.
    apply NoDup_cons in Hmembers as [Hni _]. rewrite (lk_id _ _ _ Hlk) in *. set_solver. }
  assert (state r1 = Candidate ∧ currentTerm r1 = currentTerm r1) as Hdec by done.
  rewrite (decide_True_pi Hdec) in Hse.
  case_decide as Hone.
  - destruct (becomeLeaderLocked r1) as [r2 err] eqn:Hbl.
    destruct (polled_quorum s1 n r1 (currentTerm r1) 1 (list_to_set (ID <$> peers r))) as (Q & HQ & Hv);
      [done|lia|done|].
    eapply (becomeLeader_linked s1 n r1 Q) in Hbl as (s2 & Hm2 & Hlk2);
      [|apply Hm|done..| | |done].
    + exists s2. destruct err; injection Hse as <- <-; (split_and!; [by eapply moves_trans| |done]).
      * done.
      * apply linked_signal; [apply Hm2|done].
    + unfold lastIndex, base. rewrite Hl, Hme. exact Hb'.
    + done.
  - injection Hse as <- <-. exists s1. split_and!; [done..|]. intros req [= <-].
    destruct (voteRequest_ok s1 n r1 Hlk1) as (Hok & Hid & Htr); [by eapply linked_positive|done|].
    split_and!; [done..|]. by rewrite Htr.
Qed.

Lemma countVote_linked s n r term votes from waiting resp r' o :
  p_inv s → linked s n r → lastIndex r + 1 < 2 ^ 63 → rvr_Term resp < 2 ^ 64 →
  from ∈ waiting → from ∈ members → polled s n term votes waiting →
  (rvr_VoteGranted resp = true → (from, term, n) ∈ p_votes s) →
  countVote r term votes resp = (r', o) →
  ∃ s', moves n s s' ∧ linked s' n r' ∧
    ∀ votes', o = Some votes' → polled s' n term votes' (waiting ∖ {[from]}).
Proof using Hmembers.
  intros Hi Hlk Hb Ht Hw Hfm Hpoll Hg Hcv. unfold countVote in Hcv.
  assert (polled s n term votes (waiting ∖ {[from]})) as Hpoll'.
  { destruct Hpoll as (V & ? & ? & ?). exists V. split_and!; [set_solver|done..]. }
  case_decide as H1'.
  { injection Hcv as <- <-. destruct (becomeFollowerLocked _ _ _) as [r1 err] eqn:Hbf.
    apply (becomeFollower_linked s n) in Hbf; [|done..]. destruct err.
    - exists s. split_and!; [by apply moves_refl|done..].
    - eexists. split_and!; [by apply moved_term_moves|done..]. }
  case_decide as H2'; [injection Hcv as <- <-; exists s; split_and!; [by apply moves_refl|done..]|].
  assert (state r = Candidate ∧ currentTerm r = term) as [Hst <-].
  { destruct (decide (state r = Candidate)), (decide (currentTerm r = term)); tauto. }
  case_decide as H3'; [|injection Hcv as <- <-; exists s; split_and!; [by apply moves_refl|done|by intros ? [= <-]]].
  assert (polled s n (currentTerm r) (votes + 1) (waiting ∖ {[from]})) as Hpoll2.
  { destruct Hpoll as (V & HV & <- & Hv). exists ({[from]} ∪ V). split_and!.
    - set_solver.
    - rewrite size_union, size_singleton by set_solver. lia.
    - intros v [->%elem_of_singleton|]%elem_of_union; [by apply Hg, H3'|by apply Hv]. }
  case_decide as H4'; [|injection Hcv as <- <-; exists s; split_and!; [by apply moves_refl|done|by intros ? [= <-]]].
  destruct (polled_quorum s n r _ _ _ Hlk H4' Hpoll2) as (Q & HQ & Hv).
  destruct (becomeLeaderLocked r) as [r2 err] eqn:Hbl.
  eapply (becomeLeader_linked s n r Q) in Hbl as (s2 & Hm2 & Hlk2); [|done..].
  exists s2. destruct err; injection Hcv as <- <-; (split_and!; [done| |done]); [done|].
  apply linked_signal; [apply Hm2|done].
Qed.
End Quorums.

(** ** Proposals *)

Lemma Propose_linked s n r command r' res :
  p_inv s → linked s n r → lastIndex r + 1 < 2 ^ 63 → command_fits r command →
  Propose r command = (r', res) → ∃ s', moves n s s' ∧ linked s' n r'.
Proof.
  intros Hi Hlk Hb Hf Hp. pose proof (lk_ok _ _ _ Hlk) as Hok.
  pose proof (Propose_evolves _ _ _ _ Hok Hb Hf Hp) as Hev. unfold Propose in Hp.
  assert (moves n s s) as Hm by (by apply moves_refl).
  destruct (Command_Validate command); [injection Hp as <- <-; by exists s|].
  case_decide as Hs; [injection Hp as <- <-; by exists s|].
  assert (state r = Leader) as Hst by (destruct (state r); [by destruct Hs..|done]).
  destruct (negb (applier r)); [injection Hp as <- <-; by exists s|].
  destruct (applyErr r); [injection Hp as <- <-; by exists s|].
  rewrite lastLogInfo_index, next_index_small in Hp by done.
  destruct (log_Append _ _) as [ls [e|]] eqn:Ha; cbn in Hp; injection Hp as <- <-.
  { exists s. split; [done|by apply linked_logStore]. }
  pose proof (lk_role _ _ _ Hlk) as Hr. unfold role_ok in Hr. rewrite Hst in Hr. destruct Hr as [HL Hma].
  set (e := mkLogEntry _ _ _ _ _) in *.
  match type of Hev with evolves _ ?x => set (r' := x) in * end.
  destruct (linked_extend s s n r r' e) as [Hm2 Hlk2]; try done.
  by eexists.
Qed.
End Member.
