(* ===== verification/MemberLog.v ===== *)
(** * A member of the cluster: replication

    AppendEntries between linked nodes: what a leader sends is a slice of its
    log, a follower that accepts it shares the leader's log up to its end, and
    what the leader counts on a quorum is committed in the protocol. *)

From stdpp Require Import functions.
From S2P Require Import Prelude.
From S2P Require Import Log.
From S2P Require Import Config.
From S2P Require Import Stores.
From S2P Require Import RaftState.
From S2P Require Import RaftElection.
From S2P Require Import RaftReplication.
From S2P Require Import RaftInvariant.
From S2P Require Import ElectionFacts.
From S2P Require Import ReplicationFacts.
From S2P Require Import Protocol.
From S2P Require Import FullLog.
From S2P Require Import Member.

(** ** Slices of a log *)

(** A log that meets a slice of [L] at [p] without conflict agrees with [L]
    that far, as far as it goes. *)
Lemma agree_app_slice F L p es :
  agree p F L → take (length es) (drop p L) = es → drop p F = es ++ drop (p + length es) F →
  (p + length es ≤ length F)%nat → agree (p + length es) F L.
Proof.
  intros (Hp & HL & Heq) Hes HF Hlen. apply (f_equal length) in Hes as Hl.
  rewrite length_take, length_drop in Hl. split_and!; [done|lia|].
  rewrite <- (take_drop p F), <- (take_drop p L), Heq.
  rewrite !take_app_ge by (rewrite length_take; lia). f_equal.
  rewrite !length_take, Nat.min_l by lia. replace (p + length es - p)%nat with (length es) by lia.
  rewrite HF, Hes. by rewrite take_app_length.
Qed.

Lemma meets_local local es same es' : meets local es same es' → ∃ rest, local = same ++ rest.
Proof. destruct 1 as [rest ->|es' -> _|]; [by exists rest|exists []; by rewrite app_nil_r|by eexists]. Qed.

Lemma meets_agree F L p es same es' :
  meets (drop p F) es same es' → agree p F L → take (length es) (drop p L) = es →
  agree (p + length same) F L ∧ take (p + length same) F ++ es' = take (p + length es) L ∧
  (p + length es ≤ length L)%nat.
Proof.
  intros Hm Hag Hes. pose proof (meets_app _ _ _ _ Hm) as ->.
  destruct (meets_local _ _ _ _ Hm) as [rest HF].
  pose proof Hag as (HpF & HpL & _).
  assert (p + length same ≤ length F)%nat as Hlen.
  { apply (f_equal length) in HF. rewrite length_drop, length_app in HF. lia. }
  assert (p + length (same ++ es') ≤ length L)%nat as HlenL.
  { apply (f_equal length) in Hes. rewrite length_take, length_drop in Hes. lia. }
  assert (agree (p + length same) F L) as Hag'.
  { apply agree_app_slice; [done| | |done].
    - apply (f_equal (take (length same))) in Hes. rewrite take_take, take_app_length in Hes.
      rewrite length_app, Nat.min_l in Hes by lia. done.
    - by rewrite <- drop_drop, HF, drop_app_length. }
  split_and!; [done| |done]. destruct Hag' as (_ & _ & ->).
  rewrite length_app in *. rewrite Nat.add_assoc.
  rewrite <- (take_drop (p + length same) (take (p + length same + length es') L)).
  rewrite take_take, Nat.min_l by lia. f_equal.
  apply (f_equal (drop (length same))) in Hes. rewrite drop_app_length, skipn_firstn_comm, drop_drop in Hes.
  rewrite skipn_firstn_comm. rewrite <- Hes at 1. f_equal. lia.
Qed.

Lemma meets_differ local es same es' :
  meets local es same es' → es' ≠ [] → local ≠ same →
  ∃ x rest y es2, local = same ++ x :: rest ∧ es' = y :: es2 ∧ Term x ≠ Term y.
Proof. destruct 1 as [| |same x rest y es2 -> _ ?]; [done|done|]. intros _ _. by exists x, rest, y, es2. Qed.

(** What [F] and [L] share ends at a conflict. *)
Lemma conflict_ends F L p same x y rest es' k :
  drop p F = same ++ x :: rest → take (length (same ++ y :: es')) (drop p L) = same ++ y :: es' →
  Term x ≠ Term y → agree k F L → (k ≤ p + length same)%nat.
Proof.
  intros HF HL Hne Hag. destruct (decide (k ≤ p + length same)%nat) as [|Hgt]; [done|].
  assert (F !! (p + length same)%nat = Some x) as Hx.
  { rewrite <- lookup_drop, HF. by apply list_lookup_middle. }
  assert (L !! (p + length same)%nat = Some y) as Hy.
  { rewrite <- lookup_drop, <- (lookup_take_lt _ (length (same ++ y :: es'))), HL
      by (rewrite length_app; simpl; lia). by apply list_lookup_middle. }
  rewrite (agree_lookup _ _ _ _ Hag) in Hx by lia. congruence.
Qed.

Section MemberLog.
Context {SS LS SM NS : Type}
  `{StableStoreLaws SS} `{LogStoreLaws LS} `{StateMachineLaws SM} `{SnapshotStoreLaws NS}.
Abbreviation Raft := (Raft SS LS SM NS).
Implicit Types (r : Raft) (F L : list LogEntry) (s : PState).

Context (members : list Z) (Hmembers : NoDup members).
Abbreviation p_inv := (p_inv members).
Abbreviation moves := (moves members).
Abbreviation linked := (linked members).
Abbreviation reached := (reached members).

(** What an AppendEntries request says: entries of the leader's log of its
    term, the term before them, and a commit index within them. *)
Definition append_request_ok s (req : AppendEntriesRequest) : Prop :=
  ∃ L, p_lead s !! ae_Term req = Some (ae_LeaderID req, L) ∧ request_ok req ∧
    0 ≤ ae_PrevLogIndex req ∧ ae_PrevLogIndex req + lenZ (ae_Entries req) ≤ lenZ L ∧
    take (length (ae_Entries req)) (drop (Z.to_nat (ae_PrevLogIndex req)) L) = ae_Entries req ∧
    fterm L (ae_PrevLogIndex req) = Some (ae_PrevLogTerm req) ∧
    ae_LeaderCommit req ≤ ae_PrevLogIndex req + lenZ (ae_Entries req) ∧
    reached s (ae_Term req) L (ae_LeaderCommit req).

Lemma reached_prefix s t F F' d : F `prefix_of` F' → reached s t F d → reached s t F' d.
Proof.
  intros [x ->] [Hle Hc]. eapply reached_agree; [|rewrite lenZ_app; pose proof (lenZ_nonneg x); lia|by split].
  apply take_app_le. unfold lenZ in Hle. lia.
Qed.

Lemma append_request_ok_moves n s s' req :
  p_inv s → moves n s s' → append_request_ok s req → append_request_ok s' req.
Proof.
  intros Hi Hm (L & HL & ? & H0' & Hlen & Hes & Ht & ? & Hr).
  destruct (bn_grows _ _ _ (mv_by _ _ _ _ Hm) _ _ _ HL) as (x & HL' & _).
  assert (L `prefix_of` L ++ x) as Hpre by (by eexists). pose proof (lenZ_nonneg (ae_Entries req)).
  exists (L ++ x). split_and!; [done..| | | |done|].
  - rewrite lenZ_app. pose proof (lenZ_nonneg x). lia.
  - unfold lenZ in *. rewrite drop_app_le by lia. rewrite take_app_le; [done|].
    rewrite length_drop. lia.
  - rewrite (fterm_prefix L); [done..|lia].
  - eapply reached_moves; [done..|]. by eapply reached_prefix.
Qed.

(** ** The follower *)

Lemma recognizeLeader_linked s n r t l r' err :
  p_inv s → linked s n r → currentTerm r ≤ t < 2 ^ 64 → recognizeLeader r t l = (r', err) →
  match err with
  | Some _ => linked s n r'
  | None => linked (moved_term r t n s) n r' ∧ state r' = Follower ∧ currentTerm r' = t ∧
            log r' = log r ∧ snapshotMeta r' = snapshotMeta r ∧
            lastApplied r' = lastApplied r ∧ commitIndex r' = commitIndex r
  end.
Proof.
  intros Hi Hlk Ht Hrl. pose proof Hrl as Hspec.
  apply recognizeLeader_spec in Hspec as (Hev & Hl & Hm & Hc & Ha & Hnone); [|apply Hlk|done].
  unfold recognizeLeader in Hrl. unfold moved_term.
  destruct (decide (currentTerm r < t)) as [Hlt|].
  - apply (becomeFollower_linked members s n) in Hrl as Hb; [|done..|lia].
    unfold moved_term in Hb. rewrite decide_True in Hb by done.
    destruct err; [done|]. destruct (Hnone eq_refl) as (? & ? & _). by split_and!.
  - injection Hrl as <- <-. destruct (Hnone eq_refl) as (? & ? & _).
    split_and!; try done. apply (linked_core members s n r); [done..|by right].
Qed.

(** Adopting part of the leader's log. *)
Lemma accept_linked s n r r' c L l :
  NoDup members → p_inv s → linked s n r → p_lead s !! currentTerm r = Some (c, L) →
  (∃ q, l = take q L) ∨ (∃ j, l = take j (p_log s n)) →
  (∀ k, agree k (p_log s n) L → agree k l L) →
  evolves r r' → holds l r' → state r' = Follower →
  currentTerm r' = currentTerm r → votedFor r' = votedFor r → stable r' = stable r →
  snapshotStore r' = snapshotStore r →
  moves n s (accept n l s) ∧ linked (accept n l s) n r' ∧ p_log (accept n l s) n = l.
Proof.
  intros Hnd Hi Hlk HL Hl Hk Hev Hh Hst Ht Hv Hs Hsn. pose proof Hlk as [].
  assert (may_accept n l s) as Hmay.
  { exists c, L. by rewrite lk_term. }
  assert (moves n s (accept n l s)) as Hm by (by apply accept_moves).
  assert (p_log (accept n l s) n = l) as Hpl by (simpl; by rewrite fn_lookup_insert).
  split_and!; [done| |done].
  destruct lk_commit as [Hd Hch].
  destruct (chosen_kept members Hnd s n l (Z.to_nat (durableCommit r)) Hi Hmay) as [Hkeep Hlen].
  { by rewrite lk_term. }
  { unfold lenZ in Hd. lia. }
  destruct Hev as [Hok [[Hid Hps] _ _ _ _ _ _]].
  constructor; rewrite ?Hpl; try done.
  - by rewrite Hid.
  - by rewrite Hid, Hps.
  - by rewrite Ht.
  - by rewrite Hv.
  - unfold durableCommit. rewrite Hs, Ht. fold (durableCommit r).
    split; [unfold lenZ in *; lia|]. rewrite Hkeep. by eapply moves_chosen.
  - apply (snapshot_held_moves members n s _ (currentTerm r) _ r); (done || by rewrite Ht).
  - unfold role_ok. by rewrite Hst.
Qed.

Lemma truncate_linked s n r tf j c L r' ok :
  NoDup members → p_inv s → linked s n r → state r = Follower →
  p_lead s !! currentTerm r = Some (c, L) → tf = j + 1 → base r ≤ j → 
  commitIndex r < tf ≤ lastIndex r → agree (Z.to_nat j) (p_log s n) L →
  (∀ k, agree k (p_log s n) L → (k ≤ Z.to_nat j)%nat) →
  truncateConflict r tf = (r', ok) →
  ∃ s', moves n s s' ∧ linked s' n r' ∧ p_lead s' = p_lead s ∧ state r' = Follower ∧
    currentTerm r' = currentTerm r ∧
    (ok = true → p_log s' n = take (Z.to_nat j) (p_log s n) ∧ lastIndex r' = j).
Proof.
  intros Hnd Hi Hlk Hst HL -> Hb Hr Hag Hk Ht.
  pose proof (ok_log _ (lk_ok _ _ _ _ Hlk)) as [Hb0 _ _ _]. fold (base r) in Hb0.
  pose proof Ht as Hspec. apply truncateConflict_spec in Hspec
    as (Hev & Hm & _ & Ha & Htm & Hs' & _ & Hok); [|apply Hlk|by right].
  apply truncateConflict_shape in Ht as [(? & _)|(_ & ls & Hshape)]; [lia|].
  destruct ok.
  - destruct Hshape as [l ->]. specialize (Hok eq_refl). cbn in Hok. rewrite decide_False in Hok by lia.
    replace (j + 1 - base r - 1) with (j - base r) in Hok by lia.
    pose proof (lk_log _ _ _ _ Hlk) as Hh. pose proof (holds_lastIndex _ _ Hh) as Hli.
    set (r' := r <| logStore := ls |> <| log := l |>) in *.
    assert (holds (take (Z.to_nat j) (p_log s n)) r') as Hh'.
    { apply (holds_take _ r); [exact Hok|done|lia|done]. }
    destruct (accept_linked s n r r' c L (take (Z.to_nat j) (p_log s n))) as (Hmv & Hlk' & Hpl);
      try done; [by right; eexists| |].
    + intros k Hk'. pose proof (Hk _ Hk'). destruct Hk' as (? & ? & Heq).
      split_and!; [rewrite length_take; unfold lenZ in *; lia|done|].
      by rewrite take_take, Nat.min_l by lia.
    + exists (accept n (take (Z.to_nat j) (p_log s n)) s).
      split_and!; try done. intros _. split; [done|].
      rewrite (holds_lastIndex _ _ Hh'). unfold lenZ in *. rewrite length_take. lia.
  - subst r'. exists s. split_and!; try done; [by apply moves_refl|by apply linked_logStore].
Qed.

Lemma append_linked s n r es c L m r' ok :
  NoDup members → p_inv s → linked s n r → state r = Follower →
  p_lead s !! currentTerm r = Some (c, L) → p_log s n ++ es = take m L →
  valid_entries es → Forall log_fits es → contiguous (lastIndex r + 1) es →
  lastIndex r + lenZ es < 2 ^ 63 → agree (length (p_log s n)) (p_log s n) L →
  appendMissing r es = (r', ok) →
  ∃ s', moves n s s' ∧ linked s' n r' ∧ p_lead s' = p_lead s ∧ state r' = Follower ∧
    currentTerm r' = currentTerm r ∧ (ok = true → p_log s' n = take m L).
Proof.
  intros Hnd Hi Hlk Hst HL Heq Hv Hf Hc Hb Hag Ha. pose proof Ha as Hspec.
  apply appendMissing_spec in Hspec as (Hev & Hm & _ & Hap & _ & _ & _ & Hok); [|apply Hlk|done..].
  apply appendMissing_shape in Ha as [(-> & -> & ->)|(_ & ls & Hr')].
  { exists s. rewrite app_nil_r in Heq. split_and!; try done. by apply moves_refl. }
  destruct ok; [|subst r'; exists s; split_and!; try done; [by apply moves_refl|by apply linked_logStore]].
  destruct (accept_linked s n r r' c L (take m L)) as (Hmv & Hlk' & Hpl); try (by subst r'); try done.
  - left. by eexists.
  - intros k (Hkl & ? & Heqk). rewrite <- Heq. split_and!; [rewrite length_app; lia|done|].
    by rewrite take_app_le.
  - rewrite <- Heq. apply (holds_app _ r); [by subst r'|done|apply Hlk].
  - exists (accept n (take m L) s). split_and!; try done; by subst r'.
Qed.

(** A save that moves the commit index to what the log has reached. *)
Lemma commit_linked s n r i r1 err :
  p_inv s → linked s n r → commitIndex r < i → reached s (currentTerm r) (p_log s n) i →
  saveStableValuesLocked r (currentTerm r) (votedFor r) i (lastApplied r) = (r1, err) →
  linked s n (match err with Some _ => r1 | None => signalApply (r1 <| commitIndex := i |>) end).
Proof.
  intros Hi Hlk Hlt Hre Hs. pose proof Hs as Hev.
  apply commit_save_evolves in Hev as (Hev & _); [|apply Hlk|].
  2: { split; [done|]. rewrite (holds_lastIndex (p_log s n)) by apply Hlk. apply Hre. }
  apply save_commit in Hs as (ss & -> & Hd); [|apply Hlk].
  assert (reached s (currentTerm r) (p_log s n) (CommitIndex (stable_state ss))) as Hre'.
  { destruct Hd as [->|[_ ->]]; [done|apply Hlk]. }
  pose proof Hlk as []. destruct err.
  - apply (linked_same members s s n r); try done. by apply moves_refl.
  - apply (linked_core members s n (r <| stable := ss |> <| commitIndex := i |>)); [done| |done|by left].
    apply (linked_same members s s n r); try done. by apply moves_refl.
Qed.

Lemma adoptCommit_linked s n r c r' ok :
  p_inv s → linked s n r → reached s (currentTerm r) (p_log s n) c →
  adoptCommit r c = (r', ok) → linked s n r'.
Proof.
  intros Hi Hlk Hre Ha. unfold adoptCommit in Ha. case_decide; [|by injection Ha as <- <-].
  destruct (saveStableValuesLocked _ _ _ _ _) as [r1 err] eqn:Hs.
  eapply (commit_linked s n) in Hs; [|done..|].
  - destruct err; by injection Ha as <- <-.
  - eapply reached_le; [done|lia|done].
Qed.

Lemma ack_linked s n r c L k :
  p_inv s → linked s n r → p_lead s !! currentTerm r = Some (c, L) →
  agree k (p_log s n) L →
  ∃ s', moves n s s' ∧ linked s' n r ∧ p_log s' n = p_log s n ∧ p_lead s' = p_lead s ∧
    ∀ j, (j ≤ k)%nat → (n, currentTerm r, j) ∈ p_acks s'.
Proof.
  intros Hi Hlk HL Hag.
  assert (moves n s (ack n k s)) as Hm.
  { apply ack_moves; [done|]. exists c, L. by rewrite (lk_term _ _ _ _ Hlk). }
  exists (ack n k s). split_and!; [done| |done|done|].
  - pose proof Hlk as []. apply (linked_same members s _ n r); try done.
    + by eapply reached_moves.
    + unfold role_ok in *. destruct (state r); [done..|]. destruct lk_role as [? Ha].
      split; [done|]. intros p j ? ?. by apply elem_of_union_r, Ha.
  - intros j Hj. simpl. apply elem_of_union_l, elem_of_lengths_to. rewrite (lk_term _ _ _ _ Hlk). eauto.
Qed.

(** The first half of the repair: the node's log is cut where it leaves the
    leader's. *)
Lemma cut_linked s n r c L p es same tf es' r1 ok1 :
  NoDup members → p_inv s → linked s n r → state r = Follower →
  p_lead s !! currentTerm r = Some (c, L) →
  take (length es) (drop (Z.to_nat p) L) = es →
  base r ≤ p ≤ lastIndex r → agree (Z.to_nat p + length same) (p_log s n) L →
  plan_ok r p es same es' tf → es' ≠ [] → truncateConflict r tf = (r1, ok1) →
  ∃ s1, moves n s s1 ∧ linked s1 n r1 ∧ p_lead s1 = p_lead s ∧ state r1 = Follower ∧
    currentTerm r1 = currentTerm r ∧
    (ok1 = true → p_log s1 n = take (Z.to_nat p + length same) (p_log s n) ∧
                  lastIndex r1 = p + lenZ same).
Proof.
  intros Hnd Hi Hlk Hst HL Hes Hp Hag [Hmeets Htf] Hne Htr.
  pose proof (lk_log _ _ _ _ Hlk) as Hh. pose proof (holds_lastIndex _ _ Hh) as Hli.
  pose proof (h_base _ _ Hh) as Hb0. pose proof (lenZ_nonneg same).
  rewrite (holds_after (p_log s n)) in Hmeets, Htf by (done || lia).
  assert (Z.to_nat (p + lenZ same) = Z.to_nat p + length same)%nat as Hnat by (unfold lenZ; lia).
  destruct Htf as [[-> Hsame]|(Htf & Hr & _)].
  - destruct Hsame as [?|Hsame]; [done|].
    apply truncateConflict_shape in Htr as [(_ & -> & ->)|[? _]]; [|done].
    assert (length (p_log s n) = Z.to_nat p + length same)%nat as HlenF.
    { rewrite <- Hsame, length_drop. unfold lenZ in *. lia. }
    exists s. split_and!; try done; [by apply moves_refl|]. intros _.
    rewrite take_ge by lia. split; [done|]. unfold lenZ in *. lia.
  - edestruct (truncate_linked s n r tf (p + lenZ same) c L r1 ok1) as (s1 & ? & ? & ? & ? & ? & Hok);
      [done..|lia|lia|done|by rewrite Hnat| |done|].
    + destruct (meets_differ _ _ _ _ Hmeets Hne) as (x & rest & y & es2 & HF & -> & Hxy).
      { intros HF. apply (f_equal length) in HF. rewrite length_drop in HF. unfold lenZ in *. lia. }
      intros k Hk. rewrite Hnat. eapply conflict_ends; [done| |done..].
      by rewrite <- (meets_app _ _ _ _ Hmeets).
    + exists s1. split_and!; try done. intros E. destruct (Hok E) as [-> ->]. by rewrite Hnat.
Qed.

(** The rest of a request whose start the node already has. *)
Lemma suffix_ok p es same es' :
  valid_entries es → Forall log_fits es → contiguous (p + 1) es → es = same ++ es' →
  valid_entries es' ∧ Forall log_fits es' ∧ contiguous (p + lenZ same + 1) es'.
Proof.
  intros Hv Hf Hc ->. unfold valid_entries in *. rewrite Forall_app in Hv, Hf. rewrite contiguous_app in Hc.
  split_and!; [apply Hv|apply Hf|].
  replace (p + lenZ same + 1) with (p + 1 + lenZ same) by lia. apply Hc.
Qed.

(** The repair: afterwards the node shares the leader's log to the end of the
    request. *)
Lemma repair_linked s n r c L p es tf es' r1 ok1 r2 ok2 :
  NoDup members → p_inv s → linked s n r → state r = Follower →
  p_lead s !! currentTerm r = Some (c, L) →
  valid_entries es → Forall log_fits es → contiguous (p + 1) es → p + lenZ es < 2 ^ 63 →
  take (length es) (drop (Z.to_nat p) L) = es →
  base r ≤ p ≤ lastIndex r → agree (Z.to_nat p) (p_log s n) L →
  replicationPlanLocked r p es = Ok (tf, es') →
  truncateConflict r tf = (r1, ok1) →
  (if ok1 then appendMissing r1 es' else (r1, false)) = (r2, ok2) →
  ∃ s', moves n s s' ∧ linked s' n r2 ∧ p_lead s' = p_lead s ∧ state r2 = Follower ∧
    currentTerm r2 = currentTerm r ∧
    (ok2 = true → agree (Z.to_nat p + length es) (p_log s' n) L).
Proof.
  intros Hnd Hi Hlk Hst HL Hv Hf Hc Hb Hes Hp Hag Hplan Htr Happ.
  pose proof (h_base _ _ (lk_log _ _ _ _ Hlk)) as Hb0.
  unfold replicationPlanLocked in Hplan.
  apply (plan_spec r es p 0 p) in Hplan as (same & Hpo); [|apply Hlk|done|lia|done..].
  pose proof (proj1 Hpo) as Hmeets. rewrite (holds_after (p_log s n)) in Hmeets by (apply Hlk || lia).
  destruct (meets_agree _ _ _ _ _ _ Hmeets Hag Hes) as (Hag' & Htake & HlenL).
  pose proof (meets_app _ _ _ _ Hmeets) as Hsplit.
  destruct (suffix_ok p es same es' Hv Hf Hc Hsplit) as (Hv' & Hf' & Hc').
  assert (lenZ es = lenZ same + lenZ es') as Hlen by (by rewrite Hsplit, lenZ_app).
  destruct (decide (es' = [])) as [->|Hne].
  { (* nothing to do *)
    destruct (proj2 Hpo) as [[-> _]|(_ & _ & ?)]; [|done].
    rewrite app_nil_r in Hsplit. subst same.
    apply truncateConflict_shape in Htr as [(_ & -> & ->)|[? _]]; [|done].
    apply appendMissing_shape in Happ as [(-> & _ & ->)|[? _]]; [|done].
    exists s. split_and!; try done. by apply moves_refl. }
  destruct (cut_linked s n r c L p es same tf es' r1 ok1) as (s1 & Hm1 & Hlk1 & HL1 & Hst1 & Ht1 & Hok1);
    try done.
  destruct ok1; [|injection Happ as <- <-; by exists s1].
  destruct (Hok1 eq_refl) as [HF1 Hli1].
  edestruct (append_linked s1 n r1 es' c L (Z.to_nat p + length es)%nat r2 ok2)
    as (s2 & Hm2 & Hlk2 & HL2 & Hst2 & Ht2 & Hok2); try done; rewrite ?HL1, ?Ht1, ?HF1, ?Hli1; try done.
  - apply Hm1.
  - lia.
  - destruct Hag' as (? & ? & Heq). rewrite length_take, Nat.min_l by done.
    split_and!; [rewrite length_take; lia|done|]. by rewrite take_take, Nat.min_id.
  - exists s2. split_and!; [by eapply moves_trans|done|congruence|done|congruence|].
    intros E. rewrite (Hok2 E). by apply agree_take.
Qed.

(** The end of an accepted request: its commit index is taken over, and the
    leader may count the node. *)
Lemma accepted_linked s n r c L req r' ok :
  p_inv s → linked s n r → state r = Follower → currentTerm r = ae_Term req →
  p_lead s !! ae_Term req = Some (c, L) → reached s (ae_Term req) L (ae_LeaderCommit req) →
  0 ≤ ae_PrevLogIndex req →
  ae_LeaderCommit req ≤ ae_PrevLogIndex req + lenZ (ae_Entries req) →
  agree (Z.to_nat (ae_PrevLogIndex req) + length (ae_Entries req)) (p_log s n) L →
  adoptCommit r (ae_LeaderCommit req) = (r', ok) →
  ∃ s', moves n s s' ∧ linked s' n r' ∧
    ∀ j, (j ≤ Z.to_nat (ae_PrevLogIndex req) + length (ae_Entries req))%nat →
      (n, ae_Term req, j) ∈ p_acks s'.
Proof.
  intros Hi Hlk Hst Ht HL Hre H0' Hc Hag Had. rewrite <- Ht in *.
  assert (reached s (currentTerm r) (p_log s n) (ae_LeaderCommit req)) as Hre'.
  { eapply reached_agree; [| |exact Hre].
    - eapply agree_le in Hag; [apply Hag|unfold lenZ in *; lia].
    - destruct Hag. unfold lenZ in *. lia. }
  pose proof Had as Hspec. apply adoptCommit_spec in Hspec as (_ & _ & _ & _ & Ht' & Hst' & _); [|apply Hlk].
  apply (adoptCommit_linked s n) in Had; [|done..].
  edestruct (ack_linked s n r' c L) as (s5 & Hm5 & Hlk5 & _ & _ & Hack);
    [done|done|by rewrite Ht'|exact Hag|].
  exists s5. split_and!; [done..|]. by rewrite Ht' in Hack.
Qed.

Lemma moved_term_lead r t n s : p_lead (moved_term r t n s) = p_lead s.
Proof. unfold moved_term. by case_decide. Qed.

Lemma HandleAppendEntries_linked s n r req r' resp :
  NoDup members → p_inv s → linked s n r → append_request_ok s req →
  HandleAppendEntries r req = (r', resp) →
  ∃ s', moves n s s' ∧ linked s' n r' ∧
    (aer_Success resp = true → aer_Term resp = ae_Term req →
     ∀ j, (j ≤ Z.to_nat (ae_PrevLogIndex req) + length (ae_Entries req))%nat →
       (n, ae_Term req, j) ∈ p_acks s').
Proof.
  intros Hnd Hi Hlk Hreq Hh. unfold HandleAppendEntries in Hh.
  pose proof Hreq as (_ & _ & Hrq & _). pose proof (moves_refl members n s Hi) as Hm0.
  destruct (decide (ae_Term req < currentTerm r)); [injection Hh as <- <-; exists s; by split_and!|].
  destruct (recognizeLeader _ _ _) as [r1 err] eqn:Hrl.
  apply (recognizeLeader_linked s n) in Hrl as Hrl'; [|done..|destruct Hrq; lia].
  destruct err; [injection Hh as <- <-; exists s; by split_and!|].
  destruct Hrl' as (Hlk1 & Hst1 & Ht1 & _).
  pose proof (moved_term_moves members s n r (ae_Term req) Hi Hlk) as Hm1.
  set (s1 := moved_term r (ae_Term req) n s) in *. pose proof (mv_inv _ _ _ _ Hm1) as Hi1.
  pose proof (append_request_ok_moves _ _ _ _ Hi Hm1 Hreq) as (L & HL & _ & Hp0 & HpL & Hes & Hpt & Hcm & Hre).
  apply (linked_core members s1 n r1 (signalElectionReset r1)) in Hlk1; [|done..|by left].
  set (r2 := signalElectionReset r1) in *.
  assert (currentTerm r2 = ae_Term req ∧ state r2 = Follower) as [Ht2 Hst2] by done.
  rewrite <- Ht2 in HL, Hre.
  destruct (matchesPrefixLocked r2 _ _) eqn:Hmp; cbn [negb] in Hh;
    [|injection Hh as <- <-; exists s1; by split_and!].
  apply matchesPrefix_spec in Hmp; [|apply Hlk1].
  pose proof (term_of_range _ _ _ Hmp) as Hpr.
  apply (holds_term_of_Some (p_log s1 n)) in Hmp as [_ HFt]; [|apply Hlk1].
  assert (agree (Z.to_nat (ae_PrevLogIndex req)) (p_log s1 n) L) as Hag.
  { eapply fterm_match; [apply (pi_log _ _ Hi1)|by eapply (pi_lead_grounded _ _ Hi1)|done..]. }
  destruct (replicationPlanLocked _ _ _) as [[tf es']|] eqn:Hplan;
    [|injection Hh as <- <-; exists s1; by split_and!].
  destruct (truncateConflict r2 tf) as [r3 ok1] eqn:Htr.
  destruct (if ok1 then appendMissing r3 es' else (r3, false)) as [r4 ok2] eqn:Happ.
  destruct (repair_linked s1 n r2 (ae_LeaderID req) L (ae_PrevLogIndex req) (ae_Entries req) tf es' r3 ok1 r4 ok2)
    as (s4 & Hm4 & Hlk4 & HL4 & Hst4 & Ht4 & Hag4); try done; try apply Hrq.
  pose proof (mv_inv _ _ _ _ Hm4) as Hi4. pose proof (moves_trans _ _ _ _ _ Hm1 Hm4) as Hm14.
  destruct ok1; [|injection Happ as <- <-; injection Hh as <- <-; exists s4; by split_and!].
  rewrite Happ in Hh.
  destruct ok2; [|injection Hh as <- <-; exists s4; by split_and!].
  destruct (adoptCommit r4 _) as [r5 ok] eqn:Had. injection Hh as <- <-. rewrite Ht2 in *.
  destruct (accepted_linked s4 n r4 (ae_LeaderID req) L req r5 ok) as (s5 & Hm5 & Hlk5 & Hack);
    try done;
    [by rewrite HL4|exact (reached_moves members n s1 s4 _ _ _ Hi1 Hm4 Hre)|by apply Hag4|].
  exists s5. split_and!; [by eapply moves_trans|done..].
Qed.

(** ** The leader *)

Lemma linked_lead s n r :
  linked s n r → state r = Leader →
  p_lead s !! currentTerm r = Some (n, p_log s n) ∧
  ∀ p j, (0 < j)%nat → Z.of_nat j ≤ readUint (matchIndex r) p → (p, currentTerm r, j) ∈ p_acks s.
Proof. intros Hlk Hst. pose proof (lk_role _ _ _ _ Hlk) as Hr. unfold role_ok in Hr. by rewrite Hst in Hr. Qed.

Lemma buildAppendEntries_linked s n r peerID req :
  linked s n r → buildAppendEntries r peerID = Some req →
  append_request_ok s req ∧ ae_LeaderID req = n.
Proof.
  intros Hlk Hb. pose proof (lk_log _ _ _ _ Hlk) as Hh. pose proof (h_base _ _ Hh).
  apply buildAppendEntries_spec in Hb as (Hst & Ht & Hid & _ & Hpt & Hes & Hc & Hok & Hlc); [|apply Hlk].
  destruct (linked_lead _ _ _ Hlk Hst) as [HL _]. rewrite (lk_id _ _ _ _ Hlk) in Hid. split; [|done].
  pose proof (term_of_range _ _ _ Hpt) as Hp.
  pose proof (lenZ_after r (ae_PrevLogIndex req) Hp) as Hlen. rewrite <- Hes in Hlen.
  pose proof (holds_lastIndex _ _ Hh) as Hli.
  rewrite (holds_after (p_log s n)) in Hes by (done || lia).
  rewrite (holds_term_of (p_log s n)) in Hpt by (done || lia).
  exists (p_log s n). rewrite Ht, Hid. split_and!; try done; try lia.
  - rewrite Hes at 2. rewrite Hes at 1. by rewrite firstn_all.
  - rewrite Hc. eapply linked_reached; [done|]. by eapply linked_commit.
Qed.

Lemma countMatched_quorum s n r i :
  NoDup members → linked s n r → majority r ≤ countMatched (matchIndex r) i (peers r) →
  ∃ Q, quorum members Q ∧ ∀ v, v ∈ Q → v = n ∨ i ≤ readUint (matchIndex r) v.
Proof.
  intros Hnd Hlk Hm. rewrite countMatched_filter in Hm. pose proof (lk_peers _ _ _ _ Hlk) as Hps.
  set (fs := filter _ (peers r)) in *. rewrite (lk_id _ _ _ _ Hlk) in Hps.
  assert (NoDup (n :: (ID <$> fs))) as Hndf.
  { rewrite Hps in Hnd. apply NoDup_cons in Hnd as [Hni Hnd]. apply NoDup_cons. split.
    - intros (x & -> & [_ Hx]%list_elem_of_filter)%list_elem_of_fmap. apply Hni. apply list_elem_of_fmap. eauto.
    - eapply sublist_NoDup; [exact Hnd|]. apply fmap_sublist, sublist_filter. }
  exists (list_to_set (n :: (ID <$> fs))). split.
  - split.
    + intros x. rewrite !elem_of_list_to_set, Hps, !elem_of_cons.
      intros [->|(y & -> & [_ Hy]%list_elem_of_filter)%list_elem_of_fmap]; [by left|right].
      apply list_elem_of_fmap. eauto.
    + rewrite size_list_to_set by done. simpl. rewrite length_fmap.
      rewrite <- (linked_majority _ _ _ _ Hlk). unfold lenZ in *. lia.
  - intros v. rewrite elem_of_list_to_set, elem_of_cons.
    intros [->|(y & -> & [Hy _]%list_elem_of_filter)%list_elem_of_fmap]; auto.
Qed.

(** What the scan down the log ends with. *)
Lemma advanceCommit_shape fuel r index r' b :
  node_ok r → index ≤ lastIndex r → advanceCommit_from fuel r index = (r', b) →
  r' = r ∨ ∃ i r1 err, commitIndex r < i ≤ index ∧ committable r i ∧
    saveStableValuesLocked r (currentTerm r) (votedFor r) i (lastApplied r) = (r1, err) ∧
    r' = match err with Some _ => r1 | None => signalApply (r1 <| commitIndex := i |>) end.
Proof.
  intros Hok. destruct (ok_log _ Hok) as [Hb0 _ _ Hwb]. pose proof (ok_applied _ Hok).
  fold (base r) in *. fold (lastIndex r) in Hwb.
  revert index. induction fuel as [|fuel IH]; intros index Hi; simpl; [intros [= <- <-]; by left|].
  destruct (decide (commitIndex r < index)) as [Hlt|]; [|intros [= <- <-]; by left].
  rewrite u64_small by lia.
  assert (advanceCommit_from fuel r (index - 1) = (r', b) →
    r' = r ∨ ∃ i r1 err, commitIndex r < i ≤ index ∧ committable r i ∧
      saveStableValuesLocked r (currentTerm r) (votedFor r) i (lastApplied r) = (r1, err) ∧
      r' = match err with Some _ => r1 | None => signalApply (r1 <| commitIndex := i |>) end) as Hrec.
  { intros Hr. apply IH in Hr as [?|(i & r1 & err & ? & ?)]; [by left| |lia]. right.
    exists i, r1, err. split; [lia|done]. }
  rewrite termAt_eq by apply Hok. fold (base r) (baseTerm r) (entry r index). fold (term_of r index).
  destruct (decide (term_of r index = _)) as [Ht|]; [|done].
  destruct (decide (countMatched _ _ _ < _)); [done|].
  destruct (saveStableValuesLocked _ _ _ _ _) as [r1 err] eqn:Hs. intros Heq. right.
  exists index, r1, err. split; [lia|]. split; [split; [done|lia]|]. split; [done|].
  by destruct err; injection Heq as <- <-.
Qed.

Lemma advanceCommit_linked s n r r' b :
  NoDup members → p_inv s → linked s n r → state r = Leader → advanceCommitIndexLocked r = (r', b) →
  ∃ s', moves n s s' ∧ linked s' n r'.
Proof.
  intros Hnd Hi Hlk Hst Ha. unfold advanceCommitIndexLocked in Ha.
  rewrite lastLogIndex_eq in Ha by apply Hlk. fold (base r) in Ha. fold (lastIndex r) in Ha.
  apply advanceCommit_shape in Ha as [->|(i & r1 & err & Hr & [Ht Hm] & Hs & ->)];
    [exists s; split; [by apply moves_refl|done]| |apply Hlk|done].
  pose proof (lk_log _ _ _ _ Hlk) as Hh. pose proof (ok_applied _ (lk_ok _ _ _ _ Hlk)).
  pose proof (h_base _ _ Hh). rewrite (holds_lastIndex _ _ Hh) in Hr.
  destruct (linked_lead _ _ _ Hlk Hst) as [HL Hma].
  rewrite (holds_term_of (p_log s n)) in Ht by (done || lia).
  destruct (countMatched_quorum _ _ _ _ Hnd Hlk Hm) as (Q & HQ & Hv).
  destruct (ack_linked s n r n (p_log s n) (Z.to_nat i)) as (s1 & Hm1 & Hlk1 & HF1 & HL1 & Hack);
    [done..|apply agree_refl; unfold lenZ in *; lia|].
  exists s1. split; [done|]. eapply commit_linked; [apply Hm1|done|lia| |done].
  rewrite HF1. split; [lia|]. right.
  exists (currentTerm r), (Z.to_nat i), n, (p_log s n). rewrite HL1. split_and!; [done| |done|done].
  unfold fterm in Ht. rewrite decide_False in Ht by lia. apply fmap_Some in Ht as (e & He & Hte).
  exists n, (p_log s n), e, Q. rewrite HL1. split_and!; [done| |done|lia|done|].
  - by replace (pred (Z.to_nat i)) with (Z.to_nat (i - 1)) by lia.
  - intros v [->|Hvi]%Hv; [by apply Hack|]. apply (bn_acks _ _ _ (mv_by _ _ _ _ Hm1)), Hma; lia.
Qed.

Lemma handleAppendEntriesResponse_linked s n r peerID req resp r' retry :
  NoDup members → p_inv s → linked s n r → append_request_ok s req → aer_Term resp < 2 ^ 64 →
  (aer_Success resp = true → aer_Term resp = ae_Term req →
     ∀ j, (j ≤ Z.to_nat (ae_PrevLogIndex req) + length (ae_Entries req))%nat →
       (peerID, ae_Term req, j) ∈ p_acks s) →
  handleAppendEntriesResponse r peerID req resp = (r', retry) →
  ∃ s', moves n s s' ∧ linked s' n r'.
Proof.
  intros Hnd Hi Hlk Hreq Hb Hack Hh. unfold handleAppendEntriesResponse in Hh.
  pose proof (moves_refl members n s Hi) as Hm0.
  case_decide.
  { injection Hh as <- <-. destruct (becomeFollowerLocked _ _ _) as [r1 err] eqn:Hbf.
    apply (becomeFollower_linked members s n) in Hbf; [|done..]. destruct err; [by exists s|].
    eexists. split; [by apply moved_term_moves|done]. }
  case_decide as Hst'; [injection Hh as <- <-; by exists s|].
  assert (state r = Leader ∧ ae_Term req = currentTerm r ∧ aer_Term resp = currentTerm r) as (Hst & Ht & Htr).
  { destruct (decide (state r = Leader)), (decide (ae_Term req = currentTerm r)),
      (decide (aer_Term resp = currentTerm r)); tauto. }
  destruct (aer_Success resp) eqn:Hsucc; simpl in Hh.
  2: { case_decide; injection Hh as <- <-; exists s; (split; [done|]); [done|].
       apply (linked_core members s n r); [done..|by left]. }
  destruct Hreq as (L & _ & [_ _ _ Hrb _] & H0' & _). pose proof (lenZ_nonneg (ae_Entries req)).
  rewrite u64_small in Hh by lia.
  set (m := ae_PrevLogIndex req + lenZ (ae_Entries req)) in *.
  set (r1 := if decide (readUint (matchIndex r) peerID < m) then _ else r) in *.
  assert (linked s n r1 ∧ state r1 = Leader) as [Hlk1 Hst1].
  { clear Hh. subst r1. destruct (decide (readUint (matchIndex r) peerID < m)); [|done].
    split; [|done]. pose proof Hlk as [].
    apply (linked_same members s s n r); try done.
    - by apply same_core_evolves.
    - destruct (linked_lead _ _ _ Hlk Hst) as [HL Hma]. unfold role_ok. cbn. rewrite Hst.
      split; [done|]. intros p j Hj Hle. unfold readUint in Hle.
      destruct (decide (p = peerID)) as [->|].
      + rewrite lookup_insert_eq in Hle. simpl in Hle. rewrite <- Ht. apply Hack; [done|congruence|].
        subst m. unfold lenZ in *. lia.
      + rewrite lookup_insert_ne in Hle by done. by apply Hma. }
  clearbody r1. set (r2 := if decide (readUint (nextIndex r1) peerID < _) then _ else r1) in *.
  assert (linked s n r2 ∧ state r2 = Leader) as [Hlk2 Hst2].
  { clear Hh. subst r2. case_decide; [|done]. split; [|done]. apply (linked_core members s n r1); [done..|by left]. }
  clearbody r2. destruct (advanceCommitIndexLocked r2) as [r3 b] eqn:Ha.
  eapply (advanceCommit_linked s n) in Ha as (s3 & Hm3 & Hlk3); [|done..].
  exists s3. split; [done|]. destruct b; injection Hh as <- <-; [|done].
  apply (linked_core members s3 n r3); [apply Hm3|done..|by left].
Qed.
End MemberLog.
