(* ===== verification/MemberSnapshot.v ===== *)
(** * A member of the cluster: snapshots, applying, restarts

    The operations that move a node's snapshot boundary keep the whole log it
    stands for; a restart finds that log again in the durable stores. *)

From stdpp Require Import functions.
From S2P Require Import Prelude.
From S2P Require Import Log.
From S2P Require Import Config.
From S2P Require Import Stores.
From S2P Require Import RaftState.
From S2P Require Import RaftElection.
From S2P Require Import RaftReplication.
From S2P Require Import RaftApply.
From S2P Require Import RaftSnapshot.
From S2P Require Import RaftRecovery.
From S2P Require Import RaftInvariant.
From S2P Require Import ElectionFacts.
From S2P Require Import ReplicationFacts.
From S2P Require Import ApplyFacts.
From S2P Require Import SnapshotFacts.
From S2P Require Import RecoveryFacts.
From S2P Require Import InstallFacts.
From S2P Require Import RaftNode.
From S2P Require Import Protocol.
From S2P Require Import FullLog.
From S2P Require Import Member.
From S2P Require Import MemberLog.

Section MemberSnapshot.
Context {SS LS SM NS : Type}
  `{StableStoreLaws SS} `{LogStoreLaws LS} `{StateMachineLaws SM} `{SnapshotStoreLaws NS}.
Abbreviation Raft := (Raft SS LS SM NS).
Implicit Types (r : Raft) (F L : list LogEntry) (s : PState).

Context (members : list Z).
Abbreviation p_inv := (p_inv members).
Abbreviation moves := (moves members).
Abbreviation linked := (linked members).
Abbreviation reached := (reached members).
Abbreviation known := (known members).

(** ** Applying *)

Lemma execute_linked s n r e r' err :
  p_inv s → linked s n r → applyCommitted_execute r e = (r', err) → linked s n r'.
Proof.
  intros Hi Hlk He. pose proof He as Hspec. apply execute_spec in Hspec as (Hev & _); [|apply Hlk].
  assert (∃ m, r' = r <| machine := m |>) as [m ->].
  { unfold applyCommitted_execute in He. case_decide; [|injection He as <- <-; exists (machine r); by destruct r].
    destruct (sm_Apply _ _) as [m [x|]]; injection He as <- <-; by exists m. }
  pose proof Hlk as []. apply (linked_same members s s n r); try done. by apply moves_refl.
Qed.

Lemma complete_linked s n r e r' err :
  p_inv s → linked s n r → Index e ≤ commitIndex r → applyCommitted_complete r e = (r', err) →
  linked s n r'.
Proof.
  intros Hi Hlk Hie Hc. pose proof (complete_evolves _ _ _ _ (lk_ok _ _ _ _ Hlk) Hie Hc) as Hev.
  unfold applyCommitted_complete in Hc. case_decide; [by injection Hc as <- <-|].
  destruct (saveStableValuesLocked _ _ _ _ _) as [r1 err1] eqn:Hs.
  apply save_commit in Hs as (ss & -> & Hd); [|apply Hlk].
  assert (reached s (currentTerm r) (p_log s n) (CommitIndex (stable_state ss))) as Hre.
  { eapply linked_reached; [done|]. pose proof (linked_commit _ _ _ _ Hlk).
    destruct Hd as [->|[_ ->]]; lia. }
  pose proof (moves_refl members n s Hi) as Hm. pose proof Hlk as [].
  assert (snapshot_held members s (currentTerm r) r') as Hsn.
  { eapply snapshot_held_same; [|done]. destruct err1; [by injection Hc as <- <-|].
    cbn in Hc. destruct (pendingResults _ !! Index e); by injection Hc as <- <-. }
  destruct err1; [injection Hc as <- <-; by apply (linked_same members s s n r)|].
  cbn in Hc. destruct (pendingResults _ !! Index e); injection Hc as <- <-;
    by apply (linked_same members s s n r).
Qed.

(** ** Local snapshots *)

(** What the apply loop may snapshot: the log through an applied entry. *)
Definition boundary_ok F r (i t : Z) : Prop :=
  0 ≤ i ≤ lastApplied r ∧ fterm F i = Some t.

Lemma boundary_known s n r i t :
  linked s n r → boundary_ok (p_log s n) r i t → i < 2 ^ 63 ∧ known s (currentTerm r) i t.
Proof.
  intros Hlk [Hi Ht]. pose proof (lk_ok _ _ _ _ Hlk) as Hok. pose proof (linked_commit _ _ _ _ Hlk).
  destruct (ok_log _ Hok) as [_ _ _ Hb]. pose proof (ok_applied _ Hok). pose proof (ok_commit _ Hok).
  fold (base r) in *. unfold lastIndex in *. split; [lia|].
  eapply reached_known; [eapply linked_reached; [done|]|done|]; lia.
Qed.

Lemma saveSnapshot_linked s n r ns sn r' err :
  p_inv s → linked s n r → snapshotStore r = Some ns →
  boundary_ok (p_log s n) r (s_LastIncludedIndex sn) (s_LastIncludedTerm sn) →
  base r ≤ s_LastIncludedIndex sn → saveSnapshot r ns sn = (r', err) →
  linked s n r' ∧ ∃ ns', r' = r <| snapshotStore := Some ns' |> ∧ snap_inv ns' ∧
    (err = None → snap_stored ns' = Some sn).
Proof.
  intros Hi Hlk Hns Hbo Hb Hs. pose proof (boundary_known _ _ _ _ _ Hlk Hbo) as Hkn.
  destruct Hbo as [Hr Ht].
  assert (s_LastIncludedIndex sn = base r → s_LastIncludedTerm sn = baseTerm r) as Hbt.
  { intros E. rewrite E, (h_term _ _ (lk_log _ _ _ _ Hlk)) in Ht. congruence. }
  pose proof Hs as Hspec.
  apply saveSnapshot_spec in Hspec as (Hev & ns' & -> & Hinv & Hst); [|apply Hlk|done..].
  split; [|exists ns'; split_and!; [done..|]; intros E; by apply Hst].
  unfold saveSnapshot in Hs. destruct (snap_Save ns sn) as [ns1 e] eqn:Hsv.
  assert (e = err) as -> by (by injection Hs).
  apply (f_equal (snapshotStore ∘ fst)) in Hs. cbn in Hs. injection Hs as ->.
  pose proof (ok_snapshot _ (lk_ok _ _ _ _ Hlk)) as Hcov. unfold snapshot_covers in Hcov. rewrite Hns in Hcov.
  apply snap_Save_law in Hsv as [_ Hstored]; [|apply Hcov].
  pose proof Hlk as []. apply (linked_same members s s n r); try done; [by apply moves_refl|].
  intros ns2 sn2 [= <-] Hsn2.
  assert (snap_stored ns' = snap_stored ns ∨ snap_stored ns' = Some sn) as [E|E].
  { destruct err; [|right; apply Hstored]. destruct Hstored as [|[_ ?]]; auto. }
  - apply (lk_snap ns); [done|]. by rewrite <- E.
  - rewrite E in Hsn2. injection Hsn2 as <-. done.
Qed.

Lemma publish_shape r i t r' err :
  node_ok r → 0 ≤ i < 2 ^ 63 → maybeSnapshot_publish r i t = (r', err) →
  r' = r ∨ ∃ ls, r' = r <| logStore := ls |> ∨
    base r < i ≤ lastIndex r ∧
    r' = r <| logStore := ls |> <| log := after r i |> <| snapshotMeta := mkMeta i t |>.
Proof.
  intros Hok Hi. unfold maybeSnapshot_publish. fold (base r).
  case_decide; [intros [= <- <-]; by left|]. case_decide; [intros [= <- <-]; by left|].
  case_decide; [intros [= <- <-]; by left|]. pose proof (ok_commit _ Hok). pose proof (ok_applied _ Hok).
  rewrite entriesFrom_eq, u64_small by (apply Hok || lia). fold (base r) (lastIndex r).
  unfold lastIndex in *. rewrite decide_True by lia. fold (base r).
  replace (i + 1 - base r - 1) with (i - base r) by lia. fold (after r i).
  destruct (log_CompactThrough _ _) as [ls [e|]]; cbn; intros [= <- <-]; right; exists ls; [by left|right].
  split; [lia|done].
Qed.

Lemma publish_linked s n r i t ns sn r' err :
  p_inv s → linked s n r → boundary_ok (p_log s n) r i t →
  snapshotStore r = Some ns → snap_stored ns = Some sn →
  s_LastIncludedIndex sn = i → s_LastIncludedTerm sn = t →
  maybeSnapshot_publish r i t = (r', err) → linked s n r'.
Proof.
  intros Hi Hlk [Hr Ht] Hns Hsn Hsi Hst Hp. pose proof (lk_ok _ _ _ _ Hlk) as Hok.
  assert (0 ≤ i < 2 ^ 63) as Hi63.
  { destruct (ok_log _ Hok) as [_ _ _ ?]. pose proof (ok_commit _ Hok). pose proof (ok_applied _ Hok).
    unfold lastIndex, base in *. lia. }
  pose proof (ok_snapshot _ Hok) as Hcov. unfold snapshot_covers in Hcov. rewrite Hns in Hcov.
  pose proof Hp as Hspec. eapply maybeSnapshot_publish_spec in Hspec as [Hev _];
    [|exact Hok|exact Hns|apply Hcov|done|done|done].
  apply publish_shape in Hp as [->|(ls & [->|[Hb ->]])]; [done|by apply linked_logStore| |done|done].
  pose proof Hlk as []. constructor; try done.
  - apply Hev.
  - rewrite (holds_lastIndex (p_log s n)) in Hb by done.
    eapply holds_compact; [| | |done]; [cbn; lia|done|done].
Qed.

(** ** Snapshots sent and installed *)

(** What an InstallSnapshot request says: a prefix of the leader's log that is
    chosen by its term. *)
Definition install_request_ok s (req : InstallSnapshotRequest) : Prop :=
  ∃ L, p_lead s !! is_Term req = Some (is_LeaderID req, L) ∧ is_Term req < 2 ^ 64 ∧
    0 ≤ is_LastIncludedIndex req < 2 ^ 63 ∧
    fterm L (is_LastIncludedIndex req) = Some (is_LastIncludedTerm req) ∧
    reached s (is_Term req) L (is_LastIncludedIndex req).

Lemma install_request_ok_moves n s s' req :
  p_inv s → moves n s s' → install_request_ok s req → install_request_ok s' req.
Proof.
  intros Hi Hm (L & HL & ? & H0' & Ht & Hr).
  destruct (bn_grows _ _ _ (mv_by _ _ _ _ Hm) _ _ _ HL) as (x & HL' & _).
  assert (L `prefix_of` L ++ x) as Hpre by (by eexists).
  exists (L ++ x). split; [done|]. split; [done|]. split; [done|]. split.
  - rewrite (fterm_prefix L); [done..|]. destruct Hr. lia.
  - eapply reached_moves; [done..|]. by eapply reached_prefix.
Qed.

Lemma loadForInstall_linked s n r meta r' res :
  p_inv s → linked s n r → loadForInstall r meta = (r', res) → linked s n r'.
Proof.
  intros Hi Hlk Hl. apply loadForInstall_spec in Hl as (Hev & Hsh & _); [|apply Hlk].
  destruct Hsh as [->|(ns & ns' & Hns & Hst & ->)]; [done|]. pose proof Hlk as [].
  apply (linked_same members s s n r); try done; [by apply moves_refl|].
  intros ns2 sn [= <-] Hsn. rewrite Hst in Hsn. by apply (lk_snap ns).
Qed.

Lemma confirmInstall_linked s n r peerID meta term stored req :
  p_inv s → linked s n r → confirmInstall r peerID meta term stored = Some req →
  install_request_ok s req ∧ is_LeaderID req = n.
Proof.
  intros Hi Hlk Hc. pose proof (lk_ok _ _ _ _ Hlk) as Hok. pose proof (lk_log _ _ _ _ Hlk) as Hh.
  apply confirmInstall_spec in Hc as (Hld & Ht & Hid & Hq & Hqt & _).
  destruct (linked_lead _ _ _ _ Hlk Hld) as [HL _]. rewrite (lk_id _ _ _ _ Hlk) in Hid.
  split; [|done]. exists (p_log s n). rewrite Ht, Hid, Hq, Hqt.
  destruct (ok_log _ Hok) as [Hb0 _ _ Hwb]. pose proof (lenZ_nonneg (log r)).
  pose proof (ok_term _ Hok). pose proof (ok_applied _ Hok). fold (base r) in *.
  split_and!; [done|lia|lia|lia|apply Hh|].
  eapply linked_reached; [done|]. pose proof (linked_commit _ _ _ _ Hlk). lia.
Qed.

(** What a node has chosen is in the log of its term's leader. *)
Lemma chosen_agrees s n r c L d :
  NoDup members → p_inv s → linked s n r → p_lead s !! currentTerm r = Some (c, L) →
  d ≤ durableCommit r → agree (Z.to_nat d) (p_log s n) L.
Proof.
  intros Hnd Hi Hlk HL Hd. destruct (linked_reached _ _ _ _ d Hlk Hd) as [Hle Hc].
  eapply chosen_lead in Hc; [|done|done|reflexivity|exact HL].
  destruct Hc as [x Hx]. unfold lenZ in Hle. rewrite Hx. split_and!; [lia| |].
  - rewrite length_app, length_take. lia.
  - rewrite take_app_le by (rewrite length_take; lia). by rewrite take_take, Nat.min_id.
Qed.

(** An installed node stands for a log that has the snapshot's boundary. *)
Lemma installed_stands s s' n r req r' F :
  p_inv s → moves n s s' → linked s n r → state r = Follower → evolves r r' → installed r req r' →
  lastApplied r < is_LastIncludedIndex req →
  p_term s' n = p_term s n → p_vote s' n = p_vote s n → p_log s' n = F → holds F r' →
  fterm F (is_LastIncludedIndex req) = Some (is_LastIncludedTerm req) →
  reached s' (currentTerm r) F (Z.max (commitIndex r) (is_LastIncludedIndex req)) →
  linked s' n r'.
Proof.
  intros Hi Hm Hlk Hst Hev Hin Hq Ht Hv HF Hh Hft Hre. pose proof Hlk as [].
  pose proof (ok_applied _ lk_ok). destruct (ok_log _ lk_ok) as [? _ _ _]. fold (base r) in *.
  destruct Hin as [Hbq _ _ Hcm Hap _ (Hct & Hvt & Hid & Hps & Hst' & _) [_ Hss] _ (ns & Hns & _ & Hsn)].
  constructor; rewrite ?HF; try done.
  - apply Hev.
  - by rewrite Hid.
  - by rewrite Hid, Hps.
  - by rewrite Ht, Hct.
  - by rewrite Hv, Hvt.
  - unfold durableCommit. rewrite Hss, Hct. simpl. by rewrite Hcm.
  - intros ns2 sn2 Hns2 Hsn2. rewrite Hns in Hns2. injection Hns2 as <-.
    rewrite Hsn in Hsn2. injection Hsn2 as <-. simpl. rewrite Hct. split.
    + destruct (ok_log _ (proj1 Hev)) as [_ _ _ Hb]. pose proof (lenZ_nonneg (log r')).
      fold (base r') in Hb. lia.
    + eapply reached_known; [|done|lia]. eapply reached_le; [exact Hre|lia|done].
  - unfold role_ok. by rewrite Hst', Hst.
Qed.

(** A snapshot whose boundary the log does not have replaces all of it: the
    node has chosen nothing beyond. *)
Lemma reset_linked s n r req r' L :
  NoDup members → p_inv s → linked s n r → state r = Follower →
  currentTerm r = is_Term req → p_lead s !! is_Term req = Some (is_LeaderID req, L) →
  fterm L (is_LastIncludedIndex req) = Some (is_LastIncludedTerm req) →
  reached s (is_Term req) L (is_LastIncludedIndex req) →
  lastApplied r < is_LastIncludedIndex req → evolves r r' → installed r req r' →
  fterm (p_log s n) (is_LastIncludedIndex req) ≠ Some (is_LastIncludedTerm req) → log r' = [] →
  ∃ s', moves n s s' ∧ linked s' n r' ∧ p_lead s' = p_lead s ∧
    agree (Z.to_nat (is_LastIncludedIndex req)) (p_log s' n) L.
Proof.
  intros Hnd Hi Hlk Hst Ht HL HLq Hre Hq Hev Hin Hterm Hlog. set (q := is_LastIncludedIndex req) in *.
  pose proof (ok_applied _ (lk_ok _ _ _ _ Hlk)). pose proof (h_base _ _ (lk_log _ _ _ _ Hlk)).
  pose proof (fterm_range _ _ _ HLq) as HqL.
  assert (∀ k, agree k (p_log s n) L → (k ≤ Z.to_nat q)%nat) as Hshort.
  { intros k Hk. destruct (decide (k ≤ Z.to_nat q)%nat) as [|Hn]; [done|]. destruct Hterm.
    rewrite <- HLq. apply (fterm_agree k); [done|lia]. }
  assert (agree (Z.to_nat q) (take (Z.to_nat q) L) L) as Htake by (apply agree_take; unfold lenZ in *; lia).
  assert (commitIndex r ≤ q) as Hcq.
  { assert (Z.to_nat (commitIndex r) ≤ Z.to_nat q)%nat; [|lia]. apply Hshort.
    eapply chosen_agrees; [done..|by rewrite Ht|by eapply linked_commit]. }
  assert (lenZ (take (Z.to_nat q) L) = q) as Hlen by (unfold lenZ in *; rewrite length_take; lia).
  assert (moves n s (accept n (take (Z.to_nat q) L) s)) as Hm.
  { apply accept_moves; [done|]. exists (is_LeaderID req), L. rewrite (lk_term _ _ _ _ Hlk), Ht.
    split_and!; [done|left; by eexists|]. intros k Hk. eapply agree_le; [|exact Htake]. by apply Hshort. }
  assert (p_log (accept n (take (Z.to_nat q) L) s) n = take (Z.to_nat q) L) as Hpl
    by (simpl; by rewrite fn_lookup_insert).
  assert (fterm (take (Z.to_nat q) L) q = Some (is_LastIncludedTerm req)) as Hft.
  { rewrite <- HLq. symmetry. apply fterm_prefix; [apply prefix_take|]. lia. }
  exists (accept n (take (Z.to_nat q) L) s). split_and!; [done| |done|by rewrite Hpl].
  apply (installed_stands s _ n r req r' (take (Z.to_nat q) L)); try done.
  - destruct Hin. fold q in in_base. apply holds_reset; congruence.
  - fold q. rewrite Z.max_r, Ht by done. split; [lia|]. rewrite take_take, Nat.min_id.
    eapply moves_chosen; [done|done|]. apply Hre.
Qed.

(** Installing keeps a node linked, and it then has the leader's log through
    the boundary. *)
Lemma installed_linked s n r req r' L :
  NoDup members → p_inv s → linked s n r → state r = Follower →
  currentTerm r = is_Term req → p_lead s !! is_Term req = Some (is_LeaderID req, L) →
  is_LastIncludedIndex req < 2 ^ 63 →
  fterm L (is_LastIncludedIndex req) = Some (is_LastIncludedTerm req) →
  reached s (is_Term req) L (is_LastIncludedIndex req) →
  lastApplied r < is_LastIncludedIndex req → installed r req r' →
  install_agrees r req ∧
  ∃ s', moves n s s' ∧ linked s' n r' ∧ p_lead s' = p_lead s ∧
    agree (Z.to_nat (is_LastIncludedIndex req)) (p_log s' n) L.
Proof.
  intros Hnd Hi Hlk Hst Ht HL Hb HLq Hre Hq Hin. set (q := is_LastIncludedIndex req) in *.
  pose proof (lk_ok _ _ _ _ Hlk) as Hok. pose proof (lk_log _ _ _ _ Hlk) as Hh.
  pose proof (ok_applied _ Hok). pose proof (h_base _ _ Hh). pose proof (linked_commit _ _ _ _ Hlk).
  assert (∀ d, d ≤ durableCommit r → agree (Z.to_nat d) (p_log s n) L) as Hchosen
    by (intros d Hd; eapply chosen_agrees; [done..|by rewrite Ht|done]).
  assert (install_agrees r req) as Hag.
  { intros Hqc. fold q in Hqc |- *. rewrite (holds_term_of (p_log s n)) by (done || lia).
    rewrite <- HLq. apply (fterm_agree (Z.to_nat q)); [|lia]. apply Hchosen. lia. }
  split; [done|]. pose proof (installed_evolves r req r' Hok ltac:(lia) Hag Hin) as Hev.
  pose proof (in_base _ _ _ Hin) as Hb'. pose proof (in_term _ _ _ Hin) as Hbt.
  pose proof (in_log _ _ _ Hin) as Hlog. fold q in Hb', Hlog.
  rewrite (holds_term_of (p_log s n)) in Hlog by (done || lia).
  case_decide as Hterm; [|by eapply reset_linked].
  assert (agree (Z.to_nat q) (p_log s n) L) as Hagq.
  { eapply fterm_match; [apply (pi_log _ _ Hi)|by eapply (pi_lead_grounded _ _ Hi)|lia|done..]. }
  pose proof (proj1 Hagq). exists s. split_and!; [by apply moves_refl| |done|done].
  apply (installed_stands s s n r req r' (p_log s n)); try done; [by apply moves_refl| |].
  - eapply holds_compact; [| | |done]; rewrite ?Hb', ?Hbt; [unfold lenZ; lia|done|done].
  - fold q. destruct (decide (commitIndex r ≤ q)).
    + rewrite Z.max_r, Ht by lia. eapply reached_agree; [apply Hagq|unfold lenZ; lia|done].
    + rewrite Z.max_l by lia. by eapply linked_reached.
Qed.

Lemma lead_positive s t c L : p_inv s → p_lead s !! t = Some (c, L) → 0 < t.
Proof. intros Hi HL. by eapply lead_terms. Qed.

(** What is chosen anywhere agrees with what a node has committed. *)
Lemma known_committed s n r T i t :
  NoDup members → p_inv s → linked s n r → known s T i t → base r ≤ i ≤ durableCommit r →
  term_of r i = Some t.
Proof.
  intros Hnd Hi Hlk (P & Hlen & Hft & Hch) Hr.
  rewrite (holds_term_of (p_log s n)) by (apply Hlk || lia). rewrite <- Hft.
  destruct (linked_reached _ _ _ _ i Hlk ltac:(lia)) as [HlF HcF].
  pose proof (h_base _ _ (lk_log _ _ _ _ Hlk)).
  assert (take (Z.to_nat i) (p_log s n) = P) as <-.
  { destruct (chosen_comparable members Hnd s _ _ _ _ Hi HcF Hch) as [Hp|Hp];
      apply prefix_length_eq in Hp; try done; rewrite !length_take; unfold lenZ in *; lia. }
  apply fterm_prefix; [apply prefix_take|]. unfold lenZ in *. rewrite length_take. lia.
Qed.

Lemma known_install_agrees s n r req :
  NoDup members → p_inv s → linked s n r → install_request_ok s req → install_agrees r req.
Proof.
  intros Hnd Hi Hlk (L & _ & _ & Hq & HLq & Hre) Hqc.
  pose proof (ok_applied _ (lk_ok _ _ _ _ Hlk)). pose proof (linked_commit _ _ _ _ Hlk).
  eapply known_committed; [done..|eapply reached_known; [exact Hre|done|lia]|lia].
Qed.

(** A transfer that succeeds, whatever it finds. *)
Lemma HandleInstallSnapshot_linked s n r req r' resp :
  NoDup members → p_inv s → linked s n r → install_request_ok s req →
  HandleInstallSnapshot r req = (r', (resp, None)) →
  install_agrees r req ∧
  ∃ s', moves n s s' ∧ linked s' n r' ∧
    (isr_Term resp = is_Term req →
     ∀ j, (j ≤ Z.to_nat (is_LastIncludedIndex req))%nat → (n, is_Term req, j) ∈ p_acks s').
Proof.
  intros Hnd Hi Hlk Hreq Hh. pose proof (known_install_agrees _ _ _ _ Hnd Hi Hlk Hreq) as Hag.
  split; [done|]. unfold HandleInstallSnapshot in Hh. pose proof (moves_refl members n s Hi) as Hm0.
  destruct Hreq as (L & HL & Hb & Hq & HLq & Hre). pose proof (lead_positive _ _ _ _ Hi HL).
  destruct (decide (is_Term req < currentTerm r)) as [Hlt|Hge].
  { injection Hh as <- <-. exists s. split_and!; [done..|simpl; lia]. }
  destruct (recognizeLeader _ _ _) as [r1 err] eqn:Hrl.
  apply (recognizeLeader_linked members s n) in Hrl; [|done..|lia].
  destruct err; [done|]. destruct Hrl as (Hlk1 & Hst1 & Ht1 & Hl1 & Hme1 & Hap1 & Hc1).
  pose proof (moved_term_moves members s n r (is_Term req) Hi Hlk) as Hm1.
  set (s1 := moved_term r (is_Term req) n s) in *. pose proof (mv_inv _ _ _ _ Hm1) as Hi1.
  assert (p_lead s1 !! is_Term req = Some (is_LeaderID req, L)) as HL1 by (subst s1; by rewrite moved_term_lead).
  assert (reached s1 (is_Term req) L (is_LastIncludedIndex req)) as Hre1
    by exact (reached_moves members n s s1 _ _ _ Hi Hm1 Hre).
  destruct (snapshotter r1), (snapshotStore r1) as [ns|] eqn:Hns; try done.
  destruct (SnapshotMetadata_Validate _); [done|]. case_decide; [done|].
  destruct (decide (is_LastIncludedIndex req ≤ lastApplied r1)) as [Hold|Hnew].
  - injection Hh as <- <-.
    assert (agree (Z.to_nat (is_LastIncludedIndex req)) (p_log s1 n) L) as Hagq.
    { pose proof (ok_applied _ (lk_ok _ _ _ _ Hlk1)). pose proof (linked_commit _ _ _ _ Hlk1).
      eapply chosen_agrees; [done..|by rewrite Ht1|lia]. }
    destruct (ack_linked members s1 n r1 (is_LeaderID req) L (Z.to_nat (is_LastIncludedIndex req)))
      as (s2 & Hm2 & Hlk2 & _ & _ & Hack); [done|done|by rewrite Ht1|done|].
    exists s2. split_and!; [by eapply moves_trans| |intros _; by rewrite Ht1 in Hack].
    apply (linked_core members s2 n r1); [apply Hm2|done|done|by left].
  - destruct (installSnapshot r1 ns req) as [r2 e2] eqn:Hin. injection Hh as <- <- ->.
    apply installSnapshot_spec in Hin; [|apply Hlk1|done|lia].
    destruct (installed_linked s1 n r1 req r2 L) as (_ & s2 & Hm2 & Hlk2 & HL2 & Hagree); try done; [lia|lia|].
    assert (currentTerm r2 = is_Term req) as Ht2 by (destruct Hin as [_ _ _ _ _ _ (-> & _)]; done).
    destruct (ack_linked members s2 n r2 (is_LeaderID req) L (Z.to_nat (is_LastIncludedIndex req)))
      as (s3 & Hm3 & Hlk3 & _ & _ & Hack); [apply Hm2|done|by rewrite HL2, Ht2|done|].
    exists s3. split_and!; [exact (moves_trans _ _ _ _ _ Hm1 (moves_trans _ _ _ _ _ Hm2 Hm3))|done|intros _; by rewrite Ht2 in Hack].
Qed.

Lemma handleInstallSnapshotResponse_linked s n r peerID req resp r' retry :
  p_inv s → linked s n r → isr_Term resp < 2 ^ 64 →
  (isr_Term resp = is_Term req →
     ∀ j, (j ≤ Z.to_nat (is_LastIncludedIndex req))%nat → (peerID, is_Term req, j) ∈ p_acks s) →
  handleInstallSnapshotResponse r peerID req resp = (r', retry) →
  ∃ s', moves n s s' ∧ linked s' n r'.
Proof.
  intros Hi Hlk Hb Hack Hh. unfold handleInstallSnapshotResponse in Hh.
  pose proof (moves_refl members n s Hi) as Hm0.
  case_decide.
  { injection Hh as <- <-. destruct (becomeFollowerLocked _ _ _) as [r1 err] eqn:Hbf.
    apply (becomeFollower_linked members s n) in Hbf; [|done..]. destruct err; [by exists s|].
    eexists. split; [by apply moved_term_moves|done]. }
  case_decide as Hst'; [injection Hh as <- <-; by exists s|]. injection Hh as <- <-.
  assert (state r = Leader ∧ is_Term req = currentTerm r ∧ isr_Term resp = currentTerm r) as (Hst & Ht & Htr).
  { destruct (decide (state r = Leader)), (decide (is_Term req = currentTerm r)),
      (decide (isr_Term resp = currentTerm r)); tauto. }
  exists s. split; [done|]. pose proof Hlk as []. apply (linked_same members s s n r); try done.
  - by apply same_core_evolves.
  - destruct (linked_lead _ _ _ _ Hlk Hst) as [HL Hma]. unfold role_ok. cbn. rewrite Hst.
    split; [done|]. intros p j Hj Hle. unfold readUint in Hle.
    destruct (decide (p = peerID)) as [->|].
    + rewrite lookup_insert_eq in Hle. simpl in Hle. rewrite <- Ht. apply Hack; [congruence|lia].
    + rewrite lookup_insert_ne in Hle by done. by apply Hma.
Qed.

(** ** Restarts *)

Lemma replay_frame fuel r r' :
  replayCommitted fuel r = (r', None) → stable r' = stable r ∧ commitIndex r' = commitIndex r.
Proof.
  revert r. induction fuel as [|fuel IH]; intros r; simpl; [by intros [= <-]|].
  case_decide; [|by intros [= <-]]. destruct (entryAtLocked _ _) as [e|]; [|done].
  case_decide; [|by intros (-> & ->)%IH]. destruct (negb _); [done|].
  destruct (sm_Apply _ _) as [m [x|]]; simpl; [done|]. by intros (-> & ->)%IH.
Qed.

Lemma new_durable cfg (ss : SS) (ls : LS) m ap meta (sno : option NS) r :
  stable_inv ss → newWithLogAndSnapshot cfg ss ls m ap meta sno = Ok r →
  durableCommit r = CommitIndex (stable_state ss).
Proof.
  intros Hinv. unfold newWithLogAndSnapshot.
  destruct (Config_Validate cfg); [done|]. destruct (SnapshotMetadata_Validate meta); [done|].
  destruct (stable_Load ss) as [ss1 [d|]] eqn:Hld; [|done].
  apply stable_Load_law in Hld as (Hinv1 & Hst1 & Hd); [|done]. rewrite (Hd d eq_refl) in *.
  destruct (log_Load ls) as [ls1 [es|]]; [|done]. destruct (validateLogSuffix _ _); [done|].
  case_decide; [done|]. case_decide; [done|].
  destruct (replayCommitted _ _) as [r1 [e|]] eqn:Hrep; [done|].
  apply replay_frame in Hrep as [Hs Hc]. cbn in Hs, Hc. case_decide.
  - destruct (saveStableValuesLocked _ _ _ _ _) as [r2 [e|]] eqn:Hsv; [done|]. intros [= <-].
    apply save_commit in Hsv as (ss2 & -> & [Hd2|[[x Hx] _]]); [|done|by rewrite Hs].
    unfold durableCommit. cbn. by rewrite Hd2, Hc.
  - intros [= <-]. unfold durableCommit. by rewrite Hs, Hst1.
Qed.

Lemma restart_durable cfg (ss : SS) (ls : LS) m ap (ns : NS) r :
  stable_inv ss → snap_inv ns → NewWithSnapshot cfg ss ls m ap ns = Ok r →
  durableCommit r = match snap_stored ns with
                    | Some sn => Z.max (CommitIndex (stable_state ss)) (s_LastIncludedIndex sn)
                    | None => CommitIndex (stable_state ss)
                    end.
Proof.
  intros Hinv Hns. unfold NewWithSnapshot.
  destruct (snap_Load ns) as [ns1 [o|]] eqn:Hld; [|done].
  apply snap_Load_law in Hld as (_ & _ & Ho); [|done]. rewrite <- (Ho o eq_refl).
  destruct o as [sn|]; [|by apply new_durable].
  destruct (SnapshotMetadata_Validate _); [done|].
  destruct (stable_Load ss) as [ss1 [d|]] eqn:Hl; [|done].
  apply stable_Load_law in Hl as (Hinv1 & Hst1 & Hd); [|done]. rewrite (Hd d eq_refl) in *.
  destruct (log_Load ls) as [ls1 [es|]]; [|done].
  destruct (recoverLogAfterSnapshot _ _ _) as [ls2 [e|]]; [done|].
  destruct (sm_Restore _ _) as [m1 [e|]]; [done|].
  destruct (stable_Save _ _) as [ss2 [e|]] eqn:Hsv; [done|].
  apply stable_Save_law in Hsv as (Hinv2 & _ & Hst2); [|done].
  intros Hnew. apply new_durable in Hnew as ->; [|done]. by rewrite Hst2.
Qed.

Lemma surjective_meta (meta : SnapshotMetadata) :
  meta = mkMeta (LastIncludedIndex meta) (LastIncludedTerm meta).
Proof. by destruct meta. Qed.

(** A log with the boundary of something known has all of it. *)
Lemma known_reached s s' n r i t T d :
  p_inv s → moves n s s' → linked s n r → base r ≤ i → term_of r i = Some t →
  known s (currentTerm r) i t → currentTerm r ≤ T → d ≤ Z.max (durableCommit r) i →
  reached s' T (p_log s n) (Z.max d i).
Proof.
  intros Hi Hm Hlk Hb Hterm (P & HlP & HfP & HcP) HT Hd. pose proof (lk_log _ _ _ _ Hlk) as Hh.
  pose proof (h_base _ _ Hh). pose proof (term_of_range _ _ _ Hterm) as Hr.
  rewrite (holds_lastIndex _ _ Hh) in Hr. rewrite (holds_term_of (p_log s n)) in Hterm by done.
  eapply reached_moves; [done|done|]. destruct (decide (d ≤ i)).
  - rewrite Z.max_r by done. split; [lia|]. eapply chosen_le; [|exact HT].
    assert (agree (Z.to_nat i) (p_log s n) P) as (_ & _ & ->).
    { eapply fterm_match; [apply (pi_log _ _ Hi)|by eapply chosen_grounded|lia|done..]. }
    by rewrite take_ge by (unfold lenZ in *; lia).
  - rewrite Z.max_l by lia. eapply reached_le; [eapply linked_reached; [exact Hlk|]|reflexivity|exact HT]. lia.
Qed.

(** The node a start makes of a log and a snapshot that is known: the log it
    stands for is the old one, or ends with the snapshot. *)
Lemma adopted_linked s n r cfg d i t m r' :
  NoDup members → p_inv s → linked s n r → node_ok r' → base r ≤ i < 2 ^ 63 →
  (i = base r → t = baseTerm r) → known s (currentTerm r) i t →
  stable_ahead (election_state r) d → CommitIndex d ≤ Z.max (durableCommit r) i →
  ID (Self cfg) = id r → Peers cfg = peers r →
  recovered cfg (raised d i) (kept r i t) (mkMeta i t) m r' →
  durableCommit r' = Z.max (CommitIndex d) i →
  (∀ ns sn, snapshotStore r' = Some ns → snap_stored ns = Some sn →
     s_LastIncludedIndex sn = i ∧ s_LastIncludedTerm sn = t) →
  ∃ s', moves n s s' ∧ linked s' n r'.
Proof.
  intros Hnd Hi Hlk Hok' Hb Hbt Hkn Hah Hd Hid Hps Hrec Hdc Hsto.
  pose proof (lk_log _ _ _ _ Hlk) as Hh. set (F := p_log s n) in *.
  destruct Hrec as [[Hid' Hps'] [Hfol _] [Ht Hv] [Hl Hmeta] _ _]. cbn in Ht, Hv.
  assert (base r' = i ∧ baseTerm r' = t) as [Hb' Hbt'] by (unfold base, baseTerm; by rewrite Hmeta).
  assert (currentTerm r ≤ CurrentTerm d) as Htle by (destruct (ahead_vote _ _ Hah) as [?|[<- _]]; simpl in *; lia).
  set (s1 := raise n (CurrentTerm d) (VotedFor d) s).
  assert (moves n s s1) as Hm1.
  { apply raise_moves; [done|]. unfold may_raise. rewrite (lk_term _ _ _ _ Hlk), (lk_vote _ _ _ _ Hlk).
    destruct (ahead_vote _ _ Hah) as [?|[? ?]]; [by left|by right]. }
  assert (∀ s' F', moves n s s' → p_term s' n = CurrentTerm d → p_vote s' n = VotedFor d →
    p_log s' n = F' → holds F' r' → reached s' (CurrentTerm d) F' (durableCommit r') →
    linked s' n r') as Hfin.
  { intros s' F' Hm Ht' Hv' HF' Hh' Hre. pose proof Hlk as [].
    constructor; rewrite ?HF', ?Ht; try done; try congruence.
    - intros ns sn Hns Hsn. destruct (Hsto ns sn Hns Hsn) as [-> ->]. split; [lia|]. eapply known_le; [|exact Htle].
      by eapply known_moves.
    - unfold role_ok. by rewrite Hfol. }
  destruct (decide (term_of r i = Some t)) as [Hterm|Hterm].
  - exists s1. split; [done|].
    apply (Hfin s1 F); [done|apply fn_lookup_insert|apply fn_lookup_insert|done| |].
    + pose proof (term_of_range _ _ _ Hterm). rewrite (holds_lastIndex _ _ Hh) in *.
      unfold kept in Hl. rewrite decide_True in Hl by done.
      apply (holds_compact F r r'); rewrite ?Hb', ?Hbt'; [lia|done| |exact Hh].
      rewrite <- (holds_term_of F r); [exact Hterm|exact Hh|lia].
    + rewrite Hdc. apply (known_reached s s1 n r i t); (done || lia).
  - assert (durableCommit r < i) as Hdi.
    { destruct (decide (i ≤ durableCommit r)); [|lia]. destruct Hterm. eapply known_committed; done || lia. }
    destruct Hkn as (P & HlP & HfP & HcP).
    assert (P ≠ []) as HP.
    { intros ->. rewrite lenZ_nil in HlP. pose proof (h_base _ _ Hh). destruct Hterm. unfold term_of.
      rewrite decide_True by lia. f_equal. symmetry. apply Hbt. lia. }
    assert (chosen members s1 (CurrentTerm d) P) as HcP1 by (eapply chosen_le; [by eapply moves_chosen|done]).
    assert (moves n s1 (accept n P s1)) as Hm2.
    { apply adopt_moves; [apply Hm1|]. split.
      - simpl. rewrite fn_lookup_insert. by apply (chosen_settled members Hnd s1 (CurrentTerm d)); [apply Hm1| | |].
      - simpl. intros Hpre. destruct Hterm. rewrite (holds_term_of F) by (done || lia).
        rewrite <- HfP. apply fterm_prefix; [done|]. pose proof (h_base _ _ Hh). lia. }
    exists (accept n P s1). split; [by eapply moves_trans|].
    apply (Hfin _ P); [by eapply moves_trans|apply fn_lookup_insert|apply fn_lookup_insert|apply fn_lookup_insert| |].
    + unfold kept in Hl. rewrite decide_False in Hl by done. apply holds_reset; congruence.
    + rewrite Hdc, Z.max_r by lia. split; [lia|].
      rewrite take_ge by (unfold lenZ in *; lia). by eapply moves_chosen; [apply Hm1| |].
Qed.

(** What a start needs of the stored snapshot. *)
Lemma stored_snapshot_agrees s n r ns :
  NoDup members → p_inv s → linked s n r → snapshotStore r = Some ns →
  snap_words (snap_stored ns) ∧ snapshot_agrees r (snap_stored ns).
Proof.
  intros Hnd Hi Hlk Hns. pose proof (lk_snap _ _ _ _ Hlk ns) as Hheld.
  pose proof (linked_commit _ _ _ _ Hlk). split.
  - intros sn Hsn. destruct (Hheld sn Hns Hsn) as (Hb & P & Hl & _). pose proof (lenZ_nonneg P). lia.
  - intros sn Hsn Hr. destruct (Hheld sn Hns Hsn) as [_ Hkn].
    eapply known_committed in Hkn; [|done..|split; [|etrans; [apply Hr|done]]; lia].
    unfold term_of in Hkn. by rewrite decide_False in Hkn by lia.
Qed.

(** The boundary a start reads from the snapshot store. *)
Lemma stored_boundary s n r ns :
  linked s n r → snapshotStore r = Some ns →
  let meta := diskMeta (snap_stored ns) in
  base r ≤ LastIncludedIndex meta < 2 ^ 63 ∧
  (LastIncludedIndex meta = base r → LastIncludedTerm meta = baseTerm r) ∧
  known s (currentTerm r) (LastIncludedIndex meta) (LastIncludedTerm meta).
Proof.
  intros Hlk Hns. pose proof (lk_ok _ _ _ _ Hlk) as Hok. pose proof (lk_snap _ _ _ _ Hlk ns) as Hheld.
  pose proof (ok_snapshot _ Hok) as Hcov. unfold snapshot_covers in Hcov. rewrite Hns in Hcov.
  destruct Hcov as [_ Hcov]. destruct (snap_stored ns) as [sn|]; simpl.
  - destruct (Hheld sn Hns eq_refl). split_and!; [lia..|apply Hcov|done].
  - rewrite Hcov. split_and!; [lia|lia| |exists []; by split_and!; [| |left]].
    intros _. pose proof (h_term _ _ (lk_log _ _ _ _ Hlk)) as Ht. rewrite Hcov in Ht.
    unfold fterm in Ht. rewrite decide_True in Ht by done. by injection Ht.
Qed.

Lemma restart_linked s n r cfg m ap ns r' :
  NoDup members → p_inv s → linked s n r → snapshotStore r = Some ns →
  CurrentTerm (stable_state (stable r)) < 2 ^ 64 →
  ID (Self cfg) = id r → Peers cfg = peers r → sm_inv m →
  NewWithSnapshot cfg (stable r) (logStore r) m ap ns = Ok r' →
  evolves r r' ∧ ∃ s', moves n s s' ∧ linked s' n r'.
Proof.
  intros Hnd Hi Hlk Hns Htb Hcid Hcps Hsm Hnew. pose proof (lk_ok _ _ _ _ Hlk) as Hok.
  assert (snap_inv ns) as Hninv.
  { pose proof (ok_snapshot _ Hok) as Hcov. unfold snapshot_covers in Hcov. rewrite Hns in Hcov. apply Hcov. }
  destruct (stored_snapshot_agrees _ _ _ _ Hnd Hi Hlk Hns) as [Hw Hag].
  destruct (stored_boundary _ _ _ _ Hlk Hns) as (Hb & Hbt & Hkn).
  split; [by eapply restart_evolves|].
  pose proof (restart_durable _ _ _ _ _ _ _ (ok_stable_inv _ Hok) Hninv Hnew) as Hd.
  apply (NewWithSnapshot_spec _ _ _ _ _ _ (base r)) in Hnew
    as (Hok' & _ & (ns' & Hns' & Hst') & m' & _ & Hrec);
    [|by apply node_ok_disk|done|done|rewrite Hcid; apply Hok|done].
  set (meta := diskMeta (snap_stored ns)) in *.
  rewrite (ok_log_entries _ Hok), (surjective_meta meta), recoveredLog_kept in Hrec by (done || lia).
  eapply (adopted_linked s n r); try done; [apply Hok|unfold durableCommit; lia| |].
  - rewrite Hd. subst meta. destruct (snap_stored ns); simpl; [done|].
    pose proof (ok_applied _ Hok). pose proof (linked_commit _ _ _ _ Hlk). unfold durableCommit in *.
    destruct (ok_log _ Hok). unfold base in *. lia.
  - intros ns2 sn2 Hns2 Hsn2. rewrite Hns' in Hns2. injection Hns2 as <-. rewrite Hst' in Hsn2.
    subst meta. rewrite Hsn2. done.
Qed.

(** ** Installs that fail *)

Lemma request_known s req :
  install_request_ok s req →
  is_LastIncludedIndex req < 2 ^ 63 ∧
  known s (is_Term req) (is_LastIncludedIndex req) (is_LastIncludedTerm req).
Proof. intros (L & _ & _ & Hq & HLq & Hre). split; [lia|]. eapply reached_known; [done..|lia]. Qed.

Lemma abandoned_linked s n r req r' :
  p_inv s → linked s n r → install_request_ok s req → currentTerm r = is_Term req →
  lastApplied r < is_LastIncludedIndex req → abandoned r req r' →
  log_entries (logStore r') = log r → reached s (currentTerm r) (p_log s n) (durableCommit r') →
  linked s n r'.
Proof.
  intros Hi Hlk Hreq Ht Hlt Hab Hes Hre. apply request_known in Hreq as [Hb Hkn].
  pose proof (abandoned_evolves _ _ _ (lk_ok _ _ _ _ Hlk) Hlt Hab Hes) as Hev.
  destruct Hab as [ns ls m ss Hn Hl Hm Hs Hor]. pose proof Hlk as [].
  apply (linked_same members s s n r); try done; [by apply moves_refl|].
  intros ns2 sn [= <-] Hsn.
  assert (Some (snap_stored ns) = snap_stored <$> snapshotStore r ∨
    snap_stored ns = Some (mkSnapshot (is_LastIncludedIndex req) (is_LastIncludedTerm req)
      (is_Data req))) as [E|E].
  { destruct Hor as [(_ & _ & ?)|(_ & ? & _)]; [done|by right]. }
  - destruct (snapshotStore r) as [ns0|] eqn:Hns; [|done]. injection E as E.
    apply (lk_snap ns0); [done|congruence].
  - rewrite E in Hsn. injection Hsn as <-. simpl. by rewrite Ht.
Qed.

Lemma HandleInstallSnapshot_fails_linked s n r req r' resp e :
  NoDup members → p_inv s → linked s n r → install_request_ok s req →
  HandleInstallSnapshot r req = (r', (resp, Some e)) →
  ∃ s1 r1, moves n s s1 ∧ linked s1 n r1 ∧ evolves r r1 ∧ p_log s1 n = p_log s n ∧
    (r' = r1 ∨
     install_request_ok s1 req ∧ currentTerm r1 = is_Term req ∧
     lastApplied r1 < is_LastIncludedIndex req ∧ log r1 = log r ∧ abandoned r1 req r').
Proof.
  intros Hnd Hi Hlk Hreq Hh. pose proof (lk_ok _ _ _ _ Hlk) as Hok.
  pose proof Hreq as (L & HL & HT & Hq & _). pose proof (lead_positive _ _ _ _ Hi HL).
  apply HandleInstallSnapshot_fails in Hh as (r1 & err & Hrec & Hge & Hcase); [|done|lia|lia].
  pose proof Hrec as Hev. apply recognizeLeader_spec in Hev as (Hev & _); [|done|lia].
  apply (recognizeLeader_linked members s n) in Hrec; [|done..]. destruct err as [err|].
  { exists s, r1. split_and!; [by apply moves_refl|done..|].
    left. by destruct Hcase as [|[[=] _]]. }
  destruct Hrec as (Hlk1 & _ & Ht1 & Hl1 & _ & Hap1 & _).
  pose proof (moved_term_moves members s n r (is_Term req) Hi Hlk) as Hm1.
  exists (moved_term r (is_Term req) n s), r1. split_and!; [done..|unfold moved_term; by case_decide|].
  destruct Hcase as [|(_ & Hlt & Hab)]; [by left|right].
  split_and!; [by eapply install_request_ok_moves|done|congruence|done|done].
Qed.

(** One that is given up before the log is cut. *)
Lemma given_up_linked s n r req r' resp e :
  NoDup members → p_inv s → linked s n r → install_request_ok s req →
  HandleInstallSnapshot r req = (r', (resp, Some e)) →
  log_entries (logStore r') = log_entries (logStore r) → durableCommit r' ≤ durableCommit r →
  ∃ s', moves n s s' ∧ linked s' n r'.
Proof.
  intros Hnd Hi Hlk Hreq Hh Hes Hd.
  destruct (HandleInstallSnapshot_fails_linked _ _ _ _ _ _ _ Hnd Hi Hlk Hreq Hh)
    as (s1 & r1 & Hm & Hlk1 & Hev & HF & [->|(Hreq1 & Ht & Hlt & Hl & Hab)]); exists s1; split; try done.
  eapply abandoned_linked; try done; [apply Hm| |].
  - rewrite Hes, (ok_log_entries _ (lk_ok _ _ _ _ Hlk)). by symmetry.
  - rewrite HF. eapply reached_moves; [done|exact Hm|].
    eapply reached_le; [by eapply (linked_reached members s n r)|reflexivity|apply Hev].
Qed.

(** And a start from what any of them has left. *)
Lemma install_restart_linked s n r req r1 resp e cfg m ap ns r' :
  NoDup members → p_inv s → linked s n r → install_request_ok s req →
  HandleInstallSnapshot r req = (r1, (resp, Some e)) →
  snapshotStore r1 = Some ns → CurrentTerm (stable_state (stable r1)) < 2 ^ 64 →
  ID (Self cfg) = id r → Peers cfg = peers r → sm_inv m →
  NewWithSnapshot cfg (stable r1) (logStore r1) m ap ns = Ok r' →
  evolves r r' ∧ ∃ s', moves n s s' ∧ linked s' n r'.
Proof.
  intros Hnd Hi Hlk Hreq Hh Hns Htb Hcid Hcps Hsm Hnew.
  destruct (HandleInstallSnapshot_fails_linked _ _ _ _ _ _ _ Hnd Hi Hlk Hreq Hh)
    as (s0 & r0 & Hm & Hlk0 & Hev & _ & Hcase). pose proof (mv_inv _ _ _ _ Hm) as Hi0.
  destruct (adv_id _ _ (proj2 Hev)) as [Hid0 Hps0]. rewrite <- Hid0 in Hcid. rewrite <- Hps0 in Hcps.
  assert (evolves r0 r' ∧ ∃ s', moves n s0 s' ∧ linked s' n r') as (Hev' & s' & Hm' & Hlk');
    [|split; [by eapply evolves_trans|exists s'; split; [by eapply moves_trans|done]]].
  destruct Hcase as [->|(Hreq0 & Ht & Hlt & Hl & Hab)].
  { by eapply restart_linked. }
  pose proof (lk_ok _ _ _ _ Hlk0) as Hok0. pose proof (request_known _ _ Hreq0) as [Hb Hkn].
  destruct Hab as [ns1 ls m1 ss Hn Hl1 Hm1 Hs Hor]. cbn in Hns, Htb, Hnew. injection Hns as ->.
  destruct Hor as [Hun|Hcut].
  - set (r1 := r0 <| snapshotStore := Some ns |> <| logStore := ls |> <| machine := m1 |> <| stable := ss |>).
    assert (abandoned r0 req r1) as Hab by by constructor; try left.
    assert (evolves r0 r1) as Hev1 by (eapply abandoned_evolves; [done..|apply Hun]).
    assert (linked s0 n r1) as Hlk1.
    { eapply abandoned_linked; try done; [apply Hun|]. unfold durableCommit. cbn.
      rewrite (proj1 (proj2 Hun)). apply Hlk0. }
    destruct (restart_linked s0 n r1 cfg m ap ns r') as [Hev2 Hs']; try done.
    split; [by eapply evolves_trans|done].
  - pose proof (cut_ahead _ _ _ _ _ Hok0 Hlt Hcut) as Hah. pose proof (ok_applied _ Hok0).
    pose proof (restart_durable _ _ _ _ _ _ _ Hs Hn Hnew) as Hd. pose proof (linked_commit _ _ _ _ Hlk0).
    apply (cut_restart r0 req) in Hnew as (Hok' & (ns' & Hns' & Hst') & m' & Hrec);
      try (done || lia); [|rewrite Hcid; apply Hok0].
    pose proof (known_install_agrees _ _ _ _ Hnd Hi0 Hlk0 Hreq0) as Hag.
    split.
    + split; [done|]. eapply adopted_advances; [done|exact Hah| | | | | |exact Hrec]; try (done || lia).
      intros ?. apply Hag. lia.
    + destruct Hcut as (_ & Hsto & Hss). rewrite Hsto in *.
      apply (adopted_linked s0 n r0 cfg (stable_state ss) (is_LastIncludedIndex req)
        (is_LastIncludedTerm req) m' r'); try done; [lia|lia|by rewrite Ht| |].
      * unfold durableCommit in *. destruct Hss as [->| ->]; simpl; lia.
      * intros ns2 sn2 Hns2 Hsn2. rewrite Hns' in Hns2. injection Hns2 as <-. rewrite Hst' in Hsn2.
        by injection Hsn2 as <-.
Qed.
End MemberSnapshot.
