(* ===== verification/Cluster.v ===== *)
(** * The cluster

    Every member runs the node of [raft.go] behind the RPC server of
    [internal/transport]; the network delivers what was sent in any order, any
    number of times, or never; a process may die and start again from its
    durable stores at any moment.  One step is one critical section of one
    node. *)

From S2P Require Import Prelude.
From S2P Require Import Log.
From S2P Require Import Config.
From S2P Require Import Stores.
From S2P Require Import RaftState.
From S2P Require Import RaftElection.
From S2P Require Import RaftReplication.
From S2P Require Import RaftApply.
From S2P Require Import RaftSnapshot.
From S2P Require Import RaftRecovery.
From S2P Require Import Transport.
From S2P Require Import RaftInvariant.
From S2P Require Import ElectionFacts.
From S2P Require Import RaftNode.

(** ** Messages

    A response travels with the request it answers: the caller of the RPC has
    both.  [MLoad] and [MConfirm] are what a goroutine of host [at_] holds
    between two of the sections of [buildInstallSnapshot]: the boundary and
    term it is to send, then the stored image too. *)
Inductive Message :=
| MVote (to : Z) (req : RequestVoteRequest)
| MVoted (from : Z) (req : RequestVoteRequest) (resp : RequestVoteResponse)
| MAppend (to : Z) (req : AppendEntriesRequest)
| MAppended (from : Z) (req : AppendEntriesRequest) (resp : AppendEntriesResponse)
| MInstall (to : Z) (req : InstallSnapshotRequest)
| MInstalled (from : Z) (req : InstallSnapshotRequest) (resp : InstallSnapshotResponse)
| MLoad (at_ p : Z) (metadata : SnapshotMetadata) (term : Z)
| MConfirm (at_ p : Z) (metadata : SnapshotMetadata) (term : Z) (stored : Snapshot).

(** ** The apply goroutine

    Where [applyLoop] is between two of its critical sections: in
    [applyCommitted] up to [Choosing], then in [maybeSnapshot]. *)
Inductive Worker :=
| Waiting
| Applying (entry : LogEntry)
| Completing (entry : LogEntry)
| Failing (err : error)
| Stopped
| Choosing
| Saving (lastIncludedIndex lastIncludedTerm : Z)
| Publishing (lastIncludedIndex lastIncludedTerm : Z)
| Reporting (err : option error).

(** [snapshotMu] is held. *)
Definition snapshotting (w : Worker) : bool :=
  match w with Saving _ _ | Publishing _ _ => true | _ => false end.

Section Cluster.
Context {SS LS SM NS : Type}
  `{StableStoreLaws SS} `{LogStoreLaws LS} `{StateMachineLaws SM} `{SnapshotStoreLaws NS}.
Abbreviation Raft := (Raft SS LS SM NS).
Implicit Types r : Raft.

(** The next section of the loop. *)
Definition applyStep r (w : Worker) : Raft * Worker :=
  match w with
  | Waiting =>
      match applyCommitted_fetch r with
      | Drained => (r, Choosing)
      | Fetch entry => (r, Applying entry)
      | FetchFailed err => (r, Failing err)
      end
  | Applying entry =>
      match applyCommitted_execute r entry with
      | (r, Some err) => (r, Failing err)
      | (r, None) => (r, Completing entry)
      end
  | Completing entry =>
      match applyCommitted_complete r entry with
      | (r, Some err) => (r, Failing err)
      | (r, None) => (r, Waiting)
      end
  | Failing err => (recordApplyFailure r err, Stopped)
  | Stopped => (r, Stopped)
  | Choosing =>
      match maybeSnapshot_choose r with
      | NoSnapshot => (r, Reporting None)
      | ChoiceFailed err => (r, Reporting (Some err))
      | TakeSnapshot lastIncludedIndex lastIncludedTerm _ =>
          (r, Saving lastIncludedIndex lastIncludedTerm)
      end
  | Saving lastIncludedIndex lastIncludedTerm =>
      match sm_Snapshot (machine r), snapshotStore r with
      | Ok data, Some store =>
          match saveSnapshot r store
                  (mkSnapshot lastIncludedIndex lastIncludedTerm data) with
          | (r, Some err) => (r, Reporting (Some (Wrapf "persist snapshot at index %d" err)))
          | (r, None) => (r, Publishing lastIncludedIndex lastIncludedTerm)
          end
      | Err err, _ =>
          (r, Reporting (Some (Wrapf "serialize state-machine snapshot at index %d" err)))
      | _, None => (r, Reporting None)
      end
  | Publishing lastIncludedIndex lastIncludedTerm =>
      let '(r, err) := maybeSnapshot_publish r lastIncludedIndex lastIncludedTerm in
      (r, Reporting err)
  | Reporting (Some err) => (recordSnapshotFailure r err, Waiting)
  | Reporting None => (clearSnapshotFailure r, Waiting)
  end.

(** ** Hosts *)

(** The election a host waits for: its term, the votes counted, and the peers
    that have not answered. *)
Record Ballot := mkBallot {
  b_term : Z;
  b_votes : Z;
  b_waiting : gset Z;
}.

Record Host := mkHost {
  node : Raft;
  worker : Worker;
  ballot : option Ballot;
}.

Definition opens r (outcome : option (option RequestVoteRequest)) : option Ballot :=
  match outcome with
  | Some (Some req) => Some (mkBallot (rv_Term req) 1 (list_to_set (ID <$> peers r)))
  | _ => None
  end.

Definition asks r (outcome : option (option RequestVoteRequest)) : list Message :=
  match outcome with
  | Some (Some req) => (λ p, MVote (ID p) req) <$> peers r
  | _ => []
  end.

Definition loads (n p : Z) (metadata : SnapshotMetadata) (term : Z) (res : Fallible Snapshot) :
    list Message :=
  match res with Ok stored => [MConfirm n p metadata term stored] | Err _ => [] end.

(** An install that failed and has left the durable log and the durable commit
    index as they were: the process may run on. *)
Definition given_up r r' : Prop :=
  log_entries (logStore r') = log_entries (logStore r) ∧
  CommitIndex (stable_state (stable r')) ≤ CommitIndex (stable_state (stable r)).

(** What host [n] may do next, given the messages on the network, and what it
    sends.  A request reaches its handler through the conversions of the wire.
    An install that failed after it has cut the log, or may have recorded its
    commit index, takes the process down ([hs_install_restart]): the code lets
    it run on, and no guarantee is left then ([refused_snapshot_installed]). *)
Inductive host_step (n : Z) (net : list Message) : Host → Host → list Message → Prop :=
| hs_campaign r r' w b outcome :
    room r → startElection_begin r = (r', outcome) →
    host_step n net (mkHost r w b) (mkHost r' w (opens r outcome)) (asks r outcome)
| hs_vote r r' w b req resp :
    MVote n req ∈ net → Server_RequestVote r (requestVoteToProto req) = (r', Ok resp) →
    host_step n net (mkHost r w b) (mkHost r' w b)
      [MVoted n req (requestVoteResponseFromProto resp)]
| hs_voted r r' w b from req resp outcome :
    MVoted from req resp ∈ net → rv_CandidateID req = n → rv_Term req = b_term b →
    from ∈ b_waiting b → room r → countVote r (b_term b) (b_votes b) resp = (r', outcome) →
    host_step n net (mkHost r w (Some b))
      (mkHost r' w ((λ v, mkBallot (b_term b) v (b_waiting b ∖ {[from]})) <$> outcome)) []
| hs_election_over r w b : host_step n net (mkHost r w b) (mkHost r w None) []
| hs_propose r r' w b command res :
    room r → command_fits r command → Propose r command = (r', res) →
    host_step n net (mkHost r w b) (mkHost r' w b) []
| hs_received r r' w b :
    r' = r <| resetElection := false |> ∨ r' = r <| replicateNow := false |> ∨
    r' = r <| applyNow := false |> →
    host_step n net (mkHost r w b) (mkHost r' w b) []
| hs_begin_replication r r' w b p ok :
    beginReplication r p = (r', ok) → host_step n net (mkHost r w b) (mkHost r' w b) []
| hs_end_replication r w b p :
    host_step n net (mkHost r w b) (mkHost (endReplication r p) w b) []
| hs_send_append r w b p req :
    buildAppendEntries r p = Some req →
    host_step n net (mkHost r w b) (mkHost r w b) [MAppend p req]
| hs_append r r' w b req resp :
    MAppend n req ∈ net → Server_AppendEntries r (appendEntriesToProto req) = (r', Ok resp) →
    host_step n net (mkHost r w b) (mkHost r' w b)
      [MAppended n req (appendEntriesResponseFromProto resp)]
| hs_appended r r' w b from req resp retry :
    MAppended from req resp ∈ net → ae_LeaderID req = n →
    handleAppendEntriesResponse r from req resp = (r', retry) →
    host_step n net (mkHost r w b) (mkHost r' w b) []
| hs_install_needed r w b p metadata term :
    snapshotNeeded r p = Some (metadata, term) →
    host_step n net (mkHost r w b) (mkHost r w b) [MLoad n p metadata term]
| hs_install_load r r' w b p metadata term res :
    MLoad n p metadata term ∈ net → loadForInstall r metadata = (r', res) →
    host_step n net (mkHost r w b) (mkHost r' w b) (loads n p metadata term res)
| hs_install_confirm r w b p metadata term stored req :
    MConfirm n p metadata term stored ∈ net →
    confirmInstall r p metadata term stored = Some req →
    host_step n net (mkHost r w b) (mkHost r w b) [MInstall p req]
| hs_install r r' w b req resp :
    MInstall n req ∈ net → snapshotting w = false →
    Server_InstallSnapshot r (installSnapshotToProto req) = (r', Ok resp) →
    host_step n net (mkHost r w b) (mkHost r' w b)
      [MInstalled n req (installSnapshotResponseFromProto resp)]
| hs_install_failed r r' w b req err :
    MInstall n req ∈ net → snapshotting w = false →
    Server_InstallSnapshot r (installSnapshotToProto req) = (r', Err err) → given_up r r' →
    host_step n net (mkHost r w b) (mkHost r' w b) []
| hs_install_restart r r1 r' w b req err cfg m ap ns :
    MInstall n req ∈ net → snapshotting w = false →
    Server_InstallSnapshot r (installSnapshotToProto req) = (r1, Err err) →
    snapshotStore r1 = Some ns → CurrentTerm (stable_state (stable r1)) < 2 ^ 64 →
    ID (Self cfg) = id r → Peers cfg = peers r → sm_inv m →
    NewWithSnapshot cfg (stable r1) (logStore r1) m ap ns = Ok r' →
    host_step n net (mkHost r w b) (mkHost r' Waiting None) []
| hs_installed r r' w b from req resp retry :
    MInstalled from req resp ∈ net → is_LeaderID req = n →
    handleInstallSnapshotResponse r from req resp = (r', retry) →
    host_step n net (mkHost r w b) (mkHost r' w b) []
| hs_apply r r' w w' b :
    applyStep r w = (r', w') → host_step n net (mkHost r w b) (mkHost r' w' b) []
| hs_restart r r' w b cfg m ap ns :
    snapshotStore r = Some ns → CurrentTerm (stable_state (stable r)) < 2 ^ 64 →
    ID (Self cfg) = id r → Peers cfg = peers r → sm_inv m →
    NewWithSnapshot cfg (stable r) (logStore r) m ap ns = Ok r' →
    host_step n net (mkHost r w b) (mkHost r' Waiting None) [].

(** ** The system *)

Record Cluster := mkCluster {
  hosts : gmap Z Host;
  network : list Message;
}.

Inductive cluster_step (c : Cluster) : Cluster → Prop :=
| step_host n h h' sent :
    hosts c !! n = Some h → host_step n (network c) h h' sent →
    cluster_step c (mkCluster (<[n := h']> (hosts c)) (sent ++ network c)).

(** A node that was never started before: nothing durable. *)
Record fresh (members : list Z) (n : Z) r : Prop := {
  fr_ok : node_ok r;
  fr_id : id r = n ∧ members ≡ₚ id r :: (ID <$> peers r);
  fr_role : state r = Follower ∧ currentTerm r = 0 ∧ votedFor r = NoVote;
  fr_log : log r = [] ∧ snapshotMeta r = mkMeta 0 0 ∧ commitIndex r = 0 ∧ lastApplied r = 0;
  fr_stable : stable_state (stable r) = mkStableState 0 NoVote 0 0;
  fr_snapshot : ∃ ns, snapshotStore r = Some ns ∧ snap_stored ns = None;
}.

(** A new cluster, whose members have identifiers the wire can carry: the
    conversions cut them to 32 bits. *)
Record cluster_start (members : list Z) (c : Cluster) : Prop := {
  st_wire : Forall is_i32 members;
  st_network : network c = [];
  st_hosts n h : hosts c !! n = Some h →
    fresh members n (node h) ∧ worker h = Waiting ∧ ballot h = None;
}.

Definition reachable (members : list Z) (c : Cluster) : Prop :=
  ∃ c0, cluster_start members c0 ∧ rtc cluster_step c0 c.
End Cluster.
Arguments Host SS LS SM NS : clear implicits.
Arguments Cluster SS LS SM NS : clear implicits.
