(* ===== verification/ClusterFacts.v ===== *)
(** * The cluster refines the protocol

    Every step of a host keeps it linked to the abstract protocol, and keeps
    true what the messages on the network say. *)

From S2P Require Import Prelude.
From S2P Require Import Log.
From S2P Require Import Config.
From S2P Require Import Stores.
From S2P Require Import RaftState.
From S2P Require Import RaftElection.
From S2P Require Import RaftReplication.
From S2P Require Import RaftApply.
From S2P Require Import RaftSnapshot.
From S2P Require Import RaftRecovery.
From S2P Require Import RaftInvariant.
From S2P Require Import ElectionFacts.
From S2P Require Import ReplicationFacts.
From S2P Require Import ApplyFacts.
From S2P Require Import SnapshotFacts.
From S2P Require Import RecoveryFacts.
From S2P Require Import InstallFacts.
From S2P Require Import Transport.
From S2P Require Import RaftNode.
From S2P Require Import Untouched.
From S2P Require Import Protocol.
From S2P Require Import FullLog.
From S2P Require Import Member.
From S2P Require Import MemberLog.
From S2P Require Import MemberSnapshot.
From S2P Require Import Cluster.

Section ClusterFacts.
Context {SS LS SM NS : Type}
  `{StableStoreLaws SS} `{LogStoreLaws LS} `{StateMachineLaws SM} `{SnapshotStoreLaws NS}.
Abbreviation Raft := (Raft SS LS SM NS).
Abbreviation Host := (Host SS LS SM NS).
Abbreviation Cluster := (Cluster SS LS SM NS).
Implicit Types (r : Raft) (h : Host) (s : PState).

Context (members : list Z) (Hmembers : NoDup members).
Abbreviation p_inv := (p_inv members).
Abbreviation moves := (moves members).
Abbreviation linked := (linked members).

(** ** What holds of a host, and of a message *)

Definition worker_ok r (w : Worker) : Prop :=
  match w with
  | Applying e | Completing e => Index e ≤ commitIndex r
  | Saving i t => base r ≤ i ≤ lastApplied r ∧ term_of r i = Some t
  | Publishing i t => base r ≤ i ≤ lastApplied r ∧ term_of r i = Some t ∧
      ∃ ns sn, snapshotStore r = Some ns ∧ snap_stored ns = Some sn ∧
        s_LastIncludedIndex sn = i ∧ s_LastIncludedTerm sn = t
  | _ => True
  end.

Definition ballot_ok s (n : Z) (o : option Ballot) : Prop :=
  ∀ b, o = Some b →
    polled members s n (b_term b) (b_votes b) (b_waiting b) ∧ b_waiting b ⊆ list_to_set members.

Record host_ok s (n : Z) h : Prop := {
  ho_linked : linked s n (node h);
  ho_worker : worker_ok (node h) (worker h);
  ho_ballot : ballot_ok s n (ballot h);
}.

Definition msg_ok s (m : Message) : Prop :=
  match m with
  | MVote _ req => is_i32 (rv_CandidateID req) ∧ vote_request_ok s req
  | MVoted from req resp =>
      rvr_Term resp < 2 ^ 64 ∧
      (rvr_VoteGranted resp = true → (from, rv_Term req, rv_CandidateID req) ∈ p_votes s)
  | MAppend _ req => is_i32 (ae_LeaderID req) ∧ append_request_ok members s req
  | MAppended from req resp =>
      append_request_ok members s req ∧ aer_Term resp < 2 ^ 64 ∧
      (aer_Success resp = true → aer_Term resp = ae_Term req →
       ∀ j, (j ≤ Z.to_nat (ae_PrevLogIndex req) + length (ae_Entries req))%nat →
         (from, ae_Term req, j) ∈ p_acks s)
  | MInstall _ req => is_i32 (is_LeaderID req) ∧ install_request_ok members s req
  | MInstalled from req resp =>
      isr_Term resp < 2 ^ 64 ∧
      (isr_Term resp = is_Term req →
       ∀ j, (j ≤ Z.to_nat (is_LastIncludedIndex req))%nat → (from, is_Term req, j) ∈ p_acks s)
  | MLoad _ _ _ _ | MConfirm _ _ _ _ _ => True
  end.

Lemma msg_ok_moves n s s' m : p_inv s → moves n s s' → msg_ok s m → msg_ok s' m.
Proof.
  intros Hi Hm. pose proof (mv_by _ _ _ _ Hm) as Hb. pose proof (bn_votes _ _ _ Hb) as Hv.
  pose proof (bn_acks _ _ _ Hb) as Ha. destruct m; simpl.
  - intros (? & C & HC & Hr). split; [done|]. exists C. split; [by apply (bn_cand _ _ _ Hb)|done].
  - intros [? Hg]. split; [done|]. auto.
  - intros [? Hr]. split; [done|]. by eapply append_request_ok_moves.
  - intros (? & ? & Hg). split_and!; [by eapply append_request_ok_moves|done|]. auto.
  - intros [? Hr]. split; [done|]. by eapply install_request_ok_moves.
  - intros [? Hg]. split; [done|]. auto.
  - done.
  - done.
Qed.

Lemma ballot_ok_moves n' s s' n o : moves n' s s' → ballot_ok s n o → ballot_ok s' n o.
Proof.
  intros Hm Hb b Ho. destruct (Hb b Ho). split; [|done]. by eapply polled_moves.
Qed.

Lemma host_ok_other n' s s' n h : p_inv s → moves n' s s' → n ≠ n' → host_ok s n h → host_ok s' n h.
Proof.
  intros Hi Hm Hne []. constructor; [by eapply linked_other|done|by eapply ballot_ok_moves].
Qed.

(** ** The apply goroutine *)

Lemma worker_evolves r r' w :
  snapshotting w = false → evolves r r' → worker_ok r w → worker_ok r' w.
Proof.
  intros Hw [_ Hadv] Hok. pose proof (adv_commit _ _ Hadv). destruct w; try done; simpl in *; lia.
Qed.

Lemma worker_frozen r r' w :
  node_ok r → evolves r r' → frozen r r' → worker_ok r w → worker_ok r' w.
Proof.
  intros Hok Hev (Hm & Hst & _) Hw. destruct (snapshotting w) eqn:Hsn; [|by eapply worker_evolves].
  pose proof (proj2 Hev) as Hadv. pose proof (adv_applied _ _ Hadv). pose proof (ok_applied _ Hok).
  assert (base r' = base r ∧ baseTerm r' = baseTerm r) as [Hb Hbt] by (unfold base, baseTerm; by rewrite Hm).
  assert (∀ i, base r ≤ i ≤ lastApplied r → term_of r' i = term_of r i) as Hterm.
  { intros i Hi. unfold term_of. rewrite Hb, Hbt. case_decide; [done|].
    rewrite (adv_committed _ _ Hadv); [done|lia]. }
  destruct w; try done; simpl in *; rewrite Hb.
  - destruct Hw as [Hr Ht]. rewrite Hterm by done. split; [lia|done].
  - destruct Hw as (Hr & Ht & ns & sn & Hns & Hsn' & Hrest). rewrite Hterm by done.
    split_and!; [lia|lia|done|]. rewrite Hns in Hst.
    destruct (snapshotStore r') as [ns'|]; [|done]. injection Hst as Hst.
    exists ns', sn. rewrite Hst. done.
Qed.

Lemma worker_boundary s n r i t :
  linked s n r → base r ≤ i ≤ lastApplied r → term_of r i = Some t →
  boundary_ok (p_log s n) r i t.
Proof.
  intros Hlk Hr Ht. apply (holds_term_of_Some (p_log s n)) in Ht as [? Hf]; [|apply Hlk].
  split; [lia|done].
Qed.

Lemma applyStep_ok s n r w r' w' :
  p_inv s → linked s n r → worker_ok r w → applyStep r w = (r', w') →
  linked s n r' ∧ worker_ok r' w' ∧ evolves r r'.
Proof.
  intros Hi Hlk Hw Hst. pose proof (lk_ok _ _ _ _ Hlk) as Hok.
  pose proof (evolves_refl _ Hok) as Hrefl. destruct w; simpl in Hst.
  - pose proof (fetch_spec _ Hok) as Hf. destruct (applyCommitted_fetch r) as [|e|e];
      injection Hst as <- <-; split_and!; try done.
    simpl. lia.
  - destruct (applyCommitted_execute r entry) as [r1 err] eqn:He.
    pose proof (execute_linked _ _ _ _ _ _ _ Hi Hlk He) as Hlk1.
    apply execute_spec in He as (Hev & _ & _ & Hc & _); [|done].
    destruct err; injection Hst as <- <-; split_and!; try done. simpl in *. by rewrite Hc.
  - destruct (applyCommitted_complete r entry) as [r1 err] eqn:Hc.
    pose proof (complete_linked _ _ _ _ _ _ _ Hi Hlk Hw Hc) as Hlk1.
    pose proof (complete_evolves _ _ _ _ Hok Hw Hc) as Hev.
    destruct err; injection Hst as <- <-; by split_and!.
  - injection Hst as <- <-. pose proof (recordApplyFailure_core r err) as Hc.
    split_and!; [|done|by apply same_core_evolves].
    apply (linked_core members s n r); [done..|]. left. unfold recordApplyFailure. by destruct (applyErr r).
  - injection Hst as <- <-. by split_and!.
  - destruct (maybeSnapshot_choose r) as [|i t ns|e] eqn:Hc; injection Hst as <- <-;
      (split; [done|]; split; [|done]); [done| |done].
    apply maybeSnapshot_choose_spec in Hc as (-> & Ht & _); [|done].
    pose proof (ok_applied _ Hok). split; [lia|done].
  - destruct Hw as [Hr Ht].
    destruct (sm_Snapshot (machine r)) as [data|e]; [|injection Hst as <- <-; by split_and!].
    destruct (snapshotStore r) as [ns|] eqn:Hns; [|injection Hst as <- <-; by split_and!].
    destruct (saveSnapshot _ _ _) as [r1 err] eqn:Hs. pose proof Hs as Hspec.
    apply saveSnapshot_spec in Hspec as [Hev _]; [|done|done|simpl; lia|].
    2: { simpl. intros ->. unfold term_of in Ht. rewrite decide_True in Ht by done. congruence. }
    apply (saveSnapshot_linked members s n) in Hs as (Hlk1 & ns' & -> & _ & Hsn);
      [|done..|by apply worker_boundary|simpl; lia].
    destruct err; injection Hst as <- <-; (split; [done|]; split; [|done]); [done|].
    specialize (Hsn eq_refl). split; [done|]. split; [done|]. by eexists ns', _.
  - destruct Hw as (Hr & Ht & ns & sn & Hns & Hsn & Hsi & Hstt).
    destruct (maybeSnapshot_publish _ _ _) as [r1 err] eqn:Hp. injection Hst as <- <-.
    pose proof (ok_snapshot _ Hok) as Hcov. unfold snapshot_covers in Hcov. rewrite Hns in Hcov.
    pose proof Hp as Hspec.
    eapply maybeSnapshot_publish_spec in Hspec as [Hev _];
      [|exact Hok|exact Hns|apply Hcov|exact Hsn|done|done].
    eapply (publish_linked members s n) in Hp; [|done|done|by apply worker_boundary|done..].
    by split_and!.
  - destruct err; injection Hst as <- <-; (split_and!; [|done|by apply same_core_evolves]);
      (apply (linked_core members s n r); [done..|by left]).
Qed.

(** ** One step of a host *)

Definition host_advances s (n : Z) h h' (sent : list Message) : Prop :=
  ∃ s', moves n s s' ∧ host_ok s' n h' ∧ (∀ m, m ∈ sent → msg_ok s' m) ∧
    evolves (node h) (node h').

(** A section that is not the apply loop's, an install or a restart. *)
Lemma frozen_advances s n r r' w b b' sent :
  host_ok s n (mkHost r w b) → evolves r r' → frozen r r' →
  (∃ s', moves n s s' ∧ linked s' n r' ∧ ballot_ok s' n b' ∧ ∀ m, m ∈ sent → msg_ok s' m) →
  host_advances s n (mkHost r w b) (mkHost r' w b') sent.
Proof.
  intros [Hlk Hw _] Hev Hf (s' & Hm & Hlk' & Hb & Hs). exists s'. split_and!; [done| |done|apply Hev..].
  constructor; [done| |done]. eapply worker_frozen; [apply Hlk|done..].
Qed.

(** Bookkeeping. *)
Lemma core_advances s n r r' w b :
  p_inv s → host_ok s n (mkHost r w b) → same_core r r' → state r' = state r →
  matchIndex r' = matchIndex r → host_advances s n (mkHost r w b) (mkHost r' w b) [].
Proof.
  intros Hi Hh Hc Hs Hm. pose proof Hh as [Hlk _ Hb].
  apply frozen_advances; [done|by apply same_core_evolves; [|apply Hlk]| |].
  - destruct Hc. split; [done|]. by rewrite sc_snapshotStore.
  - exists s. split_and!; [by apply moves_refl|by apply (linked_core members s n r); [..|left]|done|].
    intros m []%not_elem_of_nil.
Qed.

(** A member's identifier fits the wire. *)
Lemma linked_wire s n r : Forall is_i32 members → linked s n r → is_i32 n.
Proof.
  intros Hw Hlk. rewrite Forall_forall in Hw. apply Hw.
  rewrite (lk_peers _ _ _ _ Hlk), (lk_id _ _ _ _ Hlk). apply list_elem_of_here.
Qed.

Lemma campaign_advances s n r r' w b outcome :
  Forall is_i32 members → p_inv s → host_ok s n (mkHost r w b) → room r → startElection_begin r = (r', outcome) →
  host_advances s n (mkHost r w b) (mkHost r' w (opens r outcome)) (asks r outcome).
Proof using Hmembers.
  intros Hwire Hi Hh [Hr1 Hr2] Hse. pose proof Hh as [Hlk _ _]. cbn in Hlk.
  pose proof (startElection_begin_linked members Hmembers s n r r' outcome Hi Hlk Hr1 Hr2 Hse)
    as (s' & Hm & Hlk' & Hreq).
  apply frozen_advances; [done|eapply startElection_begin_evolves; [apply Hlk|done..]|
    by eapply startElection_begin_frozen|].
  exists s'. split_and!; [done..| |].
  - intros bl Hb. destruct outcome as [[req|]|]; try done. injection Hb as <-. simpl.
    destruct (Hreq req eq_refl) as (_ & _ & Hpoll). split; [done|].
    rewrite (lk_peers _ _ _ _ Hlk). set_solver.
  - intros m Hin. destruct outcome as [[req|]|]; [|by apply elem_of_nil in Hin..].
    apply list_elem_of_fmap in Hin as (p & -> & _). destruct (Hreq req eq_refl) as (? & Hc & _).
    split; [|done]. rewrite Hc. by eapply linked_wire.
Qed.

Lemma voted_advances s n r r' w b from req resp outcome :
  p_inv s → host_ok s n (mkHost r w (Some b)) → msg_ok s (MVoted from req resp) →
  rv_CandidateID req = n → rv_Term req = b_term b → from ∈ b_waiting b → room r →
  countVote r (b_term b) (b_votes b) resp = (r', outcome) →
  host_advances s n (mkHost r w (Some b))
    (mkHost r' w ((λ v, mkBallot (b_term b) v (b_waiting b ∖ {[from]})) <$> outcome)) [].
Proof using Hmembers.
  intros Hi Hh [Hrt Hg] Hc Ht Hw [_ Hr2] Hcv. pose proof Hh as [Hlk _ Hb]. cbn in Hlk, Hb.
  destruct (Hb b eq_refl) as [Hpoll Hsub].
  destruct (countVote_linked members Hmembers s n r (b_term b) (b_votes b) from (b_waiting b) resp r' outcome)
    as (s' & Hm & Hlk' & Hpoll'); try done; [set_solver|by rewrite <- Ht, <- Hc|].
  apply frozen_advances; [done|eapply countVote_evolves; [apply Hlk|done..]|by eapply countVote_frozen|].
  exists s'. split_and!; [done..| |intros m []%not_elem_of_nil].
  intros b' Hb'. destruct outcome as [v|]; [|done]. injection Hb' as <-. simpl.
  split; [by apply Hpoll'|set_solver].
Qed.

Lemma replied_advances s n r r' w b sent :
  p_inv s → host_ok s n (mkHost r w b) → evolves r r' → frozen r r' →
  (∃ s', moves n s s' ∧ linked s' n r' ∧ ∀ m, m ∈ sent → msg_ok s' m) →
  host_advances s n (mkHost r w b) (mkHost r' w b) sent.
Proof.
  intros Hi Hh Hev Hf (s' & Hm & Hlk' & Hs). apply frozen_advances; [done..|].
  exists s'. split_and!; [done..| |done]. eapply ballot_ok_moves; [done|apply Hh].
Qed.

Lemma vote_advances s n r r' w b req resp :
  p_inv s → host_ok s n (mkHost r w b) → msg_ok s (MVote n req) →
  Server_RequestVote r (requestVoteToProto req) = (r', Ok resp) →
  host_advances s n (mkHost r w b) (mkHost r' w b) [MVoted n req (requestVoteResponseFromProto resp)].
Proof.
  intros Hi Hh [Hid Hmsg] Hs. destruct (Server_RequestVote_served r req Hid) as [Hs' Hresp].
  rewrite Hs' in Hs. injection Hs as Hr <-. rewrite Hresp. clear Hs' Hresp.
  destruct (HandleRequestVote r req) as [r1 resp] eqn:He. simpl in Hr |- *. subst r1. pose proof (ho_linked _ _ _ Hh) as Hlk. cbn in Hlk.
  destruct (HandleRequestVote_frozen _ _ _ _ He) as [Hf Hrt].
  destruct (HandleRequestVote_linked members s n r req r' resp Hi Hlk Hmsg He) as (s' & Hm & Hlk' & Hg).
  apply replied_advances; [done..| |done|].
  { eapply HandleRequestVote_evolves; [apply Hlk| |done]. by destruct Hmsg as (? & _ & _ & _ & _ & ?). }
  exists s'. split_and!; [done..|]. intros m ->%list_elem_of_singleton. simpl.
  rewrite Hrt. split; [apply (ok_term _ (lk_ok _ _ _ _ Hlk'))|]. intros E. by apply Hg.
Qed.

Lemma append_advances s n r r' w b req resp :
  p_inv s → host_ok s n (mkHost r w b) → msg_ok s (MAppend n req) →
  Server_AppendEntries r (appendEntriesToProto req) = (r', Ok resp) →
  host_advances s n (mkHost r w b) (mkHost r' w b) [MAppended n req (appendEntriesResponseFromProto resp)].
Proof using Hmembers.
  intros Hi Hh [Hid Hmsg] Hs. pose proof Hmsg as (_ & _ & Hrq & _).
  destruct (Server_AppendEntries_served r req Hid (rq_valid _ Hrq)) as [Hs' Hresp].
  rewrite Hs' in Hs. injection Hs as Hr <-. rewrite Hresp. clear Hs' Hresp.
  destruct (HandleAppendEntries r req) as [r1 resp] eqn:He. simpl in Hr |- *. subst r1. pose proof (ho_linked _ _ _ Hh) as Hlk. cbn in Hlk.
  destruct (HandleAppendEntries_frozen _ _ _ _ He) as [Hf Hrt].
  destruct (HandleAppendEntries_linked members s n r req r' resp Hmembers Hi Hlk Hmsg He)
    as (s' & Hm & Hlk' & Hack).
  apply replied_advances; [done..| |done|].
  { eapply HandleAppendEntries_spec; [apply Hlk|done..]. }
  exists s'. split_and!; [done..|]. intros m ->%list_elem_of_singleton. simpl.
  rewrite Hrt in *. split_and!; [by eapply append_request_ok_moves| |done].
  apply (ok_term _ (lk_ok _ _ _ _ Hlk')).
Qed.

Lemma install_advances s n r r' w b req resp :
  p_inv s → host_ok s n (mkHost r w b) → msg_ok s (MInstall n req) →
  snapshotting w = false → Server_InstallSnapshot r (installSnapshotToProto req) = (r', Ok resp) →
  host_advances s n (mkHost r w b) (mkHost r' w b) [MInstalled n req (installSnapshotResponseFromProto resp)].
Proof using Hmembers.
  intros Hi Hh [Hid Hmsg] Hw Hs.
  apply Server_InstallSnapshot_served in Hs as (resp1 & err & He & Hres); [|done].
  destruct err; [done|]. destruct Hres as [[= ->] ->]. rename resp1 into resp. pose proof (ho_linked _ _ _ Hh) as Hlk. cbn in Hlk.
  destruct (HandleInstallSnapshot_linked members s n r req r' resp Hmembers Hi Hlk Hmsg He)
    as (Hag & s' & Hm & Hlk' & Hack).
  destruct Hmsg as (L & HL & Hb & Hq & _). pose proof (lead_positive _ _ _ _ _ Hi HL).
  pose proof He as Hev. apply HandleInstallSnapshot_evolves in Hev; [|apply Hlk|lia|lia|done].
  apply HandleInstallSnapshot_spec in He as [Hrt _]; [|apply Hlk|lia|lia].
  exists s'. split_and!; [done| | |apply Hev..].
  - constructor; [done| |eapply ballot_ok_moves; [done|apply Hh]].
    by eapply worker_evolves; [|done|apply Hh].
  - intros m ->%list_elem_of_singleton. simpl. split; [|done].
    rewrite Hrt. apply (ok_term _ (lk_ok _ _ _ _ Hlk')).
Qed.

(** One that fails: the node goes on from what it had, or starts again. *)
Lemma failed_install_advances s n r r' w b req err :
  p_inv s → host_ok s n (mkHost r w b) → msg_ok s (MInstall n req) → snapshotting w = false →
  Server_InstallSnapshot r (installSnapshotToProto req) = (r', Err err) → given_up r r' →
  host_advances s n (mkHost r w b) (mkHost r' w b) [].
Proof using Hmembers.
  intros Hi Hh [Hid Hmsg] Hw Hs [Hes Hd]. pose proof (ho_linked _ _ _ Hh) as Hlk. cbn in Hlk.
  apply Server_InstallSnapshot_served in Hs as (resp & e & He & Hres); [|done].
  destruct e as [e|]; [|by destruct Hres].
  destruct (given_up_linked members s n r req r' resp e Hmembers Hi Hlk Hmsg He Hes Hd)
    as (s' & Hm & Hlk').
  pose proof (known_install_agrees members s n r req Hmembers Hi Hlk Hmsg) as Hag.
  destruct Hmsg as (L & HL & Hb & Hq & _). pose proof (lead_positive _ _ _ _ _ Hi HL).
  pose proof He as Hev. apply HandleInstallSnapshot_keeps in Hev; [|apply Hlk|lia|lia|done|by right].
  exists s'. split_and!; [done| |intros m []%not_elem_of_nil|apply Hev..].
  constructor; [done| |eapply ballot_ok_moves; [done|apply Hh]].
  by eapply worker_evolves; [|done|apply Hh].
Qed.

Lemma restarted_advances s n r r' w b :
  evolves r r' → (∃ s', moves n s s' ∧ linked s' n r') →
  host_advances s n (mkHost r w b) (mkHost r' Waiting None) [].
Proof.
  intros Hev (s' & Hm & Hlk'). exists s'. split_and!; [done|by constructor| |apply Hev..].
  intros m' []%not_elem_of_nil.
Qed.

Lemma install_restart_advances s n r r1 r' w b req err cfg m ap ns :
  p_inv s → host_ok s n (mkHost r w b) → msg_ok s (MInstall n req) →
  Server_InstallSnapshot r (installSnapshotToProto req) = (r1, Err err) →
  snapshotStore r1 = Some ns → CurrentTerm (stable_state (stable r1)) < 2 ^ 64 →
  ID (Self cfg) = id r → Peers cfg = peers r → sm_inv m →
  NewWithSnapshot cfg (stable r1) (logStore r1) m ap ns = Ok r' →
  host_advances s n (mkHost r w b) (mkHost r' Waiting None) [].
Proof using Hmembers.
  intros Hi Hh [Hid Hmsg] Hs Hns Htb Hcid Hps Hsm Hnew. pose proof (ho_linked _ _ _ Hh) as Hlk.
  apply Server_InstallSnapshot_served in Hs as (resp & e & He & Hres); [|done].
  destruct e as [e|]; [|by destruct Hres].
  destruct (install_restart_linked members s n r req r1 resp e cfg m ap ns r' Hmembers Hi Hlk Hmsg He
    Hns Htb Hcid Hps Hsm Hnew). by apply restarted_advances.
Qed.

Lemma sent_advances s n r r' w b sent :
  p_inv s → host_ok s n (mkHost r w b) → linked s n r' → evolves r r' → frozen r r' →
  (∀ m, m ∈ sent → msg_ok s m) → host_advances s n (mkHost r w b) (mkHost r' w b) sent.
Proof.
  intros Hi Hh Hlk' Hev Hf Hs. apply replied_advances; [done..|].
  exists s. split_and!; [by apply moves_refl|done..].
Qed.

Lemma silent_advances s n r r' w b :
  p_inv s → host_ok s n (mkHost r w b) → evolves r r' → frozen r r' →
  (∃ s', moves n s s' ∧ linked s' n r') → host_advances s n (mkHost r w b) (mkHost r' w b) [].
Proof.
  intros Hi Hh Hev Hf (s' & Hm & Hlk'). apply replied_advances; [done..|].
  exists s'. split_and!; [done..|intros m []%not_elem_of_nil].
Qed.

Lemma host_step_advances s n net h h' sent :
  Forall is_i32 members → p_inv s → host_ok s n h → (∀ m, m ∈ net → msg_ok s m) → host_step n net h h' sent →
  host_advances s n h h' sent.
Proof using Hmembers.
  intros Hwire Hi Hh Hnet Hst. pose proof (ho_linked _ _ _ Hh) as Hlk. pose proof (lk_ok _ _ _ _ Hlk) as Hok.
  destruct Hst as [r r' w b o Hr He|r r' w b req resp Hin He|r r' w b from req resp o Hin Hc Ht Hw Hr He
    |r w b|r r' w b cmd res Hr Hf He|r r' w b Hsig|r r' w b p ok He|r w b p|r w b p req He
    |r r' w b req resp Hin He|r r' w b from req resp retry Hin Hid He|r w b p meta term He
    |r r' w b p meta term res Hin He|r w b p meta term stored req Hin He
    |r r' w b req resp Hin Hw He|r r' w b req err Hin Hw He Hgu
    |r r1 r' w b req err cfg m ap ns Hin Hw He Hns Htb Hcid Hps Hsm Hnew
    |r r' w b from req resp retry Hin Hid He|r r' w w' b He
    |r r' w b cfg m ap ns Hns Htb Hcid Hps Hsm He]; cbn in Hlk, Hok;
    try (pose proof (Hnet _ Hin) as Hmsg).
  - by apply campaign_advances.
  - by apply vote_advances.
  - by eapply voted_advances.
  - apply frozen_advances; [done|by apply evolves_refl|done|]. exists s.
    split_and!; [by apply moves_refl|done|done|intros m []%not_elem_of_nil].
  - apply silent_advances; [done..|eapply Propose_evolves; [done|apply Hr|done..]|by eapply Propose_frozen|].
    exact (Propose_linked members s n r cmd r' res Hi Hlk (proj2 Hr) Hf He).
  - apply core_advances; [done..| | |]; by destruct Hsig as [-> | [-> | ->]].
  - apply core_advances; [done..| | |]; revert He; unfold beginReplication; case_decide;
      by intros [= <- <-].
  - by apply core_advances.
  - apply sent_advances; [done..|by apply evolves_refl|done|].
    intros m ->%list_elem_of_singleton. simpl.
    destruct (buildAppendEntries_linked members s n r p req Hlk He) as [? ->].
    split; [by eapply linked_wire|done].
  - by apply append_advances.
  - destruct Hmsg as (Hreq & Hrt & Hack).
    apply silent_advances; [done..|by eapply handleAppendEntriesResponse_evolves|
      by eapply handleAppendEntriesResponse_frozen|by eapply handleAppendEntriesResponse_linked].
  - apply sent_advances; [done..|by apply evolves_refl|done|]. by intros m ->%list_elem_of_singleton.
  - apply sent_advances; [done..|by eapply (loadForInstall_linked members s n r)|
      by eapply loadForInstall_spec|by eapply loadForInstall_frozen|]. intros m Hm.
    destruct res; [by apply list_elem_of_singleton in Hm as ->|by apply elem_of_nil in Hm].
  - apply sent_advances; [done..|by apply evolves_refl|done|].
    intros m ->%list_elem_of_singleton. simpl.
    destruct (confirmInstall_linked members s n r p meta term stored req Hi Hlk He) as [? ->].
    split; [by eapply linked_wire|done].
  - by apply install_advances.
  - by eapply failed_install_advances.
  - by eapply install_restart_advances.
  - destruct Hmsg as [Hrt Hack].
    apply silent_advances; [done..|by eapply handleInstallSnapshotResponse_evolves|
      by eapply handleInstallSnapshotResponse_frozen|by eapply handleInstallSnapshotResponse_linked].
  - destruct (applyStep_ok s n r w r' w' Hi Hlk (ho_worker _ _ _ Hh) He) as (Hlk' & Hw' & Hev).
    exists s. split_and!; [by apply moves_refl|by constructor; [| |apply Hh]| |apply Hev..].
    intros m []%not_elem_of_nil.
  - destruct (restart_linked members s n r cfg m ap ns r' Hmembers Hi Hlk Hns Htb Hcid Hps Hsm He).
    by apply restarted_advances.
Qed.

(** ** A host's histories are its node's

    What an earlier section or a sender provides is what the sections of
    [RaftNode] ask for. *)

(** Bookkeeping, or a step of the node. *)
Definition lives r r' : Prop := same_core r r' ∨ node_step r r'.

Lemma section_lives r r' : section_step r r' → lives r r'.
Proof. right. by apply step_section. Qed.

Lemma applyStep_lives r w r' w' :
  node_ok r → worker_ok r w → applyStep r w = (r', w') → lives r r'.
Proof.
  intros Hok Hw Hst. destruct w; simpl in Hst.
  - left. by destruct (applyCommitted_fetch r); injection Hst as <- <-.
  - destruct (applyCommitted_execute r entry) as [r1 err] eqn:He. apply section_lives.
    destruct err; injection Hst as <- <-; by eapply step_execute.
  - destruct (applyCommitted_complete r entry) as [r1 err] eqn:He. apply section_lives.
    destruct err; injection Hst as <- <-; by eapply step_complete.
  - injection Hst as <- <-. apply section_lives, step_apply_failure.
  - left. by injection Hst as <- <-.
  - left. by destruct (maybeSnapshot_choose r); injection Hst as <- <-.
  - destruct Hw as [Hr Ht].
    destruct (sm_Snapshot (machine r)) as [data|e]; [|left; by injection Hst as <- <-].
    destruct (snapshotStore r) as [ns|] eqn:Hns; [|left; by injection Hst as <- <-].
    destruct (saveSnapshot _ _ _) as [r1 err] eqn:Hs. apply section_lives.
    destruct err; injection Hst as <- <-; (eapply step_save_snapshot; [exact Hns| | |exact Hs]; [simpl; lia|]);
      simpl; intros ->; unfold term_of in Ht; rewrite decide_True in Ht by done; congruence.
  - destruct Hw as (Hr & Ht & ns & sn & Hns & Hsn & <- & <-).
    destruct (maybeSnapshot_publish _ _ _) as [r1 err] eqn:Hp. injection Hst as <- <-.
    pose proof (ok_snapshot _ Hok) as Hcov. unfold snapshot_covers in Hcov. rewrite Hns in Hcov.
    apply section_lives. eapply step_publish_snapshot; [exact Hns|apply Hcov|exact Hsn|exact Hp].
  - destruct err; injection Hst as <- <-; apply section_lives;
      [apply step_snapshot_failure|apply step_snapshot_success].
Qed.

(** What an install leaves in the snapshot store is no obstacle to a start. *)
Lemma left_snapshot_agrees s n r req r1 resp e ns :
  p_inv s → linked s n r → install_request_ok members s req →
  HandleInstallSnapshot r req = (r1, (resp, Some e)) → snapshotStore r1 = Some ns →
  snap_words (snap_stored ns) ∧ snapshot_agrees r (snap_stored ns).
Proof using Hmembers.
  intros Hi Hlk Hreq Hh Hns. pose proof (lk_ok _ _ _ _ Hlk) as Hok.
  pose proof (known_install_agrees members s n r req Hmembers Hi Hlk Hreq) as Hag.
  destruct Hreq as (L & HL & HT & Hq & _). pose proof (lead_positive _ _ _ _ _ Hi HL).
  apply HandleInstallSnapshot_fails in Hh as (r2 & err & Hrec & Hge & Hcase); [|done|lia|lia].
  apply recognizeLeader_frozen in Hrec as (_ & Hsto & _).
  assert (Some (snap_stored ns) = snap_stored <$> snapshotStore r →
    snap_words (snap_stored ns) ∧ snapshot_agrees r (snap_stored ns)) as Hold.
  { destruct (snapshotStore r) as [ns'|] eqn:Hns'; [|done]. intros [= ->].
    by eapply stored_snapshot_agrees. }
  destruct Hcase as [->|(_ & Hlt & Hab)]; [apply Hold; by rewrite <- Hsto, Hns|].
  destruct Hab as [ns1 ls m ss Hn Hl Hm Hs Hor]. cbn in Hns. injection Hns as ->.
  assert (Some (snap_stored ns) = snap_stored <$> snapshotStore r2 ∨
    snap_stored ns = Some (mkSnapshot (is_LastIncludedIndex req) (is_LastIncludedTerm req)
      (is_Data req))) as [E|E].
  { destruct Hor as [(_ & _ & ?)|(_ & ? & _)]; [done|by right]. }
  { apply Hold. by rewrite E. }
  rewrite E. pose proof (ok_applied _ Hok). destruct (ok_log _ Hok) as [Hb0 _ _ _].
  split; intros sn [= <-]; simpl; unfold base in *; [lia|]. intros Hr.
  specialize (Hag ltac:(lia)). unfold term_of in Hag. by rewrite decide_False in Hag by (unfold base; lia).
Qed.

Lemma install_restart_lives s n r r1 r' req err cfg m ap ns :
  p_inv s → linked s n r → msg_ok s (MInstall n req) →
  Server_InstallSnapshot r (installSnapshotToProto req) = (r1, Err err) →
  snapshotStore r1 = Some ns → CurrentTerm (stable_state (stable r1)) < 2 ^ 64 →
  ID (Self cfg) = id r → Peers cfg = peers r → sm_inv m →
  NewWithSnapshot cfg (stable r1) (logStore r1) m ap ns = Ok r' → node_step r r'.
Proof using Hmembers.
  intros Hi Hlk [Hid Hmsg] Hs Hns Htb Hcid Hps Hsm Hnew.
  apply Server_InstallSnapshot_served in Hs as (resp & e & He & Hres); [|done].
  destruct e as [e|]; [|by destruct Hres].
  destruct (left_snapshot_agrees s n r req r1 resp e ns Hi Hlk Hmsg He Hns) as [Hw Hag].
  pose proof (known_install_agrees members s n r req Hmembers Hi Hlk Hmsg).
  destruct Hmsg as (L & HL & Hb & Hq & _). pose proof (lead_positive _ _ _ _ _ Hi HL).
  eapply (step_install_restart r req); try done; lia.
Qed.

Lemma install_lives s n r r' req result :
  p_inv s → linked s n r → msg_ok s (MInstall n req) →
  Server_InstallSnapshot r (installSnapshotToProto req) = (r', result) →
  (∃ resp, result = Ok resp) ∨ given_up r r' → lives r r'.
Proof using Hmembers.
  intros Hi Hlk [Hid Hmsg] Hs Hor.
  apply Server_InstallSnapshot_served in Hs as (resp & e & He & Hres); [|done].
  pose proof (known_install_agrees members s n r req Hmembers Hi Hlk Hmsg).
  destruct Hmsg as (L & HL & Hb & Hq & _). pose proof (lead_positive _ _ _ _ _ Hi HL).
  apply section_lives. eapply (step_install_snapshot r req); [lia|lia|done|exact He|].
  destruct Hor as [[x ->]|[? _]]; [left|by right]. by destruct e.
Qed.

Lemma vote_lives s n r r' req resp :
  msg_ok s (MVote n req) → Server_RequestVote r (requestVoteToProto req) = (r', Ok resp) → lives r r'.
Proof.
  intros [Hid Hmsg] Hs. destruct (Server_RequestVote_served r req Hid) as [Hs' _].
  rewrite Hs' in Hs. injection Hs as Hr _. destruct (HandleRequestVote r req) as [r1 resp1] eqn:He.
  simpl in Hr. subst r1. destruct Hmsg as (? & _ & _ & _ & _ & ?). by eapply section_lives, step_request_vote.
Qed.

Lemma append_lives s n r r' req resp :
  msg_ok s (MAppend n req) → Server_AppendEntries r (appendEntriesToProto req) = (r', Ok resp) →
  lives r r'.
Proof.
  intros [Hid Hmsg] Hs. destruct Hmsg as (_ & _ & Hrq & _).
  destruct (Server_AppendEntries_served r req Hid (rq_valid _ Hrq)) as [Hs' _].
  rewrite Hs' in Hs. injection Hs as Hr _. destruct (HandleAppendEntries r req) as [r1 resp1] eqn:He.
  simpl in Hr. subst r1. by eapply section_lives, step_append_entries.
Qed.

Lemma host_step_lives s n net h h' sent :
  p_inv s → host_ok s n h → (∀ m, m ∈ net → msg_ok s m) → host_step n net h h' sent →
  lives (node h) (node h').
Proof using Hmembers.
  intros Hi Hh Hnet Hst. pose proof (ho_linked _ _ _ Hh) as Hlk. pose proof (lk_ok _ _ _ _ Hlk) as Hok.
  destruct Hst; cbn in Hlk, Hok |- *; try (by left);
    try (match goal with Hin : ?m ∈ _ |- _ => pose proof (Hnet m Hin) as Hmsg end).
  - eapply section_lives, step_campaign; done.
  - eapply vote_lives; done.
  - eapply section_lives, step_vote_response; [done|apply Hmsg|done].
  - eapply section_lives, step_propose; done.
  - left. by match goal with Hs : _ ∨ _ |- _ => destruct Hs as [-> | [-> | ->]] end.
  - eapply section_lives, step_begin_replication; done.
  - eapply append_lives; done.
  - destruct Hmsg as (_ & Ht & _). eapply section_lives, step_append_response; done.
  - eapply section_lives, step_load_snapshot; done.
  - eapply install_lives; [done..|left; by eexists].
  - eapply install_lives; [done..|by right].
  - right. by eapply install_restart_lives.
  - destruct Hmsg as [Ht _]. eapply section_lives, step_install_response; done.
  - eapply applyStep_lives; [done|apply Hh|done].
  - destruct (stored_snapshot_agrees members s n r ns Hmembers Hi Hlk ltac:(done)).
    right. by eapply step_restart.
Qed.

(** ** The whole cluster *)

Record cluster_ok (c : Cluster) s : Prop := {
  co_wire : Forall is_i32 members;
  co_inv : p_inv s;
  co_hosts n h : hosts c !! n = Some h → host_ok s n h;
  co_net m : m ∈ network c → msg_ok s m;
}.

Lemma fresh_linked n r : fresh members n r → linked p_init n r.
Proof.
  intros [Hok [Hid Hps] (Hst & Ht & Hv) (Hl & Hm & Hc & Ha) Hs (ns & Hns & Hsn)].
  assert (base r = 0 ∧ baseTerm r = 0) as [Hb Hbt] by (unfold base, baseTerm; by rewrite Hm).
  constructor; simpl; try done.
  - constructor; rewrite ?Hb, ?Hbt; done.
  - unfold durableCommit. rewrite Hs. split; [done|by left].
  - intros ns' sn Hns' Hsn'. congruence.
  - unfold role_ok. by rewrite Hst.
Qed.

Lemma cluster_start_ok c : cluster_start members c → cluster_ok c p_init.
Proof.
  intros [Hw Hn Hh]. constructor; [done|apply p_init_inv| |].
  - intros n h Hin. destruct (Hh n h Hin) as (Hf & Hwo & Hb). constructor.
    + by apply fresh_linked.
    + by rewrite Hwo.
    + rewrite Hb. by intros b.
  - rewrite Hn. intros m []%not_elem_of_nil.
Qed.

(** Every step is matched by steps of the protocol. *)
Lemma cluster_step_ok c s c' :
  cluster_ok c s → cluster_step c c' →
  ∃ s', rtc (p_step members) s s' ∧ cluster_ok c' s' ∧
    (∀ T l, chosen members s T l → chosen members s' T l) ∧
    (∀ n h h', hosts c !! n = Some h → hosts c' !! n = Some h' → evolves (node h) (node h')).
Proof using Hmembers.
  intros [Hw Hi Hh Hn] [n h h' sent Hin Hst].
  destruct (host_step_advances s n (network c) h h' sent Hw Hi (Hh n h Hin) Hn Hst)
    as (s' & Hm & Hh' & Hsent & Hev).
  exists s'. split_and!; [apply Hm| | |].
  - constructor; [done|apply Hm| |]; simpl.
    + intros n2 h2. rewrite lookup_insert_Some. intros [[<- <-]|[Hne Hin2]]; [done|].
      eapply host_ok_other; [done..| |by apply Hh]. congruence.
    + intros m [?|?]%elem_of_app; [by apply Hsent|]. by eapply msg_ok_moves; [..|apply Hn].
  - intros T l. by apply (moves_chosen members n).
  - simpl. intros n2 h2 h2' Hin2. rewrite lookup_insert_Some.
    intros [[<- <-]|[Hne Hin2']]; [by simplify_eq|]. simplify_eq.
    apply evolves_refl, (lk_ok _ _ _ _ (ho_linked _ _ _ (Hh _ _ Hin2))).
Qed.

Lemma cluster_step_lives c s c' n h h' :
  cluster_ok c s → cluster_step c c' → hosts c !! n = Some h → hosts c' !! n = Some h' →
  lives (node h) (node h').
Proof using Hmembers.
  intros [_ Hi Hh Hn] [n1 h1 h1' sent Hin Hst] Hin1. simpl.
  rewrite lookup_insert_Some. intros [[<- <-]|[_ Hin2]]; simplify_eq; [|by left].
  by eapply host_step_lives; [..|exact Hst]; [|apply Hh|].
Qed.

(** What the properties of single nodes assume of a message, at whichever node
    it arrives. *)
Definition promised r (m : Message) : Prop :=
  match m with
  | MVote _ req =>
      rv_Term req < 2 ^ 64 ∧ requestVoteFromProto (requestVoteToProto req) = req
  | MVoted _ _ resp => rvr_Term resp < 2 ^ 64
  | MAppend _ req =>
      request_ok req ∧ appendEntriesFromProto (appendEntriesToProto req) = req
  | MAppended _ _ resp => aer_Term resp < 2 ^ 64
  | MInstall _ req =>
      0 ≤ is_Term req < 2 ^ 64 ∧ 0 ≤ is_LastIncludedIndex req < 2 ^ 63 ∧ install_agrees r req ∧
      installSnapshotFromProto (installSnapshotToProto req) = req
  | MInstalled _ _ resp => isr_Term resp < 2 ^ 64
  | MLoad _ _ _ _ | MConfirm _ _ _ _ _ => True
  end.

Lemma network_promised c s n h m :
  cluster_ok c s → hosts c !! n = Some h → m ∈ network c → promised (node h) m.
Proof using Hmembers.
  intros [_ Hi Hh Hn] Hin Hm. pose proof (ho_linked _ _ _ (Hh _ _ Hin)) as Hlk.
  specialize (Hn m Hm). destruct m; simpl in *; try done; try apply Hn.
  - destruct Hn as (Hid & ? & _ & _ & _ & _ & ?). split; [done|by apply requestVote_round_trip].
  - destruct Hn as (Hid & ? & _ & Hrq & _). split; [done|].
    apply appendEntries_round_trip; [done|apply Hrq].
  - destruct Hn as (Hid & Hreq). split_and!; [| | | |by eapply known_install_agrees|
      by apply installSnapshot_round_trip];
      destruct Hreq as (L & HL & ? & ? & _); pose proof (lead_positive _ _ _ _ _ Hi HL); lia.
Qed.

Lemma cluster_steps_ok c s c' :
  cluster_ok c s → rtc cluster_step c c' →
  ∃ s', rtc (p_step members) s s' ∧ cluster_ok c' s' ∧
    (∀ T l, chosen members s T l → chosen members s' T l).
Proof using Hmembers.
  intros Hok Hs. revert s Hok. induction Hs as [c|c1 c2 c3 Hstep Hs IH]; intros s Hok.
  { by exists s. }
  destruct (cluster_step_ok _ _ _ Hok Hstep) as (s2 & Hr2 & Hok2 & Hc2 & _).
  destruct (IH s2 Hok2) as (s3 & Hr3 & Hok3 & Hc3). exists s3. split_and!; [by transitivity s2|done|auto].
Qed.

Lemma reachable_ok c :
  reachable members c → ∃ s, rtc (p_step members) p_init s ∧ cluster_ok c s.
Proof using Hmembers.
  intros (c0 & H0' & Hs). apply cluster_start_ok in H0'.
  destruct (cluster_steps_ok _ _ _ H0' Hs) as (s & ? & ? & _). by exists s.
Qed.

(** ** Consequences *)

(** What a host has committed is chosen. *)
Lemma host_chosen c s n h :
  cluster_ok c s → hosts c !! n = Some h →
  reached members s (currentTerm (node h)) (p_log s n) (commitIndex (node h)).
Proof.
  intros [_ _ Hh _] Hin. pose proof (ho_linked _ _ _ (Hh n h Hin)) as Hlk.
  eapply linked_reached; [done|]. by eapply linked_commit.
Qed.

Lemma take_comparable (l1 l2 : list LogEntry) d1 d2 i :
  take d1 l1 `prefix_of` take d2 l2 ∨ take d2 l2 `prefix_of` take d1 l1 →
  (i < d1)%nat → (i < d2)%nat → (d1 ≤ length l1)%nat → (d2 ≤ length l2)%nat → l1 !! i = l2 !! i.
Proof.
  intros Hp Hi1 Hi2 Hd1 Hd2.
  rewrite <- (lookup_take_lt l1 d1), <- (lookup_take_lt l2 d2) by done.
  destruct Hp as [[x ->]|[x ->]];
    rewrite lookup_app_l; (done || rewrite length_take; lia).
Qed.

(** Two hosts, at two moments. *)
Lemma committed_entries_agree c1 c2 n1 n2 h1 h2 i :
  reachable members c1 → rtc cluster_step c1 c2 →
  hosts c1 !! n1 = Some h1 → hosts c2 !! n2 = Some h2 →
  base (node h1) < i ≤ commitIndex (node h1) → base (node h2) < i ≤ commitIndex (node h2) →
  entry (node h1) i = entry (node h2) i.
Proof using Hmembers.
  intros Hr Hs Hin1 Hin2 Hi1 Hi2. destruct (reachable_ok _ Hr) as (s1 & _ & Hok1).
  destruct (cluster_steps_ok _ _ _ Hok1 Hs) as (s2 & _ & Hok2 & Hch).
  destruct (host_chosen _ _ _ _ Hok1 Hin1) as [Hl1 Hc1], (host_chosen _ _ _ _ Hok2 Hin2) as [Hl2 Hc2].
  pose proof (lk_log _ _ _ _ (ho_linked _ _ _ (co_hosts _ _ Hok1 _ _ Hin1))) as Hh1.
  pose proof (lk_log _ _ _ _ (ho_linked _ _ _ (co_hosts _ _ Hok2 _ _ Hin2))) as Hh2.
  pose proof (h_base _ _ Hh1). pose proof (h_base _ _ Hh2). unfold lenZ in *.
  rewrite (holds_entry _ _ _ Hh1), (holds_entry _ _ _ Hh2) by lia.
  apply (take_comparable _ _ (Z.to_nat (commitIndex (node h1))) (Z.to_nat (commitIndex (node h2))));
    [|lia..].
  eapply (chosen_comparable members Hmembers); [apply Hok2|by apply Hch|done].
Qed.

(** A leader of the committer's term or a later one. *)
Lemma leader_has_committed c n1 n2 h1 h2 :
  reachable members c → hosts c !! n1 = Some h1 → hosts c !! n2 = Some h2 →
  state (node h2) = Leader → currentTerm (node h1) ≤ currentTerm (node h2) →
  commitIndex (node h1) ≤ lastIndex (node h2) ∧
  ∀ i, base (node h1) < i ≤ commitIndex (node h1) → base (node h2) < i →
    entry (node h2) i = entry (node h1) i.
Proof using Hmembers.
  intros Hr Hin1 Hin2 Hst Ht. destruct (reachable_ok _ Hr) as (s & _ & Hok).
  destruct (host_chosen _ _ _ _ Hok Hin1) as [Hl1 Hc1].
  pose proof (ho_linked _ _ _ (co_hosts _ _ Hok _ _ Hin1)) as Hlk1.
  pose proof (ho_linked _ _ _ (co_hosts _ _ Hok _ _ Hin2)) as Hlk2.
  destruct (linked_lead _ _ _ _ Hlk2 Hst) as [HL _].
  eapply chosen_lead in Hc1; [|done|apply Hok|exact Ht|exact HL].
  rewrite (holds_lastIndex _ _ (lk_log _ _ _ _ Hlk2)). destruct Hc1 as [x Hx].
  pose proof (h_base _ _ (lk_log _ _ _ _ Hlk1)). pose proof (h_base _ _ (lk_log _ _ _ _ Hlk2)).
  unfold lenZ in *. split.
  - rewrite Hx, length_app, length_take. lia.
  - intros i Hi1 Hi2. rewrite (holds_entry _ _ _ (lk_log _ _ _ _ Hlk1)),
      (holds_entry _ _ _ (lk_log _ _ _ _ Hlk2)) by lia.
    rewrite Hx, lookup_app_l by (rewrite length_take; lia). apply lookup_take_lt. lia.
Qed.

(** Two hosts that have the same term at an index. *)
Lemma logs_match c n1 n2 h1 h2 i t j :
  reachable members c → hosts c !! n1 = Some h1 → hosts c !! n2 = Some h2 →
  term_of (node h1) i = Some t → term_of (node h2) i = Some t →
  base (node h1) < j ≤ i → base (node h2) < j → entry (node h1) j = entry (node h2) j.
Proof using Hmembers.
  intros Hr Hin1 Hin2 Ht1 Ht2 Hj1 Hj2. destruct (reachable_ok _ Hr) as (s & _ & Hok).
  pose proof (ho_linked _ _ _ (co_hosts _ _ Hok _ _ Hin1)) as Hlk1.
  pose proof (ho_linked _ _ _ (co_hosts _ _ Hok _ _ Hin2)) as Hlk2.
  apply (holds_term_of_Some _ _ _ _ (lk_log _ _ _ _ Hlk1)) in Ht1 as [H0' Ht1].
  apply (holds_term_of_Some _ _ _ _ (lk_log _ _ _ _ Hlk2)) in Ht2 as [_ Ht2].
  pose proof (h_base _ _ (lk_log _ _ _ _ Hlk1)).
  rewrite (holds_entry _ _ _ (lk_log _ _ _ _ Hlk1)), (holds_entry _ _ _ (lk_log _ _ _ _ Hlk2)) by lia.
  eapply agree_lookup; [eapply fterm_match; [apply (pi_log _ _ (co_inv _ _ Hok))..|exact H0'|done|done]|]. lia.
Qed.

Lemma one_leader_per_term c n1 n2 h1 h2 :
  reachable members c → hosts c !! n1 = Some h1 → hosts c !! n2 = Some h2 →
  state (node h1) = Leader → state (node h2) = Leader →
  currentTerm (node h1) = currentTerm (node h2) → n1 = n2.
Proof using Hmembers.
  intros Hr Hin1 Hin2 Hs1 Hs2 Ht. destruct (reachable_ok _ Hr) as (s & _ & Hok).
  destruct (linked_lead _ _ _ _ (ho_linked _ _ _ (co_hosts _ _ Hok _ _ Hin1)) Hs1) as [HL1 _].
  destruct (linked_lead _ _ _ _ (ho_linked _ _ _ (co_hosts _ _ Hok _ _ Hin2)) Hs2) as [HL2 _].
  rewrite Ht, HL2 in HL1. congruence.
Qed.
End ClusterFacts.
