(* ===== verification/Doubles.v ===== *)
(** * Stores that do not fail, and a three-node configuration

    RAM-backed instances of the interfaces of [Stores].  They show that the
    interfaces' laws can be met together, and the witnesses of the properties
    run on them; [memoryLogStore] is the log. *)

From S2P Require Import Prelude.
From S2P Require Import Codecs.
From S2P Require Import Log.
From S2P Require Import MemoryLog.
From S2P Require Import Config.
From S2P Require Import Stores.
From S2P Require Import Store.
From S2P Require Import RaftState.
From S2P Require Import RaftElection.
From S2P Require Import RaftRecovery.
From S2P Require Import RaftInvariant.
From S2P Require Import RecoveryFacts.

(** ** Stable state in memory *)

Record ramStable := mkRamStable { ram_state : StableState }.

#[export] Instance ramStable_store : StableStore ramStable := {|
  stable_Load s := (s, Ok (ram_state s));
  stable_Save s st :=
    if decide (stable_state_ok st) then (mkRamStable st, None)
    else (s, Some (Errorf "invalid stable state"));
|}.

#[export, program] Instance ramStable_laws : StableStoreLaws ramStable := {|
  stable_state := ram_state;
  stable_inv := λ _, True;
|}.
Next Obligation. intros s s' r _ [= <- <-]. naive_solver. Qed.
Next Obligation.
  intros s st s' r _. cbn. case_decide; intros [= <- <-]; split_and!; try done. by left.
Qed.

#[export] Instance ramStable_live : StableStoreLive ramStable.
Proof.
  split; cbn; [by eexists|]. intros s st _ Hok. rewrite decide_True by done. by eexists.
Qed.

(** ** Snapshots in memory *)

Record ramSnapshots := mkRamSnapshots { ram_snapshot : option Snapshot }.

#[export] Instance ramSnapshots_store : SnapshotStore ramSnapshots := {|
  snap_Load s := (s, Ok (ram_snapshot s));
  snap_Save s sn :=
    match Snapshot_Validate sn with
    | Some err => (s, Some err)
    | None => (mkRamSnapshots (Some sn), None)
    end;
|}.

#[export, program] Instance ramSnapshots_laws : SnapshotStoreLaws ramSnapshots := {|
  snap_stored := ram_snapshot;
  snap_inv := λ _, True;
|}.
Next Obligation. intros s s' r _ [= <- <-]. naive_solver. Qed.
Next Obligation.
  intros s sn s' r _. cbn. destruct (Snapshot_Validate sn) eqn:Hv; intros [= <- <-]; auto.
Qed.

#[export] Instance ramSnapshots_live : SnapshotStoreLive ramSnapshots.
Proof. split; cbn; [by eexists|]. intros s sn _ ->. by eexists. Qed.

(** ** A cluster of three *)

Definition node_of (n : Z) : Node :=
  if decide (n = 0) then mkNode 0 "h0:1" "h0:2"
  else if decide (n = 1) then mkNode 1 "h1:1" "h1:2"
  else mkNode 2 "h2:1" "h2:2".

Definition config_of (n : Z) : Config := {|
  Self := node_of n;
  Peers := filter (λ p, ID p ≠ n) [node_of 0; node_of 1; node_of 2];
  DataDir := "data";
  ElectionTimeoutMin := 150;
  ElectionTimeoutMax := 300;
  HeartbeatInterval := 50;
  SnapshotThreshold := 2;
|}.

Abbreviation ramRaft := (Raft ramStable memoryLogStore MemoryStore ramSnapshots).

(** A start-up on the given durable contents. *)
Definition boot (n : Z) (d : StableState) (es : list LogEntry) (sn : option Snapshot) :
    Fallible ramRaft :=
  NewWithSnapshot (config_of n) (mkRamStable d) (mkMemoryLogStore es)
    (NewMemoryStore 1024) true (mkRamSnapshots sn).

(** The node it gives; the fallback is never used below. *)
Definition started (n : Z) (d : StableState) (es : list LogEntry) (sn : option Snapshot) : ramRaft :=
  match boot n d es sn with
  | Ok r => r
  | Err _ => initialRaft (config_of n) (mkRamStable d) (mkMemoryLogStore es)
               (NewMemoryStore 1024) true (mkMeta 0 0) (Some (mkRamSnapshots sn)) d es
  end.

Definition set_entry (i t : Z) (k v : string) : LogEntry := mkLogEntry i t SetOperation k v.
Definition noop_entry (i t : Z) : LogEntry := mkLogEntry i t NoopOperation "" "".

Definition is_ok {A} (f : Fallible A) : bool := match f with Ok _ => true | Err _ => false end.

Lemma NewMemoryStore_ok limit : store_ok (NewMemoryStore limit).
Proof. apply map_Forall_empty. Qed.

Lemma NewMemoryStore_inv limit : sm_inv (NewMemoryStore limit).
Proof. apply NewMemoryStore_ok. Qed.

(** A start-up from a well-formed disk, whose log follows index [b0]. *)
Definition good_start (n : Z) (d : StableState) (es : list LogEntry) (sn : option Snapshot)
    (b0 : Z) : bool :=
  is_ok (boot n d es sn) &&
  bool_decide (0 ≤ ID (node_of n) ∧ stable_state_ok d ∧ 0 ≤ CurrentTerm d < 2 ^ 64 ∧
    0 ≤ LastApplied d ∧ contiguous (b0 + 1) es ∧ valid_entries es ∧ 0 ≤ b0 ∧
    b0 + lenZ es < 2 ^ 63 ∧
    0 ≤ default 0 (s_LastIncludedIndex <$> sn) < 2 ^ 63).

Lemma started_ok n d es sn b0 : good_start n d es sn b0 = true → node_ok (started n d es sn).
Proof.
  unfold good_start. intros [Hb (Hid & Hd & Ht & Ha & Hc & Hv & Hb0 & Hlen & Hsn)%bool_decide_eq_true]%andb_prop.
  unfold started. destruct (boot n d es sn) as [r|] eqn:Hboot; [|done].
  apply (NewWithSnapshot_spec _ _ _ _ _ _ b0) in Hboot as [Hok _];
    first [done|by constructor|apply NewMemoryStore_ok|idtac].
  intros s Hs. cbn in Hs. by subst sn.
Qed.

(** A decidable fact about concrete data. *)
Ltac by_computation := apply (bool_decide_unpack _); vm_compute; reflexivity.
