(* ===== verification/Samples.v ===== *)
(** * Concrete nodes

    The nodes of a small history on the stores of [Doubles], which the
    witnesses of several files run on. *)

From S2P Require Import Prelude.
From S2P Require Import Codecs.
From S2P Require Import Log.
From S2P Require Import MemoryLog.
From S2P Require Import Config.
From S2P Require Import Stores.
From S2P Require Import Store.
From S2P Require Import RaftState.
From S2P Require Import RaftElection.
From S2P Require Import RaftReplication.
From S2P Require Import RaftApply.
From S2P Require Import RaftRecovery.
From S2P Require Import RaftInvariant.
From S2P Require Import ElectionFacts.
From S2P Require Import ReplicationFacts.
From S2P Require Import ApplyFacts.
From S2P Require Import RecoveryFacts.
From S2P Require Import RaftNode.
From S2P Require Import PendingFacts.
From S2P Require Import ReplicationLive.
From S2P Require Import RaftExchange.
From S2P Require Import Doubles.

(** A leader of term 2 with three entries, and a follower that holds one. *)
Definition seed : ramRaft :=
  started 0 (mkStableState 1 NoVote 1 1) [noop_entry 1 1; set_entry 2 1 "k" "v"] None.
Definition leader2 : ramRaft := startElection seed [mkRequestVoteResponse 2 true].
Definition behind : ramRaft := started 1 (mkStableState 1 NoVote 0 0) [noop_entry 1 1] None.

Lemma seed_ok : node_ok seed.
Proof. by apply (started_ok _ _ _ _ 0); vm_compute. Qed.

Lemma leader2_ok : node_ok leader2.
Proof.
  apply startElection_evolves; [exact seed_ok|vm_compute; reflexivity..|]. by repeat constructor.
Qed.

Lemma behind_ok : node_ok behind.
Proof. by apply (started_ok _ _ _ _ 0); vm_compute. Qed.

Lemma prefix_compatible (l f : ramRaft) n :
  snapshotMeta f = snapshotMeta l → log f = take n (log l) → commitIndex f ≤ lastIndex f →
  compatible l f.
Proof.
  intros Hm Hl Hc.
  assert (∀ j, base f < j ≤ lastIndex f → entry f j = entry l j) as Heq.
  { intros j Hj. unfold entry, lastIndex, base in *. rewrite Hm, Hl in *.
    unfold lenZ in Hj. rewrite length_take in Hj. rewrite entry_of_take.
    by rewrite decide_True by lia. }
  constructor.
  - intros i t j _ Ht Hj Hb. apply term_of_range in Ht. apply Heq. lia.
  - intros i _ Hi. symmetry. apply Heq. lia.
Qed.

(** A client's write, committed and, later, next to be applied. *)
Definition write : Command := mkCommand SetOperation "a" "b".
Definition proposed : ramRaft := (Propose leader2 write).1.
Definition committed4 : ramRaft :=
  (handleAppendEntriesResponse proposed 1 (mkAppendEntries 2 0 3 2 [set_entry 4 2 "a" "b"] 1)
     (mkAppendEntriesResponse 2 true)).1.
Definition applied3 : ramRaft := (applyCommitted 2 committed4).1.

Lemma proposed_ok : node_ok proposed.
Proof.
  apply (Propose_evolves leader2 write proposed (Propose leader2 write).2);
    [exact leader2_ok|vm_compute; reflexivity|exact I|apply surjective_pairing].
Qed.

Lemma committed4_ok : node_ok committed4.
Proof.
  eapply (handleAppendEntriesResponse_evolves proposed 1 _ (mkAppendEntriesResponse 2 true));
    [exact proposed_ok|vm_compute; reflexivity|apply surjective_pairing].
Qed.

Lemma applied3_ok : node_ok applied3.
Proof.
  eapply (applyCommitted_spec 2 committed4); [exact committed4_ok|apply surjective_pairing].
Qed.

Lemma pending_one (r : ramRaft) i :
  channels r = [mkChannel [] false] → pendingResults r = {[i := 0%nat]} → pending_ok r.
Proof.
  intros Hc Hp. constructor; rewrite ?Hc, ?Hp.
  - repeat constructor.
  - by intros j c [<- <-]%lookup_singleton_Some.
  - by intros j k c [<- _]%lookup_singleton_Some [<- _]%lookup_singleton_Some.
Qed.

Lemma leader2_clean : pending_ok leader2.
Proof. apply no_pending_ok; vm_compute; reflexivity. Qed.

(** The sections that take [leader2] to [committed4]. *)
Lemma propose_section : section_step leader2 proposed.
Proof.
  eapply (step_propose leader2 write _ (Propose leader2 write).2);
    [split; vm_compute; reflexivity|exact I|apply surjective_pairing].
Qed.

Lemma acknowledge_section : section_step proposed committed4.
Proof.
  eapply (step_append_response proposed 1 (mkAppendEntries 2 0 3 2 [set_entry 4 2 "a" "b"] 1)
    (mkAppendEntriesResponse 2 true)); [vm_compute; reflexivity|apply surjective_pairing].
Qed.

Lemma config_of_valid n : 0 ≤ n ≤ 2 → valid_config (config_of n).
Proof.
  intros Hn. apply Validate_spec.
  assert (n = 0 ∨ n = 1 ∨ n = 2) as [-> |[-> | ->]] by lia; vm_compute; reflexivity.
Qed.
