(* ===== verification/ClusterSamples.v ===== *)
(** * A concrete cluster

    Three hosts on the stores of [Doubles], run by a list of actions: the
    steps of [Cluster] as a function, for the witnesses. *)

From S2P Require Import Prelude.
From S2P Require Import Codecs.
From S2P Require Import Log.
From S2P Require Import MemoryLog.
From S2P Require Import Config.
From S2P Require Import Stores.
From S2P Require Import Store.
From S2P Require Import RaftState.
From S2P Require Import RaftElection.
From S2P Require Import RaftReplication.
From S2P Require Import RaftSnapshot.
From S2P Require Import RaftRecovery.
From S2P Require Import Transport.
From S2P Require Import RaftInvariant.
From S2P Require Import ElectionFacts.
From S2P Require Import RaftNode.
From S2P Require Import Doubles.
From S2P Require Import Cluster.

Abbreviation ramHost := (Host ramStable memoryLogStore MemoryStore ramSnapshots).
Abbreviation ramCluster := (Cluster ramStable memoryLogStore MemoryStore ramSnapshots).

#[export] Instance room_dec (r : ramRaft) : Decision (room r).
Proof. unfold room. apply _. Defined.

#[export] Instance Node_eq_dec : EqDecision Node.
Proof. solve_decision. Defined.

(** [Receive k] takes the message at position [k] of the network. *)
Inductive Action :=
| Campaign
| Submit (command : Command)
| SendAppend (p : Z)
| NeedInstall (p : Z)
| ApplyNext
| Receive (k : nat)
| Restart.

Definition receive (n : Z) (m : Message) (h : ramHost) : option (ramHost * list Message) :=
  let r := node h in
  match m with
  | MVote to req =>
      if decide (to = n) then
        match Server_RequestVote r (requestVoteToProto req) with
        | (r, Ok resp) =>
            Some (mkHost r (worker h) (ballot h),
                  [MVoted n req (requestVoteResponseFromProto resp)])
        | _ => None
        end
      else None
  | MVoted from req resp =>
      match ballot h with
      | Some b =>
          if decide (rv_CandidateID req = n ∧ rv_Term req = b_term b ∧ from ∈ b_waiting b ∧ room r)
          then
            let '(r, o) := countVote r (b_term b) (b_votes b) resp in
            Some (mkHost r (worker h)
                    ((λ v, mkBallot (b_term b) v (b_waiting b ∖ {[from]})) <$> o), [])
          else None
      | None => None
      end
  | MAppend to req =>
      if decide (to = n) then
        match Server_AppendEntries r (appendEntriesToProto req) with
        | (r, Ok resp) =>
            Some (mkHost r (worker h) (ballot h),
                  [MAppended n req (appendEntriesResponseFromProto resp)])
        | _ => None
        end
      else None
  | MAppended from req resp =>
      if decide (ae_LeaderID req = n) then
        let '(r, _) := handleAppendEntriesResponse r from req resp in
        Some (mkHost r (worker h) (ballot h), [])
      else None
  | MInstall to req =>
      if decide (to = n ∧ snapshotting (worker h) = false) then
        match Server_InstallSnapshot r (installSnapshotToProto req) with
        | (r, Ok resp) =>
            Some (mkHost r (worker h) (ballot h),
                  [MInstalled n req (installSnapshotResponseFromProto resp)])
        | _ => None
        end
      else None
  | MInstalled from req resp =>
      if decide (is_LeaderID req = n) then
        let '(r, _) := handleInstallSnapshotResponse r from req resp in
        Some (mkHost r (worker h) (ballot h), [])
      else None
  | MLoad at_ p metadata term =>
      if decide (at_ = n) then
        let '(r, res) := loadForInstall r metadata in
        Some (mkHost r (worker h) (ballot h), loads n p metadata term res)
      else None
  | MConfirm at_ p metadata term stored =>
      if decide (at_ = n) then
        req ← confirmInstall r p metadata term stored;
        Some (mkHost r (worker h) (ballot h), [MInstall p req])
      else None
  end.

Definition act (n : Z) (a : Action) (net : list Message) (h : ramHost) :
    option (ramHost * list Message) :=
  let r := node h in
  match a with
  | Campaign =>
      if decide (room r) then
        let '(r', o) := startElection_begin r in
        Some (mkHost r' (worker h) (opens r o), asks r o)
      else None
  | Submit command =>
      if decide (room r) then
        let '(r', _) := Propose r command in Some (mkHost r' (worker h) (ballot h), [])
      else None
  | SendAppend p =>
      req ← buildAppendEntries r p; Some (mkHost r (worker h) (ballot h), [MAppend p req])
  | NeedInstall p =>
      '(metadata, term) ← snapshotNeeded r p;
      Some (mkHost r (worker h) (ballot h), [MLoad n p metadata term])
  | ApplyNext =>
      let '(r', w) := applyStep r (worker h) in Some (mkHost r' w (ballot h), [])
  | Receive k => m ← net !! k; receive n m h
  | Restart =>
      match snapshotStore r with
      | Some ns =>
          if decide (CurrentTerm (stable_state (stable r)) < 2 ^ 64 ∧
                     ID (node_of n) = id r ∧ Peers (config_of n) = peers r)
          then match NewWithSnapshot (config_of n) (stable r) (logStore r) (NewMemoryStore 1024) true ns with
               | Ok r' => Some (mkHost r' Waiting None, [])
               | Err _ => None
               end
          else None
      | None => None
      end
  end.

Definition perform (step : Z * Action) (c : ramCluster) : option ramCluster :=
  h ← hosts c !! step.1;
  '(h', sent) ← act step.1 step.2 (network c) h;
  Some (mkCluster (<[step.1 := h']> (hosts c)) (sent ++ network c)).

Fixpoint perform_all (steps : list (Z * Action)) (c : ramCluster) : option ramCluster :=
  match steps with
  | [] => Some c
  | step :: steps => perform step c ≫= perform_all steps
  end.

(** ** The function takes steps of the relation *)

Lemma receive_sound n net m (h h' : ramHost) sent :
  m ∈ net → receive n m h = Some (h', sent) → host_step n net h h' sent.
Proof.
  intros Hin. destruct h as [r w b], m; simpl.
  - case_decide; [subst|done]. destruct (Server_RequestVote r _) as [r' [resp|]] eqn:He; [|done].
    intros [= <- <-]. by eapply hs_vote.
  - destruct b as [b|]; [|done]. case_decide as Hd; [|done]. destruct Hd as (? & ? & ? & ?).
    destruct (countVote _ _ _ _) as [r' o] eqn:He. intros [= <- <-]. by eapply hs_voted.
  - case_decide; [subst|done]. destruct (Server_AppendEntries r _) as [r' [resp|]] eqn:He; [|done].
    intros [= <- <-]. by eapply hs_append.
  - case_decide; [|done]. destruct (handleAppendEntriesResponse _ _ _ _) as [r' again] eqn:He.
    intros [= <- <-]. by eapply hs_appended.
  - case_decide as Hd; [|done]. destruct Hd as [-> ?].
    destruct (Server_InstallSnapshot r _) as [r' [resp|e]] eqn:He; [|done].
    intros [= <- <-]. by eapply hs_install.
  - case_decide; [|done]. destruct (handleInstallSnapshotResponse _ _ _ _) as [r' again] eqn:He.
    intros [= <- <-]. by eapply hs_installed.
  - case_decide; [subst|done]. destruct (loadForInstall r metadata) as [r' res] eqn:He.
    intros [= <- <-]. by eapply hs_install_load.
  - case_decide; [subst|done]. destruct (confirmInstall _ _ _ _ _) as [req|] eqn:He; [|done].
    intros [= <- <-]. by eapply hs_install_confirm.
Qed.

Lemma act_sound n a net (h h' : ramHost) sent :
  act n a net h = Some (h', sent) → host_step n net h h' sent.
Proof.
  destruct a; simpl.
  - destruct h as [r w b]; simpl. case_decide; [|done].
    destruct (startElection_begin r) as [r' o] eqn:He. intros [= <- <-]. by eapply hs_campaign.
  - destruct h as [r w b]; simpl. case_decide; [|done].
    destruct (Propose r command) as [r' res] eqn:He. intros [= <- <-]. by eapply hs_propose.
  - destruct h as [r w b]; simpl. destruct (buildAppendEntries r p) as [req|] eqn:He; [|done].
    intros [= <- <-]. by eapply hs_send_append.
  - destruct h as [r w b]; simpl. destruct (snapshotNeeded r p) as [[metadata term]|] eqn:He; [|done].
    intros [= <- <-]. by eapply hs_install_needed.
  - destruct h as [r w b]; simpl. destruct (applyStep r w) as [r' w'] eqn:He.
    intros [= <- <-]. by eapply hs_apply.
  - destruct (net !! k) as [m|] eqn:Hm; [|done]. apply receive_sound. by eapply list_elem_of_lookup_2.
  - destruct h as [r w b]; simpl. destruct (snapshotStore r) as [ns|] eqn:Hns; [|done].
    case_decide as Hd; [|done]. destruct Hd as (? & ? & ?).
    destruct (NewWithSnapshot _ _ _ _ _ _) as [r'|] eqn:He; [|done]. intros [= <- <-].
    by eapply hs_restart; [..|exact He]; [| | | |apply NewMemoryStore_inv].
Qed.

Lemma perform_sound step c c' : perform step c = Some c' → cluster_step c c'.
Proof.
  unfold perform. destruct (hosts c !! step.1) as [h|] eqn:Hin; [|done]. simpl.
  destruct (act _ _ _ _) as [[h' sent]|] eqn:Ha; [|done]. intros [= <-].
  eapply step_host; [done|]. by eapply act_sound.
Qed.

Lemma perform_all_sound steps c c' : perform_all steps c = Some c' → rtc cluster_step c c'.
Proof.
  revert c. induction steps as [|step steps IH]; intros c; simpl; [by intros [= <-]|].
  destruct (perform step c) as [c1|] eqn:Hp; [|done]. intros Hs.
  eapply rtc_l; [by eapply perform_sound|by apply IH].
Qed.

(** ** Three hosts *)

Definition trio : list Z := [0; 1; 2].

Definition newcomer (n : Z) : ramHost :=
  mkHost (started n (mkStableState 0 NoVote 0 0) [] None) Waiting None.

Definition launched : ramCluster :=
  mkCluster (list_to_map ((λ n, (n, newcomer n)) <$> trio)) [].

Lemma newcomer_fresh n : n ∈ trio → fresh trio n (node (newcomer n)).
Proof.
  intros Hin. unfold trio in Hin. rewrite !elem_of_cons, elem_of_nil in Hin.
  destruct Hin as [->|[->|[->|[]]]];
    (constructor; [by apply (started_ok _ _ _ _ 0); vm_compute|split; [done|]|
      vm_compute; done..|eexists; split; vm_compute; done]).
  - vm_compute. reflexivity.
  - vm_compute. apply Permutation_swap.
  - vm_compute. etransitivity; [apply perm_skip, perm_swap|apply perm_swap].
Qed.

Lemma launched_start : cluster_start trio launched.
Proof.
  constructor; [by repeat constructor; vm_compute|done|]. intros n h Hin. unfold launched in Hin. simpl in Hin.
  rewrite !lookup_insert_Some, lookup_empty in Hin.
  destruct Hin as [[<- <-]|[_ [[<- <-]|[_ [[<- <-]|[_ [=]]]]]]];
    (split; [by apply newcomer_fresh; set_solver|done]).
Qed.

Lemma trio_distinct : NoDup trio.
Proof. by_computation. Qed.

(** What a list of actions makes of the new cluster. *)
Definition after_actions (steps : list (Z * Action)) : ramCluster :=
  default launched (perform_all steps launched).

Lemma after_actions_reachable steps : reachable trio (after_actions steps).
Proof.
  exists launched. split; [apply launched_start|]. unfold after_actions.
  destruct (perform_all steps launched) as [c|] eqn:Hp; [|done]. by eapply perform_all_sound.
Qed.
