(* ===== verification/LoopProps.v ===== *)
(** * The goroutines of a node: the properties

    The apply loop among the other sections, the election timer, and what a
    client learns from its channel. *)

From S2P Require Import Prelude.
From S2P Require Import Codecs.
From S2P Require Import Log.
From S2P Require Import MemoryLog.
From S2P Require Import Config.
From S2P Require Import Stores.
From S2P Require Import Store.
From S2P Require Import RaftState.
From S2P Require Import RaftElection.
From S2P Require Import RaftReplication.
From S2P Require Import RaftApply.
From S2P Require Import RaftSnapshot.
From S2P Require Import RaftLoop.
From S2P Require Import RaftInvariant.
From S2P Require Import ElectionFacts.
From S2P Require Import RaftNode.
From S2P Require Import PendingFacts.
From S2P Require Import LoopFacts.
From S2P Require Import ResultFacts.
From S2P Require Import Doubles.
From S2P Require Import Samples.

(** The timings a node takes from its configuration. *)
Definition timed_by {SS LS SM NS} (c : Config) (r : Raft SS LS SM NS) : Prop :=
  electionTimeoutMin r = ElectionTimeoutMin c ∧ electionTimeoutMax r = ElectionTimeoutMax c ∧
  heartbeatInterval r = HeartbeatInterval c.

Section Loops.
Context {SS LS SM NS : Type}
  `{StableStoreLaws SS} `{LogStoreLaws LS} `{StateMachineLaws SM} `{SnapshotStoreLaws NS}.
Abbreviation Raft := (Raft SS LS SM NS).
Implicit Types r : Raft.

(** C20: No wake-up of the apply loop is lost: however its sections interleave
    with all the others from a start with nothing to apply, whenever it waits
    while a committed entry is not applied, the signal it waits for is set. *)
Theorem no_lost_wakeup r r' :
  node_ok r → lastApplied r = commitIndex r → rtc loop_step (Idle, r) (Idle, r') →
  lastApplied r' < commitIndex r' → applyNow r' = true.
Proof.
  intros Hok Heq Hs. apply loop_steps_awake in Hs as [_ Haw]; [by apply Haw|].
  split; [done|]. cbn. lia.
Qed.

(** C33: A turn of the apply loop that nothing interrupts ends, and is one of
    the interleavings: it leaves the loop waiting again, or ended for good. *)
Theorem apply_turn_refines fuel r :
  node_ok r → applyNow r = true → commitIndex r - lastApplied r < Z.of_nat fuel →
  ∃ r' goes_on, applyLoop_turn fuel r = Some (r', goes_on) ∧
    rtc loop_step (Idle, r) (if goes_on then Idle else Dead, r').
Proof.
  intros Hok Hnow Hf. destruct (applyLoop_turn_returns fuel r) as [[r' b] Ht]; [done..|].
  exists r', b. split; [done|]. by eapply applyLoop_turn_steps.
Qed.

(** C34: Whenever the election timer is set again, by a leader's message, a
    granted vote or its own expiry, it expires neither before the minimum nor
    after the maximum election timeout; heartbeats are sent more often. *)
Theorem election_timer c r t event now rand r' t' work :
  valid_config c → timed_by c r → (∀ n, 0 < n → 0 ≤ rand n < n) →
  event = ElectionReset ∨ event = ElectionTimeout →
  run_turn r t event now rand = Some (r', t', work) →
  heartbeatInterval r < electionTimeoutMin r ∧
  (∀ later, later < now + electionTimeoutMin r →
     enabled r' (timer_advance t' later) ElectionTimeout = false) ∧
  (∀ later, now + electionTimeoutMax r ≤ later →
     enabled r' (timer_advance t' later) ElectionTimeout = true).
Proof.
  intros [_ _ Htm _ _ _ _] (Hmin & Hmax & Hbeat) Hrand Hev Hrun.
  assert (electionTimeoutMin r < electionTimeoutMax r) as Hlt by lia.
  destruct (run_turn_resets _ _ _ _ _ _ _ _ Hrand Hlt Hev Hrun) as (d & Hd & ->).
  split; [lia|]. unfold enabled, timer_advance. cbn.
  split; intros later Hl; [rewrite decide_False by lia|rewrite decide_True by lia]; done.
Qed.

(** C35: When the state machine refuses a committed entry, every waiting client
    gets that error on its closed channel, and from then on every proposal is
    refused and leaves the node as it is. *)
Theorem apply_failure_is_final r err :
  pending_ok r → applyErr r = None →
  let r1 := recordApplyFailure r err in
  (∀ i c, pendingResults r !! i = Some c →
     channels r1 !! c = Some (mkChannel [mkResult i (Some err)] true)) ∧
  pendingResults r1 = ∅ ∧
  ∀ r2 command, rtc section_step r1 r2 → ∃ e, Propose r2 command = (r2, Err e).
Proof.
  intros Hok Hnone. unfold recordApplyFailure. rewrite Hnone. cbn. split_and!; [|done|].
  - intros i c Hi. by apply all_pending_answered.
  - intros r2 command Hs. apply (section_steps_err _ _ err) in Hs; [|done].
    unfold Propose. destruct (Command_Validate command); [by eexists|].
    case_decide; [by eexists|]. destruct (negb _); [by eexists|]. rewrite Hs. by eexists.
Qed.

(** C19: The answer a client reads from the channel of its proposal, whatever
    ran in between: it carries the proposal's index; if it is a success, the
    node has committed and applied its log up to that index; if not, it is the
    error that stopped the state machine. *)
Theorem reply_means_applied r command r1 i c r2 ch res :
  node_ok r → pending_ok r → room r → command_fits r command →
  Propose r command = (r1, Ok (i, c)) → rtc section_step r1 r2 →
  channels r2 !! c = Some ch → res ∈ buffered ch →
  r_Index res = i ∧
  match r_Err res with
  | None => i ≤ lastApplied r2 ∧ lastApplied r2 ≤ commitIndex r2
  | Some err => applyErr r2 = Some err
  end.
Proof. apply reply_spec. Qed.
End Loops.

(** ** Witnesses *)

Lemma no_lost_wakeup_witness : applyNow committed4 = true.
Proof.
  apply (no_lost_wakeup leader2 committed4 leader2_ok); [vm_compute; reflexivity| |vm_compute; reflexivity].
  eapply rtc_l; [apply loop_section, propose_section|].
  apply rtc_once, loop_section, acknowledge_section.
Defined.

Lemma apply_turn_refines_witness :
  ∃ r', applyLoop_turn 4 committed4 = Some (r', true) ∧ lastApplied r' = 4 ∧
    rtc loop_step (Idle, committed4) (Idle, r').
Proof.
  destruct (apply_turn_refines 4 committed4 committed4_ok) as (r' & b & Ht & Hs);
    [vm_compute; reflexivity|vm_compute; reflexivity|].
  assert (option_map (λ '(r, b), (lastApplied r, b)) (applyLoop_turn 4 committed4) = Some (4, true))
    as He by (vm_compute; reflexivity).
  rewrite Ht in He. injection He as Hl Hb. subst b.
  exists r'. split; [exact Ht|]. split; [exact Hl|exact Hs].
Defined.

Lemma election_timer_witness :
  let t := mkTimer None true in
  match run_turn behind t ElectionReset 1000 (λ n, n / 2) with
  | Some (r', t', _) => enabled r' (timer_advance t' 1149) ElectionTimeout = false ∧
                        enabled r' (timer_advance t' 1300) ElectionTimeout = true
  | None => False
  end.
Proof.
  cbv zeta. destruct (run_turn behind _ _ _ _) as [[[r' t'] w]|] eqn:Hr; [|discriminate].
  destruct (election_timer (config_of 1) behind (mkTimer None true) ElectionReset 1000 (λ n, n / 2)
    r' t' w) as (_ & Hlow & Hhigh).
  - apply config_of_valid. lia.
  - vm_compute. by split_and!.
  - intros n Hn. split; [apply Z.div_pos; lia|]. apply Z.div_lt; lia.
  - by left.
  - exact Hr.
  - assert (electionTimeoutMin behind = 150 ∧ electionTimeoutMax behind = 300) as [Hmin Hmax]
      by (split; vm_compute; reflexivity).
    rewrite Hmin in Hlow. rewrite Hmax in Hhigh. split; [apply Hlow|apply Hhigh]; lia.
Defined.

Lemma apply_failure_is_final_witness :
  let r1 := recordApplyFailure proposed ErrNoApplier in
  channels r1 !! 0%nat = Some (mkChannel [mkResult 4 (Some ErrNoApplier)] true) ∧
  ∃ e, Propose r1 write = (r1, Err e).
Proof.
  assert (pending_ok proposed) as Hp by (apply (pending_one _ 4); vm_compute; reflexivity).
  destruct (apply_failure_is_final proposed ErrNoApplier Hp) as (Hc & _ & Hr);
    [vm_compute; reflexivity|].
  split; [apply Hc; vm_compute; reflexivity|]. apply Hr. apply rtc_refl.
Defined.

(** The client's answer once the apply loop has run. *)
Lemma reply_means_applied_witness :
  let r2 := (applyCommitted 4 committed4).1 in
  channels r2 !! 0%nat = Some (mkChannel [mkResult 4 None] true) ∧ 4 ≤ lastApplied r2.
Proof.
  set (r2 := (applyCommitted 4 committed4).1).
  assert (channels r2 !! 0%nat = Some (mkChannel [mkResult 4 None] true)) as Hc
    by (vm_compute; reflexivity).
  split; [exact Hc|].
  assert (Propose leader2 write = (proposed, Ok (4, 0%nat))) as Hp by (vm_compute; reflexivity).
  assert (rtc section_step proposed r2) as Hs.
  { eapply rtc_l; [exact acknowledge_section|].
    apply (applyCommitted_steps 4 committed4 r2 (applyCommitted 4 committed4).2 committed4_ok).
    apply surjective_pairing. }
  destruct (reply_means_applied leader2 write proposed 4 0%nat r2
    (mkChannel [mkResult 4 None] true) (mkResult 4 None) leader2_ok leader2_clean) as [_ [Hi _]];
    [split; vm_compute; reflexivity|exact I|exact Hp|exact Hs|exact Hc|apply list_elem_of_here|].
  exact Hi.
Defined.
