(* ===== verification/ProcessProps.v ===== *)
(** * The node process: the properties

    A client's request from the HTTP server through the Raft node and back,
    and the start of a process on its three files. *)

From S2P Require Import Prelude.
From S2P Require Import Fs.
From S2P Require Import Wal.
From S2P Require Import Codecs.
From S2P Require Import Log.
From S2P Require Import FileLog.
From S2P Require Import FileLogFacts.
From S2P Require Import FileProps.
From S2P Require Import MemoryLog.
From S2P Require Import Config.
From S2P Require Import Stores.
From S2P Require Import FileStable.
From S2P Require Import FileSnapshot.
From S2P Require Import Store.
From S2P Require Import Http.
From S2P Require Import Server.
From S2P Require Import RaftState.
From S2P Require Import RaftElection.
From S2P Require Import RaftReplication.
From S2P Require Import RaftApply.
From S2P Require Import RaftRecovery.
From S2P Require Import RaftLoop.
From S2P Require Import Transport.
From S2P Require Import NodeProc.
From S2P Require Import RaftInvariant.
From S2P Require Import ElectionFacts.
From S2P Require Import RecoveryFacts.
From S2P Require Import RaftNode.
From S2P Require Import PendingFacts.
From S2P Require Import LoopFacts.
From S2P Require Import ResultFacts.
From S2P Require Import ProcessFacts.
From S2P Require Import Doubles.
From S2P Require Import Samples.

Section Process.
Context {SS LS NS : Type}
  `{StableStoreLaws SS} `{LogStoreLaws LS} `{MapCodec} `{SnapshotStoreLaws NS} `{ServerCodec}.
Abbreviation Process := (Process (SS := SS) (LS := LS) (NS := NS)).
Abbreviation Wait := (Wait (SS := SS) (LS := LS) (NS := NS)).
Implicit Types (n : Process) (wait : Wait).

(** C8: A client whose write is answered with a success status has reached the
    leader; its command, with a key, was appended durably at one index in the
    leader's term; and when the answer is given the node has committed and
    applied its log up to that index, whatever ran in between. *)
Theorem acknowledged_write wait n broken r n' resp :
  node_ok (raft n) → pending_ok (raft n) → room (raft n) → writes (http n) = true →
  (∀ command, asked r = Some command → command_fits (raft n) command ∧
     ∀ R p, Propose (raft n) command = (R, Ok p) → rtc section_step R (meanwhile wait R)) →
  is_write r → request wait n broken r = (n', resp) → Status resp < 300 →
  state (raft n) = Leader ∧
  ∃ command i R, asked r = Some command ∧ c_Key command ≠ ""%string ∧
    i = lastIndex (raft n) + 1 ∧ (Propose (raft n) command).1 = R ∧
    entry R i = Some (mkLogEntry i (currentTerm (raft n)) (c_Operation command)
                        (c_Key command) (c_Value command)) ∧
    log_entries (logStore R) = log R ∧ i ≤ lastApplied (raft n').
Proof.
  intros Hok Hp Hroom Hw Hwait Hr Hs Hlt.
  destruct (request_success _ _ _ _ _ _ Hw Hr Hs Hlt) as (Hl & command & Ha & Hk & Hprop).
  destruct (Hwait _ Ha) as [Hfit Hrun].
  destruct (propose_acknowledged _ _ _ _ Hok Hp Hroom Hfit Hrun Hprop) as (R & i & c & Heq & Hi).
  destruct (Propose_spec _ _ _ _ _ Hok Hroom Hfit Heq) as (_ & Hst & _ & _ & Hn & _ & He & Hd & _).
  split; [done|]. exists command, i, R. by rewrite Heq.
Qed.

(** C30: A node that is not the leader changes nothing on a write: it sends the
    client to the HTTP address of the cluster member it takes for the leader,
    with the same path and query, or, when it knows none, asks it to retry. *)
Theorem write_goes_to_leader wait n broken r n' resp :
  valid_config (cfg n) → writes (http n) = true → is_write r → state (raft n) ≠ Leader →
  request wait n broken r = (n', resp) →
  n' = n ∧
  ((∃ member, member ∈ Self (cfg n) :: Peers (cfg n) ∧ ID member = leaderID (raft n) ∧
      answers resp 307 "Location" (httpURL (HTTPAddr member) (Path r) (RawQuery r))) ∨
   leaderID (raft n) ∉ members (cfg n) ∧ answers resp 503 "Retry-After" "1").
Proof.
  intros Hc Hw Hr Hs. unfold request. set (wc := Process_writes wait).
  rewrite redirected by (done || by apply bool_decide_eq_false).
  intros [= <- <-]. split; [done|].
  pose proof (redirect_answers (coordinator := wc) (http n) n broken r) as Ha. cbn in Ha.
  pose proof (LeaderHTTPAddr_spec n Hc) as Hm.
  destruct (Process_LeaderHTTPAddr n) as [a []]; [left|by right].
  destruct Hm as (m & Hin & Hid & <- & _). by exists m.
Qed.

(** A read is answered from the node's own machine, without changing it:
    the value of the key, or 404; a missing key gets 400 and another method
    405. *)
Theorem read_is_local wait n r n' resp :
  Path r = "/get"%string → request wait n false r = (n', resp) →
  n' = n ∧
  let key := queryGet (RawQuery r) "key" in
  if decide (Method r ≠ "GET"%string) then Status resp = 405
  else if decide (key = ""%string) then Status resp = 400
  else match data (machine (raft n)) !! key with
       | Some value => Status resp = 200 ∧ Content resp = value
       | None => Status resp = 404
       end.
Proof.
  intros Hp. unfold request, serve. rewrite Hp.
  change (route "/get") with (Some GetRoute). unfold getHandler.
  case_decide; [by intros [= <- <-]|]. case_decide; [by intros [= <- <-]|].
  cbn. unfold Get. destruct (data _ !! _); by intros [= <- <-].
Qed.
End Process.

Section Restart.
Context `{EntryCodec} `{StateCodec} `{SnapshotCodec} `{MapCodec}.

(** C10: A process that crashed while it appended to its log, whatever calls
    failed before, starts again on its three files as a consistent Raft node,
    if it starts: its log is the old entries and a prefix of those being
    appended (all of them once the append had returned), cut at the snapshot;
    its term and vote are the durable ones; and its machine is the snapshot's
    image run over everything committed. *)
Theorem crash_restart s es es' d d' res crash c limit b0 so sno fs fs' n :
  stores s es d → valid_entries es' → Forall file_fits es' →
  files_ok b0 (es ++ es') so sno →
  file_Append s es' d = (d', res) → image d' crash →
  New c limit (rebooted crash []) (stateFile so fs) (snapshotFile sno fs') = Some (Ok n) →
  let laws := FileStableStore_laws False in let laws' := FileStore_laws False in
  node_ok (H0 := laws) (H6 := laws') (raft n) ∧ pending_ok (raft n) ∧ cfg n = c ∧ valid_config c ∧
  ∃ out, (∃ k, out = es ++ take k es') ∧ (res = Some None → out = es ++ es') ∧
    rebuilt c limit b0 out so sno (raft n).
Proof.
  intros Hs Hv' Hx' Hf Ha Him Hnew.
  assert (chained (es ++ es')) as Hc by (exists (b0 + 1); apply Hf).
  destruct (file_append_recoverable _ _ _ _ _ _ Hs Hv' Hc Hx' Ha) as (Hv & Hx & Hrec & Hdone).
  destruct (New_spec _ _ _ _ _ _ _ _ _ _ _ _ Hv Hx Hrec Him Hf Hnew)
    as (r & k & -> & Hcfg & Hok & Hp & Hr).
  split; [done|]. split; [done|]. split; [done|]. split; [by apply Validate_spec|].
  destruct (decide (res = Some None)) as [Hres|Hres].
  - rewrite <- (app_nil_r (es ++ es')) in Hv, Hx, Hf.
    destruct (New_spec _ _ _ _ [] _ _ _ _ _ _ _ Hv Hx (Hdone Hres) Him Hf Hnew)
      as (r' & k' & Heq & _ & _ & _ & Hr').
    injection Heq as <-. rewrite take_nil, app_nil_r in Hr'.
    exists (es ++ es'). split; [|done]. exists (length es'). by rewrite firstn_all.
  - exists (es ++ take k es'). split; [by eexists|]. by split.
Qed.

(** C31: And on disks that work it does start, whatever part of the interrupted
    append has survived, when the snapshot and the log reach the commit index
    and a fresh machine takes what they hold. *)
Theorem restart_succeeds s es es' d d' res crash c limit b0 so sno :
  stores s es d → valid_entries es' → Forall file_fits es' →
  files_ok b0 (es ++ es') so sno →
  file_Append s es' d = (d', res) → image d' crash → valid_config c →
  (∀ k, startable limit b0 (es ++ take k es') so sno) →
  ∃ n, New c limit (rebooted crash []) (stateFile so []) (snapshotFile sno []) = Some (Ok n).
Proof.
  intros Hs Hv' Hx' Hf Ha Him Hc Hstart.
  assert (chained (es ++ es')) as Hch by (exists (b0 + 1); apply Hf).
  destruct (file_append_recoverable _ _ _ _ _ _ Hs Hv' Hch Hx' Ha) as (Hv & Hx & Hrec & _).
  by eapply New_live; [apply Validate_spec| | |exact Hrec|exact Him|exact Hf|exact Hstart].
Qed.
End Restart.

(** ** Witnesses *)

(** A stand-in for [encoding/json]: a body [key=value]. *)
#[local] Instance pair_codec : ServerCodec := {|
  decodeSetRequest body :=
    match cut (Ascii.ascii_of_nat 61) body with
    | (key, Some value) => Some (mkSetRequest key value)
    | _ => None
    end;
  encodeLeader _ := "";
|}.

Abbreviation ramProcess := (Process (SS := ramStable) (LS := memoryLogStore) (NS := ramSnapshots)).

(** The leader's process, while a peer acknowledges and the apply loop runs. *)
Definition leading : ramProcess := assembled (config_of 0) 1024 leader2.
Definition acknowledge (r : ramRaft) : ramRaft :=
  (handleAppendEntriesResponse r 1 (mkAppendEntries 2 0 3 2 [set_entry 4 2 "a" "b"] 1)
     (mkAppendEntriesResponse 2 true)).1.
Definition patient : Wait (SS := ramStable) (LS := memoryLogStore) (NS := ramSnapshots) :=
  mkWait (λ r, (applyCommitted 4 (acknowledge r)).1) None true.
Definition writing : Request := mkRequest "POST" "/set" "" "a=b".

Lemma acknowledged_write_witness :
  Status (request patient leading false writing).2 = 200 ∧
  ∃ i, i = 4 ∧ i ≤ lastApplied (raft (request patient leading false writing).1).
Proof.
  assert (Status (request patient leading false writing).2 = 200) as Hst by (vm_compute; reflexivity).
  split; [exact Hst|].
  destruct (acknowledged_write patient leading false writing
    (request patient leading false writing).1 (request patient leading false writing).2)
    as (_ & command & i & R & _ & _ & Hi & _ & _ & _ & Ha).
  - exact leader2_ok.
  - apply no_pending_ok; vm_compute; reflexivity.
  - split; vm_compute; reflexivity.
  - reflexivity.
  - intros command Ha. assert (command = write) as -> by (vm_compute in Ha; injection Ha as <-; reflexivity).
    split; [exact I|]. intros R p Hp.
    assert (R = proposed) as -> by (unfold proposed; change (raft leading) with leader2 in Hp; by rewrite Hp).
    eapply rtc_l; [exact acknowledge_section|].
    apply (applyCommitted_steps 4 committed4 _ (applyCommitted 4 committed4).2 committed4_ok).
    apply surjective_pairing.
  - left. split; reflexivity.
  - apply surjective_pairing.
  - rewrite Hst. lia.
  - exists i. split; [|exact Ha]. rewrite Hi. vm_compute. reflexivity.
Defined.

(** A follower that has heard from the leader 0. *)
Definition following : ramProcess :=
  assembled (config_of 1) 1024 (HandleAppendEntries behind (mkAppendEntries 2 0 1 1 [] 1)).1.

Lemma write_goes_to_leader_witness :
  answers (request patient following false writing).2 307 "Location" "http://h0:2/set".
Proof.
  destruct (write_goes_to_leader patient following false writing
    (request patient following false writing).1 (request patient following false writing).2)
    as (_ & [(m & Hin & Hid & Ha)|[Hn _]]).
  - apply (config_of_valid 1). lia.
  - reflexivity.
  - left. split; reflexivity.
  - vm_compute. discriminate.
  - apply surjective_pairing.
  - assert (leaderID (raft following) = 0) as Hl by (vm_compute; reflexivity). rewrite Hl in Hid.
    assert (m = node_of 0) as ->.
    { change (m ∈ [node_of 1; node_of 0; node_of 2]) in Hin.
      repeat (apply elem_of_cons in Hin as [->|Hin]; [by vm_compute in Hid || reflexivity|]).
      by apply elem_of_nil in Hin. }
    exact Ha.
  - destruct Hn. vm_compute. set_solver.
Defined.

Lemma read_is_local_witness :
  let r := mkRequest "GET" "/get" "key=a" "" in
  let n := assembled (config_of 0) 1024 (applyCommitted 4 committed4).1 in
  Status (request patient n false r).2 = 200 ∧ Content (request patient n false r).2 = "b"%string.
Proof.
  intros r n.
  destruct (read_is_local patient n r (request patient n false r).1 (request patient n false r).2
    eq_refl (surjective_pairing _)) as [_ Hr].
  assert (queryGet (RawQuery r) "key" = "a"%string) as Hk by reflexivity.
  assert (data (machine (raft n)) !! "a"%string = Some "b"%string) as Hd by (vm_compute; reflexivity).
  clearbody n. cbv zeta in Hr. rewrite Hk, Hd in Hr.
  rewrite decide_False in Hr by (intros Hm; exact (Hm eq_refl)).
  rewrite decide_False in Hr by discriminate. exact Hr.
Defined.

(** The process that crashed in its first append starts again; its state file
    records term 1 and a vote. *)
Definition restarted : option (Fallible FileProcess) :=
  New (config_of 0) 1024 (rebooted (Some tornBytes) []) (stateFile (Some (mkStableState 1 1 0 0)) [])
    (snapshotFile None []).

Lemma torn_files : files_ok 0 ([] ++ [e1; e2]) (Some (mkStableState 1 1 0 0)) None.
Proof.
  split; [by_computation|intros st [= <-]; by_computation|done].
Qed.

Lemma crash_restart_witness :
  ∃ n, restarted = Some (Ok n) ∧ log (raft n) = [e1] ∧ votedFor (raft n) = 1 ∧ pending_ok (raft n).
Proof.
  destruct restarted as [[n|e]|] eqn:Hr; [|vm_compute in Hr; discriminate..].
  exists n. split; [reflexivity|].
  assert (match restarted with
          | Some (Ok n) => log (raft n) = [e1] ∧ votedFor (raft n) = 1
          | _ => False
          end) as Hc by (vm_compute; split; reflexivity).
  rewrite Hr in Hc. destruct Hc as [Hl Hv]. split; [exact Hl|]. split; [exact Hv|].
  unfold restarted in Hr.
  apply (crash_restart openStore [] [e1; e2] (emptyDisk [Done; Done; Done; Crashed 3]) tornAppend.1
    None (Some tornBytes) (config_of 0) 1024 0 (Some (mkStableState 1 1 0 0)) None [] [] n
    (emptyDisk_stores _) (proj1 entries_ok) (proj1 (proj2 entries_ok)) torn_files tornAppend_eq
    torn_image Hr).
Defined.

Lemma restart_succeeds_witness : ∃ n, restarted = Some (Ok n).
Proof.
  apply (restart_succeeds openStore [] [e1; e2] (emptyDisk [Done; Done; Done; Crashed 3]) tornAppend.1
    None (Some tornBytes) (config_of 0) 1024 0 (Some (mkStableState 1 1 0 0)) None
    (emptyDisk_stores _) (proj1 entries_ok) (proj1 (proj2 entries_ok)) torn_files tornAppend_eq
    torn_image); [apply config_of_valid; lia|].
  intros k. split; [reflexivity|]. split; [vm_compute; discriminate|].
  split; [apply (Z.le_trans _ 0); [vm_compute; discriminate|apply lenZ_nonneg]|].
  exists (NewMemoryStore 1024), (NewMemoryStore 1024). split; reflexivity.
Defined.
