(* ===== verification/TransportProps.v ===== *)
(** * What the transport promises

    Remote calls are local calls, the width of identifiers on the wire, and
    the connection cache under concurrent callers. *)

From S2P Require Import Prelude.
From S2P Require Import Log.
From S2P Require Import MemoryLog.
From S2P Require Import Config.
From S2P Require Import Stores.
From S2P Require Import Store.
From S2P Require Import Codecs.
From S2P Require Import RaftState.
From S2P Require Import RaftElection.
From S2P Require Import RaftReplication.
From S2P Require Import RaftSnapshot.
From S2P Require Import Transport.
From S2P Require Import Doubles.

(** ** Calls *)

Lemma client_dialed t address : ∃ t' c, client t address None = (t', Ok c).
Proof.
  unfold client, client_lookup. destruct (clients t !! address) as [c|] eqn:Hc; [by exists t, c|].
  cbn. unfold client_publish. cbn. rewrite Hc. by do 2 eexists.
Qed.

Section Calls.
Context {SS LS SM NS : Type}
  `{StableStore SS} `{LogStore LS} `{StateMachine SM} `{SnapshotStore NS}.
Implicit Types r : Raft SS LS SM NS.

(** C29: For node identifiers that fit in 32 bits and entries the log accepts,
    a remote call is the handler's local call: what the peer's handler receives is what
    was sent, and what the caller receives is what the handler returned; an
    InstallSnapshot the handler refuses with an error is an error for the
    caller. *)
Theorem remote_call_is_local t peer r :
  (∀ req, is_i32 (rv_CandidateID req) →
     ∃ t', Transport_RequestVote t peer req None (λ _ p, (Server_RequestVote r p).2) =
             (t', Ok (HandleRequestVote r req).2) ∧
           (Server_RequestVote r (requestVoteToProto req)).1 = (HandleRequestVote r req).1) ∧
  (∀ req, is_i32 (ae_LeaderID req) → valid_entries (ae_Entries req) →
     ∃ t', Transport_AppendEntries t peer req None (λ _ p, (Server_AppendEntries r p).2) =
             (t', Ok (HandleAppendEntries r req).2) ∧
           (Server_AppendEntries r (appendEntriesToProto req)).1 = (HandleAppendEntries r req).1) ∧
  (∀ req, is_i32 (is_LeaderID req) →
     ∃ t' result,
       Transport_InstallSnapshot t peer req None (λ _ p, (Server_InstallSnapshot r p).2) =
         (t', result) ∧
       match (HandleInstallSnapshot r req).2 with
       | (response, None) => result = Ok response
       | (_, Some err) => ∃ name, result = Err (Wrapf name err)
       end ∧
       (Server_InstallSnapshot r (installSnapshotToProto req)).1 = (HandleInstallSnapshot r req).1).
Proof.
  destruct (client_dialed t (RaftAddr peer)) as (t' & c & Hc). split_and!; intros req Hid.
  - destruct (Server_RequestVote_served r req Hid) as [Hs Hr].
    exists t'. unfold Transport_RequestVote, remote. rewrite Hc, Hs. split; [by f_equal; f_equal|done].
  - intros Hv. destruct (Server_AppendEntries_served r req Hid Hv) as [Hs Hr].
    exists t'. unfold Transport_AppendEntries, remote. rewrite Hc, Hs. split; [by f_equal; f_equal|done].
  - destruct (Server_InstallSnapshot r (installSnapshotToProto req)) as [r' result] eqn:Hs.
    pose proof Hs as (resp & err & Hh & Hres)%Server_InstallSnapshot_served; [|done].
    unfold Transport_InstallSnapshot, remote. rewrite Hc, Hs, Hh. cbn.
    destruct err; [subst|destruct Hres as [-> Hr]; rewrite Hr]; exists t'; eexists;
      (split; [done|]); (split; [by try eexists|done]).
Qed.
End Calls.

(** C37: Identifiers on the wire keep 32 bits: a candidate or leader identifier
    arrives unchanged exactly when it fits, and the largest unsigned 32-bit
    one arrives as [NoVote]. *)
Theorem wire_identifiers :
  (∀ req, rv_CandidateID (requestVoteFromProto (requestVoteToProto req)) = rv_CandidateID req ↔
          is_i32 (rv_CandidateID req)) ∧
  (∀ req, ae_LeaderID (appendEntriesFromProto (appendEntriesToProto req)) = ae_LeaderID req ↔
          is_i32 (ae_LeaderID req)) ∧
  (∀ req, is_LeaderID (installSnapshotFromProto (installSnapshotToProto req)) = is_LeaderID req ↔
          is_i32 (is_LeaderID req)) ∧
  (∀ req, rv_CandidateID req = 2 ^ 32 - 1 →
          rv_CandidateID (requestVoteFromProto (requestVoteToProto req)) = NoVote).
Proof.
  assert (∀ z, i32 z = z ↔ is_i32 z) as Hi.
  { intros z. split; [|apply i32_small]. intros <-. unfold is_i32, i32.
    pose proof (Z.mod_pos_bound (z + 2 ^ 31) (2 ^ 32)). lia. }
  split_and!; intros req; [apply Hi..|].
  intros Heq. change (i32 (rv_CandidateID req) = NoVote). by rewrite Heq.
Qed.

(** ** The connection cache *)

(** One step of the goroutines that share the transport; the list holds the
    connections dialled and not yet published. *)
Inductive conn_step : GRPCTransport * list (string * conn) →
    GRPCTransport * list (string * conn) → Prop :=
| conn_dial t t' c address flying :
    client_lookup t address = None → client_dial t = (t', c) →
    conn_step (t, flying) (t', (address, c) :: flying)
| conn_publish t t' r c address closing before after :
    client_publish t address c closing = (t', r) →
    conn_step (t, before ++ (address, c) :: after) (t', before ++ after)
| conn_close t t' closing r flying :
    Transport_Close t closing = (t', r) → conn_step (t, flying) (t', flying).

(** The two maps agree, hold open connections, no connection twice, and every
    open connection is in them or about to be published. *)
Record cache_ok (t : GRPCTransport) (flying : list (string * conn)) : Prop := {
  cache_same : clients t = conns t;
  cache_open : ∀ a c, conns t !! a = Some c → opened t !! c = Some true;
  cache_inj : ∀ a b c, conns t !! a = Some c → conns t !! b = Some c → a = b;
  cache_flying : ∀ a c, (a, c) ∈ flying → opened t !! c = Some true ∧ ∀ b, conns t !! b ≠ Some c;
  cache_distinct : NoDup flying.*2;
  cache_no_leak : ∀ c, opened t !! c = Some true →
    (∃ a, conns t !! a = Some c) ∨ ∃ a, (a, c) ∈ flying;
}.

Lemma opened_lt t flying a c : cache_ok t flying → conns t !! a = Some c → (c < length (opened t))%nat.
Proof. intros Hok Hc. eapply lookup_lt_Some. by eapply cache_open. Qed.

Lemma dial_ok t t' c address flying :
  cache_ok t flying → client_dial t = (t', c) → cache_ok t' ((address, c) :: flying).
Proof.
  intros Hok [= <- <-]. destruct Hok as [Hs Ho Hi Hf Hd Hl].
  assert (∀ b, conns t !! b ≠ Some (length (opened t))) as Hnew.
  { intros b Hb. apply Ho, lookup_lt_Some in Hb. lia. }
  split; cbn; try done.
  - intros a c Hc. by apply lookup_app_l_Some, (Ho a).
  - intros a c [[= -> ->]|Hin]%elem_of_cons.
    + split; [|done]. by rewrite lookup_app_r, Nat.sub_diag.
    + destruct (Hf _ _ Hin). split; [by apply lookup_app_l_Some|done].
  - apply NoDup_cons. split; [|done]. intros ((a & c) & Hc & Hin)%list_elem_of_fmap.
    cbn in Hc. subst c. apply Hf in Hin as [Hin%lookup_lt_Some _]. lia.
  - intros c Hc. destruct (decide (c < length (opened t))%nat) as [Hlt|Hlt].
    + rewrite lookup_app_l in Hc by done. destruct (Hl c Hc) as [?|(a & Ha)]; [by left|].
      right. exists a. by constructor.
    + assert (c = length (opened t)) as ->.
      { apply lookup_lt_Some in Hc. rewrite length_app in Hc. simpl in Hc. lia. }
      right. exists address. by constructor.
Qed.

Lemma publish_ok t t' r c address closing before after :
  cache_ok t (before ++ (address, c) :: after) →
  client_publish t address c closing = (t', r) → cache_ok t' (before ++ after).
Proof.
  intros [Hs Ho Hi Hf Hd Hl] Hp.
  assert ((address, c) ∈ before ++ (address, c) :: after) as Hin by set_solver.
  destruct (Hf _ _ Hin) as [Hc Hnc].
  rewrite fmap_app, fmap_cons in Hd.
  assert (c ∉ (before ++ after).*2 ∧ NoDup (before ++ after).*2) as [Hfresh Hd'].
  { rewrite fmap_app. apply NoDup_cons. by rewrite Permutation_middle. }
  assert (∀ x, x ∈ before ++ after → x ∈ before ++ (address, c) :: after) as Hsub by set_solver.
  assert (∀ a, (a, c) ∉ before ++ after) as Hfresh'.
  { intros a Ha. apply Hfresh. apply list_elem_of_fmap. by exists (a, c). }
  unfold client_publish in Hp. destruct (clients t !! address) as [existing|] eqn:He.
  - assert (t' = mkTransport (clients t) (conns t) (<[c := false]> (opened t))) as ->
      by (destruct closing; by simplify_eq).
    assert (∀ d, d ≠ c → <[c := false]> (opened t) !! d = opened t !! d) as Hother
      by (intros d Hdc; by rewrite list_lookup_insert_ne).
    split; cbn; try done.
    + intros a d Had. rewrite Hother; [by apply (Ho a)|]. intros ->. by apply (Hnc a).
    + intros a d Had. rewrite Hother; [apply (Hf a d (Hsub _ Had))|]. intros ->. by apply (Hfresh' a).
    + intros d Hd1. destruct (decide (d = c)) as [->|Hne].
      { rewrite list_lookup_insert_eq in Hd1 by (by eapply lookup_lt_Some). done. }
      rewrite Hother in Hd1 by done. destruct (Hl d Hd1) as [?|(a & Ha)]; [by left|].
      right. exists a. rewrite elem_of_app, elem_of_cons in Ha. set_solver.
  - injection Hp as <- _. rewrite Hs in He. split; cbn; try done.
    + by rewrite Hs.
    + intros a d [[_ <-]|[_ Had]]%lookup_insert_Some; [done|by apply (Ho a)].
    + intros a b d [[<- <-]|[_ Ha]]%lookup_insert_Some [[<- ?]|[_ Hb]]%lookup_insert_Some.
      * done.
      * by destruct (Hnc b).
      * subst d. by destruct (Hnc a).
      * by apply (Hi a b d).
    + intros a d Had. split; [apply (Hf a d (Hsub _ Had))|]. intros b Hb.
      apply lookup_insert_Some in Hb as [[_ <-]|[_ Hb]]; [by apply (Hfresh' a)|].
      by destruct (Hf a d (Hsub _ Had)) as [_ Hx]; apply (Hx b).
    + intros d Hd1. destruct (Hl d Hd1) as [(a & Ha)|(a & Ha)].
      * left. exists a. rewrite lookup_insert_ne; [done|]. intros ->. congruence.
      * destruct (decide (d = c)) as [->|Hne]; [left; exists address; by rewrite lookup_insert_eq|].
        right. exists a. rewrite elem_of_app, elem_of_cons in Ha. set_solver.
Qed.

(** Closing a set of connections. *)
Lemma lookup_closed cs (o : list bool) c :
  foldr (λ c o, <[c := false]> o) o cs !! c = Some true ↔ o !! c = Some true ∧ c ∉ cs.
Proof.
  induction cs as [|c' cs IH]; simpl; [set_solver|].
  destruct (decide (c = c')) as [->|Hne].
  - split; [|set_solver]. intros Hl. rewrite list_lookup_insert_Some in Hl. naive_solver.
  - rewrite list_lookup_insert_ne by done. rewrite IH. set_solver.
Qed.

Lemma close_ok t t' closing r flying :
  cache_ok t flying → Transport_Close t closing = (t', r) → cache_ok t' flying.
Proof.
  intros [Hs Ho Hi Hf Hd Hl] [= <- _].
  assert (∀ c, c ∈ (map_to_list (conns t)).*2 ↔ ∃ a, conns t !! a = Some c) as Hc.
  { intros c. rewrite list_elem_of_fmap. split.
    - intros ((a & c') & -> & Ha%elem_of_map_to_list). by exists a.
    - intros (a & Ha). exists (a, c). by rewrite elem_of_map_to_list. }
  split; cbn; try done.
  - intros a c Ha. destruct (Hf _ _ Ha) as [Hop Hnc]. split.
    + apply lookup_closed. split; [done|]. rewrite Hc. intros (b & Hb). by apply (Hnc b).
    + intros b. apply (lookup_empty_Some (M := gmap string)).
  - intros c Hcl. apply lookup_closed in Hcl as [Hop Hn]. right.
    destruct (Hl c Hop) as [Ha|Ha]; [by apply Hc in Ha|done].
Qed.

(** C38: The connection cache under concurrent callers: however lookups,
    dials, publications and closes of the goroutines interleave, the two maps
    agree, each address has one connection and it is open, and no open
    connection is lost: it is cached, or its creator is about to publish it.
    A [Close] that finds nobody dialling leaves no connection open.  (One
    dialled before it and published after it stays open and cached:
    [connection_after_close].) *)
Theorem connection_cache t flying :
  rtc conn_step (NewGRPCTransport, []) (t, flying) →
  cache_ok t flying ∧
  (flying = [] → ∀ closing t' r c, Transport_Close t closing = (t', r) → opened t' !! c ≠ Some true).
Proof.
  assert (∀ s s', rtc conn_step s s' → cache_ok s.1 s.2 → cache_ok s'.1 s'.2) as Hinv.
  { induction 1 as [|s1 s2 s3 Hstep _ IH]; [done|]. intros Hok. apply IH.
    destruct Hstep; cbn in *; eauto using dial_ok, publish_ok, close_ok. }
  intros Hs. apply Hinv in Hs; cbn in Hs.
  2: { split; cbn; try done; [|constructor].
       intros a c Ha. by apply elem_of_nil in Ha. }
  split; [done|]. intros -> closing t' r c Hcl Hop.
  apply (close_ok _ _ _ _ [] Hs) in Hcl as Hok'. destruct Hok' as [_ _ _ _ _ Hl].
  injection Hcl as <- _. destruct (Hl c Hop) as [(a & Ha)|(a & Ha)];
    [by destruct (lookup_empty_Some (M := gmap string) a c)|by apply elem_of_nil in Ha].
Qed.

(** ** Witnesses *)

Definition node1 : ramRaft :=
  started 1 (mkStableState 1 NoVote 1 1) [noop_entry 1 1; set_entry 2 1 "k" "v"] None.

Lemma remote_call_is_local_witness :
  ∃ t', Transport_RequestVote NewGRPCTransport (node_of 1) (mkRequestVote 2 0 2 1) None
          (λ _ p, (Server_RequestVote node1 p).2) =
        (t', Ok (mkRequestVoteResponse 2 true)).
Proof.
  destruct (proj1 (remote_call_is_local NewGRPCTransport (node_of 1) node1)
    (mkRequestVote 2 0 2 1) ltac:(by split)) as (t' & Ht & _).
  assert ((HandleRequestVote node1 (mkRequestVote 2 0 2 1)).2 = mkRequestVoteResponse 2 true)
    as Hv by (vm_compute; reflexivity).
  exists t'. by rewrite Ht, Hv.
Defined.

Lemma wire_identifiers_witness :
  rv_CandidateID (requestVoteFromProto (requestVoteToProto (mkRequestVote 2 (2 ^ 32 - 1) 2 1))) =
  NoVote.
Proof. exact (proj2 (proj2 (proj2 wire_identifiers)) (mkRequestVote 2 (2 ^ 32 - 1) 2 1) eq_refl). Defined.

(** Two callers race to one address; then the transport closes. *)
Lemma connection_cache_witness :
  ∃ t, rtc conn_step (NewGRPCTransport, []) (t, []) ∧ opened t = [true; false] ∧ cache_ok t [].
Proof.
  assert (∃ t, opened t = [true; false] ∧ rtc conn_step (NewGRPCTransport, []) (t, [])) as (t & Ho & Hs).
  { eexists. split; cycle 1.
    - eapply rtc_l; [by eapply conn_dial with (address := "a"%string)|].
      eapply rtc_l; [by eapply conn_dial with (address := "a"%string)|].
      eapply rtc_l; [eapply (conn_publish _ _ _ 0 "a" None [_] []); reflexivity|].
      eapply rtc_l; [eapply (conn_publish _ _ _ 1 "a" None [] []); reflexivity|].
      apply rtc_refl.
    - reflexivity. }
  exists t. split; [done|]. split; [done|]. by apply (connection_cache t []).
Defined.
