(* ===== verification/ElectionProps.v ===== *)
(** * Elections: the properties

    Voting and campaigning, stated of the operations of [RaftElection] along
    arbitrary histories of a node ([RaftNode]). *)

From S2P Require Import Prelude.
From S2P Require Import Codecs.
From S2P Require Import Log.
From S2P Require Import MemoryLog.
From S2P Require Import Config.
From S2P Require Import Stores.
From S2P Require Import Store.
From S2P Require Import RaftState.
From S2P Require Import RaftElection.
From S2P Require Import RaftInvariant.
From S2P Require Import ElectionFacts.
From S2P Require Import RaftNode.
From S2P Require Import PendingFacts.
From S2P Require Import Doubles.

Section Elections.
Context {SS LS SM NS : Type}
  `{StableStoreLaws SS} `{LogStoreLaws LS} `{StateMachineLaws SM} `{SnapshotStoreLaws NS}.
Abbreviation Raft := (Raft SS LS SM NS).
Implicit Types r : Raft.

(** C7: Whatever RPCs, timeouts, proposals, applications, snapshots and restarts
    a node goes through, in any order, as the steps of [node_step], its memory
    and its durable stores stay consistent, its term, its commit index and its
    apply index never decrease, its vote is never changed within a term, and no
    committed entry is lost or replaced.  In every section calls of the stores
    may fail: a save that fails may have had its effect; a call of the log store
    that fails is assumed to have had none, which the file store keeps only
    where the disk does not fail ([partial_batch_kept]).  An InstallSnapshot may
    fail anywhere; when it has cut the durable log by then, the history goes on
    with a new start of the process from whatever it has left (the code can run
    on there, and is inconsistent then: [refused_snapshot_installed]).
    Requests are well formed, installed snapshots agree with what is committed,
    as senders ensure in a cluster ([network_promised]), and terms and indexes keep their
    width. *)
Theorem history_invariant r r' :
  node_ok r → rtc node_step r r' → node_ok r' ∧ advances r r'.
Proof. apply node_steps_evolves. Qed.

(** C9: A node never grants two candidates its vote in one term, whatever
    history of [node_step] lies between the two requests, restarts included, where the
    first candidate's identifier is not the reserved [NoVote], -1.  (A validated
    identifier is not negative; the wire can make -1 of one that needs more than
    32 bits, and a vote for that is not recorded: [unrecorded_vote].) *)
Theorem one_vote_per_term r0 req1 r1 resp1 r2 req2 r3 resp2 :
  node_ok r0 → rv_Term req1 < 2 ^ 64 → rv_CandidateID req1 ≠ NoVote →
  HandleRequestVote r0 req1 = (r1, resp1) → rvr_VoteGranted resp1 = true →
  rtc node_step r1 r2 →
  HandleRequestVote r2 req2 = (r3, resp2) → rvr_VoteGranted resp2 = true →
  rv_Term req2 = rv_Term req1 → rv_CandidateID req2 = rv_CandidateID req1.
Proof.
  intros Hok Ht Hc Hr1 Hg1 Hs Hr2 Hg2 Heq.
  pose proof Hr1 as [Hok1 _]%HandleRequestVote_evolves; [|done..].
  apply HandleRequestVote_granted in Hr1 as (_ & Ht1 & Hv1 & _); [|done..].
  apply node_steps_evolves in Hs as [Hok2 Ha2]; [|done].
  pose proof Hr2 as [_ Ha3]%HandleRequestVote_evolves; [|done|by rewrite Heq].
  apply HandleRequestVote_granted in Hr2 as (_ & Ht3 & Hv3 & _); [|done|by rewrite Heq|done].
  assert (advances r1 r3) as Ha by (by transitivity r2).
  rewrite <- Hv3, <- Hv1. apply (adv_vote _ _ Ha); congruence.
Qed.

(** A vote is durable before it is granted: the stable store then records
    it, or a later term that a failed save has already written. *)
Theorem vote_is_durable r req r' resp :
  node_ok r → rv_Term req < 2 ^ 64 → rv_CandidateID req ≠ NoVote →
  HandleRequestVote r req = (r', resp) → rvr_VoteGranted resp = true →
  let d := stable_state (stable r') in
  rv_Term req < CurrentTerm d ∨
  CurrentTerm d = rv_Term req ∧ VotedFor d = rv_CandidateID req.
Proof.
  intros Hok Ht Hc Hh Hg. pose proof Hh as [Hok' _]%HandleRequestVote_evolves; [|done..].
  apply HandleRequestVote_granted in Hh as (_ & Ht' & Hv' & _); [|done..].
  destruct (ok_stable _ Hok') as [Hv _ _ _]. simpl in *. rewrite Ht', Hv' in Hv.
  destruct Hv as [?|[? [?|?]]]; [by left|congruence|right; by split].
Qed.

(** C25: On a stable store that does not fail, a node grants its vote exactly
    when Raft's rule allows it: the term is not stale, the node is free to
    vote for this candidate in that term, and the candidate's log is at least
    as up to date as its own (by last term, then by last index). *)
Theorem vote_decision `{!StableStoreLive SS} r req r' resp :
  node_ok r → rv_Term req < 2 ^ 64 → NoVote ≤ rv_CandidateID req →
  HandleRequestVote r req = (r', resp) →
  rvr_VoteGranted resp = true ↔
  currentTerm r ≤ rv_Term req ∧
  (currentTerm r < rv_Term req ∨ votedFor r = NoVote ∨ votedFor r = rv_CandidateID req) ∧
  (lastTerm r < rv_LastLogTerm req ∨
   lastTerm r = rv_LastLogTerm req ∧ lastIndex r ≤ rv_LastLogIndex req).
Proof.
  intros Hok Ht Hc Hh. rewrite <- upToDate_spec by done. fold (may_grant r req). split.
  - intros Hg. by eapply HandleRequestVote_granted.
  - intros Hm. by eapply HandleRequestVote_live.
Qed.

(** C11: A node becomes leader through an election only with the votes of a
    majority, its own included, all granted in the one term it campaigns in;
    it then has recorded its own vote in that term, keeps its log, adds a
    durable no-op of the term, and resets every peer's progress. *)
Theorem leader_needs_majority r rs :
  node_ok r → currentTerm r < 2 ^ 64 - 1 → lastIndex r + 2 < 2 ^ 63 →
  state r ≠ Leader → state (startElection r rs) = Leader →
  let r' := startElection r rs in
  let t := currentTerm r + 1 in
  majority r ≤ 1 + grants t (take (length (peers r)) rs) ∧
  currentTerm r' = t ∧ votedFor r' = id r ∧
  log r' = log r ++ [mkLogEntry (lastIndex r + 1) t NoopOperation "" ""] ∧
  log_entries (logStore r') = log r' ∧
  ∀ p, p ∈ peers r →
    nextIndex r' !! ID p = Some (lastIndex r' + 1) ∧ matchIndex r' !! ID p = Some 0.
Proof.
  intros Hok Ht Hb Hs Hl r' t. subst r' t.
  apply startElection_won in Hl as (Hm & r1 & Hev & Ht1 & Hv1 & Hl1 & Hm1 & Hn); [|done..].
  destruct Hn as [Hlog Hdur _ [Htn Hvn] _ Hprog].
  assert (lastIndex r1 = lastIndex r) as Hli by (unfold lastIndex, base; by rewrite Hl1, Hm1).
  split_and!; try (done || congruence).
  intros p Hp. apply Hprog. destruct Hev as [_ []]. by destruct adv_id as [_ ->].
Qed.

(** C36: And a majority is enough: on stores that do not fail, a candidate that
    hears no higher term and is granted a majority becomes leader. *)
Theorem majority_elects `{!StableStoreLive SS} `{!LogStoreLive LS} r rs :
  node_ok r → currentTerm r < 2 ^ 64 - 1 → lastIndex r + 1 < 2 ^ 63 →
  Forall (λ resp, rvr_Term resp ≤ currentTerm r + 1) (take (length (peers r)) rs) →
  1 < majority r ≤ 1 + grants (currentTerm r + 1) (take (length (peers r)) rs) →
  state (startElection r rs) = Leader.
Proof. apply startElection_elected. Qed.
End Elections.

(** ** Witnesses *)

Definition follower0 : ramRaft :=
  started 0 (mkStableState 1 NoVote 1 1) [noop_entry 1 1; set_entry 2 1 "k" "v"] None.

Lemma follower0_ok : node_ok follower0.
Proof. by apply (started_ok _ _ _ _ 0); vm_compute. Qed.

Lemma history_invariant_witness :
  ∃ r', rtc node_step follower0 r' ∧ currentTerm r' = 2 ∧ node_ok r' ∧ advances follower0 r'.
Proof.
  assert (rtc node_step follower0 (startElection_begin follower0).1) as Hs.
  { apply rtc_once, step_section. eapply step_campaign; [|by apply surjective_pairing].
    split; vm_compute; reflexivity. }
  eexists. split; [exact Hs|]. split; [vm_compute; reflexivity|].
  apply (history_invariant _ _ follower0_ok Hs).
Defined.

Definition ask (c : Z) : RequestVoteRequest := mkRequestVote 5 c 2 1.

Lemma one_vote_per_term_witness :
  let r1 := (HandleRequestVote follower0 (ask 1)).1 in
  rvr_VoteGranted (HandleRequestVote follower0 (ask 1)).2 = true ∧
  ∀ c, rvr_VoteGranted (HandleRequestVote r1 (ask c)).2 = true → c = 1.
Proof.
  split; [vm_compute; reflexivity|]. intros c Hg.
  set (r1 := (HandleRequestVote follower0 (ask 1)).1) in *.
  apply (one_vote_per_term follower0 (ask 1) r1 (HandleRequestVote follower0 (ask 1)).2
    r1 (ask c) (HandleRequestVote r1 (ask c)).1 (HandleRequestVote r1 (ask c)).2 follower0_ok);
    [vm_compute; reflexivity|done|by apply surjective_pairing|vm_compute; reflexivity|apply rtc_refl
    |by apply surjective_pairing|exact Hg|reflexivity].
Defined.

Lemma vote_is_durable_witness :
  let r1 := (HandleRequestVote follower0 (ask 1)).1 in
  5 < CurrentTerm (stable_state (stable r1)) ∨
  CurrentTerm (stable_state (stable r1)) = 5 ∧ VotedFor (stable_state (stable r1)) = 1.
Proof.
  apply (vote_is_durable follower0 (ask 1) (HandleRequestVote follower0 (ask 1)).1
    (HandleRequestVote follower0 (ask 1)).2 follower0_ok);
    [vm_compute; reflexivity|done|by apply surjective_pairing|vm_compute; reflexivity].
Defined.

Lemma vote_decision_witness :
  rvr_VoteGranted (HandleRequestVote follower0 (mkRequestVote 5 1 1 1)).2 = false.
Proof.
  apply not_true_is_false.
  rewrite (vote_decision follower0 (mkRequestVote 5 1 1 1)
    (HandleRequestVote follower0 (mkRequestVote 5 1 1 1)).1 _ follower0_ok);
    [|vm_compute; reflexivity|vm_compute; congruence|by apply surjective_pairing].
  intros (_ & _ & [Hlt|[_ Hle]]); [by vm_compute in Hlt|by vm_compute in Hle].
Defined.

Lemma leader_needs_majority_witness :
  let r := follower0 in
  let rs := [mkRequestVoteResponse 2 true] in
  state (startElection r rs) = Leader ∧ majority r ≤ 1 + grants 2 (take (length (peers r)) rs).
Proof.
  intros r rs. assert (state (startElection r rs) = Leader) as Hl by (vm_compute; reflexivity).
  split; [exact Hl|].
  apply (leader_needs_majority r rs follower0_ok); [vm_compute; reflexivity..|done|exact Hl].
Defined.

Lemma majority_elects_witness :
  state (startElection follower0 [mkRequestVoteResponse 1 false; mkRequestVoteResponse 2 true]) = Leader.
Proof.
  apply (majority_elects follower0); [exact follower0_ok|vm_compute; reflexivity..| |].
  - by apply (bool_decide_unpack _); vm_compute.
  - split; vm_compute; congruence.
Defined.
