(* ===== verification/ReplicationProps.v ===== *)
(** * Replication: the properties

    Proposals, AppendEntries at both ends, the commit rule, the convergence of
    an exchange, and the apply loop with the clients that wait on it. *)

From S2P Require Import Prelude.
From S2P Require Import Codecs.
From S2P Require Import Log.
From S2P Require Import MemoryLog.
From S2P Require Import Config.
From S2P Require Import Stores.
From S2P Require Import Store.
From S2P Require Import RaftState.
From S2P Require Import RaftElection.
From S2P Require Import RaftReplication.
From S2P Require Import RaftApply.
From S2P Require Import RaftInvariant.
From S2P Require Import ElectionFacts.
From S2P Require Import ReplicationFacts.
From S2P Require Import ApplyFacts.
From S2P Require Import RaftNode.
From S2P Require Import Untouched.
From S2P Require Import PendingFacts.
From S2P Require Import LoopFacts.
From S2P Require Import ResultFacts.
From S2P Require Import ReplicationLive.
From S2P Require Import RaftExchange.
From S2P Require Import Doubles.
From S2P Require Import Samples.

Section Replication.
Context {SS LS SM NS : Type}
  `{StableStoreLaws SS} `{LogStoreLaws LS} `{StateMachineLaws SM} `{SnapshotStoreLaws NS}.
Abbreviation Raft := (Raft SS LS SM NS).
Implicit Types r l f : Raft.

(** ** Following *)

(** C12: A follower acknowledges AppendEntries only for a term that is not
    stale, a prefix it holds with the named term, and entries that contradict
    nothing it has committed; its log is then exactly the merge of the
    request into it (nothing is dropped unless a term conflicts), and its
    commit index follows the leader's as far as its log goes. *)
Theorem append_entries_merges r req r' resp :
  node_ok r → request_ok req → HandleAppendEntries r req = (r', resp) →
  aer_Success resp = true →
  currentTerm r ≤ ae_Term req ∧ currentTerm r' = ae_Term req ∧ state r' = Follower ∧
  term_of r (ae_PrevLogIndex req) = Some (ae_PrevLogTerm req) ∧
  log r' = merge r (ae_PrevLogIndex req) (ae_Entries req) ∧
  log_entries (logStore r') = log r' ∧
  (∀ i, base r < i ≤ commitIndex r → entry r' i = entry r i) ∧
  commitIndex r' = Z.max (commitIndex r) (Z.min (ae_LeaderCommit req) (lastIndex r')).
Proof.
  intros Hok Hreq Hh Hs.
  apply HandleAppendEntries_spec in Hh as ([Hok' Hadv] & Hm & _ & _ & Hx); [|done..].
  destruct (Hx Hs) as (?&?&?&_&?&_&?&?). split_and!; try done; [apply Hok'|].
  intros i Hi. apply (adv_committed _ _ Hadv). unfold base in *. by rewrite Hm.
Qed.

(** C26: On stores that do not fail the follower's answer is decided by the
    request and its log alone, and a refusal changes neither its log nor its
    commit index. *)
Theorem append_entries_decision `{!StableStoreLive SS} `{!LogStoreLive LS} r req r' resp :
  node_ok r → request_ok req → HandleAppendEntries r req = (r', resp) →
  (aer_Success resp = true ↔
   currentTerm r ≤ ae_Term req ∧
   term_of r (ae_PrevLogIndex req) = Some (ae_PrevLogTerm req) ∧
   repairable r (ae_PrevLogIndex req) (ae_Entries req)) ∧
  (aer_Success resp = false → log r' = log r ∧ commitIndex r' = commitIndex r).
Proof.
  intros Hok Hreq Hh. split; [split|].
  - intros Hs. apply HandleAppendEntries_spec in Hh as (_ & _ & _ & _ & Hx); [|done..].
    by destruct (Hx Hs) as (?&_&_&_&?&?&_).
  - intros (Ht & Hp & Hr). by eapply HandleAppendEntries_accepts.
  - intros Hs. destruct (decide (currentTerm r ≤ ae_Term req)) as [Ht|Ht]; cycle 1.
    { revert Hh. unfold HandleAppendEntries. rewrite decide_True by lia. by intros [= <- _]. }
    eapply HandleAppendEntries_rejects in Hh as Hrej; [|done..|].
    + by destruct Hrej as (_ & _ & _ & ? & _ & ?).
    + intros [Hp Hr]. eapply HandleAppendEntries_accepts in Hh; [congruence|done..].
Qed.

(** A duplicated request is harmless: handling again a request that was
    acknowledged leaves the log and the commit index as they are. *)
Theorem append_entries_idempotent r req r1 resp1 r2 resp2 :
  node_ok r → request_ok req →
  HandleAppendEntries r req = (r1, resp1) → aer_Success resp1 = true →
  HandleAppendEntries r1 req = (r2, resp2) → aer_Success resp2 = true →
  log r2 = log r1 ∧ commitIndex r2 = commitIndex r1.
Proof.
  intros Hok Hreq Hh1 Hs1 Hh2 Hs2.
  apply HandleAppendEntries_spec in Hh1 as ([Hok1 _] & Hm1 & _ & _ & Hx1); [|done..].
  apply HandleAppendEntries_spec in Hh2 as (_ & Hm2 & _ & _ & Hx2); [|done..].
  destruct (Hx1 Hs1) as (_ & _ & _ & _ & Ht & _ & Hl1 & Hc1).
  destruct (Hx2 Hs2) as (_ & _ & _ & _ & _ & _ & Hl2 & Hc2).
  apply term_of_range in Ht. rewrite (merge_again r r1) in Hl2 by done.
  split; [done|]. rewrite Hc2, (lastIndex_same r1 r2) by done. lia.
Qed.

(** A follower whose snapshot reaches past the prefix a request names
    refuses it, whatever its log holds: the leader cannot learn from an
    AppendEntries retransmission that the entries had arrived. *)
Theorem refused_below_boundary r req r' resp :
  node_ok r → request_ok req → ae_PrevLogIndex req < base r →
  HandleAppendEntries r req = (r', resp) → aer_Success resp = false.
Proof.
  intros Hok Hreq Hb Hh. apply not_true_is_false. intros Hs.
  apply HandleAppendEntries_spec in Hh as (_ & _ & _ & _ & Hx); [|done..].
  destruct (Hx Hs) as (_ & _ & _ & _ & Ht & _). apply term_of_range in Ht. lia.
Qed.

(** ** Leading *)

(** A proposal is accepted only by a leader whose state machine works; it
    is then appended durably at the next index in the leader's term, and a
    fresh channel waits for its outcome. *)
Theorem propose_appends r command r' i c :
  node_ok r → room r → command_fits r command → Propose r command = (r', Ok (i, c)) →
  Command_Validate command = None ∧ state r = Leader ∧ applier r = true ∧ applyErr r = None ∧
  i = lastIndex r + 1 ∧ i = lastIndex r' ∧
  entry r' i = Some (mkLogEntry i (currentTerm r) (c_Operation command) (c_Key command)
                       (c_Value command)) ∧
  log_entries (logStore r') = log r' ∧ take (length (log r)) (log r') = log r ∧
  pendingResults r' !! i = Some c ∧ channels r' !! c = Some (mkChannel [] false) ∧
  commitIndex r' = commitIndex r.
Proof. apply Propose_spec. Qed.

(** The request a leader sends a peer is well formed, starts at that
    peer's [nextIndex] with the term of the entry before it, and carries the
    leader's whole suffix, so that it always reaches past the commit index it
    announces. *)
Theorem leader_request_covers_commit r peerID req :
  node_ok r → buildAppendEntries r peerID = Some req →
  state r = Leader ∧ ae_Term req = currentTerm r ∧
  nextIndex r !! peerID = Some (ae_PrevLogIndex req + 1) ∧
  term_of r (ae_PrevLogIndex req) = Some (ae_PrevLogTerm req) ∧
  (∀ k, ae_Entries req !! k = entry r (ae_PrevLogIndex req + 1 + Z.of_nat k)) ∧
  request_ok req ∧
  ae_LeaderCommit req = commitIndex r ∧
  commitIndex r ≤ ae_PrevLogIndex req + lenZ (ae_Entries req).
Proof.
  intros Hok Hb. apply buildAppendEntries_spec in Hb as (?&?&?&?&Ht&Hes&?&?&?); [|done].
  split_and!; try (done || lia). intros k. rewrite Hes. apply after_lookup.
  apply term_of_range in Ht. lia.
Qed.

(** C13: The commit rule: the leader commits the greatest index past its commit
    index that holds an entry of its own term on a majority (itself and the
    peers whose match index reaches it), and nothing when there is none; the
    scan always ends. *)
Theorem commit_rule `{!StableStoreLive SS} r r' changed :
  node_ok r → advanceCommitIndexLocked r = (r', changed) →
  log r' = log r ∧
  ((∃ i, commitIndex r < i ≤ lastIndex r ∧ commitIndex r' = i ∧ changed = true ∧
      committable r i ∧ ∀ j, i < j ≤ lastIndex r → ¬ committable r j) ∨
   r' = r ∧ changed = false ∧ ∀ j, commitIndex r < j ≤ lastIndex r → ¬ committable r j).
Proof.
  intros Hok. unfold advanceCommitIndexLocked.
  rewrite lastLogIndex_eq by apply Hok. fold (base r) (lastIndex r). intros Ha.
  assert (changed = false → ∀ j, commitIndex r < j ≤ lastIndex r → ¬ committable r j) as Hlive.
  { intros -> j. eapply advanceCommit_live; [done| | |exact Ha]; lia. }
  apply advanceCommit_from_spec in Ha; [|done|done|lia].
  destruct Ha as [(_ & Hl & _ & _ & i & Hi & Hc & Hmax & Heq)|(-> & -> & Hnone)]; cycle 1.
  { split; [done|]. by right. }
  split; [done|]. left. exists i. destruct changed; [split_and!; (done || lia)|].
  by destruct (Hlive eq_refl i).
Qed.

(** C14: Replication converges: if the leader and the follower share an entry
    (or boundary) below the peer's [nextIndex] and their logs are compatible
    as Raft's log matching and leader completeness require, then one call of
    [replicateToPeer] ends, after at most [next - p0] requests, with the
    follower holding everything the leader holds and the leader knowing it. *)
Theorem replication_converges `{!StableStoreLive SS} `{!LogStoreLive LS} n l f peerID next p0 t0 :
  node_ok l → node_ok f → state l = Leader → currentTerm f ≤ currentTerm l →
  is_Some (Config.peerByID peerID (peers l)) → default false (replicating l !! peerID) = false →
  compatible l f →
  nextIndex l !! peerID = Some next → next ≤ lastIndex l + 1 →
  p0 < next → next - p0 ≤ Z.of_nat n →
  term_of l p0 = Some t0 → term_of f p0 = Some t0 →
  ∃ l' f', replicateToPeer n l f peerID = (l', f', true) ∧ node_ok l' ∧ node_ok f' ∧
    caught_up l f' ∧ lastIndex l ≤ readUint (matchIndex l') peerID ∧
    replicating l' !! peerID = None.
Proof.
  intros Hl Hf Hs Ht [peer Hpeer] Hrep Hcp Hn Hlast Hp Hfuel Htl Htf.
  unfold replicateToPeer, beginReplication. rewrite Hpeer.
  rewrite decide_False by (intros [Hx|Hx]; [by apply Hx|by rewrite Hrep in Hx]).
  set (l0 := l <| replicating := _ |>).
  assert (node_ok l0) as Hl0 by (by apply (same_core_evolves l l0)).
  destruct (exchange_converges n l0 f peerID next p0 t0)
    as (l1 & f1 & -> & [Hl1 _] & [Hf1 _] & _ & _ & Hcu & Hm); try done.
  { by apply (compatible_same l l0 f f). }
  exists (endReplication l1 peerID), f1. split_and!; try done.
  - by apply (same_core_evolves l1).
  - cbn. by rewrite lookup_delete_eq.
Qed.

(** ** Applying *)

(** C18: [applyCommitted] runs the committed entries in log order, each once.
    Between its sections any section may run that leaves the state machine and
    the apply index alone, which is every one but an InstallSnapshot and the
    loop's own.  Wherever the loop then is, the entries it has run follow the
    apply index it started from without a gap, each is the committed one at its
    index as far as it is not compacted, the machine is the first one run over
    exactly these, and all but perhaps the last are recorded as applied.  When
    nothing runs in between the loop always ends, and if it ends without an
    error it has run everything that was committed. *)
Theorem apply_in_order r :
  node_ok r →
  (∀ p r', rtc apply_step (Between, r) (p, r') →
     node_ok r' ∧ ∃ es extra,
       contiguous (lastApplied r + 1) (es ++ extra) ∧ lastApplied r' = lastApplied r + lenZ es ∧
       Forall (still_committed r') (es ++ extra) ∧
       run_entries (machine r) (es ++ extra) = Some (machine r') ∧
       match p with
       | Between | Chosen _ => extra = []
       | Ran e => extra = [e]
       | Halted => (length extra ≤ 1)%nat
       end) ∧
  (∀ r', section_step r r' → undisturbed r r' ∨ disturbing r r') ∧
  (∀ fuel, commitIndex r - lastApplied r < Z.of_nat fuel →
     ∃ r' err, applyCommitted fuel r = (r', Some err) ∧ node_ok r' ∧ log r' = log r ∧
       (err = None → lastApplied r' = commitIndex r ∧
          run_entries (machine r) (backlog r) = Some (machine r'))).
Proof.
  intros Hok. split_and!.
  - intros p r' Hs. apply apply_steps_run in Hs as (Hok' & es & extra & Hc & Hl & Hcm & Hr & Hp); [|done].
    split; [done|]. exists es, extra. split_and!; [done..|]. by destruct p; [|destruct Hp..|].
  - intros r'. by apply section_undisturbed.
  - intros fuel Hf. destruct (applyCommitted_returns fuel r) as (r' & err & Ha); [done..|].
    exists r', err. split; [done|].
    apply applyCommitted_spec in Ha as ([Hok' _] & Hl & _ & _ & Hx); [|done].
    split_and!; try done. intros ->. by apply Hx.
Qed.

(** And it does end without error: when the machine accepts the committed
    entries and saves succeed, the loop applies them all. *)
Theorem apply_drains `{!StableStoreLive SS} r m :
  node_ok r → applier r = true → run_entries (machine r) (backlog r) = Some m →
  ∃ r', applyCommitted (S (Z.to_nat (commitIndex r - lastApplied r))) r = (r', Some None) ∧
        machine r' = m ∧ lastApplied r' = commitIndex r.
Proof. intros Hok Ha Hr. apply applyCommitted_drains; try done. lia. Qed.

(** C32: Along any history every client channel gets at most one result and is
    closed once, right after it; no two pending proposals share a channel, so
    no send or close ever panics. *)
Theorem client_channels_safe r r' :
  node_ok r → pending_ok r → rtc node_step r r' →
  pending_ok r' ∧
  ∀ c ch, channels r' !! c = Some ch →
    ch = mkChannel [] false ∨ ∃ res, ch = mkChannel [res] true.
Proof.
  intros Hok Hp Hs. assert (pending_ok r') as Hp' by by eapply node_steps_pending.
  split; [done|]. intros c ch Hc. by eapply Forall_lookup_1 in Hc; [|apply Hp'].
Qed.

(** Completing an entry delivers success, with the entry's index, to the
    client that waits on that index, and to no other. *)
Theorem completion_delivers r e r' c :
  node_ok r → pending_ok r → lastApplied r < Index e ≤ commitIndex r →
  applyCommitted_complete r e = (r', None) → pendingResults r !! Index e = Some c →
  channels r' !! c = Some (mkChannel [mkResult (Index e) None] true) ∧
  lastApplied r' = Index e ∧
  (∀ i d, i ≠ Index e → pendingResults r !! i = Some d →
     pendingResults r' !! i = Some d ∧ channels r' !! d = channels r !! d) ∧
  pendingResults r' !! Index e = None.
Proof.
  intros Hok Hp Hi Hc Hpend. pose proof Hc as (_ & _ & _ & _ & _ & _ & Ha & _)%complete_spec; [|done..].
  specialize (Ha eq_refl). revert Hc. unfold applyCommitted_complete. case_decide; [done|].
  destruct (saveStableValuesLocked _ _ _ _ _) as [r1 [e1|]] eqn:Hs; [done|].
  apply save_same in Hs as [Hp1 Hc1]. cbn. rewrite Hp1, Hpend. intros [= <-]. cbn in *.
  rewrite Hc1. unfold complete_channel. split_and!; try done.
  - rewrite list_lookup_alter_eq. by rewrite (pend_open _ Hp _ _ Hpend).
  - intros i d Hne Hd. rewrite lookup_delete_ne by done. split; [done|].
    rewrite list_lookup_alter_ne; [done|]. intros ->. by destruct Hne; eapply pend_inj.
  - by rewrite lookup_delete_eq.
Qed.
End Replication.

(** ** Witnesses *)

Definition catch_up : AppendEntriesRequest :=
  mkAppendEntries 2 0 1 1 [set_entry 2 1 "k" "v"; noop_entry 3 2] 1.

Lemma catch_up_ok : request_ok catch_up.
Proof. constructor; first [by apply Forall_true|by_computation]. Qed.

Lemma append_entries_merges_witness :
  let '(r', resp) := HandleAppendEntries behind catch_up in
  aer_Success resp = true ∧ log r' = merge behind 1 (ae_Entries catch_up).
Proof.
  destruct (HandleAppendEntries behind catch_up) as [r' resp] eqn:Hh.
  assert (aer_Success resp = true) as Hs.
  { change resp with (snd (r', resp)). rewrite <- Hh. vm_compute. reflexivity. }
  split; [exact Hs|].
  apply (append_entries_merges behind catch_up r' resp behind_ok catch_up_ok Hh Hs).
Defined.

Lemma append_entries_decision_witness :
  aer_Success (HandleAppendEntries behind
    (mkAppendEntries 2 0 2 1 [noop_entry 3 2] 1)).2 = false.
Proof.
  set (req := mkAppendEntries 2 0 2 1 [noop_entry 3 2] 1).
  assert (request_ok req) as Hreq by (constructor; first [by apply Forall_true|by_computation]).
  apply not_true_is_false. intros Hs.
  apply (append_entries_decision behind req (HandleAppendEntries behind req).1 _ behind_ok Hreq)
    in Hs as (_ & Ht & _); [by vm_compute in Ht|by apply surjective_pairing].
Defined.

Lemma append_entries_idempotent_witness :
  let r1 := (HandleAppendEntries behind catch_up).1 in
  log (HandleAppendEntries r1 catch_up).1 = log r1.
Proof.
  set (r1 := (HandleAppendEntries behind catch_up).1).
  apply (append_entries_idempotent behind catch_up r1 (HandleAppendEntries behind catch_up).2
    (HandleAppendEntries r1 catch_up).1 (HandleAppendEntries r1 catch_up).2 behind_ok catch_up_ok);
    first [by apply surjective_pairing|vm_compute; reflexivity].
Defined.

Lemma propose_appends_witness :
  let r' := (Propose leader2 (mkCommand SetOperation "a" "b")).1 in
  entry r' 4 = Some (set_entry 4 2 "a" "b") ∧ channels r' !! 0%nat = Some (mkChannel [] false).
Proof.
  set (res := Propose leader2 (mkCommand SetOperation "a" "b")).
  assert (res = (res.1, Ok (4, 0%nat))) as Hp by (vm_compute; reflexivity).
  destruct (propose_appends leader2 (mkCommand SetOperation "a" "b") res.1 4 0%nat leader2_ok) as (_&_&_&_&_&_&He&_&_&_&Hc&_).
  - split; vm_compute; reflexivity.
  - exact I.
  - exact Hp.
  - split; [exact He|exact Hc].
Defined.

Lemma leader_request_covers_commit_witness :
  ∃ req, buildAppendEntries leader2 1 = Some req ∧
    commitIndex leader2 ≤ ae_PrevLogIndex req + lenZ (ae_Entries req).
Proof.
  destruct (buildAppendEntries leader2 1) as [req|] eqn:Hb; [|by vm_compute in Hb].
  exists req. split; [reflexivity|].
  apply (leader_request_covers_commit leader2 1 req leader2_ok Hb).
Defined.

(** The leader after one acknowledgement of its whole log. *)
Definition acknowledged : ramRaft := leader2 <| matchIndex := <[1 := 3]> (matchIndex leader2) |>.

Lemma matchIndex_ok (r : ramRaft) m : node_ok r → node_ok (r <| matchIndex := m |>).
Proof. intros Hok. by apply (same_core_evolves r). Qed.

Lemma acknowledged_ok : node_ok acknowledged.
Proof. exact (matchIndex_ok leader2 _ leader2_ok). Qed.

Lemma commit_rule_witness :
  commitIndex (advanceCommitIndexLocked acknowledged).1 = 3.
Proof.
  destruct (advanceCommitIndexLocked acknowledged) as [r' changed] eqn:Ha.
  destruct (commit_rule acknowledged r' changed acknowledged_ok Ha)
    as [_ [(i & Hi & Heq & _ & _ & Hmax)|(_ & _ & Hnone)]].
  - simpl. rewrite Heq. assert (lastIndex acknowledged = 3) as Hl by (vm_compute; reflexivity).
    destruct (decide (i < 3)) as [Hlt|]; [|lia].
    destruct (Hmax 3); [lia|]. split; vm_compute; [reflexivity|congruence].
  - destruct (Hnone 3); split; vm_compute; (reflexivity || congruence).
Defined.

Lemma replication_converges_witness :
  ∃ l' f', replicateToPeer 3 leader2 behind 1 = (l', f', true) ∧ caught_up leader2 f'.
Proof.
  destruct (replication_converges 3 leader2 behind 1 4 1 1 leader2_ok behind_ok)
    as (l' & f' & He & _ & _ & Hc & _); try (vm_compute; (reflexivity || congruence)).
  - vm_compute. by eexists.
  - by apply (prefix_compatible leader2 behind 1); vm_compute.
  - exists l', f'. split; [exact He|exact Hc].
Defined.

(** A follower whose snapshot covers index 2. *)
Definition compacted2 : ramRaft :=
  started 1 (mkStableState 2 NoVote 2 2) [noop_entry 3 2]
    (Some (mkSnapshot 2 1 (marshal {[ "k" := "v" ]}))).

Lemma compacted2_ok : node_ok compacted2.
Proof. by apply (started_ok _ _ _ _ 2); vm_compute. Qed.

Lemma refused_below_boundary_witness :
  aer_Success (HandleAppendEntries compacted2 catch_up).2 = false.
Proof.
  apply (refused_below_boundary compacted2 catch_up (HandleAppendEntries compacted2 catch_up).1 _
    compacted2_ok catch_up_ok); [vm_compute; reflexivity|by apply surjective_pairing].
Defined.



(** The loop has chosen an entry, a replication begins, the entry runs. *)
Lemma one_entry_ran :
  ∃ e (r' : ramRaft), rtc apply_step (Between, committed4) (Ran e, r') ∧ Index e = lastApplied committed4 + 1.
Proof.
  destruct (applyCommitted_fetch committed4) as [|e|err] eqn:Hf;
    [by vm_compute in Hf| |by vm_compute in Hf].
  pose proof (fetch_spec _ committed4_ok) as Hsp. rewrite Hf in Hsp. destruct Hsp as (_ & _ & Hi & _).
  set (r1 := (beginReplication committed4 1).1).
  assert ((applyCommitted_execute r1 e).2 = None) as He.
  { revert Hf. vm_compute. intros [= <-]. reflexivity. }
  exists e, (applyCommitted_execute r1 e).1. split; [|done].
  eapply rtc_l; [by apply ap_fetch|].
  eapply rtc_l; [eapply ap_other; [by eapply (step_begin_replication committed4 1), surjective_pairing|]|].
  { split; vm_compute; reflexivity. }
  apply rtc_once. destruct (applyCommitted_execute r1 e) as [r2 err] eqn:Hex. simpl in He. subst err.
  by apply (ap_execute r1 e r2 None).
Qed.

Lemma apply_in_order_witness :
  (∃ e (r' : ramRaft), Index e = lastApplied committed4 + 1 ∧
     run_entry (machine committed4) e = Some (machine r')) ∧
  ∃ r', applyCommitted 4 committed4 = (r', Some None) ∧
    run_entries (machine committed4) (backlog committed4) = Some (machine r').
Proof.
  destruct (apply_in_order committed4 committed4_ok) as (Hint & _ & Hrun). split.
  - destruct one_entry_ran as (e & r' & Hs & Hi). exists e, r'. split; [exact Hi|].
    destruct (Hint _ _ Hs) as (_ & es & extra & Hc & Hl & _ & Hr & ->).
    apply contiguous_app in Hc as [_ [Hie _]]. rewrite Hie in Hi.
    assert (es = []) as -> by (destruct es; [done|]; rewrite lenZ_cons in Hi; pose proof (lenZ_nonneg es); lia).
    simpl in Hr. by destruct (run_entry (machine committed4) e).
  - destruct (Hrun 4%nat) as (r' & err & He & _ & _ & Hr); [vm_compute; reflexivity|].
    exists r'. assert (err = None) as ->.
    { assert ((applyCommitted 4 committed4).2 = Some None) as Hn by (vm_compute; reflexivity).
      rewrite He in Hn. simpl in Hn. congruence. }
    split; [exact He|]. apply Hr. reflexivity.
Defined.

Lemma apply_drains_witness :
  ∃ r', (applyCommitted 4 committed4).2 = Some None ∧
    applyCommitted (S (Z.to_nat (commitIndex committed4 - lastApplied committed4))) committed4
      = (r', Some None) ∧ lastApplied r' = commitIndex committed4.
Proof.
  assert (is_Some (run_entries (machine committed4) (backlog committed4))) as [m Hm]
    by (vm_compute; by eexists).
  destruct (apply_drains committed4 m committed4_ok) as (r' & He & _ & Ha);
    [vm_compute; reflexivity|exact Hm|].
  exists r'. split; [vm_compute; reflexivity|]. split; [exact He|exact Ha].
Defined.

Lemma client_channels_safe_witness :
  pending_ok proposed ∧ length (channels proposed) = 1%nat.
Proof.
  split; [|vm_compute; reflexivity].
  apply (client_channels_safe leader2 proposed leader2_ok).
  - apply no_pending_ok; vm_compute; reflexivity.
  - apply rtc_once, step_section. eapply (step_propose leader2 write _ (Propose leader2 write).2);
      [split; vm_compute; reflexivity|exact I|apply surjective_pairing].
Defined.

Lemma completion_delivers_witness :
  channels (applyCommitted_complete applied3 (set_entry 4 2 "a" "b")).1 !! 0%nat =
    Some (mkChannel [mkResult 4 None] true).
Proof.
  assert (lastApplied applied3 < 4 ≤ commitIndex applied3) as Hi
    by (split; vm_compute; congruence).
  assert (pending_ok applied3) as Hp by (apply (pending_one _ 4); vm_compute; reflexivity).
  assert ((applyCommitted_complete applied3 (set_entry 4 2 "a" "b")).2 = None) as He
    by (vm_compute; reflexivity).
  assert (pendingResults applied3 !! 4 = Some 0%nat) as Hc by (vm_compute; reflexivity).
  destruct (applyCommitted_complete applied3 (set_entry 4 2 "a" "b")) as [r' e] eqn:Heq.
  simpl in He. subst e.
  apply (completion_delivers applied3 (set_entry 4 2 "a" "b") r' 0%nat applied3_ok Hp Hi Heq Hc).
Defined.
