(* ===== verification/SnapshotProps.v ===== *)
(** * Snapshots and recovery: the properties *)

From S2P Require Import Prelude.
From S2P Require Import Codecs.
From S2P Require Import Log.
From S2P Require Import MemoryLog.
From S2P Require Import Config.
From S2P Require Import Stores.
From S2P Require Import Store.
From S2P Require Import RaftState.
From S2P Require Import RaftElection.
From S2P Require Import RaftReplication.
From S2P Require Import RaftApply.
From S2P Require Import RaftSnapshot.
From S2P Require Import RaftRecovery.
From S2P Require Import RaftInvariant.
From S2P Require Import ElectionFacts.
From S2P Require Import ReplicationFacts.
From S2P Require Import ApplyFacts.
From S2P Require Import SnapshotFacts.
From S2P Require Import RecoveryFacts.
From S2P Require Import Doubles.

Section Snapshots.
Context {SS LS SM NS : Type}
  `{StableStoreLaws SS} `{LogStoreLaws LS} `{StateMachineLaws SM} `{SnapshotStoreLaws NS}.
Abbreviation Raft := (Raft SS LS SM NS).
Implicit Types r : Raft.

(** A local snapshot never loses anything: it leaves the log alone, or
    moves the boundary to the apply index, makes the machine's image durable
    there, and keeps every entry and every term from the boundary on, so that
    prefix checks answer as before. *)
Theorem compaction_is_transparent r r' err :
  node_ok r → maybeSnapshot r = (r', err) →
  node_ok r' ∧ lastIndex r' = lastIndex r ∧ machine r' = machine r ∧
  (base r' = base r ∨
   base r' = lastApplied r ∧
   ∃ ns data, snapshotStore r' = Some ns ∧ sm_Snapshot (machine r) = Ok data ∧
     snap_stored ns = Some (mkSnapshot (lastApplied r) (baseTerm r') data)) ∧
  (∀ i, base r' < i → entry r' i = entry r i) ∧
  (∀ i t, base r' ≤ i → matchesPrefixLocked r' i t = matchesPrefixLocked r i t).
Proof.
  intros Hok Hs. pose proof Hs as [Hok' _]%maybeSnapshot_evolves; [|done].
  assert (∀ i, (term_of r' i = term_of r i) →
    ∀ t, matchesPrefixLocked r' i t = matchesPrefixLocked r i t) as Hmp.
  { intros i Heq t. apply eq_true_iff_eq. by rewrite !matchesPrefix_spec, Heq by done. }
  apply maybeSnapshot_spec in Hs as [(Hl & Hm & Hma & _)|[-> Hsn]]; [| |done].
  - assert (base r' = base r) as Hb by (unfold base; by rewrite Hm).
    split; [done|]. split; [by apply lastIndex_same|]. split; [done|]. split; [by left|].
    split; [intros i _; unfold entry; by rewrite Hl, Hb|].
    intros i t _. apply Hmp. by apply term_of_same.
  - pose proof (snapshotted_keeps _ _ Hok Hsn) as (Hb & Hli & Ht & He).
    destruct Hsn as (t & d & ns & ls & _ & _ & Hd & _ & Hst & _ & ->).
    split_and!; try done; [|intros i u Hi; by apply Hmp, Ht].
    right. split; [done|]. by exists ns, d.
Qed.

(** C15: Compaction does not change what a restart rebuilds: a node restarted
    from its compacted log and snapshot comes back, on a fresh machine of the
    same configuration, with its term, vote and commit index, its whole
    committed log applied, and the machine the running node would have had
    after applying that log. *)
Theorem compaction_survives_restart r r' cfg m0 ap ns r2 :
  node_ok r → sm_faithful (machine r) → stable_state (stable r) = election_state r →
  maybeSnapshot r = (r', None) → base r < base r' → snapshotStore r' = Some ns →
  ID (Self cfg) = id r → sm_inv m0 → sm_like m0 (machine r) →
  NewWithSnapshot cfg (stable r') (logStore r') m0 ap ns = Ok r2 →
  node_ok r2 ∧ currentTerm r2 = currentTerm r ∧ votedFor r2 = votedFor r ∧
  log r2 = log r' ∧ commitIndex r2 = commitIndex r ∧ lastApplied r2 = commitIndex r ∧
  run_entries (machine r) (backlog r) = Some (machine r2).
Proof.
  intros Hok Hf Hst Hs Hb Hns Hid Hm0 Hlike Hnew.
  pose proof Hs as [Hok' _]%maybeSnapshot_evolves; [|done].
  pose proof (ok_term _ Hok). pose proof (ok_applied _ Hok) as Ha. pose proof (ok_commit _ Hok).
  destruct (ok_log _ Hok) as [Hb0 _ _ Hwb]. fold (base r) in *. unfold lastIndex in *.
  apply maybeSnapshot_spec in Hs as [(_ & Hm & _)|[_ Hsn]];
    [unfold base in Hb; rewrite Hm in Hb; lia| |done].
  destruct Hsn as (t & d & ns' & ls & Hlt & Ht & Hd & Hni & Hsto & Hes & ->).
  cbn in Hns, Hnew. simplify_eq.
  assert (CurrentTerm (stable_state (stable r)) < 2 ^ 64) as Hw by (rewrite Hst; simpl; lia).
  apply (NewWithSnapshot_spec _ _ _ _ _ _ (lastApplied r)) in Hnew
    as (Hok2 & _ & _ & m' & Hres & Hrec); try done.
  2: exact (node_ok_disk _ Hok' Hw).
  2: { rewrite Hid. apply Hok. }
  2: { intros sn Hsn. rewrite Hsto in Hsn. simplify_eq. simpl. lia. }
  rewrite Hsto in *. simpl in *.
  assert (m' = machine r) as ->.
  { rewrite (sm_round_trip (machine r) m0 d) in Hres; [by simplify_eq|apply Hok|done..]. }
  rewrite Hst in Hrec. unfold raised, recoveredLog in Hrec. simpl in Hrec.
  rewrite (decide_True (P := lastApplied r = lastApplied r)), Hes, !Z.max_l in Hrec by (done || lia).
  destruct Hrec as [_ _ [Ht2 Hv2] [Hl2 _] [Hc2 Ha2] Hrun]. simpl in *.
  by split_and!.
Qed.

(** C17: An InstallSnapshot newer than what the node has applied, accepted
    without error, replaces exactly the prefix it covers: the machine is the
    image, the image is durable, the boundary and the apply index are the
    snapshot's, entries past the boundary stay when the local entry there has
    the snapshot's term and are dropped otherwise, and the node stays
    consistent when the snapshot agrees with what it had committed. *)
Theorem install_replaces_prefix r req r' resp :
  node_ok r → 0 ≤ is_Term req < 2 ^ 64 → is_LastIncludedIndex req < 2 ^ 63 →
  currentTerm r ≤ is_Term req → lastApplied r < is_LastIncludedIndex req →
  HandleInstallSnapshot r req = (r', (resp, None)) →
  base r' = is_LastIncludedIndex req ∧ baseTerm r' = is_LastIncludedTerm req ∧
  lastApplied r' = is_LastIncludedIndex req ∧
  commitIndex r' = Z.max (commitIndex r) (is_LastIncludedIndex req) ∧
  log r' = (if decide (term_of r (is_LastIncludedIndex req) = Some (is_LastIncludedTerm req))
            then after r (is_LastIncludedIndex req) else []) ∧
  log_entries (logStore r') = log r' ∧
  (∃ m, sm_Restore m (is_Data req) = (machine r', None)) ∧
  (∃ ns, snapshotStore r' = Some ns ∧
     snap_stored ns = Some (mkSnapshot (base r') (baseTerm r') (is_Data req))) ∧
  (install_agrees r req → node_ok r').
Proof.
  intros Hok Ht Hb Hterm Hnew Hh.
  assert (install_agrees r req → node_ok r') as Hev.
  { intros Hag. by eapply HandleInstallSnapshot_evolves. }
  apply HandleInstallSnapshot_spec in Hh as (_ & [[Hlt _]|(r1 & _ & _ & _ & _ & Hl & Hm & Hc & _ & Hcase)]);
    [lia| |done..].
  destruct Hcase as [[Hle _]|[_ Hin]]; [lia|].
  destruct Hin as [Hb' Hbt Hlog Hcm Hap Hma _ _ [_ Hls] (ns & Hns & _ & Hst)].
  rewrite (term_of_same r r1) in Hlog by done. rewrite Hb', Hbt, Hcm, Hc.
  split_and!; try done.
  - rewrite Hlog. unfold after, base. by rewrite Hl, Hm.
  - by exists (machine r1).
  - by exists ns.
Qed.

(** A snapshot that is not newer than what the node has applied never
    rolls it back: the log, the machine and the indexes are untouched. *)
Theorem old_install_is_ignored r req r' resp :
  node_ok r → 0 ≤ is_Term req < 2 ^ 64 → is_LastIncludedIndex req < 2 ^ 63 →
  is_LastIncludedIndex req ≤ lastApplied r →
  HandleInstallSnapshot r req = (r', (resp, None)) →
  node_ok r' ∧ log r' = log r ∧ snapshotMeta r' = snapshotMeta r ∧
  commitIndex r' = commitIndex r ∧ lastApplied r' = lastApplied r.
Proof.
  intros Hok Ht Hb Hold Hh.
  apply HandleInstallSnapshot_spec in Hh as (_ & [[_ ->]|(r1 & [Hok1 _] & _ & _ & _ & Hl & Hm & Hc & Ha & Hcase)]);
    [done| |done..].
  destruct Hcase as [[_ ->]|[Hlt _]]; [|lia]. split_and!; try done.
  by apply (same_core_evolves r1).
Qed.

(** C16: Start-up rebuilds the node from its stores, or reports an error: the
    log is the part of the durable log past the snapshot (kept only when it
    reaches the boundary with the boundary's term), the commit index is the
    durable one raised to the boundary, and the machine is the snapshot's
    image run over the committed entries past it. *)
Theorem recovery_is_faithful cfg (ss : SS) (ls : LS) m ap (ns : NS) b0 r :
  disk_ok ss ls b0 → sm_inv m → snap_inv ns → 0 ≤ ID (Self cfg) →
  snap_words (snap_stored ns) → NewWithSnapshot cfg ss ls m ap ns = Ok r →
  let meta := diskMeta (snap_stored ns) in
  let es := recoveredLog b0 (log_entries ls) meta in
  let c := Z.max (CommitIndex (stable_state ss)) (LastIncludedIndex meta) in
  node_ok r ∧ state r = Follower ∧ currentTerm r = CurrentTerm (stable_state ss) ∧
  votedFor r = VotedFor (stable_state ss) ∧ log r = es ∧ snapshotMeta r = meta ∧
  commitIndex r = c ∧ lastApplied r = c ∧
  ∃ m', restored m (snap_stored ns) m' ∧
    run_entries m' (take (Z.to_nat (c - LastIncludedIndex meta)) es) = Some (machine r).
Proof.
  intros Hd Hm Hn Hid Hw Hnew meta es c.
  apply (NewWithSnapshot_spec _ _ _ _ _ _ b0) in Hnew as (Hok & _ & _ & m' & Hres & Hrec); [|done..].
  destruct Hrec as [_ [Hs _] [Ht Hv] [Hl Hmt] [Hc Ha] Hrun]. simpl in *.
  split_and!; try done. by exists m'.
Qed.

(** On stores that do not fail, start-up succeeds as soon as the log
    reaches the commit index, the image restores and the machine takes the
    committed entries; so a crash between any two of the steps that save a
    snapshot and trim the log is repaired by the next start. *)
Theorem recovery_succeeds `{!StableStoreLive SS} `{!LogStoreLive LS} `{!SnapshotStoreLive NS}
    cfg (ss : SS) (ls : LS) m (ns : NS) b0 m1 m2 :
  disk_ok ss ls b0 → snap_inv ns → Config_Validate cfg = None → sm_inv m →
  snap_words (snap_stored ns) →
  let meta := diskMeta (snap_stored ns) in
  let es := recoveredLog b0 (log_entries ls) meta in
  let c := Z.max (CommitIndex (stable_state ss)) (LastIncludedIndex meta) in
  SnapshotMetadata_Validate meta = None → b0 ≤ LastIncludedIndex meta →
  c ≤ LastIncludedIndex meta + lenZ es →
  restored m (snap_stored ns) m1 →
  run_entries m1 (take (Z.to_nat (c - LastIncludedIndex meta)) es) = Some m2 →
  ∃ r, NewWithSnapshot cfg ss ls m true ns = Ok r.
Proof. intros. by eapply (NewWithSnapshot_live _ _ _ _ _ b0 m1 m2). Qed.
End Snapshots.

(** ** Witnesses *)

(** A node that has applied three entries and is due for a snapshot. *)
Definition full : ramRaft :=
  started 0 (mkStableState 2 NoVote 3 3)
    [noop_entry 1 1; set_entry 2 1 "k" "v"; set_entry 3 2 "a" "b"; noop_entry 4 2] None.

Lemma full_ok : node_ok full.
Proof. by apply (started_ok _ _ _ _ 0); vm_compute. Qed.

Definition trimmed : ramRaft := (maybeSnapshot full).1.

Lemma trimmed_eq : maybeSnapshot full = (trimmed, None).
Proof. vm_compute. reflexivity. Qed.

Lemma compaction_is_transparent_witness :
  base trimmed = 3 ∧ entry trimmed 4 = entry full 4 ∧ lastIndex trimmed = 4.
Proof.
  assert (base trimmed = 3) as Hb by (vm_compute; reflexivity). split; [exact Hb|].
  destruct (compaction_is_transparent full trimmed None full_ok trimmed_eq) as (_ & Hl & _ & _ & He & _).
  split; [apply He; rewrite Hb; reflexivity|]. rewrite Hl. vm_compute. reflexivity.
Defined.

Lemma compaction_survives_restart_witness :
  ∃ ns r2, snapshotStore trimmed = Some ns ∧
    NewWithSnapshot (config_of 0) (stable trimmed) (logStore trimmed) (NewMemoryStore 1024) true ns
      = Ok r2 ∧
    run_entries (machine full) (backlog full) = Some (machine r2).
Proof.
  destruct (snapshotStore trimmed) as [ns|] eqn:Hns; [|by vm_compute in Hns].
  destruct (NewWithSnapshot (config_of 0) (stable trimmed) (logStore trimmed)
    (NewMemoryStore 1024) true ns) as [r2|] eqn:Hnew.
  - exists ns, r2. split; [reflexivity|]. split; [exact Hnew|].
    apply (compaction_survives_restart full trimmed (config_of 0) (NewMemoryStore 1024) true ns r2
      full_ok I); [vm_compute; reflexivity|exact trimmed_eq|vm_compute; reflexivity|exact Hns
      |vm_compute; reflexivity|apply NewMemoryStore_inv|vm_compute; reflexivity|exact Hnew].
  - exfalso. vm_compute in Hns. injection Hns as <-. by vm_compute in Hnew.
Defined.

(** A follower with one entry is sent the image of three. *)
Definition one : ramRaft := started 1 (mkStableState 1 NoVote 1 1) [noop_entry 1 1] None.

Lemma one_ok : node_ok one.
Proof. by apply (started_ok _ _ _ _ 0); vm_compute. Qed.

Definition shipped (i : Z) : InstallSnapshotRequest :=
  mkInstallSnapshot 2 0 i 2 (marshal {[ "k" := "v"; "a" := "b" ]}).

Lemma install_replaces_prefix_witness :
  let r' := (HandleInstallSnapshot one (shipped 3)).1 in
  base r' = 3 ∧ log r' = [] ∧ node_ok r'.
Proof.
  assert ((HandleInstallSnapshot one (shipped 3)).2.2 = None) as He by (vm_compute; reflexivity).
  destruct (HandleInstallSnapshot one (shipped 3)) as [r' [resp e]] eqn:Hh. simpl in He. subst e.
  assert (0 ≤ is_Term (shipped 3) < 2 ^ 64) as Hw by (split; vm_compute; congruence).
  assert (lastApplied one < is_LastIncludedIndex (shipped 3)) as Hnew by (vm_compute; congruence).
  destruct (install_replaces_prefix one (shipped 3) r' resp one_ok Hw eq_refl)
    as (Hb & _ & _ & _ & Hl & _ & _ & _ & Hok); [vm_compute; congruence|exact Hnew|exact Hh|].
  simpl. split; [exact Hb|]. split.
  - rewrite Hl. rewrite decide_False; [reflexivity|]. intros Ht. by vm_compute in Ht.
  - apply Hok. intros [_ Hle]. exfalso. vm_compute in Hle. exact (Hle eq_refl).
Defined.

Lemma old_install_is_ignored_witness :
  log (HandleInstallSnapshot one (shipped 1)).1 = log one.
Proof.
  assert ((HandleInstallSnapshot one (shipped 1)).2.2 = None) as He by (vm_compute; reflexivity).
  destruct (HandleInstallSnapshot one (shipped 1)) as [r' [resp e]] eqn:Hh. simpl in He. subst e.
  apply (old_install_is_ignored one (shipped 1) r' resp one_ok);
    [split; vm_compute; congruence|vm_compute; reflexivity|vm_compute; congruence|exact Hh].
Defined.

(** A disk left by a crash between saving a snapshot and compacting. *)
Definition crashed_stable := mkRamStable (mkStableState 2 0 3 2).
Definition crashed_log :=
  mkMemoryLogStore [noop_entry 1 1; set_entry 2 1 "k" "v"; set_entry 3 2 "a" "b"].
Definition crashed_snapshot :=
  mkRamSnapshots (Some (mkSnapshot 2 1 (marshal {[ "k" := "v" ]}))).

Lemma crashed_disk : disk_ok crashed_stable crashed_log 0.
Proof. constructor; split_and!; first [exact I|by_computation]. Qed.

Lemma crashed_snapshot_inv : snap_inv crashed_snapshot.
Proof. exact I. Qed.

Lemma recovery_is_faithful_witness :
  ∃ r, NewWithSnapshot (config_of 0) crashed_stable crashed_log (NewMemoryStore 1024) true
         crashed_snapshot = Ok r ∧
    log r = [set_entry 3 2 "a" "b"] ∧ lastApplied r = 3.
Proof.
  destruct (NewWithSnapshot (config_of 0) crashed_stable crashed_log (NewMemoryStore 1024) true
    crashed_snapshot) as [r|] eqn:Hnew; [|by vm_compute in Hnew].
  exists r. split; [reflexivity|].
  destruct (recovery_is_faithful (config_of 0) crashed_stable crashed_log (NewMemoryStore 1024) true
    crashed_snapshot 0 r crashed_disk (NewMemoryStore_inv 1024)
    crashed_snapshot_inv)
    as (_ & _ & _ & _ & Hl & _ & _ & Ha & _);
    [vm_compute; congruence|intros s [= <-]; split; vm_compute; congruence|exact Hnew|].
  split; [rewrite Hl|rewrite Ha]; vm_compute; reflexivity.
Defined.

Lemma recovery_succeeds_witness :
  ∃ r, NewWithSnapshot (config_of 0) crashed_stable crashed_log (NewMemoryStore 1024) true
         crashed_snapshot = Ok r.
Proof.
  apply (recovery_succeeds (config_of 0) crashed_stable crashed_log (NewMemoryStore 1024)
    crashed_snapshot 0 (mkMemoryStore {[ "k" := "v" ]} 1024)
    (mkMemoryStore {[ "k" := "v"; "a" := "b" ]} 1024) crashed_disk crashed_snapshot_inv);
    first [apply NewMemoryStore_inv|intros s [= <-]; split; vm_compute; congruence
          |vm_compute; reflexivity|vm_compute; congruence].
Defined.
