(* ===== verification/ClusterProps.v ===== *)
(** * The cluster: properties

    Raft's safety arguments, of the code: they hold of any number of members
    whose identifiers fit in 32 bits, and in every execution of [Cluster]:
    whatever the network loses, repeats and reorders, and whichever processes
    die and start again. *)

From S2P Require Import Prelude.
From S2P Require Import Codecs.
From S2P Require Import Log.
From S2P Require Import MemoryLog.
From S2P Require Import Config.
From S2P Require Import Stores.
From S2P Require Import Store.
From S2P Require Import RaftState.
From S2P Require Import RaftInvariant.
From S2P Require Import ReplicationFacts.
From S2P Require Import RaftNode.
From S2P Require Import RaftExchange.
From S2P Require Import Protocol.
From S2P Require Import FullLog.
From S2P Require Import Member.
From S2P Require Import Cluster.
From S2P Require Import ClusterFacts.
From S2P Require Import Doubles.
From S2P Require Import ClusterSamples.

Section ClusterProps.
Context {SS LS SM NS : Type}
  `{StableStoreLaws SS} `{LogStoreLaws LS} `{StateMachineLaws SM} `{SnapshotStoreLaws NS}.
Abbreviation Host := (Host SS LS SM NS).
Abbreviation Cluster := (Cluster SS LS SM NS).
Implicit Types (h : Host) (c : Cluster).

(** C1: State machine safety: an entry one host has committed and an entry
    another host has committed at the same index, then or any time later, are
    the same entry, as far as neither has compacted it.  (Here and below a
    cluster is one that starts with empty stores and with identifiers the wire
    can carry, in 32 bits; [cluster_start].) *)
Theorem state_machine_safety members c1 c2 n1 n2 h1 h2 i :
  NoDup members → reachable members c1 → rtc cluster_step c1 c2 →
  hosts c1 !! n1 = Some h1 → hosts c2 !! n2 = Some h2 →
  base (node h1) < i ≤ commitIndex (node h1) → base (node h2) < i ≤ commitIndex (node h2) →
  entry (node h1) i = entry (node h2) i ∧ is_Some (entry (node h1) i).
Proof.
  intros Hnd Hr Hs Hin1 Hin2 Hi1 Hi2. split; [by eapply committed_entries_agree|].
  apply entry_of_is_Some. destruct (reachable_ok _ Hnd _ Hr) as (s & _ & Hok).
  pose proof (ok_commit _ (lk_ok _ _ _ _ (ho_linked _ _ _ _ (co_hosts _ _ _ Hok _ _ Hin1)))).
  unfold lastIndex in *. lia.
Qed.

(** C3: Election safety: a term has at most one leader. *)
Theorem election_safety members c n1 n2 h1 h2 :
  NoDup members → reachable members c →
  hosts c !! n1 = Some h1 → hosts c !! n2 = Some h2 →
  state (node h1) = Leader → state (node h2) = Leader →
  currentTerm (node h1) = currentTerm (node h2) → n1 = n2.
Proof. intros. by eapply one_leader_per_term. Qed.

(** C2: Leader completeness: a leader holds every entry that any host whose
    term is not later has committed. *)
Theorem leader_completeness members c n1 n2 h1 h2 :
  NoDup members → reachable members c →
  hosts c !! n1 = Some h1 → hosts c !! n2 = Some h2 →
  state (node h2) = Leader → currentTerm (node h1) ≤ currentTerm (node h2) →
  commitIndex (node h1) ≤ lastIndex (node h2) ∧
  ∀ i, base (node h1) < i ≤ commitIndex (node h1) → base (node h2) < i →
    entry (node h2) i = entry (node h1) i.
Proof. intros. by eapply leader_has_committed. Qed.

(** C4: Log matching: two hosts that hold the same term at an index hold the
    same entries up to it, as far as they have not compacted them; and a
    leader's log is compatible with that of every host it may replicate to, as
    a converging exchange needs. *)
Theorem log_matching members c n1 n2 h1 h2 :
  NoDup members → reachable members c →
  hosts c !! n1 = Some h1 → hosts c !! n2 = Some h2 →
  (∀ i t j, term_of (node h1) i = Some t → term_of (node h2) i = Some t →
     base (node h1) < j ≤ i → base (node h2) < j → entry (node h1) j = entry (node h2) j) ∧
  (state (node h1) = Leader → currentTerm (node h2) ≤ currentTerm (node h1) →
     compatible (node h1) (node h2)).
Proof.
  intros Hnd Hr Hin1 Hin2. split; [intros; by eapply logs_match|].
  intros Hs Ht. constructor.
  - intros i t j Ht1 Ht2 Hj Hb. symmetry. by eapply (logs_match members Hnd c n1 n2).
  - intros i Hb Hi.
    destruct (leader_has_committed members Hnd c n2 n1 h2 h1) as [_ He]; try done. by apply He.
Qed.

(** C5: The cluster refines the abstract protocol: from a cluster that was
    never started, every step of a host is matched by steps of the protocol on
    whole logs, in which the term, vote and log of a member are those of its
    node. *)
Theorem cluster_refines_protocol members c :
  NoDup members → reachable members c →
  ∃ s, rtc (p_step members) p_init s ∧ cluster_ok members c s ∧
    (∀ n h, hosts c !! n = Some h →
       p_term s n = currentTerm (node h) ∧ p_vote s n = votedFor (node h) ∧
       holds (p_log s n) (node h)) ∧
    ∀ c', cluster_step c c' → ∃ s', rtc (p_step members) s s' ∧ cluster_ok members c' s'.
Proof.
  intros Hnd Hr. destruct (reachable_ok _ Hnd _ Hr) as (s & Hs & Hok).
  exists s. split_and!; [done..| |].
  - intros n h Hin. pose proof (ho_linked _ _ _ _ (co_hosts _ _ _ Hok _ _ Hin)) as [].
    by split_and!.
  - intros c' Hc. destruct (cluster_step_ok _ Hnd _ _ _ Hok Hc) as (s' & ? & ? & _). by exists s'.
Qed.

(** C6: In a cluster every step of a host is a step of the histories of its
    node, or bookkeeping; the node is consistent with its stores before and
    after, and the step only advances its term, its vote, and what it has
    committed and applied.  And what the properties of single nodes assume of
    the messages a node gets holds of every message on the network, at every
    host: requests are well formed and arrive over the wire as they were sent,
    and a snapshot agrees with what the receiver has committed.  The steps are
    those of the header: an InstallSnapshot that fails after it has cut the
    durable log, or may have recorded its commit index, takes its process down. *)
Theorem cluster_nodes_advance members c c' n h h' :
  NoDup members → reachable members c → cluster_step c c' →
  hosts c !! n = Some h → hosts c' !! n = Some h' →
  node_ok (node h) ∧ node_ok (node h') ∧ advances (node h) (node h') ∧
  (same_core (node h) (node h') ∨ node_step (node h) (node h')) ∧
  ∀ m, m ∈ network c → promised (node h) m.
Proof.
  intros Hnd Hr Hc Hin Hin'. destruct (reachable_ok _ Hnd _ Hr) as (s & _ & Hok).
  destruct (cluster_step_ok _ Hnd _ _ _ Hok Hc) as (_ & _ & _ & _ & Hev).
  destruct (Hev _ _ _ Hin Hin'). split_and!; [|done..| |].
  - apply (lk_ok _ _ _ _ (ho_linked _ _ _ _ (co_hosts _ _ _ Hok _ _ Hin))).
  - by eapply cluster_step_lives.
  - intros m. by eapply network_promised.
Qed.
End ClusterProps.

(** ** Witnesses *)

(** Host 0 is elected and commits a write with host 1; it dies and starts
    again; host 1 is elected by host 2 and commits its no-op with host 0. *)
Definition first_term : list (Z * Action) :=
  [(0, Campaign); (1, Receive 0); (0, Receive 0);
   (0, Submit (mkCommand SetOperation "k" "v"));
   (0, SendAppend 1); (1, Receive 0); (0, Receive 0);
   (0, SendAppend 1); (1, Receive 0); (0, Receive 0)].

Definition second_term : list (Z * Action) :=
  [(0, SendAppend 1); (1, Receive 0); (0, Restart);
   (1, Campaign); (2, Receive 1); (1, Receive 0);
   (1, SendAppend 0); (0, Receive 0); (1, Receive 0);
   (1, SendAppend 0); (0, Receive 0); (1, Receive 0)].

Definition committing : ramCluster := after_actions first_term.
Definition succeeded : ramCluster := after_actions (first_term ++ second_term).

Definition host_of (c : ramCluster) (n : Z) : ramHost := default (newcomer n) (hosts c !! n).

Lemma host_of_lookup c n :
  bool_decide (is_Some (hosts c !! n)) = true → hosts c !! n = Some (host_of c n).
Proof. intros [h Hh]%bool_decide_eq_true. unfold host_of. by rewrite Hh. Qed.

Lemma committing_succeeded : rtc cluster_step committing succeeded.
Proof.
  assert (perform_all second_term committing = Some succeeded) as Hp by (vm_compute; reflexivity).
  by eapply perform_all_sound.
Qed.

Lemma state_machine_safety_witness :
  entry (node (host_of committing 0)) 2 = Some (set_entry 2 1 "k" "v") ∧
  entry (node (host_of committing 0)) 2 = entry (node (host_of succeeded 1)) 2.
Proof.
  split; [vm_compute; reflexivity|].
  apply (state_machine_safety trio committing succeeded 0 1 _ _ 2 trio_distinct
    (after_actions_reachable _) committing_succeeded
    (host_of_lookup committing 0 eq_refl) (host_of_lookup succeeded 1 eq_refl));
    split; vm_compute; (reflexivity || discriminate).
Defined.

Lemma election_safety_witness :
  state (node (host_of succeeded 1)) = Leader ∧ currentTerm (node (host_of succeeded 1)) = 2 ∧
  Forall (λ n, state (node (host_of succeeded n)) = Leader →
               currentTerm (node (host_of succeeded n)) = 2 → n = 1) trio.
Proof.
  split; [vm_compute; reflexivity|]. split; [vm_compute; reflexivity|].
  repeat apply Forall_cons_2; try apply Forall_nil_2;
    (intros Hs Ht;
     eapply (election_safety trio succeeded _ 1 _ _ trio_distinct (after_actions_reachable _));
     [by apply host_of_lookup; vm_compute|by apply (host_of_lookup succeeded 1); vm_compute|exact Hs
     |vm_compute; reflexivity|rewrite Ht; vm_compute; reflexivity]).
Defined.

Lemma leader_completeness_witness :
  commitIndex (node (host_of succeeded 0)) = 2 ∧
  entry (node (host_of succeeded 1)) 2 = entry (node (host_of succeeded 0)) 2.
Proof.
  split; [vm_compute; reflexivity|].
  apply (leader_completeness trio succeeded 0 1 _ _ trio_distinct (after_actions_reachable _)
    (host_of_lookup succeeded 0 eq_refl) (host_of_lookup succeeded 1 eq_refl));
    vm_compute; (reflexivity || discriminate || (split; (reflexivity || discriminate))).
Defined.

Lemma log_matching_witness :
  term_of (node (host_of succeeded 0)) 3 = Some 2 ∧
  entry (node (host_of succeeded 0)) 1 = entry (node (host_of succeeded 1)) 1 ∧
  compatible (node (host_of succeeded 1)) (node (host_of succeeded 0)).
Proof.
  split; [vm_compute; reflexivity|]. split.
  - apply (proj1 (log_matching trio succeeded 0 1 _ _ trio_distinct (after_actions_reachable _)
      (host_of_lookup succeeded 0 eq_refl) (host_of_lookup succeeded 1 eq_refl)) 3 2);
      vm_compute; (reflexivity || discriminate || (split; (reflexivity || discriminate))).
  - apply (proj2 (log_matching trio succeeded 1 0 _ _ trio_distinct (after_actions_reachable _)
      (host_of_lookup succeeded 1 eq_refl) (host_of_lookup succeeded 0 eq_refl)));
      vm_compute; (reflexivity || discriminate).
Defined.

Lemma cluster_refines_protocol_witness :
  ∃ s, rtc (p_step trio) p_init s ∧ cluster_ok trio succeeded s ∧ p_term s 0 = 2 ∧ p_vote s 2 = 1.
Proof.
  destruct (cluster_refines_protocol trio succeeded trio_distinct (after_actions_reachable _))
    as (s & Hs & Hok & Hh & _).
  exists s. split; [exact Hs|]. split; [exact Hok|]. split.
  - destruct (Hh 0 _ (host_of_lookup succeeded 0 eq_refl)) as (-> & _). vm_compute. reflexivity.
  - destruct (Hh 2 _ (host_of_lookup succeeded 2 eq_refl)) as (_ & -> & _). vm_compute. reflexivity.
Defined.

(** Host 0 applies, compacts its log and ships its snapshot to host 2, which
    has seen nothing of the first term. *)
Definition shipping : list (Z * Action) :=
  repeat (0, ApplyNext) 12 ++ [(0, NeedInstall 2); (0, Receive 0); (0, Receive 0)].

Definition shipped : ramCluster := after_actions (first_term ++ shipping).
Definition installed2 : ramCluster := after_actions (first_term ++ shipping ++ [(2, Receive 0)]).

Lemma cluster_nodes_advance_witness :
  lastApplied (node (host_of shipped 2)) = 0 ∧ lastApplied (node (host_of installed2 2)) = 2 ∧
  data (machine (node (host_of installed2 2))) !! "k"%string = Some "v"%string ∧
  advances (node (host_of shipped 2)) (node (host_of installed2 2)) ∧
  length (network shipped) = 10%nat ∧
  Forall (promised (node (host_of shipped 2))) (network shipped).
Proof.
  assert (cluster_step shipped installed2) as Hc.
  { apply (perform_sound (2, Receive 0)). vm_compute. reflexivity. }
  destruct (cluster_nodes_advance trio shipped installed2 2 _ _ trio_distinct
    (after_actions_reachable _) Hc (host_of_lookup shipped 2 eq_refl)
    (host_of_lookup installed2 2 eq_refl)) as (_ & _ & Hadv & _ & Hnet).
  split; [vm_compute; reflexivity|]. split; [vm_compute; reflexivity|].
  split; [vm_compute; reflexivity|]. split; [exact Hadv|].
  split; [vm_compute; reflexivity|]. apply Forall_forall. exact Hnet.
Defined.
