(* ===== verification/Findings.v ===== *)
(** * What the model shows the code to do

    Runs of the definitions, on concrete inputs, where the code does not do
    what it means to.  Each follows the order of calls the code allows. *)

From S2P Require Import Prelude.
From S2P Require Import Fs.
From S2P Require Import Wal.
From S2P Require Import Codecs.
From S2P Require Import Log.
From S2P Require Import FileLog.
From S2P Require Import FileProps.
From S2P Require Import MemoryLog.
From S2P Require Import Config.
From S2P Require Import Stores.
From S2P Require Import Store.
From S2P Require Import Http.
From S2P Require Import Server.
From S2P Require Import RaftState.
From S2P Require Import RaftElection.
From S2P Require Import RaftReplication.
From S2P Require Import RaftApply.
From S2P Require Import RaftSnapshot.
From S2P Require Import RaftRecovery.
From S2P Require Import RaftLoop.
From S2P Require Import Transport.
From S2P Require Import NodeProc.
From S2P Require Import RaftInvariant.
From S2P Require Import Doubles.
From S2P Require Import Samples.

(** ** The answer to an overwritten proposal *)

(** The leader's proposal at index 4 is replaced by the no-op of a new leader,
    which is then applied. *)
Definition overwritten : ramRaft :=
  (applyCommitted 4 (HandleAppendEntries proposed
     (mkAppendEntries 3 1 3 2 [noop_entry 4 3] 4)).1).1.

(** Its client is told of success, and its write is nowhere: a step down does
    not clear [pendingResults]. *)
Lemma overwritten_proposal_succeeds :
  channels overwritten !! 0%nat = Some (mkChannel [mkResult 4 None] true) ∧
  entry overwritten 4 = Some (noop_entry 4 3) ∧ data (machine overwritten) !! "a"%string = None.
Proof. split_and!; vm_compute; reflexivity. Qed.

(** ** Two votes in one term *)

(** A candidate whose identifier is [NoVote] once on the wire gets a vote that
    is not recorded; the next candidate gets one as well. *)
Definition wireCandidate (candidate : Z) : RequestVoteRequest :=
  requestVoteFromProto (requestVoteToProto (mkRequestVote 5 candidate 9 9)).

Lemma unrecorded_vote :
  let '(r, resp) := HandleRequestVote behind (wireCandidate (2 ^ 32 - 1)) in
  rvr_VoteGranted resp = true ∧
  rvr_VoteGranted (HandleRequestVote r (wireCandidate 2)).2 = true ∧
  rvr_Term resp = rvr_Term (HandleRequestVote r (wireCandidate 2)).2.
Proof. vm_compute. split_and!; reflexivity. Qed.

(** And a configuration with such a member is accepted. *)
Lemma wide_identifier_accepted :
  let c := config_of 0 in
  Config_Validate {|
    Self := Self c;
    Peers := [mkNode (2 ^ 32 - 1) "h1:1" "h1:2"; node_of 2];
    DataDir := DataDir c;
    ElectionTimeoutMin := ElectionTimeoutMin c;
    ElectionTimeoutMax := ElectionTimeoutMax c;
    HeartbeatInterval := HeartbeatInterval c;
    SnapshotThreshold := SnapshotThreshold c;
  |} = None.
Proof. vm_compute. reflexivity. Qed.

(** ** A snapshot between the fetch of an entry and its execution *)

Definition newer : InstallSnapshotRequest :=
  mkInstallSnapshot 3 1 6 3 (marshal {[ "a" := "z" ]}).

(** The old entry runs on the restored machine, and the apply loop stops for
    good. *)
Lemma stale_entry_applied :
  applyCommitted_fetch applied3 = Fetch (set_entry 4 2 "a" "b") ∧
  let '(r, (_, err)) := HandleInstallSnapshot applied3 newer in
  err = None ∧ data (machine r) !! "a"%string = Some "z"%string ∧
  let '(r, err) := applyCommitted_execute r (set_entry 4 2 "a" "b") in
  err = None ∧ lastApplied r = 6 ∧ data (machine r) !! "a"%string = Some "b"%string ∧
  is_Some (applyCommitted_complete r (set_entry 4 2 "a" "b")).2.
Proof. vm_compute. split_and!; try reflexivity. by eexists. Qed.

(** ** A connection opened by a closed transport *)

(** A caller dials, the transport is closed, the caller goes on: it caches its
    connection, which nobody closes any more. *)
Lemma connection_after_close :
  let '(t1, c) := client_dial NewGRPCTransport in
  let '(t2, closed) := Transport_Close t1 (λ _, None) in
  let '(t3, r) := client_publish t2 "peer" c None in
  client_lookup NewGRPCTransport "peer" = None ∧ closed = None ∧
  r = Ok c ∧ conns t3 !! "peer"%string = Some c ∧ opened t3 !! c = Some true.
Proof. vm_compute. split_and!; reflexivity. Qed.

(** ** What a leader knows of a peer moves back *)

(** The answer to a snapshot sent earlier lowers [matchIndex] and
    [nextIndex]. *)
Lemma match_index_moves_back :
  matchIndex committed4 !! 1 = Some 4 ∧
  let r := (handleInstallSnapshotResponse committed4 1 (mkInstallSnapshot 2 0 2 1 [Byte.x00])
              (mkInstallSnapshotResponse 2)).1 in
  matchIndex r !! 1 = Some 2 ∧ nextIndex r !! 1 = Some 3.
Proof. vm_compute. split_and!; reflexivity. Qed.

(** ** A snapshot the machine refuses *)

(** The snapshot is durable and the durable log is cut before [Restore] fails:
    the log in memory is no longer the durable one. *)
Lemma refused_snapshot_installed :
  let bad := mkInstallSnapshot 3 1 6 3 (marshal {[ "" := "z" ]}) in
  let '(r, (_, err)) := HandleInstallSnapshot applied3 bad in
  is_Some err ∧ length (log r) = 4%nat ∧ log_entries (logStore r) = [] ∧
  (ram_snapshot <$> snapshotStore r) = Some (Some (mkSnapshot 6 3 (is_Data bad))).
Proof. vm_compute. split_and!; try reflexivity. by eexists. Qed.

(** ** The log file *)

Definition ioError : error := Errorf "input/output error".

(** A batch that fails midway stays in the file; the retry is appended after
    it, and the log can no longer be loaded. *)
Lemma partial_batch_kept :
  let '(d, r) := file_Append openStore [e1; e2] (emptyDisk [Done; Done; Failed 0 ioError]) in
  is_Some (default None r) ∧
  let '(d, r) := file_Append openStore [e1; e2] d in
  r = Some None ∧
  match (file_Load openStore d).2 with Some (Err _) => True | _ => False end.
Proof. vm_compute. split_and!; try done. by eexists. Qed.

(** [Replace] fails after the rename: the store goes on with the unlinked old
    file, and an append that is reported durable is not there after a restart. *)
Lemma append_after_failed_replace :
  let '(d, _) := file_Append openStore [e1; e2] (emptyDisk []) in
  let failing := d <| faults := replicate 13 Done ++ [Failed 0 ioError] |> in
  match file_TruncateFrom openStore 2 failing with
  | (d, Some (s, err)) =>
      is_Some err ∧
      let '(d, r) := file_Append s [e2] d in
      r = Some None ∧ (visible d = Some (frames (marshalEntry <$> [e1])))
  | _ => False
  end.
Proof. vm_compute. split_and!; try done. by eexists. Qed.

(** The directory is not synced when the file is created: a crash may lose it
    with everything [Append] has synced. *)
Lemma created_file_lost :
  match NewFileLogStore (rebooted None []) with
  | (d, Some (Ok s)) =>
      let '(d, r) := file_Append s [e1] d in r = Some None ∧ image d None
  | _ => False
  end.
Proof. vm_compute. split; [reflexivity|]. exists None. split; [by right|done]. Qed.

(** ** Stopping before the HTTP server has started *)

(** [Shutdown] does nothing then; [Start] goes on to serve a stopped node. *)
Lemma stop_before_serving (n : Process (SS := ramStable) (LS := memoryLogStore) (NS := ramSnapshots)) :
  httpSrv (http n) = None → stopped n = false →
  let '(n', _) := Process_Stop None None (λ _, None) n in
  stopped n' = true ∧ (Process_Start None n').2 = Ok true.
Proof.
  intros Hh Hs. unfold Process_Stop, Shutdown. rewrite Hs, Hh.
  destruct (Transport_Close _ _), (log_Close _). done.
Qed.
